From Stdlib Require Import ZArith List Lia Bool.
From stdpp Require Import base option list gmap.
Import ListNotations.
Local Open Scope Z_scope.


(** * Verification of the bptree-db storage core

    Shallow embedding of the storage engine: the mmap-backed [DiskManager],
    the redo-only [WriteAheadLog], the LRU [BufferPool] and the [BPlusTree]
    built on them.  Every C++ function that the stated properties refer to is
    rendered as a Rocq function of the same name; C++ members become record
    fields, and member functions take and return the object they mutate. *)

(** ** Outcomes of a call

    A C++ call either returns, leaves by an exception, or has no defined
    behaviour (a store outside the mapping, a null page view that is
    dereferenced).  Loops whose termination depends on the contents of the
    file are run with fuel. *)

Inductive exn : Type :=
| out_of_range      (* std::out_of_range, thrown by DiskManager::PageData *)
| runtime_error.    (* std::runtime_error *)

Inductive result (A : Type) : Type :=
| Ok (a : A)
| Throw (e : exn)
| AssertFail         (* a failed assert() *)
| Undefined          (* undefined behaviour in the source *)
| OutOfFuel.

Arguments Ok {A} a.
Arguments Throw {A} e.
Arguments AssertFail {A}.
Arguments Undefined {A}.
Arguments OutOfFuel {A}.

Definition bindR {A B : Type} (m : result A) (k : A -> result B) : result B :=
  match m with
  | Ok a => k a
  | Throw e => Throw e
  | AssertFail => AssertFail
  | Undefined => Undefined
  | OutOfFuel => OutOfFuel
  end.

#[global] Instance result_bind : MBind result := fun A B k m => bindR m k.
#[global] Instance result_ret : MRet result := fun A a => Ok a.

(** ** Fixed-width integers and raw memory *)

Definition PAGE_SIZE : Z := 4096.
Definition DATA_SIZE : Z := 100.
Definition LEAF_MAX_KEYS : Z := 35.
Definition INTERNAL_MAX_KEYS : Z := 100.
Definition INVALID_PAGE_ID : Z := -1.
Definition META_ROOT_OFFSET : Z := 0.
Definition META_NEXT_PAGE : Z := 8.
Definition META_FREE_LIST_HEAD : Z := 16.
Definition FREE_PAGE_NEXT_OFFSET : Z := 0.
Definition DEFAULT_POOL_SIZE : Z := 1024.
(* C++ integer division, both operands positive *)
Definition LEAF_MIN_KEYS : Z := (LEAF_MAX_KEYS + 1) / 2.
Definition INTERNAL_MIN_KEYS : Z := (INTERNAL_MAX_KEYS + 1) / 2.

(** The object representation of an [n]-byte integer, little-endian, as
    [memcpy] of the integer writes it. *)
Fixpoint le_bytes (n : nat) (v : Z) : list Z :=
  match n with
  | O => []
  | S n' => v mod 256 :: le_bytes n' (v / 256)
  end.

Fixpoint le_value (bs : list Z) : Z :=
  match bs with
  | [] => 0
  | b :: r => b + 256 * le_value r
  end.

(** Two's-complement reading of an unsigned [bits]-bit value. *)
Definition to_signed (bits : Z) (u : Z) : Z :=
  if u <? 2 ^ (bits - 1) then u else u - 2 ^ bits.

Definition in_int64 (v : Z) : Prop := - 2 ^ 63 <= v < 2 ^ 63.

(** Raw memory: a byte at every address.  The bounds of the object that a
    pointer refers to are checked by the functions that use it. *)
Definition mem : Type := Z -> Z.

Definition mem_read (m : mem) (off : Z) (n : nat) : list Z :=
  map (fun i => m (off + Z.of_nat i)) (seq 0 n).

Definition mem_write (m : mem) (off : Z) (bs : list Z) : mem :=
  fun a =>
    if (off <=? a) && (a <? off + Z.of_nat (length bs))
    then nth (Z.to_nat (a - off)) bs 0
    else m a.

(** [memset(base + off, 0, len)] *)
Definition mem_zero (m : mem) (off len : Z) : mem :=
  fun a => if (off <=? a) && (a <? off + len) then 0 else m a.

(** [memcpy(dst + doff, src + soff, len)] between two buffers *)
Definition mem_copy (dst : mem) (doff : Z) (src : mem) (soff len : Z) : mem :=
  fun a => if (doff <=? a) && (a <? doff + len) then src (soff + (a - doff)) else dst a.

Definition load_i64 (m : mem) (off : Z) : Z := to_signed 64 (le_value (mem_read m off 8)).
Definition store_i64 (m : mem) (off v : Z) : mem := mem_write m off (le_bytes 8 v).

Definition is_ok {A : Type} (r : result A) : bool :=
  match r with Ok _ => true | _ => false end.

(** The value a call returned, or [dflt] if it did not return. *)
Definition result_get {A : Type} (dflt : A) (r : result A) : A :=
  match r with Ok a => a | _ => dflt end.


(** * DiskManager: the memory-mapped index file (src/disk_manager.cpp) *)

Module Disk.

(** [mapped_] is the content of the mapping, [file_size_] its length.  The
    three metadata words live in the first 24 bytes of the mapping itself. *)
Record DiskManager : Type := mkDisk {
  file_size_ : Z;
  mapped_ : mem;
}.

Definition with_mapped (d : DiskManager) (m : mem) : DiskManager :=
  mkDisk (file_size_ d) m.

Definition FileSize (d : DiskManager) : Z := file_size_ d.

(** A store or load through [mapped_ + off] of [len] bytes stays inside the
    mapping.  Outside of it the behaviour of the source is undefined. *)
Definition in_mapping (d : DiskManager) (off len : Z) : bool :=
  (0 <=? off) && (off + len <=? file_size_ d).

(** [PageData]: the returned pointer is [mapped_ + offset]; the model returns
    the offset.  [offset] is not negative when the sum is cast to [size_t]. *)
Definition PageData (d : DiskManager) (offset : Z) : result Z :=
  if (offset <? 0) || (file_size_ d <? offset + PAGE_SIZE)
  then Throw out_of_range
  else Ok offset.

(** Metadata helpers (page 0).  [mmap] maps whole pages, so page 0 is always
    addressable. *)
Definition RootOffset (d : DiskManager) : Z := load_i64 (mapped_ d) META_ROOT_OFFSET.
Definition SetRootOffset (d : DiskManager) (offset : Z) : DiskManager :=
  with_mapped d (store_i64 (mapped_ d) META_ROOT_OFFSET offset).

Definition NextPageOffset (d : DiskManager) : Z := load_i64 (mapped_ d) META_NEXT_PAGE.
Definition SetNextPageOffset (d : DiskManager) (offset : Z) : DiskManager :=
  with_mapped d (store_i64 (mapped_ d) META_NEXT_PAGE offset).

Definition FreeListHead (d : DiskManager) : Z := load_i64 (mapped_ d) META_FREE_LIST_HEAD.
Definition SetFreeListHead (d : DiskManager) (offset : Z) : DiskManager :=
  with_mapped d (store_i64 (mapped_ d) META_FREE_LIST_HEAD offset).

(** [EnsureCapacity]: grow geometrically (at least double, minimum 1 MB).
    [grown_size] is the new length of a file that is too short. *)
Definition grown_size (file_size required : Z) : Z :=
  let min_size := ((required + PAGE_SIZE - 1) / PAGE_SIZE) * PAGE_SIZE in
  let new_size := Z.max min_size (Z.max (file_size * 2) (Z.shiftl 1 20)) in
  ((new_size + PAGE_SIZE - 1) / PAGE_SIZE) * PAGE_SIZE.

(** [ftruncate] extends the file with zero bytes; the failure of [ftruncate]
    or [mmap] is not modelled. *)
Definition EnsureCapacity (d : DiskManager) (required : Z) : DiskManager :=
  if required <=? file_size_ d then d
  else mkDisk (grown_size (file_size_ d) required)
              (fun a => if a <? file_size_ d then mapped_ d a else 0).

(** [ReclaimPage]: pop the head of the free list, or return -1. *)
Definition ReclaimPage (d : DiskManager) : result (Z * DiskManager) :=
  let head := FreeListHead d in
  if head =? INVALID_PAGE_ID then Ok (INVALID_PAGE_ID, d)
  else if in_mapping d (head + FREE_PAGE_NEXT_OFFSET) 8 then
    let next := load_i64 (mapped_ d) (head + FREE_PAGE_NEXT_OFFSET) in
    Ok (head, SetFreeListHead d next)
  else Undefined.

Definition AllocatePage (d : DiskManager) : result (Z * DiskManager) :=
  '(reclaimed, d) ← ReclaimPage d;
  if negb (reclaimed =? INVALID_PAGE_ID) then
    if in_mapping d reclaimed PAGE_SIZE
    then Ok (reclaimed, with_mapped d (mem_zero (mapped_ d) reclaimed PAGE_SIZE))
    else Undefined
  else
    let next := NextPageOffset d in
    let new_next := next + PAGE_SIZE in
    let d := EnsureCapacity d new_next in
    if in_mapping d next PAGE_SIZE then
      let d := with_mapped d (mem_zero (mapped_ d) next PAGE_SIZE) in
      Ok (next, SetNextPageOffset d new_next)
    else Undefined.

(** [FreePage]: push onto the free list; the metadata page is never freed. *)
Definition FreePage (d : DiskManager) (page_offset : Z) : result DiskManager :=
  if page_offset <? PAGE_SIZE then Ok d
  else
    let old_head := FreeListHead d in
    if in_mapping d (page_offset + FREE_PAGE_NEXT_OFFSET) 8 then
      let d := with_mapped d (store_i64 (mapped_ d) (page_offset + FREE_PAGE_NEXT_OFFSET) old_head) in
      Ok (SetFreeListHead d page_offset)
    else Undefined.

(** [Sync], [SyncAsync] and [FlushMetadata] call [msync]; they change neither
    the mapping nor the members. *)
Definition Sync (d : DiskManager) : DiskManager := d.
Definition FlushMetadata (d : DiskManager) : DiskManager := d.

(** The state a brand-new file is opened in: one page, [root = -1],
    [next_page = PAGE_SIZE], [free_list_head = -1]. *)
Definition new_file : DiskManager :=
  FlushMetadata
    (SetFreeListHead
       (SetNextPageOffset
          (SetRootOffset (mkDisk PAGE_SIZE (fun _ => 0)) INVALID_PAGE_ID)
          PAGE_SIZE)
       INVALID_PAGE_ID).

End Disk.


(** * WriteAheadLog: the append-only redo log (src/wal.cpp, wal.h) *)

Module Wal.

(** The lookup table of [WriteAheadLog::CRC32], as the source spells it. *)
Definition kCRC32Table : list Z := [
    0x00000000; 0x77073096; 0xEE0E612C; 0x990951BA; 0x076DC419; 0x706AF48F;
    0xE963A535; 0x9E6495A3; 0x0EDB8832; 0x79DCB8A4; 0xE0D5E91B; 0x97D2D988;
    0x09B64C2B; 0x7EB17CBE; 0xE7B82D09; 0x90BF1D91; 0x1DB71064; 0x6AB020F2;
    0xF3B97148; 0x84BE41DE; 0x1ADAD47D; 0x6DDDE4EB; 0xF4D4B551; 0x83D385C7;
    0x136C9856; 0x646BA8C0; 0xFD62F97A; 0x8A65C9EC; 0x14015C4F; 0x63066CD9;
    0xFA0F3D63; 0x8D080DF5; 0x3B6E20C8; 0x4C69105E; 0xD56041E4; 0xA2677172;
    0x3C03E4D4; 0x4B04D442; 0xD20D85FD; 0xA50AB56B; 0x35B5A8FA; 0x42B2986C;
    0xDBBBB9D6; 0xACBCB9C6; 0x32D86CE3; 0x45DF5C75; 0xDCD60DCF; 0xABD13D59;
    0x26D930AC; 0x51DE003A; 0xC8D75180; 0xBFD06116; 0x21B4F6B5; 0x56B3C423;
    0xCFBA9599; 0xB8BDA50F; 0x2802B89E; 0x5F058808; 0xC60CD9B2; 0xB10BE924;
    0x2F6F7C87; 0x58684C11; 0xC1611DAB; 0xB6662D3D; 0x76DC4190; 0x01DB7106;
    0x98D220BC; 0xEFD5102A; 0x71B18589; 0x06B6B51F; 0x9FBFE4A5; 0xE8B8D433;
    0x7807C9A2; 0x0F00F934; 0x9609A88E; 0xE10E9818; 0x7F6A0D69; 0x086D3D2D;
    0x91646C97; 0xE6635C01; 0x6B6B51F4; 0x1C6C6162; 0x856530D8; 0xF262004E;
    0x6C0695ED; 0x1B01A57B; 0x8208F4C1; 0xF50FC457; 0x65B0D9C6; 0x12B7E950;
    0x8BBEB8EA; 0xFCB9887C; 0x62DD1DDF; 0x15DA2D49; 0x8CD37CF3; 0xFBD44C65;
    0x4DB26158; 0x3AB551CE; 0xA3BC0074; 0xD4BB30E2; 0x4ADFA541; 0x3DD895D7;
    0xA4D1C46D; 0xD3D6F4FB; 0x4369E96A; 0x346ED9FC; 0xAD678846; 0xDA60B8D0;
    0x44042D73; 0x33031DE5; 0xAA0A4C5F; 0xDD0D7822; 0x3B75BD5A; 0x4C72B68C;
    0xD5DB596A; 0xA2D85A5C; 0x570D3F9E; 0x2000A7C8; 0xB966D409; 0xCE61E49F;
    0x5EDEF90E; 0x29D9C998; 0xB0D09822; 0xC7D7A8B4; 0x59B33D17; 0x2EB40D81;
    0xB7BD5C3B; 0xC0BA6CAD; 0xEDB88320; 0x9ABFB3B6; 0x03B6E20C; 0x74B1D29A;
    0xEAD54739; 0x9DD277AF; 0x04DB2615; 0x73DC1683; 0xE3630B12; 0x94643B84;
    0x0D6D6A3E; 0x7A6A5AA8; 0xE40ECF0B; 0x9309FF9D; 0x0A00AE27; 0x7D079EB1;
    0xF00F9344; 0x8708A3D2; 0x1E01F268; 0x6906C2FE; 0xF762575D; 0x806567CB;
    0x196C3671; 0x6E6B06E7; 0xFED41B76; 0x89D32BE0; 0x10DA7A5A; 0x67DD4ACC;
    0xF9B9DF6F; 0x8EBEEFF9; 0x17B7BE43; 0x60B08ED5; 0xD6D6A3E8; 0xA1D1937E;
    0x38D8C2C4; 0x4FDFF252; 0xD1BB67F1; 0xA6BC5767; 0x3FB506DD; 0x48B2364B;
    0xD80D2BDA; 0xAF0A1B4C; 0x36034AF6; 0x41047A60; 0xDF60EFC3; 0xA867DF55;
    0x316E8EEF; 0x4669BE79; 0xCB61B38C; 0xBC66831A; 0x256FD2A0; 0x5268E236;
    0xCC0C7795; 0xBB0B4703; 0x220216B9; 0x5505262F; 0xC5BA3BBE; 0xB2BD0B28;
    0x2BB45A92; 0x5CB36A04; 0xC2D7FFA7; 0xB5D0CF31; 0x2CD99E8B; 0x5BDEAE1D;
    0x9B64C2B0; 0xEC63F226; 0x756AA39C; 0x026D930A; 0x9C0906A9; 0xEB0E363F;
    0x72076785; 0x05005713; 0x95BF4A82; 0xE2B87A14; 0x7BB12BAE; 0x0CB61B38;
    0x92D28E9B; 0xE5D5BE0D; 0x7CDCEFB8; 0x0BDBDF21; 0x86D3D2D4; 0xF1D4E242;
    0x68DDB3F6; 0x1FDA836E; 0x81BE16CD; 0xF6B9265B; 0x6FB077E1; 0x18B74777;
    0x88085AE6; 0xFF0F6B70; 0x66063BCA; 0x11010B5C; 0x8F659EFF; 0xF862AE69;
    0x616BFFD3; 0x166CCF45; 0xA00AE278; 0xD70DD2EE; 0x4E048354; 0x3903B3C2;
    0xA7672661; 0xD06016F7; 0x4969474D; 0x3E6E77DB; 0xAED16A4A; 0xD9D65ADC;
    0x40DF0B66; 0x37D83BF0; 0xA9BCAE53; 0xDEBB9EC5; 0x47B2CF7F; 0x30B5FFE9;
    0xBDBDF21C; 0xCABAC28A; 0x53B39330; 0x24B4A3A6; 0xBAD03605; 0xCDD706FF;
    0x54DE5729; 0x23D967BF; 0xB3667A2E; 0xC4614AB8; 0x5D681B02; 0x2A6F2B94;
    0xB40BBE37; 0xC30C8EA1; 0x5A05DF1B; 0x2D02EF8D
  ].

Definition CRC32 (buf : list Z) : Z :=
  Z.lxor
    (fold_left
       (fun crc b =>
          Z.lxor (nth (Z.to_nat (Z.land (Z.lxor crc b) 0xFF)) kCRC32Table 0)
                 (Z.shiftr crc 8))
       buf 0xFFFFFFFF)
    0xFFFFFFFF.

(** [LogRecordType], by its [uint32_t] value. *)
Definition kInvalid : Z := 0.
Definition kPageWrite : Z := 1.
Definition kCheckpointBegin : Z := 2.
Definition kCheckpointEnd : Z := 3.

Definition WAL_MAGIC : Z := 0x57414C31.

(** [WALFileHeader]: magic(4) | version(4) | checkpoint_lsn(8). *)
Definition file_header_bytes (checkpoint_lsn : Z) : list Z :=
  le_bytes 4 WAL_MAGIC ++ le_bytes 4 1 ++ le_bytes 8 checkpoint_lsn.

(** [LogRecordHeader]:
    lsn(8) | type(4) | padding(4) | page_id(8) | data_len(4) | checksum(4).
    The padding of a value-initialised header is taken to be zero. *)
Record LogRecordHeader : Type := mkHeader {
  lsn : Z;
  type : Z;
  page_id : Z;
  data_len : Z;
  checksum : Z;
}.

Definition header_bytes (h : LogRecordHeader) : list Z :=
  le_bytes 8 (lsn h) ++ le_bytes 4 (type h) ++ [0; 0; 0; 0] ++
  le_bytes 8 (page_id h) ++ le_bytes 4 (data_len h) ++ le_bytes 4 (checksum h).

Definition slice (bs : list Z) (off len : nat) : list Z := take len (drop off bs).

(** Reading the 32 bytes of a header back into the struct. *)
Definition parse_header (bs : list Z) : LogRecordHeader :=
  mkHeader (le_value (slice bs 0 8))
           (le_value (slice bs 8 4))
           (to_signed 64 (le_value (slice bs 16 8)))
           (le_value (slice bs 24 4))
           (le_value (slice bs 28 4)).

(** The bytes of [check_hdr]: the header as read, its checksum field zeroed. *)
Definition zero_checksum (hdr_bytes : list Z) : list Z := take 28 hdr_bytes ++ [0; 0; 0; 0].

Record RecoveryRecord : Type := mkRec {
  header : LogRecordHeader;
  data : list Z;
}.

(** The log file, and the members of the object.  The descriptor's position is
    at the end of the file between calls; appends extend the file. *)
Record WriteAheadLog : Type := mkWal {
  file : list Z;
  next_lsn_ : Z;
  checkpoint_lsn_ : Z;
  bytes_written_ : Z;
  records_written_ : Z;
}.

(** [AppendRecord]; a null [data] is the empty list, [data_len] its length. *)
Definition AppendRecord (w : WriteAheadLog) (ty page : Z) (payload : list Z) : WriteAheadLog :=
  let data_len := Z.of_nat (length payload) in
  let hdr0 := mkHeader (next_lsn_ w) ty page data_len 0 in
  let crc := CRC32 (header_bytes hdr0) in
  let crc := if 0 <? data_len then Z.lxor crc (CRC32 payload) else crc in
  let hdr := mkHeader (next_lsn_ w) ty page data_len crc in
  mkWal (file w ++ header_bytes hdr ++ payload)
        ((next_lsn_ w + 1) mod 2 ^ 64)
        (checkpoint_lsn_ w)
        (bytes_written_ w + 32 + data_len)
        (records_written_ w + 1).

Definition Flush (w : WriteAheadLog) : WriteAheadLog := w.

(** [LogPageWrite]: the payload is the [PAGE_SIZE] bytes at [page_data]. *)
Definition LogPageWrite (w : WriteAheadLog) (page : Z) (page_data : mem) : Z * WriteAheadLog :=
  (next_lsn_ w, AppendRecord w kPageWrite page (mem_read page_data 0 (Z.to_nat PAGE_SIZE))).

Definition BeginCheckpoint (w : WriteAheadLog) : Z * WriteAheadLog :=
  (next_lsn_ w, Flush (AppendRecord w kCheckpointBegin INVALID_PAGE_ID [])).

(** [Truncate]: the file is cut to its header, which is rewritten. *)
Definition Truncate (w : WriteAheadLog) : WriteAheadLog :=
  mkWal (file_header_bytes (checkpoint_lsn_ w))
        (next_lsn_ w) (checkpoint_lsn_ w) (bytes_written_ w) (records_written_ w).

Definition EndCheckpoint (w : WriteAheadLog) : Z * WriteAheadLog :=
  let l := next_lsn_ w in
  let w := Flush (AppendRecord w kCheckpointEnd INVALID_PAGE_ID []) in
  let w := mkWal (file_header_bytes l ++ drop 16 (file w))
                 (next_lsn_ w) l (bytes_written_ w) (records_written_ w) in
  (l, Truncate w).

(** [ReadAllRecords]: the loop reads at least 32 bytes per turn, so the
    length of the file bounds the number of turns. *)
Fixpoint read_records (fuel : nat) (bs : list Z) : list RecoveryRecord :=
  match fuel with
  | O => []
  | S fuel' =>
      if (length bs <? 32)%nat then []                       (* EOF *)
      else
        let hb := take 32 bs in
        let hdr := parse_header hb in
        let rest := drop 32 bs in
        if (lsn hdr =? 0) || (kCheckpointEnd <? type hdr) then []
        else if 0 <? data_len hdr then
          if Z.of_nat (length rest) <? data_len hdr then []   (* truncated *)
          else
            let payload := take (Z.to_nat (data_len hdr)) rest in
            let expected_crc := Z.lxor (CRC32 (zero_checksum hb)) (CRC32 payload) in
            if negb (expected_crc =? checksum hdr) then []
            else mkRec hdr payload :: read_records fuel' (drop (Z.to_nat (data_len hdr)) rest)
        else
          let expected_crc := CRC32 (zero_checksum hb) in
          if negb (expected_crc =? checksum hdr) then []
          else mkRec hdr [] :: read_records fuel' rest
  end.

Definition ReadAllRecords (w : WriteAheadLog) : list RecoveryRecord :=
  read_records (length (file w)) (drop 16 (file w)).

(** The constructor on a file that does not exist yet, and on an existing one. *)
Definition create : WriteAheadLog := mkWal (file_header_bytes 0) 1 0 0 0.

Definition open (bytes : list Z) : result WriteAheadLog :=
  if (length bytes =? 0)%nat then Ok create
  else if (length bytes <? 16)%nat || negb (le_value (slice bytes 0 4) =? WAL_MAGIC)
  then Throw runtime_error
  else
    let w := mkWal bytes 1 (le_value (slice bytes 8 8)) 0 0 in
    let records := ReadAllRecords w in
    match last records with
    | Some r => Ok (mkWal bytes ((lsn (header r) + 1) mod 2 ^ 64) (checkpoint_lsn_ w) 0 0)
    | None => Ok w
    end.

(** The backward scan of [Recover] for the last completed checkpoint. *)
Definition redo_after (w : WriteAheadLog) (records : list RecoveryRecord) : Z :=
  match find (fun r => type (header r) =? kCheckpointEnd) (rev records) with
  | Some r => lsn (header r)
  | None => checkpoint_lsn_ w
  end.

(** [while (disk.NextPageOffset() <= page_id) disk.AllocatePage();] *)
Fixpoint allocate_up_to (fuel : nat) (d : Disk.DiskManager) (page : Z) : result Disk.DiskManager :=
  if negb (Disk.NextPageOffset d <=? page) then Ok d
  else match fuel with
       | O => OutOfFuel
       | S fuel' =>
           '(_, d) ← Disk.AllocatePage d;
           allocate_up_to fuel' d page
       end.

(** The redo loop: the disk and the count of pages applied so far. *)
Fixpoint redo (fuel : nat) (after : Z) (records : list RecoveryRecord)
              (d : Disk.DiskManager) (pages_recovered : Z) : result (Disk.DiskManager * Z) :=
  match records with
  | [] => Ok (d, pages_recovered)
  | r :: records' =>
      let h := header r in
      if lsn h <=? after then redo fuel after records' d pages_recovered
      else if negb (type h =? kPageWrite) then redo fuel after records' d pages_recovered
      else if page_id h =? INVALID_PAGE_ID then redo fuel after records' d pages_recovered
      else if negb (Z.of_nat (length (data r)) =? PAGE_SIZE) then redo fuel after records' d pages_recovered
      else
        let required := page_id h + PAGE_SIZE in
        d ← (if Disk.FileSize d <? required then allocate_up_to fuel d (page_id h) else Ok d);
        page ← Disk.PageData d (page_id h);
        let d := Disk.with_mapped d (mem_write (Disk.mapped_ d) page (data r)) in
        redo fuel after records' d (pages_recovered + 1)
  end.

Definition Recover (fuel : nat) (w : WriteAheadLog) (d : Disk.DiskManager)
  : result (Z * WriteAheadLog * Disk.DiskManager) :=
  let records := ReadAllRecords w in
  let after := redo_after w records in
  '(d, pages_recovered) ← redo fuel after records d 0;
  let d := if 0 <? pages_recovered then Disk.Sync d else d in
  let w := match last records with
           | Some r => mkWal (file w) ((lsn (header r) + 1) mod 2 ^ 64) (checkpoint_lsn_ w)
                             (bytes_written_ w) (records_written_ w)
           | None => w
           end in
  let w := if 0 <? pages_recovered then Truncate w else w in
  Ok (pages_recovered, w, d).

End Wal.


(** * BufferPool: the LRU page cache (src/buffer_pool.cpp, buffer_pool.h) *)

Module Pool.

(** [PageFrame]; [data] is the frame's [char data[PAGE_SIZE]]. *)
Record PageFrame : Type := mkFrame {
  page_id : Z;
  pin_count : Z;
  dirty : bool;
  data : mem;
}.

Definition empty_frame : PageFrame := mkFrame INVALID_PAGE_ID 0 false (fun _ => 0).

(** The members of the pool.  [lru_map_] is the index of [lru_list_] and is
    not kept apart from it; [wal_] is the attached log, if any. *)
Record BufferPool : Type := mkPool {
  pool_size_ : Z;
  frames_ : list PageFrame;
  page_table_ : gmap Z nat;
  lru_list_ : list nat;          (* front = least recently used *)
  free_list_ : list nat;         (* back = next frame handed out *)
  hits_ : Z;
  misses_ : Z;
}.

(** The pool together with the two objects it refers to: [disk_] by
    reference, [wal_] by pointer ([None] is the null pointer). *)
Record world : Type := mkWorld {
  pool : BufferPool;
  disk : Disk.DiskManager;
  wal : option Wal.WriteAheadLog;
}.

Definition with_pool (s : world) (p : BufferPool) : world := mkWorld p (disk s) (wal s).
Definition with_disk (s : world) (d : Disk.DiskManager) : world := mkWorld (pool s) d (wal s).

Definition set_frames (p : BufferPool) (fs : list PageFrame) : BufferPool :=
  mkPool (pool_size_ p) fs (page_table_ p) (lru_list_ p) (free_list_ p) (hits_ p) (misses_ p).
Definition set_page_table (p : BufferPool) (t : gmap Z nat) : BufferPool :=
  mkPool (pool_size_ p) (frames_ p) t (lru_list_ p) (free_list_ p) (hits_ p) (misses_ p).
Definition set_lru_list (p : BufferPool) (l : list nat) : BufferPool :=
  mkPool (pool_size_ p) (frames_ p) (page_table_ p) l (free_list_ p) (hits_ p) (misses_ p).
Definition set_free_list (p : BufferPool) (l : list nat) : BufferPool :=
  mkPool (pool_size_ p) (frames_ p) (page_table_ p) (lru_list_ p) l (hits_ p) (misses_ p).
Definition set_hits (p : BufferPool) (h : Z) : BufferPool :=
  mkPool (pool_size_ p) (frames_ p) (page_table_ p) (lru_list_ p) (free_list_ p) h (misses_ p).
Definition set_misses (p : BufferPool) (m : Z) : BufferPool :=
  mkPool (pool_size_ p) (frames_ p) (page_table_ p) (lru_list_ p) (free_list_ p) (hits_ p) m.

(** The constructor: all frames start on the free list, pushed from
    [pool_size - 1] down to [0]. *)
Definition create (pool_size : nat) : BufferPool :=
  mkPool (Z.of_nat pool_size) (replicate pool_size empty_frame) ∅ [] (rev (seq 0 pool_size)) 0 0.

Definition SetWAL (s : world) (w : Wal.WriteAheadLog) : world := mkWorld (pool s) (disk s) (Some w).

(** [frames_[idx]]: an index outside the vector has no defined behaviour. *)
Definition frame_at (p : BufferPool) (idx : nat) : result PageFrame :=
  match frames_ p !! idx with
  | Some f => Ok f
  | None => Undefined
  end.

Definition set_frame (p : BufferPool) (idx : nat) (f : PageFrame) : BufferPool :=
  set_frames p (<[idx := f]> (frames_ p)).

(** Removal of a frame index from the LRU list through [lru_map_]. *)
Fixpoint lru_erase (idx : nat) (l : list nat) : list nat :=
  match l with
  | [] => []
  | x :: r => if (x =? idx)%nat then r else x :: lru_erase idx r
  end.

Definition FindVictim (p : BufferPool) : option nat := head (lru_list_ p).

(** [free_list_.back()] and [free_list_.pop_back()] *)
Definition take_free (p : BufferPool) : option (nat * BufferPool) :=
  match last (free_list_ p) with
  | Some idx => Some (idx, set_free_list p (removelast (free_list_ p)))
  | None => None
  end.

Definition EvictFrame (s : world) (frame_idx : nat) : result world :=
  f ← frame_at (pool s) frame_idx;
  (* Flush to disk if dirty. *)
  '(f, d) ← (if dirty f && negb (page_id f =? INVALID_PAGE_ID) then
               disk_page ← Disk.PageData (disk s) (page_id f);
               Ok (mkFrame (page_id f) (pin_count f) false (data f),
                   Disk.with_mapped (disk s)
                     (mem_copy (Disk.mapped_ (disk s)) disk_page (data f) 0 PAGE_SIZE))
             else Ok (f, disk s));
  let p := pool s in
  let p := set_page_table p (delete (page_id f) (page_table_ p)) in
  let p := set_lru_list p (lru_erase frame_idx (lru_list_ p)) in
  let p := set_frame p frame_idx (mkFrame INVALID_PAGE_ID 0 (dirty f) (data f)) in
  Ok (mkWorld p d (wal s)).

(** The frame for a page that is not resident: from the free list, else by
    eviction; [None] when all frames are pinned. *)
Definition obtain_frame (s : world) : result (option nat * world) :=
  match take_free (pool s) with
  | Some (idx, p) => Ok (Some idx, with_pool s p)
  | None =>
      match FindVictim (pool s) with
      | None => Ok (None, s)
      | Some idx => s ← EvictFrame s idx; Ok (Some idx, s)
      end
  end.

(** [FetchPage]: the returned pointer is the frame's buffer, given here by the
    frame's index; [None] is the null pointer. *)
Definition FetchPage (s : world) (page : Z) : result (option nat * world) :=
  if page <? 0 then AssertFail
  else
    match page_table_ (pool s) !! page with
    | Some idx =>
        let p := set_hits (pool s) (hits_ (pool s) + 1) in
        f ← frame_at p idx;
        let p := set_frame p idx (mkFrame (page_id f) (pin_count f + 1) (dirty f) (data f)) in
        let p := set_lru_list p (lru_erase idx (lru_list_ p)) in
        Ok (Some idx, with_pool s p)
    | None =>
        let s := with_pool s (set_misses (pool s) (misses_ (pool s) + 1)) in
        '(fr, s) ← obtain_frame s;
        match fr with
        | None => Ok (None, s)
        | Some frame_idx =>
            f ← frame_at (pool s) frame_idx;
            disk_page ← Disk.PageData (disk s) page;
            let f := mkFrame page 1 false
                       (mem_copy (data f) 0 (Disk.mapped_ (disk s)) disk_page PAGE_SIZE) in
            let p := set_frame (pool s) frame_idx f in
            let p := set_page_table p (<[page := frame_idx]> (page_table_ p)) in
            Ok (Some frame_idx, with_pool s p)
        end
    end.

Definition UnpinPage (s : world) (page : Z) (is_dirty : bool) : result (bool * world) :=
  match page_table_ (pool s) !! page with
  | None => Ok (false, s)
  | Some idx =>
      f ← frame_at (pool s) idx;
      if pin_count f <=? 0 then Ok (false, s)
      else
        let f := mkFrame (page_id f) (pin_count f - 1) (dirty f || is_dirty) (data f) in
        let p := set_frame (pool s) idx f in
        let p := if pin_count f =? 0 then set_lru_list p (lru_list_ p ++ [idx]) else p in
        Ok (true, with_pool s p)
  end.

(** The body shared by [FlushPage] and by each turn of [FlushAllPages]:
    a dirty frame is copied to the mapped page and marked clean. *)
Definition flush_frame (s : world) (page : Z) (idx : nat) : result world :=
  f ← frame_at (pool s) idx;
  if dirty f then
    disk_page ← Disk.PageData (disk s) page;
    let d := Disk.with_mapped (disk s)
               (mem_copy (Disk.mapped_ (disk s)) disk_page (data f) 0 PAGE_SIZE) in
    let p := set_frame (pool s) idx (mkFrame (page_id f) (pin_count f) false (data f)) in
    Ok (mkWorld p d (wal s))
  else Ok s.

Definition FlushPage (s : world) (page : Z) : result (bool * world) :=
  match page_table_ (pool s) !! page with
  | None => Ok (false, s)
  | Some idx => s ← flush_frame s page idx; Ok (true, s)
  end.

Definition FlushAllPages (s : world) : result world :=
  s ← foldl (fun acc '(pid, idx) => s ← acc; flush_frame s pid idx)
            (Ok s) (map_to_list (page_table_ (pool s)));
  Ok (with_disk s (Disk.Sync (disk s))).

(** [NewPage]: the page id is an out-parameter, assigned before a frame is
    looked for. *)
Definition NewPage (s : world) : result (option nat * Z * world) :=
  (* Allocate on disk first. *)
  '(page, d) ← Disk.AllocatePage (disk s);
  let s := with_disk s d in
  '(fr, s) ← obtain_frame s;
  match fr with
  | None => Ok (None, page, s)     (* Cannot evict -- caller should flush. *)
  | Some frame_idx =>
      f ← frame_at (pool s) frame_idx;
      let f := mkFrame page 1 true (mem_zero (data f) 0 PAGE_SIZE) in
      let p := set_frame (pool s) frame_idx f in
      let p := set_page_table p (<[page := frame_idx]> (page_table_ p)) in
      Ok (Some frame_idx, page, with_pool s p)
  end.

Definition DeletePage (s : world) (page : Z) : result (bool * world) :=
  match page_table_ (pool s) !! page with
  | None => Ok (true, s)
  | Some idx =>
      f ← frame_at (pool s) idx;
      if 0 <? pin_count f then Ok (false, s)
      else
        let p := set_lru_list (pool s) (lru_erase idx (lru_list_ (pool s))) in
        let p := set_frame p idx (mkFrame INVALID_PAGE_ID 0 false (data f)) in
        let p := set_page_table p (delete page (page_table_ p)) in
        let p := set_free_list p (free_list_ p ++ [idx]) in
        Ok (true, with_pool s p)
  end.

End Pool.


(** * Typed page views (page.h)

    The tree reads and writes a page only through the accessors of
    [LeafPage] and [InternalPage].  A page is modelled by what these
    accessors see: the header fields and the slot array.  A slot array is
    indexed like the C array; a slot that was never written reads as zero
    bytes (every page starts zeroed).  Slot indices are not checked against
    the capacity of the page, as in the source. *)

Module Slots.
Section Slots.
Context {A : Type} (zero : A).

Definition get (l : list A) (i : nat) : A := nth i l zero.

Definition set (l : list A) (i : nat) (x : A) : list A :=
  if (i <? length l)%nat then <[i := x]> l
  else l ++ replicate (i - length l) zero ++ [x].

(** The first [n] slots. *)
Definition prefix (l : list A) (n : nat) : list A := map (get l) (seq 0 n).

End Slots.
End Slots.

(** The payload of a record: [DATA_SIZE] bytes. *)
Definition zero_data : list Z := replicate (Z.to_nat DATA_SIZE) 0.
Definition zero_record : Z * list Z := (0, zero_data).

Module LeafPage.

(** Layout: num_keys(4) | is_leaf = 1 (4) | next_leaf(8) | records[]. *)
Record t : Type := mk {
  num_keys : Z;
  next_leaf : Z;
  records : list (Z * list Z);
}.

(** [Init]: zero the page, [is_leaf = 1], [next = -1]. *)
Definition Init : t := mk 0 INVALID_PAGE_ID [].

Definition NumKeys (p : t) : Z := num_keys p.
Definition SetNumKeys (p : t) (n : Z) : t := mk n (next_leaf p) (records p).
Definition NextLeaf (p : t) : Z := next_leaf p.
Definition SetNextLeaf (p : t) (v : Z) : t := mk (num_keys p) v (records p).

Definition GetRecord (p : t) (idx : nat) : Z * list Z := Slots.get zero_record (records p) idx.
Definition KeyAt (p : t) (idx : nat) : Z := fst (GetRecord p idx).
Definition GetData (p : t) (idx : nat) : list Z := snd (GetRecord p idx).
Definition SetRecord (p : t) (idx : nat) (key : Z) (data : list Z) : t :=
  mk (num_keys p) (next_leaf p) (Slots.set zero_record (records p) idx (key, data)).
Definition SetKeyAt (p : t) (idx : nat) (key : Z) : t := SetRecord p idx key (GetData p idx).
Definition SetData (p : t) (idx : nat) (data : list Z) : t := SetRecord p idx (KeyAt p idx) data.

End LeafPage.

Module InternalPage.

(** Layout: num_keys(4) | is_leaf = 0 (4) | slots[], a slot being
    child(8) | key(4).  The two halves of the slots are kept as two arrays. *)
Record t : Type := mk {
  num_keys : Z;
  keys : list Z;
  children : list Z;
}.

(** [Init]: zero the page, [is_leaf = 0]. *)
Definition Init : t := mk 0 [] [].

Definition NumKeys (p : t) : Z := num_keys p.
Definition SetNumKeys (p : t) (n : Z) : t := mk n (keys p) (children p).
Definition ChildAt (p : t) (idx : nat) : Z := Slots.get 0 (children p) idx.
Definition SetChildAt (p : t) (idx : nat) (child : Z) : t :=
  mk (num_keys p) (keys p) (Slots.set 0 (children p) idx child).
Definition KeyAt (p : t) (idx : nat) : Z := Slots.get 0 (keys p) idx.
Definition SetKeyAt (p : t) (idx : nat) (key : Z) : t :=
  mk (num_keys p) (Slots.set 0 (keys p) idx key) (children p).

End InternalPage.

(** What a page of the file holds.  A freed page keeps the offset of the next
    free page in its first eight bytes, which are the header of a node; such
    a page is not read as a node. *)
Inductive page : Type :=
| PLeaf (p : LeafPage.t)
| PInternal (p : InternalPage.t)
| PFree (next : Z).

(** A page of zero bytes, as [AllocatePage] leaves it: [is_leaf = 0],
    [num_keys = 0]. *)
Definition zero_page : page := PInternal InternalPage.Init.

(** [PageIsLeaf]: the [is_leaf] flag at byte 4. *)
Definition PageIsLeaf (p : page) : option bool :=
  match p with
  | PLeaf _ => Some true
  | PInternal _ => Some false
  | PFree _ => None
  end.


(** * BPlusTree (bplus_tree.cpp)

    The tree reaches its pages through [PinPage] / [UnpinPage] /
    [AllocPage] / [DeallocPage].  The model keeps the file as the tree sees it
    through the buffer pool: for every page offset the page a pin returns (the
    frame if the page is resident, the mapped page otherwise).  A pin is taken
    to find a frame: the tree holds at most two pins at a time, and the pool
    is assumed to have that many frames.  A pin copies the page into a local
    view; the view is written back where the source unpins it dirty.  (The
    source never unpins a modified page clean.) *)

Module Tree.

Inductive Status : Type := OK | NotFound | InvalidArg | IOError.

Record BPlusTree : Type := mkTree {
  root_offset_ : Z;
  next_page_offset_ : Z;
  (* the index file behind [disk_] and [pool_] *)
  file_size : Z;
  meta_root : Z;                (* page 0: root_offset *)
  meta_next : Z;                (* page 0: next_page_offset *)
  meta_free : Z;                (* page 0: free_list_head *)
  pages : gmap Z page;          (* pages written so far, by offset *)
}.

(** A tree on a brand-new file. *)
Definition empty_tree : BPlusTree :=
  mkTree INVALID_PAGE_ID PAGE_SIZE PAGE_SIZE INVALID_PAGE_ID PAGE_SIZE INVALID_PAGE_ID ∅.

(** ** The state monad of the member functions

    The state is kept when a call leaves by an exception. *)
Definition M (A : Type) : Type := BPlusTree -> result A * BPlusTree.

Definition ret {A : Type} (a : A) : M A := fun t => (Ok a, t).

Definition bind {A B : Type} (m : M A) (k : A -> M B) : M B :=
  fun t =>
    match m t with
    | (Ok a, t') => k a t'
    | (Throw e, t') => (Throw e, t')
    | (AssertFail, t') => (AssertFail, t')
    | (Undefined, t') => (Undefined, t')
    | (OutOfFuel, t') => (OutOfFuel, t')
    end.

#[global] Instance M_bind : MBind M := fun A B k m => bind m k.
#[global] Instance M_ret : MRet M := fun A a => ret a.

Definition fail {A : Type} (r : result A) : M A := fun t => (r, t).
Definition gets {A : Type} (f : BPlusTree -> A) : M A := fun t => (Ok (f t), t).
Definition modify (f : BPlusTree -> BPlusTree) : M unit := fun t => (Ok tt, f t).

Definition set_pages (t : BPlusTree) (ps : gmap Z page) : BPlusTree :=
  mkTree (root_offset_ t) (next_page_offset_ t) (file_size t)
         (meta_root t) (meta_next t) (meta_free t) ps.
Definition set_root_offset_ (t : BPlusTree) (r : Z) : BPlusTree :=
  mkTree r (next_page_offset_ t) (file_size t)
         (meta_root t) (meta_next t) (meta_free t) (pages t).

(** ** Page access *)

(** The page at an offset inside the file: what was last written there, or
    the zero bytes the file was extended with. *)
Definition page_at (t : BPlusTree) (off : Z) : page := default zero_page (pages t !! off).

(** An offset the model gives a page to: a page boundary past the metadata
    page.  (A pin of any other offset inside the file returns bytes that are
    not one page of the model.) *)
Definition page_boundary (off : Z) : bool := (PAGE_SIZE <=? off) && (off mod PAGE_SIZE =? 0).

(** [PinPage] is [BufferPool::FetchPage]: the assertion on the page id, and
    the range check of [DiskManager::PageData] for a page that is not
    resident. *)
Definition PinPage (page_id : Z) : M page :=
  fun t =>
    if page_id <? 0 then (AssertFail, t)
    else if file_size t <? page_id + PAGE_SIZE then (Throw out_of_range, t)
    else if page_boundary page_id then (Ok (page_at t page_id), t)
    else (Undefined, t).

(** [UnpinPage(page_id, dirty)], given the view that was modified. *)
Definition UnpinPage (page_id : Z) (view : page) (dirty : bool) : M unit :=
  if dirty then modify (fun t => set_pages t (<[page_id := view]> (pages t)))
  else ret tt.

(** [LeafPage leaf(page)] and [InternalPage node(page)] on a pinned page.
    A page is read through the view of its kind only. *)
Definition PinLeaf (page_id : Z) : M LeafPage.t :=
  p ← PinPage page_id;
  match p with PLeaf l => ret l | _ => fail Undefined end.

Definition PinInternal (page_id : Z) : M InternalPage.t :=
  p ← PinPage page_id;
  match p with PInternal n => ret n | _ => fail Undefined end.

(** [DiskManager::AllocatePage], on pages. *)
Definition AllocatePage : M Z :=
  fun t =>
    let head := meta_free t in
    if negb (head =? INVALID_PAGE_ID) then
      (* ReclaimPage: pop the head, then zero the page *)
      if (0 <=? head) && (head + PAGE_SIZE <=? file_size t) && page_boundary head then
        match pages t !! head with
        | Some (PFree next) =>
            (Ok head,
             mkTree (root_offset_ t) (next_page_offset_ t) (file_size t)
                    (meta_root t) (meta_next t) next (<[head := zero_page]> (pages t)))
        | _ => (Undefined, t)
        end
      else (Undefined, t)
    else
      let next := meta_next t in
      let new_next := next + PAGE_SIZE in
      let size := if new_next <=? file_size t then file_size t
                  else Disk.grown_size (file_size t) new_next in
      if page_boundary next then
        (Ok next,
         mkTree (root_offset_ t) (next_page_offset_ t) size
                (meta_root t) new_next (meta_free t) (<[next := zero_page]> (pages t)))
      else (Undefined, t).

(** [AllocPage]: [pool_->NewPage] hands out a zeroed, pinned frame for the
    page that the disk manager allocated. *)
Definition AllocPage : M Z :=
  page_id ← AllocatePage;
  modify (fun t => mkTree (root_offset_ t) (meta_next t) (file_size t)
                          (meta_root t) (meta_next t) (meta_free t) (pages t));;
  ret page_id.

(** [DeallocPage]: [pool_->DeletePage] drops the frame, and
    [DiskManager::FreePage] links the page into the free list. *)
Definition DeallocPage (page_id : Z) : M unit :=
  fun t =>
    if page_id <? PAGE_SIZE then (Ok tt, t)
    else if (page_id + PAGE_SIZE <=? file_size t) && page_boundary page_id then
      (Ok tt,
       mkTree (root_offset_ t) (next_page_offset_ t) (file_size t)
              (meta_root t) (meta_next t) page_id
              (<[page_id := PFree (meta_free t)]> (pages t)))
    else (Undefined, t).

Definition WriteMetadata : M unit :=
  modify (fun t => mkTree (root_offset_ t) (next_page_offset_ t) (file_size t)
                          (root_offset_ t) (next_page_offset_ t) (meta_free t) (pages t)).

Definition IsEmpty (t : BPlusTree) : bool := root_offset_ t =? INVALID_PAGE_ID.

(** ** Loops over the slots of one page *)

(** [int i = 0; while (i < n && key >= node.KeyAt(i)) ++i;] *)
Fixpoint child_index (node : InternalPage.t) (key : Z) (todo i : nat) : nat :=
  match todo with
  | O => i
  | S todo' =>
      if InternalPage.KeyAt node i <=? key then child_index node key todo' (S i) else i
  end.

(** [for (int i = 0; i < n; ++i) if (leaf.KeyAt(i) == key) ...] *)
Fixpoint find_key (leaf : LeafPage.t) (key : Z) (todo i : nat) : option nat :=
  match todo with
  | O => None
  | S todo' =>
      if LeafPage.KeyAt leaf i =? key then Some i else find_key leaf key todo' (S i)
  end.

(** [int i = n - 1; while (i >= 0 && leaf.KeyAt(i) > key) { move record i to
    i + 1; --i; }]  The counter is [i + 1]; the result is the final [i + 1]. *)
Fixpoint leaf_make_room (leaf : LeafPage.t) (key : Z) (c : nat) : nat * LeafPage.t :=
  match c with
  | O => (O, leaf)
  | S i =>
      if key <? LeafPage.KeyAt leaf i then
        let '(tk, td) := LeafPage.GetRecord leaf i in
        leaf_make_room (LeafPage.SetRecord leaf (S i) tk td) key i
      else (c, leaf)
  end.

(** [for (int i = 0; i < n; ++i) leaf.GetRecord(i, recs[i].k, recs[i].d);] *)
Definition leaf_records (leaf : LeafPage.t) (n : nat) : list (Z * list Z) :=
  map (LeafPage.GetRecord leaf) (seq 0 n).

(** [std::lower_bound] with the comparison [a.k < b.k]: the first position
    whose key is not less than [key]. *)
Fixpoint lower_bound (recs : list (Z * list Z)) (key : Z) : nat :=
  match recs with
  | [] => O
  | r :: recs' => if fst r <? key then S (lower_bound recs' key) else O
  end.

(** [v.insert(v.begin() + pos, x)] *)
Definition vector_insert {A : Type} (v : list A) (pos : nat) (x : A) : list A :=
  take pos v ++ x :: drop pos v.

(** [for (i = from; i < recs.size(); ++i) p.SetRecord(i - from, recs[i])],
    [rs] being [recs] from [from] on and [idx] the slot [i - from]. *)
Fixpoint leaf_store (p : LeafPage.t) (idx : nat) (rs : list (Z * list Z)) : LeafPage.t :=
  match rs with
  | [] => p
  | (k, d) :: rs' => leaf_store (LeafPage.SetRecord p idx k d) (S idx) rs'
  end.

(** [for (int j = from; j < n - 1; ++j) move record j + 1 to j] *)
Fixpoint leaf_shift_left (p : LeafPage.t) (j todo : nat) : LeafPage.t :=
  match todo with
  | O => p
  | S todo' =>
      let '(tk, td) := LeafPage.GetRecord p (S j) in
      leaf_shift_left (LeafPage.SetRecord p j tk td) (S j) todo'
  end.

(** [for (int j = cn - 1; j >= 0; --j) move record j to j + 1]; the counter
    is [j + 1]. *)
Fixpoint leaf_shift_right (p : LeafPage.t) (c : nat) : LeafPage.t :=
  match c with
  | O => p
  | S j =>
      let '(k2, d2) := LeafPage.GetRecord p j in
      leaf_shift_right (LeafPage.SetRecord p (S j) k2 d2) j
  end.

(** [for (int j = 0; j < rn; ++j) left.SetRecord(ln + j, right.GetRecord(j))] *)
Fixpoint leaf_append (left right : LeafPage.t) (ln j todo : nat) : LeafPage.t :=
  match todo with
  | O => left
  | S todo' =>
      let '(tk, td) := LeafPage.GetRecord right j in
      leaf_append (LeafPage.SetRecord left (ln + j) tk td) right ln (S j) todo'
  end.

(** [int i = n - 1; while (i >= 0 && node.KeyAt(i) > key) { key i moves to
    i + 1, child i + 1 to i + 2; --i; }] *)
Fixpoint internal_make_room (node : InternalPage.t) (key : Z) (c : nat) : nat * InternalPage.t :=
  match c with
  | O => (O, node)
  | S i =>
      if key <? InternalPage.KeyAt node i then
        let node := InternalPage.SetKeyAt node (S i) (InternalPage.KeyAt node i) in
        let node := InternalPage.SetChildAt node (S (S i)) (InternalPage.ChildAt node (S i)) in
        internal_make_room node key i
      else (c, node)
  end.

(** [while (pos < keys.size() && keys[pos] < key) ++pos;] *)
Fixpoint key_position (keys : list Z) (key : Z) : nat :=
  match keys with
  | [] => O
  | k :: keys' => if k <? key then S (key_position keys' key) else O
  end.

(** [for (j = from; j < ks.size(); ++j) p.SetKeyAt(j - from, ks[j])] *)
Fixpoint internal_store_keys (p : InternalPage.t) (idx : nat) (ks : list Z) : InternalPage.t :=
  match ks with
  | [] => p
  | k :: ks' => internal_store_keys (InternalPage.SetKeyAt p idx k) (S idx) ks'
  end.

Fixpoint internal_store_children (p : InternalPage.t) (idx : nat) (cs : list Z) : InternalPage.t :=
  match cs with
  | [] => p
  | c :: cs' => internal_store_children (InternalPage.SetChildAt p idx c) (S idx) cs'
  end.

(** [for (int j = 0; j < mid; ++j) { node.SetKeyAt(j, keys[j]);
    node.SetChildAt(j, children[j]); }] *)
Fixpoint internal_store_both (p : InternalPage.t) (idx : nat) (ks cs : list Z) : InternalPage.t :=
  match ks, cs with
  | k :: ks', c :: cs' =>
      internal_store_both
        (InternalPage.SetChildAt (InternalPage.SetKeyAt p idx k) idx c) (S idx) ks' cs'
  | _, _ => p
  end.

(** [for (int j = idx; j < pn - 1; ++j) { key j + 1 moves to j,
    child j + 2 to j + 1 }]: the separator [idx] and the child right of it
    are removed. *)
Fixpoint internal_remove (p : InternalPage.t) (j todo : nat) : InternalPage.t :=
  match todo with
  | O => p
  | S todo' =>
      let p := InternalPage.SetKeyAt p j (InternalPage.KeyAt p (S j)) in
      let p := InternalPage.SetChildAt p (S j) (InternalPage.ChildAt p (S (S j))) in
      internal_remove p (S j) todo'
  end.

(** [for (int j = cn - 1; j >= 0; --j) { key j moves to j + 1,
    child j + 1 to j + 2 }] *)
Fixpoint internal_shift_right (p : InternalPage.t) (c : nat) : InternalPage.t :=
  match c with
  | O => p
  | S j =>
      let p := InternalPage.SetKeyAt p (S j) (InternalPage.KeyAt p j) in
      let p := InternalPage.SetChildAt p (S (S j)) (InternalPage.ChildAt p (S j)) in
      internal_shift_right p j
  end.

(** [for (int j = 0; j < right_n - 1; ++j) { key j + 1 moves to j,
    child j + 1 to j }] *)
Fixpoint internal_shift_left (p : InternalPage.t) (j todo : nat) : InternalPage.t :=
  match todo with
  | O => p
  | S todo' =>
      let p := InternalPage.SetKeyAt p j (InternalPage.KeyAt p (S j)) in
      let p := InternalPage.SetChildAt p j (InternalPage.ChildAt p (S j)) in
      internal_shift_left p (S j) todo'
  end.

(** [for (int j = 0; j < rn; ++j) { left.SetKeyAt(ln + 1 + j, right.KeyAt(j));
    left.SetChildAt(ln + 2 + j, right.ChildAt(j + 1)); }] *)
Fixpoint internal_append (left right : InternalPage.t) (ln j todo : nat) : InternalPage.t :=
  match todo with
  | O => left
  | S todo' =>
      let left := InternalPage.SetKeyAt left (ln + 1 + j) (InternalPage.KeyAt right j) in
      let left := InternalPage.SetChildAt left (ln + 2 + j) (InternalPage.ChildAt right (S j)) in
      internal_append left right ln (S j) todo'
  end.

(** ** Search *)

(** The loop of [SearchLeaf], entered with [page] pinned at [current]. *)
Fixpoint SearchLeaf_loop (fuel : nat) (key current : Z) (page : page) : M Z :=
  match page with
  | PLeaf _ =>
      UnpinPage current page false;;
      ret current
  | PInternal node =>
      match fuel with
      | O => fail OutOfFuel
      | S fuel' =>
          let n := InternalPage.NumKeys node in
          let i := child_index node key (Z.to_nat n) 0 in
          let child := InternalPage.ChildAt node i in
          UnpinPage current page false;;
          if child <? PAGE_SIZE then ret INVALID_PAGE_ID
          else
            page ← PinPage child;
            SearchLeaf_loop fuel' key child page
      end
  | PFree _ => fail Undefined
  end.

Definition SearchLeaf (fuel : nat) (key : Z) : M Z :=
  root ← gets root_offset_;
  if root =? INVALID_PAGE_ID then ret INVALID_PAGE_ID
  else
    page ← PinPage root;
    SearchLeaf_loop fuel key root page.

(** [Search(key, char* data_out)]: the status, and the bytes copied to
    [data_out] when the key was found. *)
Definition Search (fuel : nat) (key : Z) : M (Status * option (list Z)) :=
  leaf_off ← SearchLeaf fuel key;
  if leaf_off =? INVALID_PAGE_ID then ret (NotFound, None)
  else
    leaf ← PinLeaf leaf_off;
    let n := LeafPage.NumKeys leaf in
    match find_key leaf key (Z.to_nat n) 0 with
    | Some i =>
        UnpinPage leaf_off (PLeaf leaf) false;;
        ret (OK, Some (LeafPage.GetData leaf i))
    | None =>
        UnpinPage leaf_off (PLeaf leaf) false;;
        ret (NotFound, None)
    end.

(** [strnlen(buf, DATA_SIZE)] and [std::string(buf, len)] *)
Fixpoint strnlen (buf : list Z) (maxlen : nat) : nat :=
  match maxlen, buf with
  | S m, b :: buf' => if b =? 0 then O else S (strnlen buf' m)
  | _, _ => O
  end.

Definition to_string (buf : list Z) : list Z := take (strnlen buf (Z.to_nat DATA_SIZE)) buf.

(** [Search(key, std::string& value_out)] *)
Definition SearchString (fuel : nat) (key : Z) : M (Status * option (list Z)) :=
  '(s, buf) ← Search fuel key;
  ret (s, to_string <$> buf).

(** ** Range query *)

(** The scan of one leaf: the pairs to append, and whether a key above
    [upper] was met. *)
Fixpoint scan_leaf (leaf : LeafPage.t) (lower upper : Z) (todo i : nat)
  : list (Z * list Z) * bool :=
  match todo with
  | O => ([], false)
  | S todo' =>
      let k := LeafPage.KeyAt leaf i in
      if upper <? k then ([], true)
      else
        let '(rest, done) := scan_leaf leaf lower upper todo' (S i) in
        if lower <=? k then ((k, to_string (LeafPage.GetData leaf i)) :: rest, done)
        else (rest, done)
  end.

Fixpoint RangeQuery_loop (fuel : nat) (lower upper leaf_off : Z) (results : list (Z * list Z))
  : M (list (Z * list Z)) :=
  if negb (leaf_off =? INVALID_PAGE_ID) && (PAGE_SIZE <=? leaf_off) then
    match fuel with
    | O => fail OutOfFuel
    | S fuel' =>
        leaf ← PinLeaf leaf_off;
        let n := LeafPage.NumKeys leaf in
        let '(found, done) := scan_leaf leaf lower upper (Z.to_nat n) 0 in
        let next := LeafPage.NextLeaf leaf in
        UnpinPage leaf_off (PLeaf leaf) false;;
        if done then ret (results ++ found)
        else RangeQuery_loop fuel' lower upper next (results ++ found)
    end
  else ret results.

Definition RangeQuery (fuel : nat) (lower upper : Z) : M (Status * list (Z * list Z)) :=
  if upper <? lower then ret (InvalidArg, [])
  else
    root ← gets root_offset_;
    if root =? INVALID_PAGE_ID then ret (OK, [])
    else
      leaf_off ← SearchLeaf fuel lower;
      if leaf_off =? INVALID_PAGE_ID then ret (OK, [])
      else
        results ← RangeQuery_loop fuel lower upper leaf_off [];
        ret (OK, results).

(** ** Insert *)

(** [strlen(data)], [data] being the bytes at the pointer: the characters
    of the string, then its terminator. *)
Fixpoint strlen (data : list Z) : nat :=
  match data with
  | [] => O
  | b :: data' => if b =? 0 then O else S (strlen data')
  end.

(** [char padded[DATA_SIZE]{}; memcpy(padded, data, min(strlen(data) + 1, DATA_SIZE));] *)
Definition pad (data : list Z) : list Z :=
  let n := Nat.min (strlen data + 1) (Z.to_nat DATA_SIZE) in
  take (Z.to_nat DATA_SIZE) (take n (data ++ [0]) ++ zero_data).

(** The result of the insert helpers: [None] for [false], the two
    out-parameters for [true]. *)
Definition InsertIntoLeaf (leaf_off key : Z) (data : list Z) : M (option (Z * Z)) :=
  leaf ← PinLeaf leaf_off;
  let n := Z.to_nat (LeafPage.NumKeys leaf) in
  match find_key leaf key n 0 with
  | Some i =>
      (* Existing key -- update. *)
      let leaf := LeafPage.SetData leaf i data in
      UnpinPage leaf_off (PLeaf leaf) true;;
      ret None
  | None =>
      if LeafPage.NumKeys leaf <? LEAF_MAX_KEYS then
        (* Room available. *)
        let '(pos, leaf) := leaf_make_room leaf key n in
        let leaf := LeafPage.SetRecord leaf pos key data in
        let leaf := LeafPage.SetNumKeys leaf (LeafPage.NumKeys leaf + 1) in
        UnpinPage leaf_off (PLeaf leaf) true;;
        ret None
      else
        (* Full -- split. *)
        let recs := leaf_records leaf n in
        let recs := vector_insert recs (lower_bound recs key) (key, data) in
        let mid := ((length recs + 1) / 2)%nat in
        (* New leaf. *)
        new_leaf_off ← AllocPage;
        let new_leaf := LeafPage.Init in
        let new_leaf := LeafPage.SetNumKeys new_leaf (Z.of_nat (length recs) - Z.of_nat mid) in
        let new_leaf := leaf_store new_leaf 0 (drop mid recs) in
        (* Linked list. *)
        let new_leaf := LeafPage.SetNextLeaf new_leaf (LeafPage.NextLeaf leaf) in
        UnpinPage new_leaf_off (PLeaf new_leaf) true;;
        (* Left half stays in the original page (still pinned from above). *)
        let leaf := LeafPage.SetNumKeys leaf (Z.of_nat mid) in
        let leaf := leaf_store leaf 0 (take mid recs) in
        let leaf := LeafPage.SetNextLeaf leaf new_leaf_off in
        UnpinPage leaf_off (PLeaf leaf) true;;
        (* Re-read split key. *)
        npage ← PinLeaf new_leaf_off;
        let split_key := LeafPage.KeyAt npage 0 in
        UnpinPage new_leaf_off (PLeaf npage) false;;
        ret (Some (split_key, new_leaf_off))
  end.

Definition InsertIntoInternal (node_off key child_off : Z) : M (option (Z * Z)) :=
  node ← PinInternal node_off;
  let n := Z.to_nat (InternalPage.NumKeys node) in
  if InternalPage.NumKeys node <? INTERNAL_MAX_KEYS then
    (* Room available. *)
    let '(pos, node) := internal_make_room node key n in
    let node := InternalPage.SetKeyAt node pos key in
    let node := InternalPage.SetChildAt node (S pos) child_off in
    let node := InternalPage.SetNumKeys node (InternalPage.NumKeys node + 1) in
    UnpinPage node_off (PInternal node) true;;
    ret None
  else
    (* Full -- split. *)
    let keys := map (InternalPage.KeyAt node) (seq 0 n) in
    let children := map (InternalPage.ChildAt node) (seq 0 (S n)) in
    UnpinPage node_off (PInternal node) false;;
    let pos := key_position keys key in
    let keys := vector_insert keys pos key in
    let children := vector_insert children (S pos) child_off in
    let mid := (length keys / 2)%nat in
    let split_key := nth mid keys 0 in
    (* New internal node. *)
    new_node_off ← AllocPage;
    let new_node := InternalPage.Init in
    let right_count := Z.of_nat (length keys) - Z.of_nat mid - 1 in
    let new_node := InternalPage.SetNumKeys new_node right_count in
    let new_node := internal_store_keys new_node 0 (drop (S mid) keys) in
    let new_node := internal_store_children new_node 0 (drop (S mid) children) in
    UnpinPage new_node_off (PInternal new_node) true;;
    (* Write left half. *)
    node ← PinInternal node_off;
    let node := InternalPage.SetNumKeys node (Z.of_nat mid) in
    let node := internal_store_both node 0 (take mid keys) (take mid children) in
    let node := InternalPage.SetChildAt node mid (nth mid children 0) in
    UnpinPage node_off (PInternal node) true;;
    ret (Some (split_key, new_node_off)).

Fixpoint InsertRecursive (fuel : nat) (node_off key : Z) (data : list Z) : M (option (Z * Z)) :=
  match fuel with
  | O => fail OutOfFuel
  | S fuel' =>
      page ← PinPage node_off;
      match page with
      | PLeaf _ =>
          UnpinPage node_off page false;;
          InsertIntoLeaf node_off key data
      | PInternal node =>
          let n := InternalPage.NumKeys node in
          let i := child_index node key (Z.to_nat n) 0 in
          let child := InternalPage.ChildAt node i in
          UnpinPage node_off page false;;
          r ← InsertRecursive fuel' child key data;
          match r with
          | None => ret None
          | Some (child_split, child_new) =>
              InsertIntoInternal node_off child_split child_new
          end
      | PFree _ => fail Undefined
      end
  end.

(** [Insert].  The branch that returns [IOError] when [AllocPage] yields a
    null view is not reached: a frame is always found. *)
Definition Insert (fuel : nat) (key : Z) (data : list Z) : M Status :=
  let padded := pad data in
  root ← gets root_offset_;
  if root =? INVALID_PAGE_ID then
    (* Empty tree -- create root leaf. *)
    off ← AllocPage;
    let leaf := LeafPage.Init in
    let leaf := LeafPage.SetNumKeys leaf 1 in
    let leaf := LeafPage.SetRecord leaf 0 key padded in
    UnpinPage off (PLeaf leaf) true;;
    modify (fun t => set_root_offset_ t off);;
    WriteMetadata;;
    ret OK
  else
    r ← InsertRecursive fuel root key padded;
    match r with
    | Some (split_key, new_off) =>
        new_root ← AllocPage;
        old_root ← gets root_offset_;
        let node := InternalPage.Init in
        let node := InternalPage.SetNumKeys node 1 in
        let node := InternalPage.SetKeyAt node 0 split_key in
        let node := InternalPage.SetChildAt node 0 old_root in
        let node := InternalPage.SetChildAt node 1 new_off in
        UnpinPage new_root (PInternal node) true;;
        modify (fun t => set_root_offset_ t new_root);;
        WriteMetadata;;
        ret OK
    | None => ret OK
    end.

(** ** Delete (with rebalancing) *)

Definition DeleteFromLeaf (leaf_off key : Z) : M bool :=
  leaf ← PinLeaf leaf_off;
  let n := LeafPage.NumKeys leaf in
  match find_key leaf key (Z.to_nat n) 0 with
  | None =>
      UnpinPage leaf_off (PLeaf leaf) false;;
      ret false
  | Some found =>
      (* Shift remaining records left. *)
      let leaf := leaf_shift_left leaf found (Z.to_nat (n - 1) - found) in
      let leaf := LeafPage.SetNumKeys leaf (n - 1) in
      UnpinPage leaf_off (PLeaf leaf) true;;
      (* Is this leaf underful? *)
      root ← gets root_offset_;
      if leaf_off =? root then ret (n - 1 =? 0)
      else ret (n - 1 <? LEAF_MIN_KEYS)
  end.

(** The tail shared by the merges: the separator [merge_key_idx] and the
    child to its right leave the parent. *)
Definition remove_from_parent (parent_off : Z) (merge_key_idx : nat) : M unit :=
  parent ← PinInternal parent_off;
  let pn := InternalPage.NumKeys parent in
  let parent := internal_remove parent merge_key_idx (Z.to_nat (pn - 1) - merge_key_idx) in
  let parent := InternalPage.SetNumKeys parent (pn - 1) in
  UnpinPage parent_off (PInternal parent) true.

(** [FixLeafChild], block by block.  "Try to borrow from left sibling":
    the value of [borrowed] after the block. *)
Definition FixLeafChild_left (parent_off : Z) (child_idx : nat) (parent : InternalPage.t)
                             (child_off : Z) : M bool :=
  if (0 <? child_idx)%nat then
    let left_off := InternalPage.ChildAt parent (child_idx - 1) in
    UnpinPage parent_off (PInternal parent) false;;
    left ← PinLeaf left_off;
    let left_n := LeafPage.NumKeys left in
    if LEAF_MIN_KEYS <? left_n then
      (* Borrow the last record from left sibling. *)
      let '(tk, td) := LeafPage.GetRecord left (Z.to_nat (left_n - 1)) in
      let left := LeafPage.SetNumKeys left (left_n - 1) in
      UnpinPage left_off (PLeaf left) true;;
      (* Insert at the front of child. *)
      child ← PinLeaf child_off;
      let cn := LeafPage.NumKeys child in
      let child := leaf_shift_right child (Z.to_nat cn) in
      let child := LeafPage.SetRecord child 0 tk td in
      let child := LeafPage.SetNumKeys child (cn + 1) in
      UnpinPage child_off (PLeaf child) true;;
      (* Update parent key. *)
      p2 ← PinInternal parent_off;
      let p2 := InternalPage.SetKeyAt p2 (child_idx - 1) tk in
      UnpinPage parent_off (PInternal p2) true;;
      ret true
    else
      UnpinPage left_off (PLeaf left) false;;
      ret false
  else
    UnpinPage parent_off (PInternal parent) false;;
    ret false.

(** "Try to borrow from right sibling", the parent pinned again. *)
Definition FixLeafChild_right (parent_off : Z) (child_idx : nat) (parent : InternalPage.t)
                              (parent_keys child_off : Z) : M bool :=
  if Z.of_nat child_idx <? parent_keys then
    let right_off := InternalPage.ChildAt parent (child_idx + 1) in
    UnpinPage parent_off (PInternal parent) false;;
    right ← PinLeaf right_off;
    let right_n := LeafPage.NumKeys right in
    if LEAF_MIN_KEYS <? right_n then
      (* Borrow the first record from right sibling. *)
      let '(tk, td) := LeafPage.GetRecord right 0 in
      let right := leaf_shift_left right 0 (Z.to_nat (right_n - 1)) in
      let right := LeafPage.SetNumKeys right (right_n - 1) in
      let new_right_first := LeafPage.KeyAt right 0 in
      UnpinPage right_off (PLeaf right) true;;
      (* Append to child. *)
      child ← PinLeaf child_off;
      let cn := LeafPage.NumKeys child in
      let child := LeafPage.SetRecord child (Z.to_nat cn) tk td in
      let child := LeafPage.SetNumKeys child (cn + 1) in
      UnpinPage child_off (PLeaf child) true;;
      (* Update parent key. *)
      p2 ← PinInternal parent_off;
      let p2 := InternalPage.SetKeyAt p2 child_idx new_right_first in
      UnpinPage parent_off (PInternal p2) true;;
      ret true
    else
      UnpinPage right_off (PLeaf right) false;;
      ret false
  else
    UnpinPage parent_off (PInternal parent) false;;
    ret false.

(** "Cannot borrow -- merge.  Always merge child into its left sibling if
    possible, otherwise merge right sibling into child", the parent pinned
    again. *)
Definition FixLeafChild_merge (parent_off : Z) (child_idx : nat) (parent : InternalPage.t)
                              (child_off : Z) : M unit :=
  let '(left_off, right_off, merge_key_idx) :=
    if (0 <? child_idx)%nat
    then (InternalPage.ChildAt parent (child_idx - 1), child_off, (child_idx - 1)%nat)
    else (child_off, InternalPage.ChildAt parent (child_idx + 1), child_idx) in
  UnpinPage parent_off (PInternal parent) false;;
  (* Copy all records from right into left. *)
  left ← PinLeaf left_off;
  let ln := LeafPage.NumKeys left in
  right ← PinLeaf right_off;
  let rn := LeafPage.NumKeys right in
  let left := leaf_append left right (Z.to_nat ln) 0 (Z.to_nat rn) in
  let left := LeafPage.SetNumKeys left (ln + rn) in
  let left := LeafPage.SetNextLeaf left (LeafPage.NextLeaf right) in
  UnpinPage left_off (PLeaf left) true;;
  UnpinPage right_off (PLeaf right) false;;
  DeallocPage right_off;;
  (* Remove merge_key_idx from parent. *)
  remove_from_parent parent_off merge_key_idx.

Definition FixLeafChild (parent_off : Z) (child_idx : nat) : M unit :=
  parent ← PinInternal parent_off;
  let parent_keys := InternalPage.NumKeys parent in
  let child_off := InternalPage.ChildAt parent child_idx in
  borrowed ← FixLeafChild_left parent_off child_idx parent child_off;
  if borrowed : bool then ret tt
  else
    parent ← PinInternal parent_off;
    borrowed ← FixLeafChild_right parent_off child_idx parent parent_keys child_off;
    if borrowed : bool then ret tt
    else
      parent ← PinInternal parent_off;
      FixLeafChild_merge parent_off child_idx parent child_off.

(** [FixInternalChild], block by block, in the same way. *)
Definition FixInternalChild_left (parent_off : Z) (child_idx : nat) (parent : InternalPage.t)
                                 (child_off : Z) : M bool :=
  if (0 <? child_idx)%nat then
    let left_off := InternalPage.ChildAt parent (child_idx - 1) in
    let parent_key := InternalPage.KeyAt parent (child_idx - 1) in
    UnpinPage parent_off (PInternal parent) false;;
    left ← PinInternal left_off;
    let left_n := InternalPage.NumKeys left in
    if INTERNAL_MIN_KEYS <? left_n then
      (* Borrow: take the last key from left, push parent key down to child. *)
      let borrowed_key := InternalPage.KeyAt left (Z.to_nat (left_n - 1)) in
      let borrowed_child := InternalPage.ChildAt left (Z.to_nat left_n) in
      let left := InternalPage.SetNumKeys left (left_n - 1) in
      UnpinPage left_off (PInternal left) true;;
      (* Prepend parent_key + borrowed_child to child. *)
      child ← PinInternal child_off;
      let cn := InternalPage.NumKeys child in
      let child := internal_shift_right child (Z.to_nat cn) in
      let child := InternalPage.SetChildAt child 1 (InternalPage.ChildAt child 0) in
      let child := InternalPage.SetKeyAt child 0 parent_key in
      let child := InternalPage.SetChildAt child 0 borrowed_child in
      let child := InternalPage.SetNumKeys child (cn + 1) in
      UnpinPage child_off (PInternal child) true;;
      (* Replace parent key with borrowed key. *)
      p2 ← PinInternal parent_off;
      let p2 := InternalPage.SetKeyAt p2 (child_idx - 1) borrowed_key in
      UnpinPage parent_off (PInternal p2) true;;
      ret true
    else
      UnpinPage left_off (PInternal left) false;;
      ret false
  else
    UnpinPage parent_off (PInternal parent) false;;
    ret false.

Definition FixInternalChild_right (parent_off : Z) (child_idx : nat) (parent : InternalPage.t)
                                  (parent_keys child_off : Z) : M bool :=
  if Z.of_nat child_idx <? parent_keys then
    let right_off := InternalPage.ChildAt parent (child_idx + 1) in
    let parent_key := InternalPage.KeyAt parent child_idx in
    UnpinPage parent_off (PInternal parent) false;;
    right ← PinInternal right_off;
    let right_n := InternalPage.NumKeys right in
    if INTERNAL_MIN_KEYS <? right_n then
      let borrowed_key := InternalPage.KeyAt right 0 in
      let borrowed_child := InternalPage.ChildAt right 0 in
      (* Shift left in right. *)
      let right := internal_shift_left right 0 (Z.to_nat (right_n - 1)) in
      let right := InternalPage.SetChildAt right (Z.to_nat (right_n - 1))
                     (InternalPage.ChildAt right (Z.to_nat right_n)) in
      let right := InternalPage.SetNumKeys right (right_n - 1) in
      UnpinPage right_off (PInternal right) true;;
      (* Append parent_key + borrowed_child to child. *)
      child ← PinInternal child_off;
      let cn := InternalPage.NumKeys child in
      let child := InternalPage.SetKeyAt child (Z.to_nat cn) parent_key in
      let child := InternalPage.SetChildAt child (Z.to_nat (cn + 1)) borrowed_child in
      let child := InternalPage.SetNumKeys child (cn + 1) in
      UnpinPage child_off (PInternal child) true;;
      (* Replace parent key with borrowed key. *)
      p2 ← PinInternal parent_off;
      let p2 := InternalPage.SetKeyAt p2 child_idx borrowed_key in
      UnpinPage parent_off (PInternal p2) true;;
      ret true
    else
      UnpinPage right_off (PInternal right) false;;
      ret false
  else
    UnpinPage parent_off (PInternal parent) false;;
    ret false.

Definition FixInternalChild_merge (parent_off : Z) (child_idx : nat) (parent : InternalPage.t)
                                  (child_off : Z) : M unit :=
  let '(left_off, right_off, merge_key_idx) :=
    if (0 <? child_idx)%nat
    then (InternalPage.ChildAt parent (child_idx - 1), child_off, (child_idx - 1)%nat)
    else (child_off, InternalPage.ChildAt parent (child_idx + 1), child_idx) in
  let merge_key := InternalPage.KeyAt parent merge_key_idx in
  UnpinPage parent_off (PInternal parent) false;;
  (* Merge: left + merge_key + right -> left. *)
  left ← PinInternal left_off;
  let ln := InternalPage.NumKeys left in
  right ← PinInternal right_off;
  let rn := InternalPage.NumKeys right in
  (* Append merge_key. *)
  let left := InternalPage.SetKeyAt left (Z.to_nat ln) merge_key in
  let left := InternalPage.SetChildAt left (Z.to_nat (ln + 1)) (InternalPage.ChildAt right 0) in
  (* Copy right's keys and children. *)
  let left := internal_append left right (Z.to_nat ln) 0 (Z.to_nat rn) in
  let left := InternalPage.SetNumKeys left (ln + 1 + rn) in
  UnpinPage left_off (PInternal left) true;;
  UnpinPage right_off (PInternal right) false;;
  DeallocPage right_off;;
  (* Remove merge_key_idx from parent. *)
  remove_from_parent parent_off merge_key_idx.

Definition FixInternalChild (parent_off : Z) (child_idx : nat) : M unit :=
  parent ← PinInternal parent_off;
  let parent_keys := InternalPage.NumKeys parent in
  let child_off := InternalPage.ChildAt parent child_idx in
  borrowed ← FixInternalChild_left parent_off child_idx parent child_off;
  if borrowed : bool then ret tt
  else
    parent ← PinInternal parent_off;
    borrowed ← FixInternalChild_right parent_off child_idx parent parent_keys child_off;
    if borrowed : bool then ret tt
    else
      parent ← PinInternal parent_off;
      FixInternalChild_merge parent_off child_idx parent child_off.

Definition FixChild (parent_off : Z) (child_idx : nat) : M unit :=
  parent ← PinInternal parent_off;
  let child_off := InternalPage.ChildAt parent child_idx in
  UnpinPage parent_off (PInternal parent) false;;
  cpage ← PinPage child_off;
  match PageIsLeaf cpage with
  | None => fail Undefined
  | Some child_is_leaf =>
      UnpinPage child_off cpage false;;
      if child_is_leaf then FixLeafChild parent_off child_idx
      else FixInternalChild parent_off child_idx
  end.

Fixpoint DeleteRecursive (fuel : nat) (node_off key : Z) : M bool :=
  match fuel with
  | O => fail OutOfFuel
  | S fuel' =>
      page ← PinPage node_off;
      match page with
      | PLeaf _ =>
          UnpinPage node_off page false;;
          DeleteFromLeaf node_off key
      | PInternal node =>
          (* Internal node -- find the child. *)
          let n := InternalPage.NumKeys node in
          let i := child_index node key (Z.to_nat n) 0 in
          let child := InternalPage.ChildAt node i in
          UnpinPage node_off page false;;
          child_underful ← DeleteRecursive fuel' child key;
          if child_underful : bool then
            FixChild node_off i;;
            (* Check if this node is now underful. *)
            n2 ← PinInternal node_off;
            let nk := InternalPage.NumKeys n2 in
            UnpinPage node_off (PInternal n2) false;;
            (* Root is allowed to have fewer keys. *)
            root ← gets root_offset_;
            if node_off =? root then ret (nk =? 0)
            else ret (nk <? INTERNAL_MIN_KEYS)
          else ret false
      | PFree _ => fail Undefined
      end
  end.

Definition Delete (fuel : nat) (key : Z) : M Status :=
  root ← gets root_offset_;
  if root =? INVALID_PAGE_ID then ret NotFound
  else
    (* Check existence first so we can return NotFound properly. *)
    '(s, _) ← Search fuel key;
    match s with
    | OK =>
        underful ← DeleteRecursive fuel root key;
        if underful : bool then
          (* Check if root is an empty internal node -- shrink the tree. *)
          root ← gets root_offset_;
          page ← PinPage root;
          match page with
          | PInternal node =>
              if InternalPage.NumKeys node =? 0 then
                let old_root := root in
                modify (fun t => set_root_offset_ t (InternalPage.ChildAt node 0));;
                UnpinPage old_root page false;;
                DeallocPage old_root;;
                WriteMetadata;;
                ret OK
              else
                UnpinPage root page false;;
                ret OK
          | PLeaf leaf =>
              if LeafPage.NumKeys leaf =? 0 then
                let old_root := root in
                modify (fun t => set_root_offset_ t INVALID_PAGE_ID);;
                UnpinPage old_root page false;;
                DeallocPage old_root;;
                WriteMetadata;;
                ret OK
              else
                UnpinPage root page false;;
                ret OK
          | PFree _ => fail Undefined
          end
        else ret OK
    | _ => ret NotFound
    end.

End Tree.


(** * What a file of pages holds: the tree behind the pages

    The properties of the tree are stated against the nodes that are
    reachable from the root.  A reachable structure is described by a [tree]:
    every node carries the offset of its page and what the page shows. *)

Module TreeSpec.
Import Tree.

#[local] Set Warnings "-register-all".

(** What the accessors show of a page: the first [num_keys] records of a
    leaf; the first [num_keys] keys and [num_keys + 1] children of an
    internal node. *)
Definition recs_view (l : LeafPage.t) : list (Z * list Z) :=
  Slots.prefix zero_record (LeafPage.records l) (Z.to_nat (LeafPage.num_keys l)).

Definition keys_view (n : InternalPage.t) : list Z :=
  Slots.prefix 0 (InternalPage.keys n) (Z.to_nat (InternalPage.num_keys n)).

Definition kids_view (n : InternalPage.t) : list Z :=
  Slots.prefix 0 (InternalPage.children n) (S (Z.to_nat (InternalPage.num_keys n))).

(** The page at [off] is a leaf showing [recs] and [next]. *)
Definition leaf_at (ps : gmap Z page) (off : Z) (recs : list (Z * list Z)) (next : Z) : Prop :=
  exists l, ps !! off = Some (PLeaf l) /\ 0 <= LeafPage.num_keys l /\
            recs_view l = recs /\ LeafPage.next_leaf l = next.

(** The page at [off] is an internal node showing [keys] and [kids]. *)
Definition node_at (ps : gmap Z page) (off : Z) (keys kids : list Z) : Prop :=
  exists n, ps !! off = Some (PInternal n) /\ 0 <= InternalPage.num_keys n /\
            keys_view n = keys /\ kids_view n = kids.

Inductive tree : Type :=
| Leaf (off : Z) (recs : list (Z * list Z)) (next : Z)
| Node (off : Z) (keys : list Z) (kids : list tree).

Definition root (t : tree) : Z :=
  match t with
  | Leaf off _ _ => off
  | Node off _ _ => off
  end.

(** The page offsets of a tree, and its leaves from left to right, each
    with its offset, its records and its next pointer. *)
Fixpoint offsets (t : tree) : list Z :=
  match t with
  | Leaf off _ _ => [off]
  | Node off _ kids => off :: concat (map offsets kids)
  end.

Fixpoint leaves (t : tree) : list (Z * list (Z * list Z) * Z) :=
  match t with
  | Leaf off recs next => [(off, recs, next)]
  | Node _ _ kids => concat (map leaves kids)
  end.

(** The records of a list of leaves, and of a tree, in leaf order. *)
Definition records_of (ls : list (Z * list (Z * list Z) * Z)) : list (Z * list Z) :=
  concat (map (fun l => snd (fst l)) ls).

Definition records (t : tree) : list (Z * list Z) := records_of (leaves t).

(** The same for a list of trees side by side. *)
Definition offsets_of (ts : list tree) : list Z := concat (map offsets ts).
Definition leaves_of (ts : list tree) : list (Z * list (Z * list Z) * Z) :=
  concat (map leaves ts).
Definition records_in (ts : list tree) : list (Z * list Z) := concat (map records ts).

(** The nodes of a tree with their depth: a leaf as (offset, depth, true,
    number of records), an internal node as (offset, depth, false, number of
    keys). *)
Fixpoint nodes (d : nat) (t : tree) : list (Z * nat * bool * nat) :=
  match t with
  | Leaf off recs _ => [(off, d, true, length recs)]
  | Node off keys kids => (off, d, false, length keys) :: concat (map (nodes (S d)) kids)
  end.

(** [rep h ps t]: the pages [ps] hold the tree [t], all of whose leaves are
    at depth [h]. *)
Fixpoint rep (h : nat) (ps : gmap Z page) (t : tree) : Prop :=
  match h, t with
  | O, Leaf off recs next => leaf_at ps off recs next
  | S h', Node off keys kids =>
      node_at ps off keys (map root kids) /\ Forall (rep h' ps) kids
  | _, _ => False
  end.

(** Keys strictly ascending. *)
Fixpoint ascending (ks : list Z) : Prop :=
  match ks with
  | [] => True
  | k :: ks' => match ks' with
                | [] => True
                | k' :: _ => k < k'
                end /\ ascending ks'
  end.

(** The children [kids] of a node with separators [keys], each in its key
    range: child [i] within [keys[i-1], keys[i]), the first from [lo], the
    last up to [hi]. *)
Fixpoint wf_kids (W : Z -> Z -> tree -> Prop) (lo : Z) (keys : list Z) (hi : Z)
                 (kids : list tree) : Prop :=
  match kids, keys with
  | [c], [] => W lo hi c
  | c :: kids', k :: keys' => W lo k c /\ wf_kids W k keys' hi kids'
  | _, _ => False
  end.

(** The bound left of a run of children that follows the separators [k1],
    and the bound right of a run that is followed by the separators [k2]. *)
Fixpoint lbound (lo : Z) (k1 : list Z) : Z :=
  match k1 with
  | [] => lo
  | k :: k1' => lbound k k1'
  end.
Definition ubound (hi : Z) (k2 : list Z) : Z := hd hi k2.

(** The children left of a run, each with the separator that follows it;
    the children right of a run, the first separator being the bound. *)
Fixpoint wf_pre (W : Z -> Z -> tree -> Prop) (lo : Z) (k1 : list Z) (l1 : list tree) : Prop :=
  match k1, l1 with
  | [], [] => True
  | k :: k1', c :: l1' => W lo k c /\ wf_pre W k k1' l1'
  | _, _ => False
  end.

Definition wf_tail (W : Z -> Z -> tree -> Prop) (k2 : list Z) (hi : Z) (l2 : list tree) : Prop :=
  match k2 with
  | [] => l2 = []
  | k :: k2' => wf_kids W k k2' hi l2
  end.

(** [wf h lmin imin lo hi t]: [t] is a search tree of height [h] with keys in
    [lo, hi).  Its top node holds at least [lmin] records (a leaf) or [imin]
    keys (an internal node); every node below holds at least
    [LEAF_MIN_KEYS] records or [INTERNAL_MIN_KEYS] keys; no node holds more
    than [LEAF_MAX_KEYS] records or [INTERNAL_MAX_KEYS] keys. *)
Fixpoint wf (h : nat) (lmin imin : Z) (lo hi : Z) (t : tree) : Prop :=
  match h, t with
  | O, Leaf _ recs _ =>
      lo < hi /\
      ascending (map fst recs) /\
      Forall (fun r => lo <= fst r < hi) recs /\
      lmin <= Z.of_nat (length recs) <= LEAF_MAX_KEYS
  | S h', Node _ keys kids =>
      lo < hi /\
      imin <= Z.of_nat (length keys) <= INTERNAL_MAX_KEYS /\
      wf_kids (wf h' LEAF_MIN_KEYS INTERNAL_MIN_KEYS) lo keys hi kids
  | _, _ => False
  end.

(** The leaf list is linked: each next pointer is the offset of the leaf
    that follows, the last one is [nxt]. *)
Fixpoint linked (ls : list (Z * list (Z * list Z) * Z)) (nxt : Z) : Prop :=
  match ls with
  | [] => True
  | (_, _, n) :: ls' =>
      match ls' with
      | [] => n = nxt
      | (o', _, _) :: _ => n = o' /\ linked ls' nxt
      end
  end.

(** The offset of the first leaf of a list of leaves. *)
Definition first_off (ls : list (Z * list (Z * list Z) * Z)) : Z :=
  match ls with
  | [] => INVALID_PAGE_ID
  | (o, _, _) :: _ => o
  end.

(** [ls'] may stand where [ls] stood in a chain: it starts at the same leaf
    and ends with the same next pointer. *)
Definition chain_pres (ls ls' : list (Z * list (Z * list Z) * Z)) : Prop :=
  ls' <> [] /\ first_off ls' = first_off ls /\ forall nxt, linked ls nxt -> linked ls' nxt.

(** The free list: from [head], through the next pointers of freed pages,
    to -1. *)
Fixpoint free_list (ps : gmap Z page) (head : Z) (fl : list Z) : Prop :=
  match fl with
  | [] => head = INVALID_PAGE_ID
  | off :: fl' =>
      head = off /\ exists next, ps !! off = Some (PFree next) /\ free_list ps next fl'
  end.

(** The allocator is consistent with the set [used] of pages in use: the
    free pages are distinct and not in use; every page in use or free lies
    page-aligned between the metadata page and the frontier; the frontier is
    inside the file; the tree's copy of the frontier is current. *)
Record alloc_inv (t : BPlusTree) (used : list Z) : Prop := mkAllocInv {
  ai_free : exists fl, free_list (pages t) (meta_free t) fl /\ NoDup fl /\
                       (forall off, off ∈ fl -> off ∉ used) /\
                       (forall off, off ∈ fl ->
                          page_boundary off = true /\ off + PAGE_SIZE <= meta_next t);
  ai_used : forall off, off ∈ used ->
              page_boundary off = true /\ off + PAGE_SIZE <= meta_next t;
  ai_frontier : page_boundary (meta_next t) = true /\ meta_next t <= file_size t;
  ai_member : next_page_offset_ t = meta_next t;
}.

Definition INT_MIN : Z := - 2 ^ 31.
Definition INT_MAX : Z := 2 ^ 31 - 1.

(** The state of a tree between two operations, with the records it holds
    in key order: empty, or a tree of some height whose root is exempt from
    the minimum (one record or one key are enough). *)
Inductive tree_holds (t : BPlusTree) : list (Z * list Z) -> Prop :=
| holds_empty :
    root_offset_ t = INVALID_PAGE_ID ->
    alloc_inv t [] ->
    tree_holds t []
| holds_tree (h : nat) (g : tree) :
    root_offset_ t = root g ->
    rep h (pages t) g ->
    NoDup (offsets g) ->
    wf h 1 1 INT_MIN (INT_MAX + 1) g ->
    linked (leaves g) INVALID_PAGE_ID ->
    alloc_inv t (offsets g) ->
    tree_holds t (records g).

Definition tree_inv (t : BPlusTree) : Prop := exists recs, tree_holds t recs.

(** A key of the C++ type [int]. *)
Definition is_int (k : Z) : Prop := INT_MIN <= k <= INT_MAX.

(** The payload stored under a key in a list of records. *)
Fixpoint assoc (key : Z) (recs : list (Z * list Z)) : option (list Z) :=
  match recs with
  | [] => None
  | (k, d) :: recs' => if k =? key then Some d else assoc key recs'
  end.

(** An offset that can be pinned: a page of the file. *)
Definition valid (t : BPlusTree) (off : Z) : Prop :=
  page_boundary off = true /\ off + PAGE_SIZE <= file_size t.

(** The pages at the offsets [fr] are the same in [t'] as in [t]. *)
Definition frame (fr : list Z) (t t' : BPlusTree) : Prop :=
  forall o, o ∈ fr -> pages t' !! o = pages t !! o.

(** The state after a dirty unpin of [off] with the view [p]. *)
Definition write (t : BPlusTree) (off : Z) (p : page) : BPlusTree :=
  set_pages t (<[off := p]> (pages t)).

(** The trees [ts] of height [h] are held by the pages of [t]; their pages
    and the pages [fr] around them are distinct and allocated. *)
Definition owns (h : nat) (t : BPlusTree) (ts : list tree) (fr : list Z) : Prop :=
  Forall (rep h (pages t)) ts /\
  NoDup (offsets_of ts ++ fr) /\
  alloc_inv t (offsets_of ts ++ fr).

(** ** Runs

    The descents into the tree are bounded by fuel in this model and are not
    bounded in the source.  An operation takes the state [t] to the result
    [a] and the state [t'] if it does so with every amount of fuel from some
    amount on. *)
Definition runs {A : Type} (f : nat -> M A) (t : BPlusTree) (a : A) (t' : BPlusTree) : Prop :=
  exists fuel0 : nat, forall fuel : nat, (fuel0 <= fuel)%nat -> f fuel t = (Ok a, t').

(** ** What the operations are expected to return *)

(** The answer of [Search] for a payload found or not. *)
Definition search_result (d : option (list Z)) : Status * option (list Z) :=
  match d with
  | Some d => (OK, Some d)
  | None => (NotFound, None)
  end.

(** The records with keys in [lower, upper], payloads read as strings. *)
Fixpoint select (lower upper : Z) (recs : list (Z * list Z)) : list (Z * list Z) :=
  match recs with
  | [] => []
  | (k, d) :: recs' =>
      if (lower <=? k) && (k <=? upper) then (k, to_string d) :: select lower upper recs'
      else select lower upper recs'
  end.

(** The scan of [RangeQuery] over the records of one leaf. *)
Fixpoint scan_list (lower upper : Z) (recs : list (Z * list Z)) : list (Z * list Z) * bool :=
  match recs with
  | [] => ([], false)
  | (k, d) :: recs' =>
      if upper <? k then ([], true)
      else
        let '(rest, done) := scan_list lower upper recs' in
        if lower <=? k then ((k, to_string d) :: rest, done) else (rest, done)
  end.

(** [recs'] holds [(key, data)] and every record of [recs] under another
    key, and nothing else. *)
Definition ins_rel (key : Z) (data : list Z) (recs recs' : list (Z * list Z)) : Prop :=
  forall x, x ∈ recs' <-> x = (key, data) \/ (x ∈ recs /\ fst x <> key).

(** [recs'] holds every record of [recs] under another key than [key], and
    nothing else. *)
Definition del_rel (key : Z) (recs recs' : list (Z * list Z)) : Prop :=
  forall x, x ∈ recs' <-> x ∈ recs /\ fst x <> key.

(** What [InsertRecursive] hands to its caller, as trees: one tree in
    place of the old one, or two with the separator between them. *)
Definition split_result (r : option (Z * Z)) (ks : list Z) (ts : list tree) : Prop :=
  match r with
  | None => ks = [] /\ exists t', ts = [t']
  | Some (sk, noff) => ks = [sk] /\ exists tl tr, ts = [tl; tr] /\ root tr = noff
  end.

(** The minimum a node is known to hold after an insertion: its old minimum,
    or the half of a split. *)
Definition min_after (r : option (Z * Z)) (old half : Z) : Z :=
  match r with
  | None => old
  | Some _ => half
  end.

(** The state [t'] and the result [r] of an insertion of [(key, data)] into
    the tree [g] of height [h] that the state [t] held, the pages [fr] being
    in use around it. *)
Definition ins_post (h : nat) (g : tree) (lmin imin lo hi : Z) (fr : list Z) (t : BPlusTree)
                    (key : Z) (data : list Z) (r : option (Z * Z)) (t' : BPlusTree) : Prop :=
  root_offset_ t' = root_offset_ t /\ frame fr t t' /\
  exists ks ts,
    split_result r ks ts /\ (exists t0 ts', ts = t0 :: ts' /\ root t0 = root g) /\
    Forall (rep h (pages t')) ts /\
    NoDup (offsets_of ts ++ fr) /\ alloc_inv t' (offsets_of ts ++ fr) /\
    wf_kids (wf h (min_after r lmin LEAF_MIN_KEYS) (min_after r imin INTERNAL_MIN_KEYS))
            lo ks hi ts /\
    ins_rel key data (records g) (records_in ts) /\
    chain_pres (leaves g) (leaves_of ts).

(** A payload that [Insert] stores whole: at most [DATA_SIZE] bytes, none of
    them zero. *)
Definition payload_ok (data : list Z) : Prop :=
  Z.of_nat (length data) <= DATA_SIZE /\ Forall (fun b => b <> 0) data.

(** One [Insert] after the other; the statuses in order. *)
Fixpoint insert_all (fuel : nat) (kvs : list (Z * list Z)) : M (list Status) :=
  match kvs with
  | [] => ret []
  | (k, v) :: kvs' =>
      s ← Insert fuel k v;
      ss ← insert_all fuel kvs';
      ret (s :: ss)
  end.

(** ** The repair of an underfull child *)

(** The list without its element at [i]. *)
Definition remove_at {A : Type} (i : nat) (l : list A) : list A := take i l ++ drop (S i) l.

(** What a node and its children look like to a repair: the parent with at
    least one key, its child offsets, all of them distinct pages in use. *)
Record family (t : BPlusTree) (poff : Z) (keys kidoffs : list Z) (used : list Z) : Prop := {
  fam_node : node_at (pages t) poff keys kidoffs;
  fam_keys : (1 <= length keys)%nat;
  fam_nodup : NoDup (poff :: kidoffs);
  fam_alloc : alloc_inv t used;
  fam_used : forall o, o ∈ poff :: kidoffs -> o ∈ used;
}.

(** The leaves under a parent, as a repair needs them. *)
(** The leaves under a parent, as a repair needs them. *)
Definition leaf_kids (st : BPlusTree) (keys kidoffs : list Z)
                     (rs : nat -> list (Z * list Z)) (nx : nat -> Z) : Prop :=
  forall j, (j <= length keys)%nat ->
    exists l, pages st !! nth j kidoffs 0 = Some (PLeaf l) /\
              LeafPage.num_keys l = Z.of_nat (length (rs j)) /\
              recs_view l = rs j /\ LeafPage.next_leaf l = nx j.

(** The internal nodes under a parent. *)
Definition node_kids (st : BPlusTree) (keys kidoffs : list Z) (ks cs : nat -> list Z) : Prop :=
  forall j, (j <= length keys)%nat ->
    exists nd, pages st !! nth j kidoffs 0 = Some (PInternal nd) /\
               InternalPage.num_keys nd = Z.of_nat (length (ks j)) /\
               keys_view nd = ks j /\ kids_view nd = cs j /\
               length (cs j) = S (length (ks j)).

(** The leaves [j] and [j + 1] of a parent, with records [rs j] and
    [rs (j + 1)], after a record went from one to the other: the records of
    both, cut at another place [m]; the separator is the first key of the
    right one. *)
Definition leaf_borrowed (t t' : BPlusTree) (poff : Z) (keys kidoffs : list Z)
                         (rs : nat -> list (Z * list Z)) (nx : nat -> Z) (used : list Z)
                         (j : nat) : Prop :=
  let both := rs j ++ rs (S j) in
  let ao := nth j kidoffs 0 in
  let bo := nth (S j) kidoffs 0 in
  root_offset_ t' = root_offset_ t /\
  (forall o, o <> poff -> o <> ao -> o <> bo -> pages t' !! o = pages t !! o) /\
  exists m : nat,
    LEAF_MIN_KEYS <= Z.of_nat m <= LEAF_MAX_KEYS /\
    LEAF_MIN_KEYS <= Z.of_nat (length both) - Z.of_nat m <= LEAF_MAX_KEYS /\
    leaf_at (pages t') ao (take m both) (nx j) /\
    leaf_at (pages t') bo (drop m both) (nx (S j)) /\
    node_at (pages t') poff (<[j := fst (nth m both zero_record)]> keys) kidoffs /\
    alloc_inv t' used.

(** The same two leaves after the right one was merged into the left one:
    its page is free, its separator and its offset have left the parent. *)
Definition leaf_merged (t t' : BPlusTree) (poff : Z) (keys kidoffs : list Z)
                       (rs : nat -> list (Z * list Z)) (nx : nat -> Z) (used : list Z)
                       (j : nat) : Prop :=
  let both := rs j ++ rs (S j) in
  let ao := nth j kidoffs 0 in
  let bo := nth (S j) kidoffs 0 in
  root_offset_ t' = root_offset_ t /\
  (forall o, o <> poff -> o <> ao -> o <> bo -> pages t' !! o = pages t !! o) /\
  LEAF_MIN_KEYS <= Z.of_nat (length both) <= LEAF_MAX_KEYS /\
  leaf_at (pages t') ao both (nx (S j)) /\
  node_at (pages t') poff (remove_at j keys) (remove_at (S j) kidoffs) /\
  (forall used', (forall o, o ∈ used' -> o ∈ used /\ o <> bo) -> alloc_inv t' used').

(** The internal nodes [j] and [j + 1] of a parent, with keys [ks j] and
    children [cs j], after a key and a child went from one to the other
    through the parent. *)
Definition node_borrowed (t t' : BPlusTree) (poff : Z) (keys kidoffs : list Z)
                         (ks cs : nat -> list Z) (used : list Z) (j : nat) : Prop :=
  let bothk := ks j ++ nth j keys 0 :: ks (S j) in
  let bothc := cs j ++ cs (S j) in
  let ao := nth j kidoffs 0 in
  let bo := nth (S j) kidoffs 0 in
  root_offset_ t' = root_offset_ t /\
  (forall o, o <> poff -> o <> ao -> o <> bo -> pages t' !! o = pages t !! o) /\
  exists m : nat,
    INTERNAL_MIN_KEYS <= Z.of_nat m <= INTERNAL_MAX_KEYS /\
    INTERNAL_MIN_KEYS <= Z.of_nat (length bothk) - Z.of_nat m - 1 <= INTERNAL_MAX_KEYS /\
    node_at (pages t') ao (take m bothk) (take (S m) bothc) /\
    node_at (pages t') bo (drop (S m) bothk) (drop (S m) bothc) /\
    node_at (pages t') poff (<[j := nth m bothk 0]> keys) kidoffs /\
    alloc_inv t' used.

Definition node_merged (t t' : BPlusTree) (poff : Z) (keys kidoffs : list Z)
                       (ks cs : nat -> list Z) (used : list Z) (j : nat) : Prop :=
  let bothk := ks j ++ nth j keys 0 :: ks (S j) in
  let bothc := cs j ++ cs (S j) in
  let ao := nth j kidoffs 0 in
  let bo := nth (S j) kidoffs 0 in
  root_offset_ t' = root_offset_ t /\
  (forall o, o <> poff -> o <> ao -> o <> bo -> pages t' !! o = pages t !! o) /\
  INTERNAL_MIN_KEYS <= Z.of_nat (length bothk) <= INTERNAL_MAX_KEYS /\
  node_at (pages t') ao bothk bothc /\
  node_at (pages t') poff (remove_at j keys) (remove_at (S j) kidoffs) /\
  (forall used', (forall o, o ∈ used' -> o ∈ used /\ o <> bo) -> alloc_inv t' used').

(** A node that holds less than the minimum of its kind. *)
Definition low (lmin imin : Z) (t : tree) : bool :=
  match t with
  | Leaf _ recs _ => Z.of_nat (length recs) <? lmin
  | Node _ keys _ => Z.of_nat (length keys) <? imin
  end.

(** What [FixChild] is called on: a node with at least one key, whose
    child [i] is one short of the minimum and whose other children are not. *)
Definition fix_pre (h : nat) (off : Z) (keys : list Z) (kids : list tree) (i : nat)
                   (lo hi : Z) (fr : list Z) (t : BPlusTree) : Prop :=
  node_at (pages t) off keys (map root kids) /\
  Forall (rep h (pages t)) kids /\
  NoDup (off :: offsets_of kids ++ fr) /\
  alloc_inv t (off :: offsets_of kids ++ fr) /\
  (1 <= length keys)%nat /\ (i <= length keys)%nat /\
  wf_kids (wf h (LEAF_MIN_KEYS - 1) (INTERNAL_MIN_KEYS - 1)) lo keys hi kids /\
  low LEAF_MIN_KEYS INTERNAL_MIN_KEYS (nth i kids (Leaf 0 [] 0)) = true /\
  (forall x, (x <= length keys)%nat -> x <> i ->
             low LEAF_MIN_KEYS INTERNAL_MIN_KEYS (nth x kids (Leaf 0 [] 0)) = false).

(** What it leaves: the same records under the same node, every child with
    its minimum, the node with the same keys or one key less. *)
Definition fix_post (h : nat) (off : Z) (keys : list Z) (kids : list tree)
                    (lo hi : Z) (fr : list Z) (t t' : BPlusTree) : Prop :=
  root_offset_ t' = root_offset_ t /\ frame fr t t' /\
  exists keys' kids',
    node_at (pages t') off keys' (map root kids') /\
    Forall (rep h (pages t')) kids' /\
    NoDup (off :: offsets_of kids' ++ fr) /\
    alloc_inv t' (off :: offsets_of kids' ++ fr) /\
    wf_kids (wf h LEAF_MIN_KEYS INTERNAL_MIN_KEYS) lo keys' hi kids' /\
    (length keys' = length keys \/ S (length keys') = length keys) /\
    records_in kids' = records_in kids /\
    chain_pres (leaves_of kids) (leaves_of kids').

(** The state [t'] and the result [u] of a deletion of [key] from the tree
    [g] of height [h] that the state [t] held: the tree [g'] stands in its
    place; its top node may be one short of the minimum, and [u] says
    whether it is. *)
Definition del_post (h : nat) (g : tree) (lmin imin lo hi : Z) (fr : list Z) (t : BPlusTree)
                    (key : Z) (u : bool) (t' : BPlusTree) : Prop :=
  root_offset_ t' = root_offset_ t /\ frame fr t t' /\
  exists g',
    root g' = root g /\ rep h (pages t') g' /\
    NoDup (offsets g' ++ fr) /\ alloc_inv t' (offsets g' ++ fr) /\
    wf h (lmin - 1) (imin - 1) lo hi g' /\ u = low lmin imin g' /\
    del_rel key (records g) (records g') /\
    chain_pres (leaves g) (leaves g').

(** [descends t key off c]: the descent for [key] that starts at the page
    [off] reads the child offset [c] in one of the internal nodes on its
    way. *)
Inductive descends (t : BPlusTree) (key : Z) : Z -> Z -> Prop :=
| descends_here (off : Z) (node : InternalPage.t) :
    valid t off -> pages t !! off = Some (PInternal node) ->
    descends t key off
      (InternalPage.ChildAt node
         (child_index node key (Z.to_nat (InternalPage.NumKeys node)) 0))
| descends_step (off c : Z) (node : InternalPage.t) :
    valid t off -> pages t !! off = Some (PInternal node) ->
    descends t key
      (InternalPage.ChildAt node
         (child_index node key (Z.to_nat (InternalPage.NumKeys node)) 0)) c ->
    descends t key off c.

(** ** The states of a tree in use *)

(** The states a tree goes through when it starts on a brand-new file and
    is taken through inserts and deletes of keys of type [int]. *)
Inductive reachable : BPlusTree -> Prop :=
| reach_empty : reachable empty_tree
| reach_insert (t t' : BPlusTree) (key : Z) (data : list Z) (s : Status) :
    reachable t -> is_int key ->
    runs (fun fuel => Insert fuel key data) t s t' -> reachable t'
| reach_delete (t t' : BPlusTree) (key : Z) (s : Status) :
    reachable t -> is_int key ->
    runs (fun fuel => Delete fuel key) t s t' -> reachable t'.

(** A node of the list [nodes]: a leaf is at depth [h], an internal node
    above it. *)
Definition leaf_depth (h : nat) (nd : Z * nat * bool * nat) : Prop :=
  let '(_, d, leaf, _) := nd in
  if leaf : bool then d = h else (d < h)%nat.

(** A leaf holds at least [lmin] records, an internal node at least [imin]
    keys. *)
Definition holds_min (lmin imin : Z) (nd : Z * nat * bool * nat) : Prop :=
  let '(_, _, leaf, cnt) := nd in
  if leaf : bool then lmin <= Z.of_nat cnt else imin <= Z.of_nat cnt.

(** The balance of the tree behind a state: the tree is empty, or its pages
    hold a tree all of whose leaves are at the same depth, whose nodes other
    than the root (the first of [nodes]) hold their minimum, and whose keys
    are pairwise distinct. *)
Definition balanced (lmin imin : Z) (t : BPlusTree) : Prop :=
  root_offset_ t = INVALID_PAGE_ID \/
  exists h g,
    root_offset_ t = root g /\ rep h (pages t) g /\ NoDup (offsets g) /\
    Forall (leaf_depth h) (nodes 0 g) /\
    Forall (holds_min lmin imin) (tail (nodes 0 g)) /\
    NoDup (map fst (records g)).

(** ** Sample states *)

(** A check of [alloc_inv] for a state with an empty free list. *)
Definition alloc_check (t : BPlusTree) (used : list Z) : bool :=
  (meta_free t =? INVALID_PAGE_ID) && (next_page_offset_ t =? meta_next t) &&
  page_boundary (meta_next t) && (meta_next t <=? file_size t) &&
  forallb (fun o => page_boundary o && (o + PAGE_SIZE <=? meta_next t)) used.

(** Three records in one leaf. *)
Definition sample_kvs : list (Z * list Z) := [(1, [100; 49]); (2, [100; 50]); (3, [100; 51])].
Definition sample_tree : BPlusTree := snd (insert_all 1 sample_kvs empty_tree).
Definition sample_recs : list (Z * list Z) := map (fun kv => (fst kv, pad (snd kv))) sample_kvs.

(** A full leaf: the keys 1 .. 35. *)
Definition full_leaf_kvs : list (Z * list Z) := map (fun n => (Z.of_nat n, [100])) (seq 1 35).
Definition full_leaf_tree : BPlusTree := snd (insert_all 1 full_leaf_kvs empty_tree).
Definition full_leaf_recs : list (Z * list Z) :=
  map (fun kv => (fst kv, pad (snd kv))) full_leaf_kvs.

(** The keys 0 .. 1835 inserted in this order: the root has been split
    once. *)
Definition seq_kvs : list (Z * list Z) := map (fun n => (Z.of_nat n, [100])) (seq 0 1836).
Definition seq_tree : BPlusTree := snd (insert_all 3 seq_kvs empty_tree).

(** A root whose second child lies at the end of the file. *)
Definition bad_tree : BPlusTree :=
  mkTree 4096 8192 1048576 4096 8192 INVALID_PAGE_ID
         {[ 4096 := PInternal (InternalPage.mk 1 [10] [8192; 1048576]) ]}.

End TreeSpec.

(** * What is stated about the file, the pool and the log *)

Module StoreSpec.
Import Disk Pool.

(** Every cell of the memory holds a byte. *)
Definition byte_mem (m : mem) : Prop := forall a, 0 <= m a < 256.

(** The first data page of a freshly created file, grown to its first
    megabyte. *)
Definition sample_disk : DiskManager :=
  EnsureCapacity new_file (2 * PAGE_SIZE).

(** Every frame is pinned: no frame is free and none is a candidate for
    eviction (pinned frames are not on the LRU list). *)
Definition all_pinned (p : BufferPool) : Prop :=
  free_list_ p = [] /\ lru_list_ p = [].

(** A pool of one frame whose only frame is pinned by a first [NewPage]. *)
Definition one_frame_world : world := mkWorld (create 1) sample_disk None.

Definition pinned_world : world :=
  snd (result_get (None, 0, one_frame_world) (NewPage one_frame_world)).

(** A store of the tree through the pointer that [FetchPage] or [NewPage]
    returned: [bs] is written into the frame's buffer at [off]. *)
Definition write_frame (s : world) (idx : nat) (off : Z) (bs : list Z) : world :=
  match frames_ (pool s) !! idx with
  | Some f => with_pool s (set_frame (pool s) idx
                             (mkFrame (page_id f) (pin_count f) (dirty f)
                                      (mem_write (data f) off bs)))
  | None => s
  end.

(** A tree with its log attached creates page 4096, writes into it and
    unpins it dirty. *)
Definition logged_world : world := SetWAL (mkWorld (create 2) sample_disk None) Wal.create.

Definition dirty_world : world :=
  let s1 := snd (result_get (None, 0, logged_world) (NewPage logged_world)) in
  let s2 := write_frame s1 0 0 [42] in
  snd (result_get (false, s2) (UnpinPage s2 4096 true)).

Definition flushed : bool * world :=
  result_get (false, dirty_world) (FlushPage dirty_world 4096).




End StoreSpec.

(** * What is stated about the buffer pool: its bookkeeping *)

Module PoolSpec.
Import Pool.

(** The bookkeeping of the pool is consistent: a page of the page table
    sits in the frame the table names, with a pin count that is not
    negative; a frame on the LRU list holds a page of the table and is not
    pinned; a frame on the free list holds no page of the table; neither
    list names a frame twice. *)
Record pool_inv (p : BufferPool) : Prop := mkPoolInv {
  pi_table : forall page idx, page_table_ p !! page = Some idx ->
             exists f, frames_ p !! idx = Some f /\ page_id f = page /\ 0 <= pin_count f;
  pi_lru : forall idx, idx ∈ lru_list_ p ->
           exists f, frames_ p !! idx = Some f /\ pin_count f = 0 /\
                     page_table_ p !! page_id f = Some idx;
  pi_lru_nodup : NoDup (lru_list_ p);
  pi_free : forall idx, idx ∈ free_list_ p ->
            (idx < length (frames_ p))%nat /\
            forall page, page_table_ p !! page <> Some idx;
  pi_free_nodup : NoDup (free_list_ p);
}.

(** The frame [idx] exists and nothing refers to it: it is neither in the
    page table nor on one of the two lists. *)
Definition unused (p : BufferPool) (idx : nat) : Prop :=
  (idx < length (frames_ p))%nat /\
  (idx ∉ lru_list_ p) /\ (idx ∉ free_list_ p) /\
  forall page, page_table_ p !! page <> Some idx.

(** The page [page] is resident in frame [idx], which holds [f]. *)
Definition resident (p : BufferPool) (page : Z) (idx : nat) (f : PageFrame) : Prop :=
  page_table_ p !! page = Some idx /\ frames_ p !! idx = Some f.

(** The frame after it was written back. *)
Definition clean (f : PageFrame) : PageFrame :=
  mkFrame (page_id f) (pin_count f) false (data f).

(** The bytes of a page in the file, and of a frame's buffer. *)
Definition disk_page (d : Disk.DiskManager) (page : Z) : list Z :=
  mem_read (Disk.mapped_ d) page (Z.to_nat PAGE_SIZE).
Definition frame_bytes (f : PageFrame) : list Z := mem_read (data f) 0 (Z.to_nat PAGE_SIZE).

(** ** Sample states *)

(** A pool of two frames over a file of four pages: page 4096 is pinned in
    frame 0; page 8192 sits modified and unpinned in frame 1. *)
Definition two_frame_world : world :=
  mkWorld (mkPool 2 [mkFrame 4096 1 false (fun _ => 65); mkFrame 8192 0 true (fun _ => 66)]
                  {[ 4096 := 0%nat; 8192 := 1%nat ]} [1%nat] [] 0 0)
          (Disk.mkDisk 16384 (fun _ => 0)) None.

(** The same pool with both pages pinned once. *)
Definition both_pinned_world : world :=
  mkWorld (mkPool 2 [mkFrame 4096 1 false (fun _ => 65); mkFrame 8192 1 true (fun _ => 66)]
                  {[ 4096 := 0%nat; 8192 := 1%nat ]} [] [] 0 0)
          (Disk.mkDisk 16384 (fun _ => 0)) None.

End PoolSpec.

(** * What is stated about the log: appended entries, clean and torn files *)

Module WalSpec.
Import Wal.

(** What a caller hands to [AppendRecord]: the type, the page id and the
    payload. *)
Definition entry : Type := (Z * Z * list Z)%type.

Definition entry_of (r : RecoveryRecord) : entry :=
  (type (header r), page_id (header r), data r).

(** The arguments that the parameter types of [AppendRecord] can hold. *)
Definition entry_ok (e : entry) : Prop :=
  let '(ty, page, payload) := e in
  0 <= ty <= kCheckpointEnd /\ in_int64 page /\ Z.of_nat (length payload) < 2 ^ 32.

(** One [AppendRecord] after the other. *)
Definition append_all (w : WriteAheadLog) (es : list entry) : WriteAheadLog :=
  fold_left (fun w e => let '(ty, page, payload) := e in AppendRecord w ty page payload) es w.

(** One [LogPageWrite] after the other. *)
Definition log_pages (w : WriteAheadLog) (ws : list (Z * mem)) : WriteAheadLog :=
  fold_left (fun w pw => snd (LogPageWrite w (fst pw) (snd pw))) ws w.

(** The page images applied to a mapping in the order of the log. *)
Definition apply_pages (m : mem) (ws : list (Z * mem)) : mem :=
  fold_left (fun m pw => mem_write m (fst pw) (mem_read (snd pw) 0 (Z.to_nat PAGE_SIZE))) ws m.

(** A crash in the middle of a write: only the first [n] bytes of the file
    have reached the disk. *)
Definition torn (w : WriteAheadLog) (n : nat) : WriteAheadLog :=
  mkWal (take n (file w)) (next_lsn_ w) (checkpoint_lsn_ w)
        (bytes_written_ w) (records_written_ w).

(** The bytes of a record in the file. *)
Definition record_bytes (r : RecoveryRecord) : list Z := header_bytes (header r) ++ data r.

(** The checksum that [AppendRecord] computes for a header and a payload. *)
Definition record_crc (h : LogRecordHeader) (payload : list Z) : Z :=
  let crc := CRC32 (header_bytes (mkHeader (lsn h) (type h) (page_id h) (data_len h) 0)) in
  if 0 <? data_len h then Z.lxor crc (CRC32 payload) else crc.

(** A record as [AppendRecord] writes it. *)
Definition record_ok (r : RecoveryRecord) : Prop :=
  1 <= lsn (header r) < 2 ^ 64 /\
  0 <= type (header r) <= kCheckpointEnd /\
  in_int64 (page_id (header r)) /\
  data_len (header r) = Z.of_nat (length (data r)) /\
  data_len (header r) < 2 ^ 32 /\
  checksum (header r) = record_crc (header r) (data r).

(** A log file that holds its header, the records [recs] and nothing after
    them. *)
Definition clean (w : WriteAheadLog) (recs : list RecoveryRecord) : Prop :=
  file w = file_header_bytes (checkpoint_lsn_ w) ++ concat (map record_bytes recs) /\
  0 <= checkpoint_lsn_ w < 2 ^ 64 /\
  Forall record_ok recs.

End WalSpec.

(** * BPlusTree: opening and closing the index file (bplus_tree.cpp) *)

Module TreeLife.
Import Tree TreeSpec.

(** [ReadMetadata]: the members are taken from page 0; a frontier inside the
    metadata page and a root outside of the file are not believed. *)
Definition ReadMetadata : M unit :=
  fun t =>
    if PAGE_SIZE <=? file_size t then
      let root := meta_root t in
      let next := meta_next t in
      let next := if next <? PAGE_SIZE then PAGE_SIZE else next in
      if negb (root =? INVALID_PAGE_ID) && ((root <? PAGE_SIZE) || (file_size t <=? root))
      then (Ok tt, mkTree INVALID_PAGE_ID PAGE_SIZE (file_size t)
                          (meta_root t) (meta_next t) (meta_free t) (pages t))
      else (Ok tt, mkTree root next (file_size t)
                          (meta_root t) (meta_next t) (meta_free t) (pages t))
    else (Ok tt, t).

(** The constructor without a log, on the index file that the state [file]
    stands for: the members start from their initialisers
    ([root_offset_ = INVALID_PAGE_ID], [next_page_offset_ = PAGE_SIZE]), then
    [ReadMetadata]. *)
Definition Open (file : BPlusTree) : result unit * BPlusTree :=
  ReadMetadata (mkTree INVALID_PAGE_ID PAGE_SIZE (file_size file)
                       (meta_root file) (meta_next file) (meta_free file) (pages file)).

(** The destructor without a log: [WriteMetadata], then
    [pool_->FlushAllPages()], after which the file holds every page as the
    tree saw it. *)
Definition Close : M unit := WriteMetadata.

(** One [Delete] after the other; the statuses in order. *)
Fixpoint delete_all (fuel : nat) (keys : list Z) : M (list Status) :=
  match keys with
  | [] => ret []
  | k :: keys' =>
      s ← Delete fuel k;
      ss ← delete_all fuel keys';
      ret (s :: ss)
  end.

(** ** Sample states *)

(** A full internal node on its own: the keys 2, 4 .. 200. *)
Definition full_node_keys : list Z := map (fun n => 2 * Z.of_nat n) (seq 1 100).
Definition full_node_kids : list Z := map (fun n => PAGE_SIZE * Z.of_nat n) (seq 2 101).
Definition full_node_tree : BPlusTree :=
  mkTree 4096 421888 421888 4096 421888 INVALID_PAGE_ID
         {[ 4096 := PInternal (InternalPage.mk 100 full_node_keys full_node_kids) ]}.


End TreeLife.


(** * The buffer pool under the tree (buffer_pool.cpp), on pages

    [Tree] runs the code of bplus_tree.cpp on the file as the tree sees it
    through the pool, and takes every pin to find a frame.  Here the same
    code runs on the pool itself: a fixed number of frames, each with the
    page it holds, its pin count and its dirty flag, in front of the mapped
    file.  A fetch or a new page that finds every frame pinned returns the
    null pointer, and the caller goes on as the source does.

    A frame holds a page as [Tree] has it (the content that the accessors
    of page.h see).  The state is kept when a call leaves by an exception:
    what [FetchPage] did to a frame before [PageData] threw stays done. *)

Module PagePool.
Import Tree.

(** [PageFrame]; [data] is the frame's [char data[PAGE_SIZE]]. *)
Record PageFrame : Type := mkFrame {
  page_id : Z;
  pin_count : Z;
  dirty : bool;
  data : page;
}.

Definition empty_frame : PageFrame := mkFrame INVALID_PAGE_ID 0 false zero_page.

(** The members of the pool; [lru_map_] is the index of [lru_list_] and is
    not kept apart from it. *)
Record BufferPool : Type := mkPool {
  pool_size_ : Z;
  frames_ : list PageFrame;
  page_table_ : gmap Z nat;
  lru_list_ : list nat;          (* front = least recently used *)
  free_list_ : list nat;         (* back = next frame handed out *)
  hits_ : Z;
  misses_ : Z;
}.

(** The tree with its pool.  [core] holds the members [root_offset_] and
    [next_page_offset_] and, behind [disk_], the mapped file: its size, the
    three metadata words and the pages as the file has them (a page that a
    frame holds modified is older in the file). *)
Record BPlusTree : Type := mkPooled {
  core : Tree.BPlusTree;
  pool_ : BufferPool;
}.

Definition with_core (s : BPlusTree) (c : Tree.BPlusTree) : BPlusTree := mkPooled c (pool_ s).
Definition with_pool (s : BPlusTree) (p : BufferPool) : BPlusTree := mkPooled (core s) p.

Definition set_frames (p : BufferPool) (fs : list PageFrame) : BufferPool :=
  mkPool (pool_size_ p) fs (page_table_ p) (lru_list_ p) (free_list_ p) (hits_ p) (misses_ p).
Definition set_page_table (p : BufferPool) (t : gmap Z nat) : BufferPool :=
  mkPool (pool_size_ p) (frames_ p) t (lru_list_ p) (free_list_ p) (hits_ p) (misses_ p).
Definition set_lru_list (p : BufferPool) (l : list nat) : BufferPool :=
  mkPool (pool_size_ p) (frames_ p) (page_table_ p) l (free_list_ p) (hits_ p) (misses_ p).
Definition set_free_list (p : BufferPool) (l : list nat) : BufferPool :=
  mkPool (pool_size_ p) (frames_ p) (page_table_ p) (lru_list_ p) l (hits_ p) (misses_ p).
Definition set_hits (p : BufferPool) (h : Z) : BufferPool :=
  mkPool (pool_size_ p) (frames_ p) (page_table_ p) (lru_list_ p) (free_list_ p) h (misses_ p).
Definition set_misses (p : BufferPool) (m : Z) : BufferPool :=
  mkPool (pool_size_ p) (frames_ p) (page_table_ p) (lru_list_ p) (free_list_ p) (hits_ p) m.
Definition set_frame (p : BufferPool) (idx : nat) (f : PageFrame) : BufferPool :=
  set_frames p (<[idx := f]> (frames_ p)).

(** The constructor: all frames start on the free list, pushed from
    [pool_size - 1] down to [0]. *)
Definition create (pool_size : nat) : BufferPool :=
  mkPool (Z.of_nat pool_size) (replicate pool_size empty_frame) ∅ [] (rev (seq 0 pool_size)) 0 0.

(** ** The state monad of the member functions *)

Definition M (A : Type) : Type := BPlusTree -> result A * BPlusTree.

Definition ret {A : Type} (a : A) : M A := fun s => (Ok a, s).

Definition bind {A B : Type} (m : M A) (k : A -> M B) : M B :=
  fun s =>
    match m s with
    | (Ok a, s') => k a s'
    | (Throw e, s') => (Throw e, s')
    | (AssertFail, s') => (AssertFail, s')
    | (Undefined, s') => (Undefined, s')
    | (OutOfFuel, s') => (OutOfFuel, s')
    end.

#[global] Instance M_bind : MBind M := fun A B k m => bind m k.
#[global] Instance M_ret : MRet M := fun A a => ret a.

Definition fail {A : Type} (r : result A) : M A := fun s => (r, s).
Definition gets {A : Type} (f : BPlusTree -> A) : M A := fun s => (Ok (f s), s).
Definition modify_pool (f : BufferPool -> BufferPool) : M unit :=
  fun s => (Ok tt, with_pool s (f (pool_ s))).

(** A member function of [Tree] that touches the members and the file
    only. *)
Definition lift {A : Type} (m : Tree.M A) : M A :=
  fun s => let '(r, c) := m (core s) in (r, with_core s c).

(** [frames_[idx]]: an index outside the vector has no defined behaviour. *)
Definition frame_at (idx : nat) : M PageFrame :=
  fun s =>
    match frames_ (pool_ s) !! idx with
    | Some f => (Ok f, s)
    | None => (Undefined, s)
    end.

(** [disk_.PageData(offset)] for a page that is read: the range check, and
    the page the file holds there. *)
Definition read_page (offset : Z) : M page :=
  fun s =>
    if (offset <? 0) || (file_size (core s) <? offset + PAGE_SIZE) then (Throw out_of_range, s)
    else if page_boundary offset then (Ok (page_at (core s) offset), s)
    else (Undefined, s).

(** [memcpy(disk_.PageData(offset), f.data, PAGE_SIZE)] *)
Definition write_page (offset : Z) (pg : page) : M unit :=
  fun s =>
    if (offset <? 0) || (file_size (core s) <? offset + PAGE_SIZE) then (Throw out_of_range, s)
    else if page_boundary offset
         then (Ok tt, with_core s (set_pages (core s) (<[offset := pg]> (pages (core s)))))
         else (Undefined, s).

Definition FindVictim (p : BufferPool) : option nat := head (lru_list_ p).

Definition EvictFrame (frame_idx : nat) : M unit :=
  f ← frame_at frame_idx;
  (* Flush to disk if dirty. *)
  d ← (if dirty f && negb (page_id f =? INVALID_PAGE_ID)
       then write_page (page_id f) (data f);; ret false
       else ret (dirty f));
  modify_pool (fun p =>
    let p := set_page_table p (delete (page_id f) (page_table_ p)) in
    let p := set_lru_list p (Pool.lru_erase frame_idx (lru_list_ p)) in
    set_frame p frame_idx (mkFrame INVALID_PAGE_ID 0 d (data f))).

(** The frame for a page that is not resident: [free_list_.back()] and
    [pop_back()], else the victim, evicted; [None] when all frames are
    pinned. *)
Definition obtain_frame : M (option nat) :=
  p ← gets pool_;
  match last (free_list_ p) with
  | Some idx =>
      modify_pool (fun p => set_free_list p (removelast (free_list_ p)));;
      ret (Some idx)
  | None =>
      match FindVictim p with
      | None => ret None
      | Some idx => EvictFrame idx;; ret (Some idx)
      end
  end.

(** [FetchPage]: the returned pointer is the frame's buffer, given here by
    the page it holds; [None] is the null pointer. *)
Definition FetchPage (pid : Z) : M (option page) :=
  if pid <? 0 then fail AssertFail
  else
    p ← gets pool_;
    match page_table_ p !! pid with
    | Some idx =>
        modify_pool (fun p => set_hits p (hits_ p + 1));;
        f ← frame_at idx;
        modify_pool (fun p =>
          let p := set_frame p idx (mkFrame (page_id f) (pin_count f + 1) (dirty f) (data f)) in
          set_lru_list p (Pool.lru_erase idx (lru_list_ p)));;
        ret (Some (data f))
    | None =>
        modify_pool (fun p => set_misses p (misses_ p + 1));;
        fr ← obtain_frame;
        match fr with
        | None => ret None                 (* all frames pinned *)
        | Some frame_idx =>
            f ← frame_at frame_idx;
            modify_pool (fun p => set_frame p frame_idx (mkFrame pid 1 false (data f)));;
            pg ← read_page pid;
            modify_pool (fun p =>
              let p := set_frame p frame_idx (mkFrame pid 1 false pg) in
              set_page_table p (<[pid := frame_idx]> (page_table_ p)));;
            ret (Some pg)
        end
    end.

(** [UnpinPage(page_id, dirty)].  The tree writes through the pointer it
    was given and unpins the page dirty afterwards; [view] is the page as
    these writes left it.  (The source never unpins a page clean that it
    has written to.) *)
Definition UnpinPage (pid : Z) (view : page) (is_dirty : bool) : M bool :=
  p ← gets pool_;
  match page_table_ p !! pid with
  | None => ret false
  | Some idx =>
      f ← frame_at idx;
      if pin_count f <=? 0 then ret false
      else
        let f := mkFrame (page_id f) (pin_count f - 1) (dirty f || is_dirty)
                         (if is_dirty then view else data f) in
        modify_pool (fun p =>
          let p := set_frame p idx f in
          if pin_count f =? 0 then set_lru_list p (lru_list_ p ++ [idx]) else p);;
        ret true
  end.

(** One turn of [FlushAllPages]. *)
Definition flush_frame (pid : Z) (idx : nat) : M unit :=
  f ← frame_at idx;
  if dirty f then
    write_page pid (data f);;
    modify_pool (fun p => set_frame p idx (mkFrame (page_id f) (pin_count f) false (data f)))
  else ret tt.

Definition FlushAllPages : M unit :=
  fun s =>
    foldl (fun acc '(p, idx) => bind acc (fun _ => flush_frame p idx))
          (ret tt) (map_to_list (page_table_ (pool_ s))) s.

(** [NewPage]: the page id is an out-parameter, assigned before a frame is
    looked for. *)
Definition NewPage : M (option page * Z) :=
  (* Allocate on disk first. *)
  pid ← lift AllocatePage;
  fr ← obtain_frame;
  match fr with
  | None => ret (None, pid)          (* Cannot evict -- caller should flush. *)
  | Some frame_idx =>
      _ ← frame_at frame_idx;
      modify_pool (fun p =>
        let p := set_frame p frame_idx (mkFrame pid 1 true zero_page) in
        set_page_table p (<[pid := frame_idx]> (page_table_ p)));;
      ret (Some zero_page, pid)
  end.

Definition DeletePage (pid : Z) : M bool :=
  p ← gets pool_;
  match page_table_ p !! pid with
  | None => ret true                   (* not in pool, nothing to do *)
  | Some idx =>
      f ← frame_at idx;
      if 0 <? pin_count f then ret false
      else
        modify_pool (fun p =>
          let p := set_lru_list p (Pool.lru_erase idx (lru_list_ p)) in
          let p := set_frame p idx (mkFrame INVALID_PAGE_ID 0 false (data f)) in
          let p := set_page_table p (delete pid (page_table_ p)) in
          set_free_list p (free_list_ p ++ [idx]));;
        ret true
  end.

End PagePool.

(** * BPlusTree on its pool (bplus_tree.cpp)

    The member functions of [Tree] once more, with [PinPage], [UnpinPage],
    [AllocPage] and [DeallocPage] going to the pool.  Where the source tests
    the pointer it gets ([SearchLeaf], [Search], [RangeQuery], [Insert]) the
    null pointer takes the branch of the source; everywhere else the page
    is read or written through the pointer as it is, which for the null
    pointer has no defined behaviour. *)

Module Pooled.
Import Tree PagePool.

Definition root_offset_ (s : BPlusTree) : Z := Tree.root_offset_ (core s).
Definition next_page_offset_ (s : BPlusTree) : Z := Tree.next_page_offset_ (core s).

(** The tree with a pool of [pool_size] frames on a brand-new file. *)
Definition new_tree (pool_size : nat) : BPlusTree := mkPooled empty_tree (create pool_size).

(** ** Page access helpers (through buffer pool) *)

Definition PinPage (page_id : Z) : M (option page) := FetchPage page_id.

Definition UnpinPage (page_id : Z) (view : page) (dirty : bool) : M unit :=
  PagePool.UnpinPage page_id view dirty;; ret tt.

(** [AllocPage]: the pointer (for a new page: to zero bytes) and the page
    id. *)
Definition AllocPage : M (option page * Z) :=
  r ← NewPage;
  lift (modify (fun t => mkTree (Tree.root_offset_ t) (meta_next t) (file_size t)
                                (meta_root t) (meta_next t) (meta_free t) (pages t)));;
  ret r.

(** [DeallocPage]: [pool_->DeletePage], whose result is not looked at, then
    [disk_->FreePage]. *)
Definition DeallocPage (page_id : Z) : M unit :=
  PagePool.DeletePage page_id;;
  lift (Tree.DeallocPage page_id).

Definition WriteMetadata : M unit := lift Tree.WriteMetadata.

Definition IsEmpty (s : BPlusTree) : bool := root_offset_ s =? INVALID_PAGE_ID.

(** [PageIsLeaf(page)], [LeafPage leaf(page)] and [InternalPage node(page)]
    on a pointer that the source does not test. *)
Definition deref (p : option page) : M page :=
  match p with
  | Some pg => ret pg
  | None => fail Undefined
  end.

Definition PinLeaf (page_id : Z) : M LeafPage.t :=
  p ← PinPage page_id;
  match p with Some (PLeaf l) => ret l | _ => fail Undefined end.

Definition PinInternal (page_id : Z) : M InternalPage.t :=
  p ← PinPage page_id;
  match p with Some (PInternal n) => ret n | _ => fail Undefined end.

(** [AllocPage] where the source initialises the page without a test. *)
Definition AllocInit : M Z :=
  '(p, page_id) ← AllocPage;
  match p with Some _ => ret page_id | None => fail Undefined end.

(** ** Search *)

(** The loop of [SearchLeaf], entered with [page] pinned at [current]. *)
Fixpoint SearchLeaf_loop (fuel : nat) (key current : Z) (page : page) : M Z :=
  match page with
  | PLeaf _ =>
      UnpinPage current page false;;
      ret current
  | PInternal node =>
      match fuel with
      | O => fail OutOfFuel
      | S fuel' =>
          let n := InternalPage.NumKeys node in
          let i := child_index node key (Z.to_nat n) 0 in
          let child := InternalPage.ChildAt node i in
          UnpinPage current page false;;
          if child <? PAGE_SIZE then ret INVALID_PAGE_ID
          else
            page ← PinPage child;
            match page with
            | None => ret INVALID_PAGE_ID
            | Some page => SearchLeaf_loop fuel' key child page
            end
      end
  | PFree _ => fail Undefined
  end.

Definition SearchLeaf (fuel : nat) (key : Z) : M Z :=
  root ← gets root_offset_;
  if root =? INVALID_PAGE_ID then ret INVALID_PAGE_ID
  else
    page ← PinPage root;
    match page with
    | None => ret INVALID_PAGE_ID
    | Some page => SearchLeaf_loop fuel key root page
    end.

Definition Search (fuel : nat) (key : Z) : M (Status * option (list Z)) :=
  leaf_off ← SearchLeaf fuel key;
  if leaf_off =? INVALID_PAGE_ID then ret (NotFound, None)
  else
    page ← PinPage leaf_off;
    match page with
    | None => ret (IOError, None)
    | Some (PLeaf leaf) =>
        let n := LeafPage.NumKeys leaf in
        match find_key leaf key (Z.to_nat n) 0 with
        | Some i =>
            UnpinPage leaf_off (PLeaf leaf) false;;
            ret (OK, Some (LeafPage.GetData leaf i))
        | None =>
            UnpinPage leaf_off (PLeaf leaf) false;;
            ret (NotFound, None)
        end
    | Some _ => fail Undefined
    end.

Definition SearchString (fuel : nat) (key : Z) : M (Status * option (list Z)) :=
  '(s, buf) ← Search fuel key;
  ret (s, to_string <$> buf).

(** ** Range query *)

Fixpoint RangeQuery_loop (fuel : nat) (lower upper leaf_off : Z) (results : list (Z * list Z))
  : M (list (Z * list Z)) :=
  if negb (leaf_off =? INVALID_PAGE_ID) && (PAGE_SIZE <=? leaf_off) then
    match fuel with
    | O => fail OutOfFuel
    | S fuel' =>
        page ← PinPage leaf_off;
        match page with
        | None => ret results              (* break *)
        | Some (PLeaf leaf) =>
            let n := LeafPage.NumKeys leaf in
            let '(found, done) := scan_leaf leaf lower upper (Z.to_nat n) 0 in
            let next := LeafPage.NextLeaf leaf in
            UnpinPage leaf_off (PLeaf leaf) false;;
            if done then ret (results ++ found)
            else RangeQuery_loop fuel' lower upper next (results ++ found)
        | Some _ => fail Undefined
        end
    end
  else ret results.

Definition RangeQuery (fuel : nat) (lower upper : Z) : M (Status * list (Z * list Z)) :=
  if upper <? lower then ret (InvalidArg, [])
  else
    root ← gets root_offset_;
    if root =? INVALID_PAGE_ID then ret (OK, [])
    else
      leaf_off ← SearchLeaf fuel lower;
      if leaf_off =? INVALID_PAGE_ID then ret (OK, [])
      else
        results ← RangeQuery_loop fuel lower upper leaf_off [];
        ret (OK, results).

(** ** Insert *)

Definition InsertIntoLeaf (leaf_off key : Z) (data : list Z) : M (option (Z * Z)) :=
  leaf ← PinLeaf leaf_off;
  let n := Z.to_nat (LeafPage.NumKeys leaf) in
  match find_key leaf key n 0 with
  | Some i =>
      (* Existing key -- update. *)
      let leaf := LeafPage.SetData leaf i data in
      UnpinPage leaf_off (PLeaf leaf) true;;
      ret None
  | None =>
      if LeafPage.NumKeys leaf <? LEAF_MAX_KEYS then
        (* Room available. *)
        let '(pos, leaf) := leaf_make_room leaf key n in
        let leaf := LeafPage.SetRecord leaf pos key data in
        let leaf := LeafPage.SetNumKeys leaf (LeafPage.NumKeys leaf + 1) in
        UnpinPage leaf_off (PLeaf leaf) true;;
        ret None
      else
        (* Full -- split. *)
        let recs := leaf_records leaf n in
        let recs := vector_insert recs (lower_bound recs key) (key, data) in
        let mid := ((length recs + 1) / 2)%nat in
        (* New leaf: the pointer is not tested. *)
        new_leaf_off ← AllocInit;
        let new_leaf := LeafPage.Init in
        let new_leaf := LeafPage.SetNumKeys new_leaf (Z.of_nat (length recs) - Z.of_nat mid) in
        let new_leaf := leaf_store new_leaf 0 (drop mid recs) in
        (* Linked list. *)
        let new_leaf := LeafPage.SetNextLeaf new_leaf (LeafPage.NextLeaf leaf) in
        UnpinPage new_leaf_off (PLeaf new_leaf) true;;
        (* Left half stays in the original page (still pinned from above). *)
        let leaf := LeafPage.SetNumKeys leaf (Z.of_nat mid) in
        let leaf := leaf_store leaf 0 (take mid recs) in
        let leaf := LeafPage.SetNextLeaf leaf new_leaf_off in
        UnpinPage leaf_off (PLeaf leaf) true;;
        (* Re-read split key. *)
        npage ← PinLeaf new_leaf_off;
        let split_key := LeafPage.KeyAt npage 0 in
        UnpinPage new_leaf_off (PLeaf npage) false;;
        ret (Some (split_key, new_leaf_off))
  end.

Definition InsertIntoInternal (node_off key child_off : Z) : M (option (Z * Z)) :=
  node ← PinInternal node_off;
  let n := Z.to_nat (InternalPage.NumKeys node) in
  if InternalPage.NumKeys node <? INTERNAL_MAX_KEYS then
    (* Room available. *)
    let '(pos, node) := internal_make_room node key n in
    let node := InternalPage.SetKeyAt node pos key in
    let node := InternalPage.SetChildAt node (S pos) child_off in
    let node := InternalPage.SetNumKeys node (InternalPage.NumKeys node + 1) in
    UnpinPage node_off (PInternal node) true;;
    ret None
  else
    (* Full -- split. *)
    let keys := map (InternalPage.KeyAt node) (seq 0 n) in
    let children := map (InternalPage.ChildAt node) (seq 0 (S n)) in
    UnpinPage node_off (PInternal node) false;;
    let pos := key_position keys key in
    let keys := vector_insert keys pos key in
    let children := vector_insert children (S pos) child_off in
    let mid := (length keys / 2)%nat in
    let split_key := nth mid keys 0 in
    (* New internal node: the pointer is not tested. *)
    new_node_off ← AllocInit;
    let new_node := InternalPage.Init in
    let right_count := Z.of_nat (length keys) - Z.of_nat mid - 1 in
    let new_node := InternalPage.SetNumKeys new_node right_count in
    let new_node := internal_store_keys new_node 0 (drop (S mid) keys) in
    let new_node := internal_store_children new_node 0 (drop (S mid) children) in
    UnpinPage new_node_off (PInternal new_node) true;;
    (* Write left half. *)
    node ← PinInternal node_off;
    let node := InternalPage.SetNumKeys node (Z.of_nat mid) in
    let node := internal_store_both node 0 (take mid keys) (take mid children) in
    let node := InternalPage.SetChildAt node mid (nth mid children 0) in
    UnpinPage node_off (PInternal node) true;;
    ret (Some (split_key, new_node_off)).

Fixpoint InsertRecursive (fuel : nat) (node_off key : Z) (data : list Z) : M (option (Z * Z)) :=
  match fuel with
  | O => fail OutOfFuel
  | S fuel' =>
      p ← PinPage node_off;
      page ← deref p;
      match page with
      | PLeaf _ =>
          UnpinPage node_off page false;;
          InsertIntoLeaf node_off key data
      | PInternal node =>
          let n := InternalPage.NumKeys node in
          let i := child_index node key (Z.to_nat n) 0 in
          let child := InternalPage.ChildAt node i in
          UnpinPage node_off page false;;
          r ← InsertRecursive fuel' child key data;
          match r with
          | None => ret None
          | Some (child_split, child_new) =>
              InsertIntoInternal node_off child_split child_new
          end
      | PFree _ => fail Undefined
      end
  end.

Definition Insert (fuel : nat) (key : Z) (data : list Z) : M Status :=
  let padded := pad data in
  root ← gets root_offset_;
  if root =? INVALID_PAGE_ID then
    (* Empty tree -- create root leaf. *)
    '(page, off) ← AllocPage;
    match page with
    | None => ret IOError
    | Some _ =>
        let leaf := LeafPage.Init in
        let leaf := LeafPage.SetNumKeys leaf 1 in
        let leaf := LeafPage.SetRecord leaf 0 key padded in
        UnpinPage off (PLeaf leaf) true;;
        lift (modify (fun t => set_root_offset_ t off));;
        WriteMetadata;;
        ret OK
    end
  else
    r ← InsertRecursive fuel root key padded;
    match r with
    | Some (split_key, new_off) =>
        '(page, new_root) ← AllocPage;
        match page with
        | None => ret IOError
        | Some _ =>
            old_root ← gets root_offset_;
            let node := InternalPage.Init in
            let node := InternalPage.SetNumKeys node 1 in
            let node := InternalPage.SetKeyAt node 0 split_key in
            let node := InternalPage.SetChildAt node 0 old_root in
            let node := InternalPage.SetChildAt node 1 new_off in
            UnpinPage new_root (PInternal node) true;;
            lift (modify (fun t => set_root_offset_ t new_root));;
            WriteMetadata;;
            ret OK
        end
    | None => ret OK
    end.

(** ** Delete (with rebalancing) *)

Definition DeleteFromLeaf (leaf_off key : Z) : M bool :=
  leaf ← PinLeaf leaf_off;
  let n := LeafPage.NumKeys leaf in
  match find_key leaf key (Z.to_nat n) 0 with
  | None =>
      UnpinPage leaf_off (PLeaf leaf) false;;
      ret false
  | Some found =>
      (* Shift remaining records left. *)
      let leaf := leaf_shift_left leaf found (Z.to_nat (n - 1) - found) in
      let leaf := LeafPage.SetNumKeys leaf (n - 1) in
      UnpinPage leaf_off (PLeaf leaf) true;;
      (* Is this leaf underful? *)
      root ← gets root_offset_;
      if leaf_off =? root then ret (n - 1 =? 0)
      else ret (n - 1 <? LEAF_MIN_KEYS)
  end.

Definition remove_from_parent (parent_off : Z) (merge_key_idx : nat) : M unit :=
  parent ← PinInternal parent_off;
  let pn := InternalPage.NumKeys parent in
  let parent := internal_remove parent merge_key_idx (Z.to_nat (pn - 1) - merge_key_idx) in
  let parent := InternalPage.SetNumKeys parent (pn - 1) in
  UnpinPage parent_off (PInternal parent) true.

Definition FixLeafChild_left (parent_off : Z) (child_idx : nat) (parent : InternalPage.t)
                             (child_off : Z) : M bool :=
  if (0 <? child_idx)%nat then
    let left_off := InternalPage.ChildAt parent (child_idx - 1) in
    UnpinPage parent_off (PInternal parent) false;;
    left ← PinLeaf left_off;
    let left_n := LeafPage.NumKeys left in
    if LEAF_MIN_KEYS <? left_n then
      (* Borrow the last record from left sibling. *)
      let '(tk, td) := LeafPage.GetRecord left (Z.to_nat (left_n - 1)) in
      let left := LeafPage.SetNumKeys left (left_n - 1) in
      UnpinPage left_off (PLeaf left) true;;
      (* Insert at the front of child. *)
      child ← PinLeaf child_off;
      let cn := LeafPage.NumKeys child in
      let child := leaf_shift_right child (Z.to_nat cn) in
      let child := LeafPage.SetRecord child 0 tk td in
      let child := LeafPage.SetNumKeys child (cn + 1) in
      UnpinPage child_off (PLeaf child) true;;
      (* Update parent key. *)
      p2 ← PinInternal parent_off;
      let p2 := InternalPage.SetKeyAt p2 (child_idx - 1) tk in
      UnpinPage parent_off (PInternal p2) true;;
      ret true
    else
      UnpinPage left_off (PLeaf left) false;;
      ret false
  else
    UnpinPage parent_off (PInternal parent) false;;
    ret false.

Definition FixLeafChild_right (parent_off : Z) (child_idx : nat) (parent : InternalPage.t)
                              (parent_keys child_off : Z) : M bool :=
  if Z.of_nat child_idx <? parent_keys then
    let right_off := InternalPage.ChildAt parent (child_idx + 1) in
    UnpinPage parent_off (PInternal parent) false;;
    right ← PinLeaf right_off;
    let right_n := LeafPage.NumKeys right in
    if LEAF_MIN_KEYS <? right_n then
      (* Borrow the first record from right sibling. *)
      let '(tk, td) := LeafPage.GetRecord right 0 in
      let right := leaf_shift_left right 0 (Z.to_nat (right_n - 1)) in
      let right := LeafPage.SetNumKeys right (right_n - 1) in
      let new_right_first := LeafPage.KeyAt right 0 in
      UnpinPage right_off (PLeaf right) true;;
      (* Append to child. *)
      child ← PinLeaf child_off;
      let cn := LeafPage.NumKeys child in
      let child := LeafPage.SetRecord child (Z.to_nat cn) tk td in
      let child := LeafPage.SetNumKeys child (cn + 1) in
      UnpinPage child_off (PLeaf child) true;;
      (* Update parent key. *)
      p2 ← PinInternal parent_off;
      let p2 := InternalPage.SetKeyAt p2 child_idx new_right_first in
      UnpinPage parent_off (PInternal p2) true;;
      ret true
    else
      UnpinPage right_off (PLeaf right) false;;
      ret false
  else
    UnpinPage parent_off (PInternal parent) false;;
    ret false.

(** The merge: both siblings are pinned at the same time. *)
Definition FixLeafChild_merge (parent_off : Z) (child_idx : nat) (parent : InternalPage.t)
                              (child_off : Z) : M unit :=
  let '(left_off, right_off, merge_key_idx) :=
    if (0 <? child_idx)%nat
    then (InternalPage.ChildAt parent (child_idx - 1), child_off, (child_idx - 1)%nat)
    else (child_off, InternalPage.ChildAt parent (child_idx + 1), child_idx) in
  UnpinPage parent_off (PInternal parent) false;;
  (* Copy all records from right into left. *)
  left ← PinLeaf left_off;
  let ln := LeafPage.NumKeys left in
  right ← PinLeaf right_off;
  let rn := LeafPage.NumKeys right in
  let left := leaf_append left right (Z.to_nat ln) 0 (Z.to_nat rn) in
  let left := LeafPage.SetNumKeys left (ln + rn) in
  let left := LeafPage.SetNextLeaf left (LeafPage.NextLeaf right) in
  UnpinPage left_off (PLeaf left) true;;
  UnpinPage right_off (PLeaf right) false;;
  DeallocPage right_off;;
  (* Remove merge_key_idx from parent. *)
  remove_from_parent parent_off merge_key_idx.

Definition FixLeafChild (parent_off : Z) (child_idx : nat) : M unit :=
  parent ← PinInternal parent_off;
  let parent_keys := InternalPage.NumKeys parent in
  let child_off := InternalPage.ChildAt parent child_idx in
  borrowed ← FixLeafChild_left parent_off child_idx parent child_off;
  if borrowed : bool then ret tt
  else
    parent ← PinInternal parent_off;
    borrowed ← FixLeafChild_right parent_off child_idx parent parent_keys child_off;
    if borrowed : bool then ret tt
    else
      parent ← PinInternal parent_off;
      FixLeafChild_merge parent_off child_idx parent child_off.

Definition FixInternalChild_left (parent_off : Z) (child_idx : nat) (parent : InternalPage.t)
                                 (child_off : Z) : M bool :=
  if (0 <? child_idx)%nat then
    let left_off := InternalPage.ChildAt parent (child_idx - 1) in
    let parent_key := InternalPage.KeyAt parent (child_idx - 1) in
    UnpinPage parent_off (PInternal parent) false;;
    left ← PinInternal left_off;
    let left_n := InternalPage.NumKeys left in
    if INTERNAL_MIN_KEYS <? left_n then
      (* Borrow: take the last key from left, push parent key down to child. *)
      let borrowed_key := InternalPage.KeyAt left (Z.to_nat (left_n - 1)) in
      let borrowed_child := InternalPage.ChildAt left (Z.to_nat left_n) in
      let left := InternalPage.SetNumKeys left (left_n - 1) in
      UnpinPage left_off (PInternal left) true;;
      (* Prepend parent_key + borrowed_child to child. *)
      child ← PinInternal child_off;
      let cn := InternalPage.NumKeys child in
      let child := internal_shift_right child (Z.to_nat cn) in
      let child := InternalPage.SetChildAt child 1 (InternalPage.ChildAt child 0) in
      let child := InternalPage.SetKeyAt child 0 parent_key in
      let child := InternalPage.SetChildAt child 0 borrowed_child in
      let child := InternalPage.SetNumKeys child (cn + 1) in
      UnpinPage child_off (PInternal child) true;;
      (* Replace parent key with borrowed key. *)
      p2 ← PinInternal parent_off;
      let p2 := InternalPage.SetKeyAt p2 (child_idx - 1) borrowed_key in
      UnpinPage parent_off (PInternal p2) true;;
      ret true
    else
      UnpinPage left_off (PInternal left) false;;
      ret false
  else
    UnpinPage parent_off (PInternal parent) false;;
    ret false.

Definition FixInternalChild_right (parent_off : Z) (child_idx : nat) (parent : InternalPage.t)
                                  (parent_keys child_off : Z) : M bool :=
  if Z.of_nat child_idx <? parent_keys then
    let right_off := InternalPage.ChildAt parent (child_idx + 1) in
    let parent_key := InternalPage.KeyAt parent child_idx in
    UnpinPage parent_off (PInternal parent) false;;
    right ← PinInternal right_off;
    let right_n := InternalPage.NumKeys right in
    if INTERNAL_MIN_KEYS <? right_n then
      let borrowed_key := InternalPage.KeyAt right 0 in
      let borrowed_child := InternalPage.ChildAt right 0 in
      (* Shift left in right. *)
      let right := internal_shift_left right 0 (Z.to_nat (right_n - 1)) in
      let right := InternalPage.SetChildAt right (Z.to_nat (right_n - 1))
                     (InternalPage.ChildAt right (Z.to_nat right_n)) in
      let right := InternalPage.SetNumKeys right (right_n - 1) in
      UnpinPage right_off (PInternal right) true;;
      (* Append parent_key + borrowed_child to child. *)
      child ← PinInternal child_off;
      let cn := InternalPage.NumKeys child in
      let child := InternalPage.SetKeyAt child (Z.to_nat cn) parent_key in
      let child := InternalPage.SetChildAt child (Z.to_nat (cn + 1)) borrowed_child in
      let child := InternalPage.SetNumKeys child (cn + 1) in
      UnpinPage child_off (PInternal child) true;;
      (* Replace parent key with borrowed key. *)
      p2 ← PinInternal parent_off;
      let p2 := InternalPage.SetKeyAt p2 child_idx borrowed_key in
      UnpinPage parent_off (PInternal p2) true;;
      ret true
    else
      UnpinPage right_off (PInternal right) false;;
      ret false
  else
    UnpinPage parent_off (PInternal parent) false;;
    ret false.

Definition FixInternalChild_merge (parent_off : Z) (child_idx : nat) (parent : InternalPage.t)
                                  (child_off : Z) : M unit :=
  let '(left_off, right_off, merge_key_idx) :=
    if (0 <? child_idx)%nat
    then (InternalPage.ChildAt parent (child_idx - 1), child_off, (child_idx - 1)%nat)
    else (child_off, InternalPage.ChildAt parent (child_idx + 1), child_idx) in
  let merge_key := InternalPage.KeyAt parent merge_key_idx in
  UnpinPage parent_off (PInternal parent) false;;
  (* Merge: left + merge_key + right -> left. *)
  left ← PinInternal left_off;
  let ln := InternalPage.NumKeys left in
  right ← PinInternal right_off;
  let rn := InternalPage.NumKeys right in
  (* Append merge_key. *)
  let left := InternalPage.SetKeyAt left (Z.to_nat ln) merge_key in
  let left := InternalPage.SetChildAt left (Z.to_nat (ln + 1)) (InternalPage.ChildAt right 0) in
  (* Copy right's keys and children. *)
  let left := internal_append left right (Z.to_nat ln) 0 (Z.to_nat rn) in
  let left := InternalPage.SetNumKeys left (ln + 1 + rn) in
  UnpinPage left_off (PInternal left) true;;
  UnpinPage right_off (PInternal right) false;;
  DeallocPage right_off;;
  (* Remove merge_key_idx from parent. *)
  remove_from_parent parent_off merge_key_idx.

Definition FixInternalChild (parent_off : Z) (child_idx : nat) : M unit :=
  parent ← PinInternal parent_off;
  let parent_keys := InternalPage.NumKeys parent in
  let child_off := InternalPage.ChildAt parent child_idx in
  borrowed ← FixInternalChild_left parent_off child_idx parent child_off;
  if borrowed : bool then ret tt
  else
    parent ← PinInternal parent_off;
    borrowed ← FixInternalChild_right parent_off child_idx parent parent_keys child_off;
    if borrowed : bool then ret tt
    else
      parent ← PinInternal parent_off;
      FixInternalChild_merge parent_off child_idx parent child_off.

Definition FixChild (parent_off : Z) (child_idx : nat) : M unit :=
  parent ← PinInternal parent_off;
  let child_off := InternalPage.ChildAt parent child_idx in
  UnpinPage parent_off (PInternal parent) false;;
  p ← PinPage child_off;
  cpage ← deref p;
  match PageIsLeaf cpage with
  | None => fail Undefined
  | Some child_is_leaf =>
      UnpinPage child_off cpage false;;
      if child_is_leaf then FixLeafChild parent_off child_idx
      else FixInternalChild parent_off child_idx
  end.

Fixpoint DeleteRecursive (fuel : nat) (node_off key : Z) : M bool :=
  match fuel with
  | O => fail OutOfFuel
  | S fuel' =>
      p ← PinPage node_off;
      page ← deref p;
      match page with
      | PLeaf _ =>
          UnpinPage node_off page false;;
          DeleteFromLeaf node_off key
      | PInternal node =>
          (* Internal node -- find the child. *)
          let n := InternalPage.NumKeys node in
          let i := child_index node key (Z.to_nat n) 0 in
          let child := InternalPage.ChildAt node i in
          UnpinPage node_off page false;;
          child_underful ← DeleteRecursive fuel' child key;
          if child_underful : bool then
            FixChild node_off i;;
            (* Check if this node is now underful. *)
            n2 ← PinInternal node_off;
            let nk := InternalPage.NumKeys n2 in
            UnpinPage node_off (PInternal n2) false;;
            (* Root is allowed to have fewer keys. *)
            root ← gets root_offset_;
            if node_off =? root then ret (nk =? 0)
            else ret (nk <? INTERNAL_MIN_KEYS)
          else ret false
      | PFree _ => fail Undefined
      end
  end.

Definition Delete (fuel : nat) (key : Z) : M Status :=
  root ← gets root_offset_;
  if root =? INVALID_PAGE_ID then ret NotFound
  else
    (* Check existence first so we can return NotFound properly. *)
    '(s, _) ← Search fuel key;
    match s with
    | OK =>
        underful ← DeleteRecursive fuel root key;
        if underful : bool then
          (* Check if root is an empty internal node -- shrink the tree. *)
          root ← gets root_offset_;
          p ← PinPage root;
          page ← deref p;
          match page with
          | PInternal node =>
              if InternalPage.NumKeys node =? 0 then
                let old_root := root in
                lift (modify (fun t => set_root_offset_ t (InternalPage.ChildAt node 0)));;
                UnpinPage old_root page false;;
                DeallocPage old_root;;
                WriteMetadata;;
                ret OK
              else
                UnpinPage root page false;;
                ret OK
          | PLeaf leaf =>
              if LeafPage.NumKeys leaf =? 0 then
                let old_root := root in
                lift (modify (fun t => set_root_offset_ t INVALID_PAGE_ID));;
                UnpinPage old_root page false;;
                DeallocPage old_root;;
                WriteMetadata;;
                ret OK
              else
                UnpinPage root page false;;
                ret OK
          | PFree _ => fail Undefined
          end
        else ret OK
    | _ => ret NotFound
    end.

(** ** Opening and closing *)

(** The constructor without a log on the index file that [file] stands
    for: a new pool, the members from their initialisers, then
    [ReadMetadata]. *)
Definition Open (pool_size : nat) (file : Tree.BPlusTree) : result unit * BPlusTree :=
  lift TreeLife.ReadMetadata
       (mkPooled (mkTree INVALID_PAGE_ID PAGE_SIZE (file_size file)
                         (meta_root file) (meta_next file) (meta_free file) (pages file))
                 (create pool_size)).

(** The destructor without a log: [WriteMetadata], then
    [pool_->FlushAllPages()]. *)
Definition Close : M unit :=
  WriteMetadata;;
  FlushAllPages.

(** One call after the other; the statuses in order. *)
Fixpoint insert_all (fuel : nat) (kvs : list (Z * list Z)) : M (list Status) :=
  match kvs with
  | [] => ret []
  | (k, v) :: kvs' =>
      s ← Insert fuel k v;
      ss ← insert_all fuel kvs';
      ret (s :: ss)
  end.

Fixpoint delete_all (fuel : nat) (keys : list Z) : M (list Status) :=
  match keys with
  | [] => ret []
  | k :: keys' =>
      s ← Delete fuel k;
      ss ← delete_all fuel keys';
      ret (s :: ss)
  end.

End Pooled.


(** * What is stated about the tree on its pool

    The states of [Pooled] are related to the states of [Tree]: the pooled
    state shows a page at every offset (the frame if the page is resident,
    the page of the file otherwise), and the bookkeeping of its pool is
    consistent. *)

Module PooledSpec.
Import Tree TreeSpec PagePool Pooled.

(** The page a pin of [off] returns: the frame's if [off] is resident, the
    file's otherwise. *)
Definition pview (s : BPlusTree) (off : Z) : page :=
  match page_table_ (pool_ s) !! off with
  | Some idx =>
      match frames_ (pool_ s) !! idx with
      | Some f => data f
      | None => page_at (core s) off
      end
  | None => page_at (core s) off
  end.

Definition not_free (pg : page) : Prop :=
  match pg with
  | PFree _ => False
  | _ => True
  end.

(** The bookkeeping of a pool of [n] frames in which exactly the pages
    [pins] are pinned, once each: a page of the page table sits in the frame
    the table names; an unpinned page is a candidate for eviction; the
    candidates hold unpinned pages of the table; a free frame holds no page
    of the table; no list names a frame twice, and every frame is free, a
    candidate or pinned.  A resident page lies below the frontier and is not
    on the free list of the file, and a frame that is not dirty holds what
    the file holds. *)
Record pool_ok (n : nat) (pins : list Z) (s : BPlusTree) : Prop := mkPoolOk {
  po_size : length (frames_ (pool_ s)) = n;
  po_count : (length (free_list_ (pool_ s)) + length (lru_list_ (pool_ s)) + length pins = n)%nat;
  po_pins : NoDup pins;
  po_table : forall p idx, page_table_ (pool_ s) !! p = Some idx ->
               exists f, frames_ (pool_ s) !! idx = Some f /\ page_id f = p /\
                         (p ∈ pins -> pin_count f = 1) /\
                         (p ∉ pins -> pin_count f = 0 /\ idx ∈ lru_list_ (pool_ s));
  po_pinned : forall p, p ∈ pins -> is_Some (page_table_ (pool_ s) !! p);
  po_lru : forall idx, idx ∈ lru_list_ (pool_ s) ->
             exists f, frames_ (pool_ s) !! idx = Some f /\
                       page_table_ (pool_ s) !! page_id f = Some idx /\
                       (page_id f ∉ pins);
  po_lru_nodup : NoDup (lru_list_ (pool_ s));
  po_free : forall idx, idx ∈ free_list_ (pool_ s) ->
              (idx < n)%nat /\ forall p, page_table_ (pool_ s) !! p <> Some idx;
  po_free_nodup : NoDup (free_list_ (pool_ s));
  po_live : forall p idx f, page_table_ (pool_ s) !! p = Some idx ->
              frames_ (pool_ s) !! idx = Some f ->
              page_boundary p = true /\ p + PAGE_SIZE <= meta_next (core s) /\ not_free (data f);
  po_clean : forall p idx f, page_table_ (pool_ s) !! p = Some idx ->
               frames_ (pool_ s) !! idx = Some f -> dirty f = false ->
               data f = page_at (core s) p;
  po_frontier : meta_next (core s) <= file_size (core s);
}.

(** The members and the metadata words of two states are the same. *)
Definition same_members (c c' : Tree.BPlusTree) : Prop :=
  Tree.root_offset_ c' = Tree.root_offset_ c /\
  Tree.next_page_offset_ c' = Tree.next_page_offset_ c /\
  file_size c' = file_size c /\ meta_root c' = meta_root c /\
  meta_next c' = meta_next c /\ meta_free c' = meta_free c.

(** The free list of the file is well formed and lies below the frontier. *)
Definition free_ok (t : Tree.BPlusTree) : Prop :=
  exists fl, free_list (pages t) (meta_free t) fl /\ NoDup fl /\
             forall off, off ∈ fl -> page_boundary off = true /\ off + PAGE_SIZE <= meta_next t.

(** [shows n pins s t]: the pooled state [s], with [n] frames and the pages
    [pins] pinned, shows the tree state [t]: the same members, the same
    file size and metadata words, and at every offset the page of [t]; the
    free list of [t] is well formed and the tree's copy of the frontier is
    current. *)
Record shows (n : nat) (pins : list Z) (s : BPlusTree) (t : Tree.BPlusTree) : Prop := mkShows {
  sh_pool : pool_ok n pins s;
  sh_root : Tree.root_offset_ (core s) = Tree.root_offset_ t;
  sh_next : Tree.next_page_offset_ (core s) = Tree.next_page_offset_ t;
  sh_size : file_size (core s) = file_size t;
  sh_meta_root : meta_root (core s) = meta_root t;
  sh_meta_next : meta_next (core s) = meta_next t;
  sh_meta_free : meta_free (core s) = meta_free t;
  sh_pages : forall off, pview s off = page_at t off;
  sh_free : free_ok t;
  sh_member : Tree.next_page_offset_ t = meta_next t;
}.

(** The pooled state holds a tree with the records [recs], no page being
    pinned. *)
Definition holds (n : nat) (s : BPlusTree) (recs : list (Z * list Z)) : Prop :=
  exists t, shows n [] s t /\ tree_holds t recs.

Definition tree_on_pool (n : nat) (s : BPlusTree) : Prop := exists recs, holds n s recs.

(** A pin of [off] returns a leaf showing [recs] and [next]. *)
Definition leaf_shown (s : BPlusTree) (off : Z) (recs : list (Z * list Z)) (next : Z) : Prop :=
  exists l, pview s off = PLeaf l /\ 0 <= LeafPage.num_keys l /\
            recs_view l = recs /\ LeafPage.next_leaf l = next.

(** An operation takes [s] to the result [a] and to a state that satisfies
    [Q] if it does so with every amount of fuel from some amount on. *)
Definition runs {A : Type} (f : nat -> M A) (s : BPlusTree) (a : A) (Q : BPlusTree -> Prop) : Prop :=
  exists fuel0 : nat, forall fuel : nat, (fuel0 <= fuel)%nat ->
    exists s', f fuel s = (Ok a, s') /\ Q s'.

(** The states a tree with a pool of [n] frames goes through when it starts
    on a brand-new file and is taken through inserts and deletes of keys of
    type [int] that return. *)
Inductive reachable (n : nat) : BPlusTree -> Prop :=
| reach_new : reachable n (new_tree n)
| reach_insert (s s' : BPlusTree) (fuel : nat) (key : Z) (data : list Z) (r : Status) :
    reachable n s -> is_int key ->
    Insert fuel key data s = (Ok r, s') -> reachable n s'
| reach_delete (s s' : BPlusTree) (fuel : nat) (key : Z) (r : Status) :
    reachable n s -> is_int key ->
    Delete fuel key s = (Ok r, s') -> reachable n s'.

(** The pages below the frontier, as a descent needs them: the node at
    [off] and, for an internal node, its children. *)
Definition below (t : Tree.BPlusTree) (off : Z) : Prop := off + PAGE_SIZE <= meta_next t.

(** What a repair of the children of the node at [poff] needs: the node
    and its children lie below the frontier, and neighbouring children are
    different pages. *)
Definition kids_below (t : Tree.BPlusTree) (poff : Z) : Prop :=
  below t poff /\
  forall nd, pages t !! poff = Some (PInternal nd) ->
    1 <= InternalPage.num_keys nd /\
    (forall j, Z.of_nat j <= InternalPage.num_keys nd -> below t (InternalPage.ChildAt nd j)) /\
    (forall j, Z.of_nat j < InternalPage.num_keys nd ->
               InternalPage.ChildAt nd j <> InternalPage.ChildAt nd (S j)).

(** The state in which the frame [idx] is back at the end of the free
    list, and the state in which it holds the pinned page [pid]. *)
Definition put_back (s : BPlusTree) (idx : nat) : BPlusTree :=
  with_pool s (set_free_list (pool_ s) (free_list_ (pool_ s) ++ [idx])).

Definition install (s : BPlusTree) (idx : nat) (pid : Z) (d : bool) (pg : page) : BPlusTree :=
  with_pool s (set_page_table (set_frame (pool_ s) idx (mkFrame pid 1 d pg))
                              (<[pid := idx]> (page_table_ (pool_ s)))).

(** ** Sample states *)

(** Three records in one leaf, in a pool of two frames. *)
Definition sample_pooled : BPlusTree := snd (insert_all 1 sample_kvs (new_tree 2)).

(** A full leaf in a pool of two frames, and in a pool of one frame. *)
Definition full_leaf_pooled : BPlusTree := snd (insert_all 1 full_leaf_kvs (new_tree 2)).
Definition full_leaf_one_frame : BPlusTree := snd (insert_all 1 full_leaf_kvs (new_tree 1)).

(** The root whose second child lies at the end of the file, in a pool of
    two frames. *)
Definition bad_pooled : BPlusTree := mkPooled bad_tree (create 2).

End PooledSpec.


(** * Facts about raw memory and the page allocator *)

Module DiskFacts.
Import Disk StoreSpec.

Lemma le_value_le_bytes (n : nat) (v : Z) :
  le_value (le_bytes n v) = v mod 256 ^ Z.of_nat n.
Proof.
  revert v. induction n as [|n IH]; intros v.
  - simpl. now rewrite Z.mod_1_r.
  - cbn [le_bytes le_value]. rewrite IH.
    rewrite Nat2Z.inj_succ, Z.pow_succ_r by lia.
    rewrite Z.rem_mul_r by lia. reflexivity.
Qed.

Lemma length_le_bytes (n : nat) (v : Z) : length (le_bytes n v) = n.
Proof. revert v. induction n; intros; simpl; auto. Qed.

Lemma to_signed_wrap (v : Z) : in_int64 v -> to_signed 64 (v mod 2 ^ 64) = v.
Proof.
  unfold in_int64, to_signed. intros Hv.
  change (64 - 1) with 63.
  destruct (Z.ltb_spec (v mod 2 ^ 64) (2 ^ 63)) as [H|H].
  - destruct (Z.neg_nonneg_cases v) as [Hn|Hn].
    + rewrite <- (Z.mod_add v 1) in H by lia. rewrite Z.mod_small in H; lia.
    + rewrite Z.mod_small; lia.
  - destruct (Z.neg_nonneg_cases v) as [Hn|Hn].
    + rewrite <- (Z.mod_add v 1) by lia. rewrite Z.mod_small; lia.
    + rewrite Z.mod_small in H; lia.
Qed.

Lemma length_mem_read (m : mem) (off : Z) (n : nat) : length (mem_read m off n) = n.
Proof. unfold mem_read. now rewrite length_map, length_seq. Qed.

Lemma mem_read_ext (m1 m2 : mem) (off : Z) (n : nat) :
  (forall a, off <= a < off + Z.of_nat n -> m1 a = m2 a) ->
  mem_read m1 off n = mem_read m2 off n.
Proof.
  intros H. unfold mem_read. apply map_ext_in. intros i Hi.
  apply in_seq in Hi. apply H. lia.
Qed.

Lemma mem_read_write_same (m : mem) (off : Z) (bs : list Z) :
  mem_read (mem_write m off bs) off (length bs) = bs.
Proof.
  apply (nth_ext _ _ 0 0).
  - apply length_mem_read.
  - intros i Hi. rewrite length_mem_read in Hi.
    unfold mem_read. rewrite (nth_indep _ 0 ((fun i => mem_write m off bs (off + Z.of_nat i)) 0%nat))
      by (rewrite length_map, length_seq; lia).
    rewrite (map_nth (fun i => mem_write m off bs (off + Z.of_nat i))).
    rewrite seq_nth by lia. simpl.
    unfold mem_write.
    replace ((off <=? off + Z.of_nat i) && (off + Z.of_nat i <? off + Z.of_nat (length bs))) with true
      by (symmetry; apply andb_true_intro; split; [apply Z.leb_le | apply Z.ltb_lt]; lia).
    f_equal. lia.
Qed.

Lemma load_store_same (m : mem) (off v : Z) :
  in_int64 v -> load_i64 (store_i64 m off v) off = v.
Proof.
  intros Hv. unfold load_i64, store_i64.
  pose proof (mem_read_write_same m off (le_bytes 8 v)) as H.
  rewrite length_le_bytes in H. rewrite H.
  rewrite le_value_le_bytes. now apply to_signed_wrap.
Qed.

Lemma load_store_other (m : mem) (off off' v : Z) :
  off' + 8 <= off \/ off + 8 <= off' ->
  load_i64 (store_i64 m off v) off' = load_i64 m off'.
Proof.
  intros Hd. unfold load_i64, store_i64. f_equal. f_equal.
  apply mem_read_ext. intros a Ha. unfold mem_write.
  rewrite length_le_bytes.
  destruct (Z.leb_spec off a); destruct (Z.ltb_spec a (off + Z.of_nat 8)); simpl; auto; lia.
Qed.

Lemma load_zero_other (m : mem) (off len off' : Z) :
  off' + 8 <= off \/ off + len <= off' ->
  load_i64 (mem_zero m off len) off' = load_i64 m off'.
Proof.
  intros Hd. unfold load_i64. f_equal. f_equal.
  apply mem_read_ext. intros a Ha. unfold mem_zero.
  destruct (Z.leb_spec off a); destruct (Z.ltb_spec a (off + len)); simpl; auto; lia.
Qed.

Lemma le_value_bound (bs : list Z) :
  Forall (fun b => 0 <= b < 256) bs -> 0 <= le_value bs < 256 ^ Z.of_nat (length bs).
Proof.
  induction 1 as [|b r Hb _ IH].
  - simpl. lia.
  - cbn [le_value length]. rewrite Nat2Z.inj_succ, Z.pow_succ_r by lia. lia.
Qed.

Lemma load_in_int64 (m : mem) (off : Z) : byte_mem m -> in_int64 (load_i64 m off).
Proof.
  intros Hm. unfold load_i64.
  assert (H : 0 <= le_value (mem_read m off 8) < 2 ^ 64).
  { pose proof (le_value_bound (mem_read m off 8)) as H.
    rewrite length_mem_read in H. change (256 ^ Z.of_nat 8) with (2 ^ 64) in H.
    apply H. unfold mem_read. apply Forall_forall. intros x Hx.
    apply list_elem_of_In, in_map_iff in Hx. destruct Hx as [i [<- _]]. apply Hm. }
  unfold to_signed, in_int64. change (64 - 1) with 63.
  destruct (Z.ltb_spec (le_value (mem_read m off 8)) (2 ^ 63)); lia.
Qed.

Lemma FreePage_metadata (d : DiskManager) (p : Z) :
  p < PAGE_SIZE -> FreePage d p = Ok d.
Proof.
  intros Hp. unfold FreePage.
  destruct (Z.ltb_spec p PAGE_SIZE); [reflexivity | lia].
Qed.

Lemma in_mapping_true (d : DiskManager) (off len : Z) :
  0 <= off -> off + len <= file_size_ d -> in_mapping d off len = true.
Proof.
  intros. unfold in_mapping. apply andb_true_intro; split; apply Z.leb_le; lia.
Qed.

Lemma FreeListHead_set (d : DiskManager) (v : Z) :
  in_int64 v -> FreeListHead (SetFreeListHead d v) = v.
Proof. intros. unfold FreeListHead, SetFreeListHead. simpl. now apply load_store_same. Qed.

Lemma FreePage_data (d : DiskManager) (p : Z) :
  PAGE_SIZE <= p -> p + 8 <= file_size_ d ->
  FreePage d p =
    Ok (SetFreeListHead (with_mapped d (store_i64 (mapped_ d) p (FreeListHead d))) p).
Proof.
  intros Hlo Hhi. unfold FreePage, FREE_PAGE_NEXT_OFFSET. unfold PAGE_SIZE in *.
  rewrite Z.add_0_r.
  destruct (Z.ltb_spec p 4096); [lia|].
  rewrite in_mapping_true by lia. reflexivity.
Qed.

(** Allocation with a non-empty free list pops the head and zeroes it. *)
Lemma AllocatePage_reclaim (d : DiskManager) :
  FreeListHead d <> INVALID_PAGE_ID ->
  0 <= FreeListHead d -> FreeListHead d + PAGE_SIZE <= file_size_ d ->
  AllocatePage d =
    Ok (FreeListHead d,
        let d1 := SetFreeListHead d (load_i64 (mapped_ d) (FreeListHead d)) in
        with_mapped d1 (mem_zero (mapped_ d1) (FreeListHead d) PAGE_SIZE)).
Proof.
  intros Hne H0 Hhi. unfold AllocatePage, ReclaimPage, FREE_PAGE_NEXT_OFFSET.
  unfold PAGE_SIZE in *. rewrite Z.add_0_r.
  destruct (Z.eqb_spec (FreeListHead d) INVALID_PAGE_ID); [contradiction|].
  rewrite in_mapping_true by lia. cbn [mbind result_bind bindR].
  destruct (Z.eqb_spec (FreeListHead d) INVALID_PAGE_ID); [contradiction|]. cbn [negb].
  rewrite in_mapping_true by (simpl; lia). reflexivity.
Qed.

(** Allocation with an empty free list takes the page at the frontier. *)
Lemma AllocatePage_frontier (d : DiskManager) :
  FreeListHead d = INVALID_PAGE_ID ->
  0 <= NextPageOffset d ->
  AllocatePage d =
    Ok (NextPageOffset d,
        let d1 := EnsureCapacity d (NextPageOffset d + PAGE_SIZE) in
        SetNextPageOffset (with_mapped d1 (mem_zero (mapped_ d1) (NextPageOffset d) PAGE_SIZE))
                          (NextPageOffset d + PAGE_SIZE)).
Proof.
  intros He H0. unfold AllocatePage, ReclaimPage. rewrite He.
  cbn [Z.eqb INVALID_PAGE_ID Pos.eqb mbind result_bind bindR negb].
  assert (Hc : NextPageOffset d + PAGE_SIZE
               <= file_size_ (EnsureCapacity d (NextPageOffset d + PAGE_SIZE))).
  { unfold EnsureCapacity, grown_size, PAGE_SIZE.
    destruct (Z.leb_spec (NextPageOffset d + 4096) (file_size_ d)); [assumption|].
    cbn [file_size_].
    assert (Hr : forall x, x <= (x + 4096 - 1) / 4096 * 4096).
    { intros x. pose proof (Z.div_mod (x + 4096 - 1) 4096 ltac:(lia)).
      pose proof (Z.mod_pos_bound (x + 4096 - 1) 4096 ltac:(lia)). lia. }
    etransitivity; [|apply Hr]. etransitivity; [apply Hr|]. apply Z.le_max_l. }
  rewrite in_mapping_true by lia. reflexivity.
Qed.

(** C8.  Freeing a page of the file and allocating next gives that page
    back: [allocate_page] returns exactly [p], all 4096 bytes of the page are
    zero, and [free_list_head] has the value it had before [free_page];
    [free_page] of an offset below 4096 changes nothing at all. *)
Theorem free_then_allocate (d : DiskManager) (p : Z) :
  byte_mem (mapped_ d) ->
  PAGE_SIZE <= p ->
  p + PAGE_SIZE <= file_size_ d ->
  p < 2 ^ 63 ->
  (exists d1 d2,
      FreePage d p = Ok d1 /\
      AllocatePage d1 = Ok (p, d2) /\
      (forall i, 0 <= i < PAGE_SIZE -> mapped_ d2 (p + i) = 0) /\
      FreeListHead d2 = FreeListHead d /\
      NextPageOffset d2 = NextPageOffset d /\
      RootOffset d2 = RootOffset d /\
      file_size_ d2 = file_size_ d) /\
  (forall q, q < PAGE_SIZE -> FreePage d q = Ok d).
Proof.
  intros Hm Hlo Hhi Hp. split; [| intros q Hq; now apply FreePage_metadata].
  assert (Hhead : in_int64 (FreeListHead d)) by (apply load_in_int64, Hm).
  assert (Hpi : in_int64 p) by (unfold in_int64, PAGE_SIZE in *; lia).
  unfold PAGE_SIZE in Hlo, Hhi.
  rewrite FreePage_data by (unfold PAGE_SIZE; lia).
  set (d1 := SetFreeListHead _ p).
  assert (Hh1 : FreeListHead d1 = p) by (now apply FreeListHead_set).
  exists d1. eexists. split; [reflexivity|].
  rewrite AllocatePage_reclaim
    by (rewrite Hh1; unfold INVALID_PAGE_ID, PAGE_SIZE; simpl; lia).
  rewrite Hh1. split; [reflexivity|].
  assert (Hnext : load_i64 (mapped_ d1) p = FreeListHead d).
  { unfold d1, SetFreeListHead, META_FREE_LIST_HEAD. simpl.
    rewrite load_store_other by lia. now apply load_store_same. }
  rewrite Hnext. cbn zeta.
  unfold PAGE_SIZE. repeat split.
  - intros i Hi. simpl. unfold mem_zero.
    destruct (Z.leb_spec p (p + i)); destruct (Z.ltb_spec (p + i) (p + 4096)); simpl; auto; lia.
  - unfold FreeListHead at 1. simpl. unfold META_FREE_LIST_HEAD.
    rewrite load_zero_other by lia. now apply load_store_same.
  - unfold NextPageOffset, META_NEXT_PAGE, META_FREE_LIST_HEAD. simpl.
    rewrite load_zero_other by lia. unfold META_FREE_LIST_HEAD.
    rewrite !load_store_other by lia. reflexivity.
  - unfold RootOffset, META_ROOT_OFFSET, META_FREE_LIST_HEAD. simpl.
    rewrite load_zero_other by lia. unfold META_FREE_LIST_HEAD.
    rewrite !load_store_other by lia. reflexivity.
Qed.

Lemma byte_mem_store (m : mem) (off v : Z) : byte_mem m -> byte_mem (store_i64 m off v).
Proof.
  intros Hm a. unfold store_i64, mem_write.
  destruct ((off <=? a) && (a <? off + Z.of_nat (length (le_bytes 8 v)))); [|apply Hm].
  generalize (Z.to_nat (a - off)). intros i.
  assert (H : Forall (fun b => 0 <= b < 256) (le_bytes 8 v)).
  { generalize 8%nat. intros n. revert v. induction n; intros v; simpl; constructor; auto.
    apply Z.mod_pos_bound. lia. }
  destruct (Nat.lt_ge_cases i (length (le_bytes 8 v))) as [Hi|Hi].
  - eapply Forall_nth in H; [exact H | exact Hi].
  - rewrite nth_overflow by lia. lia.
Qed.

Lemma byte_mem_new_file : byte_mem (mapped_ new_file).
Proof.
  unfold new_file, FlushMetadata, SetFreeListHead, SetNextPageOffset, SetRootOffset. simpl.
  repeat apply byte_mem_store. intros a. lia.
Qed.

Lemma byte_mem_EnsureCapacity (d : DiskManager) (r : Z) :
  byte_mem (mapped_ d) -> byte_mem (mapped_ (EnsureCapacity d r)).
Proof.
  intros Hm. unfold EnsureCapacity. destruct (r <=? file_size_ d); [assumption|].
  simpl. intros a. destruct (a <? file_size_ d); [apply Hm | lia].
Qed.

Lemma byte_mem_zero (m : mem) (off len : Z) : byte_mem m -> byte_mem (mem_zero m off len).
Proof.
  intros Hm a. unfold mem_zero. destruct ((off <=? a) && (a <? off + len)); [lia | apply Hm].
Qed.

Lemma byte_mem_AllocatePage (d d' : DiskManager) (page : Z) :
  byte_mem (mapped_ d) -> AllocatePage d = Ok (page, d') -> byte_mem (mapped_ d').
Proof.
  intros Hm. unfold AllocatePage, ReclaimPage.
  destruct (FreeListHead d =? INVALID_PAGE_ID) eqn:He; cbn [mbind result_bind bindR].
  - cbn [negb Z.eqb INVALID_PAGE_ID Pos.eqb].
    destruct (in_mapping _ _ _); [|discriminate].
    intros [= _ <-]. cbn [SetNextPageOffset with_mapped mapped_].
    apply byte_mem_store, byte_mem_zero, byte_mem_EnsureCapacity, Hm.
  - destruct (in_mapping d _ _); [|discriminate].
    cbn [mbind result_bind bindR]. rewrite He. cbn [negb].
    destruct (in_mapping _ _ _); [|discriminate].
    intros [= _ <-]. cbn [SetFreeListHead with_mapped mapped_].
    apply byte_mem_zero, byte_mem_store, Hm.
Qed.

Lemma free_then_allocate_witness :
  (exists d1 d2,
      FreePage sample_disk 4096 = Ok d1 /\
      AllocatePage d1 = Ok (4096, d2) /\
      (forall i, 0 <= i < PAGE_SIZE -> mapped_ d2 (4096 + i) = 0) /\
      FreeListHead d2 = FreeListHead sample_disk /\
      NextPageOffset d2 = NextPageOffset sample_disk /\
      RootOffset d2 = RootOffset sample_disk /\
      file_size_ d2 = file_size_ sample_disk) /\
  (forall q, q < PAGE_SIZE -> FreePage sample_disk q = Ok sample_disk).
Proof.
  apply (free_then_allocate sample_disk 4096).
  - apply byte_mem_EnsureCapacity, byte_mem_new_file.
  - unfold PAGE_SIZE. lia.
  - vm_compute. discriminate.
  - lia.
Defined.

End DiskFacts.


(** * Facts about the buffer pool *)

Module PoolFacts.
Import Disk Pool StoreSpec DiskFacts.

Lemma NextPageOffset_set (d : DiskManager) (v : Z) :
  in_int64 v -> NextPageOffset (SetNextPageOffset d v) = v.
Proof. intros. unfold NextPageOffset, SetNextPageOffset. simpl. now apply load_store_same. Qed.

Lemma obtain_frame_all_pinned (s : world) :
  all_pinned (pool s) -> obtain_frame s = Ok (None, s).
Proof.
  intros [Hf Hl]. unfold obtain_frame, take_free, FindVictim.
  destruct s as [p d w]. simpl in *. rewrite Hf, Hl. reflexivity.
Qed.

(** With every frame pinned, [NewPage] returns the null view after the
    allocation on disk: the world it leaves is the one [AllocatePage] made. *)
Lemma NewPage_all_pinned (s : world) (page : Z) (d' : DiskManager) :
  all_pinned (pool s) ->
  AllocatePage (disk s) = Ok (page, d') ->
  NewPage s = Ok (None, page, with_disk s d').
Proof.
  intros Hp Ha. unfold NewPage. rewrite Ha. cbn [mbind result_bind bindR].
  rewrite obtain_frame_all_pinned by exact Hp. reflexivity.
Qed.

(** C10.  When every frame is pinned, [new_page] returns the null view only
    after the page was allocated on disk.  With an empty free list the
    frontier [next_page_offset] has advanced by one page; otherwise the head
    of the free list was popped.  The pool is as it was (the page is not in
    the page table unless it was before), and the disk is exactly as
    [allocate_page] left it: the page was not handed back. *)
Theorem NewPage_all_pinned_leaks_page (s : world) :
  all_pinned (pool s) ->
  byte_mem (mapped_ (disk s)) ->
  PAGE_SIZE <= file_size_ (disk s) ->
  PAGE_SIZE <= NextPageOffset (disk s) < 2 ^ 62 ->
  (FreeListHead (disk s) = INVALID_PAGE_ID \/
   PAGE_SIZE <= FreeListHead (disk s) /\
   FreeListHead (disk s) + PAGE_SIZE <= file_size_ (disk s)) ->
  exists page d',
    AllocatePage (disk s) = Ok (page, d') /\
    NewPage s = Ok (None, page, mkWorld (pool s) d' (wal s)) /\
    (FreeListHead (disk s) = INVALID_PAGE_ID ->
       page = NextPageOffset (disk s) /\
       NextPageOffset d' = NextPageOffset (disk s) + PAGE_SIZE /\
       FreeListHead d' = INVALID_PAGE_ID) /\
    (FreeListHead (disk s) <> INVALID_PAGE_ID ->
       page = FreeListHead (disk s) /\
       FreeListHead d' = load_i64 (mapped_ (disk s)) page /\
       NextPageOffset d' = NextPageOffset (disk s)).
Proof.
  intros Hp Hm Hfs Hn Hf.
  destruct (Z.eq_dec (FreeListHead (disk s)) INVALID_PAGE_ID) as [He|Hne].
  - pose proof (AllocatePage_frontier (disk s) He) as Ha.
    unfold PAGE_SIZE in *. specialize (Ha ltac:(lia)).
    eexists _, _. split; [exact Ha|]. split; [now apply NewPage_all_pinned|].
    split; [|intros; contradiction]. intros _. split; [reflexivity|]. cbn zeta. split.
    + apply NextPageOffset_set. unfold in_int64. lia.
    + unfold FreeListHead, SetNextPageOffset, META_FREE_LIST_HEAD, META_NEXT_PAGE. cbn [mapped_ with_mapped].
      rewrite load_store_other by lia. rewrite load_zero_other by lia.
      unfold FreeListHead, META_FREE_LIST_HEAD in He. rewrite <- He.
      unfold EnsureCapacity.
      destruct (NextPageOffset (disk s) + 4096 <=? file_size_ (disk s)); [reflexivity|].
      cbn [mapped_]. unfold load_i64. f_equal. f_equal. apply mem_read_ext.
      intros a Ha'. destruct (Z.ltb_spec a (file_size_ (disk s))); [reflexivity|].
      lia.
  - destruct Hf as [?|[Hlo Hhi]]; [contradiction|].
    pose proof (AllocatePage_reclaim (disk s) Hne) as Ha.
    unfold PAGE_SIZE in *. specialize (Ha ltac:(lia) ltac:(lia)).
    eexists _, _. split; [exact Ha|]. split; [now apply NewPage_all_pinned|].
    split; [intros; contradiction|]. intros _. split; [reflexivity|]. cbn zeta. split.
    + unfold FreeListHead at 1, SetFreeListHead, META_FREE_LIST_HEAD. cbn [mapped_ with_mapped].
      rewrite load_zero_other by lia. apply load_store_same, load_in_int64, Hm.
    + unfold NextPageOffset, SetFreeListHead, META_FREE_LIST_HEAD, META_NEXT_PAGE. cbn [mapped_ with_mapped].
      rewrite load_zero_other by lia. now rewrite load_store_other by lia.
Qed.

Lemma pinned_world_eq :
  exists fr d, AllocatePage sample_disk = Ok (4096, d) /\
               NewPage one_frame_world = Ok (Some 0%nat, 4096, mkWorld fr d None) /\
               pinned_world = mkWorld fr d None /\
               free_list_ fr = [] /\ lru_list_ fr = [].
Proof.
  assert (Hh : FreeListHead sample_disk = INVALID_PAGE_ID) by (vm_compute; reflexivity).
  assert (Hn : NextPageOffset sample_disk = 4096) by (vm_compute; reflexivity).
  pose proof (AllocatePage_frontier sample_disk Hh ltac:(lia)) as Ha.
  rewrite Hn in Ha. cbn zeta in Ha.
  unfold pinned_world, result_get, NewPage, one_frame_world. cbn [disk]. rewrite Ha.
  eexists _, _. split; [reflexivity|]. cbn. split; [reflexivity|]. split; [reflexivity|].
  split; reflexivity.
Qed.

Lemma NewPage_all_pinned_leaks_page_witness :
  exists page d',
    AllocatePage (disk pinned_world) = Ok (page, d') /\
    NewPage pinned_world = Ok (None, page, mkWorld (pool pinned_world) d' (wal pinned_world)) /\
    (FreeListHead (disk pinned_world) = INVALID_PAGE_ID ->
       page = NextPageOffset (disk pinned_world) /\
       NextPageOffset d' = NextPageOffset (disk pinned_world) + PAGE_SIZE /\
       FreeListHead d' = INVALID_PAGE_ID) /\
    (FreeListHead (disk pinned_world) <> INVALID_PAGE_ID ->
       page = FreeListHead (disk pinned_world) /\
       FreeListHead d' = load_i64 (mapped_ (disk pinned_world)) page /\
       NextPageOffset d' = NextPageOffset (disk pinned_world)).
Proof.
  destruct pinned_world_eq as (fr & d & Ha & _ & Hw & Hf & Hl).
  apply (NewPage_all_pinned_leaks_page pinned_world).
  - rewrite Hw. split; assumption.
  - rewrite Hw. cbn [disk]. eapply byte_mem_AllocatePage; [|exact Ha].
    apply byte_mem_EnsureCapacity, byte_mem_new_file.
  - vm_compute. discriminate.
  - vm_compute. split; [discriminate | reflexivity].
  - left. vm_compute. reflexivity.
Defined.

(** ** The log is never written by the pool

    [FlushPage], [FlushAllPages] and [EvictFrame] copy a dirty frame to the
    mapped page; none of them calls [LogPageWrite] or [Flush] on the attached
    log. *)

Lemma flush_frame_wal (s s' : world) (page : Z) (idx : nat) :
  flush_frame s page idx = Ok s' -> wal s' = wal s.
Proof.
  unfold flush_frame. destruct (frame_at (pool s) idx) as [f| | | |]; try discriminate.
  cbn [mbind result_bind bindR]. destruct (dirty f); [|now intros [= <-]].
  destruct (PageData (disk s) page); try discriminate.
  cbn [mbind result_bind bindR]. now intros [= <-].
Qed.

Lemma FlushPage_wal (s s' : world) (page : Z) (b : bool) :
  FlushPage s page = Ok (b, s') -> wal s' = wal s.
Proof.
  unfold FlushPage. destruct (page_table_ (pool s) !! page) as [idx|]; [|now intros [= _ <-]].
  destruct (flush_frame s page idx) as [s1| | | |] eqn:E; try discriminate.
  cbn [mbind result_bind bindR]. intros [= _ <-]. eapply flush_frame_wal, E.
Qed.

Lemma FlushAllPages_wal (s s' : world) :
  FlushAllPages s = Ok s' -> wal s' = wal s.
Proof.
  unfold FlushAllPages.
  generalize (map_to_list (page_table_ (pool s))). intros l.
  assert (H : forall (acc : result world) (s1 : world),
             (forall s0, acc = Ok s0 -> wal s0 = wal s) ->
             foldl (fun acc '(pid, idx) => s ← acc; flush_frame s pid idx) acc l = Ok s1 ->
             wal s1 = wal s).
  { induction l as [|[pid idx] l IH]; intros acc s1 Hacc; cbn [foldl].
    - apply Hacc.
    - apply IH. intros s0. destruct acc as [s2| | | |]; try discriminate.
      cbn [mbind result_bind bindR]. intros E. apply flush_frame_wal in E.
      rewrite E. now apply Hacc. }
  destruct (foldl _ _ l) as [s1| | | |] eqn:E; try discriminate.
  cbn [mbind result_bind bindR]. intros [= <-]. cbn [wal with_disk].
  eapply H; [|exact E]. now intros s0 [= <-].
Qed.

Lemma EvictFrame_wal (s s' : world) (idx : nat) :
  EvictFrame s idx = Ok s' -> wal s' = wal s.
Proof.
  unfold EvictFrame. destruct (frame_at (pool s) idx) as [f| | | |]; try discriminate.
  cbn [mbind result_bind bindR].
  destruct (dirty f && negb (page_id f =? INVALID_PAGE_ID)).
  - destruct (PageData (disk s) (page_id f)); try discriminate.
    cbn [mbind result_bind bindR]. now intros [= <-].
  - cbn [mbind result_bind bindR]. now intros [= <-].
Qed.

(** C2, on the code.  [flush_page(4096)] returns [true] and the dirty frame
    is now in the mapped page, yet the attached log is exactly the empty log
    it was: no [PAGE_WRITE] record was appended before the copy.  If the
    copy is lost in a crash (the mapping still holds the zero page),
    [recover] finds no record and restores nothing. *)
Theorem flush_page_appends_no_record :
  FlushPage dirty_world 4096 = Ok flushed /\
  fst flushed = true /\
  mapped_ (disk dirty_world) 4096 = 0 /\
  mapped_ (disk (snd flushed)) 4096 = 42 /\
  wal dirty_world = Some Wal.create /\
  wal (snd flushed) = Some Wal.create /\
  Wal.ReadAllRecords Wal.create = [] /\
  forall fuel, Wal.Recover fuel Wal.create (disk dirty_world)
               = Ok (0, Wal.create, disk dirty_world).
Proof.
  assert (Hok : is_ok (FlushPage dirty_world 4096) = true) by (vm_compute; reflexivity).
  split.
  { unfold flushed, result_get.
    destruct (FlushPage dirty_world 4096); try (simpl in Hok; discriminate Hok). reflexivity. }
  split; [vm_compute; reflexivity|].
  split; [vm_compute; reflexivity|].
  split; [vm_compute; reflexivity|].
  split; [vm_compute; reflexivity|].
  split; [vm_compute; reflexivity|].
  assert (Hr : Wal.ReadAllRecords Wal.create = []) by (vm_compute; reflexivity).
  split; [exact Hr|].
  intros fuel. unfold Wal.Recover. rewrite Hr. reflexivity.
Qed.

End PoolFacts.


(** * Facts about recovery *)

Module WalFacts.
Import Wal StoreSpec DiskFacts.

Lemma length_file_header_bytes (c : Z) : length (file_header_bytes c) = 16%nat.
Proof. unfold file_header_bytes. rewrite !length_app, !length_le_bytes. reflexivity. Qed.

(** A log that was cut to its header holds no record. *)
Lemma ReadAllRecords_Truncate (w : WriteAheadLog) : ReadAllRecords (Truncate w) = [].
Proof.
  unfold ReadAllRecords, Truncate. cbn [file].
  rewrite drop_ge by (rewrite length_file_header_bytes; lia).
  rewrite length_file_header_bytes. reflexivity.
Qed.






End WalFacts.


(** * Slot arrays and the loops over them *)

Module SlotsFacts.
Section SlotsFacts.
Context {A : Type} (zero : A).
Implicit Types (l : list A) (i j n : nat) (x : A).

Lemma get_set_eq l i x : Slots.get zero (Slots.set zero l i x) i = x.
Proof.
  unfold Slots.get, Slots.set.
  destruct (Nat.ltb_spec i (length l)) as [H|H].
  - apply nth_lookup_Some. now apply list_lookup_insert_eq.
  - rewrite app_nth2 by lia. rewrite app_nth2 by (rewrite length_replicate; lia).
    rewrite length_replicate. now replace (i - length l - (i - length l))%nat with 0%nat by lia.
Qed.

Lemma get_set_ne l i j x : i <> j -> Slots.get zero (Slots.set zero l i x) j = Slots.get zero l j.
Proof.
  intros Hne. unfold Slots.get, Slots.set.
  destruct (Nat.ltb_spec i (length l)) as [H|H].
  - destruct (l !! j) as [y|] eqn:E.
    + rewrite (nth_lookup_Some _ _ _ y), (nth_lookup_Some _ _ _ y); auto.
      now rewrite list_lookup_insert_ne.
    + apply lookup_ge_None in E. rewrite !nth_overflow; auto. now rewrite length_insert.
  - destruct (Nat.lt_ge_cases j (length l)) as [Hj|Hj].
    + now rewrite app_nth1 by lia.
    + rewrite app_nth2 by lia. rewrite (nth_overflow l) by lia.
      destruct (Nat.lt_ge_cases (j - length l) (i - length l)) as [Hk|Hk].
      * rewrite app_nth1 by (rewrite length_replicate; lia).
        apply nth_lookup_Some. apply lookup_replicate_2. lia.
      * rewrite app_nth2 by (rewrite length_replicate; lia).
        rewrite length_replicate. apply nth_overflow. simpl. lia.
Qed.

Lemma get_set l i j x :
  Slots.get zero (Slots.set zero l i x) j = if decide (i = j) then x else Slots.get zero l j.
Proof.
  destruct (decide (i = j)) as [->|Hne]; [apply get_set_eq | now apply get_set_ne].
Qed.

Lemma get_nil i : Slots.get zero [] i = zero.
Proof. unfold Slots.get. now destruct i. Qed.

Lemma length_prefix l n : length (Slots.prefix zero l n) = n.
Proof. unfold Slots.prefix. now rewrite length_map, length_seq. Qed.

Lemma nth_prefix l n i d : (i < n)%nat -> nth i (Slots.prefix zero l n) d = Slots.get zero l i.
Proof.
  intros H. unfold Slots.prefix.
  rewrite (nth_indep _ d (Slots.get zero l 0)) by (rewrite length_map, length_seq; lia).
  rewrite (map_nth (Slots.get zero l)). now rewrite seq_nth by lia.
Qed.

Lemma lookup_prefix l n i :
  (i < n)%nat -> Slots.prefix zero l n !! i = Some (Slots.get zero l i).
Proof.
  intros H. unfold Slots.prefix. rewrite list_lookup_fmap.
  rewrite lookup_seq_lt by lia. reflexivity.
Qed.

(** A prefix is a given list when it has its length and its elements. *)
Lemma prefix_eq l n (xs : list A) :
  length xs = n ->
  (forall i, (i < n)%nat -> Slots.get zero l i = nth i xs zero) ->
  Slots.prefix zero l n = xs.
Proof.
  intros Hl H. apply (nth_ext _ _ zero zero).
  - now rewrite length_prefix.
  - intros i Hi. rewrite length_prefix in Hi. rewrite nth_prefix by lia. now apply H.
Qed.

Lemma prefix_ext l l' n :
  (forall i, (i < n)%nat -> Slots.get zero l i = Slots.get zero l' i) ->
  Slots.prefix zero l n = Slots.prefix zero l' n.
Proof.
  intros H. apply prefix_eq; [apply length_prefix|].
  intros i Hi. rewrite nth_prefix by lia. now apply H.
Qed.

Lemma get_prefix l n i :
  (i < n)%nat -> Slots.get zero (Slots.prefix zero l n) i = Slots.get zero l i.
Proof. intros H. unfold Slots.get at 1. now apply nth_prefix. Qed.

Lemma prefix_S l n : Slots.prefix zero l (S n) = Slots.prefix zero l n ++ [Slots.get zero l n].
Proof. unfold Slots.prefix. rewrite seq_S, map_app. reflexivity. Qed.

(** [nth] of the list operations that the views are compared with. *)
Lemma nth_vector_insert (v : list A) pos x j d :
  (pos <= length v)%nat ->
  nth j (Tree.vector_insert v pos x) d =
    if (j <? pos)%nat then nth j v d
    else if (j =? pos)%nat then x else nth (j - 1) v d.
Proof.
  intros Hp. unfold Tree.vector_insert.
  destruct (Nat.ltb_spec j pos) as [H|H].
  - rewrite app_nth1 by (rewrite length_take; lia).
    rewrite <- (firstn_skipn pos v) at 2. now rewrite app_nth1 by (rewrite length_take; lia).
  - rewrite app_nth2 by (rewrite length_take; lia). rewrite length_take.
    replace (pos `min` length v)%nat with pos by lia.
    destruct (Nat.eqb_spec j pos) as [->|Hne].
    + now rewrite Nat.sub_diag.
    + destruct (j - pos)%nat as [|k] eqn:E; [lia|]. simpl.
      rewrite <- (firstn_skipn pos v) at 2.
      rewrite app_nth2 by (rewrite length_take; lia). rewrite length_take.
      f_equal. lia.
Qed.

Lemma length_vector_insert (v : list A) pos x :
  length (Tree.vector_insert v pos x) = S (length v).
Proof.
  unfold Tree.vector_insert. rewrite length_app. simpl. rewrite length_take, length_drop. lia.
Qed.

Lemma nth_take_lt (v : list A) m j d : (j < m)%nat -> nth j (take m v) d = nth j v d.
Proof.
  intros H. destruct (Nat.lt_ge_cases j (length v)) as [Hj|Hj].
  - rewrite <- (firstn_skipn m v) at 2. now rewrite app_nth1 by (rewrite length_take; lia).
  - rewrite !nth_overflow; auto. rewrite length_take. lia.
Qed.

Lemma nth_drop (v : list A) m j d : nth j (drop m v) d = nth (m + j) v d.
Proof.
  destruct (Nat.lt_ge_cases m (length v)) as [Hm|Hm].
  - rewrite <- (firstn_skipn m v) at 2.
    rewrite app_nth2 by (rewrite length_take; lia). rewrite length_take. f_equal. lia.
  - rewrite drop_ge by lia. rewrite (nth_overflow v) by lia. destruct j; reflexivity.
Qed.

Lemma prefix_take l n m : (m <= n)%nat -> take m (Slots.prefix zero l n) = Slots.prefix zero l m.
Proof.
  intros H. symmetry. apply prefix_eq.
  - rewrite length_take, length_prefix. lia.
  - intros i Hi. rewrite nth_take_lt by lia. now rewrite nth_prefix by lia.
Qed.

End SlotsFacts.
End SlotsFacts.


(** * The loops over a leaf page *)

Module LeafFacts.
Import Tree TreeSpec LeafPage SlotsFacts.

Ltac nat_cases :=
  repeat match goal with
    | |- context [Nat.ltb ?a ?b] => destruct (Nat.ltb_spec a b)
    | |- context [Nat.leb ?a ?b] => destruct (Nat.leb_spec a b)
    | |- context [Nat.eqb ?a ?b] => destruct (Nat.eqb_spec a b)
    | |- context [decide (?a = ?b)] => destruct (decide (a = b))
    end; cbn [andb orb negb]; subst; try lia; try reflexivity; try congruence;
  try (f_equal; lia).

Lemma GetRecord_SetRecord (p : t) (i j : nat) (k : Z) (d : list Z) :
  GetRecord (SetRecord p i k d) j = if decide (i = j) then (k, d) else GetRecord p j.
Proof. unfold GetRecord, SetRecord. cbn [records]. apply get_set. Qed.

Lemma GetRecord_SetNumKeys (p : t) (n : Z) (j : nat) :
  GetRecord (SetNumKeys p n) j = GetRecord p j.
Proof. reflexivity. Qed.

Lemma GetRecord_SetNextLeaf (p : t) (n : Z) (j : nat) :
  GetRecord (SetNextLeaf p n) j = GetRecord p j.
Proof. reflexivity. Qed.

Lemma nth_recs_view (p : t) (j : nat) :
  (j < Z.to_nat (num_keys p))%nat -> nth j (recs_view p) zero_record = GetRecord p j.
Proof. intros H. unfold recs_view, GetRecord. now apply nth_prefix. Qed.

Lemma length_recs_view (p : t) : length (recs_view p) = Z.to_nat (num_keys p).
Proof. apply length_prefix. Qed.

(** A view is the list [xs] when the page has [length xs] keys and shows the
    elements of [xs] slot by slot. *)
Lemma recs_view_eq (p : t) (xs : list (Z * list Z)) :
  num_keys p = Z.of_nat (length xs) ->
  (forall j, (j < length xs)%nat -> GetRecord p j = nth j xs zero_record) ->
  recs_view p = xs.
Proof.
  intros Hn H. unfold recs_view. apply prefix_eq.
  - rewrite Hn. lia.
  - rewrite Hn, Nat2Z.id. exact H.
Qed.

Lemma KeyAt_view (p : t) (j : nat) :
  (j < Z.to_nat (num_keys p))%nat -> KeyAt p j = nth j (map fst (recs_view p)) 0.
Proof.
  intros H. unfold KeyAt. rewrite <- nth_recs_view by exact H.
  change 0 with (fst zero_record). now rewrite map_nth.
Qed.

(** ** [find_key] *)

Lemma find_key_Some (leaf : t) (key : Z) (todo i r : nat) :
  find_key leaf key todo i = Some r ->
  (i <= r < i + todo)%nat /\ KeyAt leaf r = key /\
  forall j, (i <= j < r)%nat -> KeyAt leaf j <> key.
Proof.
  revert i. induction todo as [|todo IH]; intros i; cbn [find_key]; [discriminate|].
  destruct (Z.eqb_spec (KeyAt leaf i) key) as [He|Hne].
  - intros [= <-]. repeat split; try lia; auto.
  - intros H. apply IH in H. destruct H as (Hr & Hk & Hj). repeat split; try lia; auto.
    intros j Hj'. destruct (Nat.eq_dec j i) as [->|]; [exact Hne|]. apply Hj. lia.
Qed.

Lemma find_key_None (leaf : t) (key : Z) (todo i : nat) :
  find_key leaf key todo i = None ->
  forall j, (i <= j < i + todo)%nat -> KeyAt leaf j <> key.
Proof.
  revert i. induction todo as [|todo IH]; intros i; cbn [find_key]; [intros; lia|].
  destruct (Z.eqb_spec (KeyAt leaf i) key) as [He|Hne]; [discriminate|].
  intros H j Hj. destruct (Nat.eq_dec j i) as [->|]; [exact Hne|]. apply (IH _ H). lia.
Qed.

Lemma find_key_is_Some (leaf : t) (key : Z) (todo i r : nat) :
  (i <= r < i + todo)%nat -> KeyAt leaf r = key ->
  exists r', find_key leaf key todo i = Some r'.
Proof.
  intros Hr Hk. destruct (find_key leaf key todo i) eqn:E; [eauto|].
  exfalso. eapply find_key_None; eauto.
Qed.

(** ** Making room for a record *)

Lemma leaf_make_room_spec (key : Z) (c : nat) :
  forall (leaf leaf' : t) (pos : nat),
    leaf_make_room leaf key c = (pos, leaf') ->
    (pos <= c)%nat /\
    num_keys leaf' = num_keys leaf /\ next_leaf leaf' = next_leaf leaf /\
    (forall j, (pos <= j < c)%nat -> key < KeyAt leaf j) /\
    ((0 < pos)%nat -> KeyAt leaf (pos - 1) <= key) /\
    (forall j, GetRecord leaf' j =
               if (pos <? j)%nat && (j <=? c)%nat then GetRecord leaf (j - 1)
               else GetRecord leaf j).
Proof.
  induction c as [|i IH]; intros leaf leaf' pos; cbn [leaf_make_room].
  - intros [= <- <-]. repeat split; try lia. intros j. nat_cases.
  - destruct (Z.ltb_spec key (KeyAt leaf i)) as [Hlt|Hge].
    + destruct (GetRecord leaf i) as [tk td] eqn:Eg.
      intros H. apply IH in H. destruct H as (Hp & Hn & Hx & Hk & Hk' & Hg).
      assert (Hkey : forall j, j <> S i -> KeyAt (SetRecord leaf (S i) tk td) j = KeyAt leaf j).
      { intros j Hj. unfold KeyAt. rewrite GetRecord_SetRecord. nat_cases. }
      repeat split; try lia; auto.
      * intros j Hj. destruct (Nat.eq_dec j i) as [->|]; [exact Hlt|].
        rewrite <- Hkey by lia. apply Hk. lia.
      * intros Hpos. rewrite <- Hkey by lia. auto.
      * intros j. rewrite Hg, !GetRecord_SetRecord. nat_cases.
        all: try (replace (S i - 1)%nat with i by lia; auto).
    + intros [= <- <-]. repeat split; try lia; auto.
      * intros _. now replace (S i - 1)%nat with i by lia.
      * intros j. nat_cases.
Qed.

(** The view after the record went into the room made for it. *)
Lemma leaf_insert_view (leaf leaf' : t) (key : Z) (data : list Z) (pos : nat) :
  0 <= num_keys leaf ->
  leaf_make_room leaf key (Z.to_nat (num_keys leaf)) = (pos, leaf') ->
  recs_view (SetNumKeys (SetRecord leaf' pos key data) (NumKeys leaf' + 1))
  = vector_insert (recs_view leaf) pos (key, data).
Proof.
  intros Hn H. apply leaf_make_room_spec in H. destruct H as (Hp & Hnk & _ & _ & _ & Hg).
  apply recs_view_eq.
  - unfold NumKeys. cbn [num_keys SetNumKeys SetRecord].
    rewrite length_vector_insert, length_recs_view, Hnk. lia.
  - intros j Hj. rewrite length_vector_insert, length_recs_view in Hj.
    rewrite GetRecord_SetNumKeys, GetRecord_SetRecord.
    rewrite nth_vector_insert by (rewrite length_recs_view; lia).
    rewrite Hg. nat_cases; try (now rewrite nth_recs_view by lia).
Qed.

(** ** Storing a run of records *)

Lemma leaf_store_spec (rs : list (Z * list Z)) :
  forall (p : t) (idx : nat),
    num_keys (leaf_store p idx rs) = num_keys p /\
    next_leaf (leaf_store p idx rs) = next_leaf p /\
    forall j, GetRecord (leaf_store p idx rs) j =
              if (idx <=? j)%nat && (j <? idx + length rs)%nat
              then nth (j - idx) rs zero_record else GetRecord p j.
Proof.
  induction rs as [|[k d] rs IH]; intros p idx; cbn [leaf_store length].
  - repeat split. intros j. nat_cases.
  - destruct (IH (SetRecord p idx k d) (S idx)) as (Hn & Hx & Hg).
    repeat split; auto. intros j. rewrite Hg, GetRecord_SetRecord. nat_cases.
    all: try (replace (j - idx)%nat with (S (j - S idx)) by lia; reflexivity).
    all: try (now rewrite Nat.sub_diag).
Qed.

Lemma leaf_store_view (p : t) (rs : list (Z * list Z)) (n next : Z) :
  n = Z.of_nat (length rs) ->
  recs_view (SetNextLeaf (leaf_store (SetNumKeys p n) 0 rs) next) = rs.
Proof.
  intros ->. destruct (leaf_store_spec rs (SetNumKeys p (Z.of_nat (length rs))) 0) as (Hn & _ & Hg).
  apply recs_view_eq.
  - cbn [num_keys SetNextLeaf]. now rewrite Hn.
  - intros j Hj. rewrite GetRecord_SetNextLeaf, Hg. nat_cases. all: try (now rewrite Nat.sub_0_r).
Qed.

(** ** Closing the gap of a removed record *)

Lemma leaf_shift_left_spec (todo : nat) :
  forall (p : t) (j0 : nat),
    num_keys (leaf_shift_left p j0 todo) = num_keys p /\
    next_leaf (leaf_shift_left p j0 todo) = next_leaf p /\
    forall j, GetRecord (leaf_shift_left p j0 todo) j =
              if (j0 <=? j)%nat && (j <? j0 + todo)%nat
              then GetRecord p (S j) else GetRecord p j.
Proof.
  induction todo as [|todo IH]; intros p j0; cbn [leaf_shift_left].
  - repeat split. intros j. nat_cases.
  - destruct (GetRecord p (S j0)) as [tk td] eqn:Eg.
    destruct (IH (SetRecord p j0 tk td) (S j0)) as (Hn & Hx & Hg).
    repeat split; auto. intros j. rewrite Hg, !GetRecord_SetRecord. nat_cases.
Qed.

Lemma length_remove_at {A : Type} (i : nat) (l : list A) :
  (i < length l)%nat -> length (remove_at i l) = (length l - 1)%nat.
Proof. intros H. unfold remove_at. rewrite length_app, length_take, length_drop. lia. Qed.

Lemma nth_remove_at {A : Type} (i j : nat) (l : list A) (d : A) :
  (i < length l)%nat ->
  nth j (remove_at i l) d = if (j <? i)%nat then nth j l d else nth (S j) l d.
Proof.
  intros H. unfold remove_at. destruct (Nat.ltb_spec j i).
  - rewrite app_nth1 by (rewrite length_take; lia). now apply nth_take_lt.
  - rewrite app_nth2 by (rewrite length_take; lia). rewrite length_take, nth_drop.
    f_equal. lia.
Qed.

Lemma leaf_delete_view (leaf : t) (found : nat) :
  (found < Z.to_nat (num_keys leaf))%nat ->
  recs_view (SetNumKeys (leaf_shift_left leaf found (Z.to_nat (num_keys leaf - 1) - found))
                        (num_keys leaf - 1))
  = remove_at found (recs_view leaf).
Proof.
  intros Hf.
  destruct (leaf_shift_left_spec (Z.to_nat (num_keys leaf - 1) - found) leaf found) as (_ & _ & Hg).
  apply recs_view_eq.
  - cbn [num_keys SetNumKeys]. rewrite length_remove_at by (rewrite length_recs_view; lia).
    rewrite length_recs_view. lia.
  - intros j Hj. rewrite length_remove_at, length_recs_view in Hj by (rewrite length_recs_view; lia).
    rewrite GetRecord_SetNumKeys, Hg, nth_remove_at by (rewrite length_recs_view; lia).
    nat_cases; try (now rewrite nth_recs_view by lia).
Qed.

(** ** Moving every record one slot up, and appending *)

Lemma leaf_shift_right_spec (c : nat) :
  forall (p : t),
    num_keys (leaf_shift_right p c) = num_keys p /\
    next_leaf (leaf_shift_right p c) = next_leaf p /\
    forall j, GetRecord (leaf_shift_right p c) j =
              if (0 <? j)%nat && (j <=? c)%nat then GetRecord p (j - 1) else GetRecord p j.
Proof.
  induction c as [|i IH]; intros p; cbn [leaf_shift_right].
  - repeat split. intros j. nat_cases.
  - destruct (GetRecord p i) as [k2 d2] eqn:Eg.
    destruct (IH (SetRecord p (S i) k2 d2)) as (Hn & Hx & Hg).
    repeat split; auto. intros j. rewrite Hg, !GetRecord_SetRecord. nat_cases.
    all: try (replace (S i - 1)%nat with i by lia; auto).
Qed.

Lemma leaf_prepend_view (child : t) (tk : Z) (td : list Z) :
  0 <= num_keys child ->
  recs_view (SetNumKeys (SetRecord (leaf_shift_right child (Z.to_nat (num_keys child))) 0 tk td)
                        (num_keys child + 1))
  = (tk, td) :: recs_view child.
Proof.
  intros Hn. destruct (leaf_shift_right_spec (Z.to_nat (num_keys child)) child) as (_ & _ & Hg).
  apply recs_view_eq.
  - cbn [num_keys SetNumKeys length]. rewrite length_recs_view. lia.
  - intros j Hj. cbn [length] in Hj. rewrite length_recs_view in Hj.
    rewrite GetRecord_SetNumKeys, GetRecord_SetRecord, Hg.
    destruct j as [|j]; [reflexivity|]. cbn [nth]. nat_cases.
    rewrite nth_recs_view by lia. f_equal. lia.
Qed.

Lemma leaf_append_one_view (child : t) (tk : Z) (td : list Z) :
  0 <= num_keys child ->
  recs_view (SetNumKeys (SetRecord child (Z.to_nat (num_keys child)) tk td) (num_keys child + 1))
  = recs_view child ++ [(tk, td)].
Proof.
  intros Hn. apply recs_view_eq.
  - cbn [num_keys SetNumKeys]. rewrite length_app, length_recs_view. simpl. lia.
  - intros j Hj. rewrite length_app, length_recs_view in Hj. simpl in Hj.
    rewrite GetRecord_SetNumKeys, GetRecord_SetRecord.
    destruct (decide (Z.to_nat (num_keys child) = j)) as [<-|Hne].
    + rewrite app_nth2 by (rewrite length_recs_view; lia).
      now rewrite length_recs_view, Nat.sub_diag.
    + rewrite app_nth1 by (rewrite length_recs_view; lia). now rewrite nth_recs_view by lia.
Qed.

Lemma leaf_drop_last_view (left : t) :
  0 < num_keys left ->
  recs_view (SetNumKeys left (num_keys left - 1))
  = take (Z.to_nat (num_keys left - 1)) (recs_view left).
Proof.
  intros Hn. unfold recs_view. cbn [num_keys SetNumKeys records].
  rewrite prefix_take by lia. reflexivity.
Qed.

Lemma leaf_append_spec (right : t) (ln todo : nat) :
  forall (left : t) (j0 : nat),
    num_keys (leaf_append left right ln j0 todo) = num_keys left /\
    next_leaf (leaf_append left right ln j0 todo) = next_leaf left /\
    forall j, GetRecord (leaf_append left right ln j0 todo) j =
              if (ln + j0 <=? j)%nat && (j <? ln + j0 + todo)%nat
              then GetRecord right (j - ln) else GetRecord left j.
Proof.
  induction todo as [|todo IH]; intros left j0; cbn [leaf_append].
  - repeat split. intros j. nat_cases.
  - destruct (GetRecord right j0) as [tk td] eqn:Eg.
    destruct (IH (SetRecord left (ln + j0) tk td) (S j0)) as (Hn & Hx & Hg).
    repeat split; auto. intros j. rewrite Hg, !GetRecord_SetRecord. nat_cases.
    all: try (replace (ln + j0 - ln)%nat with j0 by lia; auto).
Qed.

Lemma leaf_merge_view (left right : t) :
  0 <= num_keys left -> 0 <= num_keys right ->
  recs_view (SetNextLeaf
               (SetNumKeys (leaf_append left right (Z.to_nat (num_keys left)) 0
                                        (Z.to_nat (num_keys right)))
                           (num_keys left + num_keys right))
               (NextLeaf right))
  = recs_view left ++ recs_view right.
Proof.
  intros Hl Hr.
  destruct (leaf_append_spec right (Z.to_nat (num_keys left)) (Z.to_nat (num_keys right)) left 0)
    as (_ & _ & Hg).
  apply recs_view_eq.
  - cbn [num_keys SetNumKeys SetNextLeaf]. rewrite length_app, !length_recs_view. lia.
  - intros j Hj. rewrite length_app, !length_recs_view in Hj.
    rewrite GetRecord_SetNextLeaf, GetRecord_SetNumKeys, Hg.
    nat_cases.
    + rewrite app_nth2 by (rewrite length_recs_view; lia).
      rewrite length_recs_view. now rewrite nth_recs_view by lia.
    + rewrite app_nth1 by (rewrite length_recs_view; lia). now rewrite nth_recs_view by lia.
Qed.

(** The view of a page with one key more or less than it is read with. *)
Lemma leaf_records_view (leaf : t) :
  leaf_records leaf (Z.to_nat (num_keys leaf)) = recs_view leaf.
Proof. reflexivity. Qed.

Lemma leaf_set_data_view (leaf : t) (i : nat) (data : list Z) :
  (i < Z.to_nat (num_keys leaf))%nat ->
  recs_view (SetData leaf i data) = <[i := (KeyAt leaf i, data)]> (recs_view leaf).
Proof.
  intros Hi. apply recs_view_eq.
  - cbn [num_keys SetData SetRecord]. rewrite length_insert, length_recs_view. lia.
  - intros j Hj. rewrite length_insert, length_recs_view in Hj.
    unfold SetData. rewrite GetRecord_SetRecord.
    destruct (decide (i = j)) as [<-|Hne].
    + symmetry. apply nth_lookup_Some. apply list_lookup_insert_eq. rewrite length_recs_view. lia.
    + rewrite <- nth_recs_view by lia. symmetry.
      destruct (recs_view leaf !! j) as [y|] eqn:E.
      * rewrite (nth_lookup_Some _ _ _ y), (nth_lookup_Some _ _ _ y); auto.
        now rewrite list_lookup_insert_ne.
      * apply lookup_ge_None in E. rewrite length_recs_view in E. lia.
Qed.

End LeafFacts.


(** * The loops over an internal page *)

Module InternalFacts.
Import Tree TreeSpec InternalPage SlotsFacts.
Import LeafFacts.

Lemma KeyAt_SetKeyAt (p : t) (i j : nat) (k : Z) :
  KeyAt (SetKeyAt p i k) j = if decide (i = j) then k else KeyAt p j.
Proof. unfold KeyAt, SetKeyAt. cbn [keys]. apply get_set. Qed.

Lemma KeyAt_SetChildAt (p : t) (i j : nat) (c : Z) : KeyAt (SetChildAt p i c) j = KeyAt p j.
Proof. reflexivity. Qed.

Lemma ChildAt_SetChildAt (p : t) (i j : nat) (c : Z) :
  ChildAt (SetChildAt p i c) j = if decide (i = j) then c else ChildAt p j.
Proof. unfold ChildAt, SetChildAt. cbn [children]. apply get_set. Qed.

Lemma ChildAt_SetKeyAt (p : t) (i j : nat) (k : Z) : ChildAt (SetKeyAt p i k) j = ChildAt p j.
Proof. reflexivity. Qed.

Lemma KeyAt_SetNumKeys (p : t) (n : Z) (j : nat) : KeyAt (SetNumKeys p n) j = KeyAt p j.
Proof. reflexivity. Qed.

Lemma ChildAt_SetNumKeys (p : t) (n : Z) (j : nat) : ChildAt (SetNumKeys p n) j = ChildAt p j.
Proof. reflexivity. Qed.

Lemma KeyAt_Init (j : nat) : KeyAt Init j = 0.
Proof. unfold KeyAt, Init. cbn [keys]. apply get_nil. Qed.

Lemma ChildAt_Init (j : nat) : ChildAt Init j = 0.
Proof. unfold ChildAt, Init. cbn [children]. apply get_nil. Qed.

Lemma length_keys_view (p : t) : length (keys_view p) = Z.to_nat (num_keys p).
Proof. apply length_prefix. Qed.

Lemma length_kids_view (p : t) : length (kids_view p) = S (Z.to_nat (num_keys p)).
Proof. apply length_prefix. Qed.

Lemma nth_keys_view (p : t) (j : nat) :
  (j < Z.to_nat (num_keys p))%nat -> nth j (keys_view p) 0 = KeyAt p j.
Proof. intros H. unfold keys_view, KeyAt. now apply nth_prefix. Qed.

Lemma nth_kids_view (p : t) (j : nat) :
  (j <= Z.to_nat (num_keys p))%nat -> nth j (kids_view p) 0 = ChildAt p j.
Proof. intros H. unfold kids_view, ChildAt. apply nth_prefix. lia. Qed.

Lemma keys_view_eq (p : t) (xs : list Z) :
  num_keys p = Z.of_nat (length xs) ->
  (forall j, (j < length xs)%nat -> KeyAt p j = nth j xs 0) ->
  keys_view p = xs.
Proof.
  intros Hn H. unfold keys_view. apply prefix_eq.
  - rewrite Hn. lia.
  - rewrite Hn, Nat2Z.id. exact H.
Qed.

Lemma kids_view_eq (p : t) (xs : list Z) :
  num_keys p + 1 = Z.of_nat (length xs) -> 0 <= num_keys p ->
  (forall j, (j < length xs)%nat -> ChildAt p j = nth j xs 0) ->
  kids_view p = xs.
Proof.
  intros Hn Hp H. unfold kids_view. apply prefix_eq.
  - lia.
  - intros i Hi. apply H. lia.
Qed.

(** ** The descent step *)

Lemma child_index_spec (node : t) (key : Z) (todo : nat) :
  forall i,
    (i <= child_index node key todo i <= i + todo)%nat /\
    (forall j, (i <= j < child_index node key todo i)%nat -> KeyAt node j <= key) /\
    ((child_index node key todo i < i + todo)%nat ->
     key < KeyAt node (child_index node key todo i)).
Proof.
  induction todo as [|todo IH]; intros i; cbn [child_index].
  - repeat split; try lia.
  - destruct (Z.leb_spec (KeyAt node i) key) as [Hle|Hgt].
    + destruct (IH (S i)) as (Hr & Hj & Hk). repeat split; try lia.
      intros j Hj'. destruct (Nat.eq_dec j i) as [->|]; [exact Hle|]. apply Hj. lia.
    + repeat split; try lia.
Qed.

(** ** Making room for a separator and a child *)

Lemma internal_make_room_spec (key : Z) (c : nat) :
  forall (node node' : t) (pos : nat),
    internal_make_room node key c = (pos, node') ->
    (pos <= c)%nat /\
    num_keys node' = num_keys node /\
    (forall j, (pos <= j < c)%nat -> key < KeyAt node j) /\
    ((0 < pos)%nat -> KeyAt node (pos - 1) <= key) /\
    (forall j, KeyAt node' j =
               if (pos <? j)%nat && (j <=? c)%nat then KeyAt node (j - 1) else KeyAt node j) /\
    (forall j, ChildAt node' j =
               if (S pos <? j)%nat && (j <=? S c)%nat then ChildAt node (j - 1)
               else ChildAt node j).
Proof.
  induction c as [|i IH]; intros node node' pos; cbn [internal_make_room].
  - intros [= <- <-]. repeat split; try lia; intros j; nat_cases.
  - destruct (Z.ltb_spec key (KeyAt node i)) as [Hlt|Hge].
    + intros H. apply IH in H. destruct H as (Hp & Hn & Hk & Hk' & Hgk & Hgc).
      assert (Hkey : forall j, j <> S i ->
                KeyAt (SetChildAt (SetKeyAt node (S i) (KeyAt node i)) (S (S i))
                                  (ChildAt (SetKeyAt node (S i) (KeyAt node i)) (S i))) j
                = KeyAt node j).
      { intros j Hj. rewrite KeyAt_SetChildAt, KeyAt_SetKeyAt. nat_cases. }
      repeat split; try lia; auto.
      * intros j Hj. destruct (Nat.eq_dec j i) as [->|]; [exact Hlt|].
        rewrite <- Hkey by lia. apply Hk. lia.
      * intros Hpos. rewrite <- Hkey by lia. auto.
      * intros j. rewrite Hgk, !KeyAt_SetChildAt, !KeyAt_SetKeyAt. nat_cases.
      * intros j. rewrite Hgc, !ChildAt_SetChildAt, !ChildAt_SetKeyAt. nat_cases.
    + intros [= <- <-]. repeat split; try lia; auto.
      * intros _. now replace (S i - 1)%nat with i by lia.
      * intros j. nat_cases.
      * intros j. nat_cases.
Qed.

Lemma internal_insert_view (node node' : t) (key child : Z) (pos : nat) :
  0 <= num_keys node ->
  internal_make_room node key (Z.to_nat (num_keys node)) = (pos, node') ->
  let node'' := SetNumKeys (SetChildAt (SetKeyAt node' pos key) (S pos) child)
                           (NumKeys node' + 1) in
  keys_view node'' = vector_insert (keys_view node) pos key /\
  kids_view node'' = vector_insert (kids_view node) (S pos) child /\
  num_keys node'' = num_keys node + 1.
Proof.
  intros Hn H. apply internal_make_room_spec in H.
  destruct H as (Hp & Hnk & _ & _ & Hgk & Hgc). cbn zeta. unfold NumKeys. split; [|split].
  - apply keys_view_eq.
    + cbn [num_keys SetNumKeys]. rewrite length_vector_insert, length_keys_view, Hnk. lia.
    + intros j Hj. rewrite length_vector_insert, length_keys_view in Hj.
      rewrite KeyAt_SetNumKeys, KeyAt_SetChildAt, KeyAt_SetKeyAt.
      rewrite nth_vector_insert by (rewrite length_keys_view; lia).
      rewrite Hgk. nat_cases; try (now rewrite nth_keys_view by lia).
  - apply kids_view_eq.
    + cbn [num_keys SetNumKeys]. rewrite length_vector_insert, length_kids_view, Hnk. lia.
    + cbn [num_keys SetNumKeys]. lia.
    + intros j Hj. rewrite length_vector_insert, length_kids_view in Hj.
      rewrite ChildAt_SetNumKeys, ChildAt_SetChildAt, ChildAt_SetKeyAt.
      rewrite nth_vector_insert by (rewrite length_kids_view; lia).
      rewrite Hgc. nat_cases; try (now rewrite nth_kids_view by lia).
  - cbn [num_keys SetNumKeys]. lia.
Qed.

(** ** Storing runs of keys and children *)

Lemma internal_store_keys_spec (ks : list Z) :
  forall (p : t) (idx : nat),
    num_keys (internal_store_keys p idx ks) = num_keys p /\
    (forall j, ChildAt (internal_store_keys p idx ks) j = ChildAt p j) /\
    forall j, KeyAt (internal_store_keys p idx ks) j =
              if (idx <=? j)%nat && (j <? idx + length ks)%nat
              then nth (j - idx) ks 0 else KeyAt p j.
Proof.
  induction ks as [|k ks IH]; intros p idx; cbn [internal_store_keys length].
  - repeat split. intros j. nat_cases.
  - destruct (IH (SetKeyAt p idx k) (S idx)) as (Hn & Hc & Hg).
    repeat split; auto. intros j. rewrite Hg, KeyAt_SetKeyAt. nat_cases.
    all: try (replace (j - idx)%nat with (S (j - S idx)) by lia; reflexivity).
    all: try (now rewrite Nat.sub_diag).
Qed.

Lemma internal_store_children_spec (cs : list Z) :
  forall (p : t) (idx : nat),
    num_keys (internal_store_children p idx cs) = num_keys p /\
    (forall j, KeyAt (internal_store_children p idx cs) j = KeyAt p j) /\
    forall j, ChildAt (internal_store_children p idx cs) j =
              if (idx <=? j)%nat && (j <? idx + length cs)%nat
              then nth (j - idx) cs 0 else ChildAt p j.
Proof.
  induction cs as [|c cs IH]; intros p idx; cbn [internal_store_children length].
  - repeat split. intros j. nat_cases.
  - destruct (IH (SetChildAt p idx c) (S idx)) as (Hn & Hk & Hg).
    repeat split; auto. intros j. rewrite Hg, ChildAt_SetChildAt. nat_cases.
    all: try (replace (j - idx)%nat with (S (j - S idx)) by lia; reflexivity).
    all: try (now rewrite Nat.sub_diag).
Qed.

Lemma internal_store_both_spec (ks : list Z) :
  forall (cs : list Z) (p : t) (idx : nat),
    length cs = length ks ->
    num_keys (internal_store_both p idx ks cs) = num_keys p /\
    (forall j, KeyAt (internal_store_both p idx ks cs) j =
               if (idx <=? j)%nat && (j <? idx + length ks)%nat
               then nth (j - idx) ks 0 else KeyAt p j) /\
    (forall j, ChildAt (internal_store_both p idx ks cs) j =
               if (idx <=? j)%nat && (j <? idx + length cs)%nat
               then nth (j - idx) cs 0 else ChildAt p j).
Proof.
  induction ks as [|k ks IH]; intros [|c cs] p idx Hl; try discriminate;
    cbn [internal_store_both length].
  - repeat split; intros j; nat_cases.
  - destruct (IH cs (SetChildAt (SetKeyAt p idx k) idx c) (S idx)) as (Hn & Hk & Hc).
    { simpl in Hl. lia. }
    repeat split; auto.
    + intros j. rewrite Hk, KeyAt_SetChildAt, KeyAt_SetKeyAt. nat_cases.
      all: try (replace (j - idx)%nat with (S (j - S idx)) by lia; reflexivity).
      all: try (now rewrite Nat.sub_diag).
    + intros j. rewrite Hc, ChildAt_SetChildAt, ChildAt_SetKeyAt. nat_cases.
      all: try (replace (j - idx)%nat with (S (j - S idx)) by lia; reflexivity).
      all: try (now rewrite Nat.sub_diag).
Qed.

(** The new right node of a split. *)
Lemma internal_new_node_view (ks cs : list Z) (n : Z) :
  n = Z.of_nat (length ks) -> length cs = S (length ks) ->
  let p := internal_store_children (internal_store_keys (SetNumKeys Init n) 0 ks) 0 cs in
  keys_view p = ks /\ kids_view p = cs /\ num_keys p = n.
Proof.
  intros -> Hl. cbn zeta.
  destruct (internal_store_keys_spec ks (SetNumKeys Init (Z.of_nat (length ks))) 0)
    as (Hn1 & Hc1 & Hk1).
  destruct (internal_store_children_spec cs
              (internal_store_keys (SetNumKeys Init (Z.of_nat (length ks))) 0 ks) 0)
    as (Hn2 & Hk2 & Hc2).
  assert (Hn : num_keys (internal_store_children
                 (internal_store_keys (SetNumKeys Init (Z.of_nat (length ks))) 0 ks) 0 cs)
               = Z.of_nat (length ks)) by (now rewrite Hn2, Hn1).
  split; [|split; [|exact Hn]].
  - apply keys_view_eq; [exact Hn|].
    intros j Hj. rewrite Hk2, Hk1. nat_cases. all: try (now rewrite Nat.sub_0_r).
  - apply kids_view_eq; [rewrite Hn; lia | rewrite Hn; lia |].
    intros j Hj. rewrite Hc2. nat_cases. all: try (now rewrite Nat.sub_0_r).
Qed.

(** The left node of a split, rewritten in place. *)
Lemma internal_left_node_view (node : t) (ks cs : list Z) (c : Z) :
  length cs = length ks ->
  let p := SetChildAt (internal_store_both (SetNumKeys node (Z.of_nat (length ks))) 0 ks cs)
                      (length ks) c in
  keys_view p = ks /\ kids_view p = cs ++ [c] /\ num_keys p = Z.of_nat (length ks).
Proof.
  intros Hl. cbn zeta.
  destruct (internal_store_both_spec ks cs (SetNumKeys node (Z.of_nat (length ks))) 0 Hl)
    as (Hn & Hk & Hc).
  assert (Hn' : num_keys (SetChildAt
                  (internal_store_both (SetNumKeys node (Z.of_nat (length ks))) 0 ks cs)
                  (length ks) c) = Z.of_nat (length ks)) by (cbn [num_keys SetChildAt]; now rewrite Hn).
  split; [|split; [|exact Hn']].
  - apply keys_view_eq; [exact Hn'|].
    intros j Hj. rewrite KeyAt_SetChildAt, Hk. nat_cases. all: try (now rewrite Nat.sub_0_r).
  - apply kids_view_eq.
    + rewrite Hn', length_app. simpl. lia.
    + rewrite Hn'. lia.
    + intros j Hj. rewrite length_app in Hj. simpl in Hj.
      rewrite ChildAt_SetChildAt. destruct (decide (length ks = j)) as [<-|Hne].
      * rewrite app_nth2 by lia. now rewrite Hl, Nat.sub_diag.
      * rewrite app_nth1 by lia. rewrite Hc. nat_cases. all: try (now rewrite Nat.sub_0_r).
Qed.

(** ** Removing a separator and the child right of it *)

Lemma internal_remove_spec (todo : nat) :
  forall (p : t) (j0 : nat),
    num_keys (internal_remove p j0 todo) = num_keys p /\
    (forall j, KeyAt (internal_remove p j0 todo) j =
               if (j0 <=? j)%nat && (j <? j0 + todo)%nat then KeyAt p (S j) else KeyAt p j) /\
    (forall j, ChildAt (internal_remove p j0 todo) j =
               if (S j0 <=? j)%nat && (j <? S j0 + todo)%nat then ChildAt p (S j)
               else ChildAt p j).
Proof.
  induction todo as [|todo IH]; intros p j0; cbn [internal_remove].
  - repeat split; intros j; nat_cases.
  - destruct (IH (SetChildAt (SetKeyAt p j0 (KeyAt p (S j0))) (S j0)
                             (ChildAt (SetKeyAt p j0 (KeyAt p (S j0))) (S (S j0)))) (S j0))
      as (Hn & Hk & Hc).
    repeat split; auto.
    + intros j. rewrite Hk, !KeyAt_SetChildAt, !KeyAt_SetKeyAt. nat_cases.
    + intros j. rewrite Hc, !ChildAt_SetChildAt, !ChildAt_SetKeyAt. nat_cases.
Qed.

Lemma internal_remove_view (p : t) (idx : nat) :
  (idx < Z.to_nat (num_keys p))%nat ->
  let p' := SetNumKeys (internal_remove p idx (Z.to_nat (num_keys p - 1) - idx))
                       (num_keys p - 1) in
  keys_view p' = remove_at idx (keys_view p) /\
  kids_view p' = remove_at (S idx) (kids_view p) /\
  num_keys p' = num_keys p - 1.
Proof.
  intros Hi. cbn zeta.
  destruct (internal_remove_spec (Z.to_nat (num_keys p - 1) - idx) p idx) as (_ & Hk & Hc).
  split; [|split; [|reflexivity]].
  - apply keys_view_eq.
    + cbn [num_keys SetNumKeys]. rewrite length_remove_at by (rewrite length_keys_view; lia).
      rewrite length_keys_view. lia.
    + intros j Hj. rewrite length_remove_at, length_keys_view in Hj by (rewrite length_keys_view; lia).
      rewrite KeyAt_SetNumKeys, Hk, nth_remove_at by (rewrite length_keys_view; lia).
      nat_cases; try (now rewrite nth_keys_view by lia).
  - apply kids_view_eq.
    + cbn [num_keys SetNumKeys]. rewrite length_remove_at by (rewrite length_kids_view; lia).
      rewrite length_kids_view. lia.
    + cbn [num_keys SetNumKeys]. lia.
    + intros j Hj. rewrite length_remove_at, length_kids_view in Hj by (rewrite length_kids_view; lia).
      rewrite ChildAt_SetNumKeys, Hc, nth_remove_at by (rewrite length_kids_view; lia).
      nat_cases; try (now rewrite nth_kids_view by lia).
Qed.

(** ** Borrowing through the parent *)

Lemma internal_shift_right_spec (c : nat) :
  forall (p : t),
    num_keys (internal_shift_right p c) = num_keys p /\
    (forall j, KeyAt (internal_shift_right p c) j =
               if (0 <? j)%nat && (j <=? c)%nat then KeyAt p (j - 1) else KeyAt p j) /\
    (forall j, ChildAt (internal_shift_right p c) j =
               if (1 <? j)%nat && (j <=? S c)%nat then ChildAt p (j - 1) else ChildAt p j).
Proof.
  induction c as [|i IH]; intros p; cbn [internal_shift_right].
  - repeat split; intros j; nat_cases.
  - destruct (IH (SetChildAt (SetKeyAt p (S i) (KeyAt p i)) (S (S i))
                             (ChildAt (SetKeyAt p (S i) (KeyAt p i)) (S i))))
      as (Hn & Hk & Hc).
    repeat split; auto.
    + intros j. rewrite Hk, !KeyAt_SetChildAt, !KeyAt_SetKeyAt. nat_cases.
    + intros j. rewrite Hc, !ChildAt_SetChildAt, !ChildAt_SetKeyAt. nat_cases.
Qed.

Lemma internal_prepend_view (child : t) (parent_key borrowed_child : Z) :
  0 <= num_keys child ->
  let c1 := internal_shift_right child (Z.to_nat (num_keys child)) in
  let c2 := SetChildAt c1 1 (ChildAt c1 0) in
  let c3 := SetNumKeys (SetChildAt (SetKeyAt c2 0 parent_key) 0 borrowed_child)
                       (num_keys child + 1) in
  keys_view c3 = parent_key :: keys_view child /\
  kids_view c3 = borrowed_child :: kids_view child.
Proof.
  intros Hn. cbn zeta.
  destruct (internal_shift_right_spec (Z.to_nat (num_keys child)) child) as (_ & Hk & Hc).
  split.
  - apply keys_view_eq.
    + cbn [num_keys SetNumKeys length]. rewrite length_keys_view. lia.
    + intros j Hj. cbn [length] in Hj. rewrite length_keys_view in Hj.
      rewrite KeyAt_SetNumKeys, KeyAt_SetChildAt, KeyAt_SetKeyAt, KeyAt_SetChildAt, Hk.
      destruct j as [|j]; [reflexivity|]. cbn [nth]. nat_cases.
      rewrite nth_keys_view by lia. f_equal. lia.
  - apply kids_view_eq.
    + cbn [num_keys SetNumKeys length]. rewrite length_kids_view. lia.
    + cbn [num_keys SetNumKeys]. lia.
    + intros j Hj. cbn [length] in Hj. rewrite length_kids_view in Hj.
      rewrite ChildAt_SetNumKeys, ChildAt_SetChildAt, ChildAt_SetKeyAt, ChildAt_SetChildAt, !Hc.
      destruct j as [|j]; [reflexivity|]. cbn [nth].
      rewrite nth_kids_view by lia. nat_cases. all: try (f_equal; lia).
Qed.

Lemma internal_shift_left_spec (todo : nat) :
  forall (p : t) (j0 : nat),
    num_keys (internal_shift_left p j0 todo) = num_keys p /\
    (forall j, KeyAt (internal_shift_left p j0 todo) j =
               if (j0 <=? j)%nat && (j <? j0 + todo)%nat then KeyAt p (S j) else KeyAt p j) /\
    (forall j, ChildAt (internal_shift_left p j0 todo) j =
               if (j0 <=? j)%nat && (j <? j0 + todo)%nat then ChildAt p (S j) else ChildAt p j).
Proof.
  induction todo as [|todo IH]; intros p j0; cbn [internal_shift_left].
  - repeat split; intros j; nat_cases.
  - destruct (IH (SetChildAt (SetKeyAt p j0 (KeyAt p (S j0))) j0
                             (ChildAt (SetKeyAt p j0 (KeyAt p (S j0))) (S j0))) (S j0))
      as (Hn & Hk & Hc).
    repeat split; auto.
    + intros j. rewrite Hk, !KeyAt_SetChildAt, !KeyAt_SetKeyAt. nat_cases.
    + intros j. rewrite Hc, !ChildAt_SetChildAt, !ChildAt_SetKeyAt. nat_cases.
Qed.

Lemma internal_drop_first_view (right : t) :
  0 < num_keys right ->
  let r1 := internal_shift_left right 0 (Z.to_nat (num_keys right - 1)) in
  let r2 := SetChildAt r1 (Z.to_nat (num_keys right - 1)) (ChildAt r1 (Z.to_nat (num_keys right))) in
  let r3 := SetNumKeys r2 (num_keys right - 1) in
  keys_view r3 = drop 1 (keys_view right) /\ kids_view r3 = drop 1 (kids_view right).
Proof.
  intros Hn. cbn zeta.
  destruct (internal_shift_left_spec (Z.to_nat (num_keys right - 1)) right 0) as (_ & Hk & Hc).
  split.
  - apply keys_view_eq.
    + cbn [num_keys SetNumKeys]. rewrite length_drop, length_keys_view. lia.
    + intros j Hj. rewrite length_drop, length_keys_view in Hj.
      rewrite KeyAt_SetNumKeys, KeyAt_SetChildAt, Hk, nth_drop. nat_cases.
      now rewrite nth_keys_view by lia.
  - apply kids_view_eq.
    + cbn [num_keys SetNumKeys]. rewrite length_drop, length_kids_view. lia.
    + cbn [num_keys SetNumKeys]. lia.
    + intros j Hj. rewrite length_drop, length_kids_view in Hj.
      rewrite ChildAt_SetNumKeys, ChildAt_SetChildAt, !Hc, nth_drop.
      rewrite nth_kids_view by lia. nat_cases. all: try (f_equal; lia).
Qed.

Lemma internal_append_one_view (child : t) (parent_key borrowed_child : Z) :
  0 <= num_keys child ->
  let c' := SetNumKeys (SetChildAt (SetKeyAt child (Z.to_nat (num_keys child)) parent_key)
                                   (Z.to_nat (num_keys child + 1)) borrowed_child)
                       (num_keys child + 1) in
  keys_view c' = keys_view child ++ [parent_key] /\
  kids_view c' = kids_view child ++ [borrowed_child].
Proof.
  intros Hn. cbn zeta. split.
  - apply keys_view_eq.
    + cbn [num_keys SetNumKeys]. rewrite length_app, length_keys_view. simpl. lia.
    + intros j Hj. rewrite length_app, length_keys_view in Hj. simpl in Hj.
      rewrite KeyAt_SetNumKeys, KeyAt_SetChildAt, KeyAt_SetKeyAt.
      destruct (decide (Z.to_nat (num_keys child) = j)) as [<-|Hne].
      * rewrite app_nth2 by (rewrite length_keys_view; lia).
        now rewrite length_keys_view, Nat.sub_diag.
      * rewrite app_nth1 by (rewrite length_keys_view; lia). now rewrite nth_keys_view by lia.
  - apply kids_view_eq.
    + cbn [num_keys SetNumKeys]. rewrite length_app, length_kids_view. simpl. lia.
    + cbn [num_keys SetNumKeys]. lia.
    + intros j Hj. rewrite length_app, length_kids_view in Hj. simpl in Hj.
      rewrite ChildAt_SetNumKeys, ChildAt_SetChildAt, ChildAt_SetKeyAt.
      destruct (decide (Z.to_nat (num_keys child + 1) = j)) as [<-|Hne].
      * rewrite app_nth2 by (rewrite length_kids_view; lia).
        rewrite length_kids_view.
        now replace (Z.to_nat (num_keys child + 1) - S (Z.to_nat (num_keys child)))%nat
          with 0%nat by lia.
      * rewrite app_nth1 by (rewrite length_kids_view; lia). now rewrite nth_kids_view by lia.
Qed.

Lemma internal_drop_last_view (left : t) :
  0 < num_keys left ->
  let l' := SetNumKeys left (num_keys left - 1) in
  keys_view l' = take (Z.to_nat (num_keys left - 1)) (keys_view left) /\
  kids_view l' = take (Z.to_nat (num_keys left)) (kids_view left).
Proof.
  intros Hn. cbn zeta. unfold keys_view, kids_view. cbn [num_keys SetNumKeys keys children].
  rewrite !prefix_take by lia. split; [reflexivity|]. f_equal. lia.
Qed.

Lemma internal_set_key_view (p : t) (i : nat) (k : Z) :
  (i < Z.to_nat (num_keys p))%nat ->
  keys_view (SetKeyAt p i k) = <[i := k]> (keys_view p) /\
  kids_view (SetKeyAt p i k) = kids_view p.
Proof.
  intros Hi. split; [|reflexivity]. apply keys_view_eq.
  - cbn [num_keys SetKeyAt]. rewrite length_insert, length_keys_view. lia.
  - intros j Hj. rewrite length_insert, length_keys_view in Hj. rewrite KeyAt_SetKeyAt.
    destruct (decide (i = j)) as [<-|Hne].
    + symmetry. apply nth_lookup_Some. apply list_lookup_insert_eq. rewrite length_keys_view. lia.
    + rewrite <- nth_keys_view by lia. symmetry.
      destruct (keys_view p !! j) as [y|] eqn:E.
      * rewrite (nth_lookup_Some _ _ _ y), (nth_lookup_Some _ _ _ y); auto.
        now rewrite list_lookup_insert_ne.
      * apply lookup_ge_None in E. rewrite length_keys_view in E. lia.
Qed.

(** ** Merging two internal nodes *)

Lemma internal_append_spec (right : t) (ln todo : nat) :
  forall (left : t) (j0 : nat),
    num_keys (internal_append left right ln j0 todo) = num_keys left /\
    (forall j, KeyAt (internal_append left right ln j0 todo) j =
               if (ln + 1 + j0 <=? j)%nat && (j <? ln + 1 + j0 + todo)%nat
               then KeyAt right (j - (ln + 1)) else KeyAt left j) /\
    (forall j, ChildAt (internal_append left right ln j0 todo) j =
               if (ln + 2 + j0 <=? j)%nat && (j <? ln + 2 + j0 + todo)%nat
               then ChildAt right (j - (ln + 1)) else ChildAt left j).
Proof.
  induction todo as [|todo IH]; intros left j0; cbn [internal_append].
  - repeat split; intros j; nat_cases.
  - destruct (IH (SetChildAt (SetKeyAt left (ln + 1 + j0) (KeyAt right j0)) (ln + 2 + j0)
                             (ChildAt right (S j0))) (S j0)) as (Hn & Hk & Hc).
    repeat split; auto.
    + intros j. rewrite Hk, !KeyAt_SetChildAt, !KeyAt_SetKeyAt. nat_cases.
    + intros j. rewrite Hc, !ChildAt_SetChildAt, !ChildAt_SetKeyAt. nat_cases.
Qed.

Lemma internal_merge_view (left right : t) (merge_key : Z) :
  0 <= num_keys left -> 0 <= num_keys right ->
  let l1 := SetChildAt (SetKeyAt left (Z.to_nat (num_keys left)) merge_key)
                       (Z.to_nat (num_keys left + 1)) (ChildAt right 0) in
  let l2 := SetNumKeys (internal_append l1 right (Z.to_nat (num_keys left)) 0
                                        (Z.to_nat (num_keys right)))
                       (num_keys left + 1 + num_keys right) in
  keys_view l2 = keys_view left ++ merge_key :: keys_view right /\
  kids_view l2 = kids_view left ++ kids_view right.
Proof.
  intros Hl Hr. cbn zeta.
  destruct (internal_append_spec right (Z.to_nat (num_keys left)) (Z.to_nat (num_keys right))
              (SetChildAt (SetKeyAt left (Z.to_nat (num_keys left)) merge_key)
                          (Z.to_nat (num_keys left + 1)) (ChildAt right 0)) 0) as (_ & Hk & Hc).
  split.
  - apply keys_view_eq.
    + cbn [num_keys SetNumKeys]. rewrite length_app. cbn [length]. rewrite !length_keys_view. lia.
    + intros j Hj. rewrite length_app in Hj. cbn [length] in Hj. rewrite !length_keys_view in Hj.
      rewrite KeyAt_SetNumKeys, Hk, KeyAt_SetChildAt, KeyAt_SetKeyAt.
      destruct (Nat.lt_ge_cases j (Z.to_nat (num_keys left))) as [Hlt|Hge].
      * rewrite app_nth1 by (rewrite length_keys_view; lia). nat_cases.
        now rewrite nth_keys_view by lia.
      * rewrite app_nth2 by (rewrite length_keys_view; lia). rewrite length_keys_view.
        destruct (j - Z.to_nat (num_keys left))%nat as [|k] eqn:E; cbn [nth].
        -- nat_cases.
        -- nat_cases. all: try (rewrite nth_keys_view by lia; f_equal; lia).
  - apply kids_view_eq.
    + cbn [num_keys SetNumKeys]. rewrite length_app, !length_kids_view. lia.
    + cbn [num_keys SetNumKeys]. lia.
    + intros j Hj. rewrite length_app, !length_kids_view in Hj.
      rewrite ChildAt_SetNumKeys, Hc, ChildAt_SetChildAt, ChildAt_SetKeyAt.
      destruct (Nat.lt_ge_cases j (S (Z.to_nat (num_keys left)))) as [Hlt|Hge].
      * rewrite app_nth1 by (rewrite length_kids_view; lia). nat_cases.
        now rewrite nth_kids_view by lia.
      * rewrite app_nth2 by (rewrite length_kids_view; lia). rewrite length_kids_view.
        rewrite nth_kids_view by lia. nat_cases.
Qed.

End InternalFacts.


(** * Key order, key ranges and the leaf chain *)

Module OrderFacts.
Import Tree TreeSpec SlotsFacts LeafFacts.

Lemma LEAF_MIN_KEYS_eq : LEAF_MIN_KEYS = 18.
Proof. reflexivity. Qed.

Lemma INTERNAL_MIN_KEYS_eq : INTERNAL_MIN_KEYS = 50.
Proof. reflexivity. Qed.

(** ** Ascending lists *)

Lemma ascending_nth (ks : list Z) :
  ascending ks <-> forall i j, (i < j < length ks)%nat -> nth i ks 0 < nth j ks 0.
Proof.
  induction ks as [|k ks IH]; cbn [ascending length].
  - split; [intros _ i j H; lia | auto].
  - split.
    + intros [Hk Ha] i j Hij. rewrite IH in Ha.
      assert (Hhead : forall j, (j < length ks)%nat -> k < nth j ks 0).
      { intros j'. induction j' as [|j' IHj]; intros Hj.
        - destruct ks; simpl in *; [lia | exact Hk].
        - specialize (Ha j' (S j') ltac:(lia)). specialize (IHj ltac:(lia)). lia. }
      destruct i as [|i], j as [|j]; try lia; cbn [nth].
      * apply Hhead. lia.
      * apply Ha. lia.
    + intros H. split.
      * destruct ks as [|k' ks']; [exact I|]. apply (H 0%nat 1%nat). simpl. lia.
      * apply IH. intros i j Hij. apply (H (S i) (S j)). lia.
Qed.

Lemma ascending_app (l1 l2 : list Z) :
  ascending (l1 ++ l2) <->
  ascending l1 /\ ascending l2 /\ forall x y, x ∈ l1 -> y ∈ l2 -> x < y.
Proof.
  rewrite !ascending_nth. split.
  - intros H. repeat split.
    + intros i j Hij. specialize (H i j). rewrite length_app, !app_nth1 in H by lia. apply H. lia.
    + intros i j Hij. specialize (H (length l1 + i) (length l1 + j))%nat.
      rewrite length_app, !app_nth2 in H by lia.
      replace (length l1 + i - length l1)%nat with i in H by lia.
      replace (length l1 + j - length l1)%nat with j in H by lia. apply H. lia.
    + intros x y Hx Hy.
      apply list_elem_of_In, (In_nth _ _ 0) in Hx. destruct Hx as (i & Hi & <-).
      apply list_elem_of_In, (In_nth _ _ 0) in Hy. destruct Hy as (j & Hj & <-).
      specialize (H i (length l1 + j))%nat.
      rewrite length_app, app_nth1, app_nth2 in H by lia.
      replace (length l1 + j - length l1)%nat with j in H by lia. apply H. lia.
  - intros (H1 & H2 & H12) i j Hij. rewrite length_app in Hij.
    destruct (Nat.lt_ge_cases j (length l1)) as [Hj|Hj].
    + rewrite !app_nth1 by lia. apply H1. lia.
    + destruct (Nat.lt_ge_cases i (length l1)) as [Hi|Hi].
      * rewrite app_nth1, app_nth2 by lia.
        apply H12; apply list_elem_of_In, nth_In; lia.
      * rewrite !app_nth2 by lia. apply H2. lia.
Qed.

Lemma ascending_cons (k : Z) (ks : list Z) :
  ascending (k :: ks) <-> ascending ks /\ forall y, y ∈ ks -> k < y.
Proof.
  change (k :: ks) with ([k] ++ ks). rewrite ascending_app. cbn [ascending].
  split.
  - intros (_ & H2 & H3). split; [exact H2|]. intros y Hy. apply H3; [|exact Hy].
    apply list_elem_of_singleton. reflexivity.
  - intros (H2 & H3). repeat split; auto. intros x y Hx Hy.
    apply list_elem_of_singleton in Hx. subst. now apply H3.
Qed.

Lemma ascending_NoDup (ks : list Z) : ascending ks -> NoDup ks.
Proof.
  induction ks as [|k ks IH]; [constructor|].
  rewrite ascending_cons. intros [Ha Hk]. constructor; [|now apply IH].
  intros Hin. specialize (Hk _ Hin). lia.
Qed.

(** ** The children of a node in their key ranges *)

Section Kids.
Context (W : Z -> Z -> tree -> Prop).
Hypothesis W_lt : forall a b c, W a b c -> a < b.

Lemma wf_kids_nil (lo hi : Z) (kids : list tree) :
  wf_kids W lo [] hi kids <-> exists c, kids = [c] /\ W lo hi c.
Proof.
  destruct kids as [|c [|c' kids]]; cbn [wf_kids].
  - split; [tauto | intros (c & [=] & _)].
  - split; [eauto | intros (c' & [= <-] & H); exact H].
  - split; [tauto | intros (c0 & [=] & _)].
Qed.

Lemma wf_kids_cons (lo hi k : Z) (keys : list Z) (c : tree) (kids : list tree) :
  wf_kids W lo (k :: keys) hi (c :: kids) <-> W lo k c /\ wf_kids W k keys hi kids.
Proof.
  cbn [wf_kids]. destruct kids; [|reflexivity].
  split; [tauto|]. intros [_ H]. destruct keys; simpl in H; tauto.
Qed.

Lemma wf_kids_cons_inv (lo hi k : Z) (keys : list Z) (kids : list tree) :
  wf_kids W lo (k :: keys) hi kids ->
  exists c kids', kids = c :: kids' /\ W lo k c /\ wf_kids W k keys hi kids'.
Proof.
  destruct kids as [|c kids]; [simpl; tauto|].
  rewrite wf_kids_cons. eauto.
Qed.

Lemma wf_kids_length (lo hi : Z) (keys : list Z) (kids : list tree) :
  wf_kids W lo keys hi kids -> length kids = S (length keys).
Proof.
  revert lo kids. induction keys as [|k keys IH]; intros lo kids H.
  - apply wf_kids_nil in H. destruct H as (c & -> & _). reflexivity.
  - apply wf_kids_cons_inv in H. destruct H as (c & kids' & -> & _ & H).
    apply IH in H. simpl. lia.
Qed.

Lemma wf_kids_seg0 (lo hi : Z) (km k2 : list Z) (lm l2 : list tree) :
  length lm = S (length km) ->
  wf_kids W lo (km ++ k2) hi (lm ++ l2) <->
  wf_kids W lo km (ubound hi k2) lm /\ wf_tail W k2 hi l2.
Proof.
  revert lo lm. induction km as [|k0 km IH]; intros lo lm Hl.
  - destruct lm as [|c [|]]; try discriminate. cbn [app].
    destruct k2 as [|k k2']; cbn [wf_tail ubound hd].
    + rewrite !wf_kids_nil. split.
      * intros (c0 & [= <- ->] & H). split; [eauto | reflexivity].
      * intros [(c0 & [= <-] & H) ->]. eauto.
    + rewrite wf_kids_cons, wf_kids_nil. split.
      * intros [H1 H2]. split; [eauto | exact H2].
      * intros [(c0 & [= <-] & H) H2]. tauto.
  - destruct lm as [|c lm]; [discriminate|]. cbn [app].
    rewrite !wf_kids_cons. rewrite IH by (simpl in Hl; lia). tauto.
Qed.

Lemma wf_kids_seg (lo hi : Z) (k1 km k2 : list Z) (l1 lm l2 : list tree) :
  length l1 = length k1 -> length lm = S (length km) ->
  wf_kids W lo (k1 ++ km ++ k2) hi (l1 ++ lm ++ l2) <->
  wf_pre W lo k1 l1 /\ wf_kids W (lbound lo k1) km (ubound hi k2) lm /\ wf_tail W k2 hi l2.
Proof.
  revert lo l1. induction k1 as [|k k1 IH]; intros lo l1 H1 Hm.
  - destruct l1; [|discriminate]. cbn [app wf_pre lbound].
    rewrite wf_kids_seg0 by exact Hm. tauto.
  - destruct l1 as [|c l1]; [discriminate|]. cbn [app wf_pre].
    destruct lm as [|cm lm]; [discriminate|].
    replace ((c :: l1) ++ (cm :: lm) ++ l2) with (c :: (l1 ++ (cm :: lm) ++ l2)) by reflexivity.
    rewrite wf_kids_cons, IH by (simpl in *; lia).
    cbn [lbound]. tauto.
Qed.

(** A run of children can be exchanged for another run over the same key
    range. *)
Lemma wf_kids_replace (lo hi : Z) (k1 km k2 km' : list Z) (l1 lm l2 lm' : list tree) :
  length l1 = length k1 -> length lm = S (length km) ->
  wf_kids W lo (k1 ++ km ++ k2) hi (l1 ++ lm ++ l2) ->
  wf_kids W (lbound lo k1) km' (ubound hi k2) lm' ->
  wf_kids W lo (k1 ++ km' ++ k2) hi (l1 ++ lm' ++ l2).
Proof.
  intros H1 Hm H H'. apply wf_kids_seg in H; [|exact H1|exact Hm].
  apply wf_kids_seg; [exact H1 | now apply wf_kids_length in H' |]. tauto.
Qed.

Lemma wf_kids_lt (lo hi : Z) (keys : list Z) (kids : list tree) :
  wf_kids W lo keys hi kids -> lo < hi.
Proof.
  revert lo kids. induction keys as [|k keys IH]; intros lo kids H.
  - apply wf_kids_nil in H. destruct H as (c & -> & H). now apply W_lt in H.
  - apply wf_kids_cons_inv in H. destruct H as (c & kids' & -> & H1 & H2).
    apply W_lt in H1. apply IH in H2. lia.
Qed.

(** The separators are ascending and strictly inside the range. *)
Lemma wf_kids_keys (lo hi : Z) (keys : list Z) (kids : list tree) :
  wf_kids W lo keys hi kids ->
  ascending keys /\ Forall (fun k => lo < k < hi) keys.
Proof.
  revert lo kids. induction keys as [|k keys IH]; intros lo kids H.
  - split; [exact I | constructor].
  - apply wf_kids_cons_inv in H. destruct H as (c & kids' & -> & Hc & Hk).
    pose proof (W_lt _ _ _ Hc) as Hlt. pose proof (wf_kids_lt _ _ _ _ Hk) as Hlt'.
    destruct (IH _ _ Hk) as [Ha Hf]. split.
    + apply ascending_cons. split; [exact Ha|]. intros y Hy.
      rewrite Forall_forall in Hf. apply Hf in Hy. lia.
    + constructor; [lia|]. eapply Forall_impl; [exact Hf|]. simpl. intros; lia.
Qed.

(** Every child sits in a range inside the range of its parent. *)
Lemma wf_kids_in (lo hi : Z) (keys : list Z) (kids : list tree) (c : tree) :
  wf_kids W lo keys hi kids -> c ∈ kids ->
  exists a b, lo <= a /\ b <= hi /\ W a b c.
Proof.
  revert lo kids. induction keys as [|k keys IH]; intros lo kids H Hin.
  - apply wf_kids_nil in H. destruct H as (c0 & -> & H).
    apply list_elem_of_singleton in Hin. subst. exists lo, hi. repeat split; auto; lia.
  - apply wf_kids_cons_inv in H. destruct H as (c0 & kids' & -> & Hc & Hk).
    apply elem_of_cons in Hin. destruct Hin as [->|Hin].
    + exists lo, k. repeat split; auto; try lia.
      apply wf_kids_lt in Hk. lia.
    + destruct (IH _ _ Hk Hin) as (a & b & Ha & Hb & HW).
      exists a, b. repeat split; auto. apply W_lt in Hc. lia.
Qed.

Lemma wf_kids_Forall (P : tree -> Prop) (lo hi : Z) (keys : list Z) (kids : list tree) :
  (forall a b c, W a b c -> P c) -> wf_kids W lo keys hi kids -> Forall P kids.
Proof.
  intros HP H. apply Forall_forall. intros c Hc.
  destruct (wf_kids_in _ _ _ _ _ H Hc) as (a & b & _ & _ & HW). eauto.
Qed.

Lemma wf_pre_length (lo : Z) (k1 : list Z) (l1 : list tree) :
  wf_pre W lo k1 l1 -> length l1 = length k1.
Proof.
  revert lo l1. induction k1 as [|k k1 IH]; intros lo [|c l1]; cbn [wf_pre]; try tauto.
  intros [_ H]. apply IH in H. simpl. lia.
Qed.

Lemma wf_pre_lbound (lo : Z) (k1 : list Z) (l1 : list tree) :
  wf_pre W lo k1 l1 -> lo <= lbound lo k1.
Proof.
  revert lo l1. induction k1 as [|k k1 IH]; intros lo [|c l1]; cbn [wf_pre lbound]; try tauto; try lia.
  intros [Hc H]. apply IH in H. apply W_lt in Hc. lia.
Qed.

Lemma wf_pre_in (lo : Z) (k1 : list Z) (l1 : list tree) (c : tree) :
  wf_pre W lo k1 l1 -> c ∈ l1 ->
  exists a b, lo <= a /\ b <= lbound lo k1 /\ W a b c.
Proof.
  revert lo l1. induction k1 as [|k k1 IH]; intros lo [|c0 l1]; cbn [wf_pre lbound]; try tauto.
  - intros _ H. apply elem_of_nil in H. contradiction.
  - intros [Hc H] Hin. apply elem_of_cons in Hin. destruct Hin as [->|Hin].
    + exists lo, k. split; [lia|]. split; [|exact Hc]. eapply wf_pre_lbound, H.
    + destruct (IH _ _ H Hin) as (a & b & Ha & Hb & HW). exists a, b.
      apply W_lt in Hc. repeat split; auto; lia.
Qed.

Lemma wf_tail_ubound (k2 : list Z) (hi : Z) (l2 : list tree) :
  wf_tail W k2 hi l2 -> ubound hi k2 <= hi.
Proof.
  destruct k2 as [|k k2]; cbn [wf_tail ubound hd]; [lia|].
  intros H. apply wf_kids_lt in H. lia.
Qed.

Lemma wf_tail_in (k2 : list Z) (hi : Z) (l2 : list tree) (c : tree) :
  wf_tail W k2 hi l2 -> c ∈ l2 ->
  exists a b, ubound hi k2 <= a /\ b <= hi /\ W a b c.
Proof.
  destruct k2 as [|k k2]; cbn [wf_tail ubound hd].
  - intros -> H. apply elem_of_nil in H. contradiction.
  - intros H Hin. exact (wf_kids_in _ _ _ _ _ H Hin).
Qed.

Lemma wf_tail_length (k2 : list Z) (hi : Z) (l2 : list tree) :
  wf_tail W k2 hi l2 -> length l2 = length k2.
Proof.
  destruct k2 as [|k k2]; cbn [wf_tail].
  - now intros ->.
  - intros H. apply wf_kids_length in H. simpl. lia.
Qed.

End Kids.

Lemma wf_kids_impl (W W' : Z -> Z -> tree -> Prop) (lo hi : Z) (keys : list Z) (kids : list tree) :
  (forall a b c, W a b c -> W' a b c) -> wf_kids W lo keys hi kids -> wf_kids W' lo keys hi kids.
Proof.
  intros HW. revert lo kids. induction keys as [|k keys IH]; intros lo kids H.
  - apply wf_kids_nil in H. destruct H as (c & -> & H). apply wf_kids_nil. eauto.
  - apply wf_kids_cons_inv in H. destruct H as (c & kids' & -> & H1 & H2).
    apply wf_kids_cons. split; [now apply HW | now apply IH].
Qed.

(** ** Bounds at a child index *)

Lemma lbound_take (lo : Z) (keys : list Z) (i : nat) :
  (i <= length keys)%nat ->
  lbound lo (take i keys) = match i with O => lo | S j => nth j keys 0 end.
Proof.
  revert lo i. induction keys as [|k keys IH]; intros lo i Hi.
  - destruct i; [reflexivity | simpl in Hi; lia].
  - destruct i as [|i]; [reflexivity|]. cbn [take lbound].
    rewrite IH by (simpl in Hi; lia). destruct i; reflexivity.
Qed.

Lemma ubound_drop (hi : Z) (keys : list Z) (i : nat) :
  ubound hi (drop i keys) = if (i <? length keys)%nat then nth i keys 0 else hi.
Proof.
  unfold ubound. destruct (Nat.ltb_spec i (length keys)) as [H|H].
  - destruct (drop i keys) as [|k r] eqn:E.
    + apply (f_equal length) in E. rewrite length_drop in E. simpl in E. lia.
    + cbn [hd]. rewrite <- (Nat.add_0_r i). rewrite <- (nth_drop keys i 0 0). now rewrite E.
  - now rewrite drop_ge by lia.
Qed.

(** ** The leaf chain *)

Lemma linked_cons (l : Z * list (Z * list Z) * Z) (ls : list (Z * list (Z * list Z) * Z)) (nxt : Z) :
  ls <> [] -> linked (l :: ls) nxt <-> snd l = first_off ls /\ linked ls nxt.
Proof.
  intros Hne. destruct l as [[o r] n]. cbn [linked].
  destruct ls as [|[[o' r'] n'] ls']; [contradiction|]. reflexivity.
Qed.

Lemma linked_app (l1 l2 : list (Z * list (Z * list Z) * Z)) (nxt : Z) :
  l2 <> [] -> linked (l1 ++ l2) nxt <-> linked l1 (first_off l2) /\ linked l2 nxt.
Proof.
  intros Hne. induction l1 as [|l l1 IH].
  - simpl. tauto.
  - cbn [app]. destruct l1 as [|l' l1'].
    + cbn [app]. rewrite linked_cons by exact Hne. destruct l as [[o r] n]. simpl. tauto.
    + rewrite linked_cons by discriminate. rewrite IH.
      rewrite (linked_cons l (l' :: l1')) by discriminate.
      destruct l' as [[o' r'] n']. simpl. tauto.
Qed.

Lemma first_off_app (l1 l2 : list (Z * list (Z * list Z) * Z)) :
  l1 <> [] -> first_off (l1 ++ l2) = first_off l1.
Proof. destruct l1; [contradiction | reflexivity]. Qed.

Lemma chain_pres_refl (ls : list (Z * list (Z * list Z) * Z)) : ls <> [] -> chain_pres ls ls.
Proof. intros H. repeat split; auto. Qed.

Lemma chain_pres_ctx (a b ls ls' : list (Z * list (Z * list Z) * Z)) :
  ls <> [] -> chain_pres ls ls' -> chain_pres (a ++ ls ++ b) (a ++ ls' ++ b).
Proof.
  intros Hne (Hne' & Hf & Hl).
  assert (Hmid : forall nxt, linked (ls ++ b) nxt -> linked (ls' ++ b) nxt).
  { intros nxt. destruct b as [|x b].
    - rewrite !app_nil_r. apply Hl.
    - rewrite !linked_app by discriminate. intros [H1 H2]. split; auto. }
  assert (Hfm : first_off (ls' ++ b) = first_off (ls ++ b))
    by (rewrite !first_off_app by assumption; exact Hf).
  repeat split.
  - destruct a; [destruct ls'; [contradiction | discriminate] | discriminate].
  - destruct a as [|x a]; [exact Hfm | reflexivity].
  - intros nxt.
    rewrite (linked_app a (ls ++ b)) by (destruct ls; [contradiction | discriminate]).
    rewrite (linked_app a (ls' ++ b)) by (destruct ls'; [contradiction | discriminate]).
    rewrite Hfm. intros [H1 H2]. split; auto.
Qed.

Lemma chain_pres_trans (l1 l2 l3 : list (Z * list (Z * list Z) * Z)) :
  chain_pres l1 l2 -> chain_pres l2 l3 -> chain_pres l1 l3.
Proof.
  intros (H1 & H2 & H3) (H4 & H5 & H6). repeat split; auto. congruence.
Qed.

End OrderFacts.


(** * Pins, unpins and the page allocator *)

Module StateFacts.
Import Tree TreeSpec.

Lemma run_bind {A B : Type} (m : M A) (k : A -> M B) (st st' : BPlusTree) (a : A) :
  m st = (Ok a, st') -> (mbind k m) st = k a st'.
Proof. intros H. unfold mbind, M_bind, bind. now rewrite H. Qed.

Lemma run_bind_fail {A B : Type} (m : M A) (k : A -> M B) (st st' : BPlusTree) (r : result A) :
  m st = (r, st') -> is_ok r = false ->
  exists r' : result B, (mbind k m) st = (r', st') /\ is_ok r' = false /\
                        (forall e, r = Throw e -> r' = Throw e).
Proof.
  intros H Hr. unfold mbind, M_bind, bind. rewrite H.
  destruct r; try discriminate; eexists; repeat split; try reflexivity; congruence.
Qed.

Lemma page_boundary_ge (off : Z) : page_boundary off = true -> PAGE_SIZE <= off.
Proof. unfold page_boundary. intros H. apply andb_prop in H. lia. Qed.

Lemma page_boundary_next (off : Z) :
  page_boundary off = true -> page_boundary (off + PAGE_SIZE) = true.
Proof.
  unfold page_boundary, PAGE_SIZE. intros H. apply andb_prop in H. destruct H as [H1 H2].
  apply andb_true_intro. split; [lia|].
  apply Z.eqb_eq in H2. apply Z.eqb_eq.
  rewrite <- Z.add_mod_idemp_l by lia. now rewrite H2.
Qed.

(** ** Pins *)

Lemma page_at_Some (st : BPlusTree) (off : Z) (p : page) :
  pages st !! off = Some p -> page_at st off = p.
Proof. intros H. unfold page_at. now rewrite H. Qed.

Lemma PinPage_valid (st : BPlusTree) (off : Z) :
  valid st off -> PinPage off st = (Ok (page_at st off), st).
Proof.
  intros [Hb Hs]. unfold PinPage. pose proof (page_boundary_ge _ Hb) as Hge.
  unfold PAGE_SIZE in *.
  destruct (Z.ltb_spec off 0); [lia|].
  destruct (Z.ltb_spec (file_size st) (off + 4096)); [lia|].
  now rewrite Hb.
Qed.

Lemma PinLeaf_valid (st : BPlusTree) (off : Z) (l : LeafPage.t) :
  valid st off -> pages st !! off = Some (PLeaf l) -> PinLeaf off st = (Ok l, st).
Proof.
  intros Hv Hl. unfold PinLeaf. rewrite (run_bind _ _ _ _ _ (PinPage_valid _ _ Hv)).
  unfold page_at. now rewrite Hl.
Qed.

Lemma PinInternal_valid (st : BPlusTree) (off : Z) (n : InternalPage.t) :
  valid st off -> pages st !! off = Some (PInternal n) -> PinInternal off st = (Ok n, st).
Proof.
  intros Hv Hl. unfold PinInternal. rewrite (run_bind _ _ _ _ _ (PinPage_valid _ _ Hv)).
  unfold page_at. now rewrite Hl.
Qed.

Lemma UnpinPage_dirty (st : BPlusTree) (off : Z) (p : page) :
  UnpinPage off p true st = (Ok tt, write st off p).
Proof. reflexivity. Qed.

Lemma UnpinPage_clean (st : BPlusTree) (off : Z) (p : page) :
  UnpinPage off p false st = (Ok tt, st).
Proof. reflexivity. Qed.

Lemma valid_write (st : BPlusTree) (off o : Z) (p : page) :
  valid (write st off p) o <-> valid st o.
Proof. reflexivity. Qed.

Lemma pages_write (st : BPlusTree) (off : Z) (p : page) :
  pages (write st off p) = <[off := p]> (pages st).
Proof. reflexivity. Qed.

Lemma lookup_write_same (st : BPlusTree) (off : Z) (p : page) :
  pages (write st off p) !! off = Some p.
Proof. unfold write. simpl. apply lookup_insert_eq. Qed.

Lemma lookup_write_other (st : BPlusTree) (off o : Z) (p : page) :
  o <> off -> pages (write st off p) !! o = pages st !! o.
Proof. intros H. unfold write. simpl. now apply lookup_insert_ne. Qed.

(** ** Frames *)

Lemma frame_refl (fr : list Z) (st : BPlusTree) : frame fr st st.
Proof. intros o _. reflexivity. Qed.

Lemma frame_trans (fr : list Z) (st1 st2 st3 : BPlusTree) :
  frame fr st1 st2 -> frame fr st2 st3 -> frame fr st1 st3.
Proof. intros H1 H2 o Ho. rewrite H2, H1; auto. Qed.

Lemma frame_sub (fr fr' : list Z) (st st' : BPlusTree) :
  (forall o, o ∈ fr' -> o ∈ fr) -> frame fr st st' -> frame fr' st st'.
Proof. intros Hs H o Ho. apply H, Hs, Ho. Qed.

Lemma frame_write (fr : list Z) (st : BPlusTree) (off : Z) (p : page) :
  off ∉ fr -> frame fr st (write st off p).
Proof.
  intros Hn o Ho. apply lookup_write_other. intros ->. contradiction.
Qed.

(** ** The allocator *)

Lemma free_list_frame (ps ps' : gmap Z page) (fl : list Z) (head : Z) :
  (forall o, o ∈ fl -> ps' !! o = ps !! o) ->
  free_list ps head fl -> free_list ps' head fl.
Proof.
  revert head. induction fl as [|off fl IH]; intros head Hf; cbn [free_list]; [auto|].
  intros (-> & next & Hn & Hr). split; [reflexivity|].
  exists next. split.
  - rewrite Hf; [exact Hn | apply list_elem_of_here].
  - apply IH; [|exact Hr]. intros o Ho. apply Hf. now apply list_elem_of_further.
Qed.

Lemma alloc_inv_valid (st : BPlusTree) (used : list Z) (off : Z) :
  alloc_inv st used -> off ∈ used -> valid st off.
Proof.
  intros [_ Hu [_ Hf] _] Hin. destruct (Hu _ Hin) as [Hb Hn]. split; [exact Hb | lia].
Qed.

Lemma alloc_inv_sub (st : BPlusTree) (used used' : list Z) :
  (forall o, o ∈ used' -> o ∈ used) -> alloc_inv st used -> alloc_inv st used'.
Proof.
  intros Hs [(fl & H1 & H2 & H3 & H4) Hu Hf Hm]. constructor; auto.
  exists fl. split; [exact H1|]. split; [exact H2|]. split; [|exact H4].
  intros off Ho Hin. exact (H3 _ Ho (Hs _ Hin)).
Qed.

Lemma alloc_inv_write (st : BPlusTree) (used : list Z) (off : Z) (p : page) :
  alloc_inv st used -> off ∈ used -> alloc_inv (write st off p) used.
Proof.
  intros [(fl & H1 & H2 & H3 & H4) Hu Hf Hm] Hin. constructor; auto.
  exists fl. split; [|split; [exact H2|split; [exact H3|exact H4]]].
  eapply free_list_frame; [|exact H1]. intros o Ho. cbn.
  apply lookup_insert_ne. intros ->. exact (H3 _ Ho Hin).
Qed.

Lemma alloc_inv_set_root (st : BPlusTree) (used : list Z) (r : Z) :
  alloc_inv st used -> alloc_inv (set_root_offset_ st r) used.
Proof. intros [H1 H2 H3 H4]. constructor; auto. Qed.

Lemma grown_size_ge (fs req : Z) : req <= Disk.grown_size fs req.
Proof.
  unfold Disk.grown_size, PAGE_SIZE.
  assert (Hup : forall x, x <= (x + 4096 - 1) / 4096 * 4096).
  { intros x. pose proof (Z.div_mod (x + 4096 - 1) 4096 ltac:(lia)).
    pose proof (Z.mod_pos_bound (x + 4096 - 1) 4096 ltac:(lia)). lia. }
  pose proof (Hup req).
  pose proof (Hup (Z.max ((req + 4096 - 1) / 4096 * 4096) (Z.max (fs * 2) (Z.shiftl 1 20)))).
  lia.
Qed.

(** [AllocPage] hands out a zeroed page that was not in use. *)
Lemma AllocPage_spec (st : BPlusTree) (used : list Z) :
  alloc_inv st used ->
  exists off st',
    AllocPage st = (Ok off, st') /\ (off ∉ used) /\
    pages st' = <[off := zero_page]> (pages st) /\
    root_offset_ st' = root_offset_ st /\
    alloc_inv st' (off :: used).
Proof.
  intros [(fl & H1 & H2 & H3 & H4) Hu [Hfb Hfs] Hm].
  unfold AllocPage.
  destruct fl as [|head fl].
  - (* frontier *)
    cbn [free_list] in H1.
    eexists (meta_next st), _. split.
    + erewrite run_bind; [reflexivity|].
      unfold AllocatePage. rewrite H1.
      change (INVALID_PAGE_ID =? INVALID_PAGE_ID) with true. cbn [negb]. rewrite Hfb. reflexivity.
    + cbn. split; [|split; [reflexivity|split; [reflexivity|]]].
      * intros Hin. apply Hu in Hin. unfold PAGE_SIZE in *. lia.
      * constructor; cbn.
        -- exists []. cbn [free_list]. split; [first [exact H1 | reflexivity]|]. split; [apply NoDup_nil_2|].
           split; intros off Ho; apply elem_of_nil in Ho; contradiction.
        -- intros off Ho. apply elem_of_cons in Ho. destruct Ho as [->|Ho].
           ++ split; [exact Hfb | lia].
           ++ apply Hu in Ho. unfold PAGE_SIZE in *. split; [tauto | lia].
        -- split; [now apply page_boundary_next|].
           destruct (Z.leb_spec (meta_next st + PAGE_SIZE) (file_size st)); [lia|].
           apply grown_size_ge.
        -- reflexivity.
  - (* reclaim the head of the free list *)
    cbn [free_list] in H1. destruct H1 as (Hh & next & Hp & Hr).
    destruct (H4 head ltac:(apply list_elem_of_here)) as [Hb Hn].
    pose proof (page_boundary_ge _ Hb) as Hge.
    apply NoDup_cons in H2. destruct H2 as [Hnh Hnd].
    eexists head, _. split.
    + erewrite run_bind; [reflexivity|].
      unfold AllocatePage. rewrite Hh, Hb, Hp.
      unfold PAGE_SIZE, INVALID_PAGE_ID in *.
      destruct (Z.eqb_spec head (-1)); [lia|]. cbn [negb].
      destruct (Z.leb_spec 0 head); [|lia].
      destruct (Z.leb_spec (head + 4096) (file_size st)); [|lia].
      reflexivity.
    + cbn. split; [|split; [reflexivity|split; [reflexivity|]]].
      * apply H3, list_elem_of_here.
      * constructor; cbn.
        -- exists fl. split; [|split; [exact Hnd|split]].
           ++ eapply free_list_frame; [|exact Hr]. intros o Ho.
              apply lookup_insert_ne. intros ->. contradiction.
           ++ intros off Ho Hin. apply elem_of_cons in Hin. destruct Hin as [->|Hin].
              ** contradiction.
              ** exact (H3 off ltac:(now apply list_elem_of_further) Hin).
           ++ intros off Ho. apply H4. now apply list_elem_of_further.
        -- intros off Ho. apply elem_of_cons in Ho. destruct Ho as [->|Ho].
           ++ split; [exact Hb | lia].
           ++ now apply Hu.
        -- split; assumption.
        -- reflexivity.
Qed.

(** [DeallocPage] returns a page in use to the free list. *)
Lemma DeallocPage_spec (st : BPlusTree) (used : list Z) (off : Z) :
  alloc_inv st (off :: used) -> off ∉ used ->
  exists st',
    DeallocPage off st = (Ok tt, st') /\
    pages st' = <[off := PFree (meta_free st)]> (pages st) /\
    root_offset_ st' = root_offset_ st /\
    alloc_inv st' used.
Proof.
  intros [(fl & H1 & H2 & H3 & H4) Hu [Hfb Hfs] Hm] Hnu.
  destruct (Hu off ltac:(apply list_elem_of_here)) as [Hb Hn].
  pose proof (page_boundary_ge _ Hb) as Hge.
  assert (Hnf : off ∉ fl) by (intros Hin; exact (H3 _ Hin ltac:(apply list_elem_of_here))).
  eexists. split.
  - unfold DeallocPage. rewrite Hb.
    destruct (Z.ltb_spec off PAGE_SIZE); [lia|].
    destruct (Z.leb_spec (off + PAGE_SIZE) (file_size st)); [|lia].
    reflexivity.
  - cbn. split; [reflexivity|]. split; [reflexivity|].
    constructor; cbn.
    + exists (off :: fl). cbn [free_list]. split; [|split; [|split]].
      * split; [reflexivity|].
        exists (meta_free st). split; [apply lookup_insert_eq|].
        eapply free_list_frame; [|exact H1]. intros o Ho.
        apply lookup_insert_ne. intros ->. contradiction.
      * apply NoDup_cons. split; assumption.
      * intros o Ho. apply elem_of_cons in Ho. destruct Ho as [->|Ho]; [exact Hnu|].
        intros Hin. exact (H3 _ Ho ltac:(now apply list_elem_of_further)).
      * intros o Ho. apply elem_of_cons in Ho. destruct Ho as [->|Ho].
        -- split; assumption.
        -- now apply H4.
    + intros o Ho. apply Hu. now apply list_elem_of_further.
    + split; assumption.
    + exact Hm.
Qed.

(** The same, with the pages in use given by membership. *)
Lemma DeallocPage_mem (st : BPlusTree) (used : list Z) (off : Z) :
  alloc_inv st used -> off ∈ used ->
  exists st',
    DeallocPage off st = (Ok tt, st') /\
    pages st' = <[off := PFree (meta_free st)]> (pages st) /\
    root_offset_ st' = root_offset_ st /\
    file_size st' = file_size st /\
    forall used', (forall o, o ∈ used' -> o ∈ used /\ o <> off) -> alloc_inv st' used'.
Proof.
  intros Ha Hin.
  set (rest := List.filter (fun o => negb (o =? off)) used).
  assert (Hrest : forall o, o ∈ rest <-> o ∈ used /\ o <> off).
  { intros o. unfold rest. rewrite !list_elem_of_In, filter_In.
    rewrite negb_true_iff, Z.eqb_neq. reflexivity. }
  assert (Ha' : alloc_inv st (off :: rest)).
  { eapply alloc_inv_sub; [|exact Ha]. intros o Ho. apply elem_of_cons in Ho.
    destruct Ho as [->|Ho]; [exact Hin | now apply Hrest in Ho]. }
  destruct (DeallocPage_spec st rest off Ha') as (st' & Hrun & Hps & Hroot & Ha'').
  { intros H. apply Hrest in H. tauto. }
  exists st'. split; [exact Hrun|]. split; [exact Hps|]. split; [exact Hroot|]. split.
  - unfold DeallocPage in Hrun.
    destruct (off <? PAGE_SIZE); [now injection Hrun as <-|].
    destruct ((off + PAGE_SIZE <=? file_size st) && page_boundary off);
      [now injection Hrun as <- | discriminate].
  - intros used' Hu. eapply alloc_inv_sub; [|exact Ha'']. intros o Ho. apply Hrest. auto.
Qed.

Lemma WriteMetadata_spec (st : BPlusTree) (used : list Z) :
  alloc_inv st used ->
  exists st',
    WriteMetadata st = (Ok tt, st') /\ pages st' = pages st /\
    root_offset_ st' = root_offset_ st /\ alloc_inv st' used.
Proof.
  intros [H1 H2 H3 H4]. eexists. split; [reflexivity|]. cbn.
  split; [reflexivity|]. split; [reflexivity|].
  constructor; cbn; rewrite ?H4; auto.
Qed.

Lemma alloc_check_sound (st : BPlusTree) (used : list Z) :
  alloc_check st used = true -> alloc_inv st used.
Proof.
  unfold alloc_check. intros H.
  repeat (apply andb_prop in H; destruct H as [H ?]).
  constructor.
  - exists []. cbn [free_list]. split; [lia|]. split; [apply NoDup_nil_2|].
    split; intros off Ho; apply elem_of_nil in Ho; contradiction.
  - intros off Ho. rewrite forallb_forall in H0. apply list_elem_of_In in Ho.
    apply H0 in Ho. apply andb_prop in Ho. destruct Ho. split; [assumption | lia].
  - split; [assumption | lia].
  - lia.
Qed.

End StateFacts.


(** * Trees and the pages that hold them *)

Module GhostFacts.
Import Tree TreeSpec SlotsFacts LeafFacts InternalFacts OrderFacts StateFacts.

(** ** Offsets, leaves and records of trees side by side *)

Lemma offsets_of_app (l1 l2 : list tree) : offsets_of (l1 ++ l2) = offsets_of l1 ++ offsets_of l2.
Proof. unfold offsets_of. now rewrite map_app, concat_app. Qed.

Lemma offsets_of_cons (t : tree) (l : list tree) : offsets_of (t :: l) = offsets t ++ offsets_of l.
Proof. reflexivity. Qed.

Lemma leaves_of_app (l1 l2 : list tree) : leaves_of (l1 ++ l2) = leaves_of l1 ++ leaves_of l2.
Proof. unfold leaves_of. now rewrite map_app, concat_app. Qed.

Lemma leaves_of_cons (t : tree) (l : list tree) : leaves_of (t :: l) = leaves t ++ leaves_of l.
Proof. reflexivity. Qed.

Lemma records_in_app (l1 l2 : list tree) : records_in (l1 ++ l2) = records_in l1 ++ records_in l2.
Proof. unfold records_in. now rewrite map_app, concat_app. Qed.

Lemma records_in_cons (t : tree) (l : list tree) : records_in (t :: l) = records t ++ records_in l.
Proof. reflexivity. Qed.

Lemma records_of_app (l1 l2 : list (Z * list (Z * list Z) * Z)) :
  records_of (l1 ++ l2) = records_of l1 ++ records_of l2.
Proof. unfold records_of. now rewrite map_app, concat_app. Qed.

Lemma records_of_leaves_of (ts : list tree) : records_of (leaves_of ts) = records_in ts.
Proof.
  induction ts as [|t ts IH]; [reflexivity|].
  rewrite leaves_of_cons, records_of_app, IH. reflexivity.
Qed.

Lemma records_Node (off : Z) (keys : list Z) (kids : list tree) :
  records (Node off keys kids) = records_in kids.
Proof. apply records_of_leaves_of. Qed.

Lemma records_Leaf (off : Z) (recs : list (Z * list Z)) (next : Z) :
  records (Leaf off recs next) = recs.
Proof. unfold records, records_of. simpl. apply app_nil_r. Qed.

Lemma offsets_Node (off : Z) (keys : list Z) (kids : list tree) :
  offsets (Node off keys kids) = off :: offsets_of kids.
Proof. reflexivity. Qed.

Lemma leaves_Node (off : Z) (keys : list Z) (kids : list tree) :
  leaves (Node off keys kids) = leaves_of kids.
Proof. reflexivity. Qed.

Lemma elem_of_concat_map {A B : Type} (f : A -> list B) (l : list A) (x : B) :
  x ∈ concat (map f l) <-> exists a, a ∈ l /\ x ∈ f a.
Proof.
  induction l as [|a l IH]; cbn [map concat].
  - split; [intros H; apply elem_of_nil in H; contradiction|].
    intros (a & H & _). apply elem_of_nil in H. contradiction.
  - rewrite elem_of_app, IH. split.
    + intros [H|(b & Hb & H)]; [exists a | exists b]; split; auto.
      * apply list_elem_of_here.
      * now apply list_elem_of_further.
    + intros (b & Hb & H). apply elem_of_cons in Hb. destruct Hb as [->|Hb]; eauto.
Qed.

Lemma elem_of_offsets_of (ts : list tree) (o : Z) :
  o ∈ offsets_of ts <-> exists t, t ∈ ts /\ o ∈ offsets t.
Proof.
  apply elem_of_concat_map.
Qed.

Lemma elem_of_records_in (ts : list tree) (r : Z * list Z) :
  r ∈ records_in ts <-> exists t, t ∈ ts /\ r ∈ records t.
Proof.
  apply elem_of_concat_map.
Qed.

Lemma root_in_offsets (t : tree) : root t ∈ offsets t.
Proof. destruct t; simpl; apply list_elem_of_here. Qed.

(** ** The pages behind a tree *)

Lemma rep_leaf_inv (ps : gmap Z page) (t : tree) :
  rep 0 ps t -> exists off recs next, t = Leaf off recs next /\ leaf_at ps off recs next.
Proof. destruct t; simpl; [eauto | tauto]. Qed.

Lemma rep_node_inv (h : nat) (ps : gmap Z page) (t : tree) :
  rep (S h) ps t ->
  exists off keys kids, t = Node off keys kids /\
                        node_at ps off keys (map root kids) /\ Forall (rep h ps) kids.
Proof. destruct t; simpl; [tauto|]. intros [H1 H2]. eauto 6. Qed.

Lemma leaf_at_frame (ps ps' : gmap Z page) (off : Z) (recs : list (Z * list Z)) (next : Z) :
  ps' !! off = ps !! off -> leaf_at ps off recs next -> leaf_at ps' off recs next.
Proof. intros He (l & H). exists l. now rewrite He. Qed.

Lemma node_at_frame (ps ps' : gmap Z page) (off : Z) (keys kids : list Z) :
  ps' !! off = ps !! off -> node_at ps off keys kids -> node_at ps' off keys kids.
Proof. intros He (l & H). exists l. now rewrite He. Qed.

Lemma rep_frame (h : nat) (ps ps' : gmap Z page) (t : tree) :
  (forall o, o ∈ offsets t -> ps' !! o = ps !! o) -> rep h ps t -> rep h ps' t.
Proof.
  revert t. induction h as [|h IH]; intros t Hf Hr.
  - apply rep_leaf_inv in Hr. destruct Hr as (off & recs & next & -> & Hl).
    simpl. eapply leaf_at_frame; [|exact Hl]. apply Hf. simpl. apply list_elem_of_here.
  - apply rep_node_inv in Hr. destruct Hr as (off & keys & kids & -> & Hn & Hk).
    simpl. split.
    + eapply node_at_frame; [|exact Hn]. apply Hf. simpl. apply list_elem_of_here.
    + rewrite Forall_forall in *. intros c Hc. apply IH; [|now apply Hk].
      intros o Ho. apply Hf. rewrite offsets_Node. apply list_elem_of_further.
      apply elem_of_offsets_of. eauto.
Qed.

Lemma Forall_rep_frame (h : nat) (ps ps' : gmap Z page) (ts : list tree) :
  (forall o, o ∈ offsets_of ts -> ps' !! o = ps !! o) ->
  Forall (rep h ps) ts -> Forall (rep h ps') ts.
Proof.
  intros Hf. rewrite !Forall_forall. intros H t Ht.
  eapply rep_frame; [|now apply H]. intros o Ho. apply Hf, elem_of_offsets_of. eauto.
Qed.

Lemma node_at_kids_nonempty (ps : gmap Z page) (off : Z) (keys kids : list Z) :
  node_at ps off keys kids -> length kids = S (length keys).
Proof.
  intros (n & _ & Hn & <- & <-). rewrite length_kids_view, length_keys_view. reflexivity.
Qed.

Lemma leaves_nonempty (h : nat) (ps : gmap Z page) (t : tree) :
  rep h ps t -> leaves t <> [].
Proof.
  revert t. induction h as [|h IH]; intros t Hr.
  - apply rep_leaf_inv in Hr. destruct Hr as (off & recs & next & -> & Hl). discriminate.
  - apply rep_node_inv in Hr. destruct Hr as (off & keys & kids & -> & Hn & Hk).
    apply node_at_kids_nonempty in Hn. rewrite length_map in Hn.
    destruct kids as [|c kids]; [discriminate|].
    rewrite leaves_Node, leaves_of_cons. apply Forall_cons in Hk. destruct Hk as [Hc _].
    apply IH in Hc. destruct (leaves c); [contradiction | discriminate].
Qed.

Lemma leaves_of_nonempty (h : nat) (ps : gmap Z page) (ts : list tree) :
  ts <> [] -> Forall (rep h ps) ts -> leaves_of ts <> [].
Proof.
  destruct ts as [|t ts]; [contradiction|]. intros _ H.
  apply Forall_cons in H. destruct H as [H _]. apply leaves_nonempty in H.
  rewrite leaves_of_cons. destruct (leaves t); [contradiction | discriminate].
Qed.

(** Every leaf of a tree is a page of the tree and holds what the tree says. *)
Lemma rep_leaves (h : nat) (ps : gmap Z page) (t : tree) :
  rep h ps t ->
  forall o r n, (o, r, n) ∈ leaves t -> o ∈ offsets t /\ leaf_at ps o r n.
Proof.
  revert t. induction h as [|h IH]; intros t Hr o r n Hin.
  - apply rep_leaf_inv in Hr. destruct Hr as (off & recs & next & -> & Hl).
    simpl in Hin. apply list_elem_of_singleton in Hin. injection Hin as -> -> ->.
    split; [apply list_elem_of_here | exact Hl].
  - apply rep_node_inv in Hr. destruct Hr as (off & keys & kids & -> & Hn & Hk).
    rewrite leaves_Node in Hin. unfold leaves_of in Hin.
    apply elem_of_concat_map in Hin. destruct Hin as (c & Hc & Hin).
    rewrite Forall_forall in Hk. destruct (IH c (Hk c Hc) o r n Hin) as [Ho Hl].
    split; [|exact Hl]. rewrite offsets_Node. apply list_elem_of_further.
    apply elem_of_offsets_of. eauto.
Qed.

(** ** Search trees *)

Lemma wf_lt (h : nat) (lmin imin lo hi : Z) (t : tree) : wf h lmin imin lo hi t -> lo < hi.
Proof. destruct h, t; simpl; tauto. Qed.

Lemma wf_mono (h : nat) (lmin imin lmin' imin' lo hi : Z) (t : tree) :
  lmin' <= lmin -> imin' <= imin -> wf h lmin imin lo hi t -> wf h lmin' imin' lo hi t.
Proof.
  intros Hl Hi. destruct h, t; simpl; try tauto.
  - intros (H1 & H2 & H3 & H4). repeat split; auto; lia.
  - intros (H1 & H2 & H3). repeat split; auto; lia.
Qed.

Lemma wf_kids_records (W : Z -> Z -> tree -> Prop) :
  (forall a b c, W a b c ->
     a < b /\ ascending (map fst (records c)) /\ Forall (fun r => a <= fst r < b) (records c)) ->
  forall keys lo hi kids,
    wf_kids W lo keys hi kids ->
    ascending (map fst (records_in kids)) /\ Forall (fun r => lo <= fst r < hi) (records_in kids).
Proof.
  intros HW. assert (W_lt : forall a b c, W a b c -> a < b) by (intros a b c H; now apply HW in H).
  induction keys as [|k keys IH]; intros lo hi kids H.
  - apply wf_kids_nil in H. destruct H as (c & -> & H). apply HW in H.
    rewrite records_in_cons. unfold records_in. simpl. rewrite app_nil_r. tauto.
  - apply wf_kids_cons_inv in H. destruct H as (c & kids' & -> & Hc & Hk).
    pose proof (wf_kids_lt W W_lt _ _ _ _ Hk) as Hlt.
    apply HW in Hc. destruct Hc as (Hab & Ha & Hf).
    destruct (IH _ _ _ Hk) as [Ha' Hf'].
    rewrite records_in_cons, map_app. split.
    + apply ascending_app. split; [exact Ha|]. split; [exact Ha'|].
      intros x y Hx Hy.
      apply list_elem_of_fmap in Hx. destruct Hx as (rx & -> & Hx).
      apply list_elem_of_fmap in Hy. destruct Hy as (ry & -> & Hy).
      rewrite Forall_forall in Hf, Hf'. apply Hf in Hx. apply Hf' in Hy. lia.
    + apply Forall_app. split.
      * eapply Forall_impl; [exact Hf|]. simpl. intros; lia.
      * eapply Forall_impl; [exact Hf'|]. simpl. intros; lia.
Qed.

(** The records of a search tree are in ascending key order, inside the
    range of the tree. *)
Lemma wf_records (h : nat) :
  forall (lmin imin lo hi : Z) (t : tree),
    wf h lmin imin lo hi t ->
    ascending (map fst (records t)) /\ Forall (fun r => lo <= fst r < hi) (records t).
Proof.
  induction h as [|h IH]; intros lmin imin lo hi t H.
  - destruct t; [|simpl in H; tauto]. rewrite records_Leaf. simpl in H. tauto.
  - destruct t; [simpl in H; tauto|]. rewrite records_Node.
    simpl in H. destruct H as (_ & _ & H).
    eapply wf_kids_records; [|exact H].
    intros a b c Hc. split; [eapply wf_lt, Hc | eapply IH, Hc].
Qed.

Lemma wf_records_range (h : nat) (lmin imin lo hi : Z) (t : tree) (r : Z * list Z) :
  wf h lmin imin lo hi t -> r ∈ records t -> lo <= fst r < hi.
Proof.
  intros H Hr. apply wf_records in H. destruct H as [_ H].
  rewrite Forall_forall in H. now apply H.
Qed.

(** ** The child a key belongs to *)

Lemma node_at_page (ps : gmap Z page) (off : Z) (keys kids : list Z) (n : InternalPage.t) :
  node_at ps off keys kids -> ps !! off = Some (PInternal n) ->
  0 <= InternalPage.num_keys n /\ keys_view n = keys /\ kids_view n = kids.
Proof. intros (n' & Hp & H) Hn. rewrite Hn in Hp. injection Hp as <-. exact H. Qed.

Lemma leaf_at_page (ps : gmap Z page) (off : Z) (recs : list (Z * list Z)) (next : Z) (l : LeafPage.t) :
  leaf_at ps off recs next -> ps !! off = Some (PLeaf l) ->
  0 <= LeafPage.num_keys l /\ recs_view l = recs /\ LeafPage.next_leaf l = next.
Proof. intros (n' & Hp & H) Hn. rewrite Hn in Hp. injection Hp as <-. exact H. Qed.

Lemma node_focus (h : nat) (ps : gmap Z page) (off : Z) (keys : list Z) (kids : list tree)
                 (lmin imin lo hi key : Z) (n : InternalPage.t) :
  node_at ps off keys (map root kids) -> ps !! off = Some (PInternal n) ->
  wf (S h) lmin imin lo hi (Node off keys kids) ->
  lo <= key < hi ->
  let i := child_index n key (Z.to_nat (InternalPage.num_keys n)) 0 in
  let lb := lbound lo (take i keys) in
  let ub := ubound hi (drop i keys) in
  exists l1 c l2,
    kids = l1 ++ c :: l2 /\ length l1 = i /\ (i <= length keys)%nat /\
    InternalPage.ChildAt n i = root c /\
    wf h LEAF_MIN_KEYS INTERNAL_MIN_KEYS lb ub c /\
    lb <= key < ub /\ lo <= lb /\ ub <= hi /\
    (forall r, r ∈ records_in l1 -> fst r < lb) /\
    (forall r, r ∈ records_in l2 -> ub <= fst r) /\
    (forall km lm,
        wf_kids (wf h LEAF_MIN_KEYS INTERNAL_MIN_KEYS) lb km ub lm ->
        wf_kids (wf h LEAF_MIN_KEYS INTERNAL_MIN_KEYS) lo (take i keys ++ km ++ drop i keys) hi
                (l1 ++ lm ++ l2)).
Proof.
  intros Hn Hp Hw Hkey i lb ub.
  destruct (node_at_page _ _ _ _ _ Hn Hp) as (Hnk & Hkv & Hcv).
  simpl in Hw. destruct Hw as (Hlh & Hcnt & Hw).
  set (W := wf h LEAF_MIN_KEYS INTERNAL_MIN_KEYS) in *.
  assert (W_lt : forall a b c, W a b c -> a < b) by (intros a b c; apply wf_lt).
  pose proof (wf_kids_length W _ _ _ _ Hw) as Hlen.
  pose proof (length_keys_view n) as Hlk. rewrite Hkv in Hlk.
  destruct (child_index_spec n key (Z.to_nat (InternalPage.num_keys n)) 0) as (Hi & Hle & Hgt).
  fold i in Hi, Hle, Hgt.
  assert (Hil : (i < length kids)%nat) by lia.
  destruct (lookup_lt_is_Some_2 kids i Hil) as [c Hc].
  pose proof (take_drop_middle kids i c Hc) as Hsplit.
  exists (take i kids), c, (drop (S i) kids).
  assert (Hl1 : length (take i kids) = i) by (rewrite length_take; lia).
  assert (Hk1 : length (take i keys) = i) by (rewrite length_take; lia).
  assert (Hseg : wf_kids W lo (take i keys ++ [] ++ drop i keys) hi
                         (take i kids ++ [c] ++ drop (S i) kids)).
  { cbn [app]. rewrite take_drop, Hsplit. exact Hw. }
  pose proof Hseg as Hseg'.
  apply wf_kids_seg in Hseg'; [|congruence|reflexivity].
  destruct Hseg' as (Hpre & Hmid & Htail).
  apply wf_kids_nil in Hmid. destruct Hmid as (c' & [= <-] & Hmid).
  assert (Hlb : lb <= key).
  { unfold lb. rewrite lbound_take by lia. destruct i as [|j] eqn:Ei; [lia|].
    rewrite <- Hkv, nth_keys_view by lia. apply Hle. lia. }
  assert (Hub : key < ub).
  { unfold ub. rewrite ubound_drop. destruct (Nat.ltb_spec i (length keys)); [|lia].
    rewrite <- Hkv, nth_keys_view by lia. apply Hgt. lia. }
  split; [now rewrite Hsplit|]. split; [exact Hl1|]. split; [lia|].
  split.
  { rewrite <- nth_kids_view by lia. rewrite Hcv, <- Hsplit, map_app, app_nth2;
      rewrite length_map, Hl1; [|lia]. now rewrite Nat.sub_diag. }
  split; [exact Hmid|]. split; [lia|].
  split; [eapply wf_pre_lbound; eauto|].
  split; [eapply wf_tail_ubound; eauto|].
  split; [|split].
  - intros r Hr. apply elem_of_records_in in Hr. destruct Hr as (t & Ht & Hr).
    destruct (wf_pre_in W W_lt _ _ _ _ Hpre Ht) as (a & b & Ha & Hb & HW).
    pose proof (wf_records_range _ _ _ _ _ _ _ HW Hr). fold lb in Hb. lia.
  - intros r Hr. apply elem_of_records_in in Hr. destruct Hr as (t & Ht & Hr).
    destruct (wf_tail_in W W_lt _ _ _ _ Htail Ht) as (a & b & Ha & Hb & HW).
    pose proof (wf_records_range _ _ _ _ _ _ _ HW Hr). fold ub in Ha. lia.
  - intros km lm Hnew.
    eapply (wf_kids_replace W); [| |exact Hseg|exact Hnew]; [congruence | reflexivity].
Qed.

(** ** Pages of a node and of the trees around it *)

Lemma offsets_focus (off : Z) (keys : list Z) (l1 lm l2 : list tree) (fr : list Z) :
  offsets (Node off keys (l1 ++ lm ++ l2)) ++ fr ≡ₚ
  offsets_of lm ++ (off :: offsets_of l1 ++ offsets_of l2 ++ fr).
Proof.
  rewrite offsets_Node, !offsets_of_app. solve_Permutation.
Qed.

Lemma alloc_inv_perm (st : BPlusTree) (u u' : list Z) :
  u ≡ₚ u' -> alloc_inv st u -> alloc_inv st u'.
Proof. intros Hp. apply alloc_inv_sub. intros o Ho. now rewrite Hp. Qed.

(** ** Records by key *)

Lemma assoc_Some (key : Z) (recs : list (Z * list Z)) (d : list Z) :
  NoDup (map fst recs) -> (assoc key recs = Some d <-> (key, d) ∈ recs).
Proof.
  induction recs as [|[k v] recs IH]; cbn [assoc map fst].
  - intros _. split; [discriminate | intros H; apply elem_of_nil in H; contradiction].
  - intros Hnd. apply NoDup_cons in Hnd. destruct Hnd as [Hk Hnd].
    destruct (Z.eqb_spec k key) as [->|Hne].
    + split.
      * intros [= ->]. apply list_elem_of_here.
      * intros Hin. apply elem_of_cons in Hin. destruct Hin as [[= ->]|Hin]; [reflexivity|].
        exfalso. apply Hk. apply list_elem_of_fmap. exists (key, d). split; [reflexivity | exact Hin].
    + rewrite IH by exact Hnd. split.
      * intros H. now apply list_elem_of_further.
      * intros Hin. apply elem_of_cons in Hin. destruct Hin as [[= -> ->]|Hin]; [contradiction | exact Hin].
Qed.

Lemma assoc_None (key : Z) (recs : list (Z * list Z)) :
  assoc key recs = None <-> key ∉ map fst recs.
Proof.
  induction recs as [|[k v] recs IH]; cbn [assoc map fst].
  - split; [intros _ H; apply elem_of_nil in H; contradiction | reflexivity].
  - destruct (Z.eqb_spec k key) as [->|Hne].
    + split; [discriminate|]. intros H. exfalso. apply H, list_elem_of_here.
    + rewrite IH. split.
      * intros H Hin. apply elem_of_cons in Hin. destruct Hin as [->|Hin]; [contradiction | auto].
      * intros H Hin. apply H. now apply list_elem_of_further.
Qed.

End GhostFacts.


(** * Search and range queries *)

Module SearchFacts.
Import Tree TreeSpec SlotsFacts LeafFacts InternalFacts OrderFacts StateFacts GhostFacts.

(** ** The descent to a leaf *)

Lemma SearchLeaf_loop_leaf (fuel : nat) (key off : Z) (l : LeafPage.t) (st : BPlusTree) :
  SearchLeaf_loop fuel key off (PLeaf l) st = (Ok off, st).
Proof. destruct fuel; reflexivity. Qed.

Lemma SearchLeaf_loop_spec (h : nat) :
  forall (t : tree) (lmin imin lo hi : Z) (st : BPlusTree) (used : list Z) (key : Z) (fuel : nat),
    rep h (pages st) t -> wf h lmin imin lo hi t -> lo <= key < hi ->
    alloc_inv st used -> (forall o, o ∈ offsets t -> o ∈ used) -> (h <= fuel)%nat ->
    exists off recs next L1 L2,
      SearchLeaf_loop fuel key (root t) (page_at st (root t)) st = (Ok off, st) /\
      leaves t = L1 ++ (off, recs, next) :: L2 /\
      (forall r, r ∈ records_of L1 -> fst r < key) /\
      (forall r, r ∈ records_of L2 -> key < fst r).
Proof.
  induction h as [|h IH]; intros t lmin imin lo hi st used key fuel Hr Hw Hk Ha Hu Hf.
  - apply rep_leaf_inv in Hr. destruct Hr as (off & recs & next & -> & l & Hp & Hl).
    exists off, recs, next, [], []. cbn [root]. rewrite (page_at_Some _ _ _ Hp).
    split; [apply SearchLeaf_loop_leaf|]. split; [reflexivity|].
    split; intros r Hin; apply elem_of_nil in Hin; contradiction.
  - apply rep_node_inv in Hr. destruct Hr as (off & keys & kids & -> & Hn & Hkids).
    destruct Hn as (n & Hp & Hn).
    assert (Hn' : node_at (pages st) off keys (map root kids)) by (exists n; tauto).
    destruct (node_focus h _ _ _ _ _ _ _ _ key n Hn' Hp Hw Hk)
      as (l1 & c & l2 & Hsplit & Hl1 & Hi & Hchild & Hwc & Hkc & Hlo & Hhi & Hr1 & Hr2 & _).
    destruct fuel as [|fuel]; [lia|].
    assert (Hc : rep h (pages st) c).
    { rewrite Forall_forall in Hkids. apply Hkids. rewrite Hsplit.
      apply elem_of_app. right. apply list_elem_of_here. }
    assert (Hoc : forall o, o ∈ offsets c -> o ∈ used).
    { intros o Ho. apply Hu. rewrite offsets_Node, Hsplit, offsets_of_app, offsets_of_cons.
      apply list_elem_of_further. apply elem_of_app. right. apply elem_of_app. now left. }
    destruct (IH c _ _ _ _ st used key fuel Hc Hwc Hkc Ha Hoc ltac:(lia))
      as (loff & recs & next & L1 & L2 & Hrun & Hlv & HL1 & HL2).
    pose proof (alloc_inv_valid _ _ _ Ha (Hoc _ (root_in_offsets c))) as Hv.
    exists loff, recs, next, (leaves_of l1 ++ L1), (L2 ++ leaves_of l2).
    split; [|split; [|split]].
    + cbn [root]. rewrite (page_at_Some _ _ _ Hp). cbn [SearchLeaf_loop].
      rewrite (run_bind _ _ _ _ _ (UnpinPage_clean _ _ _)).
      unfold InternalPage.NumKeys. rewrite Hchild.
      destruct (Z.ltb_spec (root c) PAGE_SIZE) as [Hlt|_].
      { destruct Hv as [Hb _]. apply page_boundary_ge in Hb. lia. }
      rewrite (run_bind _ _ _ _ _ (PinPage_valid _ _ Hv)). exact Hrun.
    + rewrite leaves_Node, Hsplit, leaves_of_app, leaves_of_cons, Hlv.
      rewrite <- !app_assoc. reflexivity.
    + intros r Hin. rewrite records_of_app, records_of_leaves_of in Hin.
      apply elem_of_app in Hin. destruct Hin as [Hin|Hin]; [|now apply HL1].
      apply Hr1 in Hin. lia.
    + intros r Hin. rewrite records_of_app, records_of_leaves_of in Hin.
      apply elem_of_app in Hin. destruct Hin as [Hin|Hin]; [now apply HL2|].
      apply Hr2 in Hin. lia.
Qed.

Lemma SearchLeaf_empty (st : BPlusTree) (fuel : nat) (key : Z) :
  root_offset_ st = INVALID_PAGE_ID -> SearchLeaf fuel key st = (Ok INVALID_PAGE_ID, st).
Proof.
  intros Hroot. unfold SearchLeaf. erewrite run_bind by reflexivity.
  rewrite Hroot. reflexivity.
Qed.

Lemma SearchLeaf_spec (st : BPlusTree) (h : nat) (g : tree) (lo hi key : Z) (fuel : nat) :
  root_offset_ st = root g -> rep h (pages st) g -> wf h 1 1 lo hi g ->
  alloc_inv st (offsets g) -> lo <= key < hi -> (h <= fuel)%nat ->
  exists off recs next L1 L2,
    SearchLeaf fuel key st = (Ok off, st) /\
    leaves g = L1 ++ (off, recs, next) :: L2 /\
    (forall r, r ∈ records_of L1 -> fst r < key) /\
    (forall r, r ∈ records_of L2 -> key < fst r).
Proof.
  intros Hroot Hr Hw Ha Hk Hf.
  destruct (SearchLeaf_loop_spec h g _ _ _ _ st _ key fuel Hr Hw Hk Ha ltac:(auto) Hf)
    as (off & recs & next & L1 & L2 & Hrun & H).
  exists off, recs, next, L1, L2. split; [|exact H].
  unfold SearchLeaf. erewrite run_bind by reflexivity.
  pose proof (alloc_inv_valid _ _ _ Ha (root_in_offsets g)) as Hv.
  rewrite Hroot.
  destruct (Z.eqb_spec (root g) INVALID_PAGE_ID) as [He|_].
  { destruct Hv as [Hb _]. apply page_boundary_ge in Hb.
    unfold PAGE_SIZE, INVALID_PAGE_ID in *. lia. }
  rewrite (run_bind _ _ _ _ _ (PinPage_valid _ _ Hv)). exact Hrun.
Qed.

(** ** Search *)

Lemma leaves_records_split (g : tree) (L1 L2 : list (Z * list (Z * list Z) * Z))
                           (off next : Z) (recs : list (Z * list Z)) :
  leaves g = L1 ++ (off, recs, next) :: L2 ->
  records g = records_of L1 ++ recs ++ records_of L2.
Proof.
  intros H. unfold records. rewrite H, records_of_app. reflexivity.
Qed.

Lemma recs_view_elem (l : LeafPage.t) (i : nat) :
  (i < Z.to_nat (LeafPage.num_keys l))%nat -> LeafPage.GetRecord l i ∈ recs_view l.
Proof.
  intros Hi. rewrite <- nth_recs_view by exact Hi.
  apply list_elem_of_In, nth_In. now rewrite length_recs_view.
Qed.

Lemma KeyAt_elem (l : LeafPage.t) (r : Z * list Z) :
  r ∈ recs_view l ->
  exists i, (i < Z.to_nat (LeafPage.num_keys l))%nat /\ LeafPage.GetRecord l i = r.
Proof.
  intros Hin. apply list_elem_of_In, (In_nth _ _ zero_record) in Hin.
  destruct Hin as (i & Hi & Hn). rewrite length_recs_view in Hi.
  exists i. split; [exact Hi|]. now rewrite <- nth_recs_view.
Qed.

Lemma Search_tree (st : BPlusTree) (h : nat) (g : tree) (key : Z) (fuel : nat) :
  root_offset_ st = root g -> rep h (pages st) g -> wf h 1 1 INT_MIN (INT_MAX + 1) g ->
  alloc_inv st (offsets g) -> is_int key -> (h <= fuel)%nat ->
  Search fuel key st = (Ok (search_result (assoc key (records g))), st).
Proof.
  intros Hroot Hr Hw Ha Hk Hf.
  destruct (SearchLeaf_spec st h g _ _ key fuel Hroot Hr Hw Ha ltac:(unfold is_int in Hk; lia) Hf)
    as (off & recs & next & L1 & L2 & Hrun & Hlv & HL1 & HL2).
  assert (Hin : (off, recs, next) ∈ leaves g).
  { rewrite Hlv. apply elem_of_app. right. apply list_elem_of_here. }
  destruct (rep_leaves _ _ _ Hr _ _ _ Hin) as [Hoff (l & Hp & Hnk & Hrv & Hnx)].
  pose proof (alloc_inv_valid _ _ _ Ha Hoff) as Hv.
  pose proof (leaves_records_split _ _ _ _ _ _ Hlv) as HR.
  destruct (wf_records _ _ _ _ _ _ Hw) as [Hasc _].
  apply ascending_NoDup in Hasc.
  unfold Search. rewrite (run_bind _ _ _ _ _ Hrun).
  destruct (Z.eqb_spec off INVALID_PAGE_ID) as [He|_].
  { destruct Hv as [Hb _]. apply page_boundary_ge in Hb.
    unfold PAGE_SIZE, INVALID_PAGE_ID in *. lia. }
  rewrite (run_bind _ _ _ _ _ (PinLeaf_valid _ _ _ Hv Hp)).
  unfold LeafPage.NumKeys.
  destruct (find_key l key (Z.to_nat (LeafPage.num_keys l)) 0) as [i|] eqn:Efind.
  - apply find_key_Some in Efind. destruct Efind as (Hi & Hkey & _).
    rewrite (run_bind _ _ _ _ _ (UnpinPage_clean _ _ _)).
    assert (Hmem : (key, LeafPage.GetData l i) ∈ records g).
    { rewrite HR. apply elem_of_app. right. apply elem_of_app. left.
      rewrite <- Hrv, <- Hkey. unfold LeafPage.KeyAt, LeafPage.GetData.
      rewrite <- surjective_pairing. apply recs_view_elem. lia. }
    apply assoc_Some in Hmem; [|exact Hasc]. rewrite Hmem. reflexivity.
  - pose proof (find_key_None _ _ _ _ Efind) as Hnone.
    rewrite (run_bind _ _ _ _ _ (UnpinPage_clean _ _ _)).
    assert (Hnot : key ∉ map fst (records g)).
    { intros Hmem. apply list_elem_of_fmap in Hmem. destruct Hmem as (r & Hkr & Hmem).
      rewrite HR in Hmem. apply elem_of_app in Hmem. destruct Hmem as [Hmem|Hmem].
      - apply HL1 in Hmem. lia.
      - apply elem_of_app in Hmem. destruct Hmem as [Hmem|Hmem].
        + rewrite <- Hrv in Hmem. apply KeyAt_elem in Hmem. destruct Hmem as (i & Hi & <-).
          apply (Hnone i); [lia|]. now rewrite Hkr.
        + apply HL2 in Hmem. lia. }
    apply assoc_None in Hnot. rewrite Hnot. reflexivity.
Qed.

Lemma Search_spec (st : BPlusTree) (recs : list (Z * list Z)) :
  tree_holds st recs ->
  exists fuel0, forall fuel key,
    (fuel0 <= fuel)%nat -> is_int key ->
    Search fuel key st = (Ok (search_result (assoc key recs)), st).
Proof.
  intros [Hroot Ha | h g Hroot Hr Hnd Hw Hl Ha].
  - exists O. intros fuel key _ _. unfold Search.
    rewrite (run_bind _ _ _ _ _ (SearchLeaf_empty _ _ _ Hroot)). reflexivity.
  - exists h. intros fuel key Hf Hk. now apply (Search_tree st h g).
Qed.

(** ** Range queries *)

Lemma scan_leaf_view (l : LeafPage.t) (lower upper : Z) (todo i : nat) :
  (i + todo = Z.to_nat (LeafPage.num_keys l))%nat ->
  scan_leaf l lower upper todo i = scan_list lower upper (drop i (recs_view l)).
Proof.
  revert i. induction todo as [|todo IH]; intros i Hn.
  - rewrite drop_ge by (rewrite length_recs_view; lia). reflexivity.
  - assert (Hd : drop i (recs_view l) = LeafPage.GetRecord l i :: drop (S i) (recs_view l)).
    { apply drop_S. unfold recs_view, LeafPage.GetRecord. apply lookup_prefix. lia. }
    rewrite Hd. cbn [scan_leaf scan_list].
    unfold LeafPage.KeyAt, LeafPage.GetData.
    destruct (LeafPage.GetRecord l i) as [k d]. cbn [fst snd].
    rewrite IH by lia. reflexivity.
Qed.

Lemma select_app (lower upper : Z) (r1 r2 : list (Z * list Z)) :
  select lower upper (r1 ++ r2) = select lower upper r1 ++ select lower upper r2.
Proof.
  induction r1 as [|[k d] r1 IH]; [reflexivity|]. cbn [app select].
  destruct ((lower <=? k) && (k <=? upper)); [cbn [app]|]; now rewrite IH.
Qed.

Lemma select_above (lower upper : Z) (recs : list (Z * list Z)) :
  (forall r, r ∈ recs -> upper < fst r) -> select lower upper recs = [].
Proof.
  induction recs as [|[k d] recs IH]; intros H; [reflexivity|]. cbn [select].
  pose proof (H (k, d) ltac:(apply list_elem_of_here)) as Hk. cbn in Hk.
  destruct (Z.leb_spec k upper); [lia|]. rewrite andb_false_r.
  apply IH. intros r Hr. apply H. now apply list_elem_of_further.
Qed.

Lemma select_below (lower upper : Z) (recs : list (Z * list Z)) :
  (forall r, r ∈ recs -> fst r < lower) -> select lower upper recs = [].
Proof.
  induction recs as [|[k d] recs IH]; intros H; [reflexivity|]. cbn [select].
  pose proof (H (k, d) ltac:(apply list_elem_of_here)) as Hk. cbn in Hk.
  destruct (Z.leb_spec lower k); [lia|]. cbn [andb].
  apply IH. intros r Hr. apply H. now apply list_elem_of_further.
Qed.

Lemma scan_list_select (lower upper : Z) (recs rest : list (Z * list Z)) :
  ascending (map fst (recs ++ rest)) ->
  scan_list lower upper recs =
    (if snd (scan_list lower upper recs)
     then select lower upper (recs ++ rest) else select lower upper recs,
     snd (scan_list lower upper recs)).
Proof.
  induction recs as [|[k d] recs IH]; intros Hasc; [reflexivity|].
  cbn [app map fst] in Hasc. apply ascending_cons in Hasc. destruct Hasc as [Hasc Hk].
  cbn [scan_list]. destruct (Z.ltb_spec upper k) as [Hu|Hu].
  - cbn [snd]. rewrite select_above; [reflexivity|].
    intros r Hr. cbn [app] in Hr. apply elem_of_cons in Hr. destruct Hr as [->|Hr]; [exact Hu|].
    assert (k < fst r); [|lia]. apply Hk. apply list_elem_of_fmap. eauto.
  - specialize (IH Hasc). destruct (scan_list lower upper recs) as [found done].
    cbn [snd] in IH. injection IH as IH.
    cbn [app select]. destruct (Z.leb_spec k upper); [|lia]. rewrite andb_true_r.
    destruct (Z.leb_spec lower k); cbn [snd]; destruct done; now rewrite IH.
Qed.

Lemma select_elem (lower upper : Z) (recs : list (Z * list Z)) (k : Z) (v : list Z) :
  (k, v) ∈ select lower upper recs <->
  lower <= k <= upper /\ exists d, (k, d) ∈ recs /\ v = to_string d.
Proof.
  induction recs as [|[k0 d0] recs IH]; cbn [select].
  - split; [intros H; apply elem_of_nil in H; contradiction|].
    intros (_ & d & H & _). apply elem_of_nil in H. contradiction.
  - destruct (Z.leb_spec lower k0); destruct (Z.leb_spec k0 upper); cbn [andb];
      rewrite ?elem_of_cons, IH; split.
    all: try (intros [[= -> ->]|(Hr & d & Hin & ->)];
              [split; [lia|]; exists d0; split; [apply list_elem_of_here | reflexivity]
              |split; [exact Hr|]; exists d; split; [now apply list_elem_of_further | reflexivity]]).
    all: try (intros (Hr & d & Hin & ->); split; [exact Hr|]; exists d;
              split; [now apply list_elem_of_further | reflexivity]).
    all: intros (Hr & d & Hin & ->); apply elem_of_cons in Hin;
      destruct Hin as [[= -> ->]|Hin]; try lia; eauto 6.
Qed.

Lemma select_ascending (lower upper : Z) (recs : list (Z * list Z)) :
  ascending (map fst recs) -> ascending (map fst (select lower upper recs)).
Proof.
  induction recs as [|[k d] recs IH]; [auto|]. cbn [map fst select].
  rewrite ascending_cons. intros [Ha Hk].
  destruct ((lower <=? k) && (k <=? upper)); [|now apply IH].
  cbn [map fst]. apply ascending_cons. split; [now apply IH|].
  intros y Hy. apply list_elem_of_fmap in Hy. destruct Hy as ([k' v] & -> & Hy).
  apply select_elem in Hy. destruct Hy as (_ & d' & Hin & _).
  apply Hk. apply list_elem_of_fmap. exists (k', d'). split; [reflexivity | exact Hin].
Qed.

Lemma RangeQuery_loop_stop (fuel : nat) (lower upper : Z) (acc : list (Z * list Z)) (st : BPlusTree) :
  RangeQuery_loop fuel lower upper INVALID_PAGE_ID acc st = (Ok acc, st).
Proof. destruct fuel; reflexivity. Qed.

Lemma RangeQuery_loop_spec (lower upper : Z) (st : BPlusTree) (L2 : list (Z * list (Z * list Z) * Z)) :
  forall (off : Z) (recs : list (Z * list Z)) (next : Z) (acc : list (Z * list Z)) (fuel : nat),
    linked ((off, recs, next) :: L2) INVALID_PAGE_ID ->
    (forall o r n, (o, r, n) ∈ (off, recs, next) :: L2 -> valid st o /\ leaf_at (pages st) o r n) ->
    ascending (map fst (records_of ((off, recs, next) :: L2))) ->
    (length L2 < fuel)%nat ->
    RangeQuery_loop fuel lower upper off acc st =
      (Ok (acc ++ select lower upper (records_of ((off, recs, next) :: L2))), st).
Proof.
  induction L2 as [|[[o' r'] n'] L2 IH]; intros off recs next acc fuel Hlink Hleaf Hasc Hf.
  all: destruct fuel as [|fuel]; [simpl in Hf; lia|].
  all: destruct (Hleaf off recs next ltac:(apply list_elem_of_here)) as [Hv (l & Hp & Hnk & Hrv & Hnx)].
  all: pose proof (page_boundary_ge _ (proj1 Hv)) as Hge.
  all: cbn [RangeQuery_loop].
  all: destruct (Z.eqb_spec off INVALID_PAGE_ID) as [He|_];
    [unfold PAGE_SIZE, INVALID_PAGE_ID in *; lia|].
  all: destruct (Z.leb_spec PAGE_SIZE off) as [_|Hlt]; [|lia].
  all: cbn [negb andb].
  all: rewrite (run_bind _ _ _ _ _ (PinLeaf_valid _ _ _ Hv Hp)).
  all: unfold LeafPage.NumKeys, LeafPage.NextLeaf.
  all: rewrite scan_leaf_view by lia; rewrite Hrv, Hnx, drop_0.
  all: change (records_of ((off, recs, next) :: ?L)) with (recs ++ records_of L) in *.
  all: rewrite (scan_list_select lower upper recs _ Hasc).
  all: destruct (snd (scan_list lower upper recs)).
  all: rewrite (run_bind _ _ _ _ _ (UnpinPage_clean _ _ _)); try reflexivity.
  - cbn [linked] in Hlink. subst next. rewrite RangeQuery_loop_stop.
    change (records_of []) with (@nil (Z * list Z)). now rewrite app_nil_r.
  - rewrite linked_cons in Hlink by discriminate. destruct Hlink as [Hn Hlink].
    cbn [snd first_off] in Hn. subst next.
    rewrite map_app in Hasc. apply ascending_app in Hasc. destruct Hasc as (_ & Hasc & _).
    rewrite (IH o' r' n' _ fuel Hlink); [| |exact Hasc|simpl in Hf; lia].
    + now rewrite select_app, app_assoc.
    + intros o r n Hin. apply Hleaf. now apply list_elem_of_further.
Qed.

Lemma RangeQuery_tree (st : BPlusTree) (h : nat) (g : tree) (lower upper : Z) (fuel : nat) :
  root_offset_ st = root g -> rep h (pages st) g -> wf h 1 1 INT_MIN (INT_MAX + 1) g ->
  linked (leaves g) INVALID_PAGE_ID ->
  alloc_inv st (offsets g) -> is_int lower -> lower <= upper ->
  (h <= fuel)%nat -> (length (leaves g) <= fuel)%nat ->
  RangeQuery fuel lower upper st = (Ok (OK, select lower upper (records g)), st).
Proof.
  intros Hroot Hr Hw Hlink Ha Hk Hlu Hf Hfl.
  destruct (SearchLeaf_spec st h g _ _ lower fuel Hroot Hr Hw Ha ltac:(unfold is_int in Hk; lia) Hf)
    as (off & recs & next & L1 & L2 & Hrun & Hlv & HL1 & HL2).
  pose proof (leaves_records_split _ _ _ _ _ _ Hlv) as HR.
  destruct (wf_records _ _ _ _ _ _ Hw) as [Hasc _].
  pose proof (alloc_inv_valid _ _ _ Ha (root_in_offsets g)) as Hvr.
  assert (Hin : (off, recs, next) ∈ leaves g).
  { rewrite Hlv. apply elem_of_app. right. apply list_elem_of_here. }
  destruct (rep_leaves _ _ _ Hr _ _ _ Hin) as [Hoff _].
  pose proof (alloc_inv_valid _ _ _ Ha Hoff) as Hv.
  unfold RangeQuery.
  destruct (Z.ltb_spec upper lower); [lia|].
  erewrite run_bind by reflexivity. rewrite Hroot.
  destruct (Z.eqb_spec (root g) INVALID_PAGE_ID) as [He|_].
  { destruct Hvr as [Hb _]. apply page_boundary_ge in Hb.
    unfold PAGE_SIZE, INVALID_PAGE_ID in *. lia. }
  rewrite (run_bind _ _ _ _ _ Hrun).
  destruct (Z.eqb_spec off INVALID_PAGE_ID) as [He|_].
  { destruct Hv as [Hb _]. apply page_boundary_ge in Hb.
    unfold PAGE_SIZE, INVALID_PAGE_ID in *. lia. }
  rewrite Hlv in Hlink. apply linked_app in Hlink; [|discriminate]. destruct Hlink as [_ Hlink].
  erewrite run_bind.
  2: { apply (RangeQuery_loop_spec lower upper st L2 off recs next [] fuel Hlink).
       - intros o r n Ho.
         assert (Hin' : (o, r, n) ∈ leaves g) by (rewrite Hlv; apply elem_of_app; now right).
         destruct (rep_leaves _ _ _ Hr _ _ _ Hin') as [Ho' Hl'].
         split; [eapply alloc_inv_valid; eauto | exact Hl'].
       - rewrite HR, map_app in Hasc. apply ascending_app in Hasc.
         change (records_of ((off, recs, next) :: L2)) with (recs ++ records_of L2). tauto.
       - rewrite Hlv, length_app in Hfl. simpl in Hfl. lia. }
  cbn [app]. rewrite HR, select_app, (select_below _ _ (records_of L1)) by exact HL1.
  reflexivity.
Qed.

Lemma RangeQuery_spec (st : BPlusTree) (recs : list (Z * list Z)) :
  tree_holds st recs ->
  exists fuel0, forall fuel lower upper,
    (fuel0 <= fuel)%nat -> is_int lower -> lower <= upper ->
    RangeQuery fuel lower upper st = (Ok (OK, select lower upper recs), st).
Proof.
  intros [Hroot Ha | h g Hroot Hr Hnd Hw Hl Ha].
  - exists O. intros fuel lower upper _ _ Hlu. unfold RangeQuery.
    destruct (Z.ltb_spec upper lower); [lia|].
    erewrite run_bind by reflexivity. rewrite Hroot. reflexivity.
  - exists (Nat.max h (length (leaves g))). intros fuel lower upper Hf Hk Hlu.
    apply (RangeQuery_tree st h g); auto; lia.
Qed.

End SearchFacts.


(** * Insertion into one page *)

Module InsertPageFacts.
Import Tree TreeSpec SlotsFacts LeafFacts InternalFacts OrderFacts StateFacts GhostFacts.

Lemma lookup_nth {A : Type} (l : list A) (i : nat) (d : A) :
  (i < length l)%nat -> l !! i = Some (nth i l d).
Proof.
  revert i. induction l as [|x l IH]; intros [|i] Hi; simpl in *; try lia; [reflexivity|].
  apply IH. lia.
Qed.

(** ** Positions in ascending lists *)

Lemma lower_bound_spec (recs : list (Z * list Z)) (key : Z) :
  (lower_bound recs key <= length recs)%nat /\
  (forall j, (j < lower_bound recs key)%nat -> fst (nth j recs zero_record) < key) /\
  ((lower_bound recs key < length recs)%nat ->
   key <= fst (nth (lower_bound recs key) recs zero_record)).
Proof.
  induction recs as [|r recs IH]; cbn [lower_bound length].
  - repeat split; intros; lia.
  - destruct (Z.ltb_spec (fst r) key) as [Hlt|Hge].
    + destruct IH as (H1 & H2 & H3). repeat split.
      * lia.
      * intros [|j] Hj; cbn [nth]; [exact Hlt | apply H2; lia].
      * intros Hj. cbn [nth]. apply H3. lia.
    + repeat split; try lia. intros _. exact Hge.
Qed.

Lemma key_position_spec (keys : list Z) (key : Z) :
  (key_position keys key <= length keys)%nat /\
  (forall j, (j < key_position keys key)%nat -> nth j keys 0 < key) /\
  ((key_position keys key < length keys)%nat -> key <= nth (key_position keys key) keys 0).
Proof.
  induction keys as [|r keys IH]; cbn [key_position length].
  - repeat split; intros; lia.
  - destruct (Z.ltb_spec r key) as [Hlt|Hge].
    + destruct IH as (H1 & H2 & H3). repeat split.
      * lia.
      * intros [|j] Hj; cbn [nth]; [exact Hlt | apply H2; lia].
      * intros Hj. cbn [nth]. apply H3. lia.
    + repeat split; try lia. intros _. exact Hge.
Qed.

(** The position of a new key in an ascending list is determined. *)
Lemma position_unique (keys : list Z) (key : Z) (pos pos' : nat) :
  (pos <= length keys)%nat -> (pos' <= length keys)%nat ->
  (forall j, (j < pos)%nat -> nth j keys 0 < key) ->
  (forall j, (pos <= j < length keys)%nat -> key < nth j keys 0) ->
  (forall j, (j < pos')%nat -> j = (pos' - 1)%nat -> nth j keys 0 <= key) ->
  ((pos' < length keys)%nat -> key <= nth pos' keys 0) ->
  pos' = pos.
Proof.
  intros Hp Hp' H1 H2 H3 H4.
  destruct (Nat.lt_trichotomy pos' pos) as [Hlt|[Heq|Hgt]]; [|exact Heq|].
  - specialize (H1 pos' Hlt). specialize (H4 ltac:(lia)). lia.
  - specialize (H3 (pos' - 1)%nat ltac:(lia) eq_refl).
    specialize (H2 (pos' - 1)%nat ltac:(lia)). lia.
Qed.

Lemma ascending_insert (keys : list Z) (pos : nat) (key : Z) :
  ascending keys -> (pos <= length keys)%nat ->
  (forall j, (j < pos)%nat -> nth j keys 0 < key) ->
  (forall j, (pos <= j < length keys)%nat -> key < nth j keys 0) ->
  ascending (vector_insert keys pos key).
Proof.
  intros Ha Hp H1 H2. rewrite ascending_nth in *. intros i j Hij.
  rewrite length_vector_insert in Hij.
  rewrite !nth_vector_insert by lia.
  destruct (Nat.ltb_spec i pos), (Nat.ltb_spec j pos); try lia;
    destruct (Nat.eqb_spec i pos), (Nat.eqb_spec j pos); try lia.
  - apply Ha. lia.
  - apply H1. lia.
  - apply Ha. lia.
  - apply H2. lia.
  - apply Ha. lia.
Qed.

Lemma ascending_insert_inv (keys : list Z) (pos : nat) (key : Z) :
  ascending (vector_insert keys pos key) -> (pos <= length keys)%nat ->
  ascending keys /\
  (forall j, (j < pos)%nat -> nth j keys 0 < key) /\
  (forall j, (pos <= j < length keys)%nat -> key < nth j keys 0).
Proof.
  intros Ha Hp. rewrite ascending_nth in Ha. rewrite length_vector_insert in Ha.
  assert (Hn : forall i j, (i < j < S (length keys))%nat ->
             (if (i <? pos)%nat then nth i keys 0 else if (i =? pos)%nat then key else nth (i - 1) keys 0)
             < (if (j <? pos)%nat then nth j keys 0 else if (j =? pos)%nat then key else nth (j - 1) keys 0)).
  { intros i j Hij. specialize (Ha i j Hij). now rewrite !nth_vector_insert in Ha by lia. }
  split; [|split].
  - apply ascending_nth. intros i j Hij.
    destruct (Nat.lt_ge_cases j pos).
    + specialize (Hn i j ltac:(lia)).
      destruct (Nat.ltb_spec i pos), (Nat.ltb_spec j pos); try lia.
    + destruct (Nat.lt_ge_cases i pos).
      * specialize (Hn i (S j) ltac:(lia)).
        destruct (Nat.ltb_spec i pos), (Nat.ltb_spec (S j) pos), (Nat.eqb_spec (S j) pos); try lia.
        now rewrite Nat.sub_1_r in Hn.
      * specialize (Hn (S i) (S j) ltac:(lia)).
        destruct (Nat.ltb_spec (S i) pos), (Nat.ltb_spec (S j) pos),
          (Nat.eqb_spec (S i) pos), (Nat.eqb_spec (S j) pos); try lia.
        now rewrite !Nat.sub_1_r in Hn.
  - intros j Hj. specialize (Hn j pos ltac:(lia)).
    destruct (Nat.ltb_spec j pos), (Nat.ltb_spec pos pos), (Nat.eqb_spec pos pos); try lia.
  - intros j Hj. specialize (Hn pos (S j) ltac:(lia)).
    destruct (Nat.ltb_spec pos pos), (Nat.ltb_spec (S j) pos),
      (Nat.eqb_spec pos pos), (Nat.eqb_spec (S j) pos); try lia.
    now rewrite Nat.sub_1_r in Hn.
Qed.

Lemma elem_of_vector_insert {A : Type} (v : list A) (pos : nat) (x y : A) :
  y ∈ vector_insert v pos x <-> y = x \/ y ∈ v.
Proof.
  unfold vector_insert. rewrite elem_of_app, elem_of_cons.
  rewrite <- (take_drop pos v) at 3. rewrite elem_of_app. tauto.
Qed.

Lemma map_vector_insert {A B : Type} (f : A -> B) (v : list A) (pos : nat) (x : A) :
  map f (vector_insert v pos x) = vector_insert (map f v) pos (f x).
Proof.
  unfold vector_insert. rewrite map_app. cbn [map]. now rewrite firstn_map, skipn_map.
Qed.

Lemma vector_insert_middle {A : Type} (a b : list A) (i : nat) (x y : A) :
  length a = i -> vector_insert (a ++ x :: b) (S i) y = a ++ x :: y :: b.
Proof.
  intros <-. unfold vector_insert.
  replace (a ++ x :: b) with ((a ++ [x]) ++ b) by (now rewrite <- app_assoc).
  replace (S (length a)) with (length (a ++ [x])) by (rewrite length_app; simpl; lia).
  rewrite take_app_length, drop_app_length, <- app_assoc. reflexivity.
Qed.

Lemma nth_elem_key (recs : list (Z * list Z)) (key : Z) :
  key ∈ map fst recs <->
  exists j, (j < length recs)%nat /\ fst (nth j recs zero_record) = key.
Proof.
  split.
  - intros H. apply list_elem_of_In, (In_nth _ _ 0) in H. destruct H as (j & Hj & Hn).
    rewrite length_map in Hj. exists j. split; [exact Hj|].
    rewrite <- Hn. change 0 with (fst zero_record). now rewrite map_nth.
  - intros (j & Hj & <-). apply list_elem_of_fmap.
    exists (nth j recs zero_record). split; [reflexivity|].
    apply list_elem_of_In, nth_In, Hj.
Qed.

Lemma nth_map_fst (recs : list (Z * list Z)) (j : nat) :
  nth j (map fst recs) 0 = fst (nth j recs zero_record).
Proof. change 0 with (fst zero_record). apply map_nth. Qed.

(** ** A leaf *)

Lemma leaf_at_num_keys (l : LeafPage.t) (recs : list (Z * list Z)) :
  0 <= LeafPage.num_keys l -> recs_view l = recs ->
  LeafPage.num_keys l = Z.of_nat (length recs).
Proof. intros Hn <-. rewrite length_recs_view. lia. Qed.

Lemma leaf_build (p : LeafPage.t) (rs : list (Z * list Z)) (n next : Z) :
  n = Z.of_nat (length rs) ->
  let q := LeafPage.SetNextLeaf (leaf_store (LeafPage.SetNumKeys p n) 0 rs) next in
  0 <= LeafPage.num_keys q /\ recs_view q = rs /\ LeafPage.next_leaf q = next.
Proof.
  intros Hn q. split; [|split].
  - unfold q. cbn [LeafPage.SetNextLeaf LeafPage.num_keys].
    destruct (leaf_store_spec rs (LeafPage.SetNumKeys p n) 0) as (H & _). rewrite H.
    cbn. lia.
  - now apply leaf_store_view.
  - reflexivity.
Qed.

(** The three outcomes of [InsertIntoLeaf]: the payload of a key that is
    present is replaced; a new key goes into a leaf with room; a new key
    splits a full leaf. *)
Lemma InsertIntoLeaf_spec (st : BPlusTree) (off next key : Z) (recs : list (Z * list Z))
                          (used : list Z) (data : list Z) :
  leaf_at (pages st) off recs next -> alloc_inv st used -> off ∈ used ->
  ascending (map fst recs) -> Z.of_nat (length recs) <= LEAF_MAX_KEYS ->
  exists st' r,
    InsertIntoLeaf off key data st = (Ok r, st') /\
    root_offset_ st' = root_offset_ st /\
    match r with
    | None =>
        exists recs',
          leaf_at (pages st') off recs' next /\
          (forall o, o <> off -> pages st' !! o = pages st !! o) /\
          alloc_inv st' used /\
          ascending (map fst recs') /\ ins_rel key data recs recs' /\
          (length recs <= length recs')%nat /\ Z.of_nat (length recs') <= LEAF_MAX_KEYS /\
          (key ∈ map fst recs \/ Z.of_nat (length recs) < LEAF_MAX_KEYS)
    | Some (sk, noff) =>
        exists all,
          (noff ∉ used) /\
          leaf_at (pages st') off (take 18 all) noff /\
          leaf_at (pages st') noff (drop 18 all) next /\
          (forall o, o <> off -> o <> noff -> pages st' !! o = pages st !! o) /\
          alloc_inv st' (noff :: used) /\
          all = vector_insert recs (lower_bound recs key) (key, data) /\
          length recs = 35%nat /\ (key ∉ map fst recs) /\
          ascending (map fst all) /\ ins_rel key data recs all /\
          sk = fst (nth 18 all zero_record)
    end.
Proof.
  intros (l & Hp & Hnk & Hrv & Hnx) Ha Hin Hasc Hlen.
  pose proof (alloc_inv_valid _ _ _ Ha Hin) as Hv.
  pose proof (leaf_at_num_keys _ _ Hnk Hrv) as Hnum.
  assert (Hnat : Z.to_nat (LeafPage.num_keys l) = length recs) by lia.
  pose proof (ascending_NoDup _ Hasc) as Hnd.
  unfold InsertIntoLeaf.
  rewrite (run_bind _ _ _ _ _ (PinLeaf_valid _ _ _ Hv Hp)).
  unfold LeafPage.NumKeys.
  destruct (find_key l key (Z.to_nat (LeafPage.num_keys l)) 0) as [i|] eqn:Efind.
  - (* the key is present *)
    apply find_key_Some in Efind. destruct Efind as (Hi & Hkey & _).
    exists (write st off (PLeaf (LeafPage.SetData l i data))), None.
    split; [now rewrite (run_bind _ _ _ _ _ (UnpinPage_dirty _ _ _))|].
    split; [reflexivity|].
    exists (<[i := (key, data)]> recs).
    assert (Hview : recs_view (LeafPage.SetData l i data) = <[i := (key, data)]> recs).
    { rewrite leaf_set_data_view by lia. now rewrite Hkey, Hrv. }
    assert (Hkeys : map fst (<[i := (key, data)]> recs) = map fst recs).
    { change (map fst (<[i:=(key, data)]> recs)) with (fst <$> <[i:=(key, data)]> recs).
      rewrite list_fmap_insert. cbn [fst]. apply list_insert_id.
      change (fst <$> recs) with (map fst recs).
      rewrite <- Hkey, KeyAt_view by lia. rewrite Hrv.
      apply lookup_nth. rewrite length_map. lia. }
    split; [|split; [|split; [|split; [|split; [|split; [|split]]]]]].
    + exists (LeafPage.SetData l i data).
      split; [apply lookup_write_same|]. split; [exact Hnk|]. split; [exact Hview | exact Hnx].
    + intros o Ho. now apply lookup_write_other.
    + now apply alloc_inv_write.
    + now rewrite Hkeys.
    + intros x. split.
      * intros Hx. apply list_elem_of_lookup_1 in Hx. destruct Hx as (j & Hj).
        destruct (decide (j = i)) as [->|Hne].
        -- rewrite list_lookup_insert_eq in Hj by lia. left. congruence.
        -- rewrite list_lookup_insert_ne in Hj by congruence. right.
           split; [eapply list_elem_of_lookup_2, Hj|].
           intros Hk.
           assert (Hi' : map fst recs !! i = Some key).
           { rewrite <- Hkey, KeyAt_view by lia. rewrite Hrv.
             apply lookup_nth. rewrite length_map. lia. }
           assert (Hj' : map fst recs !! j = Some key).
           { change (map fst recs) with (fst <$> recs). rewrite list_lookup_fmap, Hj.
             cbn. now rewrite Hk. }
           apply Hne. eapply NoDup_lookup; eauto.
      * intros [->|[Hx Hk]].
        -- eapply list_elem_of_lookup_2. apply list_lookup_insert_eq. lia.
        -- apply list_elem_of_lookup_1 in Hx. destruct Hx as (j & Hj).
           eapply (list_elem_of_lookup_2 _ j). rewrite list_lookup_insert_ne; [exact Hj|].
           intros <-. apply Hk.
           assert (Hi' : nth i recs zero_record = x) by (now apply nth_lookup_Some).
           rewrite <- Hi', <- Hrv, nth_recs_view by lia. exact Hkey.
    + rewrite length_insert. lia.
    + rewrite length_insert. lia.
    + left. apply nth_elem_key. exists i. split; [lia|].
      rewrite <- Hrv, nth_recs_view by lia. exact Hkey.
  - pose proof (find_key_None _ _ _ _ Efind) as Hnone.
    assert (Hnotin : key ∉ map fst recs).
    { intros Hk. apply nth_elem_key in Hk. destruct Hk as (j & Hj & Hk).
      apply (Hnone j); [lia|]. rewrite KeyAt_view by lia. now rewrite Hrv, nth_map_fst. }
    assert (Hrel : forall pos, ins_rel key data recs (vector_insert recs pos (key, data))).
    { intros pos x. rewrite elem_of_vector_insert. split; [|tauto].
      intros [->|Hx]; [now left | right]. split; [exact Hx|].
      intros Hk. apply Hnotin. apply list_elem_of_fmap. eauto. }
    destruct (Z.ltb_spec (LeafPage.num_keys l) LEAF_MAX_KEYS) as [Hroom|Hfull].
    + (* room available *)
      destruct (leaf_make_room l key (Z.to_nat (LeafPage.num_keys l))) as [pos l'] eqn:Eroom.
      pose proof (leaf_insert_view _ _ _ data _ Hnk Eroom) as Hview.
      apply leaf_make_room_spec in Eroom.
      destruct Eroom as (Hpos & Hnk' & Hnx' & Hgt & Hle & _).
      set (l2 := LeafPage.SetNumKeys (LeafPage.SetRecord l' pos key data)
                                     (LeafPage.NumKeys l' + 1)) in *.
      exists (write st off (PLeaf l2)), None.
      split; [now rewrite (run_bind _ _ _ _ _ (UnpinPage_dirty _ _ _))|].
      split; [reflexivity|].
      exists (vector_insert recs pos (key, data)).
      split; [|split; [|split; [|split; [|split; [|split; [|split]]]]]].
      * exists l2. split; [apply lookup_write_same|].
        split; [|split; [rewrite Hview, Hrv; reflexivity|]].
        -- unfold l2, LeafPage.NumKeys. cbn. lia.
        -- unfold l2. cbn. congruence.
      * intros o Ho. now apply lookup_write_other.
      * now apply alloc_inv_write.
      * rewrite map_vector_insert. cbn [fst].
        assert (Hkv : forall j, (j < length recs)%nat -> LeafPage.KeyAt l j = nth j (map fst recs) 0).
        { intros j Hj. rewrite KeyAt_view by lia. now rewrite Hrv. }
        apply ascending_insert; [exact Hasc | rewrite length_map; lia | |].
        -- intros j Hj. rewrite ascending_nth in Hasc.
           assert (Hlast : nth (pos - 1) (map fst recs) 0 < key).
           { specialize (Hle ltac:(lia)). rewrite Hkv in Hle by lia.
             assert (nth (pos - 1) (map fst recs) 0 <> key); [|lia].
             rewrite <- Hkv by lia. apply Hnone. lia. }
           destruct (decide (j = (pos - 1)%nat)) as [->|Hne]; [exact Hlast|].
           specialize (Hasc j (pos - 1)%nat ltac:(rewrite length_map; lia)). lia.
        -- intros j Hj. rewrite length_map in Hj. rewrite <- Hkv by lia. apply Hgt. lia.
      * apply Hrel.
      * rewrite length_vector_insert. lia.
      * rewrite length_vector_insert. unfold LEAF_MAX_KEYS in *. lia.
      * right. lia.
    + (* full: split *)
      assert (Hlen35 : length recs = 35%nat) by (unfold LEAF_MAX_KEYS in *; lia).
      rewrite leaf_records_view, Hrv.
      set (all := vector_insert recs (lower_bound recs key) (key, data)).
      assert (Hall : length all = 36%nat) by (unfold all; rewrite length_vector_insert; lia).
      rewrite Hall. change ((36 + 1) / 2)%nat with 18%nat.
      destruct (AllocPage_spec st used Ha) as (noff & st1 & Halloc & Hfresh & Hps1 & Hroot1 & Ha1).
      rewrite (run_bind _ _ _ _ _ Halloc).
      rewrite (run_bind _ _ _ _ _ (UnpinPage_dirty _ _ _)).
      rewrite (run_bind _ _ _ _ _ (UnpinPage_dirty _ _ _)).
      assert (Hne : off <> noff) by (intros ->; contradiction).
      set (new_leaf := LeafPage.SetNextLeaf
                         (leaf_store (LeafPage.SetNumKeys LeafPage.Init (Z.of_nat 36 - Z.of_nat 18))
                                     0 (drop 18 all)) (LeafPage.NextLeaf l)).
      set (old_leaf := LeafPage.SetNextLeaf
                         (leaf_store (LeafPage.SetNumKeys l (Z.of_nat 18)) 0 (take 18 all)) noff).
      set (st3 := write (write st1 noff (PLeaf new_leaf)) off (PLeaf old_leaf)).
      assert (Ha3 : alloc_inv st3 (noff :: used)).
      { unfold st3. apply alloc_inv_write; [apply alloc_inv_write|]; auto.
        - apply list_elem_of_here.
        - now apply list_elem_of_further. }
      assert (Hnew : pages st3 !! noff = Some (PLeaf new_leaf)).
      { unfold st3. rewrite lookup_write_other by congruence. apply lookup_write_same. }
      assert (Hv3 : valid st3 noff) by (eapply alloc_inv_valid; [exact Ha3 | apply list_elem_of_here]).
      rewrite (run_bind _ _ _ _ _ (PinLeaf_valid _ _ _ Hv3 Hnew)).
      rewrite (run_bind _ _ _ _ _ (UnpinPage_clean _ _ _)).
      destruct (leaf_build LeafPage.Init (drop 18 all) (Z.of_nat 36 - Z.of_nat 18) (LeafPage.NextLeaf l))
        as (Hn1 & Hn2 & Hn3); [rewrite length_drop, Hall; reflexivity|].
      destruct (leaf_build l (take 18 all) (Z.of_nat 18) noff)
        as (Ho1 & Ho2 & Ho3); [rewrite length_take, Hall; reflexivity|].
      fold new_leaf in Hn1, Hn2, Hn3. fold old_leaf in Ho1, Ho2, Ho3.
      destruct (lower_bound_spec recs key) as (Hlb1 & Hlb2 & Hlb3).
      exists st3, (Some (LeafPage.KeyAt new_leaf 0, noff)).
      split; [reflexivity|]. split; [exact Hroot1|].
      exists all.
      split; [exact Hfresh|]. split; [|split; [|split; [|split; [|split; [|split; [|split; [|split; [|split]]]]]]]].
      * exists old_leaf. split; [apply lookup_write_same|]. tauto.
      * exists new_leaf. split; [exact Hnew|]. unfold LeafPage.NextLeaf in Hn3. rewrite Hnx in Hn3. tauto.
      * intros o Ho1' Ho2'. unfold st3. rewrite !lookup_write_other by congruence.
        rewrite Hps1. now apply lookup_insert_ne.
      * exact Ha3.
      * reflexivity.
      * exact Hlen35.
      * exact Hnotin.
      * unfold all. rewrite map_vector_insert. cbn [fst].
        apply ascending_insert; [exact Hasc | rewrite length_map; lia | |].
        -- intros j Hj. rewrite nth_map_fst. now apply Hlb2.
        -- intros j Hj. rewrite length_map in Hj. rewrite nth_map_fst.
           assert (Hjne : fst (nth j recs zero_record) <> key).
           { intros Hk. apply Hnotin, nth_elem_key. exists j. split; [lia | exact Hk]. }
           specialize (Hlb3 ltac:(lia)).
           destruct (decide (j = lower_bound recs key)) as [->|Hne']; [lia|].
           rewrite ascending_nth in Hasc.
           specialize (Hasc (lower_bound recs key) j ltac:(rewrite length_map; lia)).
           rewrite !nth_map_fst in Hasc. lia.
      * apply Hrel.
      * rewrite KeyAt_view by (rewrite <- (length_recs_view new_leaf), Hn2, length_drop, Hall; lia).
        rewrite Hn2, nth_map_fst, nth_drop. reflexivity.
Qed.

(** ** An internal node *)

(** The two outcomes of [InsertIntoInternal]: the separator and the child
    right of it go into a node with room, or split a full node. *)
Lemma InsertIntoInternal_spec (st : BPlusTree) (off : Z) (keys kids : list Z) (used : list Z)
                              (key child : Z) (pos : nat) :
  node_at (pages st) off keys kids -> alloc_inv st used -> off ∈ used ->
  ascending keys -> Z.of_nat (length keys) <= INTERNAL_MAX_KEYS ->
  (pos <= length keys)%nat ->
  (forall j, (j < pos)%nat -> nth j keys 0 < key) ->
  (forall j, (pos <= j < length keys)%nat -> key < nth j keys 0) ->
  let keys' := vector_insert keys pos key in
  let kids' := vector_insert kids (S pos) child in
  exists st' r,
    InsertIntoInternal off key child st = (Ok r, st') /\
    root_offset_ st' = root_offset_ st /\
    match r with
    | None =>
        node_at (pages st') off keys' kids' /\
        (forall o, o <> off -> pages st' !! o = pages st !! o) /\
        alloc_inv st' used /\
        Z.of_nat (length keys) < INTERNAL_MAX_KEYS
    | Some (sk, noff) =>
        (noff ∉ used) /\ sk = nth 50 keys' 0 /\
        node_at (pages st') off (take 50 keys') (take 51 kids') /\
        node_at (pages st') noff (drop 51 keys') (drop 51 kids') /\
        (forall o, o <> off -> o <> noff -> pages st' !! o = pages st !! o) /\
        alloc_inv st' (noff :: used) /\
        length keys = 100%nat
    end.
Proof.
  intros (n & Hp & Hnk & Hkv & Hcv) Ha Hin Hasc Hlen Hpos Hlt Hgt keys' kids'.
  pose proof (alloc_inv_valid _ _ _ Ha Hin) as Hv.
  pose proof (length_keys_view n) as Hlk. rewrite Hkv in Hlk.
  pose proof (length_kids_view n) as Hlc. rewrite Hcv in Hlc.
  assert (Hkat : forall j, (j < length keys)%nat -> InternalPage.KeyAt n j = nth j keys 0).
  { intros j Hj. rewrite <- Hkv, nth_keys_view by lia. reflexivity. }
  unfold InsertIntoInternal.
  rewrite (run_bind _ _ _ _ _ (PinInternal_valid _ _ _ Hv Hp)).
  unfold InternalPage.NumKeys.
  destruct (Z.ltb_spec (InternalPage.num_keys n) INTERNAL_MAX_KEYS) as [Hroom|Hfull].
  - (* room available *)
    destruct (internal_make_room n key (Z.to_nat (InternalPage.num_keys n))) as [pos' n'] eqn:Eroom.
    pose proof (internal_insert_view _ _ key child _ Hnk Eroom) as Hview.
    apply internal_make_room_spec in Eroom.
    destruct Eroom as (Hpos' & Hnk' & Hgt' & Hle' & _).
    assert (pos' = pos) as ->.
    { apply (position_unique keys key); try lia; auto.
      - intros j Hj ->. rewrite <- Hkat by lia. apply Hle'. lia.
      - intros Hj. rewrite <- Hkat by lia. apply Z.lt_le_incl, Hgt'. lia. }
    cbv zeta in Hview. destruct Hview as (Hv1 & Hv2 & Hv3).
    set (n2 := InternalPage.SetNumKeys
                 (InternalPage.SetChildAt (InternalPage.SetKeyAt n' pos key) (S pos) child)
                 (InternalPage.NumKeys n' + 1)) in *.
    exists (write st off (PInternal n2)), None.
    split; [now rewrite (run_bind _ _ _ _ _ (UnpinPage_dirty _ _ _))|].
    split; [reflexivity|].
    split; [|split; [|split]].
    + exists n2. split; [apply lookup_write_same|].
      split; [lia|]. unfold keys', kids'. rewrite <- Hkv, <- Hcv. tauto.
    + intros o Ho. now apply lookup_write_other.
    + now apply alloc_inv_write.
    + lia.
  - (* full: split *)
    assert (Hlen100 : length keys = 100%nat) by (unfold INTERNAL_MAX_KEYS in *; lia).
    change (map (InternalPage.KeyAt n) (seq 0 (Z.to_nat (InternalPage.num_keys n))))
      with (keys_view n).
    change (map (InternalPage.ChildAt n) (seq 0 (S (Z.to_nat (InternalPage.num_keys n)))))
      with (kids_view n).
    rewrite Hkv, Hcv.
    rewrite (run_bind _ _ _ _ _ (UnpinPage_clean _ _ _)).
    assert (key_position keys key = pos) as ->.
    { destruct (key_position_spec keys key) as (H1 & H2 & H3).
      apply (position_unique keys key); try lia; auto.
      intros j Hj _. apply Z.lt_le_incl, H2, Hj. }
    fold keys' kids'.
    assert (Hk' : length keys' = 101%nat) by (unfold keys'; rewrite length_vector_insert; lia).
    assert (Hc' : length kids' = 102%nat) by (unfold kids'; rewrite length_vector_insert; lia).
    rewrite Hk'. change (101 / 2)%nat with 50%nat.
    destruct (AllocPage_spec st used Ha) as (noff & st1 & Halloc & Hfresh & Hps1 & Hroot1 & Ha1).
    rewrite (run_bind _ _ _ _ _ Halloc).
    rewrite (run_bind _ _ _ _ _ (UnpinPage_dirty _ _ _)).
    assert (Hne : off <> noff) by (intros ->; contradiction).
    set (new_node := internal_store_children
                       (internal_store_keys
                          (InternalPage.SetNumKeys InternalPage.Init (Z.of_nat 101 - Z.of_nat 50 - 1))
                          0 (drop 51 keys')) 0 (drop 51 kids')).
    set (st2 := write st1 noff (PInternal new_node)).
    assert (Ha2 : alloc_inv st2 (noff :: used)).
    { unfold st2. apply alloc_inv_write; [exact Ha1 | apply list_elem_of_here]. }
    assert (Hp2 : pages st2 !! off = Some (PInternal n)).
    { unfold st2. rewrite lookup_write_other by congruence. rewrite Hps1.
      rewrite lookup_insert_ne by congruence. exact Hp. }
    assert (Hv2 : valid st2 off).
    { eapply alloc_inv_valid; [exact Ha2 | now apply list_elem_of_further]. }
    rewrite (run_bind _ _ _ _ _ (PinInternal_valid _ _ _ Hv2 Hp2)).
    rewrite (run_bind _ _ _ _ _ (UnpinPage_dirty _ _ _)).
    assert (Htk : length (take 50 keys') = 50%nat) by (rewrite length_take; lia).
    pose proof (internal_left_node_view n (take 50 keys') (take 50 kids') (nth 50 kids' 0)) as Hleft.
    rewrite Htk in Hleft. cbv zeta in Hleft.
    destruct Hleft as (Hl1 & Hl2 & Hl3); [rewrite length_take; lia|].
    pose proof (internal_new_node_view (drop 51 keys') (drop 51 kids') (Z.of_nat 101 - Z.of_nat 50 - 1))
      as Hright.
    cbv zeta in Hright. fold new_node in Hright.
    destruct Hright as (Hr1 & Hr2 & Hr3);
      [rewrite length_drop; lia | rewrite !length_drop; lia|].
    eexists (write st2 off (PInternal _)), (Some (nth 50 keys' 0, noff)).
    split; [reflexivity|]. split; [exact Hroot1|].
    split; [exact Hfresh|]. split; [reflexivity|].
    split; [|split; [|split; [|split]]].
    + eexists. split; [apply lookup_write_same|].
      split; [rewrite Hl3; lia|]. split; [exact Hl1|]. rewrite Hl2.
      symmetry. apply take_S_r. apply lookup_nth. lia.
    + exists new_node. split.
      * rewrite lookup_write_other by congruence. apply lookup_write_same.
      * split; [rewrite Hr3; lia|]. tauto.
    + intros o Ho1 Ho2. rewrite lookup_write_other by congruence.
      unfold st2. rewrite lookup_write_other by congruence.
      rewrite Hps1. now apply lookup_insert_ne.
    + apply alloc_inv_write; [exact Ha2 | now apply list_elem_of_further].
    + exact Hlen100.
Qed.

End InsertPageFacts.


(** * Insertion into the tree *)

Module InsertFacts.
Import Tree TreeSpec SlotsFacts LeafFacts InternalFacts OrderFacts StateFacts GhostFacts.
Import InsertPageFacts.

Lemma offsets_of_single (t : tree) : offsets_of [t] = offsets t.
Proof. unfold offsets_of. simpl. apply app_nil_r. Qed.

Lemma records_in_single (t : tree) : records_in [t] = records t.
Proof. unfold records_in. simpl. apply app_nil_r. Qed.

Lemma leaves_of_single (t : tree) : leaves_of [t] = leaves t.
Proof. unfold leaves_of. simpl. apply app_nil_r. Qed.

Lemma elem_take {A : Type} (l : list A) (m : nat) (x d : A) :
  x ∈ take m l -> exists j, (j < m)%nat /\ (j < length l)%nat /\ nth j l d = x.
Proof.
  intros H. apply list_elem_of_In, (In_nth _ _ d) in H. destruct H as (j & Hj & Hn).
  rewrite length_take in Hj. exists j. split; [lia|]. split; [lia|].
  rewrite <- Hn. symmetry. apply nth_take_lt. lia.
Qed.

Lemma elem_drop {A : Type} (l : list A) (m : nat) (x d : A) :
  x ∈ drop m l -> exists j, (m <= j < length l)%nat /\ nth j l d = x.
Proof.
  intros H. apply list_elem_of_In, (In_nth _ _ d) in H. destruct H as (j & Hj & Hn).
  rewrite length_drop in Hj. exists (m + j)%nat. split; [lia|].
  rewrite <- Hn. symmetry. apply nth_drop.
Qed.

(** The two halves of a run of records in key order. *)
Lemma split_records_wf (all : list (Z * list Z)) (lo hi : Z) (m : nat) :
  ascending (map fst all) -> Forall (fun r => lo <= fst r < hi) all ->
  (0 < m < length all)%nat ->
  let sk := fst (nth m all zero_record) in
  lo < sk < hi /\
  ascending (map fst (take m all)) /\ Forall (fun r => lo <= fst r < sk) (take m all) /\
  ascending (map fst (drop m all)) /\ Forall (fun r => sk <= fst r < hi) (drop m all).
Proof.
  intros Hasc Hf Hm sk.
  pose proof Hasc as Hasc'.
  rewrite <- (take_drop m all), map_app in Hasc'. apply ascending_app in Hasc'.
  destruct Hasc' as (Ha1 & Ha2 & _).
  rewrite ascending_nth in Hasc. rewrite length_map in Hasc.
  assert (Hidx : forall i j, (i < j < length all)%nat ->
                             fst (nth i all zero_record) < fst (nth j all zero_record)).
  { intros i j Hij. rewrite <- !nth_map_fst. now apply Hasc. }
  rewrite Forall_forall in Hf.
  assert (Hin : forall j, (j < length all)%nat -> lo <= fst (nth j all zero_record) < hi).
  { intros j Hj. apply Hf, list_elem_of_In, nth_In, Hj. }
  split; [|split; [exact Ha1|split; [|split; [exact Ha2|]]]].
  - pose proof (Hin 0%nat ltac:(lia)). pose proof (Hidx 0%nat m ltac:(lia)).
    pose proof (Hin m ltac:(lia)). unfold sk. lia.
  - apply Forall_forall. intros x Hx. apply (elem_take _ _ _ zero_record) in Hx.
    destruct Hx as (j & Hj1 & Hj2 & <-).
    pose proof (Hin j Hj2). pose proof (Hidx j m ltac:(lia)). unfold sk. lia.
  - apply Forall_forall. intros x Hx. apply (elem_drop _ _ _ zero_record) in Hx.
    destruct Hx as (j & Hj & <-).
    pose proof (Hin j ltac:(lia)). unfold sk.
    destruct (decide (j = m)) as [->|Hne]; [lia|].
    pose proof (Hidx m j ltac:(lia)). lia.
Qed.

Lemma NoDup_app_notin {A : Type} (l k : list A) (x : A) :
  NoDup (l ++ k) -> x ∈ l -> x ∉ k.
Proof. intros H. apply NoDup_app in H. destruct H as (_ & H & _). apply H. Qed.

(** ** The leaf at the end of the descent *)

Lemma InsertRecursive_leaf (t : tree) (lmin imin lo hi : Z) (fr : list Z) (st : BPlusTree)
                           (key : Z) (data : list Z) :
  rep 0 (pages st) t -> wf 0 lmin imin lo hi t -> lo <= key < hi ->
  NoDup (offsets t ++ fr) -> alloc_inv st (offsets t ++ fr) ->
  exists st' r,
    (forall fuel, (0 < fuel)%nat -> InsertRecursive fuel (root t) key data st = (Ok r, st')) /\
    ins_post 0 t lmin imin lo hi fr st key data r st'.
Proof.
  intros Hr Hw Hk Hnd Ha.
  apply rep_leaf_inv in Hr. destruct Hr as (off & recs & next & -> & Hl).
  pose proof Hl as (l & Hp & _).
  cbn [wf] in Hw. destruct Hw as (Hlh & Hasc & Hrange & Hcnt).
  cbn [offsets app root] in *.
  assert (Hoff : off ∈ off :: fr) by apply list_elem_of_here.
  pose proof (alloc_inv_valid _ _ _ Ha Hoff) as Hv.
  apply NoDup_cons in Hnd. destruct Hnd as [Hofr Hndfr].
  assert (Hstep : forall fuel, (0 < fuel)%nat ->
                   InsertRecursive fuel off key data st = InsertIntoLeaf off key data st).
  { intros [|fuel] Hf; [lia|].
    cbn [InsertRecursive]. rewrite (run_bind _ _ _ _ _ (PinPage_valid _ _ Hv)).
    rewrite (page_at_Some _ _ _ Hp). now rewrite (run_bind _ _ _ _ _ (UnpinPage_clean _ _ _)). }
  destruct (InsertIntoLeaf_spec st off next key recs (off :: fr) data Hl Ha Hoff Hasc ltac:(lia))
    as (st' & r & Hrun & Hroot & Hres).
  destruct r as [[sk noff]|].
  - (* split *)
    destruct Hres as (all & Hfresh & Hleft & Hright & Hsame & Ha' & Hall & Hlen & Hnotin & Hasc' & Hrel & Hsk).
    assert (Hlall : length all = 36%nat) by (rewrite Hall, length_vector_insert; lia).
    assert (Hrange' : Forall (fun r => lo <= fst r < hi) all).
    { apply Forall_forall. intros x Hx. apply Hrel in Hx. destruct Hx as [->|[Hx _]]; [exact Hk|].
      rewrite Forall_forall in Hrange. now apply Hrange. }
    destruct (split_records_wf all lo hi 18 Hasc' Hrange' ltac:(lia)) as (Hsklt & Hta & Htf & Hda & Hdf).
    rewrite <- Hsk in *.
    assert (Hne : off <> noff).
    { intros ->. apply Hfresh, list_elem_of_here. }
    exists st', (Some (sk, noff)).
    split; [intros fuel Hf; now rewrite Hstep|]. split; [exact Hroot|]. split.
    { intros o Ho. apply Hsame; intros ->; [contradiction|].
      apply Hfresh. now apply list_elem_of_further. }
    exists [sk], [Leaf off (take 18 all) noff; Leaf noff (drop 18 all) next].
    cbn [root records leaves]. rewrite ?records_Leaf.
    split; [|split; [|split; [|split; [|split; [|split; [|split]]]]]].
    + split; [reflexivity|]. eauto.
    + eauto.
    + repeat constructor; assumption.
    + cbn. apply NoDup_cons. split.
      * intros Hin. apply elem_of_cons in Hin. destruct Hin as [?|?]; [congruence | contradiction].
      * apply NoDup_cons. split; [|exact Hndfr].
        intros Hin. apply Hfresh. now apply list_elem_of_further.
    + eapply alloc_inv_perm; [|exact Ha']. cbn. apply perm_swap.
    + cbn [wf_kids min_after wf].
      rewrite length_take, length_drop, Hlall.
      rewrite LEAF_MIN_KEYS_eq. unfold LEAF_MAX_KEYS. cbn.
      repeat split; try assumption; try lia.
    + intros x. unfold records_in. cbn [map concat]. rewrite !records_Leaf, app_nil_r.
      rewrite take_drop. apply Hrel.
    + cbn. split; [discriminate|]. split; [reflexivity|].
      intros nxt ->. cbn. auto.
  - (* no split *)
    destruct Hres as (recs' & Hleaf & Hsame & Ha' & Hasc' & Hrel & Hlen1 & Hlen2 & _).
    exists st', None.
    split; [intros fuel Hf; now rewrite Hstep|]. split; [exact Hroot|]. split.
    { intros o Ho. apply Hsame. intros ->. contradiction. }
    exists [], [Leaf off recs' next].
    cbn [root records leaves]. rewrite ?records_Leaf.
    split; [|split; [|split; [|split; [|split; [|split; [|split]]]]]].
    + split; [reflexivity|]. eauto.
    + eauto.
    + repeat constructor. assumption.
    + cbn. apply NoDup_cons. split; assumption.
    + exact Ha'.
    + cbn [wf_kids min_after wf].
      split; [exact Hlh|]. split; [exact Hasc'|]. split; [|lia].
      apply Forall_forall. intros x Hx. apply Hrel in Hx. destruct Hx as [->|[Hx _]]; [exact Hk|].
      rewrite Forall_forall in Hrange. now apply Hrange.
    + rewrite records_in_single, records_Leaf. exact Hrel.
    + cbn. split; [discriminate|]. split; [reflexivity|]. auto.
Qed.

(** ** An internal node on the way *)

Lemma map_root_replace (l1 l2 : list tree) (c t' : tree) :
  root t' = root c -> map root (l1 ++ [t'] ++ l2) = map root (l1 ++ c :: l2).
Proof. intros H. rewrite !map_app. cbn. now rewrite H. Qed.

Lemma map_root_split (l1 l2 : list tree) (c tl tr : tree) (i : nat) :
  length l1 = i -> root tl = root c ->
  map root (l1 ++ [tl; tr] ++ l2) = vector_insert (map root (l1 ++ c :: l2)) (S i) (root tr).
Proof.
  intros Hl H. rewrite !map_app. cbn [map app].
  rewrite vector_insert_middle by (now rewrite length_map). now rewrite H.
Qed.

Lemma InsertRecursive_spec (h : nat) :
  forall (t : tree) (lmin imin lo hi : Z) (fr : list Z) (st : BPlusTree)
         (key : Z) (data : list Z),
    rep h (pages st) t -> wf h lmin imin lo hi t -> lo <= key < hi ->
    NoDup (offsets t ++ fr) -> alloc_inv st (offsets t ++ fr) ->
    exists st' r,
      (forall fuel, (h < fuel)%nat -> InsertRecursive fuel (root t) key data st = (Ok r, st')) /\
      ins_post h t lmin imin lo hi fr st key data r st'.
Proof.
  induction h as [|h IH]; intros t lmin imin lo hi fr st key data Hr Hw Hk Hnd Ha.
  { apply InsertRecursive_leaf; auto. }
  apply rep_node_inv in Hr. destruct Hr as (off & keys & kids & -> & Hn & Hkids).
  pose proof Hn as (n & Hp & Hnk & Hkv & Hcv).
  destruct (node_focus h _ _ _ _ _ _ _ _ key n Hn Hp Hw Hk)
    as (l1 & c & l2 & Hsplit & Hl1 & Hi & Hchild & Hwc & Hkc & Hlo & Hhi & Hr1 & Hr2 & Hrepl).
  set (i := child_index n key (Z.to_nat (InternalPage.num_keys n)) 0) in *.
  set (W := wf h LEAF_MIN_KEYS INTERNAL_MIN_KEYS) in *.
  assert (W_lt : forall a b c, W a b c -> a < b) by (intros a b c0; apply wf_lt).
  cbn [wf] in Hw. destruct Hw as (Hlh & Hcnt & Hwk). fold W in Hwk.
  destruct (wf_kids_keys W W_lt _ _ _ _ Hwk) as [Hkasc _].
  subst kids.
  set (fr' := off :: offsets_of l1 ++ offsets_of l2 ++ fr).
  assert (Hperm : offsets (Node off keys (l1 ++ c :: l2)) ++ fr ≡ₚ offsets c ++ fr').
  { rewrite offsets_Node, offsets_of_app, offsets_of_cons. unfold fr'. solve_Permutation. }
  pose proof Hnd as Hnd0. pose proof Ha as Ha0.
  rewrite Hperm in Hnd. apply (alloc_inv_perm _ _ _ Hperm) in Ha.
  apply Forall_app in Hkids. destruct Hkids as [Hrep1 Hkids].
  apply Forall_cons in Hkids. destruct Hkids as [Hc Hrep2].
  destruct (IH c LEAF_MIN_KEYS INTERNAL_MIN_KEYS _ _ fr' st key data Hc Hwc Hkc Hnd Ha)
    as (st1 & r & Hrun & Hroot1 & Hframe & ks & ts & Hsr & Hhd & Hreps & Hnd1 & Ha1 & Hwts & Hrel & Hchain).
  assert (Hmin : wf_kids W (lbound lo (take i keys)) ks (ubound hi (drop i keys)) ts).
  { destruct r; exact Hwts. }
  clear Hwts.
  assert (Hoff_fr' : off ∈ fr') by apply list_elem_of_here.
  assert (Hp1 : pages st1 !! off = Some (PInternal n)) by (rewrite Hframe; auto).
  set (kids' := l1 ++ ts ++ l2).
  assert (Hkids1 : Forall (rep h (pages st1)) kids').
  { unfold kids'. rewrite !Forall_app. split; [|split; [exact Hreps|]].
    - eapply Forall_rep_frame; [|exact Hrep1]. intros o Ho. apply Hframe.
      unfold fr'. apply list_elem_of_further. apply elem_of_app. now left.
    - eapply Forall_rep_frame; [|exact Hrep2]. intros o Ho. apply Hframe.
      unfold fr'. apply list_elem_of_further. apply elem_of_app. right.
      apply elem_of_app. now left. }
  assert (Hwk' : wf_kids W lo (take i keys ++ ks ++ drop i keys) hi kids') by (now apply Hrepl).
  assert (Hperm1 : offsets_of ts ++ fr' ≡ₚ off :: offsets_of kids' ++ fr).
  { unfold fr', kids'. rewrite !offsets_of_app. solve_Permutation. }
  rewrite Hperm1 in Hnd1. apply (alloc_inv_perm _ _ _ Hperm1) in Ha1.
  assert (Hrel' : ins_rel key data (records_in (l1 ++ c :: l2)) (records_in kids')).
  { unfold kids'. rewrite !records_in_app, records_in_cons.
    intros x. rewrite !elem_of_app, (Hrel x). split.
    - intros [Hx|[[->|[Hx Hne]]|Hx]]; auto.
      + right. split; [auto|]. apply Hr1 in Hx. lia.
      + right. split; [auto|]. apply Hr2 in Hx. lia.
    - intros [->|[[Hx|[Hx|Hx]] Hne]]; auto. }
  assert (Hchain' : chain_pres (leaves_of (l1 ++ c :: l2)) (leaves_of kids')).
  { unfold kids'. rewrite !leaves_of_app, leaves_of_cons.
    apply chain_pres_ctx; [|exact Hchain]. eapply leaves_nonempty, Hc. }
  assert (Hframe1 : frame fr st st1).
  { eapply frame_sub; [|exact Hframe]. intros o Ho. unfold fr'.
    apply list_elem_of_further. rewrite !elem_of_app. auto. }
  assert (Hv : valid st off).
  { eapply alloc_inv_valid; [exact Ha0|]. rewrite offsets_Node. apply list_elem_of_here. }
  assert (Hstep : forall fuel, (S h < fuel)%nat ->
                   InsertRecursive fuel off key data st =
                   match r with
                   | None => (Ok None, st1)
                   | Some (sk, noff) => InsertIntoInternal off sk noff st1
                   end).
  { intros [|fuel] Hf; [lia|].
    cbn [InsertRecursive]. rewrite (run_bind _ _ _ _ _ (PinPage_valid _ _ Hv)).
    rewrite (page_at_Some _ _ _ Hp). rewrite (run_bind _ _ _ _ _ (UnpinPage_clean _ _ _)).
    unfold InternalPage.NumKeys. fold i. rewrite Hchild.
    rewrite (run_bind _ _ _ _ _ (Hrun fuel ltac:(lia))). destruct r as [[sk noff]|]; reflexivity. }
  cbn [root].
  assert (Hoffk : off ∉ offsets_of kids').
  { apply NoDup_cons in Hnd1. destruct Hnd1 as [H _]. intros Hin. apply H.
    apply elem_of_app. now left. }
  assert (Hofffr : off ∉ fr).
  { apply NoDup_cons in Hnd1. destruct Hnd1 as [H _]. intros Hin. apply H.
    apply elem_of_app. now right. }
  destruct r as [[sk noff]|]; cbn [split_result] in Hsr.
  - (* the child was split *)
    destruct Hsr as (-> & tl & tr & -> & Hnoff).
    destruct Hhd as (t0 & ts' & [= <- <-] & Hroot_tl).
    assert (Hkeys' : take i keys ++ [sk] ++ drop i keys = vector_insert keys i sk) by reflexivity.
    rewrite Hkeys' in Hwk'.
    destruct (wf_kids_keys W W_lt _ _ _ _ Hwk') as [Hkasc' _].
    destruct (ascending_insert_inv _ _ _ Hkasc' Hi) as (_ & Hltk & Hgtk).
    assert (Hn1 : node_at (pages st1) off keys (map root (l1 ++ c :: l2))) by (exists n; tauto).
    assert (Hoff1 : off ∈ off :: offsets_of kids' ++ fr) by apply list_elem_of_here.
    destruct (InsertIntoInternal_spec st1 off keys _ _ sk noff i Hn1 Ha1 Hoff1 Hkasc
                ltac:(lia) Hi Hltk Hgtk) as (st2 & r2 & Hrun2 & Hroot2 & Hres).
    rewrite <- Hnoff, <- (map_root_split l1 l2 c tl tr i Hl1 Hroot_tl) in Hres.
    fold kids' in Hres.
    set (keys' := vector_insert keys i sk) in *.
    assert (Hlk' : length keys' = S (length keys)) by (unfold keys'; apply length_vector_insert).
    pose proof (wf_kids_length W _ _ _ _ Hwk') as Hlkids'.
    exists st2, r2. split; [intros fuel Hf; now rewrite Hstep|].
    destruct r2 as [[sk2 noff2]|].
    + (* this node is split, too *)
      destruct Hres as (Hfresh & -> & Hleft & Hright & Hsame & Ha2 & Hlen).
      assert (Hne : off <> noff2) by (intros ->; apply Hfresh, list_elem_of_here).
      assert (Hnoff2k : noff2 ∉ offsets_of kids').
      { intros Hin. apply Hfresh. apply list_elem_of_further. apply elem_of_app. now left. }
      assert (Hnoff2fr : noff2 ∉ fr).
      { intros Hin. apply Hfresh. apply list_elem_of_further. apply elem_of_app. now right. }
      assert (Hkids2 : Forall (rep h (pages st2)) kids').
      { eapply Forall_rep_frame; [|exact Hkids1]. intros o Ho.
        apply Hsame; intros ->; contradiction. }
      assert (Hseg : wf_kids W lo (take 50 keys' ++ nth 50 keys' 0 :: drop 51 keys') hi
                             (take 51 kids' ++ drop 51 kids')).
      { rewrite take_drop.
        replace (take 50 keys' ++ nth 50 keys' 0 :: drop 51 keys') with keys'; [exact Hwk'|].
        symmetry. apply take_drop_middle. apply lookup_nth. lia. }
      apply wf_kids_seg0 in Hseg; [|rewrite !length_take; lia].
      cbn [ubound hd wf_tail] in Hseg. destruct Hseg as [Hwl Hwr].
      pose proof (wf_kids_lt W W_lt _ _ _ _ Hwl) as Hltl.
      pose proof (wf_kids_lt W W_lt _ _ _ _ Hwr) as Hltr.
      split; [congruence|]. split.
      { eapply frame_trans; [exact Hframe1|]. intros o Ho.
        apply Hsame; intros ->; contradiction. }
      exists [nth 50 keys' 0],
             [Node off (take 50 keys') (take 51 kids'); Node noff2 (drop 51 keys') (drop 51 kids')].
      split; [|split; [|split; [|split; [|split; [|split; [|split]]]]]].
      * split; [reflexivity|]. eauto.
      * eauto.
      * constructor; [|constructor; [|constructor]].
        -- cbn [rep]. rewrite <- firstn_map. split; [exact Hleft | now apply Forall_take].
        -- cbn [rep]. rewrite <- skipn_map. split; [exact Hright | now apply Forall_drop].
      * assert (Hp2 : offsets_of [Node off (take 50 keys') (take 51 kids');
                                  Node noff2 (drop 51 keys') (drop 51 kids')] ++ fr
                      ≡ₚ noff2 :: off :: offsets_of kids' ++ fr).
        { rewrite <- (take_drop 51 kids') at 3. rewrite offsets_of_app.
          unfold offsets_of at 1. cbn [map concat]. rewrite !offsets_Node. solve_Permutation. }
        rewrite Hp2. apply NoDup_cons. split; [exact Hfresh | exact Hnd1].
      * eapply alloc_inv_perm; [|exact Ha2].
        rewrite <- (take_drop 51 kids') at 1. rewrite offsets_of_app.
        unfold offsets_of at 3. cbn [map concat]. rewrite !offsets_Node. solve_Permutation.
      * cbn [min_after wf_kids wf]. fold W.
        rewrite length_take, length_drop, Hlk', Hlen, INTERNAL_MIN_KEYS_eq.
        unfold INTERNAL_MAX_KEYS. cbn. repeat split; try assumption; try lia.
      * unfold records_in at 1. cbn [map concat]. rewrite !records_Node, app_nil_r.
        rewrite <- records_in_app, take_drop. exact Hrel'.
      * unfold leaves_of at 1. cbn [map concat]. rewrite !leaves_Node, app_nil_r.
        rewrite <- leaves_of_app, take_drop. exact Hchain'.
    + (* room in this node *)
      destruct Hres as (Hnode & Hsame & Ha2 & Hlen).
      split; [congruence|]. split.
      { eapply frame_trans; [exact Hframe1|]. intros o Ho.
        apply Hsame; intros ->; contradiction. }
      exists [], [Node off keys' kids'].
      split; [|split; [|split; [|split; [|split; [|split; [|split]]]]]].
      * split; [reflexivity|]. eauto.
      * eauto.
      * constructor; [|constructor]. cbn [rep]. split; [exact Hnode|].
        eapply Forall_rep_frame; [|exact Hkids1]. intros o Ho.
        apply Hsame. intros ->. contradiction.
      * rewrite offsets_of_single, offsets_Node. exact Hnd1.
      * rewrite offsets_of_single, offsets_Node. exact Ha2.
      * cbn [min_after wf_kids wf]. fold W.
        split; [exact Hlh|]. split; [lia|]. exact Hwk'.
      * rewrite records_in_single, !records_Node. exact Hrel'.
      * rewrite leaves_of_single, !leaves_Node. exact Hchain'.
  - (* the child took the record *)
    destruct Hsr as (-> & t' & ->).
    destruct Hhd as (t0 & ts' & [= <- <-] & Hroot_t').
    cbn [app] in Hwk'. rewrite take_drop in Hwk'.
    exists st1, None. split; [intros fuel Hf; now rewrite Hstep|].
    split; [exact Hroot1|]. split; [exact Hframe1|].
    exists [], [Node off keys kids'].
    split; [|split; [|split; [|split; [|split; [|split; [|split]]]]]].
    + split; [reflexivity|]. eauto.
    + eauto.
    + constructor; [|constructor]. cbn [rep]. split; [|exact Hkids1].
      exists n. unfold kids'. rewrite (map_root_replace l1 l2 c t' Hroot_t'). tauto.
    + rewrite offsets_of_single, offsets_Node. exact Hnd1.
    + rewrite offsets_of_single, offsets_Node. exact Ha1.
    + cbn [min_after wf_kids wf]. fold W. tauto.
    + rewrite records_in_single, !records_Node. exact Hrel'.
    + rewrite leaves_of_single, !leaves_Node. exact Hchain'.
Qed.

(** ** [Insert] *)

Lemma int_range_lt : INT_MIN < INT_MAX + 1.
Proof. unfold INT_MIN, INT_MAX. lia. Qed.

Lemma Insert_empty (st : BPlusTree) (key : Z) (data : list Z) :
  root_offset_ st = INVALID_PAGE_ID -> alloc_inv st [] -> is_int key ->
  exists st' recs',
    (forall fuel, Insert fuel key data st = (Ok OK, st')) /\
    tree_holds st' recs' /\ ins_rel key (pad data) [] recs'.
Proof.
  intros Hroot Ha Hk.
  destruct (AllocPage_spec st [] Ha) as (off & st1 & Halloc & _ & Hps1 & Hroot1 & Ha1).
  set (leaf := LeafPage.SetRecord (LeafPage.SetNumKeys LeafPage.Init 1) 0 key (pad data)).
  set (st3 := set_root_offset_ (write st1 off (PLeaf leaf)) off).
  assert (Ha3 : alloc_inv st3 [off]).
  { apply alloc_inv_set_root, alloc_inv_write; [exact Ha1 | apply list_elem_of_here]. }
  destruct (WriteMetadata_spec st3 [off] Ha3) as (st4 & Hwm & Hps4 & Hroot4 & Ha4).
  set (g := Leaf off [(key, pad data)] INVALID_PAGE_ID).
  exists st4, (records g). split; [|split].
  - intros fuel. unfold Insert. erewrite run_bind by reflexivity.
    rewrite Hroot, Z.eqb_refl. rewrite (run_bind _ _ _ _ _ Halloc).
    rewrite (run_bind _ _ _ _ _ (UnpinPage_dirty _ _ _)).
    erewrite run_bind by reflexivity. rewrite (run_bind _ _ _ _ _ Hwm). reflexivity.
  - apply (holds_tree st4 0 g).
    + rewrite Hroot4. reflexivity.
    + cbn [rep g]. exists leaf. rewrite Hps4. split; [apply lookup_write_same|].
      split; [cbn; lia|]. split; reflexivity.
    + cbn. apply NoDup_singleton.
    + cbn [wf g]. split; [apply int_range_lt|]. split; [cbn; auto|]. split.
      * constructor; [|constructor]. cbn. unfold is_int in Hk. lia.
      * cbn. unfold LEAF_MAX_KEYS. lia.
    + reflexivity.
    + exact Ha4.
  - unfold g. rewrite records_Leaf. intros x. rewrite list_elem_of_singleton.
    split; [auto|]. intros [->|[Hx _]]; [reflexivity|]. apply elem_of_nil in Hx. contradiction.
Qed.

Lemma Insert_tree (st : BPlusTree) (h : nat) (g : tree) (key : Z) (data : list Z) :
  root_offset_ st = root g -> rep h (pages st) g -> NoDup (offsets g) ->
  wf h 1 1 INT_MIN (INT_MAX + 1) g -> linked (leaves g) INVALID_PAGE_ID ->
  alloc_inv st (offsets g) -> is_int key ->
  exists st' recs',
    (forall fuel, (h < fuel)%nat -> Insert fuel key data st = (Ok OK, st')) /\
    tree_holds st' recs' /\ ins_rel key (pad data) (records g) recs'.
Proof.
  intros Hroot Hr Hnd Hw Hl Ha Hk.
  pose proof (alloc_inv_valid _ _ _ Ha (root_in_offsets g)) as Hv.
  assert (Hne : (root g =? INVALID_PAGE_ID) = false).
  { destruct Hv as [Hb _]. apply page_boundary_ge in Hb.
    apply Z.eqb_neq. unfold PAGE_SIZE, INVALID_PAGE_ID in *. lia. }
  rewrite <- (app_nil_r (offsets g)) in Hnd, Ha.
  destruct (InsertRecursive_spec h g 1 1 INT_MIN (INT_MAX + 1) [] st key (pad data) Hr Hw
              ltac:(unfold is_int in Hk; lia) Hnd Ha)
    as (st1 & r & Hrun & Hroot1 & _ & ks & ts & Hsr & Hhd & Hreps & Hnd1 & Ha1 & Hwts & Hrel & Hchain).
  rewrite app_nil_r in Hnd1, Ha1.
  assert (Hstep : forall fuel, (h < fuel)%nat ->
            Insert fuel key data st =
            match r with
            | Some (split_key, new_off) =>
                (new_root ← AllocPage;
                 old_root ← gets root_offset_;
                 let node := InternalPage.Init in
                 let node := InternalPage.SetNumKeys node 1 in
                 let node := InternalPage.SetKeyAt node 0 split_key in
                 let node := InternalPage.SetChildAt node 0 old_root in
                 let node := InternalPage.SetChildAt node 1 new_off in
                 UnpinPage new_root (PInternal node) true;;
                 modify (fun t => set_root_offset_ t new_root);;
                 WriteMetadata;;
                 ret OK) st1
            | None => (Ok OK, st1)
            end).
  { intros fuel Hf. unfold Insert. erewrite run_bind by reflexivity.
    rewrite Hroot, Hne. rewrite (run_bind _ _ _ _ _ (Hrun fuel Hf)).
    destruct r as [[? ?]|]; reflexivity. }
  destruct Hchain as (Hne' & _ & Hlink).
  destruct r as [[sk noff]|]; cbn [split_result min_after] in *.
  - (* the root was split: a new root *)
    destruct Hsr as (-> & tl & tr & -> & Hnoff).
    destruct Hhd as (t0 & ts' & [= <- <-] & Hroot_tl).
    destruct (AllocPage_spec st1 _ Ha1) as (nr & st2 & Halloc & Hfresh & Hps2 & Hroot2 & Ha2).
    set (node := InternalPage.SetChildAt
                   (InternalPage.SetChildAt
                      (InternalPage.SetKeyAt (InternalPage.SetNumKeys InternalPage.Init 1) 0 sk)
                      0 (root_offset_ st2)) 1 noff).
    set (st4 := set_root_offset_ (write st2 nr (PInternal node)) nr).
    assert (Ha4 : alloc_inv st4 (nr :: offsets_of [tl; tr])).
    { apply alloc_inv_set_root, alloc_inv_write; [exact Ha2 | apply list_elem_of_here]. }
    destruct (WriteMetadata_spec st4 _ Ha4) as (st5 & Hwm & Hps5 & Hroot5 & Ha5).
    set (g' := Node nr [sk] [tl; tr]).
    exists st5, (records g'). split; [|split].
    + intros fuel Hf. rewrite (Hstep fuel Hf).
      rewrite (run_bind _ _ _ _ _ Halloc). erewrite run_bind by reflexivity.
      rewrite (run_bind _ _ _ _ _ (UnpinPage_dirty _ _ _)).
      erewrite run_bind by reflexivity. rewrite (run_bind _ _ _ _ _ Hwm). reflexivity.
    + apply (holds_tree st5 (S h) g').
      * rewrite Hroot5. reflexivity.
      * cbn [rep g']. split.
        -- exists node. rewrite Hps5. split; [apply lookup_write_same|].
           split; [cbn; lia|]. split; [reflexivity|].
           cbn [map]. rewrite Hroot_tl, <- Hroot, <- Hroot1, <- Hroot2, Hnoff. reflexivity.
        -- eapply Forall_rep_frame; [|exact Hreps]. intros o Ho. rewrite Hps5.
           unfold st4. cbn [pages set_root_offset_]. rewrite lookup_write_other.
           ++ rewrite Hps2. apply lookup_insert_ne. intros ->. contradiction.
           ++ intros ->. contradiction.
      * unfold g'. rewrite offsets_Node. apply NoDup_cons. split; assumption.
      * cbn [wf g']. split; [apply int_range_lt|]. split; [|exact Hwts].
        cbn. unfold INTERNAL_MAX_KEYS. lia.
      * unfold g'. rewrite leaves_Node. now apply Hlink.
      * exact Ha5.
    + unfold g'. rewrite records_Node. exact Hrel.
  - destruct Hsr as (-> & t' & ->).
    destruct Hhd as (t0 & ts' & [= <- <-] & Hroot_t').
    rewrite offsets_of_single in Hnd1, Ha1. rewrite leaves_of_single in Hlink.
    rewrite records_in_single in Hrel. apply Forall_cons in Hreps. destruct Hreps as [Hrep' _].
    apply wf_kids_nil in Hwts. destruct Hwts as (c & [= <-] & Hw').
    exists st1, (records t'). split; [|split; [|exact Hrel]].
    + intros fuel Hf. now rewrite (Hstep fuel Hf).
    + apply (holds_tree st1 h t'); auto. congruence.
Qed.

(** [Insert] keeps the tree a tree; afterwards the key holds the padded
    payload and every other key holds what it held. *)
Lemma Insert_spec (st : BPlusTree) (recs : list (Z * list Z)) (key : Z) (data : list Z) :
  tree_holds st recs -> is_int key ->
  exists st' recs',
    runs (fun fuel => Insert fuel key data) st OK st' /\
    tree_holds st' recs' /\ ins_rel key (pad data) recs recs'.
Proof.
  intros [Hroot Ha | h g Hroot Hr Hnd Hw Hl Ha] Hk.
  - destruct (Insert_empty st key data Hroot Ha Hk) as (st' & recs' & Hrun & H).
    exists st', recs'. split; [|exact H]. exists O. intros fuel _. apply Hrun.
  - destruct (Insert_tree st h g key data Hroot Hr Hnd Hw Hl Ha Hk) as (st' & recs' & Hrun & H).
    exists st', recs'. split; [|exact H]. exists (S h). intros fuel Hf. apply Hrun. lia.
Qed.

End InsertFacts.


(** * Deletion from one page, and the repair of an underfull child *)

Module DeletePageFacts.
Import Tree TreeSpec SlotsFacts LeafFacts InternalFacts OrderFacts StateFacts GhostFacts.
Import InsertPageFacts InsertFacts.

Ltac step H := rewrite (run_bind _ _ _ _ _ H).

(** ** Lists without one element *)

Lemma map_remove_at {A B : Type} (f : A -> B) (i : nat) (l : list A) :
  map f (remove_at i l) = remove_at i (map f l).
Proof. unfold remove_at. now rewrite map_app, firstn_map, skipn_map. Qed.

Lemma ascending_remove_at (ks : list Z) (i : nat) :
  ascending ks -> (i < length ks)%nat -> ascending (remove_at i ks).
Proof.
  intros Ha Hi. rewrite ascending_nth in *. intros a b Hab.
  rewrite length_remove_at in Hab by lia.
  rewrite !nth_remove_at by lia.
  destruct (Nat.ltb_spec a i), (Nat.ltb_spec b i); apply Ha; lia.
Qed.

Lemma del_rel_remove_at (recs : list (Z * list Z)) (i : nat) (key : Z) :
  ascending (map fst recs) -> (i < length recs)%nat -> fst (nth i recs zero_record) = key ->
  del_rel key recs (remove_at i recs).
Proof.
  intros Ha Hi Hk x. rewrite ascending_nth in Ha. rewrite length_map in Ha.
  assert (Hidx : forall a b, (a < b < length recs)%nat ->
                             fst (nth a recs zero_record) < fst (nth b recs zero_record)).
  { intros a b Hab. rewrite <- !nth_map_fst. now apply Ha. }
  unfold remove_at. rewrite elem_of_app. split.
  - intros [Hx|Hx].
    + apply (elem_take _ _ _ zero_record) in Hx. destruct Hx as (j & Hj1 & Hj2 & <-).
      split; [apply list_elem_of_In, nth_In; lia|]. specialize (Hidx j i ltac:(lia)). lia.
    + apply (elem_drop _ _ _ zero_record) in Hx. destruct Hx as (j & Hj & <-).
      split; [apply list_elem_of_In, nth_In; lia|]. specialize (Hidx i j ltac:(lia)). lia.
  - intros [Hx Hne]. rewrite <- (take_drop_middle recs i (nth i recs zero_record)) in Hx
      by (apply lookup_nth; lia).
    apply elem_of_app in Hx. destruct Hx as [Hx|Hx]; [now left|].
    apply elem_of_cons in Hx. destruct Hx as [->|Hx]; [contradiction | now right].
Qed.

(** ** A leaf *)

Lemma DeleteFromLeaf_spec (st : BPlusTree) (off next key : Z) (recs : list (Z * list Z))
                          (used : list Z) :
  leaf_at (pages st) off recs next -> alloc_inv st used -> off ∈ used ->
  ascending (map fst recs) -> key ∈ map fst recs ->
  exists recs' st',
    DeleteFromLeaf off key st
      = (Ok (if off =? root_offset_ st then Z.of_nat (length recs') =? 0
             else Z.of_nat (length recs') <? LEAF_MIN_KEYS), st') /\
    root_offset_ st' = root_offset_ st /\
    leaf_at (pages st') off recs' next /\
    (forall o, o <> off -> pages st' !! o = pages st !! o) /\
    alloc_inv st' used /\
    ascending (map fst recs') /\ del_rel key recs recs' /\
    S (length recs') = length recs.
Proof.
  intros (l & Hp & Hnk & Hrv & Hnx) Ha Hin Hasc Hkey.
  pose proof (alloc_inv_valid _ _ _ Ha Hin) as Hv.
  pose proof (leaf_at_num_keys _ _ Hnk Hrv) as Hnum.
  apply nth_elem_key in Hkey. destruct Hkey as (j & Hj & Hkj).
  destruct (find_key_is_Some l key (Z.to_nat (LeafPage.num_keys l)) 0 j) as (i & Efind).
  { lia. }
  { rewrite KeyAt_view by lia. now rewrite Hrv, nth_map_fst. }
  pose proof Efind as Efind'. apply find_key_Some in Efind'. destruct Efind' as (Hi & Hki & _).
  assert (Hkey_i : fst (nth i recs zero_record) = key).
  { rewrite <- Hki, KeyAt_view by lia. now rewrite Hrv, nth_map_fst. }
  set (l' := LeafPage.SetNumKeys
               (leaf_shift_left l i (Z.to_nat (LeafPage.num_keys l - 1) - i))
               (LeafPage.num_keys l - 1)).
  assert (Hview : recs_view l' = remove_at i recs).
  { unfold l'. rewrite leaf_delete_view by lia. now rewrite Hrv. }
  assert (Hlen' : S (length (remove_at i recs)) = length recs).
  { rewrite length_remove_at by lia. lia. }
  exists (remove_at i recs), (write st off (PLeaf l')).
  split; [|split; [reflexivity|split; [|split; [|split; [|split; [|split]]]]]].
  - unfold DeleteFromLeaf. step (PinLeaf_valid _ _ _ Hv Hp).
    unfold LeafPage.NumKeys. rewrite Efind.
    step (UnpinPage_dirty st off (PLeaf l')).
    erewrite run_bind by reflexivity.
    replace (Z.of_nat (length (remove_at i recs))) with (LeafPage.num_keys l - 1) by lia.
    cbn [root_offset_ write set_pages].
    destruct (off =? root_offset_ st); reflexivity.
  - exists l'. split; [apply lookup_write_same|]. split; [unfold l'; cbn; lia|].
    split; [exact Hview|]. unfold l'. cbn [LeafPage.SetNumKeys LeafPage.next_leaf].
    destruct (leaf_shift_left_spec (Z.to_nat (LeafPage.num_keys l - 1) - i) l i) as (_ & H & _).
    now rewrite H.
  - intros o Ho. now apply lookup_write_other.
  - now apply alloc_inv_write.
  - rewrite map_remove_at. apply ascending_remove_at; [exact Hasc | rewrite length_map; lia].
  - apply del_rel_remove_at; auto; lia.
  - exact Hlen'.
Qed.

(** ** The repair of an underfull leaf *)

Lemma drop_last_nth {A : Type} (l : list A) (d : A) :
  (0 < length l)%nat -> drop (length l - 1) l = [nth (length l - 1) l d].
Proof.
  intros H.
  assert (Hd : length (drop (length l - 1) l) = 1%nat) by (rewrite length_drop; lia).
  pose proof (nth_drop l (length l - 1) 0 d) as Hn.
  destruct (drop (length l - 1) l) as [|x [|y r]] eqn:E; try discriminate.
  cbn [nth] in Hn. rewrite Hn. f_equal. f_equal. lia.
Qed.

Lemma family_facts (st : BPlusTree) (poff : Z) (keys kidoffs : list Z) (used : list Z) :
  family st poff keys kidoffs used ->
  exists pn,
    pages st !! poff = Some (PInternal pn) /\
    InternalPage.num_keys pn = Z.of_nat (length keys) /\
    keys_view pn = keys /\ kids_view pn = kidoffs /\
    length kidoffs = S (length keys) /\
    valid st poff /\
    (forall j, (j <= length keys)%nat -> InternalPage.ChildAt pn j = nth j kidoffs 0) /\
    (forall j, (j < length keys)%nat -> InternalPage.KeyAt pn j = nth j keys 0) /\
    (forall j, (j <= length keys)%nat -> nth j kidoffs 0 <> poff) /\
    (forall j1 j2, (j1 <= length keys)%nat -> (j2 <= length keys)%nat -> j1 <> j2 ->
                   nth j1 kidoffs 0 <> nth j2 kidoffs 0) /\
    (forall j, (j <= length keys)%nat -> valid st (nth j kidoffs 0)).
Proof.
  intros [(pn & Hpp & Hnk & Hkv & Hcv) Hk1 Hnd Ha Hu].
  pose proof (length_keys_view pn) as Hlk. rewrite Hkv in Hlk.
  pose proof (length_kids_view pn) as Hlc. rewrite Hcv in Hlc.
  exists pn. split; [exact Hpp|]. split; [lia|]. split; [exact Hkv|]. split; [exact Hcv|].
  split; [lia|].
  assert (Hin : forall j, (j <= length keys)%nat -> nth j kidoffs 0 ∈ kidoffs).
  { intros j Hj. apply list_elem_of_In, nth_In. lia. }
  apply NoDup_cons in Hnd. destruct Hnd as [Hpk Hndk].
  split; [|split; [|split; [|split; [|split]]]].
  - eapply alloc_inv_valid; [exact Ha|]. apply Hu, list_elem_of_here.
  - intros j Hj. rewrite <- Hcv, nth_kids_view by lia. reflexivity.
  - intros j Hj. rewrite <- Hkv, nth_keys_view by lia. reflexivity.
  - intros j Hj Heq. apply Hpk. rewrite <- Heq. now apply Hin.
  - intros j1 j2 H1 H2 Hne Heq. apply Hne.
    apply NoDup_ListNoDup in Hndk. rewrite (NoDup_nth kidoffs 0) in Hndk.
    apply Hndk; [lia | lia | exact Heq].
  - intros j Hj. eapply alloc_inv_valid; [exact Ha|]. apply Hu.
    apply list_elem_of_further. now apply Hin.
Qed.

Lemma leaf_kids_intro (st : BPlusTree) (keys kidoffs : list Z)
                      (R : nat -> list (Z * list Z)) (N : nat -> Z) :
  (forall j, (j <= length keys)%nat -> leaf_at (pages st) (nth j kidoffs 0) (R j) (N j)) ->
  leaf_kids st keys kidoffs R N.
Proof.
  intros Hleaf j Hj. destruct (Hleaf j Hj) as (l & Hp & Hnk & Hrv & Hnx).
  exists l. split; [exact Hp|]. split; [|tauto]. now apply leaf_at_num_keys.
Qed.

Lemma alloc_inv_family_write (st : BPlusTree) (poff : Z) (keys kidoffs used : list Z)
                             (o : Z) (p : page) :
  alloc_inv st used -> (forall o, o ∈ poff :: kidoffs -> o ∈ used) ->
  o ∈ poff :: kidoffs -> alloc_inv (write st o p) used.
Proof. intros Ha Hu Ho. apply alloc_inv_write; auto. Qed.

Lemma kid_in_family (poff : Z) (keys kidoffs : list Z) (j : nat) :
  length kidoffs = S (length keys) -> (j <= length keys)%nat ->
  nth j kidoffs 0 ∈ poff :: kidoffs.
Proof. intros Hl Hj. apply list_elem_of_further, list_elem_of_In, nth_In. lia. Qed.

(** "Try to borrow from left sibling", when the left sibling can lend. *)
Lemma FixLeafChild_left_borrow (st : BPlusTree) (poff : Z) (i : nat) (keys kidoffs : list Z)
                               (R : nat -> list (Z * list Z)) (N : nat -> Z) (used : list Z)
                               (pn : InternalPage.t) :
  family st poff keys kidoffs used -> pages st !! poff = Some (PInternal pn) ->
  leaf_kids st keys kidoffs R N ->
  (0 < i <= length keys)%nat ->
  Z.of_nat (length (R i)) = LEAF_MIN_KEYS - 1 ->
  LEAF_MIN_KEYS < Z.of_nat (length (R (i - 1)%nat)) <= LEAF_MAX_KEYS ->
  exists st',
    FixLeafChild_left poff i pn (nth i kidoffs 0) st = (Ok true, st') /\
    leaf_borrowed st st' poff keys kidoffs R N used (i - 1).
Proof.
  intros Hfam Hpp' Hleafp Hi Hci Hca.
  destruct (family_facts _ _ _ _ _ Hfam)
    as (pn0 & Hpp & Hpnk & Hpkv & Hpcv & Hlko & Hvp & Hkid & Hkey & Hnep & Hnek & Hval).
  rewrite Hpp' in Hpp. injection Hpp as <-.
  destruct Hfam as [_ Hk1 _ Ha Hused].
  unfold leaf_borrowed.
  rewrite LEAF_MIN_KEYS_eq in *. unfold LEAF_MAX_KEYS in *.
  destruct (Hleafp (i - 1)%nat ltac:(lia)) as (la & Hpa & Hnka & Hrva & Hnxa).
  destruct (Hleafp i ltac:(lia)) as (lb & Hpb & Hnkb & Hrvb & Hnxb).
  pose proof (Hnek (i - 1)%nat i ltac:(lia) ltac:(lia) ltac:(lia)) as Hab.
  pose proof (Hnep (i - 1)%nat ltac:(lia)) as Hap.
  pose proof (Hnep i ltac:(lia)) as Hbp.
  pose proof (kid_in_family poff keys kidoffs (i - 1) Hlko ltac:(lia)) as Hain.
  pose proof (kid_in_family poff keys kidoffs i Hlko ltac:(lia)) as Hbin.
  pose proof (Hval (i - 1)%nat ltac:(lia)) as Hva.
  pose proof (Hval i ltac:(lia)) as Hvb.
  pose proof (Hkid (i - 1)%nat ltac:(lia)) as Hka.
  replace (S (i - 1)) with i by lia.
  set (ao := nth (i - 1) kidoffs 0) in *. set (bo := nth i kidoffs 0) in *.
  destruct (LeafPage.GetRecord la (Z.to_nat (LeafPage.num_keys la - 1))) as [tk td] eqn:Etk.
  set (la' := LeafPage.SetNumKeys la (LeafPage.num_keys la - 1)).
  set (lb' := LeafPage.SetNumKeys
                (LeafPage.SetRecord (leaf_shift_right lb (Z.to_nat (LeafPage.num_keys lb))) 0 tk td)
                (LeafPage.num_keys lb + 1)).
  set (pn' := InternalPage.SetKeyAt pn (i - 1) tk).
  set (st1 := write st ao (PLeaf la')).
  set (st2 := write st1 bo (PLeaf lb')).
  set (st3 := write st2 poff (PInternal pn')).
  assert (Hpb1 : pages st1 !! bo = Some (PLeaf lb)).
  { unfold st1. rewrite lookup_write_other by congruence. exact Hpb. }
  assert (Hpp2 : pages st2 !! poff = Some (PInternal pn)).
  { unfold st2, st1. rewrite !lookup_write_other by congruence. exact Hpp'. }
  exists st3. split.
  { unfold FixLeafChild_left.
    destruct (Nat.ltb_spec 0 i) as [_|]; [|lia].
    rewrite Hka. fold ao.
    step (UnpinPage_clean st poff (PInternal pn)).
    step (PinLeaf_valid st ao la Hva Hpa).
    unfold LeafPage.NumKeys.
    destruct (Z.ltb_spec LEAF_MIN_KEYS (LeafPage.num_keys la)) as [_|];
      [|rewrite LEAF_MIN_KEYS_eq in *; lia].
    rewrite Etk.
    step (UnpinPage_dirty st ao (PLeaf la')).
    step (PinLeaf_valid st1 bo lb Hvb Hpb1).
    step (UnpinPage_dirty st1 bo (PLeaf lb')).
    step (PinInternal_valid st2 poff pn Hvp Hpp2).
    step (UnpinPage_dirty st2 poff (PInternal pn')). reflexivity. }
  split; [reflexivity|]. split.
  { intros o H1 H2 H3. unfold st3, st2, st1. now rewrite !lookup_write_other by congruence. }
  exists (length (R (i - 1)%nat) - 1)%nat.
  assert (Htake : take (length (R (i - 1)%nat) - 1) (R (i - 1)%nat ++ R i)
                  = take (Z.to_nat (LeafPage.num_keys la - 1)) (recs_view la)).
  { rewrite take_app_le by lia. rewrite Hrva. f_equal. lia. }
  assert (Hlast : nth (length (R (i - 1)%nat) - 1) (R (i - 1)%nat) zero_record = (tk, td)).
  { replace (length (R (i - 1)%nat) - 1)%nat with (Z.to_nat (LeafPage.num_keys la - 1)) by lia.
    rewrite <- Hrva, nth_recs_view by lia. exact Etk. }
  assert (Hdrop : drop (length (R (i - 1)%nat) - 1) (R (i - 1)%nat ++ R i) = (tk, td) :: recs_view lb).
  { rewrite drop_app_le by lia.
    rewrite (drop_last_nth _ zero_record) by lia. rewrite Hlast, Hrvb. reflexivity. }
  rewrite length_app.
  split; [lia|]. split; [lia|]. split; [|split; [|split]].
  - exists la'. split.
    { unfold st3, st2. rewrite !lookup_write_other by congruence. apply lookup_write_same. }
    split; [unfold la'; cbn; lia|]. split; [|exact Hnxa].
    rewrite Htake. apply leaf_drop_last_view. lia.
  - exists lb'. split.
    { unfold st3. rewrite lookup_write_other by congruence. apply lookup_write_same. }
    split; [unfold lb'; cbn; lia|]. split.
    { rewrite Hdrop. apply leaf_prepend_view. lia. }
    unfold lb'. cbn [LeafPage.SetNumKeys LeafPage.SetRecord LeafPage.next_leaf].
    destruct (leaf_shift_right_spec (Z.to_nat (LeafPage.num_keys lb)) lb) as (_ & H & _).
    now rewrite H.
  - exists pn'. split; [apply lookup_write_same|]. split; [unfold pn'; cbn; lia|].
    destruct (internal_set_key_view pn (i - 1) tk ltac:(lia)) as [Hk1' Hk2'].
    fold pn' in Hk1', Hk2'. rewrite Hk1', Hk2', Hpkv, Hpcv.
    rewrite app_nth1 by lia. rewrite Hlast. tauto.
  - unfold st3, st2, st1.
    repeat apply alloc_inv_write; auto. apply Hused, list_elem_of_here.
Qed.

(** "Try to borrow from left sibling", when there is no left sibling or it
    cannot lend: nothing changes. *)
Lemma FixLeafChild_left_none (st : BPlusTree) (poff : Z) (i : nat) (keys kidoffs : list Z)
                             (R : nat -> list (Z * list Z)) (N : nat -> Z) (used : list Z)
                             (pn : InternalPage.t) (child_off : Z) :
  family st poff keys kidoffs used -> pages st !! poff = Some (PInternal pn) ->
  leaf_kids st keys kidoffs R N ->
  (i <= length keys)%nat ->
  ((0 < i)%nat -> Z.of_nat (length (R (i - 1)%nat)) <= LEAF_MIN_KEYS) ->
  FixLeafChild_left poff i pn child_off st = (Ok false, st).
Proof.
  intros Hfam Hpp' Hleafp Hi Hpoor.
  destruct (family_facts _ _ _ _ _ Hfam)
    as (pn0 & Hpp & Hpnk & Hpkv & Hpcv & Hlko & Hvp & Hkid & Hkey & Hnep & Hnek & Hval).
  rewrite Hpp' in Hpp. injection Hpp as <-.
  unfold FixLeafChild_left. destruct (Nat.ltb_spec 0 i) as [Hi0|Hi0].
  - destruct (Hleafp (i - 1)%nat ltac:(lia)) as (la & Hpa & Hnka & Hrva & Hnxa).
    rewrite (Hkid (i - 1)%nat ltac:(lia)).
    step (UnpinPage_clean st poff (PInternal pn)).
    step (PinLeaf_valid st _ la (Hval (i - 1)%nat ltac:(lia)) Hpa).
    unfold LeafPage.NumKeys. specialize (Hpoor Hi0).
    destruct (Z.ltb_spec LEAF_MIN_KEYS (LeafPage.num_keys la)) as [|_]; [lia|].
    now step (UnpinPage_clean st (nth (i - 1) kidoffs 0) (PLeaf la)).
  - now step (UnpinPage_clean st poff (PInternal pn)).
Qed.

(** "Try to borrow from right sibling", when the right sibling can lend. *)
Lemma FixLeafChild_right_borrow (st : BPlusTree) (poff : Z) (i : nat) (keys kidoffs : list Z)
                                (R : nat -> list (Z * list Z)) (N : nat -> Z) (used : list Z)
                                (pn : InternalPage.t) :
  family st poff keys kidoffs used -> pages st !! poff = Some (PInternal pn) ->
  leaf_kids st keys kidoffs R N ->
  (i < length keys)%nat ->
  Z.of_nat (length (R i)) = LEAF_MIN_KEYS - 1 ->
  LEAF_MIN_KEYS < Z.of_nat (length (R (S i))) <= LEAF_MAX_KEYS ->
  exists st',
    FixLeafChild_right poff i pn (InternalPage.num_keys pn) (nth i kidoffs 0) st = (Ok true, st') /\
    leaf_borrowed st st' poff keys kidoffs R N used i.
Proof.
  intros Hfam Hpp' Hleafp Hi Hci Hcb.
  destruct (family_facts _ _ _ _ _ Hfam)
    as (pn0 & Hpp & Hpnk & Hpkv & Hpcv & Hlko & Hvp & Hkid & Hkey & Hnep & Hnek & Hval).
  rewrite Hpp' in Hpp. injection Hpp as <-.
  destruct Hfam as [_ Hk1 _ Ha Hused].
  unfold leaf_borrowed.
  rewrite LEAF_MIN_KEYS_eq in *. unfold LEAF_MAX_KEYS in *.
  destruct (Hleafp i ltac:(lia)) as (la & Hpa & Hnka & Hrva & Hnxa).
  destruct (Hleafp (S i) ltac:(lia)) as (lb & Hpb & Hnkb & Hrvb & Hnxb).
  pose proof (Hnek i (S i) ltac:(lia) ltac:(lia) ltac:(lia)) as Hab.
  pose proof (Hnep i ltac:(lia)) as Hap.
  pose proof (Hnep (S i) ltac:(lia)) as Hbp.
  pose proof (kid_in_family poff keys kidoffs i Hlko ltac:(lia)) as Hain.
  pose proof (kid_in_family poff keys kidoffs (S i) Hlko ltac:(lia)) as Hbin.
  pose proof (Hval i ltac:(lia)) as Hva.
  pose proof (Hval (S i) ltac:(lia)) as Hvb.
  pose proof (Hkid (S i) ltac:(lia)) as Hkb.
  set (ao := nth i kidoffs 0) in *. set (bo := nth (S i) kidoffs 0) in *.
  destruct (LeafPage.GetRecord lb 0) as [tk td] eqn:Etk.
  set (lb' := LeafPage.SetNumKeys
                (leaf_shift_left lb 0 (Z.to_nat (LeafPage.num_keys lb - 1)))
                (LeafPage.num_keys lb - 1)).
  set (la' := LeafPage.SetNumKeys
                (LeafPage.SetRecord la (Z.to_nat (LeafPage.num_keys la)) tk td)
                (LeafPage.num_keys la + 1)).
  set (pn' := InternalPage.SetKeyAt pn i (LeafPage.KeyAt lb' 0)).
  set (st1 := write st bo (PLeaf lb')).
  set (st2 := write st1 ao (PLeaf la')).
  set (st3 := write st2 poff (PInternal pn')).
  assert (Hpa1 : pages st1 !! ao = Some (PLeaf la)).
  { unfold st1. rewrite lookup_write_other by congruence. exact Hpa. }
  assert (Hpp2 : pages st2 !! poff = Some (PInternal pn)).
  { unfold st2, st1. rewrite !lookup_write_other by congruence. exact Hpp'. }
  assert (Hviewb : recs_view lb' = drop 1 (R (S i))).
  { unfold lb'. rewrite <- Hrvb.
    replace (Z.to_nat (LeafPage.num_keys lb - 1)) with (Z.to_nat (LeafPage.num_keys lb - 1) - 0)%nat by lia.
    rewrite leaf_delete_view by lia. reflexivity. }
  assert (Hfirst : nth 0 (R (S i)) zero_record = (tk, td)).
  { rewrite <- Hrvb, nth_recs_view by lia. exact Etk. }
  exists st3. split.
  { unfold FixLeafChild_right.
    destruct (Z.ltb_spec (Z.of_nat i) (InternalPage.num_keys pn)) as [_|]; [|lia].
    rewrite Nat.add_1_r, Hkb. fold bo.
    step (UnpinPage_clean st poff (PInternal pn)).
    step (PinLeaf_valid st bo lb Hvb Hpb).
    unfold LeafPage.NumKeys.
    destruct (Z.ltb_spec LEAF_MIN_KEYS (LeafPage.num_keys lb)) as [_|];
      [|rewrite LEAF_MIN_KEYS_eq in *; lia].
    rewrite Etk.
    step (UnpinPage_dirty st bo (PLeaf lb')).
    step (PinLeaf_valid st1 ao la Hva Hpa1).
    step (UnpinPage_dirty st1 ao (PLeaf la')).
    step (PinInternal_valid st2 poff pn Hvp Hpp2).
    step (UnpinPage_dirty st2 poff (PInternal pn')). reflexivity. }
  split; [reflexivity|]. split.
  { intros o H1 H2 H3. unfold st3, st2, st1. now rewrite !lookup_write_other by congruence. }
  exists (S (length (R i))).
  assert (Htake : take (S (length (R i))) (R i ++ R (S i)) = R i ++ [(tk, td)]).
  { rewrite take_app_ge by lia. f_equal.
    replace (S (length (R i)) - length (R i))%nat with 1%nat by lia.
    destruct (R (S i)) as [|r rest]; [simpl in Hcb; lia|]. cbn in Hfirst. now subst r. }
  assert (Hdrop : drop (S (length (R i))) (R i ++ R (S i)) = drop 1 (R (S i))).
  { rewrite drop_app_ge by lia. f_equal. lia. }
  rewrite length_app.
  split; [lia|]. split; [lia|]. split; [|split; [|split]].
  - exists la'. split.
    { unfold st3. rewrite lookup_write_other by congruence. apply lookup_write_same. }
    split; [unfold la'; cbn; lia|]. split; [|exact Hnxa].
    rewrite Htake, <- Hrva. apply leaf_append_one_view. lia.
  - exists lb'. split.
    { unfold st3, st2. rewrite !lookup_write_other by congruence. apply lookup_write_same. }
    split; [unfold lb'; cbn; lia|]. split; [now rewrite Hdrop|].
    unfold lb'. cbn [LeafPage.SetNumKeys LeafPage.next_leaf].
    destruct (leaf_shift_left_spec (Z.to_nat (LeafPage.num_keys lb - 1)) lb 0) as (_ & H & _).
    now rewrite H.
  - exists pn'. split; [apply lookup_write_same|]. split; [unfold pn'; cbn; lia|].
    destruct (internal_set_key_view pn i (LeafPage.KeyAt lb' 0) ltac:(lia)) as [Hk1' Hk2'].
    fold pn' in Hk1', Hk2'. rewrite Hk1', Hk2', Hpkv, Hpcv.
    split; [|reflexivity]. f_equal.
    rewrite KeyAt_view by (unfold lb'; cbn; lia).
    rewrite Hviewb, nth_map_fst. f_equal.
    rewrite app_nth2 by lia. rewrite nth_drop. f_equal. lia.
  - unfold st3, st2, st1.
    repeat apply alloc_inv_write; auto. apply Hused, list_elem_of_here.
Qed.

Lemma FixLeafChild_right_none (st : BPlusTree) (poff : Z) (i : nat) (keys kidoffs : list Z)
                              (R : nat -> list (Z * list Z)) (N : nat -> Z) (used : list Z)
                              (pn : InternalPage.t) (child_off : Z) :
  family st poff keys kidoffs used -> pages st !! poff = Some (PInternal pn) ->
  leaf_kids st keys kidoffs R N ->
  (i <= length keys)%nat ->
  ((i < length keys)%nat -> Z.of_nat (length (R (S i))) <= LEAF_MIN_KEYS) ->
  FixLeafChild_right poff i pn (InternalPage.num_keys pn) child_off st = (Ok false, st).
Proof.
  intros Hfam Hpp' Hleafp Hi Hpoor.
  destruct (family_facts _ _ _ _ _ Hfam)
    as (pn0 & Hpp & Hpnk & Hpkv & Hpcv & Hlko & Hvp & Hkid & Hkey & Hnep & Hnek & Hval).
  rewrite Hpp' in Hpp. injection Hpp as <-.
  unfold FixLeafChild_right.
  destruct (Z.ltb_spec (Z.of_nat i) (InternalPage.num_keys pn)) as [Hi0|Hi0].
  - destruct (Hleafp (S i) ltac:(lia)) as (lb & Hpb & Hnkb & Hrvb & Hnxb).
    rewrite Nat.add_1_r, (Hkid (S i) ltac:(lia)).
    step (UnpinPage_clean st poff (PInternal pn)).
    step (PinLeaf_valid st _ lb (Hval (S i) ltac:(lia)) Hpb).
    unfold LeafPage.NumKeys. specialize (Hpoor ltac:(lia)).
    destruct (Z.ltb_spec LEAF_MIN_KEYS (LeafPage.num_keys lb)) as [|_]; [lia|].
    now step (UnpinPage_clean st (nth (S i) kidoffs 0) (PLeaf lb)).
  - now step (UnpinPage_clean st poff (PInternal pn)).
Qed.

(** The separator [j] and the child right of it leave the parent. *)
Lemma remove_from_parent_spec (st : BPlusTree) (poff : Z) (pn : InternalPage.t) (j : nat) :
  valid st poff -> pages st !! poff = Some (PInternal pn) ->
  (j < Z.to_nat (InternalPage.num_keys pn))%nat ->
  exists pn',
    remove_from_parent poff j st = (Ok tt, write st poff (PInternal pn')) /\
    InternalPage.num_keys pn' = InternalPage.num_keys pn - 1 /\
    keys_view pn' = remove_at j (keys_view pn) /\
    kids_view pn' = remove_at (S j) (kids_view pn).
Proof.
  intros Hv Hp Hj.
  destruct (internal_remove_view pn j Hj) as (H1 & H2 & H3).
  eexists. split; [|split; [exact H3|split; [exact H1 | exact H2]]].
  unfold remove_from_parent. step (PinInternal_valid st poff pn Hv Hp). reflexivity.
Qed.

(** "Cannot borrow -- merge": the leaves [j] and [j + 1], [j] being the
    left sibling of the child if there is one. *)
Lemma FixLeafChild_merge_spec (st : BPlusTree) (poff : Z) (i j : nat) (keys kidoffs : list Z)
                              (R : nat -> list (Z * list Z)) (N : nat -> Z) (used : list Z)
                              (pn : InternalPage.t) :
  family st poff keys kidoffs used -> pages st !! poff = Some (PInternal pn) ->
  leaf_kids st keys kidoffs R N ->
  (i <= length keys)%nat -> j = (if (0 <? i)%nat then i - 1 else i)%nat ->
  LEAF_MIN_KEYS <= Z.of_nat (length (R j)) + Z.of_nat (length (R (S j))) <= LEAF_MAX_KEYS ->
  exists st',
    FixLeafChild_merge poff i pn (nth i kidoffs 0) st = (Ok tt, st') /\
    leaf_merged st st' poff keys kidoffs R N used j.
Proof.
  intros Hfam Hpp' Hleafp Hi Hj Hcnt.
  destruct (family_facts _ _ _ _ _ Hfam)
    as (pn0 & Hpp & Hpnk & Hpkv & Hpcv & Hlko & Hvp & Hkid & Hkey & Hnep & Hnek & Hval).
  rewrite Hpp' in Hpp. injection Hpp as <-.
  destruct Hfam as [_ Hk1 _ Ha Hused].
  unfold leaf_merged.
  assert (Hjn : (j < length keys)%nat) by (destruct (Nat.ltb_spec 0 i); lia).
  destruct (Hleafp j ltac:(lia)) as (la & Hpa & Hnka & Hrva & Hnxa).
  destruct (Hleafp (S j) ltac:(lia)) as (lb & Hpb & Hnkb & Hrvb & Hnxb).
  pose proof (Hnek j (S j) ltac:(lia) ltac:(lia) ltac:(lia)) as Hab.
  pose proof (Hnep j ltac:(lia)) as Hap.
  pose proof (Hnep (S j) ltac:(lia)) as Hbp.
  pose proof (kid_in_family poff keys kidoffs j Hlko ltac:(lia)) as Hain.
  pose proof (kid_in_family poff keys kidoffs (S j) Hlko ltac:(lia)) as Hbin.
  pose proof (Hval j ltac:(lia)) as Hva.
  pose proof (Hval (S j) ltac:(lia)) as Hvb.
  set (ao := nth j kidoffs 0) in *. set (bo := nth (S j) kidoffs 0) in *.
  set (la' := LeafPage.SetNextLeaf
                (LeafPage.SetNumKeys
                   (leaf_append la lb (Z.to_nat (LeafPage.num_keys la)) 0
                                (Z.to_nat (LeafPage.num_keys lb)))
                   (LeafPage.num_keys la + LeafPage.num_keys lb))
                (LeafPage.NextLeaf lb)).
  set (st1 := write st ao (PLeaf la')).
  assert (Ha1 : alloc_inv st1 used) by (apply alloc_inv_write; auto).
  destruct (DeallocPage_mem st1 used bo Ha1 ltac:(auto)) as (st2 & Hde & Hps2 & Hroot2 & Hfs2 & Ha2).
  assert (Hpp2 : pages st2 !! poff = Some (PInternal pn)).
  { rewrite Hps2, lookup_insert_ne by congruence.
    unfold st1. rewrite lookup_write_other by congruence. exact Hpp'. }
  assert (Hvp2 : valid st2 poff).
  { destruct Hvp as [H1 H2]. split; [exact H1|]. rewrite Hfs2. exact H2. }
  destruct (remove_from_parent_spec st2 poff pn j Hvp2 Hpp2 ltac:(lia))
    as (pn' & Hrm & Hnk' & Hkv' & Hcv').
  assert (Hpb1 : pages st1 !! bo = Some (PLeaf lb)).
  { unfold st1. rewrite lookup_write_other by congruence. exact Hpb. }
  exists (write st2 poff (PInternal pn')). split.
  { unfold FixLeafChild_merge.
    assert (Hsel : (if (0 <? i)%nat
                    then (InternalPage.ChildAt pn (i - 1), nth i kidoffs 0, (i - 1)%nat)
                    else (nth i kidoffs 0, InternalPage.ChildAt pn (i + 1), i))
                   = (ao, bo, j)).
    { subst j. unfold ao, bo. destruct (Nat.ltb_spec 0 i).
      - rewrite (Hkid (i - 1)%nat ltac:(lia)). repeat f_equal. lia.
      - rewrite Nat.add_1_r, (Hkid (S i) ltac:(lia)). reflexivity. }
    rewrite Hsel.
    step (UnpinPage_clean st poff (PInternal pn)).
    step (PinLeaf_valid st ao la Hva Hpa).
    step (PinLeaf_valid st bo lb Hvb Hpb).
    step (UnpinPage_dirty st ao (PLeaf la')).
    step (UnpinPage_clean st1 bo (PLeaf lb)).
    step Hde. exact Hrm. }
  split; [cbn; rewrite Hroot2; reflexivity|]. split.
  { intros o H1 H2 H3. rewrite lookup_write_other by congruence.
    rewrite Hps2, lookup_insert_ne by congruence.
    unfold st1. now rewrite lookup_write_other by congruence. }
  rewrite length_app. split; [lia|]. split; [|split].
  - exists la'. split.
    { rewrite lookup_write_other by congruence. rewrite Hps2, lookup_insert_ne by congruence.
      unfold st1. apply lookup_write_same. }
    split; [unfold la'; cbn; lia|]. split.
    + unfold la'. rewrite <- Hrva, <- Hrvb. apply leaf_merge_view; lia.
    + exact Hnxb.
  - exists pn'. split; [apply lookup_write_same|]. split; [lia|].
    rewrite Hkv', Hcv', Hpkv, Hpcv. tauto.
  - intros used' Hu. apply (alloc_inv_sub _ (poff :: used')).
    + intros o Ho. now apply list_elem_of_further.
    + apply alloc_inv_write; [|apply list_elem_of_here].
      apply Ha2. intros o Ho. apply elem_of_cons in Ho. destruct Ho as [->|Ho]; [|auto].
      split; [apply Hused, list_elem_of_here | congruence].
Qed.

(** [FixLeafChild] on a child with one record less than the minimum: a
    record is borrowed from a sibling that has more than the minimum, or the
    child is merged with a sibling that has the minimum. *)
Lemma FixLeafChild_spec (st : BPlusTree) (poff : Z) (i : nat) (keys kidoffs : list Z)
                        (R : nat -> list (Z * list Z)) (N : nat -> Z) (used : list Z) :
  family st poff keys kidoffs used ->
  (i <= length keys)%nat ->
  (forall j, (j <= length keys)%nat -> leaf_at (pages st) (nth j kidoffs 0) (R j) (N j)) ->
  Z.of_nat (length (R i)) = LEAF_MIN_KEYS - 1 ->
  (forall j, (j <= length keys)%nat -> j <> i ->
             LEAF_MIN_KEYS <= Z.of_nat (length (R j)) <= LEAF_MAX_KEYS) ->
  exists st' j,
    FixLeafChild poff i st = (Ok tt, st') /\
    (j < length keys)%nat /\ (j = i \/ S j = i) /\
    (leaf_borrowed st st' poff keys kidoffs R N used j \/
     leaf_merged st st' poff keys kidoffs R N used j).
Proof.
  intros Hfam Hi Hleaf Hci Hcj.
  pose proof (leaf_kids_intro _ _ _ _ _ Hleaf) as Hleafp.
  destruct (family_facts _ _ _ _ _ Hfam)
    as (pn & Hpp & Hpnk & Hpkv & Hpcv & Hlko & Hvp & Hkid & Hkey & Hnep & Hnek & Hval).
  pose proof (fam_keys _ _ _ _ _ Hfam) as Hk1.
  assert (Hstart : forall k : InternalPage.t -> M unit,
             (parent ← PinInternal poff; k parent) st = k pn st).
  { intros k. now step (PinInternal_valid st poff pn Hvp Hpp). }
  unfold FixLeafChild. rewrite Hstart. unfold InternalPage.NumKeys. rewrite (Hkid i Hi).
  destruct (Nat.lt_ge_cases 0 i) as [Hi0|Hi0];
    [destruct (Z.lt_ge_cases LEAF_MIN_KEYS (Z.of_nat (length (R (i - 1)%nat)))) as [Hl|Hl]|].
  - (* borrow from the left sibling *)
    destruct (FixLeafChild_left_borrow st poff i keys kidoffs R N used pn Hfam Hpp Hleafp
                ltac:(lia) Hci) as (st' & Hrun & Hres).
    { split; [exact Hl|]. apply Hcj; lia. }
    exists st', (i - 1)%nat. split; [now step Hrun|].
    split; [lia|]. split; [right; lia|]. now left.
  - (* the left sibling cannot lend *)
    step (FixLeafChild_left_none st poff i keys kidoffs R N used pn (nth i kidoffs 0)
            Hfam Hpp Hleafp Hi ltac:(intros _; exact Hl)).
    cbv iota. rewrite Hstart.
    destruct (Nat.lt_ge_cases i (length keys)) as [Hin|Hin];
      [destruct (Z.lt_ge_cases LEAF_MIN_KEYS (Z.of_nat (length (R (S i))))) as [Hr|Hr]|].
    + destruct (FixLeafChild_right_borrow st poff i keys kidoffs R N used pn Hfam Hpp Hleafp
                  Hin Hci) as (st' & Hrun & Hres).
      { split; [exact Hr|]. apply Hcj; lia. }
      exists st', i. split; [now step Hrun|].
      split; [lia|]. split; [now left|]. now left.
    + step (FixLeafChild_right_none st poff i keys kidoffs R N used pn (nth i kidoffs 0)
              Hfam Hpp Hleafp Hi ltac:(intros _; exact Hr)).
      cbv iota. rewrite Hstart.
      destruct (FixLeafChild_merge_spec st poff i (i - 1) keys kidoffs R N used pn Hfam Hpp Hleafp Hi)
        as (st' & Hrun & Hres).
      { destruct (Nat.ltb_spec 0 i); [reflexivity | lia]. }
      { replace (S (i - 1)) with i by lia.
        pose proof (Hcj (i - 1)%nat ltac:(lia) ltac:(lia)).
        rewrite LEAF_MIN_KEYS_eq in *. unfold LEAF_MAX_KEYS in *. lia. }
      exists st', (i - 1)%nat. split; [exact Hrun|].
      split; [lia|]. split; [right; lia|]. now right.
    + step (FixLeafChild_right_none st poff i keys kidoffs R N used pn (nth i kidoffs 0)
              Hfam Hpp Hleafp Hi ltac:(intros; lia)).
      cbv iota. rewrite Hstart.
      destruct (FixLeafChild_merge_spec st poff i (i - 1) keys kidoffs R N used pn Hfam Hpp Hleafp Hi)
        as (st' & Hrun & Hres).
      { destruct (Nat.ltb_spec 0 i); [reflexivity | lia]. }
      { replace (S (i - 1)) with i by lia.
        pose proof (Hcj (i - 1)%nat ltac:(lia) ltac:(lia)).
        rewrite LEAF_MIN_KEYS_eq in *. unfold LEAF_MAX_KEYS in *. lia. }
      exists st', (i - 1)%nat. split; [exact Hrun|].
      split; [lia|]. split; [right; lia|]. now right.
  - (* no left sibling *)
    assert (i = 0%nat) as -> by lia.
    step (FixLeafChild_left_none st poff 0 keys kidoffs R N used pn (nth 0 kidoffs 0)
            Hfam Hpp Hleafp Hi ltac:(intros; lia)).
    cbv iota. rewrite Hstart.
    destruct (Z.lt_ge_cases LEAF_MIN_KEYS (Z.of_nat (length (R 1%nat)))) as [Hr|Hr].
    + destruct (FixLeafChild_right_borrow st poff 0 keys kidoffs R N used pn Hfam Hpp Hleafp
                  ltac:(lia) Hci) as (st' & Hrun & Hres).
      { split; [exact Hr|]. apply Hcj; lia. }
      exists st', 0%nat. split; [now step Hrun|].
      split; [lia|]. split; [now left|]. now left.
    + step (FixLeafChild_right_none st poff 0 keys kidoffs R N used pn (nth 0 kidoffs 0)
              Hfam Hpp Hleafp Hi ltac:(intros _; exact Hr)).
      cbv iota. rewrite Hstart.
      destruct (FixLeafChild_merge_spec st poff 0 0 keys kidoffs R N used pn Hfam Hpp Hleafp Hi)
        as (st' & Hrun & Hres); [reflexivity| |].
      { pose proof (Hcj 1%nat ltac:(lia) ltac:(lia)).
        rewrite LEAF_MIN_KEYS_eq in *. unfold LEAF_MAX_KEYS in *. lia. }
      exists st', 0%nat. split; [exact Hrun|].
      split; [lia|]. split; [now left|]. now right.
Qed.


(** ** The repair of an underfull internal node *)

Lemma node_kids_intro (st : BPlusTree) (keys kidoffs : list Z) (K C : nat -> list Z) :
  (forall j, (j <= length keys)%nat -> node_at (pages st) (nth j kidoffs 0) (K j) (C j)) ->
  node_kids st keys kidoffs K C.
Proof.
  intros Hnode j Hj. destruct (Hnode j Hj) as (nd & Hp & Hnk & Hkv & Hcv).
  exists nd. split; [exact Hp|].
  pose proof (length_keys_view nd) as H1. pose proof (length_kids_view nd) as H2.
  rewrite Hkv in H1. rewrite Hcv in H2.
  split; [lia|]. split; [exact Hkv|]. split; [exact Hcv|]. lia.
Qed.

Lemma FixInternalChild_left_borrow (st : BPlusTree) (poff : Z) (i : nat) (keys kidoffs : list Z)
                                   (K C : nat -> list Z) (used : list Z) (pn : InternalPage.t) :
  family st poff keys kidoffs used -> pages st !! poff = Some (PInternal pn) ->
  node_kids st keys kidoffs K C ->
  (0 < i <= length keys)%nat ->
  Z.of_nat (length (K i)) = INTERNAL_MIN_KEYS - 1 ->
  INTERNAL_MIN_KEYS < Z.of_nat (length (K (i - 1)%nat)) <= INTERNAL_MAX_KEYS ->
  exists st',
    FixInternalChild_left poff i pn (nth i kidoffs 0) st = (Ok true, st') /\
    node_borrowed st st' poff keys kidoffs K C used (i - 1).
Proof.
  intros Hfam Hpp' Hnodep Hi Hci Hca.
  destruct (family_facts _ _ _ _ _ Hfam)
    as (pn0 & Hpp & Hpnk & Hpkv & Hpcv & Hlko & Hvp & Hkid & Hkey & Hnep & Hnek & Hval).
  rewrite Hpp' in Hpp. injection Hpp as <-.
  destruct Hfam as [_ Hk1 _ Ha Hused].
  unfold node_borrowed.
  rewrite INTERNAL_MIN_KEYS_eq in *. unfold INTERNAL_MAX_KEYS in *.
  destruct (Hnodep (i - 1)%nat ltac:(lia)) as (la & Hpa & Hnka & Hkva & Hcva & Hlca).
  destruct (Hnodep i ltac:(lia)) as (lb & Hpb & Hnkb & Hkvb & Hcvb & Hlcb).
  pose proof (Hnek (i - 1)%nat i ltac:(lia) ltac:(lia) ltac:(lia)) as Hab.
  pose proof (Hnep (i - 1)%nat ltac:(lia)) as Hap.
  pose proof (Hnep i ltac:(lia)) as Hbp.
  pose proof (kid_in_family poff keys kidoffs (i - 1) Hlko ltac:(lia)) as Hain.
  pose proof (kid_in_family poff keys kidoffs i Hlko ltac:(lia)) as Hbin.
  pose proof (Hval (i - 1)%nat ltac:(lia)) as Hva.
  pose proof (Hval i ltac:(lia)) as Hvb.
  pose proof (Hkid (i - 1)%nat ltac:(lia)) as Hka.
  pose proof (Hkey (i - 1)%nat ltac:(lia)) as Hkk.
  replace (S (i - 1)) with i by lia.
  set (ao := nth (i - 1) kidoffs 0) in *. set (bo := nth i kidoffs 0) in *.
  set (pk := nth (i - 1) keys 0) in *.
  set (bk := InternalPage.KeyAt la (Z.to_nat (InternalPage.num_keys la - 1))).
  set (bc := InternalPage.ChildAt la (Z.to_nat (InternalPage.num_keys la))).
  set (la' := InternalPage.SetNumKeys la (InternalPage.num_keys la - 1)).
  set (c1 := internal_shift_right lb (Z.to_nat (InternalPage.num_keys lb))).
  set (c2 := InternalPage.SetChildAt c1 1 (InternalPage.ChildAt c1 0)).
  set (lb' := InternalPage.SetNumKeys
                (InternalPage.SetChildAt (InternalPage.SetKeyAt c2 0 pk) 0 bc)
                (InternalPage.num_keys lb + 1)).
  set (pn' := InternalPage.SetKeyAt pn (i - 1) bk).
  set (st1 := write st ao (PInternal la')).
  set (st2 := write st1 bo (PInternal lb')).
  set (st3 := write st2 poff (PInternal pn')).
  assert (Hpb1 : pages st1 !! bo = Some (PInternal lb)).
  { unfold st1. rewrite lookup_write_other by congruence. exact Hpb. }
  assert (Hpp2 : pages st2 !! poff = Some (PInternal pn)).
  { unfold st2, st1. rewrite !lookup_write_other by congruence. exact Hpp'. }
  exists st3. split.
  { unfold FixInternalChild_left.
    destruct (Nat.ltb_spec 0 i) as [_|]; [|lia].
    rewrite Hka, Hkk. fold ao.
    step (UnpinPage_clean st poff (PInternal pn)).
    step (PinInternal_valid st ao la Hva Hpa).
    unfold InternalPage.NumKeys.
    destruct (Z.ltb_spec INTERNAL_MIN_KEYS (InternalPage.num_keys la)) as [_|];
      [|rewrite INTERNAL_MIN_KEYS_eq in *; lia].
    step (UnpinPage_dirty st ao (PInternal la')).
    step (PinInternal_valid st1 bo lb Hvb Hpb1).
    step (UnpinPage_dirty st1 bo (PInternal lb')).
    step (PinInternal_valid st2 poff pn Hvp Hpp2).
    step (UnpinPage_dirty st2 poff (PInternal pn')). reflexivity. }
  split; [reflexivity|]. split.
  { intros o H1 H2 H3. unfold st3, st2, st1. now rewrite !lookup_write_other by congruence. }
  set (na := length (K (i - 1)%nat)) in *.
  exists (na - 1)%nat.
  destruct (internal_drop_last_view la ltac:(lia)) as [Hl1 Hl2]. fold la' in Hl1, Hl2.
  destruct (internal_prepend_view lb pk bc ltac:(lia)) as [Hc1 Hc2].
  fold c1 c2 lb' in Hc1, Hc2.
  assert (Hbk : nth (na - 1) (K (i - 1)%nat) 0 = bk).
  { unfold bk. rewrite <- Hkva, nth_keys_view by lia. f_equal. lia. }
  assert (Hbc : nth na (C (i - 1)%nat) 0 = bc).
  { unfold bc. rewrite <- Hcva, nth_kids_view by lia. f_equal. lia. }
  rewrite length_app. cbn [length].
  split; [lia|]. split; [lia|]. split; [|split; [|split]].
  - exists la'. split.
    { unfold st3, st2. rewrite !lookup_write_other by congruence. apply lookup_write_same. }
    split; [unfold la'; cbn; lia|]. split.
    + rewrite Hl1, Hkva, take_app_le by lia. f_equal. lia.
    + rewrite Hl2, Hcva, take_app_le by lia. f_equal. lia.
  - exists lb'. split.
    { unfold st3. rewrite lookup_write_other by congruence. apply lookup_write_same. }
    split; [unfold lb'; cbn; lia|]. split.
    + rewrite Hc1, Hkvb. replace (S (na - 1)) with na by lia.
      unfold na. now rewrite drop_app_length.
    + rewrite Hc2, Hcvb. replace (S (na - 1)) with na by lia.
      rewrite drop_app_le by lia. f_equal.
      replace na with (length (C (i - 1)%nat) - 1)%nat at 1 by lia.
      rewrite (drop_last_nth _ 0) by lia. cbn [app]. f_equal.
      replace (length (C (i - 1)%nat) - 1)%nat with na by lia. now rewrite Hbc.
  - exists pn'. split; [apply lookup_write_same|]. split; [unfold pn'; cbn; lia|].
    destruct (internal_set_key_view pn (i - 1) bk ltac:(lia)) as [Hk1' Hk2'].
    fold pn' in Hk1', Hk2'. rewrite Hk1', Hk2', Hpkv, Hpcv.
    rewrite app_nth1 by lia. rewrite Hbk. tauto.
  - unfold st3, st2, st1.
    repeat apply alloc_inv_write; auto. apply Hused, list_elem_of_here.
Qed.

Lemma FixInternalChild_left_none (st : BPlusTree) (poff : Z) (i : nat) (keys kidoffs : list Z)
                                 (K C : nat -> list Z) (used : list Z)
                                 (pn : InternalPage.t) (child_off : Z) :
  family st poff keys kidoffs used -> pages st !! poff = Some (PInternal pn) ->
  node_kids st keys kidoffs K C ->
  (i <= length keys)%nat ->
  ((0 < i)%nat -> Z.of_nat (length (K (i - 1)%nat)) <= INTERNAL_MIN_KEYS) ->
  FixInternalChild_left poff i pn child_off st = (Ok false, st).
Proof.
  intros Hfam Hpp' Hnodep Hi Hpoor.
  destruct (family_facts _ _ _ _ _ Hfam)
    as (pn0 & Hpp & Hpnk & Hpkv & Hpcv & Hlko & Hvp & Hkid & Hkey & Hnep & Hnek & Hval).
  rewrite Hpp' in Hpp. injection Hpp as <-.
  unfold FixInternalChild_left. destruct (Nat.ltb_spec 0 i) as [Hi0|Hi0].
  - destruct (Hnodep (i - 1)%nat ltac:(lia)) as (la & Hpa & Hnka & Hkva & Hcva & _).
    rewrite (Hkid (i - 1)%nat ltac:(lia)).
    step (UnpinPage_clean st poff (PInternal pn)).
    step (PinInternal_valid st _ la (Hval (i - 1)%nat ltac:(lia)) Hpa).
    unfold InternalPage.NumKeys. specialize (Hpoor Hi0).
    destruct (Z.ltb_spec INTERNAL_MIN_KEYS (InternalPage.num_keys la)) as [|_]; [lia|].
    now step (UnpinPage_clean st (nth (i - 1) kidoffs 0) (PInternal la)).
  - now step (UnpinPage_clean st poff (PInternal pn)).
Qed.

Lemma FixInternalChild_right_borrow (st : BPlusTree) (poff : Z) (i : nat) (keys kidoffs : list Z)
                                    (K C : nat -> list Z) (used : list Z) (pn : InternalPage.t) :
  family st poff keys kidoffs used -> pages st !! poff = Some (PInternal pn) ->
  node_kids st keys kidoffs K C ->
  (i < length keys)%nat ->
  Z.of_nat (length (K i)) = INTERNAL_MIN_KEYS - 1 ->
  INTERNAL_MIN_KEYS < Z.of_nat (length (K (S i))) <= INTERNAL_MAX_KEYS ->
  exists st',
    FixInternalChild_right poff i pn (InternalPage.num_keys pn) (nth i kidoffs 0) st
      = (Ok true, st') /\
    node_borrowed st st' poff keys kidoffs K C used i.
Proof.
  intros Hfam Hpp' Hnodep Hi Hci Hcb.
  destruct (family_facts _ _ _ _ _ Hfam)
    as (pn0 & Hpp & Hpnk & Hpkv & Hpcv & Hlko & Hvp & Hkid & Hkey & Hnep & Hnek & Hval).
  rewrite Hpp' in Hpp. injection Hpp as <-.
  destruct Hfam as [_ Hk1 _ Ha Hused].
  unfold node_borrowed.
  rewrite INTERNAL_MIN_KEYS_eq in *. unfold INTERNAL_MAX_KEYS in *.
  destruct (Hnodep i ltac:(lia)) as (la & Hpa & Hnka & Hkva & Hcva & Hlca).
  destruct (Hnodep (S i) ltac:(lia)) as (lb & Hpb & Hnkb & Hkvb & Hcvb & Hlcb).
  pose proof (Hnek i (S i) ltac:(lia) ltac:(lia) ltac:(lia)) as Hab.
  pose proof (Hnep i ltac:(lia)) as Hap.
  pose proof (Hnep (S i) ltac:(lia)) as Hbp.
  pose proof (kid_in_family poff keys kidoffs i Hlko ltac:(lia)) as Hain.
  pose proof (kid_in_family poff keys kidoffs (S i) Hlko ltac:(lia)) as Hbin.
  pose proof (Hval i ltac:(lia)) as Hva.
  pose proof (Hval (S i) ltac:(lia)) as Hvb.
  pose proof (Hkid (S i) ltac:(lia)) as Hkb.
  pose proof (Hkey i ltac:(lia)) as Hkk.
  set (ao := nth i kidoffs 0) in *. set (bo := nth (S i) kidoffs 0) in *.
  set (pk := nth i keys 0) in *.
  set (bk := InternalPage.KeyAt lb 0).
  set (bc := InternalPage.ChildAt lb 0).
  set (r1 := internal_shift_left lb 0 (Z.to_nat (InternalPage.num_keys lb - 1))).
  set (r2 := InternalPage.SetChildAt r1 (Z.to_nat (InternalPage.num_keys lb - 1))
               (InternalPage.ChildAt r1 (Z.to_nat (InternalPage.num_keys lb)))).
  set (lb' := InternalPage.SetNumKeys r2 (InternalPage.num_keys lb - 1)).
  set (la' := InternalPage.SetNumKeys
                (InternalPage.SetChildAt
                   (InternalPage.SetKeyAt la (Z.to_nat (InternalPage.num_keys la)) pk)
                   (Z.to_nat (InternalPage.num_keys la + 1)) bc)
                (InternalPage.num_keys la + 1)).
  set (pn' := InternalPage.SetKeyAt pn i bk).
  set (st1 := write st bo (PInternal lb')).
  set (st2 := write st1 ao (PInternal la')).
  set (st3 := write st2 poff (PInternal pn')).
  assert (Hpa1 : pages st1 !! ao = Some (PInternal la)).
  { unfold st1. rewrite lookup_write_other by congruence. exact Hpa. }
  assert (Hpp2 : pages st2 !! poff = Some (PInternal pn)).
  { unfold st2, st1. rewrite !lookup_write_other by congruence. exact Hpp'. }
  exists st3. split.
  { unfold FixInternalChild_right.
    destruct (Z.ltb_spec (Z.of_nat i) (InternalPage.num_keys pn)) as [_|]; [|lia].
    rewrite Nat.add_1_r, Hkb, Hkk. fold bo.
    step (UnpinPage_clean st poff (PInternal pn)).
    step (PinInternal_valid st bo lb Hvb Hpb).
    unfold InternalPage.NumKeys.
    destruct (Z.ltb_spec INTERNAL_MIN_KEYS (InternalPage.num_keys lb)) as [_|];
      [|rewrite INTERNAL_MIN_KEYS_eq in *; lia].
    step (UnpinPage_dirty st bo (PInternal lb')).
    step (PinInternal_valid st1 ao la Hva Hpa1).
    step (UnpinPage_dirty st1 ao (PInternal la')).
    step (PinInternal_valid st2 poff pn Hvp Hpp2).
    step (UnpinPage_dirty st2 poff (PInternal pn')). reflexivity. }
  split; [reflexivity|]. split.
  { intros o H1 H2 H3. unfold st3, st2, st1. now rewrite !lookup_write_other by congruence. }
  set (na := length (K i)) in *.
  exists (S na).
  destruct (internal_drop_first_view lb ltac:(lia)) as [Hr1 Hr2]. fold r1 r2 lb' in Hr1, Hr2.
  destruct (internal_append_one_view la pk bc ltac:(lia)) as [Hc1 Hc2].
  fold la' in Hc1, Hc2.
  assert (Hbk : nth 0 (K (S i)) 0 = bk).
  { unfold bk. rewrite <- Hkvb, nth_keys_view by lia. reflexivity. }
  assert (Hbc : nth 0 (C (S i)) 0 = bc).
  { unfold bc. rewrite <- Hcvb, nth_kids_view by lia. reflexivity. }
  rewrite length_app. cbn [length].
  split; [lia|]. split; [lia|]. split; [|split; [|split]].
  - exists la'. split.
    { unfold st3. rewrite lookup_write_other by congruence. apply lookup_write_same. }
    split; [unfold la'; cbn; lia|]. split.
    + rewrite Hc1, Hkva. rewrite take_app_ge by lia. f_equal.
      replace (S na - length (K i))%nat with 1%nat by lia. reflexivity.
    + rewrite Hc2, Hcva. rewrite take_app_ge by lia. f_equal.
      replace (S (S na) - length (C i))%nat with 1%nat by lia.
      destruct (C (S i)) as [|c0 rest]; [simpl in Hlcb; lia|]. cbn in Hbc. now subst c0.
  - exists lb'. split.
    { unfold st3, st2. rewrite !lookup_write_other by congruence. apply lookup_write_same. }
    split; [unfold lb'; cbn; lia|]. split.
    + rewrite Hr1, Hkvb. rewrite drop_app_ge by lia.
      replace (S (S na) - length (K i))%nat with 2%nat by lia. reflexivity.
    + rewrite Hr2, Hcvb. rewrite drop_app_ge by lia. f_equal. lia.
  - exists pn'. split; [apply lookup_write_same|]. split; [unfold pn'; cbn; lia|].
    destruct (internal_set_key_view pn i bk ltac:(lia)) as [Hk1' Hk2'].
    fold pn' in Hk1', Hk2'. rewrite Hk1', Hk2', Hpkv, Hpcv.
    split; [|reflexivity]. f_equal.
    rewrite app_nth2 by lia. replace (S na - length (K i))%nat with 1%nat by lia.
    cbn [nth]. now rewrite Hbk.
  - unfold st3, st2, st1.
    repeat apply alloc_inv_write; auto. apply Hused, list_elem_of_here.
Qed.

Lemma FixInternalChild_right_none (st : BPlusTree) (poff : Z) (i : nat) (keys kidoffs : list Z)
                                  (K C : nat -> list Z) (used : list Z)
                                  (pn : InternalPage.t) (child_off : Z) :
  family st poff keys kidoffs used -> pages st !! poff = Some (PInternal pn) ->
  node_kids st keys kidoffs K C ->
  (i <= length keys)%nat ->
  ((i < length keys)%nat -> Z.of_nat (length (K (S i))) <= INTERNAL_MIN_KEYS) ->
  FixInternalChild_right poff i pn (InternalPage.num_keys pn) child_off st = (Ok false, st).
Proof.
  intros Hfam Hpp' Hnodep Hi Hpoor.
  destruct (family_facts _ _ _ _ _ Hfam)
    as (pn0 & Hpp & Hpnk & Hpkv & Hpcv & Hlko & Hvp & Hkid & Hkey & Hnep & Hnek & Hval).
  rewrite Hpp' in Hpp. injection Hpp as <-.
  unfold FixInternalChild_right.
  destruct (Z.ltb_spec (Z.of_nat i) (InternalPage.num_keys pn)) as [Hi0|Hi0].
  - destruct (Hnodep (S i) ltac:(lia)) as (lb & Hpb & Hnkb & Hkvb & Hcvb & _).
    rewrite Nat.add_1_r, (Hkid (S i) ltac:(lia)).
    step (UnpinPage_clean st poff (PInternal pn)).
    step (PinInternal_valid st _ lb (Hval (S i) ltac:(lia)) Hpb).
    unfold InternalPage.NumKeys. specialize (Hpoor ltac:(lia)).
    destruct (Z.ltb_spec INTERNAL_MIN_KEYS (InternalPage.num_keys lb)) as [|_]; [lia|].
    now step (UnpinPage_clean st (nth (S i) kidoffs 0) (PInternal lb)).
  - now step (UnpinPage_clean st poff (PInternal pn)).
Qed.

Lemma FixInternalChild_merge_spec (st : BPlusTree) (poff : Z) (i j : nat) (keys kidoffs : list Z)
                                  (K C : nat -> list Z) (used : list Z) (pn : InternalPage.t) :
  family st poff keys kidoffs used -> pages st !! poff = Some (PInternal pn) ->
  node_kids st keys kidoffs K C ->
  (i <= length keys)%nat -> j = (if (0 <? i)%nat then i - 1 else i)%nat ->
  INTERNAL_MIN_KEYS <= Z.of_nat (length (K j)) + 1 + Z.of_nat (length (K (S j)))
    <= INTERNAL_MAX_KEYS ->
  exists st',
    FixInternalChild_merge poff i pn (nth i kidoffs 0) st = (Ok tt, st') /\
    node_merged st st' poff keys kidoffs K C used j.
Proof.
  intros Hfam Hpp' Hnodep Hi Hj Hcnt.
  destruct (family_facts _ _ _ _ _ Hfam)
    as (pn0 & Hpp & Hpnk & Hpkv & Hpcv & Hlko & Hvp & Hkid & Hkey & Hnep & Hnek & Hval).
  rewrite Hpp' in Hpp. injection Hpp as <-.
  destruct Hfam as [_ Hk1 _ Ha Hused].
  unfold node_merged.
  assert (Hjn : (j < length keys)%nat) by (destruct (Nat.ltb_spec 0 i); lia).
  destruct (Hnodep j ltac:(lia)) as (la & Hpa & Hnka & Hkva & Hcva & Hlca).
  destruct (Hnodep (S j) ltac:(lia)) as (lb & Hpb & Hnkb & Hkvb & Hcvb & Hlcb).
  pose proof (Hnek j (S j) ltac:(lia) ltac:(lia) ltac:(lia)) as Hab.
  pose proof (Hnep j ltac:(lia)) as Hap.
  pose proof (Hnep (S j) ltac:(lia)) as Hbp.
  pose proof (kid_in_family poff keys kidoffs j Hlko ltac:(lia)) as Hain.
  pose proof (kid_in_family poff keys kidoffs (S j) Hlko ltac:(lia)) as Hbin.
  pose proof (Hval j ltac:(lia)) as Hva.
  pose proof (Hval (S j) ltac:(lia)) as Hvb.
  pose proof (Hkey j ltac:(lia)) as Hkk.
  set (ao := nth j kidoffs 0) in *. set (bo := nth (S j) kidoffs 0) in *.
  set (mk := nth j keys 0) in *.
  set (l1 := InternalPage.SetChildAt
               (InternalPage.SetKeyAt la (Z.to_nat (InternalPage.num_keys la)) mk)
               (Z.to_nat (InternalPage.num_keys la + 1)) (InternalPage.ChildAt lb 0)).
  set (la' := InternalPage.SetNumKeys
                (internal_append l1 lb (Z.to_nat (InternalPage.num_keys la)) 0
                                 (Z.to_nat (InternalPage.num_keys lb)))
                (InternalPage.num_keys la + 1 + InternalPage.num_keys lb)).
  set (st1 := write st ao (PInternal la')).
  assert (Ha1 : alloc_inv st1 used) by (apply alloc_inv_write; auto).
  destruct (DeallocPage_mem st1 used bo Ha1 ltac:(auto)) as (st2 & Hde & Hps2 & Hroot2 & Hfs2 & Ha2).
  assert (Hpp2 : pages st2 !! poff = Some (PInternal pn)).
  { rewrite Hps2, lookup_insert_ne by congruence.
    unfold st1. rewrite lookup_write_other by congruence. exact Hpp'. }
  assert (Hvp2 : valid st2 poff).
  { destruct Hvp as [H1 H2]. split; [exact H1|]. rewrite Hfs2. exact H2. }
  destruct (remove_from_parent_spec st2 poff pn j Hvp2 Hpp2 ltac:(lia))
    as (pn' & Hrm & Hnk' & Hkv' & Hcv').
  exists (write st2 poff (PInternal pn')). split.
  { unfold FixInternalChild_merge.
    assert (Hsel : (if (0 <? i)%nat
                    then (InternalPage.ChildAt pn (i - 1), nth i kidoffs 0, (i - 1)%nat)
                    else (nth i kidoffs 0, InternalPage.ChildAt pn (i + 1), i))
                   = (ao, bo, j)).
    { subst j. unfold ao, bo. destruct (Nat.ltb_spec 0 i).
      - rewrite (Hkid (i - 1)%nat ltac:(lia)). repeat f_equal. lia.
      - rewrite Nat.add_1_r, (Hkid (S i) ltac:(lia)). reflexivity. }
    rewrite Hsel, Hkk.
    step (UnpinPage_clean st poff (PInternal pn)).
    step (PinInternal_valid st ao la Hva Hpa).
    step (PinInternal_valid st bo lb Hvb Hpb).
    step (UnpinPage_dirty st ao (PInternal la')).
    step (UnpinPage_clean st1 bo (PInternal lb)).
    step Hde. exact Hrm. }
  split; [cbn; rewrite Hroot2; reflexivity|]. split.
  { intros o H1 H2 H3. rewrite lookup_write_other by congruence.
    rewrite Hps2, lookup_insert_ne by congruence.
    unfold st1. now rewrite lookup_write_other by congruence. }
  rewrite length_app. cbn [length]. split; [lia|]. split; [|split].
  - exists la'. split.
    { rewrite lookup_write_other by congruence. rewrite Hps2, lookup_insert_ne by congruence.
      unfold st1. apply lookup_write_same. }
    split; [unfold la'; cbn; lia|].
    destruct (internal_merge_view la lb mk ltac:(lia) ltac:(lia)) as [H1 H2].
    fold l1 la' in H1, H2. rewrite H1, H2, Hkva, Hkvb, Hcva, Hcvb. tauto.
  - exists pn'. split; [apply lookup_write_same|]. split; [lia|].
    rewrite Hkv', Hcv', Hpkv, Hpcv. tauto.
  - intros used' Hu. apply (alloc_inv_sub _ (poff :: used')).
    + intros o Ho. now apply list_elem_of_further.
    + apply alloc_inv_write; [|apply list_elem_of_here].
      apply Ha2. intros o Ho. apply elem_of_cons in Ho. destruct Ho as [->|Ho]; [|auto].
      split; [apply Hused, list_elem_of_here | congruence].
Qed.

Lemma FixInternalChild_spec (st : BPlusTree) (poff : Z) (i : nat) (keys kidoffs : list Z)
                            (K C : nat -> list Z) (used : list Z) :
  family st poff keys kidoffs used ->
  (i <= length keys)%nat ->
  (forall j, (j <= length keys)%nat -> node_at (pages st) (nth j kidoffs 0) (K j) (C j)) ->
  Z.of_nat (length (K i)) = INTERNAL_MIN_KEYS - 1 ->
  (forall j, (j <= length keys)%nat -> j <> i ->
             INTERNAL_MIN_KEYS <= Z.of_nat (length (K j)) <= INTERNAL_MAX_KEYS) ->
  exists st' j,
    FixInternalChild poff i st = (Ok tt, st') /\
    (j < length keys)%nat /\ (j = i \/ S j = i) /\
    (node_borrowed st st' poff keys kidoffs K C used j \/
     node_merged st st' poff keys kidoffs K C used j).
Proof.
  intros Hfam Hi Hnode Hci Hcj.
  pose proof (node_kids_intro _ _ _ _ _ Hnode) as Hnodep.
  destruct (family_facts _ _ _ _ _ Hfam)
    as (pn & Hpp & Hpnk & Hpkv & Hpcv & Hlko & Hvp & Hkid & Hkey & Hnep & Hnek & Hval).
  pose proof (fam_keys _ _ _ _ _ Hfam) as Hk1.
  assert (Hstart : forall k : InternalPage.t -> M unit,
             (parent ← PinInternal poff; k parent) st = k pn st).
  { intros k. now step (PinInternal_valid st poff pn Hvp Hpp). }
  unfold FixInternalChild. rewrite Hstart. unfold InternalPage.NumKeys. rewrite (Hkid i Hi).
  destruct (Nat.lt_ge_cases 0 i) as [Hi0|Hi0];
    [destruct (Z.lt_ge_cases INTERNAL_MIN_KEYS (Z.of_nat (length (K (i - 1)%nat)))) as [Hl|Hl]|].
  - destruct (FixInternalChild_left_borrow st poff i keys kidoffs K C used pn Hfam Hpp Hnodep
                ltac:(lia) Hci) as (st' & Hrun & Hres).
    { split; [exact Hl|]. apply Hcj; lia. }
    exists st', (i - 1)%nat. split; [now step Hrun|].
    split; [lia|]. split; [right; lia|]. now left.
  - step (FixInternalChild_left_none st poff i keys kidoffs K C used pn (nth i kidoffs 0)
            Hfam Hpp Hnodep Hi ltac:(intros _; exact Hl)).
    cbv iota. rewrite Hstart.
    destruct (Nat.lt_ge_cases i (length keys)) as [Hin|Hin];
      [destruct (Z.lt_ge_cases INTERNAL_MIN_KEYS (Z.of_nat (length (K (S i))))) as [Hr|Hr]|].
    + destruct (FixInternalChild_right_borrow st poff i keys kidoffs K C used pn Hfam Hpp Hnodep
                  Hin Hci) as (st' & Hrun & Hres).
      { split; [exact Hr|]. apply Hcj; lia. }
      exists st', i. split; [now step Hrun|].
      split; [lia|]. split; [now left|]. now left.
    + step (FixInternalChild_right_none st poff i keys kidoffs K C used pn (nth i kidoffs 0)
              Hfam Hpp Hnodep Hi ltac:(intros _; exact Hr)).
      cbv iota. rewrite Hstart.
      destruct (FixInternalChild_merge_spec st poff i (i - 1) keys kidoffs K C used pn
                  Hfam Hpp Hnodep Hi) as (st' & Hrun & Hres).
      { destruct (Nat.ltb_spec 0 i); [reflexivity | lia]. }
      { replace (S (i - 1)) with i by lia.
        pose proof (Hcj (i - 1)%nat ltac:(lia) ltac:(lia)).
        rewrite INTERNAL_MIN_KEYS_eq in *. unfold INTERNAL_MAX_KEYS in *. lia. }
      exists st', (i - 1)%nat. split; [exact Hrun|].
      split; [lia|]. split; [right; lia|]. now right.
    + step (FixInternalChild_right_none st poff i keys kidoffs K C used pn (nth i kidoffs 0)
              Hfam Hpp Hnodep Hi ltac:(intros; lia)).
      cbv iota. rewrite Hstart.
      destruct (FixInternalChild_merge_spec st poff i (i - 1) keys kidoffs K C used pn
                  Hfam Hpp Hnodep Hi) as (st' & Hrun & Hres).
      { destruct (Nat.ltb_spec 0 i); [reflexivity | lia]. }
      { replace (S (i - 1)) with i by lia.
        pose proof (Hcj (i - 1)%nat ltac:(lia) ltac:(lia)).
        rewrite INTERNAL_MIN_KEYS_eq in *. unfold INTERNAL_MAX_KEYS in *. lia. }
      exists st', (i - 1)%nat. split; [exact Hrun|].
      split; [lia|]. split; [right; lia|]. now right.
  - assert (i = 0%nat) as -> by lia.
    step (FixInternalChild_left_none st poff 0 keys kidoffs K C used pn (nth 0 kidoffs 0)
            Hfam Hpp Hnodep Hi ltac:(intros; lia)).
    cbv iota. rewrite Hstart.
    destruct (Z.lt_ge_cases INTERNAL_MIN_KEYS (Z.of_nat (length (K 1%nat)))) as [Hr|Hr].
    + destruct (FixInternalChild_right_borrow st poff 0 keys kidoffs K C used pn Hfam Hpp Hnodep
                  ltac:(lia) Hci) as (st' & Hrun & Hres).
      { split; [exact Hr|]. apply Hcj; lia. }
      exists st', 0%nat. split; [now step Hrun|].
      split; [lia|]. split; [now left|]. now left.
    + step (FixInternalChild_right_none st poff 0 keys kidoffs K C used pn (nth 0 kidoffs 0)
              Hfam Hpp Hnodep Hi ltac:(intros _; exact Hr)).
      cbv iota. rewrite Hstart.
      destruct (FixInternalChild_merge_spec st poff 0 0 keys kidoffs K C used pn
                  Hfam Hpp Hnodep Hi) as (st' & Hrun & Hres); [reflexivity| |].
      { pose proof (Hcj 1%nat ltac:(lia) ltac:(lia)).
        rewrite INTERNAL_MIN_KEYS_eq in *. unfold INTERNAL_MAX_KEYS in *. lia. }
      exists st', 0%nat. split; [exact Hrun|].
      split; [lia|]. split; [now left|]. now right.
Qed.

End DeletePageFacts.


(** * Insert, then search *)

Module RoundTripFacts.
Import Tree TreeSpec SlotsFacts LeafFacts InternalFacts OrderFacts StateFacts GhostFacts.
Import SearchFacts InsertPageFacts InsertFacts.

(** ** Padding and trimming *)

Lemma strlen_nonzero (data : list Z) :
  Forall (fun b => b <> 0) data -> strlen data = length data.
Proof.
  induction 1 as [|b data Hb _ IH]; [reflexivity|]. cbn [strlen length].
  destruct (Z.eqb_spec b 0); [contradiction|]. now rewrite IH.
Qed.

Lemma strnlen_stop (data rest : list Z) (m : nat) :
  Forall (fun b => b <> 0) data -> (length data < m)%nat ->
  strnlen (data ++ 0 :: rest) m = length data.
Proof.
  intros H. revert m. induction H as [|b data Hb _ IH]; intros m Hm.
  - destruct m; [simpl in Hm; lia | reflexivity].
  - destruct m as [|m]; [simpl in Hm; lia|]. cbn [app strnlen length].
    destruct (Z.eqb_spec b 0); [contradiction|]. rewrite IH by (simpl in Hm; lia). reflexivity.
Qed.

Lemma strnlen_full (data : list Z) (m : nat) :
  Forall (fun b => b <> 0) data -> (m <= length data)%nat -> strnlen data m = m.
Proof.
  intros H. revert m. induction H as [|b data Hb _ IH]; intros m Hm.
  - destruct m; [reflexivity | simpl in Hm; lia].
  - destruct m as [|m]; [reflexivity|]. cbn [strnlen].
    destruct (Z.eqb_spec b 0); [contradiction|]. rewrite IH by (simpl in Hm; lia). reflexivity.
Qed.

(** What was stored padded reads back trimmed to what was given. *)
Lemma to_string_pad (data : list Z) : payload_ok data -> to_string (pad data) = data.
Proof.
  intros [Hlen Hnz]. unfold to_string, pad, DATA_SIZE in *.
  rewrite (strlen_nonzero _ Hnz).
  change (Z.to_nat 100) with 100%nat.
  destruct (Nat.eq_dec (length data) 100%nat) as [He|Hne].
  - rewrite He. change (Nat.min (100 + 1) 100) with 100%nat.
    rewrite (take_app_le data) by lia. rewrite (take_ge data) by lia.
    rewrite (take_app_le data) by lia. rewrite (take_ge data) by lia.
    rewrite strnlen_full by (auto; lia). apply take_ge. lia.
  - assert (Hlt : (length data < 100)%nat) by lia.
    replace (Nat.min (length data + 1) 100) with (length (data ++ [0]))
      by (rewrite length_app; simpl; lia).
    rewrite firstn_all. rewrite <- app_assoc. cbn [app].
    rewrite take_app_ge by lia.
    replace (100 - length data)%nat with (S (99 - length data)) by lia.
    cbn [take]. rewrite strnlen_stop by auto.
    now rewrite take_app_length.
Qed.

(** ** Runs one after the other *)

Lemma runs_det {A : Type} (f : nat -> M A) (st : BPlusTree) (a a' : A) (st' st'' : BPlusTree) :
  runs f st a st' -> runs f st a' st'' -> a = a' /\ st' = st''.
Proof.
  intros [n1 H1] [n2 H2].
  specialize (H1 (Nat.max n1 n2) ltac:(lia)). specialize (H2 (Nat.max n1 n2) ltac:(lia)).
  rewrite H1 in H2. injection H2 as -> ->. auto.
Qed.

Lemma tree_holds_NoDup (st : BPlusTree) (recs : list (Z * list Z)) :
  tree_holds st recs -> NoDup (map fst recs).
Proof.
  intros [Hroot Ha | h g Hroot Hr Hnd Hw Hl Ha]; [constructor|].
  apply ascending_NoDup. eapply wf_records, Hw.
Qed.

Lemma tree_holds_is_int (st : BPlusTree) (recs : list (Z * list Z)) (r : Z * list Z) :
  tree_holds st recs -> r ∈ recs -> is_int (fst r).
Proof.
  intros [Hroot Ha | h g Hroot Hr Hnd Hw Hl Ha] Hin.
  - apply elem_of_nil in Hin. contradiction.
  - pose proof (wf_records_range _ _ _ _ _ _ _ Hw Hin). unfold is_int. lia.
Qed.

Lemma Search_runs (st : BPlusTree) (recs : list (Z * list Z)) (key : Z) :
  tree_holds st recs -> is_int key ->
  runs (fun fuel => Search fuel key) st (search_result (assoc key recs)) st.
Proof.
  intros H Hk. destruct (Search_spec st recs H) as (fuel0 & Hs).
  exists fuel0. intros fuel Hf. now apply Hs.
Qed.

Lemma SearchString_runs (st : BPlusTree) (recs : list (Z * list Z)) (key : Z) (d : list Z) :
  tree_holds st recs -> (key, d) ∈ recs ->
  runs (fun fuel => SearchString fuel key) st (OK, Some (to_string d)) st.
Proof.
  intros H Hin.
  pose proof (tree_holds_is_int _ _ _ H Hin) as Hk.
  destruct (Search_runs st recs key H Hk) as (fuel0 & Hs).
  apply assoc_Some in Hin; [|eapply tree_holds_NoDup, H].
  exists fuel0. intros fuel Hf. unfold SearchString.
  rewrite (run_bind _ _ _ _ _ (Hs fuel Hf)). rewrite Hin. reflexivity.
Qed.

Lemma insert_all_spec (kvs : list (Z * list Z)) :
  forall (st : BPlusTree) (recs : list (Z * list Z)),
    tree_holds st recs -> NoDup (map fst kvs) -> Forall (fun kv => is_int (fst kv)) kvs ->
    exists st' recs',
      runs (fun fuel => insert_all fuel kvs) st (map (fun _ => OK) kvs) st' /\
      tree_holds st' recs' /\
      (forall k v, (k, v) ∈ kvs -> (k, pad v) ∈ recs') /\
      (forall x, x ∈ recs -> fst x ∉ map fst kvs -> x ∈ recs').
Proof.
  induction kvs as [|[k v] kvs IH]; intros st recs H Hnd Hint.
  - exists st, recs. split; [exists O; reflexivity|]. split; [exact H|].
    split; [|auto]. intros k v Hin. apply elem_of_nil in Hin. contradiction.
  - cbn [map fst] in Hnd. apply NoDup_cons in Hnd. destruct Hnd as [Hk Hnd].
    apply Forall_cons in Hint. destruct Hint as [Hik Hint]. cbn [fst] in Hik.
    destruct (Insert_spec st recs k v H Hik) as (st1 & recs1 & [n1 Hrun1] & H1 & Hrel).
    destruct (IH st1 recs1 H1 Hnd Hint) as (st' & recs' & [n2 Hrun2] & H' & Hnew & Hold).
    exists st', recs'. split; [|split; [exact H'|split]].
    + exists (Nat.max n1 n2). intros fuel Hf. cbn [insert_all map].
      rewrite (run_bind _ _ _ _ _ (Hrun1 fuel ltac:(lia))).
      rewrite (run_bind _ _ _ _ _ (Hrun2 fuel ltac:(lia))). reflexivity.
    + intros k' v' Hin. apply elem_of_cons in Hin. destruct Hin as [[= -> ->]|Hin].
      * apply Hold; [|exact Hk]. apply Hrel. now left.
      * now apply Hnew.
    + intros x Hx Hnx. cbn [map fst] in Hnx. apply not_elem_of_cons in Hnx.
      destruct Hnx as [Hne Hnx]. apply Hold; [|exact Hnx]. apply Hrel. right. auto.
Qed.

End RoundTripFacts.


(** * Descents that meet an offset outside of the file *)

Module DescentFacts.
Import Tree TreeSpec StateFacts.








Lemma root_not_invalid (st : BPlusTree) :
  valid st (root_offset_ st) -> (root_offset_ st =? INVALID_PAGE_ID) = false.
Proof.
  intros [Hb _]. apply page_boundary_ge in Hb. apply Z.eqb_neq.
  unfold PAGE_SIZE, INVALID_PAGE_ID in *. lia.
Qed.





End DescentFacts.

(** * Deletion from the tree *)

Module DeleteFacts.
Import Tree TreeSpec SlotsFacts LeafFacts InternalFacts OrderFacts StateFacts GhostFacts.
Import SearchFacts InsertPageFacts InsertFacts DeletePageFacts RoundTripFacts DescentFacts.

(** ** Nodes below the minimum *)

Lemma low_wf (h : nat) (lmin imin lo hi : Z) (t : tree) :
  wf h lmin imin lo hi t -> low lmin imin t = false.
Proof.
  destruct h, t; simpl; try tauto.
  - intros (_ & _ & _ & H). apply Z.ltb_ge. lia.
  - intros (_ & H & _). apply Z.ltb_ge. lia.
Qed.

Lemma wf_raise (h : nat) (lmin imin lmin' imin' lo hi : Z) (t : tree) :
  wf h lmin' imin' lo hi t -> low lmin imin t = false -> wf h lmin imin lo hi t.
Proof.
  destruct h, t; simpl; try tauto.
  - intros (H1 & H2 & H3 & H4) H. apply Z.ltb_ge in H. repeat split; auto; lia.
  - intros (H1 & H2 & H3) H. apply Z.ltb_ge in H. repeat split; auto; lia.
Qed.

Lemma wf_kids_raise (W1 W2 : Z -> Z -> tree -> Prop) (P : tree -> Prop)
                    (lo hi : Z) (keys : list Z) (kids : list tree) :
  (forall a b c, W1 a b c -> P c -> W2 a b c) ->
  wf_kids W1 lo keys hi kids -> Forall P kids -> wf_kids W2 lo keys hi kids.
Proof.
  intros HW. revert lo kids. induction keys as [|k keys IH]; intros lo kids H HP.
  - apply wf_kids_nil in H. destruct H as (c & -> & H). apply wf_kids_nil.
    apply Forall_cons in HP. exists c. split; [reflexivity|]. apply HW; tauto.
  - apply wf_kids_cons_inv in H. destruct H as (c & kids' & -> & H1 & H2).
    apply Forall_cons in HP. destruct HP as [HPc HP].
    apply wf_kids_cons. split; [now apply HW | now apply IH].
Qed.

(** ** The roots of the children are among their pages *)

Lemma offsets_root (t : tree) : exists rest, offsets t = root t :: rest.
Proof. destruct t; simpl; eauto. Qed.

Lemma roots_sublist (ts : list tree) : map root ts `sublist_of` offsets_of ts.
Proof.
  induction ts as [|t ts IH]; [constructor|].
  rewrite offsets_of_cons. destruct (offsets_root t) as (rest & ->).
  cbn [map app]. apply sublist_skip. now apply sublist_inserts_l.
Qed.

Lemma roots_in_offsets (ts : list tree) (o : Z) : o ∈ map root ts -> o ∈ offsets_of ts.
Proof.
  intros H. apply list_elem_of_fmap in H. destruct H as (t & -> & Ht).
  apply elem_of_offsets_of. exists t. split; [exact Ht | apply root_in_offsets].
Qed.

Lemma nth_root (ts : list tree) (x : nat) : nth x (map root ts) 0 = root (nth x ts (Leaf 0 [] 0)).
Proof. change 0 with (root (Leaf 0 [] 0)) at 1. apply map_nth. Qed.

(** ** Two neighbours among the children *)

Lemma pair_focus {A : Type} (l : list A) (j : nat) (d : A) :
  (S j < length l)%nat ->
  l = take j l ++ [nth j l d; nth (S j) l d] ++ drop (S (S j)) l.
Proof.
  intros H. rewrite <- (take_drop j l) at 1. f_equal.
  rewrite (drop_S l (nth j l d) j) by (apply lookup_nth; lia).
  rewrite (drop_S l (nth (S j) l d) (S j)) by (apply lookup_nth; lia). reflexivity.
Qed.

Lemma remove_at_pair {A : Type} (l1 l2 : list A) (a b : A) :
  remove_at (S (length l1)) (l1 ++ [a; b] ++ l2) = l1 ++ [a] ++ l2.
Proof.
  unfold remove_at. rewrite take_app_ge, drop_app_ge by lia.
  replace (S (length l1) - length l1)%nat with 1%nat by lia.
  replace (S (S (length l1)) - length l1)%nat with 2%nat by lia.
  cbn. now rewrite <- app_assoc.
Qed.

Lemma offsets_of_pair (a b : tree) : offsets_of [a; b] = offsets a ++ offsets b.
Proof. unfold offsets_of. cbn. now rewrite app_nil_r. Qed.

Lemma records_in_pair (a b : tree) : records_in [a; b] = records a ++ records b.
Proof. unfold records_in. cbn. now rewrite app_nil_r. Qed.

Lemma leaves_of_pair (a b : tree) : leaves_of [a; b] = leaves a ++ leaves b.
Proof. unfold leaves_of. cbn. now rewrite app_nil_r. Qed.

(** ** A repaired pair of neighbours in its place

    The children [A] and [B] of a node make room for the trees [ts] with
    separators [ks]: same records, same chain of leaves, pages among those
    of [A] and [B] (the pages [dead] have been freed). *)
Lemma repair_assemble (h : nat) (st st' : BPlusTree) (off : Z) (keys : list Z)
                      (p1 p2 : list tree) (A B : tree) (lo hi : Z) (fr : list Z)
                      (ks : list Z) (ts : list tree) (dead : list Z)
                      (kids0 : list tree) (j0 : nat) :
  kids0 = p1 ++ [A; B] ++ p2 -> length p1 = j0 ->
  (j0 < length keys)%nat ->
  Forall (rep h (pages st)) kids0 ->
  NoDup (off :: offsets_of kids0 ++ fr) ->
  wf_kids (wf h (LEAF_MIN_KEYS - 1) (INTERNAL_MIN_KEYS - 1)) lo keys hi kids0 ->
  Forall (fun t => low LEAF_MIN_KEYS INTERNAL_MIN_KEYS t = false) (p1 ++ p2) ->
  (forall o, o <> off -> o <> root A -> o <> root B -> pages st' !! o = pages st !! o) ->
  (forall used', (forall o, o ∈ used' -> o ∈ off :: offsets_of kids0 ++ fr /\ o ∉ dead) ->
                 alloc_inv st' used') ->
  Forall (rep h (pages st')) ts ->
  dead ++ offsets_of ts ≡ₚ offsets A ++ offsets B ->
  (forall lb ub,
     wf_kids (wf h (LEAF_MIN_KEYS - 1) (INTERNAL_MIN_KEYS - 1)) lb [nth j0 keys 0] ub [A; B] ->
     wf_kids (wf h LEAF_MIN_KEYS INTERNAL_MIN_KEYS) lb ks ub ts) ->
  records_in ts = records A ++ records B ->
  chain_pres (leaves A ++ leaves B) (leaves_of ts) ->
  frame fr st st' /\
  Forall (rep h (pages st')) (p1 ++ ts ++ p2) /\
  NoDup (off :: offsets_of (p1 ++ ts ++ p2) ++ fr) /\
  alloc_inv st' (off :: offsets_of (p1 ++ ts ++ p2) ++ fr) /\
  wf_kids (wf h LEAF_MIN_KEYS INTERNAL_MIN_KEYS) lo (take j0 keys ++ ks ++ drop (S j0) keys) hi
          (p1 ++ ts ++ p2) /\
  records_in (p1 ++ ts ++ p2) = records_in kids0 /\
  chain_pres (leaves_of kids0) (leaves_of (p1 ++ ts ++ p2)).
Proof.
  intros -> <-.
  set (j := length p1). set (kids := p1 ++ [A; B] ++ p2). set (kids' := p1 ++ ts ++ p2).
  set (W := wf h LEAF_MIN_KEYS INTERNAL_MIN_KEYS).
  set (Wk := wf h (LEAF_MIN_KEYS - 1) (INTERNAL_MIN_KEYS - 1)).
  intros Hj Hrep Hnd Hw Hlow Hsame Halloc Hts Hoffs Hmid Hrecs Hchain.
  assert (Wk_lt : forall a b c, Wk a b c -> a < b) by (intros a b c; apply wf_lt).
  assert (Hperm : off :: offsets_of kids ++ fr ≡ₚ dead ++ (off :: offsets_of kids' ++ fr)).
  { unfold kids, kids'. rewrite !offsets_of_app, offsets_of_pair, <- Hoffs. solve_Permutation. }
  pose proof Hnd as Hnd'. rewrite Hperm in Hnd'. apply NoDup_app in Hnd'.
  destruct Hnd' as (_ & Hdead & Hnd').
  apply NoDup_cons in Hnd. destruct Hnd as [Hoff Hnd].
  unfold kids in Hnd, Hoff. rewrite !offsets_of_app, offsets_of_pair in Hnd, Hoff.
  rewrite !elem_of_app in Hoff.
  apply NoDup_app in Hnd. destruct Hnd as (Hnd & Hdf & _).
  apply NoDup_app in Hnd. destruct Hnd as (_ & Hd1 & Hnd).
  apply NoDup_app in Hnd. destruct Hnd as (_ & Hd2 & _).
  assert (HrA : root A ∈ offsets A ++ offsets B).
  { apply elem_of_app. left. apply root_in_offsets. }
  assert (HrB : root B ∈ offsets A ++ offsets B).
  { apply elem_of_app. right. apply root_in_offsets. }
  unfold kids in Hrep. rewrite !Forall_app in Hrep. destruct Hrep as (Hrep1 & HrepAB & Hrep2).
  split; [|split; [|split; [|split; [|split; [|split]]]]].
  - intros o Ho. apply Hsame.
    + intros ->. apply Hoff. auto.
    + intros ->. refine (Hdf _ _ Ho). rewrite !elem_of_app.
      pose proof (root_in_offsets A). tauto.
    + intros ->. refine (Hdf _ _ Ho). rewrite !elem_of_app.
      pose proof (root_in_offsets B). tauto.
  - unfold kids'. rewrite !Forall_app. split; [|split; [exact Hts|]].
    + eapply Forall_rep_frame; [|exact Hrep1]. intros o Ho. apply Hsame.
      * intros ->. apply Hoff. auto.
      * intros ->. apply (Hd1 _ Ho). apply elem_of_app. now left.
      * intros ->. apply (Hd1 _ Ho). apply elem_of_app. now left.
    + eapply Forall_rep_frame; [|exact Hrep2]. intros o Ho. apply Hsame.
      * intros ->. apply Hoff. auto.
      * intros ->. exact (Hd2 _ HrA Ho).
      * intros ->. exact (Hd2 _ HrB Ho).
  - exact Hnd'.
  - apply Halloc. intros o Ho. split.
    + rewrite Hperm. apply elem_of_app. now right.
    + intros Hin. exact (Hdead _ Hin Ho).
  - assert (Hkeys : keys = take j keys ++ [nth j keys 0] ++ drop (S j) keys).
    { symmetry. apply take_drop_middle. apply lookup_nth. exact Hj. }
    rewrite Hkeys in Hw. unfold kids in Hw.
    assert (Hl1 : length p1 = length (take j keys)) by (rewrite length_take; lia).
    apply wf_kids_seg in Hw; [|exact Hl1|reflexivity].
    destruct Hw as (Hpre & Hm & Htail).
    apply Hmid in Hm.
    assert (Hlts : length ts = S (length ks)).
    { eapply wf_kids_length, Hm. }
    apply (wf_kids_raise Wk W (fun t => low LEAF_MIN_KEYS INTERNAL_MIN_KEYS t = false)).
    + intros a b c Hc Hl. eapply wf_raise; eauto.
    + unfold kids'. apply wf_kids_seg; [exact Hl1|exact Hlts|].
      split; [exact Hpre|]. split; [|exact Htail].
      eapply wf_kids_impl; [|exact Hm]. intros a b c Hc.
      eapply wf_mono; [| |exact Hc]; lia.
    + unfold kids'. apply Forall_app in Hlow. destruct Hlow as [Hlow1 Hlow2].
      rewrite !Forall_app. split; [exact Hlow1|]. split; [|exact Hlow2].
      eapply (wf_kids_Forall W); [intros a b c; apply wf_lt| |exact Hm].
      intros a b c. apply low_wf.
  - unfold kids, kids'. rewrite !records_in_app, records_in_pair. now rewrite Hrecs.
  - unfold kids, kids'. rewrite !leaves_of_app, leaves_of_pair.
    apply chain_pres_ctx; [|exact Hchain].
    apply Forall_cons in HrepAB. destruct HrepAB as [HA _].
    intros E. apply app_eq_nil in E. destruct E as [E _].
    exact (leaves_nonempty _ _ _ HA E).
Qed.

(** ** [FixChild] *)

Lemma FixChild_dispatch (h : nat) (st : BPlusTree) (off : Z) (keys : list Z) (kids : list tree)
                        (i : nat) (fr : list Z) :
  node_at (pages st) off keys (map root kids) ->
  Forall (rep h (pages st)) kids ->
  NoDup (off :: offsets_of kids ++ fr) ->
  alloc_inv st (off :: offsets_of kids ++ fr) ->
  (1 <= length keys)%nat -> (i <= length keys)%nat ->
  length kids = S (length keys) ->
  family st off keys (map root kids) (off :: offsets_of kids ++ fr) /\
  FixChild off i st = match h with
                      | O => FixLeafChild off i st
                      | S _ => FixInternalChild off i st
                      end.
Proof.
  intros Hn Hrep Hnd Ha Hk1 Hi Hlen.
  assert (Hfam : family st off keys (map root kids) (off :: offsets_of kids ++ fr)).
  { constructor; auto.
    - apply NoDup_cons in Hnd. destruct Hnd as [Hoff Hnd].
      apply NoDup_app in Hnd. destruct Hnd as (Hnd & _ & _).
      apply NoDup_cons. split.
      + intros Hin. apply Hoff. apply elem_of_app. left. now apply roots_in_offsets.
      + exact (sublist_NoDup _ _ Hnd (roots_sublist kids)).
    - intros o Ho. apply elem_of_cons in Ho. destruct Ho as [->|Ho]; [apply list_elem_of_here|].
      apply list_elem_of_further, elem_of_app. left. now apply roots_in_offsets. }
  split; [exact Hfam|].
  destruct (family_facts _ _ _ _ _ Hfam)
    as (pn & Hpp & Hpnk & Hpkv & Hpcv & Hlko & Hvp & Hkid & Hkey & Hnep & Hnek & Hval).
  assert (Hin : nth i kids (Leaf 0 [] 0) ∈ kids) by (apply list_elem_of_In, nth_In; lia).
  rewrite Forall_forall in Hrep. pose proof (Hrep _ Hin) as Hr.
  pose proof (Hval i Hi) as Hv. rewrite nth_root in Hv.
  unfold FixChild.
  rewrite (run_bind _ _ _ _ _ (PinInternal_valid st off pn Hvp Hpp)).
  rewrite (run_bind _ _ _ _ _ (UnpinPage_clean _ _ _)).
  rewrite (Hkid i Hi), nth_root.
  rewrite (run_bind _ _ _ _ _ (PinPage_valid _ _ Hv)).
  destruct h as [|h].
  - apply rep_leaf_inv in Hr. destruct Hr as (o & r & n & E & l & Hl & _).
    rewrite E in *. cbn [root] in *. rewrite (page_at_Some _ _ _ Hl). cbn [PageIsLeaf].
    now rewrite (run_bind _ _ _ _ _ (UnpinPage_clean _ _ _)).
  - apply rep_node_inv in Hr. destruct Hr as (o & ks & cs & E & (nd & Hl & _) & _).
    rewrite E in *. cbn [root] in *. rewrite (page_at_Some _ _ _ Hl). cbn [PageIsLeaf].
    now rewrite (run_bind _ _ _ _ _ (UnpinPage_clean _ _ _)).
Qed.

Lemma FixChild_leaf (st : BPlusTree) (off : Z) (keys : list Z) (kids : list tree) (i : nat)
                    (lo hi : Z) (fr : list Z) :
  fix_pre 0 off keys kids i lo hi fr st ->
  exists st', FixChild off i st = (Ok tt, st') /\ fix_post 0 off keys kids lo hi fr st st'.
Proof.
  intros (Hn & Hrep & Hnd & Ha & Hk1 & Hi & Hw & Hlowi & Hlowx).
  set (Wk := wf 0 (LEAF_MIN_KEYS - 1) (INTERNAL_MIN_KEYS - 1)) in *.
  assert (Wk_lt : forall a b c, Wk a b c -> a < b) by (intros a b c; apply wf_lt).
  pose proof (wf_kids_length Wk _ _ _ _ Hw) as Hlen.
  destruct (FixChild_dispatch 0 st off keys kids i fr Hn Hrep Hnd Ha Hk1 Hi Hlen) as [Hfam Hdisp].
  set (d := Leaf 0 [] 0) in *.
  set (R := fun x => match nth x kids d with Leaf _ r _ => r | _ => [] end).
  set (N := fun x => match nth x kids d with Leaf _ _ n => n | _ => 0 end).
  assert (Hkid : forall x, (x <= length keys)%nat ->
            nth x kids d = Leaf (nth x (map root kids) 0) (R x) (N x) /\
            leaf_at (pages st) (nth x (map root kids) 0) (R x) (N x) /\
            exists a b, Wk a b (nth x kids d)).
  { intros x Hx. assert (Hin : nth x kids d ∈ kids) by (apply list_elem_of_In, nth_In; lia).
    rewrite nth_root. fold d. unfold R, N.
    rewrite Forall_forall in Hrep. pose proof (Hrep _ Hin) as Hr.
    apply rep_leaf_inv in Hr. destruct Hr as (o & r & n & E & Hl).
    destruct (wf_kids_in Wk Wk_lt _ _ _ _ _ Hw Hin) as (a & b & _ & _ & HW).
    rewrite E in *. cbn [root]. split; [reflexivity|]. split; [exact Hl|]. eauto. }
  assert (Hcnt_i : Z.of_nat (length (R i)) = LEAF_MIN_KEYS - 1).
  { destruct (Hkid i Hi) as (E & _ & a & b & HW). rewrite E in HW, Hlowi.
    cbn in HW, Hlowi. apply Z.ltb_lt in Hlowi. lia. }
  assert (Hcnt_x : forall x, (x <= length keys)%nat -> x <> i ->
                             LEAF_MIN_KEYS <= Z.of_nat (length (R x)) <= LEAF_MAX_KEYS).
  { intros x Hx Hne. destruct (Hkid x Hx) as (E & _ & a & b & HW).
    pose proof (Hlowx x Hx Hne) as Hl. fold d in Hl. rewrite E in HW, Hl.
    cbn in HW, Hl. apply Z.ltb_ge in Hl. lia. }
  destruct (FixLeafChild_spec st off i keys (map root kids) R N _ Hfam Hi
              (fun x Hx => proj1 (proj2 (Hkid x Hx))) Hcnt_i Hcnt_x)
    as (st' & j & Hrun & Hj & Hji & Hres).
  exists st'. split; [rewrite Hdisp; exact Hrun|].
  pose proof (pair_focus kids j d ltac:(lia)) as Hsplit.
  destruct (Hkid j ltac:(lia)) as (EA & HlA & _).
  destruct (Hkid (S j) ltac:(lia)) as (EB & HlB & _).
  rewrite EA, EB in Hsplit.
  set (p1 := take j kids) in *. set (p2 := drop (S (S j)) kids) in *.
  assert (Hlp1 : length p1 = j) by (unfold p1; rewrite length_take; lia).
  assert (Hlowp : Forall (fun t => low LEAF_MIN_KEYS INTERNAL_MIN_KEYS t = false) (p1 ++ p2)).
  { apply Forall_forall. intros t Ht. apply elem_of_app in Ht. destruct Ht as [Ht|Ht].
    - apply (elem_take _ _ _ d) in Ht. destruct Ht as (x & Hx1 & Hx2 & <-). apply Hlowx; lia.
    - apply (elem_drop _ _ _ d) in Ht. destruct Ht as (x & Hx & <-). apply Hlowx; lia. }
  assert (Hboth : forall lb ub,
            wf_kids Wk lb [nth j keys 0] ub
                    [Leaf (nth j (map root kids) 0) (R j) (N j);
                     Leaf (nth (S j) (map root kids) 0) (R (S j)) (N (S j))] ->
            lb < ub /\ ascending (map fst (R j ++ R (S j))) /\
            Forall (fun r => lb <= fst r < ub) (R j ++ R (S j))).
  { intros lb ub H. split; [exact (wf_kids_lt Wk Wk_lt _ _ _ _ H)|].
    apply (wf_kids_records Wk) in H.
    - rewrite records_in_pair, !records_Leaf in H. exact H.
    - intros a b c Hc. split; [eapply wf_lt, Hc | eapply wf_records, Hc]. }
  destruct Hres as [Hb|Hm].
  - (* a record was borrowed *)
    destruct Hb as (Hroot & Hsame & m & Hm1 & Hm2 & HA' & HB' & Hn' & Ha').
    set (ao := nth j (map root kids) 0) in *. set (bo := nth (S j) (map root kids) 0) in *.
    set (both := R j ++ R (S j)) in *.
    set (sk := fst (nth m both zero_record)) in *.
    rewrite LEAF_MIN_KEYS_eq in Hm1, Hm2. unfold LEAF_MAX_KEYS in Hm1, Hm2.
    destruct (repair_assemble 0 st st' off keys p1 p2
                (Leaf ao (R j) (N j)) (Leaf bo (R (S j)) (N (S j))) lo hi fr [sk]
                [Leaf ao (take m both) (N j); Leaf bo (drop m both) (N (S j))] []
                kids j Hsplit Hlp1 Hj Hrep Hnd Hw Hlowp)
      as (Hfr & Hrep' & Hnd' & Ha'' & Hw' & Hrec' & Hch').
    + exact Hsame.
    + intros used' Hu. eapply alloc_inv_sub; [|exact Ha']. intros o Ho. now apply Hu.
    + repeat constructor; assumption.
    + reflexivity.
    + intros lb ub H. destruct (Hboth lb ub H) as (Hlt & Hasc & Hf).
      destruct (split_records_wf both lb ub m Hasc Hf ltac:(lia)) as (Hsk & Ha1 & Hf1 & Ha2 & Hf2).
      fold sk in Hsk, Hf1, Hf2.
      cbn [wf_kids wf]. rewrite length_take, length_drop, LEAF_MIN_KEYS_eq.
      unfold LEAF_MAX_KEYS. repeat split; try assumption; lia.
    + rewrite records_in_pair, !records_Leaf. apply take_drop.
    + cbn. split; [discriminate|]. split; [reflexivity|]. tauto.
    + split; [exact Hroot|]. split; [exact Hfr|].
      exists (<[j := sk]> keys), (p1 ++ [Leaf ao (take m both) (N j);
                                        Leaf bo (drop m both) (N (S j))] ++ p2).
      split; [|split; [exact Hrep'|split; [exact Hnd'|split; [exact Ha''|split;
               [|split; [|split; [exact Hrec' | exact Hch']]]]]]].
      * replace (map root (p1 ++ [Leaf ao (take m both) (N j);
                                  Leaf bo (drop m both) (N (S j))] ++ p2))
          with (map root kids); [exact Hn'|].
        rewrite Hsplit at 1. rewrite !map_app. reflexivity.
      * rewrite insert_take_drop by lia. exact Hw'.
      * left. apply length_insert.
  - (* the two leaves were merged *)
    destruct Hm as (Hroot & Hsame & Hcnt & HA' & Hn' & Ha').
    set (ao := nth j (map root kids) 0) in *. set (bo := nth (S j) (map root kids) 0) in *.
    set (both := R j ++ R (S j)) in *.
    destruct (repair_assemble 0 st st' off keys p1 p2
                (Leaf ao (R j) (N j)) (Leaf bo (R (S j)) (N (S j))) lo hi fr []
                [Leaf ao both (N (S j))] [bo]
                kids j Hsplit Hlp1 Hj Hrep Hnd Hw Hlowp)
      as (Hfr & Hrep' & Hnd' & Ha'' & Hw' & Hrec' & Hch').
    + exact Hsame.
    + intros used' Hu. apply Ha'. intros o Ho. destruct (Hu o Ho) as [H1 H2].
      split; [exact H1|]. intros ->. apply H2, list_elem_of_here.
    + repeat constructor; assumption.
    + cbn. apply perm_swap.
    + intros lb ub H. destruct (Hboth lb ub H) as (Hlt & Hasc & Hf).
      cbn [wf_kids wf]. repeat split; try assumption; lia.
    + rewrite records_in_single, !records_Leaf. reflexivity.
    + cbn. split; [discriminate|]. split; [reflexivity|]. intros nxt [_ H]. exact H.
    + split; [exact Hroot|]. split; [exact Hfr|].
      exists (remove_at j keys), (p1 ++ [Leaf ao both (N (S j))] ++ p2).
      split; [|split; [exact Hrep'|split; [exact Hnd'|split; [exact Ha''|split;
               [exact Hw'|split; [|split; [exact Hrec' | exact Hch']]]]]]].
      * replace (map root (p1 ++ [Leaf ao both (N (S j))] ++ p2))
          with (remove_at (S j) (map root kids)); [exact Hn'|].
        rewrite Hsplit at 1. rewrite !map_app. cbn [map root].
        rewrite <- Hlp1, <- (length_map root p1). apply remove_at_pair.
      * right. unfold remove_at. rewrite length_app, length_take, length_drop. lia.
Qed.

Lemma FixChild_node (h : nat) (st : BPlusTree) (off : Z) (keys : list Z) (kids : list tree)
                    (i : nat) (lo hi : Z) (fr : list Z) :
  fix_pre (S h) off keys kids i lo hi fr st ->
  exists st', FixChild off i st = (Ok tt, st') /\ fix_post (S h) off keys kids lo hi fr st st'.
Proof.
  intros (Hn & Hrep & Hnd & Ha & Hk1 & Hi & Hw & Hlowi & Hlowx).
  set (Wk := wf (S h) (LEAF_MIN_KEYS - 1) (INTERNAL_MIN_KEYS - 1)) in *.
  set (W' := wf h LEAF_MIN_KEYS INTERNAL_MIN_KEYS).
  assert (Wk_lt : forall a b c, Wk a b c -> a < b) by (intros a b c; apply wf_lt).
  assert (W'_lt : forall a b c, W' a b c -> a < b) by (intros a b c; apply wf_lt).
  pose proof (wf_kids_length Wk _ _ _ _ Hw) as Hlen.
  destruct (FixChild_dispatch (S h) st off keys kids i fr Hn Hrep Hnd Ha Hk1 Hi Hlen)
    as [Hfam Hdisp].
  set (d := Leaf 0 [] 0) in *.
  set (K := fun x => match nth x kids d with Node _ k _ => k | _ => [] end).
  set (T := fun x => match nth x kids d with Node _ _ c => c | _ => [] end).
  set (C := fun x => map root (T x)).
  assert (Hkid : forall x, (x <= length keys)%nat ->
            nth x kids d = Node (nth x (map root kids) 0) (K x) (T x) /\
            node_at (pages st) (nth x (map root kids) 0) (K x) (C x) /\
            Forall (rep h (pages st)) (T x) /\
            exists a b, Wk a b (nth x kids d)).
  { intros x Hx. assert (Hin : nth x kids d ∈ kids) by (apply list_elem_of_In, nth_In; lia).
    rewrite nth_root. fold d. unfold C, K, T.
    rewrite Forall_forall in Hrep. pose proof (Hrep _ Hin) as Hr.
    apply rep_node_inv in Hr. destruct Hr as (o & ks & cs & E & Hl & Hcs).
    destruct (wf_kids_in Wk Wk_lt _ _ _ _ _ Hw Hin) as (a & b & _ & _ & HW).
    rewrite E in *. cbn [root]. split; [reflexivity|]. split; [exact Hl|]. eauto. }
  assert (Hcnt_i : Z.of_nat (length (K i)) = INTERNAL_MIN_KEYS - 1).
  { destruct (Hkid i Hi) as (E & _ & _ & a & b & HW). rewrite E in HW, Hlowi.
    cbn in HW, Hlowi. apply Z.ltb_lt in Hlowi. lia. }
  assert (Hcnt_x : forall x, (x <= length keys)%nat -> x <> i ->
                             INTERNAL_MIN_KEYS <= Z.of_nat (length (K x)) <= INTERNAL_MAX_KEYS).
  { intros x Hx Hne. destruct (Hkid x Hx) as (E & _ & _ & a & b & HW).
    pose proof (Hlowx x Hx Hne) as Hl. fold d in Hl. rewrite E in HW, Hl.
    cbn in HW, Hl. apply Z.ltb_ge in Hl. lia. }
  destruct (FixInternalChild_spec st off i keys (map root kids) K C _ Hfam Hi
              (fun x Hx => proj1 (proj2 (Hkid x Hx))) Hcnt_i Hcnt_x)
    as (st' & j & Hrun & Hj & Hji & Hres).
  exists st'. split; [rewrite Hdisp; exact Hrun|].
  pose proof (pair_focus kids j d ltac:(lia)) as Hsplit.
  destruct (Hkid j ltac:(lia)) as (EA & HlA & HgA & _).
  destruct (Hkid (S j) ltac:(lia)) as (EB & HlB & HgB & _).
  rewrite EA, EB in Hsplit.
  set (p1 := take j kids) in *. set (p2 := drop (S (S j)) kids) in *.
  assert (Hlp1 : length p1 = j) by (unfold p1; rewrite length_take; lia).
  assert (Hlowp : Forall (fun t => low LEAF_MIN_KEYS INTERNAL_MIN_KEYS t = false) (p1 ++ p2)).
  { apply Forall_forall. intros t Ht. apply elem_of_app in Ht. destruct Ht as [Ht|Ht].
    - apply (elem_take _ _ _ d) in Ht. destruct Ht as (x & Hx1 & Hx2 & <-). apply Hlowx; lia.
    - apply (elem_drop _ _ _ d) in Ht. destruct Ht as (x & Hx & <-). apply Hlowx; lia. }
  set (ao := nth j (map root kids) 0) in *. set (bo := nth (S j) (map root kids) 0) in *.
  set (bothk := K j ++ nth j keys 0 :: K (S j)).
  set (bothT := T j ++ T (S j)).
  assert (Hbothc : C j ++ C (S j) = map root bothT).
  { unfold C, bothT. now rewrite map_app. }
  assert (Hboth : forall lb ub,
            wf_kids Wk lb [nth j keys 0] ub [Node ao (K j) (T j); Node bo (K (S j)) (T (S j))] ->
            lb < ub /\ wf_kids W' lb bothk ub bothT).
  { intros lb ub H. split; [exact (wf_kids_lt Wk Wk_lt _ _ _ _ H)|].
    cbn [wf_kids wf] in H. destruct H as ((_ & _ & H1) & (_ & _ & H2)).
    fold W' in H1, H2. unfold bothk, bothT.
    apply wf_kids_seg0; [eapply wf_kids_length, H1|].
    cbn [ubound hd wf_tail]. tauto. }
  assert (Hlenb : forall lb ub, wf_kids W' lb bothk ub bothT -> length bothT = S (length bothk)).
  { intros lb ub H. eapply wf_kids_length, H. }
  assert (Hgrand : (forall o, o <> off -> o <> ao -> o <> bo -> pages st' !! o = pages st !! o) ->
                   Forall (rep h (pages st')) bothT).
  { intros Hsame.
    pose proof Hnd as Hnd0. apply NoDup_cons in Hnd0. destruct Hnd0 as [Hoff Hnd0].
    rewrite Hsplit in Hnd0, Hoff. rewrite !offsets_of_app, offsets_of_pair in Hnd0, Hoff.
    rewrite !offsets_Node in Hnd0, Hoff.
    apply NoDup_app in Hnd0. destruct Hnd0 as (Hnd0 & _ & _).
    apply NoDup_app in Hnd0. destruct Hnd0 as (_ & _ & Hnd0).
    apply NoDup_app in Hnd0. destruct Hnd0 as (Hnd0 & _ & _).
    change (NoDup (ao :: (offsets_of (T j) ++ bo :: offsets_of (T (S j))))) in Hnd0.
    apply NoDup_cons in Hnd0. destruct Hnd0 as [Hao Hnd0].
    rewrite elem_of_app, elem_of_cons in Hao.
    apply NoDup_app in Hnd0. destruct Hnd0 as (_ & Hdis & Hnd0).
    apply NoDup_cons in Hnd0. destruct Hnd0 as [Hbo _].
    assert (Hoff' : forall o, o ∈ offsets_of (T j) \/ o ∈ offsets_of (T (S j)) -> o <> off).
    { intros o Ho ->. apply Hoff.
      repeat (rewrite elem_of_app || rewrite elem_of_cons). tauto. }
    unfold bothT. apply Forall_app. split.
    - eapply Forall_rep_frame; [|exact HgA]. intros o Ho. apply Hsame.
      + apply Hoff'. now left.
      + intros ->. tauto.
      + intros ->. apply (Hdis _ Ho). apply list_elem_of_here.
    - eapply Forall_rep_frame; [|exact HgB]. intros o Ho. apply Hsame.
      + apply Hoff'. now right.
      + intros ->. tauto.
      + intros ->. contradiction. }
  destruct Hres as [Hb|Hm].
  - (* a key and a child were borrowed *)
    destruct Hb as (Hroot & Hsame & m & Hm1 & Hm2 & HA' & HB' & Hn' & Ha').
    fold bothk in Hm2, HA', HB', Hn'. rewrite Hbothc in HA', HB'.
    set (sk := nth m bothk 0) in *.
    rewrite INTERNAL_MIN_KEYS_eq in Hm1, Hm2. unfold INTERNAL_MAX_KEYS in Hm1, Hm2.
    pose proof (Hgrand Hsame) as Hg'.
    destruct (repair_assemble (S h) st st' off keys p1 p2
                (Node ao (K j) (T j)) (Node bo (K (S j)) (T (S j))) lo hi fr [sk]
                [Node ao (take m bothk) (take (S m) bothT);
                 Node bo (drop (S m) bothk) (drop (S m) bothT)] []
                kids j Hsplit Hlp1 Hj Hrep Hnd Hw Hlowp)
      as (Hfr & Hrep' & Hnd' & Ha'' & Hw' & Hrec' & Hch').
    + exact Hsame.
    + intros used' Hu. eapply alloc_inv_sub; [|exact Ha']. intros o Ho. now apply Hu.
    + constructor; [|constructor; [|constructor]]; cbn [rep].
      * rewrite <- firstn_map. split; [exact HA' | now apply Forall_take].
      * rewrite <- skipn_map. split; [exact HB' | now apply Forall_drop].
    + cbn [app]. rewrite offsets_of_pair, !offsets_Node.
      cbn [app]. apply perm_skip. rewrite <- !Permutation_middle. apply perm_skip.
      rewrite <- !offsets_of_app, take_drop. reflexivity.
    + intros lb ub H. destruct (Hboth lb ub H) as (Hlt & Hwb).
      pose proof (Hlenb _ _ Hwb) as Hlb.
      assert (Hlk : (m < length bothk)%nat) by lia.
      rewrite <- (take_drop_middle bothk m sk), <- (take_drop (S m) bothT) in Hwb
        by (apply lookup_nth; exact Hlk).
      apply wf_kids_seg0 in Hwb; [|rewrite !length_take; lia].
      cbn [ubound hd wf_tail] in Hwb. destruct Hwb as [Hl Hr].
      pose proof (wf_kids_lt W' W'_lt _ _ _ _ Hl). pose proof (wf_kids_lt W' W'_lt _ _ _ _ Hr).
      cbn [wf_kids wf]. fold W'. rewrite length_take, length_drop, INTERNAL_MIN_KEYS_eq.
      unfold INTERNAL_MAX_KEYS. repeat split; try assumption; lia.
    + rewrite records_in_pair, !records_Node, <- !records_in_app, take_drop. reflexivity.
    + rewrite leaves_of_pair, !leaves_Node, <- !leaves_of_app, take_drop.
      apply chain_pres_refl. fold bothT. intros E.
      refine (leaves_of_nonempty h (pages st') bothT _ Hg' E).
      intros E'. unfold bothT in E'. apply app_eq_nil in E'. destruct E' as [E' _].
      destruct HlA as (nd & _ & _ & _ & Hcv). unfold C in Hcv. rewrite E' in Hcv.
      unfold kids_view, Slots.prefix in Hcv. cbn [seq map] in Hcv. discriminate.
    + split; [exact Hroot|]. split; [exact Hfr|].
      exists (<[j := sk]> keys), (p1 ++ [Node ao (take m bothk) (take (S m) bothT);
                                        Node bo (drop (S m) bothk) (drop (S m) bothT)] ++ p2).
      split; [|split; [exact Hrep'|split; [exact Hnd'|split; [exact Ha''|split;
               [|split; [|split; [exact Hrec' | exact Hch']]]]]]].
      * match goal with |- node_at _ _ _ ?l => replace l with (map root kids) end;
          [exact Hn'|].
        rewrite Hsplit at 1. rewrite !map_app. reflexivity.
      * rewrite insert_take_drop by lia. exact Hw'.
      * left. apply length_insert.
  - (* the two nodes were merged *)
    destruct Hm as (Hroot & Hsame & Hcnt & HA' & Hn' & Ha').
    fold bothk in Hcnt, HA'. rewrite Hbothc in HA'.
    pose proof (Hgrand Hsame) as Hg'.
    destruct (repair_assemble (S h) st st' off keys p1 p2
                (Node ao (K j) (T j)) (Node bo (K (S j)) (T (S j))) lo hi fr []
                [Node ao bothk bothT] [bo]
                kids j Hsplit Hlp1 Hj Hrep Hnd Hw Hlowp)
      as (Hfr & Hrep' & Hnd' & Ha'' & Hw' & Hrec' & Hch').
    + exact Hsame.
    + intros used' Hu. apply Ha'. intros o Ho. destruct (Hu o Ho) as [H1 H2].
      split; [exact H1|]. intros ->. apply H2, list_elem_of_here.
    + constructor; [|constructor]. cbn [rep]. split; [exact HA' | exact Hg'].
    + rewrite offsets_of_single, !offsets_Node. unfold bothT. rewrite offsets_of_app.
      solve_Permutation.
    + intros lb ub H. destruct (Hboth lb ub H) as (Hlt & Hwb).
      cbn [wf_kids wf]. fold W'. repeat split; try assumption; lia.
    + rewrite records_in_single, !records_Node. unfold bothT. now rewrite records_in_app.
    + rewrite leaves_of_single, !leaves_Node. unfold bothT. rewrite leaves_of_app.
      apply chain_pres_refl. intros E. apply app_eq_nil in E. destruct E as [E _].
      refine (leaves_of_nonempty h (pages st) (T j) _ HgA E).
      intros E'.
      destruct HlA as (nd & _ & _ & _ & Hcv). unfold C in Hcv. rewrite E' in Hcv.
      unfold kids_view, Slots.prefix in Hcv. cbn [seq map] in Hcv. discriminate.
    + split; [exact Hroot|]. split; [exact Hfr|].
      exists (remove_at j keys), (p1 ++ [Node ao bothk bothT] ++ p2).
      split; [|split; [exact Hrep'|split; [exact Hnd'|split; [exact Ha''|split;
               [exact Hw'|split; [|split; [exact Hrec' | exact Hch']]]]]]].
      * match goal with |- node_at _ _ _ ?l =>
          replace l with (remove_at (S j) (map root kids)) end; [exact Hn'|].
        rewrite Hsplit at 1. rewrite !map_app. cbn [map root].
        rewrite <- Hlp1, <- (length_map root p1). apply remove_at_pair.
      * right. unfold remove_at. rewrite length_app, length_take, length_drop. lia.
Qed.

Lemma FixChild_spec (h : nat) (st : BPlusTree) (off : Z) (keys : list Z) (kids : list tree)
                    (i : nat) (lo hi : Z) (fr : list Z) :
  fix_pre h off keys kids i lo hi fr st ->
  exists st', FixChild off i st = (Ok tt, st') /\ fix_post h off keys kids lo hi fr st st'.
Proof. destruct h; [apply FixChild_leaf | apply FixChild_node]. Qed.

(** ** [DeleteRecursive] *)

Lemma DeleteRecursive_leaf (t : tree) (lmin imin lo hi : Z) (fr : list Z) (st : BPlusTree)
                           (key : Z) :
  rep 0 (pages st) t -> wf 0 lmin imin lo hi t -> key ∈ map fst (records t) ->
  NoDup (offsets t ++ fr) -> alloc_inv st (offsets t ++ fr) ->
  (root_offset_ st = root t /\ lmin = 1 /\ imin = 1 \/
   root_offset_ st ∈ fr /\ lmin = LEAF_MIN_KEYS /\ imin = INTERNAL_MIN_KEYS) ->
  exists st' u,
    (forall fuel, (0 < fuel)%nat -> DeleteRecursive fuel (root t) key st = (Ok u, st')) /\
    del_post 0 t lmin imin lo hi fr st key u st'.
Proof.
  intros Hr Hw Hkey Hnd Ha Hc.
  apply rep_leaf_inv in Hr. destruct Hr as (off & recs & next & -> & Hl).
  pose proof Hl as (l & Hp & _).
  cbn [wf] in Hw. destruct Hw as (Hlh & Hasc & Hrange & Hcnt).
  cbn [offsets app root] in *. rewrite records_Leaf in Hkey.
  assert (Hoff : off ∈ off :: fr) by apply list_elem_of_here.
  pose proof (alloc_inv_valid _ _ _ Ha Hoff) as Hv.
  pose proof Hnd as Hnd0.
  apply NoDup_cons in Hnd. destruct Hnd as [Hofr Hndfr].
  destruct (DeleteFromLeaf_spec st off next key recs (off :: fr) Hl Ha Hoff Hasc Hkey)
    as (recs' & st' & Hrun & Hroot & Hl' & Hsame & Ha' & Hasc' & Hrel & Hlen).
  exists st', (low lmin imin (Leaf off recs' next)). split.
  { intros [|fuel] Hf; [lia|]. cbn [DeleteRecursive].
    rewrite (run_bind _ _ _ _ _ (PinPage_valid _ _ Hv)).
    rewrite (page_at_Some _ _ _ Hp). rewrite (run_bind _ _ _ _ _ (UnpinPage_clean _ _ _)).
    rewrite Hrun. f_equal. f_equal. cbn [low].
    destruct Hc as [(Hro & -> & _)|(Hro & -> & _)].
    - rewrite Hro, Z.eqb_refl.
      destruct (Z.eqb_spec (Z.of_nat (length recs')) 0), (Z.ltb_spec (Z.of_nat (length recs')) 1);
        lia || reflexivity.
    - destruct (Z.eqb_spec off (root_offset_ st)) as [E|_]; [|reflexivity].
      subst off. contradiction. }
  split; [exact Hroot|]. split.
  { intros o Ho. apply Hsame. intros ->. contradiction. }
  exists (Leaf off recs' next).
  split; [reflexivity|]. split; [exact Hl'|]. split; [exact Hnd0|]. split; [exact Ha'|].
  split; [|split; [reflexivity|split]].
  - cbn [wf]. split; [exact Hlh|]. split; [exact Hasc'|]. split.
    + apply Forall_forall. intros x Hx. apply Hrel in Hx.
      rewrite Forall_forall in Hrange. apply Hrange. tauto.
    + lia.
  - rewrite !records_Leaf. exact Hrel.
  - cbn. split; [discriminate|]. split; [reflexivity|]. tauto.
Qed.

Lemma DeleteRecursive_spec (h : nat) :
  forall (t : tree) (lmin imin lo hi : Z) (fr : list Z) (st : BPlusTree) (key : Z),
    rep h (pages st) t -> wf h lmin imin lo hi t -> key ∈ map fst (records t) ->
    NoDup (offsets t ++ fr) -> alloc_inv st (offsets t ++ fr) ->
    (root_offset_ st = root t /\ lmin = 1 /\ imin = 1 \/
     root_offset_ st ∈ fr /\ lmin = LEAF_MIN_KEYS /\ imin = INTERNAL_MIN_KEYS) ->
    exists st' u,
      (forall fuel, (h < fuel)%nat -> DeleteRecursive fuel (root t) key st = (Ok u, st')) /\
      del_post h t lmin imin lo hi fr st key u st'.
Proof.
  induction h as [|h IH]; intros t lmin imin lo hi fr st key Hr Hw Hkey Hnd Ha Hc.
  { apply DeleteRecursive_leaf; auto. }
  assert (Hk : lo <= key < hi).
  { apply list_elem_of_fmap in Hkey. destruct Hkey as (r & -> & Hr').
    eapply wf_records_range; eauto. }
  apply rep_node_inv in Hr. destruct Hr as (off & keys & kids & -> & Hn & Hkids).
  pose proof Hn as (n & Hp & Hnk & Hkv & Hcv).
  destruct (node_focus h _ _ _ _ _ _ _ _ key n Hn Hp Hw Hk)
    as (l1 & c & l2 & Hsplit & Hl1 & Hi & Hchild & Hwc & Hkc & Hlo & Hhi & Hr1 & Hr2 & Hrepl).
  set (i := child_index n key (Z.to_nat (InternalPage.num_keys n)) 0) in *.
  set (W := wf h LEAF_MIN_KEYS INTERNAL_MIN_KEYS) in *.
  set (Wk := wf h (LEAF_MIN_KEYS - 1) (INTERNAL_MIN_KEYS - 1)).
  assert (W_lt : forall a b c, W a b c -> a < b) by (intros a b c0; apply wf_lt).
  assert (HWk : forall a b c, W a b c -> Wk a b c).
  { intros a b c0 H. eapply wf_mono; [| |exact H]; lia. }
  cbn [wf] in Hw. destruct Hw as (Hlh & Hcnt & Hwk). fold W in Hwk.
  subst kids. cbn [root] in *.
  set (fr' := off :: offsets_of l1 ++ offsets_of l2 ++ fr).
  assert (Hperm : offsets (Node off keys (l1 ++ c :: l2)) ++ fr ≡ₚ offsets c ++ fr').
  { rewrite offsets_Node, offsets_of_app, offsets_of_cons. unfold fr'. solve_Permutation. }
  pose proof Hnd as Hnd0. pose proof Ha as Ha0.
  rewrite Hperm in Hnd. apply (alloc_inv_perm _ _ _ Hperm) in Ha.
  apply Forall_app in Hkids. destruct Hkids as [Hrep1 Hkids].
  apply Forall_cons in Hkids. destruct Hkids as [Hc0 Hrep2].
  assert (Hofffr : off ∉ fr).
  { rewrite offsets_Node in Hnd0. cbn [app] in Hnd0.
    apply NoDup_cons in Hnd0. destruct Hnd0 as [H _]. intros Hin. apply H.
    apply elem_of_app. now right. }
  assert (Himin : 1 <= imin).
  { destruct Hc as [(_ & _ & ->)|(_ & _ & ->)]; [lia | rewrite INTERNAL_MIN_KEYS_eq; lia]. }
  assert (Hchk : forall nk, 0 <= nk ->
            (if off =? root_offset_ st then nk =? 0 else nk <? INTERNAL_MIN_KEYS) = (nk <? imin)).
  { intros nk Hnk0. destruct Hc as [(E & _ & ->)|(E & _ & ->)].
    - rewrite E, Z.eqb_refl. destruct (Z.eqb_spec nk 0), (Z.ltb_spec nk 1); lia || reflexivity.
    - destruct (Z.eqb_spec off (root_offset_ st)) as [E'|_]; [|reflexivity].
      subst off. contradiction. }
  assert (Hkeyc : key ∈ map fst (records c)).
  { rewrite records_Node, records_in_app, records_in_cons in Hkey.
    apply list_elem_of_fmap in Hkey. destruct Hkey as (r & E & Hin).
    rewrite !elem_of_app in Hin. destruct Hin as [Hin|[Hin|Hin]].
    - apply Hr1 in Hin. lia.
    - apply list_elem_of_fmap. eauto.
    - apply Hr2 in Hin. lia. }
  assert (Hc' : root_offset_ st ∈ fr').
  { destruct Hc as [(E & _)|(E & _)]; [rewrite E; apply list_elem_of_here|].
    unfold fr'. apply list_elem_of_further. rewrite !elem_of_app. auto. }
  destruct (IH c LEAF_MIN_KEYS INTERNAL_MIN_KEYS _ _ fr' st key Hc0 Hwc Hkeyc Hnd Ha
              (or_intror (conj Hc' (conj eq_refl eq_refl))))
    as (st1 & u1 & Hrun & Hroot1 & Hframe & c' & Hrootc & Hrepc' & Hnd1 & Ha1 & Hwc' & Hu1
        & Hrel & Hchain).
  fold Wk in Hwc'.
  assert (Hoff_fr' : off ∈ fr') by apply list_elem_of_here.
  assert (Hp1 : pages st1 !! off = Some (PInternal n)) by (rewrite Hframe; auto).
  set (kids1 := l1 ++ [c'] ++ l2).
  assert (Hkids1 : Forall (rep h (pages st1)) kids1).
  { unfold kids1. rewrite !Forall_app. split; [|split; [repeat constructor; exact Hrepc'|]].
    - eapply Forall_rep_frame; [|exact Hrep1]. intros o Ho. apply Hframe.
      unfold fr'. apply list_elem_of_further. apply elem_of_app. now left.
    - eapply Forall_rep_frame; [|exact Hrep2]. intros o Ho. apply Hframe.
      unfold fr'. apply list_elem_of_further. apply elem_of_app. right.
      apply elem_of_app. now left. }
  assert (Hperm1 : offsets c' ++ fr' ≡ₚ off :: offsets_of kids1 ++ fr).
  { unfold fr', kids1. rewrite !offsets_of_app, offsets_of_single. solve_Permutation. }
  rewrite Hperm1 in Hnd1. apply (alloc_inv_perm _ _ _ Hperm1) in Ha1.
  assert (Hrel' : del_rel key (records_in (l1 ++ c :: l2)) (records_in kids1)).
  { unfold kids1. rewrite !records_in_app, records_in_cons, records_in_single.
    intros x. rewrite !elem_of_app, (Hrel x). split.
    - intros [Hx|[[Hx Hne]|Hx]]; auto.
      + split; [auto|]. apply Hr1 in Hx. lia.
      + split; [auto|]. apply Hr2 in Hx. lia.
    - intros [[Hx|[Hx|Hx]] Hne]; auto. }
  assert (Hchain' : chain_pres (leaves_of (l1 ++ c :: l2)) (leaves_of kids1)).
  { unfold kids1. rewrite !leaves_of_app, leaves_of_cons, leaves_of_single.
    apply chain_pres_ctx; [|exact Hchain]. eapply leaves_nonempty, Hc0. }
  assert (Hframe1 : frame fr st st1).
  { eapply frame_sub; [|exact Hframe]. intros o Ho. unfold fr'.
    apply list_elem_of_further. rewrite !elem_of_app. auto. }
  assert (Hn1 : node_at (pages st1) off keys (map root kids1)).
  { exists n. unfold kids1. rewrite (map_root_replace l1 l2 c c' Hrootc). tauto. }
  assert (Hv : valid st off).
  { eapply alloc_inv_valid; [exact Ha0|]. rewrite offsets_Node. apply list_elem_of_here. }
  assert (Hstep : forall fuel, (S h < fuel)%nat ->
            DeleteRecursive fuel off key st =
            if u1 then
              (FixChild off i;;
               n2 ← PinInternal off;
               let nk := InternalPage.NumKeys n2 in
               UnpinPage off (PInternal n2) false;;
               root ← gets root_offset_;
               if off =? root then ret (nk =? 0) else ret (nk <? INTERNAL_MIN_KEYS)) st1
            else (Ok false, st1)).
  { intros [|fuel] Hf; [lia|].
    cbn [DeleteRecursive]. rewrite (run_bind _ _ _ _ _ (PinPage_valid _ _ Hv)).
    rewrite (page_at_Some _ _ _ Hp). rewrite (run_bind _ _ _ _ _ (UnpinPage_clean _ _ _)).
    unfold InternalPage.NumKeys. fold i. rewrite Hchild.
    rewrite (run_bind _ _ _ _ _ (Hrun fuel ltac:(lia))). destruct u1; reflexivity. }
  destruct u1.
  - (* the child is underfull *)
    assert (Hpre : fix_pre h off keys kids1 i lo hi fr st1).
    { split; [exact Hn1|]. split; [exact Hkids1|]. split; [exact Hnd1|]. split; [exact Ha1|].
      split; [lia|]. split; [exact Hi|]. split; [|split].
      - fold Wk. unfold kids1.
        assert (Hseg : wf_kids Wk lo (take i keys ++ [] ++ drop i keys) hi (l1 ++ [c] ++ l2)).
        { cbn [app]. rewrite take_drop. eapply wf_kids_impl; [exact HWk | exact Hwk]. }
        rewrite <- (take_drop i keys).
        eapply (wf_kids_replace Wk _ _ _ [] _ []); [| |exact Hseg|].
        + rewrite length_take. lia.
        + reflexivity.
        + apply wf_kids_nil. eauto.
      - unfold kids1. rewrite app_nth2 by lia. rewrite Hl1, Nat.sub_diag. cbn [app nth].
        now rewrite Hu1.
      - intros x Hx Hne. unfold kids1.
        assert (Hin : nth x (l1 ++ [c'] ++ l2) (Leaf 0 [] 0) ∈ l1 ++ c :: l2).
        { destruct (Nat.lt_ge_cases x i) as [Hlt|Hge].
          - rewrite app_nth1 by lia. apply elem_of_app. left.
            apply list_elem_of_In, nth_In. lia.
          - rewrite app_nth2 by lia. apply elem_of_app. right.
            destruct (x - length l1)%nat as [|y] eqn:E; [lia|]. cbn [app nth].
            apply list_elem_of_further, list_elem_of_In, nth_In.
            pose proof (wf_kids_length W _ _ _ _ Hwk) as Hlen.
            rewrite length_app in Hlen. cbn [length] in Hlen. lia. }
        destruct (wf_kids_in W W_lt _ _ _ _ _ Hwk Hin) as (a & b & _ & _ & HW).
        eapply low_wf, HW. }
    destruct (FixChild_spec h st1 off keys kids1 i lo hi fr Hpre)
      as (st2 & Hfix & Hroot2 & Hframe2 & keys' & kids' & Hn2 & Hrep2' & Hnd2 & Ha2 & Hw2
          & Hlen2 & Hrec2 & Hch2).
    pose proof Hn2 as (n2 & Hp2 & Hnk2 & Hkv2 & Hcv2).
    assert (Hv2 : valid st2 off).
    { eapply alloc_inv_valid; [exact Ha2|]. apply list_elem_of_here. }
    assert (Hnum2 : InternalPage.num_keys n2 = Z.of_nat (length keys')).
    { pose proof (length_keys_view n2) as H. rewrite Hkv2 in H. lia. }
    exists st2, (low lmin imin (Node off keys' kids')). split.
    { intros fuel Hf. rewrite (Hstep fuel Hf).
      rewrite (run_bind _ _ _ _ _ Hfix).
      rewrite (run_bind _ _ _ _ _ (PinInternal_valid st2 off n2 Hv2 Hp2)).
      rewrite (run_bind _ _ _ _ _ (UnpinPage_clean _ _ _)).
      erewrite run_bind by reflexivity.
      cbn [low]. rewrite <- Hchk by lia. rewrite Hroot2, Hroot1.
      unfold InternalPage.NumKeys. rewrite Hnum2.
      destruct (off =? root_offset_ st); reflexivity. }
    split; [congruence|]. split; [eapply frame_trans; eauto|].
    exists (Node off keys' kids').
    split; [reflexivity|]. split; [cbn [rep]; split; assumption|].
    split; [rewrite offsets_Node; exact Hnd2|]. split; [rewrite offsets_Node; exact Ha2|].
    split; [|split; [reflexivity|split]].
    + cbn [wf]. fold W. split; [exact Hlh|]. split; [lia | exact Hw2].
    + rewrite !records_Node, Hrec2. exact Hrel'.
    + rewrite !leaves_Node. eapply chain_pres_trans; eauto.
  - (* the child holds enough *)
    assert (Hwk1 : wf_kids W lo keys hi kids1).
    { unfold kids1. rewrite <- (take_drop i keys). change (take i keys ++ drop i keys)
        with (take i keys ++ [] ++ drop i keys).
      apply Hrepl. apply wf_kids_nil. exists c'. split; [reflexivity|].
      eapply wf_raise; [exact Hwc' | now rewrite <- Hu1]. }
    exists st1, (low lmin imin (Node off keys kids1)). split.
    { intros fuel Hf. rewrite (Hstep fuel Hf). cbn [low].
      destruct (Z.ltb_spec (Z.of_nat (length keys)) imin); [lia | reflexivity]. }
    split; [exact Hroot1|]. split; [exact Hframe1|].
    exists (Node off keys kids1).
    split; [reflexivity|]. split; [cbn [rep]; split; assumption|].
    split; [rewrite offsets_Node; exact Hnd1|]. split; [rewrite offsets_Node; exact Ha1|].
    split; [|split; [reflexivity|split]].
    + cbn [wf]. fold W. split; [exact Hlh|]. split; [lia | exact Hwk1].
    + rewrite !records_Node. exact Hrel'.
    + rewrite !leaves_Node. exact Hchain'.
Qed.

(** ** [Delete] *)

Lemma Delete_tree (st : BPlusTree) (h : nat) (g : tree) (key : Z) :
  root_offset_ st = root g -> rep h (pages st) g -> NoDup (offsets g) ->
  wf h 1 1 INT_MIN (INT_MAX + 1) g -> linked (leaves g) INVALID_PAGE_ID ->
  alloc_inv st (offsets g) -> key ∈ map fst (records g) ->
  exists st' recs',
    (forall fuel, (h < fuel)%nat -> Delete fuel key st = (Ok OK, st')) /\
    tree_holds st' recs' /\ del_rel key (records g) recs'.
Proof.
  intros Hroot Hr Hnd Hw Hl Ha Hkey.
  pose proof (alloc_inv_valid _ _ _ Ha (root_in_offsets g)) as Hv.
  assert (Hne : (root g =? INVALID_PAGE_ID) = false).
  { rewrite <- Hroot. apply root_not_invalid. now rewrite Hroot. }
  assert (Hk : is_int key).
  { apply list_elem_of_fmap in Hkey. destruct Hkey as (r & -> & Hr').
    pose proof (wf_records_range _ _ _ _ _ _ _ Hw Hr'). unfold is_int. lia. }
  destruct (assoc key (records g)) as [d|] eqn:Eassoc;
    [|apply assoc_None in Eassoc; contradiction].
  pose proof Hnd as Hnd0. pose proof Ha as Ha0.
  rewrite <- (app_nil_r (offsets g)) in Hnd, Ha.
  destruct (DeleteRecursive_spec h g 1 1 INT_MIN (INT_MAX + 1) [] st key Hr Hw Hkey Hnd Ha
              (or_introl (conj Hroot (conj eq_refl eq_refl))))
    as (st1 & u & Hrun & Hroot1 & _ & g' & Hrootg & Hrep' & Hnd1 & Ha1 & Hw' & Hu & Hrel & Hchain).
  rewrite app_nil_r in Hnd1, Ha1.
  destruct Hchain as (_ & _ & Hlink). pose proof (Hlink _ Hl) as Hl'.
  assert (Hstep : forall fuel, (h < fuel)%nat ->
            Delete fuel key st =
            if u then
              (root ← gets root_offset_;
               page ← PinPage root;
               match page with
               | PInternal node =>
                   if InternalPage.NumKeys node =? 0 then
                     let old_root := root in
                     modify (fun t => set_root_offset_ t (InternalPage.ChildAt node 0));;
                     UnpinPage old_root page false;;
                     DeallocPage old_root;;
                     WriteMetadata;;
                     ret OK
                   else
                     UnpinPage root page false;;
                     ret OK
               | PLeaf leaf =>
                   if LeafPage.NumKeys leaf =? 0 then
                     let old_root := root in
                     modify (fun t => set_root_offset_ t INVALID_PAGE_ID);;
                     UnpinPage old_root page false;;
                     DeallocPage old_root;;
                     WriteMetadata;;
                     ret OK
                   else
                     UnpinPage root page false;;
                     ret OK
               | PFree _ => fail Undefined
               end) st1
            else (Ok OK, st1)).
  { intros fuel Hf. unfold Delete. erewrite run_bind by reflexivity.
    rewrite Hroot, Hne.
    rewrite (run_bind _ _ _ _ _
               (Search_tree st h g key fuel Hroot Hr Hw Ha0 Hk ltac:(lia))).
    rewrite Eassoc. cbn [search_result].
    rewrite (run_bind _ _ _ _ _ (Hrun fuel Hf)). destruct u; reflexivity. }
  assert (Hroot1' : root_offset_ st1 = root g') by congruence.
  pose proof (alloc_inv_valid _ _ _ Ha1 (root_in_offsets g')) as Hv1.
  destruct u.
  - (* the root is empty: the tree shrinks *)
    destruct h as [|h].
    + apply rep_leaf_inv in Hrep'. destruct Hrep' as (off & recs' & next & -> & Hlf).
      cbn [low] in Hu. symmetry in Hu. apply Z.ltb_lt in Hu.
      assert (recs' = []) as -> by (destruct recs'; [reflexivity | simpl in Hu; lia]).
      destruct Hlf as (l & Hp & Hnk & Hrv & Hnx).
      pose proof (leaf_at_num_keys _ _ Hnk Hrv) as Hnum. cbn in Hnum.
      cbn [root offsets] in *.
      set (st2 := set_root_offset_ st1 INVALID_PAGE_ID).
      assert (Ha2 : alloc_inv st2 [off]) by (now apply alloc_inv_set_root).
      destruct (DeallocPage_mem st2 [off] off Ha2 ltac:(apply list_elem_of_here))
        as (st3 & Hde & Hps3 & Hroot3 & _ & Ha3).
      specialize (Ha3 [] ltac:(intros o Ho; apply elem_of_nil in Ho; contradiction)).
      destruct (WriteMetadata_spec st3 [] Ha3) as (st4 & Hwm & Hps4 & Hroot4 & Ha4).
      exists st4, []. split; [|split].
      * intros fuel Hf. rewrite (Hstep fuel Hf).
        erewrite run_bind by reflexivity. rewrite Hroot1'.
        rewrite (run_bind _ _ _ _ _ (PinPage_valid _ _ Hv1)).
        rewrite (page_at_Some _ _ _ Hp). unfold LeafPage.NumKeys. rewrite Hnum.
        change (Z.of_nat 0 =? 0) with true. cbv iota.
        erewrite run_bind by reflexivity.
        rewrite (run_bind _ _ _ _ _ (UnpinPage_clean _ _ _)).
        fold st2. rewrite (run_bind _ _ _ _ _ Hde).
        rewrite (run_bind _ _ _ _ _ Hwm). reflexivity.
      * apply holds_empty; [|exact Ha4]. rewrite Hroot4, Hroot3. reflexivity.
      * rewrite records_Leaf in Hrel. exact Hrel.
    + apply rep_node_inv in Hrep'. destruct Hrep' as (off & keys' & kids' & -> & Hn' & Hkids').
      cbn [low] in Hu. symmetry in Hu. apply Z.ltb_lt in Hu.
      assert (keys' = []) as -> by (destruct keys'; [reflexivity | simpl in Hu; lia]).
      cbn [wf] in Hw'. destruct Hw' as (_ & _ & Hwk').
      apply wf_kids_nil in Hwk'. destruct Hwk' as (c & -> & Hwc).
      apply Forall_cons in Hkids'. destruct Hkids' as [Hrepc _].
      destruct Hn' as (n & Hp & Hnk & Hkv & Hcv).
      assert (Hnum : InternalPage.num_keys n = 0).
      { pose proof (length_keys_view n) as H. rewrite Hkv in H. simpl in H. lia. }
      assert (Hchild : InternalPage.ChildAt n 0 = root c).
      { rewrite <- nth_kids_view by lia. now rewrite Hcv. }
      cbn [root] in *. rewrite offsets_Node, offsets_of_single in Hnd1, Ha1.
      rewrite leaves_Node, leaves_of_single in Hl'.
      rewrite (records_Node off [] [c]), records_in_single in Hrel.
      apply NoDup_cons in Hnd1. destruct Hnd1 as [Hoffc Hndc].
      set (st2 := set_root_offset_ st1 (root c)).
      assert (Ha2 : alloc_inv st2 (off :: offsets c)) by (now apply alloc_inv_set_root).
      destruct (DeallocPage_mem st2 _ off Ha2 ltac:(apply list_elem_of_here))
        as (st3 & Hde & Hps3 & Hroot3 & _ & Ha3).
      specialize (Ha3 (offsets c)).
      assert (Ha3' : alloc_inv st3 (offsets c)).
      { apply Ha3. intros o Ho. split; [now apply list_elem_of_further|].
        intros ->. contradiction. }
      destruct (WriteMetadata_spec st3 _ Ha3') as (st4 & Hwm & Hps4 & Hroot4 & Ha4).
      exists st4, (records c). split; [|split; [|exact Hrel]].
      * intros fuel Hf. rewrite (Hstep fuel Hf).
        erewrite run_bind by reflexivity. rewrite Hroot1'.
        rewrite (run_bind _ _ _ _ _ (PinPage_valid _ _ Hv1)).
        rewrite (page_at_Some _ _ _ Hp). unfold InternalPage.NumKeys. rewrite Hnum.
        change (0 =? 0) with true. cbv iota.
        erewrite run_bind by reflexivity.
        rewrite (run_bind _ _ _ _ _ (UnpinPage_clean _ _ _)).
        rewrite Hchild. fold st2. rewrite (run_bind _ _ _ _ _ Hde).
        rewrite (run_bind _ _ _ _ _ Hwm). reflexivity.
      * apply (holds_tree st4 h c).
        -- rewrite Hroot4, Hroot3. reflexivity.
        -- eapply rep_frame; [|exact Hrepc]. intros o Ho.
           rewrite Hps4, Hps3. cbn [st2 pages set_root_offset_].
           apply lookup_insert_ne. intros ->. contradiction.
        -- exact Hndc.
        -- eapply wf_mono; [| |exact Hwc]; rewrite ?LEAF_MIN_KEYS_eq, ?INTERNAL_MIN_KEYS_eq; lia.
        -- exact Hl'.
        -- exact Ha4.
  - (* the root holds enough *)
    exists st1, (records g'). split; [|split; [|exact Hrel]].
    + intros fuel Hf. now rewrite (Hstep fuel Hf).
    + apply (holds_tree st1 h g'); auto.
      eapply wf_raise; [|symmetry; exact Hu].
      exact Hw'.
Qed.

(** [Delete] of a key that is present removes its record and keeps the tree
    a tree. *)
Lemma Delete_present (st : BPlusTree) (recs : list (Z * list Z)) (key : Z) :
  tree_holds st recs -> key ∈ map fst recs ->
  exists st' recs',
    runs (fun fuel => Delete fuel key) st OK st' /\
    tree_holds st' recs' /\ del_rel key recs recs'.
Proof.
  intros [Hroot Ha | h g Hroot Hr Hnd Hw Hl Ha] Hk.
  - apply elem_of_nil in Hk. contradiction.
  - destruct (Delete_tree st h g key Hroot Hr Hnd Hw Hl Ha Hk) as (st' & recs' & Hrun & H).
    exists st', recs'. split; [|exact H]. exists (S h). intros fuel Hf. apply Hrun. lia.
Qed.

(** [Delete] of a key that is absent returns [NotFound] and changes
    nothing. *)
Lemma Delete_absent (st : BPlusTree) (recs : list (Z * list Z)) (key : Z) :
  tree_holds st recs -> is_int key -> (key ∉ map fst recs) ->
  runs (fun fuel => Delete fuel key) st NotFound st.
Proof.
  intros Hh Hk Hnot.
  destruct (Search_spec st recs Hh) as (fuel0 & Hs).
  exists fuel0. intros fuel Hf. specialize (Hs fuel key Hf Hk).
  apply assoc_None in Hnot. rewrite Hnot in Hs. cbn [search_result] in Hs.
  unfold Delete. erewrite run_bind by reflexivity.
  destruct (root_offset_ st =? INVALID_PAGE_ID); [reflexivity|].
  now rewrite (run_bind _ _ _ _ _ Hs).
Qed.

End DeleteFacts.

(** * The states a tree goes through *)

Module ReachFacts.
Import Tree TreeSpec SlotsFacts LeafFacts InternalFacts OrderFacts StateFacts GhostFacts.
Import SearchFacts InsertPageFacts InsertFacts DeletePageFacts RoundTripFacts DescentFacts.
Import DeleteFacts.

(** ** More fuel does not change a result *)

Lemma bind_ok_inv {A B : Type} (m : M A) (k : A -> M B) (st st' : BPlusTree) (b : B) :
  (mbind k m) st = (Ok b, st') ->
  exists a st1, m st = (Ok a, st1) /\ k a st1 = (Ok b, st').
Proof.
  unfold mbind, M_bind, bind. destruct (m st) as [[a| | | |] st1]; intros H;
    try discriminate. eauto.
Qed.

Lemma bind_gets {A B : Type} (f : BPlusTree -> A) (k : A -> M B) (st : BPlusTree) :
  (mbind k (gets f)) st = k (f st) st.
Proof. reflexivity. Qed.

Lemma InsertRecursive_S (fuel : nat) (node_off key : Z) (data : list Z) :
  InsertRecursive (S fuel) node_off key data =
  (page ← PinPage node_off;
   match page with
   | PLeaf _ =>
       UnpinPage node_off page false;;
       InsertIntoLeaf node_off key data
   | PInternal node =>
       let n := InternalPage.NumKeys node in
       let i := child_index node key (Z.to_nat n) 0 in
       let child := InternalPage.ChildAt node i in
       UnpinPage node_off page false;;
       r ← InsertRecursive fuel child key data;
       match r with
       | None => ret None
       | Some (child_split, child_new) =>
           InsertIntoInternal node_off child_split child_new
       end
   | PFree _ => fail Undefined
   end).
Proof. reflexivity. Qed.

Lemma InsertRecursive_mono (key : Z) (data : list Z) (fuel : nat) :
  forall (off : Z) (st : BPlusTree) (r : option (Z * Z)) (st' : BPlusTree),
    InsertRecursive fuel off key data st = (Ok r, st') ->
    InsertRecursive (S fuel) off key data st = (Ok r, st').
Proof.
  induction fuel as [|f IH]; intros off st r st' H; [discriminate|].
  rewrite InsertRecursive_S in H. rewrite (InsertRecursive_S (S f)).
  apply bind_ok_inv in H. destruct H as (page & st1 & Hp & H).
  rewrite (run_bind _ _ _ _ _ Hp).
  destruct page as [l|n|nx]; [exact H| |exact H].
  apply bind_ok_inv in H. destruct H as ([] & st2 & Hu & H).
  rewrite (run_bind _ _ _ _ _ Hu).
  apply bind_ok_inv in H. destruct H as (r0 & st3 & Hr & H).
  rewrite (run_bind _ _ _ _ _ (IH _ _ _ _ Hr)). exact H.
Qed.

Lemma Insert_mono (fuel : nat) (key : Z) (data : list Z) (st st' : BPlusTree) (s : Status) :
  Insert fuel key data st = (Ok s, st') -> Insert (S fuel) key data st = (Ok s, st').
Proof.
  unfold Insert. rewrite !bind_gets.
  destruct (root_offset_ st =? INVALID_PAGE_ID); [exact (fun H => H)|].
  intros H. apply bind_ok_inv in H. destruct H as (r & st1 & Hr & H).
  rewrite (run_bind _ _ _ _ _ (InsertRecursive_mono _ _ _ _ _ _ _ Hr)). exact H.
Qed.

(** A result of [Insert] with some fuel is its result with any more fuel. *)
Lemma Insert_run_runs (fuel : nat) (key : Z) (data : list Z) (st st' : BPlusTree) (s : Status) :
  Insert fuel key data st = (Ok s, st') -> runs (fun f => Insert f key data) st s st'.
Proof.
  intros H. exists fuel. intros f Hf.
  induction Hf as [|f Hf IH]; [exact H | now apply Insert_mono].
Qed.

(** ** Reachable states *)

Lemma insert_all_reachable (fuel : nat) (kvs : list (Z * list Z)) :
  forall (st : BPlusTree) (ss : list Status) (st' : BPlusTree),
    reachable st -> Forall (fun kv => is_int (fst kv)) kvs ->
    insert_all fuel kvs st = (Ok ss, st') -> reachable st'.
Proof.
  induction kvs as [|[k v] kvs IH]; intros st ss st' Hr Hint H.
  - injection H as _ <-. exact Hr.
  - cbn [insert_all] in H. apply bind_ok_inv in H. destruct H as (s & st1 & H1 & H).
    apply bind_ok_inv in H. destruct H as (ss' & st2 & H2 & H).
    injection H as _ <-. apply Forall_cons in Hint. destruct Hint as [Hk Hint].
    eapply IH; [|exact Hint|exact H2].
    eapply reach_insert; [exact Hr|exact Hk|]. eapply Insert_run_runs, H1.
Qed.

(** Every reachable state holds a tree. *)
Lemma reachable_holds (st : BPlusTree) : reachable st -> tree_inv st.
Proof.
  induction 1 as [|t t' key data s Hr [recs IH] Hk Hrun | t t' key s Hr [recs IH] Hk Hrun].
  - exists []. apply holds_empty; [reflexivity|]. apply alloc_check_sound. reflexivity.
  - destruct (Insert_spec t recs key data IH Hk) as (t1 & recs' & Hrun' & Hh & _).
    destruct (runs_det _ _ _ _ _ _ Hrun Hrun') as [_ ->]. now exists recs'.
  - destruct (decide (key ∈ map fst recs)) as [Hin|Hnot].
    + destruct (Delete_present t recs key IH Hin) as (t1 & recs' & Hrun' & Hh & _).
      destruct (runs_det _ _ _ _ _ _ Hrun Hrun') as [_ ->]. now exists recs'.
    + pose proof (Delete_absent t recs key IH Hk Hnot) as Hrun'.
      destruct (runs_det _ _ _ _ _ _ Hrun Hrun') as [_ ->]. now exists recs.
Qed.

(** ** The balance of a tree *)

Lemma nodes_head (d : nat) (t : tree) : exists nd rest, nodes d t = nd :: rest.
Proof. destruct t; simpl; eauto. Qed.

Lemma wf_nodes (h : nat) :
  forall (d : nat) (lmin imin lo hi : Z) (t : tree),
    wf h lmin imin lo hi t ->
    Forall (leaf_depth (d + h)) (nodes d t) /\
    Forall (holds_min lmin imin) (take 1 (nodes d t)) /\
    Forall (holds_min LEAF_MIN_KEYS INTERNAL_MIN_KEYS) (tail (nodes d t)).
Proof.
  induction h as [|h IH]; intros d lmin imin lo hi t Hw.
  - destruct t as [off recs next|]; [|simpl in Hw; tauto].
    cbn [wf] in Hw. destruct Hw as (_ & _ & _ & Hcnt).
    cbn [nodes tail take]. split; [|split]; repeat constructor; cbn; lia.
  - destruct t as [|off keys kids]; [simpl in Hw; tauto|].
    cbn [wf] in Hw. destruct Hw as (_ & Hcnt & Hwk).
    assert (Hkids : Forall (fun c => Forall (leaf_depth (d + S h)) (nodes (S d) c) /\
                                     Forall (holds_min LEAF_MIN_KEYS INTERNAL_MIN_KEYS)
                                            (nodes (S d) c)) kids).
    { eapply (wf_kids_Forall (wf h LEAF_MIN_KEYS INTERNAL_MIN_KEYS));
        [intros a b c; apply wf_lt| |exact Hwk].
      intros a b c Hc. destruct (IH (S d) _ _ _ _ _ Hc) as (H1 & H2 & H3).
      replace (d + S h)%nat with (S d + h)%nat by lia. split; [exact H1|].
      destruct (nodes_head (S d) c) as (nd & rest & E). rewrite E in *.
      cbn [take tail] in H2, H3. apply Forall_cons in H2. destruct H2 as [H2 _].
      now constructor. }
    cbn [nodes tail take]. split; [|split].
    + constructor; [cbn; lia|]. apply Forall_concat, Forall_fmap.
      eapply Forall_impl; [exact Hkids|]. cbn. tauto.
    + repeat constructor. cbn. lia.
    + apply Forall_concat, Forall_fmap.
      eapply Forall_impl; [exact Hkids|]. cbn. tauto.
Qed.

Lemma tree_holds_balanced (st : BPlusTree) (recs : list (Z * list Z)) :
  tree_holds st recs -> balanced 18 50 st.
Proof.
  intros [Hroot Ha | h g Hroot Hr Hnd Hw Hl Ha]; [now left|].
  right. exists h, g. destruct (wf_nodes h 0 _ _ _ _ _ Hw) as (H1 & _ & H3).
  rewrite LEAF_MIN_KEYS_eq, INTERNAL_MIN_KEYS_eq in H3.
  split; [exact Hroot|]. split; [exact Hr|]. split; [exact Hnd|].
  split; [exact H1|]. split; [exact H3|].
  apply ascending_NoDup. eapply wf_records, Hw.
Qed.

(** ** The sample of 1836 sequential inserts *)

Lemma seq_tree_reachable : reachable seq_tree.
Proof.
  assert (E : exists ss, fst (insert_all 3 seq_kvs empty_tree) = Ok ss).
  { eexists. vm_compute. reflexivity. }
  destruct E as [ss E].
  apply (insert_all_reachable 3 seq_kvs empty_tree ss).
  - apply reach_empty.
  - unfold seq_kvs. apply Forall_fmap, Forall_forall. intros n Hn. cbn.
    apply list_elem_of_In, in_seq in Hn. unfold is_int, INT_MIN, INT_MAX. lia.
  - unfold seq_tree. destruct (insert_all 3 seq_kvs empty_tree) as [r s].
    cbn [fst snd] in *. subst r. reflexivity.
Qed.

Lemma seq_tree_pages :
  root_offset_ seq_tree = 430080 /\
  (exists r, pages seq_tree !! 430080 = Some (PInternal r) /\
             kids_view r = [12288; 425984]) /\
  (exists c, pages seq_tree !! 12288 = Some (PInternal c) /\
             length (keys_view c) = 50%nat).
Proof.
  split; [vm_compute; reflexivity|]. split.
  - eexists. split; [vm_compute; reflexivity|]. vm_compute. reflexivity.
  - eexists. split; [vm_compute; reflexivity|]. vm_compute. reflexivity.
Qed.

Lemma seq_tree_not_balanced : ~ balanced 18 51 seq_tree.
Proof.
  pose proof seq_tree_pages as HP. set (st := seq_tree) in *. clearbody st.
  destruct HP as (Hroot & (r & Hr & Hkids) & (c & Hc & Hlen)).
  intros [H | (h & g & Hg & Hrep & _ & _ & Hmin & _)].
  { rewrite Hroot in H. discriminate. }
  rewrite Hroot in Hg.
  destruct h as [|h].
  { apply rep_leaf_inv in Hrep. destruct Hrep as (off & recs & next & -> & l & Hl & _).
    cbn [root] in Hg. subst off. rewrite Hr in Hl. discriminate. }
  apply rep_node_inv in Hrep. destruct Hrep as (off & keys & kids & -> & Hn & Hreps).
  cbn [root] in Hg. subst off.
  destruct (node_at_page _ _ _ _ _ Hn Hr) as (_ & _ & Hcv). rewrite Hkids in Hcv.
  destruct kids as [|t0 [|t1 [|t2 kids]]]; try discriminate Hcv.
  injection Hcv as Ht0 Ht1.
  apply Forall_cons in Hreps. destruct Hreps as [Hrep0 _].
  destruct h as [|h].
  { apply rep_leaf_inv in Hrep0. destruct Hrep0 as (off & recs & next & -> & l & Hl & _).
    cbn [root] in Ht0. subst off. rewrite Hc in Hl. discriminate. }
  apply rep_node_inv in Hrep0. destruct Hrep0 as (off & keys0 & kids0 & -> & Hn0 & _).
  cbn [root] in Ht0. subst off.
  destruct (node_at_page _ _ _ _ _ Hn0 Hc) as (_ & Hkv & _).
  cbn [nodes map concat tail app] in Hmin.
  apply Forall_cons in Hmin. destruct Hmin as [Hmin _].
  cbn in Hmin. rewrite <- Hkv, Hlen in Hmin. lia.
Qed.

End ReachFacts.


(** * The tree: round trip, range queries, leaf splits, invalid offsets *)

Module TreeClaims.
Import Tree TreeSpec SlotsFacts LeafFacts InternalFacts OrderFacts StateFacts GhostFacts.
Import SearchFacts InsertPageFacts InsertFacts RoundTripFacts DescentFacts.

(** ** The sample states *)


Lemma sample_tree_holds : tree_holds sample_tree sample_recs.
Proof.
  change sample_recs with (records (Leaf 4096 sample_recs INVALID_PAGE_ID)).
  apply (holds_tree sample_tree 0).
  - reflexivity.
  - cbn [rep]. eexists. split; [vm_compute; reflexivity|].
    split; [cbn; lia|]. split; reflexivity.
  - cbn. apply NoDup_singleton.
  - cbn [wf]. split; [apply int_range_lt|]. split; [cbn; lia|]. split.
    + repeat constructor; cbn; unfold INT_MIN, INT_MAX; lia.
    + cbn. unfold LEAF_MAX_KEYS. lia.
  - reflexivity.
  - apply alloc_check_sound. reflexivity.
Qed.








(** ** Round trip *)




(** ** Range queries *)

Lemma SearchString_result (st : BPlusTree) (recs : list (Z * list Z)) (key : Z) :
  tree_holds st recs -> is_int key ->
  runs (fun fuel => SearchString fuel key) st
       (fst (search_result (assoc key recs)), to_string <$> snd (search_result (assoc key recs))) st.
Proof.
  intros H Hk. destruct (Search_runs st recs key H Hk) as (fuel0 & Hs).
  exists fuel0. intros fuel Hf. unfold SearchString.
  rewrite (run_bind _ _ _ _ _ (Hs fuel Hf)).
  destruct (search_result (assoc key recs)). reflexivity.
Qed.

(** C4.  For every tree state and every pair lower <= upper, [RangeQuery]
    returns OK and the records with keys in [lower, upper] (payloads read as
    strings), in strictly ascending key order: a pair (k, v) is returned if
    and only if k lies in the interval and the search for k returns v. *)
Theorem RangeQuery_returns_interval (st : BPlusTree) (recs : list (Z * list Z)) (lower upper : Z) :
  tree_holds st recs -> is_int lower -> is_int upper -> lower <= upper ->
  exists res,
    runs (fun fuel => RangeQuery fuel lower upper) st (OK, res) st /\
    res = select lower upper recs /\
    ascending (map fst res) /\
    forall k v,
      (k, v) ∈ res <->
      lower <= k <= upper /\ runs (fun fuel => SearchString fuel k) st (OK, Some v) st.
Proof.
  intros H Hlo Hup Hle.
  destruct (RangeQuery_spec st recs H) as (fuel0 & Hrun).
  exists (select lower upper recs). split; [|split; [reflexivity|split]].
  - exists fuel0. intros fuel Hf. now apply Hrun.
  - apply select_ascending. apply tree_holds_NoDup in H as Hnd.
    destruct H as [? ? | h g ? ? ? Hw ? ?]; [exact I|]. eapply wf_records, Hw.
  - intros k v. rewrite select_elem. split.
    + intros (Hk & d & Hin & ->). split; [exact Hk|]. now apply (SearchString_runs st recs).
    + intros (Hk & Hs). split; [exact Hk|].
      assert (Hik : is_int k) by (unfold is_int in *; lia).
      pose proof (SearchString_result st recs k H Hik) as Hs'.
      destruct (runs_det _ _ _ _ _ _ Hs Hs') as [Heq _].
      destruct (assoc k recs) as [d|] eqn:Ea; cbn in Heq; [|discriminate].
      injection Heq as ->. exists d. split; [|reflexivity].
      apply assoc_Some; [eapply tree_holds_NoDup, H | exact Ea].
Qed.

Lemma RangeQuery_returns_interval_witness :
  exists res,
    runs (fun fuel => RangeQuery fuel 2 3) sample_tree (OK, res) sample_tree /\
    res = select 2 3 sample_recs /\
    ascending (map fst res) /\
    forall k v,
      (k, v) ∈ res <->
      2 <= k <= 3 /\ runs (fun fuel => SearchString fuel k) sample_tree (OK, Some v) sample_tree.
Proof.
  apply (RangeQuery_returns_interval sample_tree sample_recs 2 3).
  - exact sample_tree_holds.
  - unfold is_int, INT_MIN, INT_MAX. lia.
  - unfold is_int, INT_MIN, INT_MAX. lia.
  - lia.
Defined.

(** ** The split of a full leaf *)



(** ** Child offsets outside of the file *)




End TreeClaims.

(** * The tree: deletes of absent keys, and the balance of the tree *)

Module DeleteClaims.
Import Tree TreeSpec OrderFacts StateFacts GhostFacts.
Import SearchFacts InsertFacts RoundTripFacts DeleteFacts ReachFacts TreeClaims.

(** ** The sample state *)

Lemma sample_has_2 : 2 ∈ map fst sample_recs.
Proof. cbn. apply list_elem_of_further, list_elem_of_here. Qed.

Lemma sample_lacks_7 : 7 ∉ map fst sample_recs.
Proof.
  intros H. apply list_elem_of_In in H. cbn in H.
  repeat (destruct H as [H|H]; [discriminate|]). exact H.
Qed.

Lemma is_int_small (k : Z) : 0 <= k <= 1000 -> is_int k.
Proof. unfold is_int, INT_MIN, INT_MAX. lia. Qed.

(** ** Deletes of absent keys *)

(** C5.  In every state that holds a tree, [Delete] of a key that is not in
    the tree returns [NotFound] and leaves the state as it was.  [Delete] of
    a key that is in the tree returns [OK]; and whenever a [Delete] of a key
    returned [OK], a second [Delete] of the same key returns [NotFound] and
    leaves the state that the first one produced as it is. *)
Theorem delete_absent_key_changes_nothing (st : BPlusTree) (recs : list (Z * list Z)) (key : Z) :
  tree_holds st recs -> is_int key ->
  ((key ∉ map fst recs) -> runs (fun fuel => Delete fuel key) st NotFound st) /\
  ((key ∈ map fst recs) -> exists st', runs (fun fuel => Delete fuel key) st OK st') /\
  (forall st', runs (fun fuel => Delete fuel key) st OK st' ->
               runs (fun fuel => Delete fuel key) st' NotFound st').
Proof.
  intros Hh Hk. split; [|split].
  - intros Hnot. exact (Delete_absent st recs key Hh Hk Hnot).
  - intros Hin. destruct (Delete_present st recs key Hh Hin) as (st' & recs' & Hrun & _).
    now exists st'.
  - intros st' Hrun. destruct (decide (key ∈ map fst recs)) as [Hin|Hnot].
    + destruct (Delete_present st recs key Hh Hin) as (st1 & recs' & Hrun' & Hh' & Hrel).
      destruct (runs_det _ _ _ _ _ _ Hrun Hrun') as [_ ->].
      apply (Delete_absent st1 recs' key Hh' Hk).
      intros Hin'. apply list_elem_of_fmap in Hin'. destruct Hin' as (x & -> & Hx).
      apply Hrel in Hx. now destruct Hx.
    + pose proof (Delete_absent st recs key Hh Hk Hnot) as Hrun'.
      destruct (runs_det _ _ _ _ _ _ Hrun Hrun') as [E _]. discriminate E.
Qed.

Lemma delete_absent_key_changes_nothing_witness :
  runs (fun fuel => Delete fuel 7) sample_tree NotFound sample_tree /\
  exists st',
    runs (fun fuel => Delete fuel 2) sample_tree OK st' /\
    runs (fun fuel => Delete fuel 2) st' NotFound st'.
Proof.
  split.
  - destruct (delete_absent_key_changes_nothing sample_tree sample_recs 7 sample_tree_holds
                (is_int_small 7 ltac:(lia))) as (Habsent & _ & _).
    exact (Habsent sample_lacks_7).
  - destruct (delete_absent_key_changes_nothing sample_tree sample_recs 2 sample_tree_holds
                (is_int_small 2 ltac:(lia))) as (_ & Hex & Hsecond).
    destruct (Hex sample_has_2) as [st' Hrun].
    exists st'. split; [exact Hrun | exact (Hsecond st' Hrun)].
Defined.

(** ** The balance of the tree *)

(** C3, as stated: the keys 0 .. 1835 inserted in this order into an empty
    tree split the root for the first time; its two children are internal
    nodes with 50 keys each, one less than 51. *)
Lemma non_root_internal_node_with_50_keys :
  reachable seq_tree /\ ~ balanced 18 51 seq_tree.
Proof. split; [exact seq_tree_reachable | exact seq_tree_not_balanced]. Qed.

(** C3, amended.  After any sequence of inserts and deletes that starts from
    an empty tree, the tree is empty or its pages hold a tree in which every
    leaf other than the root holds at least 18 records, every internal node
    other than the root holds at least 50 keys, all leaves are at the same
    depth, and no key occurs twice. *)
Theorem balance_after_any_sequence (st : BPlusTree) :
  reachable st -> balanced 18 50 st.
Proof.
  intros Hr. destruct (reachable_holds st Hr) as [recs Hh].
  exact (tree_holds_balanced st recs Hh).
Qed.

Lemma balance_after_any_sequence_witness : balanced 18 50 seq_tree.
Proof. exact (balance_after_any_sequence seq_tree seq_tree_reachable). Defined.

End DeleteClaims.

(** * The tree: what its operations do to the records it holds *)

Module TreeProps.
Import Tree TreeSpec TreeLife SlotsFacts LeafFacts InternalFacts OrderFacts StateFacts GhostFacts.
Import SearchFacts InsertPageFacts InsertFacts RoundTripFacts DescentFacts DeleteFacts ReachFacts.
Import TreeClaims.

(** ** Records in key order *)

Lemma tree_holds_ascending (st : BPlusTree) (recs : list (Z * list Z)) :
  tree_holds st recs -> ascending (map fst recs).
Proof.
  intros [Hroot Ha | h g Hroot Hr Hnd Hw Hl Ha]; [exact I|].
  eapply wf_records, Hw.
Qed.




Lemma sample_key_2 : 2 ∈ map fst sample_recs.
Proof. cbn. apply list_elem_of_further, list_elem_of_here. Qed.


Lemma small_is_int (k : Z) : 0 <= k <= 1000 -> is_int k.
Proof. unfold is_int, INT_MIN, INT_MAX. lia. Qed.

(** ** Insert *)



(** ** Delete *)





(** ** Empty trees *)

Lemma wf_records_nonempty (h : nat) :
  forall (lmin imin lo hi : Z) (t : tree),
    1 <= lmin -> wf h lmin imin lo hi t -> records t <> [].
Proof.
  induction h as [|h IH]; intros lmin imin lo hi [off recs next|off keys kids] Hl Hw;
    cbn [wf] in Hw; try contradiction.
  - rewrite records_Leaf. destruct Hw as (_ & _ & _ & Hn & _).
    destruct recs; [cbn in Hn; lia | discriminate].
  - rewrite records_Node. destruct Hw as (_ & _ & Hk).
    assert (Hc : exists c rest a b, kids = c :: rest /\
                   wf h LEAF_MIN_KEYS INTERNAL_MIN_KEYS a b c).
    { destruct keys as [|k keys].
      - apply wf_kids_nil in Hk. destruct Hk as (c & -> & Hc). now exists c, [], lo, hi.
      - apply wf_kids_cons_inv in Hk. destruct Hk as (c & kids' & -> & Hc & _).
        now exists c, kids', lo, k. }
    destruct Hc as (c & rest & a & b & -> & Hc).
    rewrite records_in_cons. intros E. apply app_eq_nil in E. destruct E as [E _].
    revert E. apply (IH LEAF_MIN_KEYS INTERNAL_MIN_KEYS a b c); [|exact Hc].
    rewrite LEAF_MIN_KEYS_eq. lia.
Qed.

Lemma tree_holds_IsEmpty (st : BPlusTree) (recs : list (Z * list Z)) :
  tree_holds st recs -> (IsEmpty st = true <-> recs = []).
Proof.
  intros [Hroot Ha | h g Hroot Hr Hnd Hw Hl Ha].
  - unfold IsEmpty. rewrite Hroot. split; reflexivity.
  - assert (Hv : valid st (root_offset_ st)).
    { rewrite Hroot. eapply alloc_inv_valid; [exact Ha | apply root_in_offsets]. }
    unfold IsEmpty. rewrite (root_not_invalid _ Hv). split; [discriminate|].
    intros E. exfalso. revert E. eapply wf_records_nonempty; [|exact Hw]. lia.
Qed.

(** X4.  [IsEmpty] tells whether the tree holds a record: in every state
    that a tree on a new file reaches through inserts and deletes,
    [IsEmpty] is true exactly if [Search] finds no key of type [int]. *)
Theorem is_empty_iff_nothing_found (st : BPlusTree) :
  reachable st ->
  (IsEmpty st = true <->
   forall key, is_int key -> runs (fun fuel => Search fuel key) st (NotFound, None) st).
Proof.
  intros Hr. destruct (reachable_holds st Hr) as [recs Hh].
  rewrite (tree_holds_IsEmpty st recs Hh). split.
  - intros -> key Hk. exact (Search_runs st [] key Hh Hk).
  - intros Hnone. destruct recs as [|[k d] recs]; [reflexivity|]. exfalso.
    assert (Hin : (k, d) ∈ (k, d) :: recs) by apply list_elem_of_here.
    pose proof (tree_holds_is_int _ _ _ Hh Hin) as Hk. cbn [fst] in Hk.
    pose proof (Search_runs st _ k Hh Hk) as Hs.
    apply (assoc_Some k _ d (tree_holds_NoDup _ _ Hh)) in Hin. rewrite Hin in Hs.
    destruct (runs_det _ _ _ _ _ _ Hs (Hnone k Hk)) as [E _]. discriminate E.
Qed.

Lemma is_empty_iff_nothing_found_witness :
  IsEmpty empty_tree = true <->
  forall key, is_int key -> runs (fun fuel => Search fuel key) empty_tree (NotFound, None) empty_tree.
Proof. exact (is_empty_iff_nothing_found empty_tree reach_empty). Defined.




(** ** Payloads *)





(** ** Range queries *)

Lemma select_point (key : Z) (recs : list (Z * list Z)) :
  NoDup (map fst recs) ->
  select key key recs =
    match assoc key recs with
    | Some d => [(key, to_string d)]
    | None => []
    end.
Proof.
  induction recs as [|[k d] recs IH]; intros Hnd; [reflexivity|].
  cbn [map fst] in Hnd. apply NoDup_cons in Hnd. destruct Hnd as [Hk Hnd].
  cbn [select assoc]. destruct (Z.eqb_spec k key) as [->|Hne].
  - rewrite Z.leb_refl. cbn [andb]. f_equal.
    rewrite (IH Hnd). apply assoc_None in Hk. now rewrite Hk.
  - replace ((key <=? k) && (k <=? key)) with false by lia. exact (IH Hnd).
Qed.

(** X7.  A range query over the single key [key] finds what [Search] finds:
    the one pair of the key and its value if the string overload of
    [Search] returns a value, and nothing if it returns [NotFound]. *)
Theorem point_range_query_agrees_with_search (st : BPlusTree) (recs : list (Z * list Z))
                                             (key : Z) :
  tree_holds st recs -> is_int key ->
  exists s v,
    runs (fun fuel => SearchString fuel key) st (s, v) st /\
    runs (fun fuel => RangeQuery fuel key key) st
         (OK, match v with Some d => [(key, d)] | None => [] end) st /\
    (s = OK /\ v <> None \/ s = NotFound /\ v = None).
Proof.
  intros Hh Hk.
  pose proof (SearchString_result st recs key Hh Hk) as Hs.
  destruct (RangeQuery_spec st recs Hh) as (fuel0 & Hq).
  assert (Hr : runs (fun fuel => RangeQuery fuel key key) st (OK, select key key recs) st).
  { exists fuel0. intros fuel Hf. apply Hq; [exact Hf | exact Hk | lia]. }
  rewrite (select_point key recs (tree_holds_NoDup _ _ Hh)) in Hr.
  destruct (assoc key recs) as [d|]; cbn [search_result fst snd fmap option_fmap option_map] in Hs.
  - exists OK, (Some (to_string d)). split; [exact Hs|]. split; [exact Hr|].
    left. split; [reflexivity | discriminate].
  - exists NotFound, None. split; [exact Hs|]. split; [exact Hr|]. right. now split.
Qed.

Lemma point_range_query_agrees_with_search_witness :
  exists s v,
    runs (fun fuel => SearchString fuel 2) sample_tree (s, v) sample_tree /\
    runs (fun fuel => RangeQuery fuel 2 2) sample_tree
         (OK, match v with Some d => [(2, d)] | None => [] end) sample_tree /\
    (s = OK /\ v <> None \/ s = NotFound /\ v = None).
Proof.
  apply (point_range_query_agrees_with_search sample_tree sample_recs 2 sample_tree_holds).
  apply small_is_int. lia.
Defined.

Lemma select_split (lo mid hi : Z) (recs : list (Z * list Z)) :
  lo <= mid + 1 -> mid <= hi -> ascending (map fst recs) ->
  select lo hi recs = select lo mid recs ++ select (mid + 1) hi recs.
Proof.
  intros Hlo Hhi. induction recs as [|[k d] recs IH]; intros Ha; [reflexivity|].
  cbn [map fst] in Ha. apply ascending_cons in Ha. destruct Ha as [Ha Hk].
  cbn [select]. rewrite (IH Ha).
  destruct (Z.le_gt_cases k mid) as [Hle|Hgt].
  - replace ((mid + 1 <=? k) && (k <=? hi)) with false by lia.
    replace ((lo <=? k) && (k <=? hi)) with ((lo <=? k) && (k <=? mid)) by lia.
    destruct ((lo <=? k) && (k <=? mid)); reflexivity.
  - replace ((lo <=? k) && (k <=? mid)) with false by lia.
    replace ((lo <=? k) && (k <=? hi)) with ((mid + 1 <=? k) && (k <=? hi)) by lia.
    rewrite (select_above lo mid recs).
    + cbn [app]. destruct ((mid + 1 <=? k) && (k <=? hi)); reflexivity.
    + intros r Hr. assert (k < fst r); [|lia].
      apply Hk. apply list_elem_of_fmap. now exists r.
Qed.

(** X8.  Range queries compose: the result over [lo, hi] is the result
    over [lo, mid] followed by the result over [mid + 1, hi]. *)
Theorem range_query_splits (st : BPlusTree) (recs : list (Z * list Z)) (lo mid hi : Z) :
  tree_holds st recs -> is_int lo -> is_int hi -> lo <= mid -> mid < hi ->
  exists r1 r2,
    runs (fun fuel => RangeQuery fuel lo mid) st (OK, r1) st /\
    runs (fun fuel => RangeQuery fuel (mid + 1) hi) st (OK, r2) st /\
    runs (fun fuel => RangeQuery fuel lo hi) st (OK, r1 ++ r2) st.
Proof.
  intros Hh Hlo Hhi Hle Hlt.
  destruct (RangeQuery_spec st recs Hh) as (fuel0 & Hq).
  exists (select lo mid recs), (select (mid + 1) hi recs).
  rewrite <- (select_split lo mid hi recs) by (try lia; exact (tree_holds_ascending _ _ Hh)).
  unfold is_int in *.
  split; [|split]; exists fuel0; intros fuel Hf; apply Hq; unfold is_int; lia.
Qed.

Lemma range_query_splits_witness :
  exists r1 r2,
    runs (fun fuel => RangeQuery fuel 1 2) sample_tree (OK, r1) sample_tree /\
    runs (fun fuel => RangeQuery fuel (2 + 1) 5) sample_tree (OK, r2) sample_tree /\
    runs (fun fuel => RangeQuery fuel 1 5) sample_tree (OK, r1 ++ r2) sample_tree.
Proof.
  apply (range_query_splits sample_tree sample_recs 1 2 5 sample_tree_holds);
    try (apply small_is_int); lia.
Defined.

(** ** No operation fails *)



(** ** Closing and opening the file *)



(** ** Page-level steps *)

(** X11.  [InsertIntoLeaf] without a split.  Into a leaf that has room, or
    that holds the key already, the record goes in place: the result is
    [false], the leaf shows the records in key order with the new record in
    the place of any old one under the key, it keeps its next pointer, and
    no other page changes. *)
Theorem leaf_insert_in_place (st : BPlusTree) (off next key : Z) (recs : list (Z * list Z))
                             (used : list Z) (data : list Z) :
  leaf_at (pages st) off recs next -> alloc_inv st used -> off ∈ used ->
  ascending (map fst recs) -> Z.of_nat (length recs) <= LEAF_MAX_KEYS ->
  key ∈ map fst recs \/ Z.of_nat (length recs) < LEAF_MAX_KEYS ->
  exists st' recs',
    InsertIntoLeaf off key data st = (Ok None, st') /\
    leaf_at (pages st') off recs' next /\
    ascending (map fst recs') /\ ins_rel key data recs recs' /\
    Z.of_nat (length recs') <= LEAF_MAX_KEYS /\
    (forall o, o <> off -> pages st' !! o = pages st !! o) /\
    alloc_inv st' used.
Proof.
  intros Hl Ha Hin Hasc Hlen Hroom.
  destruct (InsertIntoLeaf_spec st off next key recs used data Hl Ha Hin Hasc Hlen)
    as (st' & r & Hrun & _ & Hr).
  destruct r as [[sk noff]|].
  - exfalso. destruct Hr as (all & _ & _ & _ & _ & _ & _ & H35 & Hnot & _).
    destruct Hroom as [Hk|Hlt]; [contradiction|]. unfold LEAF_MAX_KEYS in Hlt. lia.
  - destruct Hr as (recs' & Hl' & Hfr & Ha' & Hasc' & Hrel & _ & Hlen' & _).
    exists st', recs'. split; [exact Hrun|]. split; [exact Hl'|]. split; [exact Hasc'|].
    split; [exact Hrel|]. split; [exact Hlen'|]. split; [exact Hfr | exact Ha'].
Qed.

Lemma sample_leaf_at : leaf_at (pages sample_tree) 4096 sample_recs INVALID_PAGE_ID.
Proof.
  eexists. split; [vm_compute; reflexivity|].
  split; [cbn; lia|]. split; reflexivity.
Qed.

Lemma leaf_insert_in_place_witness :
  exists st' recs',
    InsertIntoLeaf 4096 2 (pad [120]) sample_tree = (Ok None, st') /\
    leaf_at (pages st') 4096 recs' INVALID_PAGE_ID /\
    ascending (map fst recs') /\ ins_rel 2 (pad [120]) sample_recs recs' /\
    Z.of_nat (length recs') <= LEAF_MAX_KEYS /\
    (forall o, o <> 4096 -> pages st' !! o = pages sample_tree !! o) /\
    alloc_inv st' [4096].
Proof.
  apply (leaf_insert_in_place sample_tree 4096 INVALID_PAGE_ID 2 sample_recs [4096] (pad [120])).
  - exact sample_leaf_at.
  - apply alloc_check_sound. reflexivity.
  - apply list_elem_of_here.
  - cbn. repeat split; lia.
  - cbn. unfold LEAF_MAX_KEYS. lia.
  - left. exact sample_key_2.
Defined.

(** X12.  The split of a full internal node.  [InsertIntoInternal] into a
    node with [INTERNAL_MAX_KEYS] = 100 keys returns [true]: of the 101
    keys in order, the first 50 stay in the node with the first 51
    children, the last 50 go with the last 51 children to a page that was
    not in use, and the key in the middle goes to the caller and stays in
    neither of the two.  No other page changes. *)
Theorem full_internal_node_splits (st : BPlusTree) (off : Z) (keys kids : list Z)
                                  (used : list Z) (key child : Z) (pos : nat) :
  node_at (pages st) off keys kids -> alloc_inv st used -> off ∈ used ->
  ascending keys -> length keys = 100%nat -> (pos <= length keys)%nat ->
  (forall j, (j < pos)%nat -> nth j keys 0 < key) ->
  (forall j, (pos <= j < length keys)%nat -> key < nth j keys 0) ->
  let keys' := vector_insert keys pos key in
  let kids' := vector_insert kids (S pos) child in
  exists st' noff,
    InsertIntoInternal off key child st = (Ok (Some (nth 50 keys' 0, noff)), st') /\
    (noff ∉ used) /\
    node_at (pages st') off (take 50 keys') (take 51 kids') /\
    node_at (pages st') noff (drop 51 keys') (drop 51 kids') /\
    length (take 50 keys') = 50%nat /\ length (drop 51 keys') = 50%nat /\
    keys' = take 50 keys' ++ nth 50 keys' 0 :: drop 51 keys' /\
    ascending keys' /\
    (forall o, o <> off -> o <> noff -> pages st' !! o = pages st !! o).
Proof.
  intros Hn Ha Hin Hasc Hlen Hpos Hlt Hgt keys' kids'.
  destruct (InsertIntoInternal_spec st off keys kids used key child pos Hn Ha Hin Hasc)
    as (st' & r & Hrun & _ & Hr); auto.
  { unfold INTERNAL_MAX_KEYS. lia. }
  destruct r as [[sk noff]|]; cbv zeta in Hr.
  - destruct Hr as (Hnot & -> & Hl & Hrt & Hfr & _ & _).
    assert (Hlen' : length keys' = 101%nat).
    { unfold keys', vector_insert. rewrite length_app. cbn [length].
      rewrite length_take, length_drop. lia. }
    exists st', noff. split; [exact Hrun|]. split; [exact Hnot|].
    split; [exact Hl|]. split; [exact Hrt|].
    split; [rewrite length_take; lia|]. split; [rewrite length_drop; lia|].
    split; [|split; [|exact Hfr]].
    + rewrite <- (take_drop 50 keys') at 1. f_equal.
      rewrite (drop_S keys' (nth 50 keys' 0) 50); [reflexivity|].
      apply lookup_nth. lia.
    + apply ascending_insert; auto.
  - exfalso. destruct Hr as (_ & _ & _ & Hlt'). unfold INTERNAL_MAX_KEYS in Hlt'. lia.
Qed.

Lemma full_node_below (j : nat) : (j < 50)%nat -> nth j full_node_keys 0 < 101.
Proof.
  intros Hj. do 50 (destruct j as [|j]; [vm_compute; reflexivity|]). lia.
Qed.

Lemma full_node_above (j : nat) :
  (50 <= j < length full_node_keys)%nat -> 101 < nth j full_node_keys 0.
Proof.
  intros Hj. do 50 (destruct j as [|j]; [lia|]).
  do 50 (destruct j as [|j]; [vm_compute; reflexivity|]).
  exfalso. revert Hj. unfold full_node_keys. rewrite length_map, length_seq. lia.
Qed.

Lemma full_node_ascending : ascending full_node_keys.
Proof. vm_compute. repeat split. Qed.

Lemma full_internal_node_splits_witness :
  let keys' := vector_insert full_node_keys 50 101 in
  let kids' := vector_insert full_node_kids 51 999 in
  exists st' noff,
    InsertIntoInternal 4096 101 999 full_node_tree = (Ok (Some (nth 50 keys' 0, noff)), st') /\
    (noff ∉ [4096]) /\
    node_at (pages st') 4096 (take 50 keys') (take 51 kids') /\
    node_at (pages st') noff (drop 51 keys') (drop 51 kids') /\
    length (take 50 keys') = 50%nat /\ length (drop 51 keys') = 50%nat /\
    keys' = take 50 keys' ++ nth 50 keys' 0 :: drop 51 keys' /\
    ascending keys' /\
    (forall o, o <> 4096 -> o <> noff -> pages st' !! o = pages full_node_tree !! o).
Proof.
  apply (full_internal_node_splits full_node_tree 4096 full_node_keys full_node_kids [4096]
           101 999 50).
  - eexists. split; [reflexivity|]. split; [cbn; lia|]. split; reflexivity.
  - apply alloc_check_sound. reflexivity.
  - apply list_elem_of_here.
  - exact full_node_ascending.
  - reflexivity.
  - cbn. lia.
  - exact full_node_below.
  - exact full_node_above.
Defined.




End TreeProps.

(** * The file: metadata words, growth, and the order of allocations *)

Module DiskProps.
Import Disk StoreSpec DiskFacts.

(** ** Bytes and words of the mapping *)

Lemma store_byte_other (m : mem) (off v a : Z) :
  a < off \/ off + 8 <= a -> store_i64 m off v a = m a.
Proof.
  intros Ha. unfold store_i64, mem_write. rewrite length_le_bytes.
  destruct (Z.leb_spec off a); destruct (Z.ltb_spec a (off + Z.of_nat 8)); simpl; auto; lia.
Qed.

Lemma zero_byte_in (m : mem) (off len a : Z) :
  off <= a < off + len -> mem_zero m off len a = 0.
Proof.
  intros Ha. unfold mem_zero.
  destruct (Z.leb_spec off a); destruct (Z.ltb_spec a (off + len)); simpl; auto; lia.
Qed.

Lemma zero_byte_other (m : mem) (off len a : Z) :
  a < off \/ off + len <= a -> mem_zero m off len a = m a.
Proof.
  intros Ha. unfold mem_zero.
  destruct (Z.leb_spec off a); destruct (Z.ltb_spec a (off + len)); simpl; auto; lia.
Qed.

Lemma load_zero_in (m : mem) (off len off' : Z) :
  off <= off' -> off' + 8 <= off + len -> load_i64 (mem_zero m off len) off' = 0.
Proof.
  intros H1 H2. unfold load_i64.
  rewrite (mem_read_ext _ (fun _ => 0)); [reflexivity|].
  intros a Ha. apply zero_byte_in. lia.
Qed.

Lemma EnsureCapacity_size (d : DiskManager) (r : Z) :
  r <= file_size_ (EnsureCapacity d r) /\ file_size_ d <= file_size_ (EnsureCapacity d r).
Proof.
  unfold EnsureCapacity, grown_size, PAGE_SIZE.
  destruct (Z.leb_spec r (file_size_ d)); [cbn; lia|]. cbn [file_size_].
  assert (Hr : forall x, x <= (x + 4096 - 1) / 4096 * 4096).
  { intros x. pose proof (Z.div_mod (x + 4096 - 1) 4096 ltac:(lia)).
    pose proof (Z.mod_pos_bound (x + 4096 - 1) 4096 ltac:(lia)). lia. }
  pose proof (Hr r). pose proof (Hr (Z.max ((r + 4096 - 1) / 4096 * 4096)
                                          (Z.max (file_size_ d * 2) (Z.shiftl 1 20)))).
  lia.
Qed.

Lemma EnsureCapacity_byte (d : DiskManager) (r a : Z) :
  a < file_size_ d -> mapped_ (EnsureCapacity d r) a = mapped_ d a.
Proof.
  intros Ha. unfold EnsureCapacity. destruct (r <=? file_size_ d); [reflexivity|].
  cbn [mapped_]. destruct (Z.ltb_spec a (file_size_ d)); [reflexivity | lia].
Qed.

Lemma EnsureCapacity_load (d : DiskManager) (r off : Z) :
  off + 8 <= file_size_ d ->
  load_i64 (mapped_ (EnsureCapacity d r)) off = load_i64 (mapped_ d) off.
Proof.
  intros Ho. unfold load_i64. f_equal. f_equal. apply mem_read_ext.
  intros a Ha. apply EnsureCapacity_byte. lia.
Qed.

Lemma in_int64_small (v : Z) : -1 <= v < 2 ^ 63 -> in_int64 v.
Proof. unfold in_int64. lia. Qed.

(** ** The metadata words *)

(** X14.  The three words of the metadata page are stored and read back
    independently: each setter followed by its getter gives the value that
    was set, for every value of type [int64_t], and leaves the other two
    words and the size of the file as they were. *)
Theorem metadata_words_round_trip (d : DiskManager) (v : Z) :
  in_int64 v ->
  (RootOffset (SetRootOffset d v) = v /\
   NextPageOffset (SetRootOffset d v) = NextPageOffset d /\
   FreeListHead (SetRootOffset d v) = FreeListHead d) /\
  (NextPageOffset (SetNextPageOffset d v) = v /\
   RootOffset (SetNextPageOffset d v) = RootOffset d /\
   FreeListHead (SetNextPageOffset d v) = FreeListHead d) /\
  (FreeListHead (SetFreeListHead d v) = v /\
   RootOffset (SetFreeListHead d v) = RootOffset d /\
   NextPageOffset (SetFreeListHead d v) = NextPageOffset d) /\
  file_size_ (SetRootOffset d v) = file_size_ d /\
  file_size_ (SetNextPageOffset d v) = file_size_ d /\
  file_size_ (SetFreeListHead d v) = file_size_ d.
Proof.
  intros Hv.
  unfold RootOffset, NextPageOffset, FreeListHead, SetRootOffset, SetNextPageOffset,
    SetFreeListHead, META_ROOT_OFFSET, META_NEXT_PAGE, META_FREE_LIST_HEAD.
  cbn [with_mapped mapped_ file_size_].
  rewrite !load_store_same by exact Hv.
  rewrite !load_store_other by lia.
  repeat split.
Qed.

Lemma metadata_words_round_trip_witness :
  (RootOffset (SetRootOffset new_file (-1)) = -1 /\
   NextPageOffset (SetRootOffset new_file (-1)) = NextPageOffset new_file /\
   FreeListHead (SetRootOffset new_file (-1)) = FreeListHead new_file) /\
  (NextPageOffset (SetNextPageOffset new_file (-1)) = -1 /\
   RootOffset (SetNextPageOffset new_file (-1)) = RootOffset new_file /\
   FreeListHead (SetNextPageOffset new_file (-1)) = FreeListHead new_file) /\
  (FreeListHead (SetFreeListHead new_file (-1)) = -1 /\
   RootOffset (SetFreeListHead new_file (-1)) = RootOffset new_file /\
   NextPageOffset (SetFreeListHead new_file (-1)) = NextPageOffset new_file) /\
  file_size_ (SetRootOffset new_file (-1)) = file_size_ new_file /\
  file_size_ (SetNextPageOffset new_file (-1)) = file_size_ new_file /\
  file_size_ (SetFreeListHead new_file (-1)) = file_size_ new_file.
Proof. apply (metadata_words_round_trip new_file (-1)). apply in_int64_small. lia. Defined.

(** ** Growth of the file *)

(** X15.  [EnsureCapacity] never shrinks the file and never loses a byte.
    Afterwards the file is at least as long as required and as before, the
    bytes it had are unchanged, and the bytes it gained are zero.  When it
    grows, the new length is a whole number of pages, at least twice the
    old length and at least one megabyte. *)
Theorem EnsureCapacity_grows (d : DiskManager) (required : Z) :
  0 <= file_size_ d ->
  let d' := EnsureCapacity d required in
  required <= file_size_ d' /\ file_size_ d <= file_size_ d' /\
  (forall a, a < file_size_ d -> mapped_ d' a = mapped_ d a) /\
  (forall a, file_size_ d <= a < file_size_ d' -> mapped_ d' a = 0) /\
  (file_size_ d < required ->
     file_size_ d' mod PAGE_SIZE = 0 /\
     2 * file_size_ d <= file_size_ d' /\ 2 ^ 20 <= file_size_ d') /\
  (required <= file_size_ d -> d' = d).
Proof.
  intros H0 d'. destruct (EnsureCapacity_size d required) as [H1 H2].
  split; [exact H1|]. split; [exact H2|]. split; [|split; [|split]].
  - intros a Ha. now apply EnsureCapacity_byte.
  - intros a Ha. unfold d', EnsureCapacity in *.
    destruct (Z.leb_spec required (file_size_ d)); [cbn in Ha; lia|].
    cbn [mapped_]. destruct (Z.ltb_spec a (file_size_ d)); [lia | reflexivity].
  - intros Hlt. unfold d', EnsureCapacity, grown_size, PAGE_SIZE.
    destruct (Z.leb_spec required (file_size_ d)); [lia|]. cbn [file_size_].
    split; [apply Z.mod_mul; lia|].
    assert (Hr : forall x, x <= (x + 4096 - 1) / 4096 * 4096).
    { intros x. pose proof (Z.div_mod (x + 4096 - 1) 4096 ltac:(lia)).
      pose proof (Z.mod_pos_bound (x + 4096 - 1) 4096 ltac:(lia)). lia. }
    pose proof (Hr (Z.max ((required + 4096 - 1) / 4096 * 4096)
                          (Z.max (file_size_ d * 2) (Z.shiftl 1 20)))) as Hm.
    change (Z.shiftl 1 20) with (2 ^ 20) in *. lia.
  - intros Hle. unfold d', EnsureCapacity.
    destruct (Z.leb_spec required (file_size_ d)); [reflexivity | lia].
Qed.

Lemma EnsureCapacity_grows_witness :
  let d' := EnsureCapacity new_file (2 * PAGE_SIZE) in
  2 * PAGE_SIZE <= file_size_ d' /\ file_size_ new_file <= file_size_ d' /\
  (forall a, a < file_size_ new_file -> mapped_ d' a = mapped_ new_file a) /\
  (forall a, file_size_ new_file <= a < file_size_ d' -> mapped_ d' a = 0) /\
  (file_size_ new_file < 2 * PAGE_SIZE ->
     file_size_ d' mod PAGE_SIZE = 0 /\
     2 * file_size_ new_file <= file_size_ d' /\ 2 ^ 20 <= file_size_ d') /\
  (2 * PAGE_SIZE <= file_size_ new_file -> d' = new_file).
Proof. apply (EnsureCapacity_grows new_file (2 * PAGE_SIZE)). cbn. unfold PAGE_SIZE. lia. Defined.

(** ** The order of allocations *)

(** The state after an allocation at the frontier. *)
Lemma frontier_step (d : DiskManager) :
  PAGE_SIZE <= file_size_ d -> FreeListHead d = INVALID_PAGE_ID ->
  PAGE_SIZE <= NextPageOffset d -> NextPageOffset d + PAGE_SIZE < 2 ^ 63 ->
  exists d1,
    AllocatePage d = Ok (NextPageOffset d, d1) /\
    file_size_ d <= file_size_ d1 /\ NextPageOffset d + PAGE_SIZE <= file_size_ d1 /\
    NextPageOffset d1 = NextPageOffset d + PAGE_SIZE /\
    FreeListHead d1 = INVALID_PAGE_ID /\ RootOffset d1 = RootOffset d /\
    (forall a, NextPageOffset d <= a < NextPageOffset d + PAGE_SIZE -> mapped_ d1 a = 0) /\
    (forall a, a < NextPageOffset d -> a < file_size_ d -> a < 8 \/ 16 <= a ->
               mapped_ d1 a = mapped_ d a).
Proof.
  intros Hfs Hfree Hn Hmax. unfold PAGE_SIZE in *.
  rewrite AllocatePage_frontier by (auto; lia).
  eexists. split; [reflexivity|]. cbv zeta.
  destruct (EnsureCapacity_size d (NextPageOffset d + PAGE_SIZE)) as [H1 H2].
  set (e := EnsureCapacity d (NextPageOffset d + PAGE_SIZE)) in *.
  unfold PAGE_SIZE in *.
  unfold NextPageOffset at 4, FreeListHead at 1, RootOffset at 1, SetNextPageOffset,
    META_ROOT_OFFSET, META_NEXT_PAGE, META_FREE_LIST_HEAD.
  cbn [with_mapped mapped_ file_size_].
  split; [exact H2|]. split; [exact H1|].
  split; [apply load_store_same, in_int64_small; lia|].
  split; [|split; [|split]].
  - rewrite load_store_other by lia. rewrite load_zero_other by lia.
    unfold e. rewrite EnsureCapacity_load by lia. exact Hfree.
  - rewrite load_store_other by lia. rewrite load_zero_other by lia.
    unfold e. rewrite EnsureCapacity_load by lia. reflexivity.
  - intros a Ha. rewrite store_byte_other by lia. apply zero_byte_in. lia.
  - intros a Ha Hf Hw. rewrite store_byte_other by lia. rewrite zero_byte_other by lia.
    unfold e. now apply EnsureCapacity_byte.
Qed.

(** X16.  Allocations at the frontier hand out consecutive pages.  With an
    empty free list, two calls of [AllocatePage] return the frontier and
    the page after it; both pages lie inside the file and are zero, the
    frontier has moved by two pages, the root offset and the free list are
    untouched, and every byte below the old frontier other than the
    frontier word itself is as it was, also when the file was grown and
    mapped again. *)
Theorem frontier_allocations_are_consecutive (d : DiskManager) :
  PAGE_SIZE <= file_size_ d -> FreeListHead d = INVALID_PAGE_ID ->
  PAGE_SIZE <= NextPageOffset d -> NextPageOffset d + 2 * PAGE_SIZE < 2 ^ 63 ->
  exists d1 d2,
    AllocatePage d = Ok (NextPageOffset d, d1) /\
    AllocatePage d1 = Ok (NextPageOffset d + PAGE_SIZE, d2) /\
    NextPageOffset d2 = NextPageOffset d + 2 * PAGE_SIZE /\
    NextPageOffset d2 <= file_size_ d2 /\ file_size_ d <= file_size_ d2 /\
    RootOffset d2 = RootOffset d /\ FreeListHead d2 = INVALID_PAGE_ID /\
    (forall a, NextPageOffset d <= a < NextPageOffset d + 2 * PAGE_SIZE -> mapped_ d2 a = 0) /\
    (forall a, a < NextPageOffset d -> a < file_size_ d -> a < 8 \/ 16 <= a ->
               mapped_ d2 a = mapped_ d a).
Proof.
  intros Hfs Hfree Hn Hmax.
  destruct (frontier_step d Hfs Hfree Hn) as (d1 & Hrun1 & Hs1 & Hc1 & Hn1 & Hf1 & Hr1 & Hz1 & Hk1).
  { unfold PAGE_SIZE in *. lia. }
  destruct (frontier_step d1) as (d2 & Hrun2 & Hs2 & Hc2 & Hn2 & Hf2 & Hr2 & Hz2 & Hk2).
  { lia. } { exact Hf1. } { rewrite Hn1. unfold PAGE_SIZE in *. lia. }
  { rewrite Hn1. unfold PAGE_SIZE in *. lia. }
  rewrite Hn1 in *.
  exists d1, d2. split; [exact Hrun1|]. split; [exact Hrun2|].
  split; [rewrite Hn2; lia|]. split; [rewrite Hn2; lia|]. split; [lia|].
  split; [congruence|]. split; [exact Hf2|]. unfold PAGE_SIZE in *. split.
  - intros a Ha. destruct (Z.lt_ge_cases a (NextPageOffset d + 4096)) as [Hlo|Hhi].
    + rewrite Hk2 by lia. apply Hz1. lia.
    + apply Hz2. lia.
  - intros a Ha Hf Hw. rewrite Hk2 by lia. now apply Hk1.
Qed.

Lemma frontier_allocations_are_consecutive_witness :
  exists d1 d2,
    AllocatePage new_file = Ok (NextPageOffset new_file, d1) /\
    AllocatePage d1 = Ok (NextPageOffset new_file + PAGE_SIZE, d2) /\
    NextPageOffset d2 = NextPageOffset new_file + 2 * PAGE_SIZE /\
    NextPageOffset d2 <= file_size_ d2 /\ file_size_ new_file <= file_size_ d2 /\
    RootOffset d2 = RootOffset new_file /\ FreeListHead d2 = INVALID_PAGE_ID /\
    (forall a, NextPageOffset new_file <= a < NextPageOffset new_file + 2 * PAGE_SIZE ->
               mapped_ d2 a = 0) /\
    (forall a, a < NextPageOffset new_file -> a < file_size_ new_file -> a < 8 \/ 16 <= a ->
               mapped_ d2 a = mapped_ new_file a).
Proof.
  apply (frontier_allocations_are_consecutive new_file).
  - cbn. lia.
  - reflexivity.
  - vm_compute. discriminate.
  - vm_compute. reflexivity.
Defined.

(** The state after [FreePage] of a page of the file. *)
Lemma free_step (d : DiskManager) (p : Z) :
  byte_mem (mapped_ d) -> PAGE_SIZE <= p -> p + PAGE_SIZE <= file_size_ d -> p < 2 ^ 63 ->
  exists d1,
    FreePage d p = Ok d1 /\ byte_mem (mapped_ d1) /\ file_size_ d1 = file_size_ d /\
    FreeListHead d1 = p /\ load_i64 (mapped_ d1) p = FreeListHead d /\
    NextPageOffset d1 = NextPageOffset d /\ RootOffset d1 = RootOffset d /\
    (forall o, 24 <= o -> o + 8 <= p \/ p + 8 <= o ->
               load_i64 (mapped_ d1) o = load_i64 (mapped_ d) o).
Proof.
  intros Hm Hlo Hhi Hp. unfold PAGE_SIZE in *.
  rewrite FreePage_data by (unfold PAGE_SIZE; lia).
  eexists. split; [reflexivity|].
  assert (Hhead : in_int64 (FreeListHead d)) by (apply load_in_int64, Hm).
  unfold FreeListHead at 2, NextPageOffset at 1, RootOffset at 1, SetFreeListHead,
    META_ROOT_OFFSET, META_NEXT_PAGE, META_FREE_LIST_HEAD.
  cbn [with_mapped mapped_ file_size_].
  split; [now repeat apply byte_mem_store|]. split; [reflexivity|].
  split; [apply load_store_same, in_int64_small; lia|].
  split; [rewrite load_store_other by lia; now apply load_store_same|].
  split; [now rewrite !load_store_other by lia|].
  split; [now rewrite !load_store_other by lia|].
  intros o Ho Hd. now rewrite !load_store_other by lia.
Qed.

(** The state after an allocation from the free list. *)
Lemma reclaim_step (d : DiskManager) :
  FreeListHead d <> INVALID_PAGE_ID -> 0 <= FreeListHead d ->
  FreeListHead d + PAGE_SIZE <= file_size_ d ->
  in_int64 (load_i64 (mapped_ d) (FreeListHead d)) ->
  exists d1,
    AllocatePage d = Ok (FreeListHead d, d1) /\ file_size_ d1 = file_size_ d /\
    (24 <= FreeListHead d ->
       FreeListHead d1 = load_i64 (mapped_ d) (FreeListHead d) /\
       NextPageOffset d1 = NextPageOffset d /\ RootOffset d1 = RootOffset d /\
       forall o, 24 <= o -> o + 8 <= FreeListHead d \/ FreeListHead d + PAGE_SIZE <= o ->
                 load_i64 (mapped_ d1) o = load_i64 (mapped_ d) o) /\
    (forall o, FreeListHead d <= o -> o + 8 <= FreeListHead d + PAGE_SIZE ->
               load_i64 (mapped_ d1) o = 0) /\
    (byte_mem (mapped_ d) -> byte_mem (mapped_ d1)).
Proof.
  intros Hne H0 Hhi Hnext.
  rewrite AllocatePage_reclaim by assumption.
  eexists. split; [reflexivity|]. cbv zeta.
  unfold FreeListHead at 5, NextPageOffset at 1, RootOffset at 1, SetFreeListHead,
    META_ROOT_OFFSET, META_NEXT_PAGE, META_FREE_LIST_HEAD.
  cbn [with_mapped mapped_ file_size_].
  split; [reflexivity|]. split; [|split].
  - intros H24. unfold PAGE_SIZE in *. rewrite !load_zero_other by lia.
    rewrite load_store_same by exact Hnext. rewrite !load_store_other by lia.
    repeat split. intros o Ho Hd. rewrite load_zero_other by lia.
    now rewrite load_store_other by lia.
  - intros o H1 H2. apply load_zero_in; lia.
  - intros Hm. now apply byte_mem_zero, byte_mem_store.
Qed.

(** X17.  The free list is a stack.  Two pages freed one after the other
    are allocated again in the opposite order; afterwards the head of the
    free list, the frontier, the root offset and the size of the file are
    what they were before the first [FreePage]. *)
Theorem free_list_is_lifo (d : DiskManager) (p q : Z) :
  byte_mem (mapped_ d) ->
  PAGE_SIZE <= p -> p + PAGE_SIZE <= file_size_ d -> p < 2 ^ 63 ->
  PAGE_SIZE <= q -> q + PAGE_SIZE <= file_size_ d -> q < 2 ^ 63 ->
  p + PAGE_SIZE <= q \/ q + PAGE_SIZE <= p ->
  exists d1 d2 d3 d4,
    FreePage d p = Ok d1 /\ FreePage d1 q = Ok d2 /\
    AllocatePage d2 = Ok (q, d3) /\ AllocatePage d3 = Ok (p, d4) /\
    FreeListHead d4 = FreeListHead d /\ NextPageOffset d4 = NextPageOffset d /\
    RootOffset d4 = RootOffset d /\ file_size_ d4 = file_size_ d.
Proof.
  intros Hm Hp1 Hp2 Hp3 Hq1 Hq2 Hq3 Hpq.
  assert (Hhead : in_int64 (FreeListHead d)) by (apply load_in_int64, Hm).
  destruct (free_step d p Hm Hp1 Hp2 Hp3)
    as (d1 & Hrun1 & Hm1 & Hs1 & Hh1 & Hl1 & Hn1 & Hr1 & Ho1).
  destruct (free_step d1 q Hm1 Hq1) as (d2 & Hrun2 & Hm2 & Hs2 & Hh2 & Hl2 & Hn2 & Hr2 & Ho2);
    [lia | lia |].
  unfold PAGE_SIZE in *.
  destruct (reclaim_step d2) as (d3 & Hrun3 & Hs3 & H3 & _ & Hm3).
  { rewrite Hh2. unfold INVALID_PAGE_ID. lia. } { lia. } { unfold PAGE_SIZE. lia. }
  { rewrite Hh2, Hl2, Hh1. apply in_int64_small. lia. }
  destruct H3 as (Hh3 & Hn3 & Hr3 & Ho3); [lia|].
  rewrite Hh2 in *. rewrite Hl2, Hh1 in Hh3.
  assert (Hl3 : load_i64 (mapped_ d3) p = FreeListHead d).
  { rewrite Ho3 by (unfold PAGE_SIZE; lia). rewrite Ho2 by lia. exact Hl1. }
  destruct (reclaim_step d3) as (d4 & Hrun4 & Hs4 & H4 & _).
  { rewrite Hh3. unfold INVALID_PAGE_ID. lia. } { lia. } { unfold PAGE_SIZE. lia. }
  { now rewrite Hh3, Hl3. }
  destruct H4 as (Hh4 & Hn4 & Hr4 & _); [lia|].
  rewrite Hh3 in *.
  exists d1, d2, d3, d4. repeat split; try assumption; congruence.
Qed.

Lemma sample_disk_bytes : byte_mem (mapped_ sample_disk).
Proof. apply byte_mem_EnsureCapacity, byte_mem_new_file. Qed.

Lemma sample_disk_size : file_size_ sample_disk = 1048576.
Proof. reflexivity. Qed.

Lemma free_list_is_lifo_witness :
  exists d1 d2 d3 d4,
    FreePage sample_disk 4096 = Ok d1 /\ FreePage d1 8192 = Ok d2 /\
    AllocatePage d2 = Ok (8192, d3) /\ AllocatePage d3 = Ok (4096, d4) /\
    FreeListHead d4 = FreeListHead sample_disk /\
    NextPageOffset d4 = NextPageOffset sample_disk /\
    RootOffset d4 = RootOffset sample_disk /\ file_size_ d4 = file_size_ sample_disk.
Proof.
  apply (free_list_is_lifo sample_disk 4096 8192 sample_disk_bytes);
    rewrite ?sample_disk_size; unfold PAGE_SIZE; lia.
Defined.

(** X18.  A page freed twice is handed out twice.  [FreePage] does not
    notice that the page is the head of the free list already: after a
    second [FreePage] of the same page, the next two calls of
    [AllocatePage] both return that page, and the third returns offset 0,
    the metadata page, and zeroes it, so that the root offset and the
    frontier read as 0 afterwards. *)
Theorem double_free_hands_out_the_page_twice (d : DiskManager) (p : Z) :
  byte_mem (mapped_ d) ->
  PAGE_SIZE <= p -> p + PAGE_SIZE <= file_size_ d -> p < 2 ^ 63 ->
  exists d1 d2 d3 d4 d5,
    FreePage d p = Ok d1 /\ FreePage d1 p = Ok d2 /\
    AllocatePage d2 = Ok (p, d3) /\ AllocatePage d3 = Ok (p, d4) /\
    AllocatePage d4 = Ok (0, d5) /\
    RootOffset d5 = 0 /\ NextPageOffset d5 = 0 /\ FreeListHead d5 = 0.
Proof.
  intros Hm Hp1 Hp2 Hp3.
  destruct (free_step d p Hm Hp1 Hp2 Hp3)
    as (d1 & Hrun1 & Hm1 & Hs1 & Hh1 & Hl1 & Hn1 & Hr1 & Ho1).
  destruct (free_step d1 p Hm1 Hp1) as (d2 & Hrun2 & Hm2 & Hs2 & Hh2 & Hl2 & Hn2 & Hr2 & Ho2);
    [lia | lia |].
  unfold PAGE_SIZE in *.
  destruct (reclaim_step d2) as (d3 & Hrun3 & Hs3 & H3 & Hz3 & Hm3).
  { rewrite Hh2. unfold INVALID_PAGE_ID. lia. } { lia. } { unfold PAGE_SIZE. lia. }
  { rewrite Hh2, Hl2, Hh1. apply in_int64_small. lia. }
  destruct H3 as (Hh3 & _); [lia|].
  rewrite Hh2 in *. rewrite Hl2, Hh1 in Hh3.
  assert (Hl3 : load_i64 (mapped_ d3) p = 0) by (apply Hz3; unfold PAGE_SIZE; lia).
  destruct (reclaim_step d3) as (d4 & Hrun4 & Hs4 & H4 & _ & Hm4).
  { rewrite Hh3. unfold INVALID_PAGE_ID. lia. } { lia. } { unfold PAGE_SIZE. lia. }
  { rewrite Hh3, Hl3. apply in_int64_small. lia. }
  destruct H4 as (Hh4 & _); [lia|].
  rewrite Hh3 in *. rewrite Hl3 in Hh4.
  destruct (reclaim_step d4) as (d5 & Hrun5 & Hs5 & _ & Hz5 & _).
  { rewrite Hh4. discriminate. } { lia. } { unfold PAGE_SIZE. lia. }
  { apply load_in_int64, Hm4, Hm3, Hm2. }
  rewrite Hh4 in *.
  exists d1, d2, d3, d4, d5. repeat split; try assumption.
  - apply Hz5; unfold META_ROOT_OFFSET, PAGE_SIZE; lia.
  - apply Hz5; unfold META_NEXT_PAGE, PAGE_SIZE; lia.
  - apply Hz5; unfold META_FREE_LIST_HEAD, PAGE_SIZE; lia.
Qed.

Lemma double_free_hands_out_the_page_twice_witness :
  exists d1 d2 d3 d4 d5,
    FreePage sample_disk 4096 = Ok d1 /\ FreePage d1 4096 = Ok d2 /\
    AllocatePage d2 = Ok (4096, d3) /\ AllocatePage d3 = Ok (4096, d4) /\
    AllocatePage d4 = Ok (0, d5) /\
    RootOffset d5 = 0 /\ NextPageOffset d5 = 0 /\ FreeListHead d5 = 0.
Proof.
  apply (double_free_hands_out_the_page_twice sample_disk 4096 sample_disk_bytes);
    rewrite ?sample_disk_size; unfold PAGE_SIZE; lia.
Defined.

End DiskProps.

(** * The log: what is appended is read back, and what recovery replays *)

Module WalProps.
Import Wal StoreSpec WalSpec DiskFacts WalFacts.

(** ** The checksum is a 32-bit value *)

Lemma lxor_bound (a b : Z) : 0 <= a < 2 ^ 32 -> 0 <= b < 2 ^ 32 -> 0 <= Z.lxor a b < 2 ^ 32.
Proof.
  intros Ha Hb. assert (H0 : 0 <= Z.lxor a b) by (apply Z.lxor_nonneg; lia).
  split; [exact H0|].
  destruct (Z.eq_dec (Z.lxor a b) 0) as [->|Hne]; [lia|].
  apply Z.log2_lt_pow2; [lia|].
  pose proof (Z.log2_lxor a b ltac:(lia) ltac:(lia)) as Hl.
  assert (Hla : Z.log2 a < 32).
  { destruct (Z.eq_dec a 0) as [->|]; [cbn; lia|]. apply Z.log2_lt_pow2; lia. }
  assert (Hlb : Z.log2 b < 32).
  { destruct (Z.eq_dec b 0) as [->|]; [cbn; lia|]. apply Z.log2_lt_pow2; lia. }
  lia.
Qed.

Lemma table_bound (i : nat) : 0 <= nth i kCRC32Table 0 < 2 ^ 32.
Proof.
  assert (H : forallb (fun x => (0 <=? x) && (x <? 2 ^ 32)) kCRC32Table = true)
    by (vm_compute; reflexivity).
  destruct (Nat.lt_ge_cases i (length kCRC32Table)) as [Hi|Hi].
  - rewrite forallb_forall in H. specialize (H _ (nth_In _ 0 Hi)). lia.
  - rewrite nth_overflow by lia. lia.
Qed.

Lemma CRC32_bound (buf : list Z) : 0 <= CRC32 buf < 2 ^ 32.
Proof.
  unfold CRC32. apply lxor_bound; [|lia].
  assert (H : 0 <= 0xFFFFFFFF < 2 ^ 32) by lia. revert H.
  generalize 0xFFFFFFFF. induction buf as [|b buf IH]; intros crc Hc; [exact Hc|].
  cbn [fold_left]. apply IH. apply lxor_bound; [apply table_bound|].
  rewrite Z.shiftr_div_pow2 by lia. split; [apply Z.div_pos; lia|].
  apply Z.div_lt_upper_bound; lia.
Qed.

(** ** Headers *)

Lemma slice_here (a b : list Z) (len : nat) : length a = len -> slice (a ++ b) 0 len = a.
Proof. intros <-. unfold slice. cbn [drop]. apply take_app_length. Qed.

Lemma slice_skip (a b : list Z) (off len : nat) :
  (length a <= off)%nat -> slice (a ++ b) off len = slice b (off - length a) len.
Proof. intros H. unfold slice. now rewrite drop_app_ge. Qed.

Lemma length_header_bytes (h : LogRecordHeader) : length (header_bytes h) = 32%nat.
Proof. unfold header_bytes. rewrite !length_app, !length_le_bytes. reflexivity. Qed.

Lemma le_round (n : nat) (v : Z) : 0 <= v < 256 ^ Z.of_nat n -> le_value (le_bytes n v) = v.
Proof. intros H. rewrite le_value_le_bytes. now apply Z.mod_small. Qed.

(** The 32 bytes of a header read back as the header. *)
Lemma parse_header_bytes (h : LogRecordHeader) :
  0 <= lsn h < 2 ^ 64 -> 0 <= type h < 2 ^ 32 -> in_int64 (page_id h) ->
  0 <= data_len h < 2 ^ 32 -> 0 <= checksum h < 2 ^ 32 ->
  parse_header (header_bytes h) = h.
Proof.
  intros Hl Ht Hp Hd Hc. destruct h as [l t p dl c]. cbn [lsn type page_id data_len checksum] in *.
  unfold parse_header, header_bytes. cbn [lsn type page_id data_len checksum].
  rewrite slice_here by apply length_le_bytes.
  rewrite (slice_skip (le_bytes 8 l)) by (rewrite length_le_bytes; lia).
  rewrite length_le_bytes. cbn [Nat.sub].
  rewrite slice_here by apply length_le_bytes.
  rewrite (slice_skip (le_bytes 8 l)) by (rewrite length_le_bytes; lia).
  rewrite (slice_skip (le_bytes 4 t)) by (rewrite !length_le_bytes; lia).
  rewrite (slice_skip [0; 0; 0; 0]) by (rewrite !length_le_bytes; cbn; lia).
  rewrite !length_le_bytes. cbn [Nat.sub length].
  rewrite slice_here by apply length_le_bytes.
  rewrite (slice_skip (le_bytes 8 l)) by (rewrite length_le_bytes; lia).
  rewrite (slice_skip (le_bytes 4 t)) by (rewrite !length_le_bytes; lia).
  rewrite (slice_skip [0; 0; 0; 0]) by (rewrite !length_le_bytes; cbn; lia).
  rewrite (slice_skip (le_bytes 8 p)) by (rewrite !length_le_bytes; cbn; lia).
  rewrite !length_le_bytes. cbn [Nat.sub length].
  rewrite slice_here by apply length_le_bytes.
  rewrite (slice_skip (le_bytes 8 l)) by (rewrite length_le_bytes; lia).
  rewrite (slice_skip (le_bytes 4 t)) by (rewrite !length_le_bytes; lia).
  rewrite (slice_skip [0; 0; 0; 0]) by (rewrite !length_le_bytes; cbn; lia).
  rewrite (slice_skip (le_bytes 8 p)) by (rewrite !length_le_bytes; cbn; lia).
  rewrite (slice_skip (le_bytes 4 dl)) by (rewrite !length_le_bytes; cbn; lia).
  rewrite !length_le_bytes. cbn [Nat.sub length].
  replace (slice (le_bytes 4 c) 0 4) with (le_bytes 4 c)
    by (rewrite <- (app_nil_r (le_bytes 4 c)) at 2; symmetry; apply slice_here, length_le_bytes).
  rewrite (le_round 8 l) by exact Hl. rewrite (le_round 4 t) by exact Ht.
  rewrite (le_round 4 dl) by exact Hd. rewrite (le_round 4 c) by exact Hc.
  rewrite le_value_le_bytes. change (256 ^ Z.of_nat 8) with (2 ^ 64).
  now rewrite to_signed_wrap.
Qed.

Lemma zero_checksum_bytes (h : LogRecordHeader) :
  zero_checksum (header_bytes h)
  = header_bytes (mkHeader (lsn h) (type h) (page_id h) (data_len h) 0).
Proof.
  unfold zero_checksum, header_bytes. cbn [lsn type page_id data_len checksum].
  rewrite !app_assoc. rewrite take_app_length'; [reflexivity|].
  rewrite !length_app, !length_le_bytes. reflexivity.
Qed.

Lemma record_crc_bound (h : LogRecordHeader) (payload : list Z) :
  0 <= record_crc h payload < 2 ^ 32.
Proof.
  unfold record_crc. destruct (0 <? data_len h); [apply lxor_bound|]; apply CRC32_bound.
Qed.

(** ** Reading records *)

Lemma read_records_S (fuel : nat) (bs : list Z) :
  read_records (S fuel) bs =
    if (length bs <? 32)%nat then []
    else
      let hb := take 32 bs in
      let hdr := parse_header hb in
      let rest := drop 32 bs in
      if (lsn hdr =? 0) || (kCheckpointEnd <? type hdr) then []
      else if 0 <? data_len hdr then
        if Z.of_nat (length rest) <? data_len hdr then []
        else
          let payload := take (Z.to_nat (data_len hdr)) rest in
          let expected_crc := Z.lxor (CRC32 (zero_checksum hb)) (CRC32 payload) in
          if negb (expected_crc =? checksum hdr) then []
          else mkRec hdr payload :: read_records fuel (drop (Z.to_nat (data_len hdr)) rest)
      else
        let expected_crc := CRC32 (zero_checksum hb) in
        if negb (expected_crc =? checksum hdr) then []
        else mkRec hdr [] :: read_records fuel rest.
Proof. reflexivity. Qed.

Lemma read_records_nil (fuel : nat) : read_records fuel [] = [].
Proof. destruct fuel; reflexivity. Qed.

Lemma record_ok_parse (r : RecoveryRecord) :
  record_ok r -> parse_header (header_bytes (header r)) = header r.
Proof.
  intros (Hl & Ht & Hp & Hdl & Hd32 & Hc). unfold kCheckpointEnd in Ht.
  apply parse_header_bytes; try lia; try assumption.
  rewrite Hc. apply record_crc_bound.
Qed.

(** A record as [AppendRecord] writes it is read back whole. *)
Lemma read_one (fuel : nat) (r : RecoveryRecord) (rest : list Z) :
  record_ok r ->
  read_records (S fuel) (record_bytes r ++ rest) = r :: read_records fuel rest.
Proof.
  intros Hok. pose proof (record_ok_parse r Hok) as Hparse.
  destruct Hok as (Hl & Ht & Hp & Hdl & Hd32 & Hc).
  destruct r as [h d]. cbn [header data] in *. unfold record_bytes. cbn [header data].
  rewrite read_records_S. rewrite <- app_assoc.
  assert (Hlen : (length (header_bytes h ++ d ++ rest) <? 32)%nat = false).
  { apply Nat.ltb_ge. rewrite length_app, length_header_bytes. lia. }
  rewrite Hlen. cbv zeta.
  rewrite (take_app_length' (header_bytes h)) by now rewrite length_header_bytes.
  rewrite (drop_app_length' (header_bytes h)) by now rewrite length_header_bytes.
  rewrite Hparse, zero_checksum_bytes.
  destruct (Z.eqb_spec (lsn h) 0); [lia|].
  destruct (Z.ltb_spec kCheckpointEnd (type h)); [lia|]. cbn [orb].
  unfold record_crc in Hc.
  destruct (Z.ltb_spec 0 (data_len h)) as [Hpos|Hzero].
  - destruct (Z.ltb_spec (Z.of_nat (length (d ++ rest))) (data_len h)) as [Hshort|_].
    { rewrite length_app in Hshort. lia. }
    rewrite Hdl, Nat2Z.id, take_app_length, drop_app_length.
    rewrite <- Hdl, <- Hc, Z.eqb_refl. reflexivity.
  - assert (d = []) as -> by (destruct d; [reflexivity | cbn in Hdl; lia]).
    rewrite <- Hc, Z.eqb_refl. reflexivity.
Qed.

Lemma read_concat (recs : list RecoveryRecord) :
  Forall record_ok recs ->
  forall (fuel : nat) (tail : list Z),
    (length recs <= fuel)%nat ->
    read_records fuel (concat (map record_bytes recs) ++ tail)
    = recs ++ read_records (fuel - length recs) tail.
Proof.
  induction 1 as [|r recs Hr _ IH]; intros fuel tail Hf.
  - cbn. now rewrite Nat.sub_0_r.
  - destruct fuel as [|fuel]; [cbn in Hf; lia|]. cbn [map concat length].
    rewrite <- app_assoc, (read_one _ _ _ Hr). cbn [app Nat.sub]. f_equal.
    apply IH. cbn in Hf. lia.
Qed.

Lemma length_record_bytes (r : RecoveryRecord) :
  length (record_bytes r) = (32 + length (data r))%nat.
Proof. unfold record_bytes. now rewrite length_app, length_header_bytes. Qed.

Lemma length_records (recs : list RecoveryRecord) :
  (length recs <= length (concat (map record_bytes recs)))%nat.
Proof.
  induction recs as [|r recs IH]; [cbn; lia|].
  cbn [map concat length]. rewrite length_app, length_record_bytes. lia.
Qed.

(** A clean log reads back as its records. *)
Lemma clean_read (w : WriteAheadLog) (recs : list RecoveryRecord) :
  clean w recs -> ReadAllRecords w = recs.
Proof.
  intros (Hfile & _ & Hok). unfold ReadAllRecords. rewrite Hfile.
  rewrite drop_app_length' by now rewrite length_file_header_bytes.
  rewrite <- (app_nil_r (concat _)) at 2.
  rewrite read_concat; [|exact Hok|].
  - now rewrite read_records_nil, app_nil_r.
  - rewrite length_app. pose proof (length_records recs). lia.
Qed.

(** The prefix of a record that a crash has left at the end of the file
    is not read as a record. *)
Lemma read_torn (fuel : nat) (r : RecoveryRecord) (k : nat) :
  record_ok r -> (k < length (record_bytes r))%nat ->
  read_records fuel (take k (record_bytes r)) = [].
Proof.
  intros Hok Hk. pose proof (record_ok_parse r Hok) as Hparse.
  destruct Hok as (Hl & Ht & Hp & Hdl & Hd32 & Hc).
  rewrite length_record_bytes in Hk.
  destruct fuel as [|fuel]; [reflexivity|]. rewrite read_records_S.
  destruct (Nat.ltb_spec (length (take k (record_bytes r))) 32) as [|Hlong]; [reflexivity|].
  rewrite length_take, length_record_bytes in Hlong. cbv zeta.
  assert (Hhb : take 32 (take k (record_bytes r)) = header_bytes (header r)).
  { rewrite take_take. replace (Nat.min 32 k) with 32%nat by lia.
    unfold record_bytes. apply take_app_length'. now rewrite length_header_bytes. }
  assert (Hrest : length (drop 32 (take k (record_bytes r))) = (k - 32)%nat).
  { rewrite length_drop, length_take, length_record_bytes. lia. }
  rewrite Hhb, Hparse, Hrest.
  destruct (Z.eqb_spec (lsn (header r)) 0); [lia|].
  destruct (Z.ltb_spec kCheckpointEnd (type (header r))); [lia|]. cbn [orb].
  destruct (Z.ltb_spec 0 (data_len (header r))); [|lia].
  destruct (Z.ltb_spec (Z.of_nat (k - 32)) (data_len (header r))); [reflexivity | lia].
Qed.

(** ** Appending *)

Lemma create_clean : clean create [].
Proof. split; [reflexivity|]. split; [cbn; lia | constructor]. Qed.

Lemma AppendRecord_clean (w : WriteAheadLog) (recs : list RecoveryRecord)
                         (ty page : Z) (payload : list Z) :
  clean w recs -> entry_ok (ty, page, payload) -> 1 <= next_lsn_ w < 2 ^ 64 ->
  exists r,
    clean (AppendRecord w ty page payload) (recs ++ [r]) /\
    entry_of r = (ty, page, payload) /\ lsn (header r) = next_lsn_ w.
Proof.
  intros (Hfile & Hck & Hok) (Ht & Hp & Hlen) Hl.
  eexists (mkRec (mkHeader (next_lsn_ w) ty page (Z.of_nat (length payload)) _) payload).
  split; [|split; reflexivity].
  split; [|split; [exact Hck|]].
  - unfold AppendRecord. cbn [file checkpoint_lsn_]. rewrite Hfile.
    rewrite map_app, concat_app. cbn [map concat]. rewrite app_nil_r.
    unfold record_bytes. cbn [header data]. rewrite <- !app_assoc. reflexivity.
  - apply Forall_app. split; [exact Hok|]. constructor; [|constructor].
    unfold record_ok. cbn [header data lsn type page_id data_len checksum].
    repeat split; try lia; try apply Hp.
Qed.

Lemma append_all_clean (es : list entry) :
  forall (w : WriteAheadLog) (recs : list RecoveryRecord),
    clean w recs -> Forall entry_ok es ->
    1 <= next_lsn_ w -> next_lsn_ w + Z.of_nat (length es) < 2 ^ 64 ->
    exists recs',
      clean (append_all w es) (recs ++ recs') /\
      map entry_of recs' = es /\
      map (fun r => lsn (header r)) recs'
        = map (fun i => Z.of_nat i + next_lsn_ w) (seq 0 (length es)) /\
      next_lsn_ (append_all w es) = next_lsn_ w + Z.of_nat (length es) /\
      checkpoint_lsn_ (append_all w es) = checkpoint_lsn_ w.
Proof.
  induction es as [|[[ty page] payload] es IH]; intros w recs Hc Hes Hl Hn.
  - exists []. rewrite app_nil_r. split; [exact Hc|]. cbn. repeat split. lia.
  - apply Forall_cons in Hes. destruct Hes as [He Hes]. cbn [length] in Hn.
    destruct (AppendRecord_clean w recs ty page payload Hc He ltac:(lia))
      as (r & Hc1 & Hr & Hlsn).
    set (w1 := AppendRecord w ty page payload) in *.
    assert (Hn1 : next_lsn_ w1 = next_lsn_ w + 1).
    { unfold w1, AppendRecord. cbn [next_lsn_]. apply Z.mod_small. lia. }
    destruct (IH w1 (recs ++ [r]) Hc1 Hes ltac:(lia) ltac:(lia))
      as (recs' & Hc' & Hent & Hlsns & Hnext & Hck).
    exists (r :: recs'). change (append_all w ((ty, page, payload) :: es)) with (append_all w1 es).
    split; [now rewrite <- app_assoc in Hc'|]. split; [cbn [map]; now rewrite Hr, Hent|].
    split; [|split; [rewrite Hnext, Hn1; cbn [length]; lia | exact Hck]].
    cbn [map length seq]. rewrite Hlsn, Hlsns. f_equal.
    rewrite <- seq_shift, map_map. apply map_ext. intros i. lia.
Qed.

(** X19.  What is appended is read back.  After any sequence of
    [AppendRecord] calls on a new log, [ReadAllRecords] returns one record
    per call, in the order of the calls, each with the type, the page id
    and the payload that was appended, and with the LSNs 1, 2, 3 ... *)
Theorem appended_records_read_back (es : list entry) :
  Forall entry_ok es -> Z.of_nat (length es) < 2 ^ 64 - 1 ->
  map entry_of (ReadAllRecords (append_all create es)) = es /\
  map (fun r => lsn (header r)) (ReadAllRecords (append_all create es))
    = map (fun i => Z.of_nat i + 1) (seq 0 (length es)).
Proof.
  intros Hes Hn.
  destruct (append_all_clean es create [] create_clean Hes) as (recs & Hc & Hent & Hl & _).
  { cbn. lia. } { cbn [create next_lsn_]. lia. }
  rewrite (clean_read _ _ Hc). split; [exact Hent | exact Hl].
Qed.

Lemma two_entries_ok : Forall entry_ok [(kPageWrite, 4096, [1; 2; 3]); (kCheckpointBegin, -1, [])].
Proof.
  repeat constructor; cbn; unfold kCheckpointEnd, kPageWrite, kCheckpointBegin; lia.
Qed.

Lemma appended_records_read_back_witness :
  map entry_of (ReadAllRecords
                  (append_all create [(kPageWrite, 4096, [1; 2; 3]); (kCheckpointBegin, -1, [])]))
    = [(kPageWrite, 4096, [1; 2; 3]); (kCheckpointBegin, -1, [])] /\
  map (fun r => lsn (header r))
      (ReadAllRecords
         (append_all create [(kPageWrite, 4096, [1; 2; 3]); (kCheckpointBegin, -1, [])]))
    = map (fun i => Z.of_nat i + 1) (seq 0 2).
Proof.
  apply (appended_records_read_back
           [(kPageWrite, 4096, [1; 2; 3]); (kCheckpointBegin, -1, [])] two_entries_ok).
  cbn. lia.
Defined.

(** X20.  A torn last record is ignored.  If a crash cuts the file anywhere
    inside the bytes of the record that was appended last, [ReadAllRecords]
    returns the records that were appended before it, all of them and
    nothing else. *)
Theorem torn_final_record_is_ignored (es : list entry) (ty page : Z) (payload : list Z)
                                     (n : nat) :
  Forall entry_ok es -> entry_ok (ty, page, payload) ->
  Z.of_nat (length es) < 2 ^ 64 - 2 ->
  let w := append_all create es in
  let w' := AppendRecord w ty page payload in
  (length (file w) <= n < length (file w'))%nat ->
  ReadAllRecords (torn w' n) = ReadAllRecords w /\
  map entry_of (ReadAllRecords (torn w' n)) = es.
Proof.
  intros Hes He Hn w w' Hcut.
  destruct (append_all_clean es create [] create_clean Hes) as (recs & Hc & Hent & _ & Hnext & _).
  { cbn. lia. } { cbn [create next_lsn_]. lia. }
  cbn [app] in Hc. fold w in Hc, Hnext. cbn [create next_lsn_] in Hnext.
  destruct (AppendRecord_clean w recs ty page payload Hc He ltac:(lia)) as (r & Hc' & _).
  fold w' in Hc'. rewrite (clean_read _ _ Hc).
  assert (E : ReadAllRecords (torn w' n) = recs); [|split; [exact E | now rewrite E]].
  destruct Hc as (Hfile & _ & Hok). destruct Hc' as (Hfile' & _ & Hok').
  apply Forall_app in Hok'. destruct Hok' as [_ Hr]. apply Forall_cons in Hr.
  destruct Hr as [Hr _].
  rewrite map_app, concat_app in Hfile'. cbn [map concat] in Hfile'.
  rewrite app_nil_r in Hfile'.
  assert (Hck : checkpoint_lsn_ w' = checkpoint_lsn_ w) by reflexivity.
  rewrite Hck, app_assoc, <- Hfile in Hfile'.
  rewrite Hfile', length_app in Hcut.
  unfold ReadAllRecords, torn. cbn [file]. rewrite Hfile'.
  rewrite take_app_ge by lia.
  assert (Htail : forall fuel, read_records fuel (take (n - length (file w)) (record_bytes r)) = []).
  { intros fuel. apply read_torn; [exact Hr | lia]. }
  revert Htail. generalize (take (n - length (file w)) (record_bytes r)). intros tail Htail.
  rewrite Hfile at 2.
  rewrite <- app_assoc. rewrite drop_app_length' by now rewrite length_file_header_bytes.
  rewrite read_concat; [|exact Hok|].
  - rewrite Htail. apply app_nil_r.
  - rewrite length_app, Hfile, length_app. pose proof (length_records recs). lia.
Qed.

Lemma torn_final_record_is_ignored_witness :
  let w := append_all create [(kPageWrite, 4096, [1; 2; 3]); (kCheckpointBegin, -1, [])] in
  let w' := AppendRecord w kPageWrite 8192 [4; 5; 6] in
  ReadAllRecords (torn w' 100) = ReadAllRecords w /\
  map entry_of (ReadAllRecords (torn w' 100))
    = [(kPageWrite, 4096, [1; 2; 3]); (kCheckpointBegin, -1, [])].
Proof.
  apply (torn_final_record_is_ignored
           [(kPageWrite, 4096, [1; 2; 3]); (kCheckpointBegin, -1, [])] kPageWrite 8192 [4; 5; 6] 100
           two_entries_ok).
  - cbn. unfold kCheckpointEnd, kPageWrite, in_int64. lia.
  - cbn. lia.
  - vm_compute. lia.
Defined.

(** ** Opening an existing log *)

Lemma open_clean (w : WriteAheadLog) (recs : list RecoveryRecord) :
  clean w recs ->
  open (file w)
  = Ok (mkWal (file w)
              (match last recs with
               | Some r => (lsn (header r) + 1) mod 2 ^ 64
               | None => 1
               end)
              (checkpoint_lsn_ w) 0 0).
Proof.
  intros Hc. pose proof Hc as (Hfile & Hck & Hok).
  assert (Hlen : (16 <= length (file w))%nat).
  { rewrite Hfile, length_app, length_file_header_bytes. lia. }
  assert (Hmagic : le_value (slice (file w) 0 4) = WAL_MAGIC).
  { rewrite Hfile. unfold file_header_bytes. rewrite <- !app_assoc.
    rewrite slice_here by apply length_le_bytes. apply le_round. cbn. unfold WAL_MAGIC. lia. }
  assert (Hcp : le_value (slice (file w) 8 8) = checkpoint_lsn_ w).
  { rewrite Hfile. unfold file_header_bytes. rewrite <- !app_assoc.
    rewrite (slice_skip (le_bytes 4 WAL_MAGIC)) by (rewrite length_le_bytes; lia).
    rewrite (slice_skip (le_bytes 4 1)) by (rewrite !length_le_bytes; lia).
    rewrite !length_le_bytes. cbn [Nat.sub].
    rewrite slice_here by apply length_le_bytes. apply le_round. exact Hck. }
  unfold open.
  destruct (Nat.eqb_spec (length (file w)) 0); [lia|].
  destruct (Nat.ltb_spec (length (file w)) 16); [lia|].
  rewrite Hmagic, Z.eqb_refl, Hcp. cbn [orb negb].
  assert (Hread : ReadAllRecords (mkWal (file w) 1 (checkpoint_lsn_ w) 0 0) = recs).
  { apply clean_read. split; [exact Hfile|]. split; [exact Hck | exact Hok]. }
  rewrite Hread. destruct (last recs); reflexivity.
Qed.

Lemma last_lsn (recs : list RecoveryRecord) (n : nat) :
  map (fun r => lsn (header r)) recs = map (fun i => Z.of_nat i + 1) (seq 0 n) ->
  match last recs with
  | Some r => lsn (header r) = Z.of_nat n
  | None => n = O
  end.
Proof.
  intros H. destruct n as [|n].
  - destruct recs; [reflexivity | discriminate].
  - assert (E : last (map (fun r => lsn (header r)) recs) = Some (Z.of_nat (S n))).
    { rewrite H, seq_S, map_app. cbn [map]. rewrite last_snoc. f_equal. lia. }
    change (map ?f recs) with (f <$> recs) in E. rewrite fmap_last in E.
    destruct (last recs) as [r|]; [|discriminate]. now injection E.
Qed.

(** X21.  A log that is opened again continues where it stopped.  The
    constructor on the file that a sequence of [AppendRecord] calls has
    left accepts the file, finds the same records in it, and hands out as
    the next LSN the one that follows the last record. *)
Theorem reopened_log_continues (es : list entry) :
  Forall entry_ok es -> Z.of_nat (length es) < 2 ^ 64 - 2 ->
  exists w',
    open (file (append_all create es)) = Ok w' /\
    file w' = file (append_all create es) /\
    next_lsn_ w' = next_lsn_ (append_all create es) /\
    next_lsn_ w' = Z.of_nat (length es) + 1 /\
    checkpoint_lsn_ w' = checkpoint_lsn_ (append_all create es) /\
    ReadAllRecords w' = ReadAllRecords (append_all create es).
Proof.
  intros Hes Hn.
  destruct (append_all_clean es create [] create_clean Hes)
    as (recs & Hc & Hent & Hl & Hnext & Hck).
  { cbn. lia. } { cbn [create next_lsn_]. lia. }
  cbn [app] in *. change (next_lsn_ create) with 1 in *.
  set (w := append_all create es) in *.
  rewrite (open_clean w recs Hc). eexists. split; [reflexivity|].
  cbn [file next_lsn_ checkpoint_lsn_].
  assert (Hlast : match last recs with
                  | Some r => (lsn (header r) + 1) mod 2 ^ 64
                  | None => 1
                  end = Z.of_nat (length es) + 1).
  { pose proof (last_lsn recs (length es) Hl) as H.
    destruct (last recs) as [r|]; [rewrite H; apply Z.mod_small; lia | rewrite H; reflexivity]. }
  rewrite Hlast, Hnext. repeat split; lia.
Qed.

Lemma reopened_log_continues_witness :
  exists w',
    open (file (append_all create [(kPageWrite, 4096, [1; 2; 3]); (kCheckpointBegin, -1, [])]))
      = Ok w' /\
    file w' = file (append_all create [(kPageWrite, 4096, [1; 2; 3]); (kCheckpointBegin, -1, [])]) /\
    next_lsn_ w'
      = next_lsn_ (append_all create [(kPageWrite, 4096, [1; 2; 3]); (kCheckpointBegin, -1, [])]) /\
    next_lsn_ w' = Z.of_nat 2 + 1 /\
    checkpoint_lsn_ w'
      = checkpoint_lsn_ (append_all create
                           [(kPageWrite, 4096, [1; 2; 3]); (kCheckpointBegin, -1, [])]) /\
    ReadAllRecords w'
      = ReadAllRecords (append_all create
                          [(kPageWrite, 4096, [1; 2; 3]); (kCheckpointBegin, -1, [])]).
Proof.
  apply (reopened_log_continues
           [(kPageWrite, 4096, [1; 2; 3]); (kCheckpointBegin, -1, [])] two_entries_ok).
  cbn. lia.
Defined.

(** ** Checkpoints *)

Lemma length_mem_read_page (img : mem) : Z.of_nat (length (mem_read img 0 (Z.to_nat PAGE_SIZE))) = 4096.
Proof. now rewrite length_mem_read. Qed.

(** X22.  After a checkpoint and a restart, the next page write is lost to
    recovery.  [EndCheckpoint] leaves a log without records whose header
    holds the LSN of the checkpoint; the constructor on that file starts
    the LSNs again at 1.  The next [LogPageWrite] therefore gets LSN 1,
    which is not above the checkpoint LSN, and [Recover] on the log with
    that record applies no page and leaves the file as it is. *)
Theorem lsn_restarts_after_checkpoint (es : list entry) (page : Z) (img : mem) :
  Forall entry_ok es -> Z.of_nat (length es) < 2 ^ 64 - 3 -> in_int64 page ->
  exists w2,
    open (file (snd (EndCheckpoint (append_all create es)))) = Ok w2 /\
    fst (EndCheckpoint (append_all create es)) = Z.of_nat (length es) + 1 /\
    checkpoint_lsn_ w2 = Z.of_nat (length es) + 1 /\
    next_lsn_ w2 = 1 /\
    fst (LogPageWrite w2 page img) = 1 /\
    map entry_of (ReadAllRecords (snd (LogPageWrite w2 page img)))
      = [(kPageWrite, page, mem_read img 0 (Z.to_nat PAGE_SIZE))] /\
    forall fuel d,
      Recover fuel (snd (LogPageWrite w2 page img)) d
      = Ok (0, snd (LogPageWrite w2 page img), d).
Proof.
  intros Hes Hn Hp.
  destruct (append_all_clean es create [] create_clean Hes)
    as (recs & Hc & Hent & Hl & Hnext & Hck).
  { cbn. lia. } { cbn [create next_lsn_]. lia. }
  cbn [app] in *. change (next_lsn_ create) with 1 in *.
  set (w := append_all create es) in *.
  set (l := Z.of_nat (length es) + 1).
  assert (Hl1 : next_lsn_ w = l) by (unfold l; lia).
  set (w1 := snd (EndCheckpoint w)).
  assert (Hf1 : file w1 = file_header_bytes l).
  { unfold w1, EndCheckpoint, Truncate. cbn [snd file checkpoint_lsn_]. now rewrite Hl1. }
  assert (Hc1 : checkpoint_lsn_ w1 = l).
  { unfold w1, EndCheckpoint, Truncate. cbn [snd checkpoint_lsn_]. exact Hl1. }
  assert (Hclean1 : clean w1 []).
  { split; [rewrite Hf1, Hc1; cbn [map concat]; now rewrite app_nil_r|].
    split; [rewrite Hc1; unfold l; lia | constructor]. }
  rewrite (open_clean w1 [] Hclean1). cbn [last]. rewrite Hc1.
  set (w2 := mkWal (file w1) 1 l 0 0).
  exists w2. split; [reflexivity|]. split; [exact Hl1|].
  split; [reflexivity|]. split; [reflexivity|]. split; [reflexivity|].
  assert (Hclean2 : clean w2 []).
  { destruct Hclean1 as (H1 & H2 & H3). rewrite Hc1 in H1, H2.
    split; [exact H1|]. split; [exact H2 | exact H3]. }
  destruct (AppendRecord_clean w2 [] kPageWrite page (mem_read img 0 (Z.to_nat PAGE_SIZE)) Hclean2)
    as (r & Hc3 & Hr & Hlsn).
  { split; [unfold kPageWrite, kCheckpointEnd; lia|]. split; [exact Hp|].
    rewrite length_mem_read_page. lia. }
  { cbn. lia. }
  cbn [app] in Hc3. cbn [LogPageWrite snd].
  set (w3 := AppendRecord w2 kPageWrite page _) in *.
  pose proof (clean_read w3 [r] Hc3) as Hread.
  split; [rewrite Hread; cbn [map]; now rewrite Hr|].
  intros fuel d. unfold Recover. rewrite Hread.
  assert (Hty : type (header r) = kPageWrite) by (now injection Hr).
  assert (Hafter : redo_after w3 [r] = l).
  { unfold redo_after. cbn [rev app find]. rewrite Hty. reflexivity. }
  rewrite Hafter. cbn [redo]. rewrite Hlsn. cbn [w2 next_lsn_].
  replace (1 <=? l) with true by (unfold l; lia).
  cbn [mbind result_bind bindR last]. rewrite Hlsn. reflexivity.
Qed.

Lemma lsn_restarts_after_checkpoint_witness :
  exists w2,
    open (file (snd (EndCheckpoint (append_all create [(kPageWrite, 4096, [1; 2; 3])])))) = Ok w2 /\
    fst (EndCheckpoint (append_all create [(kPageWrite, 4096, [1; 2; 3])])) = Z.of_nat 1 + 1 /\
    checkpoint_lsn_ w2 = Z.of_nat 1 + 1 /\
    next_lsn_ w2 = 1 /\
    fst (LogPageWrite w2 4096 (fun _ => 66)) = 1 /\
    map entry_of (ReadAllRecords (snd (LogPageWrite w2 4096 (fun _ => 66))))
      = [(kPageWrite, 4096, mem_read (fun _ => 66) 0 (Z.to_nat PAGE_SIZE))] /\
    forall fuel d,
      Recover fuel (snd (LogPageWrite w2 4096 (fun _ => 66))) d
      = Ok (0, snd (LogPageWrite w2 4096 (fun _ => 66)), d).
Proof.
  apply (lsn_restarts_after_checkpoint [(kPageWrite, 4096, [1; 2; 3])] 4096 (fun _ => 66)).
  - repeat constructor; cbn; unfold kCheckpointEnd, kPageWrite; lia.
  - cbn. lia.
  - unfold in_int64. lia.
Defined.

(** ** Recovery *)

Lemma log_pages_append (ws : list (Z * mem)) :
  forall w : WriteAheadLog,
    log_pages w ws
    = append_all w (map (fun pw => (kPageWrite, fst pw, mem_read (snd pw) 0 (Z.to_nat PAGE_SIZE))) ws).
Proof.
  induction ws as [|pw ws IH]; intros w; [reflexivity|].
  unfold log_pages, append_all in *. cbn [map fold_left]. apply IH.
Qed.

Lemma find_nothing {A : Type} (f : A -> bool) (l : list A) :
  (forall x, In x l -> f x = false) -> find f l = None.
Proof.
  induction l as [|a l IH]; intros H; [reflexivity|]. cbn [find].
  rewrite (H a (or_introl eq_refl)). apply IH. intros x Hx. apply H. now right.
Qed.

(** The redo loop over records that are all page images above the
    threshold, for pages inside the file. *)
Lemma redo_pages (fuel : nat) (after : Z) (recs : list RecoveryRecord) :
  forall (ws : list (Z * mem)) (d : Disk.DiskManager) (c : Z),
    map entry_of recs
      = map (fun pw => (kPageWrite, fst pw, mem_read (snd pw) 0 (Z.to_nat PAGE_SIZE))) ws ->
    Forall (fun r => after < lsn (header r)) recs ->
    Forall (fun pw => 0 <= fst pw /\ fst pw + PAGE_SIZE <= Disk.file_size_ d) ws ->
    redo fuel after recs d c
    = Ok (Disk.with_mapped d (apply_pages (Disk.mapped_ d) ws), c + Z.of_nat (length ws)).
Proof.
  induction recs as [|r recs IH]; intros [|pw ws] d c Hmap Hlsn Hin; try discriminate.
  - cbn [redo apply_pages fold_left length]. destruct d. cbn. f_equal. f_equal. lia.
  - cbn [map] in Hmap. unfold entry_of at 1 in Hmap. injection Hmap as Hty Hpage Hdata Hmap.
    apply Forall_cons in Hlsn. destruct Hlsn as [Hl Hlsn].
    apply Forall_cons in Hin. destruct Hin as [[Hp0 Hp1] Hin].
    cbn [redo]. rewrite Hty, Hpage.
    replace (lsn (header r) <=? after) with false by lia.
    change (kPageWrite =? kPageWrite) with true. cbn [negb].
    replace (fst pw =? INVALID_PAGE_ID) with false by (unfold INVALID_PAGE_ID; lia).
    rewrite Hdata, length_mem_read, Z2Nat.id by (unfold PAGE_SIZE; lia).
    rewrite Z.eqb_refl. cbn [negb]. unfold Disk.FileSize.
    replace (Disk.file_size_ d <? fst pw + PAGE_SIZE) with false by lia.
    cbn [mbind result_bind bindR]. unfold Disk.PageData.
    replace (fst pw <? 0) with false by lia.
    replace (Disk.file_size_ d <? fst pw + PAGE_SIZE) with false by lia.
    cbn [orb mbind result_bind bindR].
    rewrite (IH ws); [|exact Hmap | exact Hlsn | exact Hin].
    cbn [length]. replace (c + 1 + Z.of_nat (length ws)) with (c + Z.of_nat (S (length ws))) by lia.
    reflexivity.
Qed.

Lemma read_other_page (m : mem) (q p : Z) (bs : list Z) :
  length bs = Z.to_nat PAGE_SIZE -> q + PAGE_SIZE <= p \/ p + PAGE_SIZE <= q ->
  mem_read (mem_write m q bs) p (Z.to_nat PAGE_SIZE) = mem_read m p (Z.to_nat PAGE_SIZE).
Proof.
  intros Hlen Hd. apply mem_read_ext. intros a Ha. unfold mem_write. rewrite Hlen.
  rewrite Z2Nat.id in * by (unfold PAGE_SIZE; lia).
  destruct (Z.leb_spec q a); destruct (Z.ltb_spec a (q + PAGE_SIZE)); cbn [andb];
    try reflexivity; lia.
Qed.

Lemma apply_pages_keeps (rest : list (Z * mem)) (p : Z) :
  forall m : mem,
    Forall (fun pw => fst pw + PAGE_SIZE <= p \/ p + PAGE_SIZE <= fst pw) rest ->
    mem_read (apply_pages m rest) p (Z.to_nat PAGE_SIZE) = mem_read m p (Z.to_nat PAGE_SIZE).
Proof.
  induction rest as [|pw rest IH]; intros m H; [reflexivity|].
  apply Forall_cons in H. destruct H as [Hd H].
  unfold apply_pages in *. cbn [fold_left]. rewrite (IH _ H).
  apply read_other_page; [apply length_mem_read | exact Hd].
Qed.

(** X23.  Recovery replays the logged page images.  After any number of
    [LogPageWrite] calls on a new log, for pages inside the file, [Recover]
    applies every image in the order of the log and returns their number;
    afterwards each page holds the image that was logged last for it, and
    the log has been cut to its header. *)
Theorem recover_replays_page_images (ws : list (Z * mem)) (d : Disk.DiskManager) :
  ws <> [] ->
  Forall (fun pw => 0 <= fst pw /\ fst pw + PAGE_SIZE <= Disk.file_size_ d) ws ->
  Disk.file_size_ d < 2 ^ 63 -> Z.of_nat (length ws) < 2 ^ 64 - 2 ->
  exists w' d',
    (forall fuel, Recover fuel (log_pages create ws) d = Ok (Z.of_nat (length ws), w', d')) /\
    ReadAllRecords w' = [] /\
    Disk.file_size_ d' = Disk.file_size_ d /\
    Disk.mapped_ d' = apply_pages (Disk.mapped_ d) ws /\
    forall front p img rest,
      ws = front ++ (p, img) :: rest ->
      Forall (fun pw => fst pw + PAGE_SIZE <= p \/ p + PAGE_SIZE <= fst pw) rest ->
      mem_read (Disk.mapped_ d') p (Z.to_nat PAGE_SIZE) = mem_read img 0 (Z.to_nat PAGE_SIZE).
Proof.
  intros Hne Hin Hfs Hn.
  remember (map (fun pw => (kPageWrite, fst pw, mem_read (snd pw) 0 (Z.to_nat PAGE_SIZE))) ws)
    as es eqn:Ees.
  assert (Hes : Forall entry_ok es).
  { rewrite Ees. apply Forall_map. eapply Forall_impl; [exact Hin|].
    intros pw [H0 H1]. cbn [entry_ok]. split; [unfold kPageWrite, kCheckpointEnd; lia|].
    split; [unfold in_int64, PAGE_SIZE in *; lia|]. rewrite length_mem_read_page. lia. }
  assert (Hlen : @length entry es = length ws) by (rewrite Ees; apply length_map).
  destruct (append_all_clean es create [] create_clean Hes)
    as (recs & Hc & Hent & Hl & Hnext & Hck).
  { cbn. lia. } { rewrite Hlen. cbn [create next_lsn_]. lia. }
  cbn [app] in Hc. change (checkpoint_lsn_ create) with 0 in Hck.
  rewrite Ees, <- log_pages_append in Hc, Hck. set (w := log_pages create ws) in *.
  pose proof (clean_read w recs Hc) as Hread.
  assert (Hok : Forall record_ok recs) by apply Hc.
  assert (Hafter : redo_after w recs = 0).
  { unfold redo_after. rewrite find_nothing; [exact Hck|].
    intros r Hr. apply in_rev in Hr.
    assert (Hty : In (entry_of r) es) by (rewrite <- Hent; now apply in_map).
    rewrite Ees in Hty. apply in_map_iff in Hty. destruct Hty as (pw & E & _).
    unfold entry_of in E. injection E as E _ _. now rewrite <- E. }
  assert (Hredo : forall fuel,
             redo fuel 0 recs d 0
             = Ok (Disk.with_mapped d (apply_pages (Disk.mapped_ d) ws),
                   0 + Z.of_nat (length ws))).
  { intros fuel. apply redo_pages; [now rewrite Hent, Ees | | exact Hin].
    eapply Forall_impl; [exact Hok|]. intros r Hr. destruct Hr as (Hlsn & _). lia. }
  assert (Hpos : 0 < Z.of_nat (length ws)) by (destruct ws; [contradiction | cbn; lia]).
  eexists. exists (Disk.with_mapped d (apply_pages (Disk.mapped_ d) ws)).
  split; [|split; [|split; [reflexivity|split; [reflexivity|]]]].
  - intros fuel. unfold Recover. rewrite Hread, Hafter, Hredo.
    cbn [mbind result_bind bindR]. rewrite Z.add_0_l.
    replace (0 <? Z.of_nat (length ws)) with true by lia. unfold Disk.Sync. reflexivity.
  - apply ReadAllRecords_Truncate.
  - intros front p img rest -> Hd. cbn [Disk.with_mapped Disk.mapped_].
    unfold apply_pages. rewrite fold_left_app. cbn [fold_left fst snd].
    fold (apply_pages (mem_write (fold_left
            (fun m pw => mem_write m (fst pw) (mem_read (snd pw) 0 (Z.to_nat PAGE_SIZE)))
            front (Disk.mapped_ d)) p (mem_read img 0 (Z.to_nat PAGE_SIZE))) rest).
    rewrite (apply_pages_keeps rest p _ Hd).
    rewrite <- (length_mem_read img 0 (Z.to_nat PAGE_SIZE)) at 2.
    apply mem_read_write_same.
Qed.

Lemma recover_replays_page_images_witness :
  exists w' d',
    (forall fuel, Recover fuel (log_pages create [(4096, fun a => a mod 251); (4096, fun _ => 66)])
                          sample_disk
                  = Ok (Z.of_nat 2, w', d')) /\
    ReadAllRecords w' = [] /\
    Disk.file_size_ d' = Disk.file_size_ sample_disk /\
    Disk.mapped_ d'
      = apply_pages (Disk.mapped_ sample_disk) [(4096, fun a => a mod 251); (4096, fun _ => 66)] /\
    forall front p img rest,
      [(4096, fun a => a mod 251); (4096, fun _ => 66)] = front ++ (p, img) :: rest ->
      Forall (fun pw => fst pw + PAGE_SIZE <= p \/ p + PAGE_SIZE <= fst pw) rest ->
      mem_read (Disk.mapped_ d') p (Z.to_nat PAGE_SIZE) = mem_read img 0 (Z.to_nat PAGE_SIZE).
Proof.
  apply (recover_replays_page_images [(4096, fun a => a mod 251); (4096, fun _ => 66)] sample_disk).
  - discriminate.
  - repeat constructor; cbn [fst]; change (Disk.file_size_ sample_disk) with 1048576;
      unfold PAGE_SIZE; lia.
  - change (Disk.file_size_ sample_disk) with 1048576. lia.
  - cbn. lia.
Defined.

End WalProps.

(** * The buffer pool: bookkeeping, eviction and write-back *)

Module PoolProps.
Import Disk Pool StoreSpec PoolSpec DiskFacts PoolFacts.

(** ** Lists of frames *)

Lemma lru_erase_sub (i x : nat) (l : list nat) : x ∈ lru_erase i l -> x ∈ l.
Proof.
  induction l as [|a l IH]; cbn [lru_erase]; [auto|].
  destruct (Nat.eqb_spec a i).
  - intros H. now apply list_elem_of_further.
  - intros H. apply elem_of_cons in H. destruct H as [->|H];
      [apply list_elem_of_here | apply list_elem_of_further, IH, H].
Qed.

Lemma lru_erase_NoDup (i : nat) (l : list nat) : NoDup l -> NoDup (lru_erase i l).
Proof.
  induction 1 as [|a l Ha Hl IH]; cbn [lru_erase]; [constructor|].
  destruct (Nat.eqb_spec a i); [exact Hl|].
  constructor; [|exact IH]. intros H. apply Ha. eapply lru_erase_sub, H.
Qed.

Lemma lru_erase_gone (i : nat) (l : list nat) : NoDup l -> i ∉ lru_erase i l.
Proof.
  induction 1 as [|a l Ha Hl IH]; cbn [lru_erase]; [apply not_elem_of_nil|].
  destruct (Nat.eqb_spec a i) as [->|Hne]; [exact Ha|].
  intros H. apply elem_of_cons in H. destruct H as [E|H]; [congruence | now apply IH].
Qed.

Lemma lru_erase_other (i x : nat) (l : list nat) : x ∈ l -> x <> i -> x ∈ lru_erase i l.
Proof.
  induction l as [|a l IH]; cbn [lru_erase]; [auto|]. intros H Hne.
  apply elem_of_cons in H. destruct (Nat.eqb_spec a i) as [->|Hai].
  - destruct H as [->|H]; [contradiction | exact H].
  - destruct H as [->|H]; [apply list_elem_of_here | apply list_elem_of_further, IH; auto].
Qed.

Lemma lru_erase_absent (i : nat) (l : list nat) : i ∉ l -> lru_erase i l = l.
Proof.
  induction l as [|a l IH]; cbn [lru_erase]; [auto|]. intros H.
  apply not_elem_of_cons in H. destruct H as [Hne H].
  destruct (Nat.eqb_spec a i); [congruence|]. now rewrite IH.
Qed.

Lemma last_split {A : Type} (l : list A) (x : A) : last l = Some x -> l = removelast l ++ [x].
Proof.
  induction l as [|a l IH]; [discriminate|]. destruct l as [|b l].
  - cbn. now intros [= ->].
  - intros H. change (last (a :: b :: l)) with (last (b :: l)) in H.
    change (removelast (a :: b :: l)) with (a :: removelast (b :: l)).
    cbn [app]. f_equal. now apply IH.
Qed.

Lemma frame_at_Some (p : BufferPool) (idx : nat) (f : PageFrame) :
  frame_at p idx = Ok f <-> frames_ p !! idx = Some f.
Proof.
  unfold frame_at. destruct (frames_ p !! idx); split; intros H; try discriminate; congruence.
Qed.

Lemma lookup_lt {A : Type} (l : list A) (i : nat) (x : A) : l !! i = Some x -> (i < length l)%nat.
Proof. intros H. apply lookup_lt_is_Some. now exists x. Qed.

(** ** The invariant *)

Lemma create_inv (n : nat) : pool_inv (create n).
Proof.
  constructor; cbn [create page_table_ lru_list_ free_list_ frames_].
  - intros page idx H. rewrite lookup_empty in H. discriminate.
  - intros idx H. apply elem_of_nil in H. contradiction.
  - constructor.
  - intros idx H. split.
    + rewrite length_replicate. apply list_elem_of_In, in_rev, in_seq in H. lia.
    + intros page. rewrite lookup_empty. discriminate.
  - apply NoDup_ListNoDup, List.NoDup_rev, List.seq_NoDup.
Qed.

(** The invariant looks at the frames, the page table and the two lists
    only. *)
Lemma pool_inv_same (p q : BufferPool) :
  frames_ q = frames_ p -> page_table_ q = page_table_ p ->
  lru_list_ q = lru_list_ p -> free_list_ q = free_list_ p ->
  pool_inv p -> pool_inv q.
Proof.
  intros E1 E2 E3 E4 [H1 H2 H3 H4 H5].
  constructor; rewrite ?E1, ?E2, ?E3, ?E4; assumption.
Qed.

(** A frame that nothing refers to may hold anything. *)
Lemma set_unused_inv (p : BufferPool) (idx : nat) (f : PageFrame) :
  pool_inv p -> unused p idx -> pool_inv (set_frame p idx f) /\ unused (set_frame p idx f) idx.
Proof.
  intros [H1 H2 H3 H4 H5] (Hlt & Hl & Hf & Ht). split.
  - constructor; cbn [set_frame set_frames frames_ page_table_ lru_list_ free_list_].
    + intros page i Hi. destruct (H1 page i Hi) as (g & Hg & Hpg).
      exists g. split; [|exact Hpg]. rewrite list_lookup_insert_ne; [exact Hg|].
      intros ->. exact (Ht page Hi).
    + intros i Hi. destruct (H2 i Hi) as (g & Hg & Hpg).
      exists g. split; [|exact Hpg]. rewrite list_lookup_insert_ne; [exact Hg|].
      intros ->. exact (Hl Hi).
    + exact H3.
    + intros i Hi. rewrite length_insert. exact (H4 i Hi).
    + exact H5.
  - unfold unused. cbn [set_frame set_frames frames_ page_table_ lru_list_ free_list_].
    rewrite length_insert. auto.
Qed.

(** A page that goes into a frame that nothing referred to. *)
Lemma install_inv (p : BufferPool) (idx : nat) (f : PageFrame) (page : Z) :
  pool_inv p -> unused p idx -> page_table_ p !! page = None ->
  page_id f = page -> 0 <= pin_count f ->
  pool_inv (set_page_table (set_frame p idx f) (<[page := idx]> (page_table_ (set_frame p idx f)))).
Proof.
  intros Hinv Hun Hnone Hpage Hpin.
  destruct (set_unused_inv p idx f Hinv Hun) as [[H1 H2 H3 H4 H5] (Hlt & Hl & Hf & Ht)].
  set (q := set_frame p idx f) in *.
  assert (Hq : page_table_ q !! page = None) by exact Hnone.
  assert (Hfr : frames_ q !! idx = Some f).
  { unfold q. cbn [set_frame set_frames frames_]. apply list_lookup_insert_eq. apply Hun. }
  constructor; cbn [set_page_table frames_ page_table_ lru_list_ free_list_].
  - intros pg i Hi. apply lookup_insert_Some in Hi. destruct Hi as [[<- <-]|[Hne Hi]].
    + exists f. auto.
    + exact (H1 pg i Hi).
  - intros i Hi. destruct (H2 i Hi) as (g & Hg & Hp0 & Hpg).
    exists g. split; [exact Hg|]. split; [exact Hp0|].
    rewrite lookup_insert_ne; [exact Hpg|]. intros E. rewrite <- E, Hq in Hpg. discriminate.
  - exact H3.
  - intros i Hi. destruct (H4 i Hi) as [Hi1 Hi2]. split; [exact Hi1|].
    intros pg E. apply lookup_insert_Some in E. destruct E as [[_ <-]|[_ E]].
    + exact (Hf Hi).
    + exact (Hi2 pg E).
  - exact H5.
Qed.

(** ** Finding a frame *)

Lemma lru_not_free (p : BufferPool) (idx : nat) :
  pool_inv p -> idx ∈ lru_list_ p -> idx ∉ free_list_ p.
Proof.
  intros [H1 H2 H3 H4 H5] Hl Hf. destruct (H2 idx Hl) as (f & _ & _ & Ht).
  exact (proj2 (H4 idx Hf) _ Ht).
Qed.

Lemma take_free_spec (p p' : BufferPool) (idx : nat) :
  pool_inv p -> take_free p = Some (idx, p') ->
  pool_inv p' /\ unused p' idx /\ idx ∈ free_list_ p /\
  frames_ p' = frames_ p /\ page_table_ p' = page_table_ p /\
  lru_list_ p' = lru_list_ p /\ free_list_ p = free_list_ p' ++ [idx] /\
  hits_ p' = hits_ p /\ misses_ p' = misses_ p /\ pool_size_ p' = pool_size_ p.
Proof.
  intros Hinv. pose proof Hinv as [H1 H2 H3 H4 H5]. unfold take_free.
  destruct (last (free_list_ p)) as [i|] eqn:El; [|discriminate]. intros [= <- <-].
  apply last_split in El.
  assert (Hin : i ∈ free_list_ p) by (rewrite El; apply elem_of_app; right; apply list_elem_of_here).
  assert (Hnd : NoDup (removelast (free_list_ p) ++ [i])) by (now rewrite <- El).
  apply NoDup_app in Hnd. destruct Hnd as (Hnd1 & Hnd2 & _).
  cbn [set_free_list frames_ page_table_ lru_list_ free_list_ hits_ misses_ pool_size_].
  split; [|split; [|repeat split; auto]].
  - constructor; cbn [frames_ page_table_ lru_list_ free_list_]; auto.
    intros j Hj. apply H4. rewrite El. apply elem_of_app. now left.
  - unfold unused. cbn [frames_ page_table_ lru_list_ free_list_].
    split; [apply H4, Hin|]. split; [|split; [|apply H4, Hin]].
    + intros Hl. exact (lru_not_free p i Hinv Hl Hin).
    + intros Hj. apply (Hnd2 i Hj). apply list_elem_of_here.
Qed.

(** What [EvictFrame] does to a frame of the LRU list. *)
Lemma EvictFrame_spec (s s' : world) (idx : nat) :
  pool_inv (pool s) -> idx ∈ lru_list_ (pool s) -> EvictFrame s idx = Ok s' ->
  exists f,
    frames_ (pool s) !! idx = Some f /\ pin_count f = 0 /\
    page_table_ (pool s) !! page_id f = Some idx /\
    pool_inv (pool s') /\ unused (pool s') idx /\ wal s' = wal s /\
    page_table_ (pool s') = delete (page_id f) (page_table_ (pool s)) /\
    lru_list_ (pool s') = lru_erase idx (lru_list_ (pool s)) /\
    free_list_ (pool s') = free_list_ (pool s) /\
    length (frames_ (pool s')) = length (frames_ (pool s)) /\
    (forall i, i <> idx -> frames_ (pool s') !! i = frames_ (pool s) !! i) /\
    hits_ (pool s') = hits_ (pool s) /\ misses_ (pool s') = misses_ (pool s) /\
    (if dirty f && negb (page_id f =? INVALID_PAGE_ID)
     then PageData (disk s) (page_id f) = Ok (page_id f) /\
          disk s' = with_mapped (disk s)
                      (mem_copy (mapped_ (disk s)) (page_id f) (data f) 0 PAGE_SIZE)
     else disk s' = disk s).
Proof.
  intros Hinv Hl. pose proof Hinv as [H1 H2 H3 H4 H5].
  destruct (H2 idx Hl) as (f & Hf & Hpin & Htab).
  unfold EvictFrame. rewrite (proj2 (frame_at_Some _ _ _) Hf). cbn [mbind result_bind bindR].
  intros Hrun. exists f. split; [exact Hf|]. split; [exact Hpin|]. split; [exact Htab|].
  assert (Hgen : forall (g : PageFrame) (d : DiskManager),
             page_id g = page_id f ->
             let p1 := set_page_table (pool s) (delete (page_id g) (page_table_ (pool s))) in
             let p2 := set_lru_list p1 (lru_erase idx (lru_list_ p1)) in
             let p3 := set_frame p2 idx (mkFrame INVALID_PAGE_ID 0 (dirty g) (data g)) in
             pool_inv p3 /\ unused p3 idx).
  { intros g d Eg. cbv zeta. rewrite Eg. apply set_unused_inv.
    - constructor; cbn [set_lru_list set_page_table frames_ page_table_ lru_list_ free_list_].
      + intros page i Hi. apply lookup_delete_Some in Hi. destruct Hi as [_ Hi]. exact (H1 page i Hi).
      + intros i Hi. pose proof (lru_erase_sub _ _ _ Hi) as Hi'.
        destruct (H2 i Hi') as (g' & Hg' & Hp' & Ht'). exists g'. split; [exact Hg'|].
        split; [exact Hp'|]. rewrite lookup_delete_ne; [exact Ht'|].
        intros E. rewrite <- E, Htab in Ht'. injection Ht' as <-.
        exact (lru_erase_gone idx _ H3 Hi).
      + now apply lru_erase_NoDup.
      + intros i Hi. destruct (H4 i Hi) as [Hi1 Hi2]. split; [exact Hi1|].
        intros page E. apply lookup_delete_Some in E. destruct E as [_ E]. exact (Hi2 page E).
      + exact H5.
    - unfold unused. cbn [set_lru_list set_page_table frames_ page_table_ lru_list_ free_list_].
      split; [eapply lookup_lt, Hf|]. split; [now apply lru_erase_gone|].
      split; [now apply lru_not_free|].
      intros page E. apply lookup_delete_Some in E. destruct E as [Hne E].
      destruct (H1 page idx E) as (g' & Hg' & Hp' & _). rewrite Hf in Hg'. injection Hg' as <-.
      now apply Hne. }
  destruct (dirty f && negb (page_id f =? INVALID_PAGE_ID)) eqn:Ed.
  - unfold PageData in *.
    destruct ((page_id f <? 0) || (file_size_ (disk s) <? page_id f + PAGE_SIZE));
      cbn [mbind result_bind bindR] in Hrun; [discriminate|].
    injection Hrun as <-. cbn [pool disk wal].
    destruct (Hgen (mkFrame (page_id f) (pin_count f) false (data f)) (disk s) eq_refl) as [Hi Hu].
    cbn [page_id dirty data] in Hi, Hu.
    split; [|split; [|repeat split; auto]].
    + eapply pool_inv_same; [| | | |exact Hi]; reflexivity.
    + exact Hu.
    + cbn [set_frame set_frames set_lru_list set_page_table frames_]. apply length_insert.
    + intros i Hne. cbn [set_frame set_frames set_lru_list set_page_table frames_].
      now apply list_lookup_insert_ne.
  - cbn [mbind result_bind bindR] in Hrun. injection Hrun as <-. cbn [pool disk wal].
    destruct (Hgen f (disk s) eq_refl) as [Hi Hu].
    split; [exact Hi|]. split; [exact Hu|]. repeat split; auto.
    + cbn [set_frame set_frames set_lru_list set_page_table frames_]. apply length_insert.
    + intros i Hne. cbn [set_frame set_frames set_lru_list set_page_table frames_].
      now apply list_lookup_insert_ne.
Qed.

(** What [obtain_frame] hands out: a frame of the free list, or the first
    frame of the LRU list after its eviction. *)
Lemma obtain_frame_spec (s s' : world) (idx : nat) :
  pool_inv (pool s) -> obtain_frame s = Ok (Some idx, s') ->
  pool_inv (pool s') /\ unused (pool s') idx /\ wal s' = wal s /\
  (idx ∈ free_list_ (pool s) \/ idx ∈ lru_list_ (pool s)) /\
  (forall page i, page_table_ (pool s') !! page = Some i <->
                  page_table_ (pool s) !! page = Some i /\ i <> idx) /\
  length (frames_ (pool s')) = length (frames_ (pool s)) /\
  (forall i, i <> idx -> frames_ (pool s') !! i = frames_ (pool s) !! i) /\
  (forall i, i ∈ lru_list_ (pool s') <-> i ∈ lru_list_ (pool s) /\ i <> idx) /\
  hits_ (pool s') = hits_ (pool s) /\ misses_ (pool s') = misses_ (pool s).
Proof.
  intros Hinv. unfold obtain_frame.
  destruct (take_free (pool s)) as [[i p']|] eqn:Et.
  - intros [= <- <-]. cbn [with_pool pool wal].
    destruct (take_free_spec _ _ _ Hinv Et)
      as (Hi & Hu & Hin & Ef & Etab & Elru & Efree & Eh & Em & _).
    split; [exact Hi|]. split; [exact Hu|]. split; [reflexivity|]. split; [now left|].
    rewrite Ef, Etab, Elru, Eh, Em.
    destruct Hu as (_ & Hul & _ & Hut). rewrite Etab in Hut. rewrite Elru in Hul.
    split; [|split; [reflexivity|split; [reflexivity|split; [|split; reflexivity]]]].
    + intros page j. split; [|now intros [H _]].
      intros H. split; [exact H|]. intros ->. exact (Hut page H).
    + intros j. split; [|now intros [H _]].
      intros H. split; [exact H|]. intros ->. exact (Hul H).
  - unfold FindVictim. destruct (lru_list_ (pool s)) as [|v l] eqn:El; cbn [head]; [discriminate|].
    destruct (EvictFrame s v) as [s1| | | |] eqn:Ee; cbn [mbind result_bind bindR]; try discriminate.
    intros [= <- <-]. rewrite <- El.
    assert (Hv : v ∈ lru_list_ (pool s)) by (rewrite El; apply list_elem_of_here).
    destruct (EvictFrame_spec s s1 v Hinv Hv Ee)
      as (f & Hf & Hpin & Htab & Hi & Hu & Ew & Etab & Elru & Efree & Elen & Efr & Eh & Em & _).
    split; [exact Hi|]. split; [exact Hu|]. split; [exact Ew|]. split; [right; exact Hv|].
    pose proof Hinv as [H1 H2 H3 H4 H5].
    split; [|split; [exact Elen|split; [exact Efr|split; [|split; [exact Eh | exact Em]]]]].
    + intros page i. rewrite Etab, lookup_delete_Some. split.
      * intros [Hne Hp]. split; [exact Hp|]. intros ->.
        destruct (H1 page v Hp) as (g & Hg & Hpg & _). rewrite Hf in Hg. injection Hg as <-.
        now apply Hne.
      * intros [Hp Hne]. split; [|exact Hp]. intros E. rewrite <- E, Htab in Hp.
        injection Hp as Hp. apply Hne. now symmetry.
    + intros i. rewrite Elru. split.
      * intros Hi'. split; [eapply lru_erase_sub, Hi'|]. intros ->.
        exact (lru_erase_gone v _ H3 Hi').
      * intros [Hi' Hne]. now apply lru_erase_other.
Qed.

(** ** The operations keep the invariant *)

Lemma table_frame (p : BufferPool) (page : Z) (idx : nat) (f : PageFrame) :
  pool_inv p -> page_table_ p !! page = Some idx -> frames_ p !! idx = Some f ->
  page_id f = page /\ 0 <= pin_count f.
Proof.
  intros [H1 _ _ _ _] Ht Hf. destruct (H1 page idx Ht) as (g & Hg & Hp).
  rewrite Hf in Hg. injection Hg as <-. exact Hp.
Qed.

(** A frame is replaced by one with the same page. *)
Lemma set_frame_inv (p : BufferPool) (idx : nat) (f g : PageFrame) :
  pool_inv p -> frames_ p !! idx = Some f ->
  page_id g = page_id f -> 0 <= pin_count g ->
  (idx ∈ lru_list_ p -> pin_count g = 0) ->
  pool_inv (set_frame p idx g).
Proof.
  intros [H1 H2 H3 H4 H5] Hf Hpage Hpin Hlru.
  assert (Hlt : (idx < length (frames_ p))%nat) by (eapply lookup_lt, Hf).
  constructor; cbn [set_frame set_frames frames_ page_table_ lru_list_ free_list_].
  - intros page i Hi. destruct (H1 page i Hi) as (h & Hh & Hp & Hn).
    destruct (Nat.eq_dec i idx) as [->|Hne].
    + exists g. rewrite list_lookup_insert_eq by exact Hlt. rewrite Hf in Hh. injection Hh as <-.
      split; [reflexivity|]. split; [congruence | exact Hpin].
    + exists h. rewrite list_lookup_insert_ne by auto. auto.
  - intros i Hi. destruct (H2 i Hi) as (h & Hh & Hp & Ht).
    destruct (Nat.eq_dec i idx) as [->|Hne].
    + exists g. rewrite list_lookup_insert_eq by exact Hlt. rewrite Hf in Hh. injection Hh as <-.
      split; [reflexivity|]. split; [now apply Hlru | now rewrite Hpage].
    + exists h. rewrite list_lookup_insert_ne by auto. auto.
  - exact H3.
  - intros i Hi. rewrite length_insert. exact (H4 i Hi).
  - exact H5.
Qed.

Lemma lru_erase_inv (p : BufferPool) (idx : nat) :
  pool_inv p -> pool_inv (set_lru_list p (lru_erase idx (lru_list_ p))).
Proof.
  intros [H1 H2 H3 H4 H5].
  constructor; cbn [set_lru_list frames_ page_table_ lru_list_ free_list_]; auto.
  - intros i Hi. apply H2. eapply lru_erase_sub, Hi.
  - now apply lru_erase_NoDup.
Qed.

Lemma lru_push_inv (p : BufferPool) (idx : nat) (g : PageFrame) :
  pool_inv p -> idx ∉ lru_list_ p -> frames_ p !! idx = Some g ->
  pin_count g = 0 -> page_table_ p !! page_id g = Some idx ->
  pool_inv (set_lru_list p (lru_list_ p ++ [idx])).
Proof.
  intros [H1 H2 H3 H4 H5] Hnot Hg Hpin Htab.
  constructor; cbn [set_lru_list frames_ page_table_ lru_list_ free_list_]; auto.
  - intros i Hi. apply elem_of_app in Hi. destruct Hi as [Hi|Hi]; [now apply H2|].
    apply list_elem_of_singleton in Hi. subst i. exists g. auto.
  - apply NoDup_app. split; [exact H3|]. split; [|apply NoDup_singleton].
    intros i Hi Hi'. apply list_elem_of_singleton in Hi'. subst i. contradiction.
Qed.

Lemma FetchPage_inv (s s' : world) (page : Z) (r : option nat) :
  pool_inv (pool s) -> FetchPage s page = Ok (r, s') -> pool_inv (pool s').
Proof.
  intros Hinv. unfold FetchPage. destruct (page <? 0); [discriminate|].
  destruct (page_table_ (pool s) !! page) as [idx|] eqn:Et.
  - destruct (frame_at _ idx) as [f| | | |] eqn:Ef; cbn [mbind result_bind bindR]; try discriminate.
    intros [= _ <-]. cbn [with_pool pool]. apply frame_at_Some in Ef. cbn [set_hits frames_] in Ef.
    destruct (table_frame _ _ _ _ Hinv Et Ef) as [Hp Hn].
    set (g := mkFrame (page_id f) (pin_count f + 1) (dirty f) (data f)).
    apply (pool_inv_same
             (set_frame (set_lru_list (pool s) (lru_erase idx (lru_list_ (pool s)))) idx g));
      try reflexivity.
    apply (set_frame_inv _ idx f g); [now apply lru_erase_inv | exact Ef | reflexivity | cbn; lia |].
    cbn [set_lru_list lru_list_]. intros Hl. exfalso.
    destruct Hinv as [_ _ H3 _ _]. exact (lru_erase_gone idx _ H3 Hl).
  - set (s0 := with_pool s (set_misses (pool s) (misses_ (pool s) + 1))).
    assert (Hinv0 : pool_inv (pool s0)) by (eapply pool_inv_same; [| | | |exact Hinv]; reflexivity).
    destruct (obtain_frame s0) as [[[idx|] s1]| | | |] eqn:Eo;
      cbn [mbind result_bind bindR]; try discriminate.
    + destruct (obtain_frame_spec s0 s1 idx Hinv0 Eo) as (Hi & Hu & _ & _ & Htab & _).
      destruct (frame_at (pool s1) idx) as [f| | | |]; cbn [mbind result_bind bindR];
        try discriminate.
      destruct (PageData (disk s1) page) as [dp| | | |]; cbn [mbind result_bind bindR];
        try discriminate.
      intros [= _ <-]. cbn [with_pool pool]. apply install_inv; auto; [|cbn; lia].
      destruct (page_table_ (pool s1) !! page) as [i|] eqn:E; [|reflexivity].
      apply Htab in E. destruct E as [E _]. cbn in E. rewrite Et in E. discriminate.
    + unfold obtain_frame in Eo. destruct (take_free (pool s0)) as [[i p']|]; [discriminate|].
      destruct (FindVictim (pool s0)) as [v|]; [|injection Eo as <-; now intros [= _ <-]].
      destruct (EvictFrame s0 v); discriminate.
Qed.

Lemma UnpinPage_inv (s s' : world) (page : Z) (is_dirty b : bool) :
  pool_inv (pool s) -> UnpinPage s page is_dirty = Ok (b, s') -> pool_inv (pool s').
Proof.
  intros Hinv. unfold UnpinPage.
  destruct (page_table_ (pool s) !! page) as [idx|] eqn:Et; [|now intros [= _ <-]].
  destruct (frame_at _ idx) as [f| | | |] eqn:Ef; cbn [mbind result_bind bindR]; try discriminate.
  apply frame_at_Some in Ef. destruct (table_frame _ _ _ _ Hinv Et Ef) as [Hp Hn].
  destruct (Z.leb_spec (pin_count f) 0) as [|Hpos]; [now intros [= _ <-]|].
  intros [= _ <-]. cbn [with_pool pool pin_count].
  set (g := mkFrame (page_id f) (pin_count f - 1) (dirty f || is_dirty) (data f)).
  assert (Hnot : idx ∉ lru_list_ (pool s)).
  { intros Hl. destruct Hinv as [_ H2 _ _ _]. destruct (H2 idx Hl) as (h & Hh & Hz & _).
    rewrite Ef in Hh. injection Hh as <-. lia. }
  assert (Hg : pool_inv (set_frame (pool s) idx g)).
  { apply (set_frame_inv _ idx f g Hinv Ef); [reflexivity | cbn; lia | intros; contradiction]. }
  destruct (Z.eqb_spec (pin_count f - 1) 0) as [Hz|_]; [|exact Hg].
  apply (lru_push_inv _ idx g Hg Hnot).
  - cbn [set_frame set_frames frames_]. apply list_lookup_insert_eq. eapply lookup_lt, Ef.
  - exact Hz.
  - cbn [set_frame set_frames page_table_ g page_id]. now rewrite Hp.
Qed.

Lemma flush_frame_inv (s s' : world) (page : Z) (idx : nat) :
  pool_inv (pool s) -> page_table_ (pool s) !! page = Some idx ->
  flush_frame s page idx = Ok s' ->
  pool_inv (pool s') /\ page_table_ (pool s') = page_table_ (pool s).
Proof.
  intros Hinv Ht. unfold flush_frame.
  destruct (frame_at _ idx) as [f| | | |] eqn:Ef; cbn [mbind result_bind bindR]; try discriminate.
  apply frame_at_Some in Ef. destruct (table_frame _ _ _ _ Hinv Ht Ef) as [Hp Hn].
  destruct (dirty f); [|now intros [= <-]].
  destruct (PageData (disk s) page); cbn [mbind result_bind bindR]; try discriminate.
  intros [= <-]. cbn [pool]. split; [|reflexivity].
  apply (set_frame_inv _ idx f _ Hinv Ef); [reflexivity | exact Hn |].
  cbn [pin_count]. intros Hl. destruct Hinv as [_ H2 _ _ _].
  destruct (H2 idx Hl) as (h & Hh & Hz & _). rewrite Ef in Hh. now injection Hh as <-.
Qed.

Lemma FlushPage_inv (s s' : world) (page : Z) (b : bool) :
  pool_inv (pool s) -> FlushPage s page = Ok (b, s') -> pool_inv (pool s').
Proof.
  intros Hinv. unfold FlushPage.
  destruct (page_table_ (pool s) !! page) as [idx|] eqn:Et; [|now intros [= _ <-]].
  destruct (flush_frame s page idx) as [s1| | | |] eqn:E; cbn [mbind result_bind bindR];
    try discriminate.
  intros [= _ <-]. eapply flush_frame_inv; eauto.
Qed.

(** The loop of [FlushAllPages] over the entries of the page table. *)
Lemma flush_loop_inv (s : world) (l : list (Z * nat)) :
  forall (acc : world) (s' : world),
    (forall pid idx, (pid, idx) ∈ l -> page_table_ (pool s) !! pid = Some idx) ->
    pool_inv (pool acc) -> page_table_ (pool acc) = page_table_ (pool s) ->
    foldl (fun acc '(pid, idx) => s ← acc; flush_frame s pid idx) (Ok acc) l = Ok s' ->
    pool_inv (pool s') /\ page_table_ (pool s') = page_table_ (pool s).
Proof.
  induction l as [|[pid idx] l IH]; intros acc s' Hl Hinv Ht; cbn [foldl].
  - intros [= <-]. auto.
  - cbn [mbind result_bind bindR].
    destruct (flush_frame acc pid idx) as [s1| | | |] eqn:E.
    + destruct (flush_frame_inv acc s1 pid idx Hinv) as [Hi1 Ht1]; [|exact E|].
      { rewrite Ht. apply Hl, list_elem_of_here. }
      apply IH; [|exact Hi1|congruence].
      intros p i Hp. apply Hl. now apply list_elem_of_further.
    + intros H. exfalso. clear -H. induction l as [|[p i] l IH]; [discriminate|]. exact (IH H).
    + intros H. exfalso. clear -H. induction l as [|[p i] l IH]; [discriminate|]. exact (IH H).
    + intros H. exfalso. clear -H. induction l as [|[p i] l IH]; [discriminate|]. exact (IH H).
    + intros H. exfalso. clear -H. induction l as [|[p i] l IH]; [discriminate|]. exact (IH H).
Qed.

Lemma FlushAllPages_inv (s s' : world) :
  pool_inv (pool s) -> FlushAllPages s = Ok s' -> pool_inv (pool s').
Proof.
  intros Hinv. unfold FlushAllPages.
  destruct (foldl _ _ _) as [s1| | | |] eqn:E; cbn [mbind result_bind bindR]; try discriminate.
  intros [= <-]. cbn [with_disk pool].
  eapply (flush_loop_inv s _ s s1); [| exact Hinv | reflexivity | exact E].
  intros pid idx H. now apply elem_of_map_to_list in H.
Qed.

Lemma NewPage_inv (s s' : world) (page : Z) (r : option nat) :
  pool_inv (pool s) -> NewPage s = Ok (r, page, s') ->
  page_table_ (pool s) !! page = None -> pool_inv (pool s').
Proof.
  intros Hinv. unfold NewPage.
  destruct (AllocatePage (disk s)) as [[pg d]| | | |]; cbn [mbind result_bind bindR];
    try discriminate.
  set (s0 := with_disk s d).
  assert (Hinv0 : pool_inv (pool s0)) by exact Hinv.
  destruct (obtain_frame s0) as [[[idx|] s1]| | | |] eqn:Eo;
    cbn [mbind result_bind bindR]; try discriminate.
  - destruct (obtain_frame_spec s0 s1 idx Hinv0 Eo) as (Hi & Hu & _ & _ & Htab & _).
    destruct (frame_at (pool s1) idx) as [f| | | |]; cbn [mbind result_bind bindR];
      try discriminate.
    intros [= _ <- <-] Hnone. cbn [with_pool pool]. apply install_inv; auto; [|cbn; lia].
    destruct (page_table_ (pool s1) !! pg) as [i|] eqn:E; [|reflexivity].
    apply Htab in E. destruct E as [E _]. cbn in E. rewrite Hnone in E. discriminate.
  - unfold obtain_frame in Eo. destruct (take_free (pool s0)) as [[i p']|]; [discriminate|].
    destruct (FindVictim (pool s0)) as [v|]; [|injection Eo as <-; now intros [= _ _ <-]].
    destruct (EvictFrame s0 v); discriminate.
Qed.

Lemma DeletePage_inv (s s' : world) (page : Z) (b : bool) :
  pool_inv (pool s) -> DeletePage s page = Ok (b, s') -> pool_inv (pool s').
Proof.
  intros Hinv. pose proof Hinv as [H1 H2 H3 H4 H5]. unfold DeletePage.
  destruct (page_table_ (pool s) !! page) as [idx|] eqn:Et; [|now intros [= _ <-]].
  destruct (frame_at _ idx) as [f| | | |] eqn:Ef; cbn [mbind result_bind bindR]; try discriminate.
  apply frame_at_Some in Ef. destruct (table_frame _ _ _ _ Hinv Et Ef) as [Hp Hn].
  destruct (0 <? pin_count f); [now intros [= _ <-]|].
  intros [= _ <-]. cbn [with_pool pool].
  assert (Hlt : (idx < length (frames_ (pool s)))%nat) by (eapply lookup_lt, Ef).
  assert (Hother : forall pg i, pg <> page -> page_table_ (pool s) !! pg = Some i -> i <> idx).
  { intros pg i Hne Hpg ->. destruct (H1 pg idx Hpg) as (h & Hh & Hph & _).
    rewrite Ef in Hh. injection Hh as <-. congruence. }
  constructor;
    cbn [set_free_list set_page_table set_frame set_frames set_lru_list
         frames_ page_table_ lru_list_ free_list_].
  - intros pg i Hi. apply lookup_delete_Some in Hi. destruct Hi as [Hne Hi].
    destruct (H1 pg i Hi) as (h & Hh & Hph). exists h. split; [|exact Hph].
    rewrite list_lookup_insert_ne; [exact Hh|]. intros E. symmetry in E. revert E.
    apply (Hother pg i); auto.
  - intros i Hi. pose proof (lru_erase_gone idx _ H3) as Hgone.
    pose proof (lru_erase_sub _ _ _ Hi) as Hi'.
    destruct (H2 i Hi') as (h & Hh & Hz & Hth).
    assert (Hne : i <> idx) by (intros ->; contradiction).
    exists h. rewrite list_lookup_insert_ne by auto. split; [exact Hh|]. split; [exact Hz|].
    rewrite lookup_delete_ne; [exact Hth|]. intros E. rewrite <- E, Et in Hth.
    injection Hth as Hth. apply Hne. now symmetry.
  - now apply lru_erase_NoDup.
  - intros i Hi. rewrite length_insert. apply elem_of_app in Hi. destruct Hi as [Hi|Hi].
    + destruct (H4 i Hi) as [Hi1 Hi2]. split; [exact Hi1|].
      intros pg E. apply lookup_delete_Some in E. destruct E as [_ E]. exact (Hi2 pg E).
    + apply list_elem_of_singleton in Hi. subst i. split; [exact Hlt|].
      intros pg E. apply lookup_delete_Some in E. destruct E as [Hne E].
      exact (Hother pg idx (fun X => Hne (eq_sym X)) E eq_refl).
  - apply NoDup_app. split; [exact H5|]. split; [|apply NoDup_singleton].
    intros i Hi Hi'. apply list_elem_of_singleton in Hi'. subst i.
    exact (proj2 (H4 idx Hi) page Et).
Qed.

(** X24.  The bookkeeping of the pool stays consistent.  A new pool is
    consistent, and every operation that returns leaves it so: in the page
    table every page sits in the frame the table names, only unpinned
    resident frames are candidates for eviction, free frames hold no page,
    and no frame is listed twice.  ([NewPage] is given a page that is not
    resident already.) *)
Theorem pool_bookkeeping_is_kept (s : world) (page : Z) (is_dirty : bool) :
  pool_inv (pool s) ->
  (forall r s', FetchPage s page = Ok (r, s') -> pool_inv (pool s')) /\
  (forall b s', UnpinPage s page is_dirty = Ok (b, s') -> pool_inv (pool s')) /\
  (forall b s', FlushPage s page = Ok (b, s') -> pool_inv (pool s')) /\
  (forall s', FlushAllPages s = Ok s' -> pool_inv (pool s')) /\
  (forall r s', NewPage s = Ok (r, page, s') -> page_table_ (pool s) !! page = None ->
                pool_inv (pool s')) /\
  (forall b s', DeletePage s page = Ok (b, s') -> pool_inv (pool s')).
Proof.
  intros Hinv. split; [|split; [|split; [|split; [|split]]]].
  - intros r s'. now apply FetchPage_inv.
  - intros b s'. now apply UnpinPage_inv.
  - intros b s'. now apply FlushPage_inv.
  - intros s'. now apply FlushAllPages_inv.
  - intros r s'. now apply NewPage_inv.
  - intros b s'. now apply DeletePage_inv.
Qed.

Lemma pool_bookkeeping_is_kept_witness :
  (forall r s', FetchPage one_frame_world 4096 = Ok (r, s') -> pool_inv (pool s')) /\
  (forall b s', UnpinPage one_frame_world 4096 true = Ok (b, s') -> pool_inv (pool s')) /\
  (forall b s', FlushPage one_frame_world 4096 = Ok (b, s') -> pool_inv (pool s')) /\
  (forall s', FlushAllPages one_frame_world = Ok s' -> pool_inv (pool s')) /\
  (forall r s', NewPage one_frame_world = Ok (r, 4096, s') ->
                page_table_ (pool one_frame_world) !! 4096 = None -> pool_inv (pool s')) /\
  (forall b s', DeletePage one_frame_world 4096 = Ok (b, s') -> pool_inv (pool s')).
Proof. exact (pool_bookkeeping_is_kept one_frame_world 4096 true (create_inv 1)). Defined.

(** ** What a fetch returns *)





(** ** Steps of the pool, evaluated *)

Lemma UnpinPage_eval (s : world) (page : Z) (idx : nat) (f : PageFrame) (d : bool) :
  resident (pool s) page idx f -> 0 < pin_count f ->
  exists s',
    UnpinPage s page d = Ok (true, s') /\ disk s' = disk s /\ wal s' = wal s /\
    page_table_ (pool s') = page_table_ (pool s) /\
    frames_ (pool s')
      = <[idx := mkFrame (page_id f) (pin_count f - 1) (dirty f || d) (data f)]> (frames_ (pool s)) /\
    lru_list_ (pool s')
      = (if pin_count f =? 1 then lru_list_ (pool s) ++ [idx] else lru_list_ (pool s)) /\
    free_list_ (pool s') = free_list_ (pool s).
Proof.
  intros [Ht Hf] Hpin. unfold UnpinPage. rewrite Ht. unfold frame_at. rewrite Hf.
  cbn [mbind result_bind bindR]. replace (pin_count f <=? 0) with false by lia.
  eexists. split; [reflexivity|]. cbn [with_pool pool disk wal pin_count].
  replace (pin_count f - 1 =? 0) with (pin_count f =? 1) by lia.
  destruct (pin_count f =? 1); repeat split.
Qed.

Lemma FetchPage_evict_eval (s : world) (page : Z) (v : nat) (rest : list nat) (f : PageFrame) :
  page_table_ (pool s) !! page = None ->
  0 <= page -> page + PAGE_SIZE <= file_size_ (disk s) ->
  free_list_ (pool s) = [] -> lru_list_ (pool s) = v :: rest ->
  frames_ (pool s) !! v = Some f ->
  (dirty f = true -> 0 <= page_id f /\ page_id f + PAGE_SIZE <= file_size_ (disk s)) ->
  let d1 := if dirty f
            then with_mapped (disk s)
                   (mem_copy (mapped_ (disk s)) (page_id f) (data f) 0 PAGE_SIZE)
            else disk s in
  exists s',
    FetchPage s page = Ok (Some v, s') /\ disk s' = d1 /\ wal s' = wal s /\
    page_table_ (pool s') = <[page := v]> (delete (page_id f) (page_table_ (pool s))) /\
    frames_ (pool s')
      = <[v := mkFrame page 1 false (mem_copy (data f) 0 (mapped_ d1) page PAGE_SIZE)]>
          (frames_ (pool s)) /\
    lru_list_ (pool s') = rest /\ free_list_ (pool s') = [].
Proof.
  intros Ht H0 H1 Hfree Hlru Hf Hd d1.
  assert (Hlt : (v < length (frames_ (pool s)))%nat) by (eapply lookup_lt, Hf).
  unfold FetchPage. replace (page <? 0) with false by lia. rewrite Ht.
  unfold obtain_frame, take_free, FindVictim.
  cbn [with_pool pool set_misses free_list_ lru_list_]. rewrite Hfree, Hlru. cbn [last head].
  unfold EvictFrame, frame_at.
  cbn [with_pool pool disk wal set_misses frames_ page_table_ lru_list_]. rewrite Hf.
  cbn [mbind result_bind bindR].
  assert (Hfs : file_size_ d1 = file_size_ (disk s)) by (unfold d1; destruct (dirty f); reflexivity).
  destruct (dirty f) eqn:Ed.
  - destruct (Hd eq_refl) as [Hp0 Hp1].
    replace (page_id f =? INVALID_PAGE_ID) with false by (unfold INVALID_PAGE_ID; lia).
    cbn [andb negb]. unfold PageData.
    replace (page_id f <? 0) with false by lia.
    replace (file_size_ (disk s) <? page_id f + PAGE_SIZE) with false by lia.
    cbn [orb mbind result_bind bindR pool disk wal set_frame set_frames set_lru_list
         set_page_table frames_ page_table_ lru_list_ free_list_ data].
    rewrite list_lookup_insert_eq by exact Hlt. cbn [mbind result_bind bindR].
    cbn [file_size_ with_mapped].
    replace (page <? 0) with false by lia.
    replace (file_size_ (disk s) <? page + PAGE_SIZE) with false by lia.
    cbn [orb mbind result_bind bindR]. eexists. split; [reflexivity|].
    cbn [with_pool pool disk wal set_frame set_frames set_lru_list set_page_table set_misses
         frames_ page_table_ lru_list_ free_list_ data page_id dirty].
    rewrite Hlru, Hfree. cbn [lru_erase].
    rewrite Nat.eqb_refl, list_insert_insert_eq. repeat split; auto.
  - cbn [andb mbind result_bind bindR pool disk wal set_frame set_frames set_lru_list
         set_page_table frames_ page_table_ lru_list_ free_list_ data].
    rewrite list_lookup_insert_eq by exact Hlt. cbn [mbind result_bind bindR].
    unfold PageData.
    replace (page <? 0) with false by lia.
    replace (file_size_ (disk s) <? page + PAGE_SIZE) with false by lia.
    cbn [orb mbind result_bind bindR]. eexists. split; [reflexivity|].
    cbn [with_pool pool disk wal set_frame set_frames set_lru_list set_page_table set_misses
         frames_ page_table_ lru_list_ free_list_ data page_id dirty].
    rewrite Hlru, Hfree. cbn [lru_erase].
    rewrite Nat.eqb_refl, list_insert_insert_eq. repeat split; auto.
Qed.

Lemma frame_bytes_copy (dst src : mem) (off : Z) :
  mem_read (mem_copy dst 0 src off PAGE_SIZE) 0 (Z.to_nat PAGE_SIZE)
  = mem_read src off (Z.to_nat PAGE_SIZE).
Proof.
  unfold mem_read. apply map_ext_in. intros i Hi. apply in_seq in Hi. unfold mem_copy.
  assert (Z.of_nat i < PAGE_SIZE) by (unfold PAGE_SIZE in *; lia).
  destruct (Z.leb_spec 0 (0 + Z.of_nat i)); [|lia].
  destruct (Z.ltb_spec (0 + Z.of_nat i) (0 + PAGE_SIZE)); [|lia].
  cbn [andb]. f_equal. lia.
Qed.

Lemma disk_bytes_copy (dst src : mem) (off : Z) :
  mem_read (mem_copy dst off src 0 PAGE_SIZE) off (Z.to_nat PAGE_SIZE)
  = mem_read src 0 (Z.to_nat PAGE_SIZE).
Proof.
  unfold mem_read. apply map_ext_in. intros i Hi. apply in_seq in Hi. unfold mem_copy.
  assert (Z.of_nat i < PAGE_SIZE) by (unfold PAGE_SIZE in *; lia).
  destruct (Z.leb_spec off (off + Z.of_nat i)); [|lia].
  destruct (Z.ltb_spec (off + Z.of_nat i) (off + PAGE_SIZE)); [|lia].
  cbn [andb]. f_equal. lia.
Qed.

(** ** The sample states *)

Lemma two_frame_table (page : Z) (idx : nat) :
  ({[ 4096 := 0%nat; 8192 := 1%nat ]} : gmap Z nat) !! page = Some idx ->
  page = 4096 /\ idx = 0%nat \/ page = 8192 /\ idx = 1%nat.
Proof.
  intros H. apply lookup_insert_Some in H. destruct H as [[<- <-]|[_ H]]; [now left|].
  apply lookup_singleton_Some in H. destruct H as [<- <-]. now right.
Qed.

Lemma two_frame_inv : pool_inv (pool two_frame_world).
Proof.
  constructor; cbn [two_frame_world pool frames_ page_table_ lru_list_ free_list_].
  - intros page idx H. apply two_frame_table in H. destruct H as [[-> ->]|[-> ->]].
    + eexists. split; [reflexivity|]. cbn. split; [reflexivity | lia].
    + eexists. split; [reflexivity|]. cbn. split; [reflexivity | lia].
  - intros idx H. apply list_elem_of_singleton in H. subst idx.
    eexists. split; [reflexivity|]. split; reflexivity.
  - apply NoDup_singleton.
  - intros idx H. apply elem_of_nil in H. contradiction.
  - constructor.
Qed.

Lemma both_pinned_inv : pool_inv (pool both_pinned_world).
Proof.
  constructor; cbn [both_pinned_world pool frames_ page_table_ lru_list_ free_list_].
  - intros page idx H. apply two_frame_table in H. destruct H as [[-> ->]|[-> ->]].
    + eexists. split; [reflexivity|]. cbn. split; [reflexivity | lia].
    + eexists. split; [reflexivity|]. cbn. split; [reflexivity | lia].
  - intros idx H. apply elem_of_nil in H. contradiction.
  - constructor.
  - intros idx H. apply elem_of_nil in H. contradiction.
  - constructor.
Qed.


(** ** Write-back *)

(** X26.  A modified page survives its eviction.  When the only candidate
    for eviction holds a modified page, a fetch of another page writes the
    frame to the page's place in the file before it reuses the frame; once
    the other page is unpinned, a fetch of the first page brings back, in
    the same frame, the bytes that the frame held, pinned once and clean. *)
Theorem dirty_page_survives_eviction (s : world) (page other : Z) (idx : nat) (f : PageFrame) :
  pool_inv (pool s) -> resident (pool s) page idx f -> dirty f = true ->
  free_list_ (pool s) = [] -> lru_list_ (pool s) = [idx] ->
  0 <= page -> page + PAGE_SIZE <= file_size_ (disk s) ->
  page_table_ (pool s) !! other = None ->
  0 <= other -> other + PAGE_SIZE <= file_size_ (disk s) ->
  exists s1 s2 s3 f3,
    FetchPage s other = Ok (Some idx, s1) /\
    page_table_ (pool s1) !! page = None /\
    disk_page (disk s1) page = frame_bytes f /\
    UnpinPage s1 other false = Ok (true, s2) /\
    FetchPage s2 page = Ok (Some idx, s3) /\
    resident (pool s3) page idx f3 /\
    frame_bytes f3 = frame_bytes f /\ pin_count f3 = 1 /\ dirty f3 = false.
Proof.
  intros Hinv Hres Hd Hfree Hlru Hp0 Hp1 Ho Ho0 Ho1. pose proof Hres as [Ht Hf].
  destruct (table_frame _ _ _ _ Hinv Ht Hf) as [Hpage _].
  assert (Hne : other <> page) by (intros ->; rewrite Ht in Ho; discriminate).
  assert (Hlt : (idx < length (frames_ (pool s)))%nat) by (eapply lookup_lt, Hf).
  (* the fetch of the other page *)
  destruct (FetchPage_evict_eval s other idx [] f Ho Ho0 Ho1 Hfree Hlru Hf)
    as (s1 & Hrun1 & Hd1 & Hw1 & Ht1 & Hf1 & Hl1 & Hfr1).
  { intros _. rewrite Hpage. auto. }
  cbv zeta in Hd1, Hf1. rewrite Hd in Hd1, Hf1. rewrite Hpage in Hd1, Ht1, Hf1.
  set (F1 := mkFrame other 1 false _) in Hf1.
  assert (Hfs1 : file_size_ (disk s1) = file_size_ (disk s)) by (now rewrite Hd1).
  assert (Hnone1 : page_table_ (pool s1) !! page = None).
  { rewrite Ht1, lookup_insert_ne by auto. apply lookup_delete_eq. }
  assert (Hbytes1 : disk_page (disk s1) page = frame_bytes f).
  { unfold disk_page, frame_bytes. rewrite Hd1. cbn [with_mapped mapped_]. apply disk_bytes_copy. }
  (* the unpin *)
  destruct (UnpinPage_eval s1 other idx F1 false) as (s2 & Hrun2 & Hd2 & Hw2 & Ht2 & Hf2 & Hl2 & Hfr2).
  { split; [rewrite Ht1; apply lookup_insert_eq|]. rewrite Hf1. now apply list_lookup_insert_eq. }
  { cbn. lia. }
  cbn [F1 pin_count page_id dirty data orb] in Hf2, Hl2. change (1 =? 1) with true in Hl2.
  rewrite Hl1 in Hl2. cbn [app] in Hl2. cbv iota in Hl2.
  set (F2 := mkFrame other (1 - 1) false _) in Hf2.
  (* the fetch of the page *)
  destruct (FetchPage_evict_eval s2 page idx [] F2) as (s3 & Hrun3 & Hd3 & Hw3 & Ht3 & Hf3 & _).
  { now rewrite Ht2. } { exact Hp0. } { rewrite Hd2, Hfs1. exact Hp1. }
  { now rewrite Hfr2. } { exact Hl2. }
  { rewrite Hf2, Hf1. apply list_lookup_insert_eq. now rewrite length_insert. }
  { discriminate. }
  cbn [F2 dirty data page_id] in Hd3, Ht3, Hf3. cbv zeta in Hf3.
  eexists s1, s2, s3, _. split; [exact Hrun1|]. split; [exact Hnone1|]. split; [exact Hbytes1|].
  split; [exact Hrun2|]. split; [exact Hrun3|]. split; [split|].
  - rewrite Ht3. apply lookup_insert_eq.
  - rewrite Hf3. apply list_lookup_insert_eq. rewrite Hf2, Hf1, !length_insert. exact Hlt.
  - cbn [pin_count dirty]. split; [|split; reflexivity].
    unfold frame_bytes at 1. cbn [data]. rewrite frame_bytes_copy.
    rewrite Hd2. exact Hbytes1.
Qed.

Lemma dirty_page_survives_eviction_witness :
  exists s1 s2 s3 f3,
    FetchPage two_frame_world 12288 = Ok (Some 1%nat, s1) /\
    page_table_ (pool s1) !! 8192 = None /\
    disk_page (disk s1) 8192 = frame_bytes (mkFrame 8192 0 true (fun _ => 66)) /\
    UnpinPage s1 12288 false = Ok (true, s2) /\
    FetchPage s2 8192 = Ok (Some 1%nat, s3) /\
    resident (pool s3) 8192 1 f3 /\
    frame_bytes f3 = frame_bytes (mkFrame 8192 0 true (fun _ => 66)) /\
    pin_count f3 = 1 /\ dirty f3 = false.
Proof.
  apply (dirty_page_survives_eviction two_frame_world 8192 12288 1 _ two_frame_inv);
    try reflexivity; cbn; unfold PAGE_SIZE; try lia.
  split; reflexivity.
Defined.

(** ** The order of eviction *)

(** X27.  Frames are evicted in the order in which their pages were
    unpinned.  When two pinned pages are unpinned one after the other and
    no frame is free, the next fetch of a page that is not resident evicts
    the page that was unpinned first, and leaves the other one resident and
    next in line. *)
Theorem eviction_follows_unpin_order (s : world) (a b c : Z) (ia ib : nat) (fa fb : PageFrame)
                                     (da db : bool) :
  pool_inv (pool s) -> resident (pool s) a ia fa -> resident (pool s) b ib fb -> a <> b ->
  pin_count fa = 1 -> pin_count fb = 1 ->
  free_list_ (pool s) = [] -> lru_list_ (pool s) = [] ->
  0 <= a -> a + PAGE_SIZE <= file_size_ (disk s) ->
  page_table_ (pool s) !! c = None -> 0 <= c -> c + PAGE_SIZE <= file_size_ (disk s) ->
  exists s1 s2 s3,
    UnpinPage s a da = Ok (true, s1) /\ UnpinPage s1 b db = Ok (true, s2) /\
    lru_list_ (pool s2) = [ia; ib] /\
    FetchPage s2 c = Ok (Some ia, s3) /\
    page_table_ (pool s3) !! a = None /\
    page_table_ (pool s3) !! b = Some ib /\
    page_table_ (pool s3) !! c = Some ia /\
    lru_list_ (pool s3) = [ib].
Proof.
  intros Hinv Ha Hb Hab Hpa Hpb Hfree Hlru Ha0 Ha1 Hc Hc0 Hc1.
  pose proof Ha as [Hta Hfa]. pose proof Hb as [Htb Hfb].
  destruct (table_frame _ _ _ _ Hinv Hta Hfa) as [Hida _].
  destruct (table_frame _ _ _ _ Hinv Htb Hfb) as [Hidb _].
  assert (Hi : ia <> ib).
  { intros E. rewrite E, Hfb in Hfa. injection Hfa as <-. congruence. }
  assert (Hca : c <> a) by (intros ->; rewrite Hta in Hc; discriminate).
  assert (Hcb : c <> b) by (intros ->; rewrite Htb in Hc; discriminate).
  assert (Hlta : (ia < length (frames_ (pool s)))%nat) by (eapply lookup_lt, Hfa).
  destruct (UnpinPage_eval s a ia fa da Ha) as (s1 & Hrun1 & Hd1 & _ & Ht1 & Hf1 & Hl1 & Hfr1);
    [lia|].
  rewrite Hpa, Hlru in Hl1. cbn in Hl1.
  set (Fa := mkFrame (page_id fa) (pin_count fa - 1) (dirty fa || da) (data fa)) in Hf1.
  destruct (UnpinPage_eval s1 b ib fb db) as (s2 & Hrun2 & Hd2 & _ & Ht2 & Hf2 & Hl2 & Hfr2).
  { split; [now rewrite Ht1|]. rewrite Hf1. now rewrite list_lookup_insert_ne. }
  { lia. }
  rewrite Hpb, Hl1 in Hl2. cbn in Hl2.
  destruct (FetchPage_evict_eval s2 c ia [ib] Fa) as (s3 & Hrun3 & _ & _ & Ht3 & _ & Hl3 & _).
  { now rewrite Ht2, Ht1. } { exact Hc0. } { now rewrite Hd2, Hd1. }
  { now rewrite Hfr2, Hfr1. } { exact Hl2. }
  { rewrite Hf2, Hf1. rewrite list_lookup_insert_ne by auto. now apply list_lookup_insert_eq. }
  { intros _. cbn [Fa page_id]. rewrite Hida, Hd2, Hd1. auto. }
  cbn [Fa page_id] in Ht3. rewrite Hida, Ht2, Ht1 in Ht3.
  exists s1, s2, s3. split; [exact Hrun1|]. split; [exact Hrun2|]. split; [exact Hl2|].
  split; [exact Hrun3|]. rewrite Ht3. split; [|split; [|split; [|exact Hl3]]].
  - rewrite lookup_insert_ne by auto. apply lookup_delete_eq.
  - rewrite lookup_insert_ne by auto. rewrite lookup_delete_ne by auto. exact Htb.
  - apply lookup_insert_eq.
Qed.

Lemma eviction_follows_unpin_order_witness :
  exists s1 s2 s3,
    UnpinPage both_pinned_world 8192 false = Ok (true, s1) /\
    UnpinPage s1 4096 false = Ok (true, s2) /\
    lru_list_ (pool s2) = [1%nat; 0%nat] /\
    FetchPage s2 12288 = Ok (Some 1%nat, s3) /\
    page_table_ (pool s3) !! 8192 = None /\
    page_table_ (pool s3) !! 4096 = Some 0%nat /\
    page_table_ (pool s3) !! 12288 = Some 1%nat /\
    lru_list_ (pool s3) = [0%nat].
Proof.
  apply (eviction_follows_unpin_order both_pinned_world 8192 4096 12288 1 0
           (mkFrame 8192 1 true (fun _ => 66)) (mkFrame 4096 1 false (fun _ => 65))
           false false both_pinned_inv);
    try reflexivity; try (split; reflexivity); cbn; unfold PAGE_SIZE; lia.
Defined.

(** ** Dropping a page *)

Lemma FetchPage_free_eval (s : world) (page : Z) (idx : nat) (l : list nat) (g : PageFrame) :
  page_table_ (pool s) !! page = None ->
  0 <= page -> page + PAGE_SIZE <= file_size_ (disk s) ->
  free_list_ (pool s) = l ++ [idx] -> frames_ (pool s) !! idx = Some g ->
  exists s',
    FetchPage s page = Ok (Some idx, s') /\ disk s' = disk s /\ wal s' = wal s /\
    page_table_ (pool s') = <[page := idx]> (page_table_ (pool s)) /\
    frames_ (pool s')
      = <[idx := mkFrame page 1 false (mem_copy (data g) 0 (mapped_ (disk s)) page PAGE_SIZE)]>
          (frames_ (pool s)) /\
    lru_list_ (pool s') = lru_list_ (pool s) /\ free_list_ (pool s') = l.
Proof.
  intros Ht H0 H1 Hfree Hg.
  unfold FetchPage. replace (page <? 0) with false by lia. rewrite Ht.
  unfold obtain_frame, take_free.
  cbn [with_pool pool set_misses free_list_]. rewrite Hfree, last_snoc, removelast_last.
  cbn [mbind result_bind bindR with_pool pool disk wal]. unfold frame_at.
  cbn [set_free_list set_misses frames_]. rewrite Hg. cbn [mbind result_bind bindR].
  unfold PageData.
  replace (page <? 0) with false by lia.
  replace (file_size_ (disk s) <? page + PAGE_SIZE) with false by lia.
  cbn [orb mbind result_bind bindR]. eexists. split; [reflexivity|].
  cbn [with_pool pool disk wal set_frame set_frames set_page_table set_free_list set_misses
       frames_ page_table_ lru_list_ free_list_]. repeat split.
Qed.

(** X28.  [DeletePage] drops a page without writing it.  For a page that is
    not resident it returns [true], for a pinned page [false], and changes
    nothing in either case.  For a resident page that is not pinned it
    returns [true]: the page leaves the page table, the file is not
    touched, so that what the frame held modified is lost, and the frame
    goes to the free list, from where the next fetch of a page that is
    not resident takes it. *)
Theorem DeletePage_drops_the_frame (s : world) (page : Z) :
  pool_inv (pool s) ->
  (page_table_ (pool s) !! page = None -> DeletePage s page = Ok (true, s)) /\
  (forall idx f, resident (pool s) page idx f -> 0 < pin_count f ->
                 DeletePage s page = Ok (false, s)) /\
  (forall idx f, resident (pool s) page idx f -> pin_count f = 0 ->
     exists s',
       DeletePage s page = Ok (true, s') /\ disk s' = disk s /\ wal s' = wal s /\
       page_table_ (pool s') = delete page (page_table_ (pool s)) /\
       free_list_ (pool s') = free_list_ (pool s) ++ [idx] /\
       (idx ∉ lru_list_ (pool s')) /\
       forall other, page_table_ (pool s') !! other = None ->
                     0 <= other -> other + PAGE_SIZE <= file_size_ (disk s) ->
         exists s'', FetchPage s' other = Ok (Some idx, s'') /\ disk s'' = disk s).
Proof.
  intros Hinv. split; [|split].
  - intros Ht. unfold DeletePage. now rewrite Ht.
  - intros idx f [Ht Hf] Hpin. unfold DeletePage, frame_at. rewrite Ht, Hf.
    cbn [mbind result_bind bindR]. now replace (0 <? pin_count f) with true by lia.
  - intros idx f [Ht Hf] Hpin.
    assert (Hlt : (idx < length (frames_ (pool s)))%nat) by (eapply lookup_lt, Hf).
    assert (Hrun : DeletePage s page
                   = Ok (true,
                         with_pool s
                           (set_free_list
                              (set_page_table
                                 (set_frame
                                    (set_lru_list (pool s) (lru_erase idx (lru_list_ (pool s))))
                                    idx (mkFrame INVALID_PAGE_ID 0 false (data f)))
                                 (delete page (page_table_ (pool s))))
                              (free_list_ (pool s) ++ [idx])))).
    { unfold DeletePage, frame_at. rewrite Ht, Hf. cbn [mbind result_bind bindR].
      now replace (0 <? pin_count f) with false by lia. }
    eexists. split; [exact Hrun|]. cbn [with_pool pool disk wal].
    split; [reflexivity|]. split; [reflexivity|]. split; [reflexivity|].
    split; [reflexivity|]. split.
    + cbn [set_free_list set_page_table set_frame set_frames set_lru_list lru_list_].
      apply lru_erase_gone. apply Hinv.
    + intros other Ho H0 H1.
      destruct (FetchPage_free_eval
                  (with_pool s
                     (set_free_list
                        (set_page_table
                           (set_frame (set_lru_list (pool s) (lru_erase idx (lru_list_ (pool s))))
                                      idx (mkFrame INVALID_PAGE_ID 0 false (data f)))
                           (delete page (page_table_ (pool s))))
                        (free_list_ (pool s) ++ [idx])))
                  other idx (free_list_ (pool s)) (mkFrame INVALID_PAGE_ID 0 false (data f)))
        as (s'' & Hf'' & Hd'' & _); auto.
      { cbn [with_pool pool set_free_list set_page_table set_frame set_frames set_lru_list frames_].
        now apply list_lookup_insert_eq. }
      exists s''. split; [exact Hf'' | exact Hd''].
Qed.

Lemma DeletePage_drops_the_frame_witness :
  (page_table_ (pool two_frame_world) !! 8192 = None ->
   DeletePage two_frame_world 8192 = Ok (true, two_frame_world)) /\
  (forall idx f, resident (pool two_frame_world) 8192 idx f -> 0 < pin_count f ->
                 DeletePage two_frame_world 8192 = Ok (false, two_frame_world)) /\
  (forall idx f, resident (pool two_frame_world) 8192 idx f -> pin_count f = 0 ->
     exists s',
       DeletePage two_frame_world 8192 = Ok (true, s') /\
       disk s' = disk two_frame_world /\ wal s' = wal two_frame_world /\
       page_table_ (pool s') = delete 8192 (page_table_ (pool two_frame_world)) /\
       free_list_ (pool s') = free_list_ (pool two_frame_world) ++ [idx] /\
       (idx ∉ lru_list_ (pool s')) /\
       forall other, page_table_ (pool s') !! other = None ->
                     0 <= other -> other + PAGE_SIZE <= file_size_ (disk two_frame_world) ->
         exists s'', FetchPage s' other = Ok (Some idx, s'') /\ disk s'' = disk two_frame_world).
Proof. exact (DeletePage_drops_the_frame two_frame_world 8192 two_frame_inv). Defined.

(** ** Flushing *)

Lemma flush_frame_eval (s s' : world) (pid : Z) (idx : nat) (f : PageFrame) :
  frames_ (pool s) !! idx = Some f -> flush_frame s pid idx = Ok s' ->
  frames_ (pool s') = <[idx := clean f]> (frames_ (pool s)) /\
  page_table_ (pool s') = page_table_ (pool s) /\
  lru_list_ (pool s') = lru_list_ (pool s) /\ free_list_ (pool s') = free_list_ (pool s) /\
  file_size_ (disk s') = file_size_ (disk s) /\
  (forall q, q + PAGE_SIZE <= pid \/ pid + PAGE_SIZE <= q ->
             disk_page (disk s') q = disk_page (disk s) q) /\
  (dirty f = true -> disk_page (disk s') pid = frame_bytes f).
Proof.
  intros Hf. unfold flush_frame, frame_at. rewrite Hf. cbn [mbind result_bind bindR].
  destruct (dirty f) eqn:Ed.
  - destruct (PageData (disk s) pid) as [pg| | | |] eqn:Ep; cbn [mbind result_bind bindR];
      try discriminate.
    assert (pg = pid) as ->.
    { unfold PageData in Ep. destruct (_ || _); [discriminate | now injection Ep]. }
    intros [= <-]. cbn [pool disk set_frame set_frames frames_ page_table_ lru_list_ free_list_
                        with_mapped file_size_].
    repeat split.
    + intros q Hq. unfold disk_page. cbn [mapped_]. apply mem_read_ext. intros a Ha.
      rewrite Z2Nat.id in Ha by (unfold PAGE_SIZE; lia). unfold mem_copy. cbn [with_mapped mapped_].
      destruct (Z.leb_spec pid a); destruct (Z.ltb_spec a (pid + PAGE_SIZE)); cbn [andb];
        try reflexivity; lia.
    + intros _. unfold disk_page, frame_bytes. cbn [mapped_]. apply disk_bytes_copy.
  - intros [= <-]. split; [|repeat split; try discriminate].
    symmetry. apply list_insert_id. rewrite Hf. f_equal. unfold clean. rewrite <- Ed.
    now destruct f.
Qed.

Lemma flush_loop_fails (l : list (Z * nat)) (r : result world) (s' : world) :
  is_ok r = false ->
  foldl (fun acc '(pid, idx) => s ← acc; flush_frame s pid idx) r l <> Ok s'.
Proof.
  revert r. induction l as [|[pid idx] l IH]; intros r Hr; cbn [foldl].
  - intros ->. discriminate.
  - apply IH. destruct r; try discriminate; reflexivity.
Qed.

(** The loop of [FlushAllPages] over entries with distinct pages, aligned to
    the page size, in distinct frames. *)
Lemma flush_loop_spec (l : list (Z * nat)) :
  forall (acc s' : world),
    NoDup (map fst l) -> NoDup (map snd l) ->
    Forall (fun e => fst e mod PAGE_SIZE = 0) l ->
    Forall (fun e => is_Some (frames_ (pool acc) !! snd e)) l ->
    foldl (fun acc '(pid, idx) => s ← acc; flush_frame s pid idx) (Ok acc) l = Ok s' ->
    page_table_ (pool s') = page_table_ (pool acc) /\
    lru_list_ (pool s') = lru_list_ (pool acc) /\ free_list_ (pool s') = free_list_ (pool acc) /\
    file_size_ (disk s') = file_size_ (disk acc) /\
    length (frames_ (pool s')) = length (frames_ (pool acc)) /\
    (forall i, i ∉ map snd l -> frames_ (pool s') !! i = frames_ (pool acc) !! i) /\
    (forall q, q mod PAGE_SIZE = 0 -> q ∉ map fst l ->
               disk_page (disk s') q = disk_page (disk acc) q) /\
    (forall pid idx f, (pid, idx) ∈ l -> frames_ (pool acc) !! idx = Some f ->
                       frames_ (pool s') !! idx = Some (clean f) /\
                       (dirty f = true -> disk_page (disk s') pid = frame_bytes f)).
Proof.
  induction l as [|[pid idx] l IH]; intros acc s' Hk Hi Hal Hfr; cbn [foldl].
  - intros [= <-]. do 7 (split; [auto|]). intros p i f H. apply elem_of_nil in H. contradiction.
  - cbn [map fst snd] in Hk, Hi. apply NoDup_cons in Hk, Hi.
    destruct Hk as [Hk1 Hk], Hi as [Hi1 Hi].
    apply Forall_cons in Hal, Hfr. destruct Hal as [Ha Hal], Hfr as [[f0 Hf0] Hfr].
    cbn [fst snd] in Ha, Hf0. cbn [mbind result_bind bindR].
    destruct (flush_frame acc pid idx) as [s1| | | |] eqn:E;
      try (intros H; exfalso; revert H; now apply flush_loop_fails).
    destruct (flush_frame_eval acc s1 pid idx f0 Hf0 E) as (Ef & Et & El & Efree & Efs & Eo & Ed).
    intros Hrun.
    destruct (IH s1 s' Hk Hi Hal) with (2 := Hrun)
      as (Ht' & Hl' & Hfree' & Hfs' & Hlen' & Hoth' & Hdisk' & Hent').
    { eapply Forall_impl; [exact Hfr|]. intros e [g Hg]. rewrite Ef.
      destruct (Nat.eq_dec (snd e) idx) as [->|Hne].
      - exists (clean f0). apply list_lookup_insert_eq. eapply lookup_lt, Hf0.
      - exists g. now rewrite list_lookup_insert_ne by auto. }
    assert (Hlt : (idx < length (frames_ (pool acc)))%nat) by (eapply lookup_lt, Hf0).
    split; [congruence|]. split; [congruence|]. split; [congruence|]. split; [congruence|].
    split; [rewrite Hlen', Ef; apply length_insert|]. split; [|split].
    + intros i Hni. cbn [map snd] in Hni. apply not_elem_of_cons in Hni. destruct Hni as [Hne Hni].
      rewrite (Hoth' i Hni), Ef. now apply list_lookup_insert_ne.
    + intros q Hq Hnq. cbn [map fst] in Hnq. apply not_elem_of_cons in Hnq.
      destruct Hnq as [Hne Hnq]. rewrite (Hdisk' q Hq Hnq). apply Eo.
      unfold PAGE_SIZE in *.
      assert (Hm : (q - pid) mod 4096 = 0).
      { rewrite Zminus_mod, Hq, Ha. reflexivity. }
      apply Z.mod_divide in Hm; [|lia]. destruct Hm as [k Hk']. lia.
    + intros p i f Hin Hf. apply elem_of_cons in Hin. destruct Hin as [[= -> ->]|Hin].
      * rewrite Hf0 in Hf. injection Hf as <-.
        rewrite (Hoth' idx Hi1), Ef. split; [now apply list_lookup_insert_eq|].
        intros Hd. rewrite (Hdisk' pid Ha Hk1). now apply Ed.
      * assert (Hne : i <> idx).
        { intros ->. apply Hi1. apply list_elem_of_fmap. now exists (p, idx). }
        apply (Hent' p i f Hin). rewrite Ef. now rewrite list_lookup_insert_ne by auto.
Qed.

(** X29.  [FlushAllPages] writes every modified page and leaves no frame
    modified.  When it returns, every resident page is still in its frame
    with the same bytes and pin count, the frame is marked clean, and (the
    resident pages lying on page boundaries) the file holds the bytes of
    every frame that was modified; the page table and the two lists are
    untouched. *)
Theorem FlushAllPages_writes_every_dirty_page (s s' : world) :
  pool_inv (pool s) ->
  (forall page idx, page_table_ (pool s) !! page = Some idx -> page mod PAGE_SIZE = 0) ->
  FlushAllPages s = Ok s' ->
  page_table_ (pool s') = page_table_ (pool s) /\
  lru_list_ (pool s') = lru_list_ (pool s) /\ free_list_ (pool s') = free_list_ (pool s) /\
  forall page idx f,
    resident (pool s) page idx f ->
    resident (pool s') page idx (clean f) /\
    (dirty f = true -> disk_page (disk s') page = frame_bytes f).
Proof.
  intros Hinv Hal. unfold FlushAllPages.
  destruct (foldl _ _ _) as [s1| | | |] eqn:E; cbn [mbind result_bind bindR]; try discriminate.
  intros [= <-]. cbn [with_disk pool disk]. unfold Sync.
  set (l := map_to_list (page_table_ (pool s))) in *.
  assert (Hl : forall pid idx, (pid, idx) ∈ l <-> page_table_ (pool s) !! pid = Some idx).
  { intros pid idx. apply elem_of_map_to_list. }
  pose proof Hinv as [H1 _ _ _ _].
  destruct (flush_loop_spec l s s1) as (Ht & Hlr & Hfr & _ & _ & _ & _ & Hent); [| | | |exact E|].
  - apply NoDup_fst_map_to_list.
  - apply NoDup_fmap_2_strong; [|apply NoDup_map_to_list].
    intros [p1 i1] [p2 i2] Hp1 Hp2 Ei. cbn [snd] in Ei. subst i2.
    apply Hl in Hp1, Hp2.
    destruct (H1 p1 i1 Hp1) as (g1 & Hg1 & <- & _). destruct (H1 p2 i1 Hp2) as (g2 & Hg2 & <- & _).
    rewrite Hg1 in Hg2. now injection Hg2 as <-.
  - apply Forall_forall. intros [pid idx] Hin. apply Hl in Hin. exact (Hal pid idx Hin).
  - apply Forall_forall. intros [pid idx] Hin. apply Hl in Hin.
    destruct (H1 pid idx Hin) as (g & Hg & _). now exists g.
  - split; [exact Ht|]. split; [exact Hlr|]. split; [exact Hfr|].
    intros page idx f [Hpt Hf]. destruct (Hent page idx f) as [Hc Hd]; [now apply Hl | exact Hf|].
    split; [split; [now rewrite Ht | exact Hc] | exact Hd].
Qed.

Lemma two_frame_aligned (page : Z) (idx : nat) :
  page_table_ (pool two_frame_world) !! page = Some idx -> page mod PAGE_SIZE = 0.
Proof. intros H. apply two_frame_table in H. destruct H as [[-> _]|[-> _]]; reflexivity. Qed.

Lemma two_frame_flush : exists s', FlushAllPages two_frame_world = Ok s'.
Proof.
  unfold FlushAllPages. eexists.
  replace (map_to_list (page_table_ (pool two_frame_world))) with [(8192, 1%nat); (4096, 0%nat)]
    by (vm_compute; reflexivity).
  cbn [foldl]. unfold flush_frame, frame_at. cbn. reflexivity.
Qed.

Lemma FlushAllPages_writes_every_dirty_page_witness :
  exists s', FlushAllPages two_frame_world = Ok s' /\
    page_table_ (pool s') = page_table_ (pool two_frame_world) /\
    lru_list_ (pool s') = lru_list_ (pool two_frame_world) /\
    free_list_ (pool s') = free_list_ (pool two_frame_world) /\
    forall page idx f,
      resident (pool two_frame_world) page idx f ->
      resident (pool s') page idx (clean f) /\
      (dirty f = true -> disk_page (disk s') page = frame_bytes f).
Proof.
  destruct two_frame_flush as [s' Hs]. exists s'. split; [exact Hs|].
  exact (FlushAllPages_writes_every_dirty_page two_frame_world s' two_frame_inv
           two_frame_aligned Hs).
Defined.

End PoolProps.


(** * The pool under the tree: one step of the tree is one step of the pool *)

Module PoolSim.
Import Tree TreeSpec PagePool Pooled PooledSpec.
Import StateFacts ReachFacts PoolProps.

Ltac psimp :=
  unfold mbind, M_bind, bind, modify_pool, frame_at, ret, gets, with_pool, with_core, set_frame;
  cbn [pool_ core frames_ page_table_ lru_list_ free_list_ hits_ misses_ pool_size_
       set_frames set_page_table set_lru_list set_free_list set_hits set_misses].

Lemma prun_bind {A B : Type} (m : M A) (k : A -> M B) (s s' : BPlusTree) (a : A) :
  m s = (Ok a, s') -> (m ≫= k) s = k a s'.
Proof. intros H. unfold mbind, M_bind, bind. now rewrite H. Qed.

Lemma length_lru_erase (i : nat) (l : list nat) :
  i ∈ l -> S (length (Pool.lru_erase i l)) = length l.
Proof.
  induction l as [|a l IH]; cbn [Pool.lru_erase length]; intros H.
  - apply elem_of_nil in H. contradiction.
  - destruct (Nat.eqb_spec a i) as [->|Hne]; [reflexivity|].
    apply elem_of_cons in H. destruct H as [->|H]; [contradiction|].
    cbn [length]. now rewrite IH.
Qed.

Lemma page_at_not_free (t : Tree.BPlusTree) (off next : Z) :
  page_at t off = PFree next -> pages t !! off = Some (PFree next).
Proof. unfold page_at. destruct (pages t !! off); cbn; [congruence | discriminate]. Qed.

Lemma page_at_set_ne (c : Tree.BPlusTree) (q off : Z) (pg : page) :
  off <> q -> page_at (set_pages c (<[q := pg]> (pages c))) off = page_at c off.
Proof. intros H. unfold page_at. cbn [pages set_pages]. now rewrite lookup_insert_ne by auto. Qed.

Lemma page_at_set_eq (c : Tree.BPlusTree) (q : Z) (pg : page) :
  page_at (set_pages c (<[q := pg]> (pages c))) q = pg.
Proof. unfold page_at. cbn [pages set_pages]. now rewrite lookup_insert_eq. Qed.

(** ** The page table names a frame for one page only *)

Lemma table_inj (n : nat) (pins : list Z) (s : BPlusTree) (p q : Z) (idx : nat) :
  pool_ok n pins s ->
  page_table_ (pool_ s) !! p = Some idx -> page_table_ (pool_ s) !! q = Some idx -> p = q.
Proof.
  intros Hok Hp Hq.
  destruct (po_table _ _ _ Hok p idx Hp) as (f & Hf & <- & _).
  destruct (po_table _ _ _ Hok q idx Hq) as (g & Hg & <- & _).
  congruence.
Qed.

Lemma pinned_frame (n : nat) (pins : list Z) (s : BPlusTree) (p : Z) :
  pool_ok n pins s -> p ∈ pins ->
  exists idx f, page_table_ (pool_ s) !! p = Some idx /\ frames_ (pool_ s) !! idx = Some f /\
                page_id f = p /\ pin_count f = 1 /\ (idx ∉ lru_list_ (pool_ s)).
Proof.
  intros Hok Hin. destruct (po_pinned _ _ _ Hok p Hin) as [idx Hidx].
  destruct (po_table _ _ _ Hok p idx Hidx) as (f & Hf & Hid & Hpin & _).
  exists idx, f. repeat split; auto. intros Hl.
  destruct (po_lru _ _ _ Hok idx Hl) as (g & Hg & _ & Hnp).
  rewrite Hf in Hg. injection Hg as <-. rewrite Hid in Hnp. contradiction.
Qed.

(** ** A frame is given up *)

(** The candidate [idx] gives up its page [q]: the frame is as good as
    free.  The file may have changed at [q]. *)
Lemma give_up_ok (n : nat) (pins : list Z) (s : BPlusTree) (idx : nat) (f f1 : PageFrame)
                 (c1 : Tree.BPlusTree) :
  pool_ok n pins s -> idx ∈ lru_list_ (pool_ s) -> frames_ (pool_ s) !! idx = Some f ->
  meta_next c1 = meta_next (core s) -> file_size c1 = file_size (core s) ->
  (forall x, x <> page_id f -> page_at c1 x = page_at (core s) x) ->
  let s1 := mkPooled c1
              (set_frame (set_lru_list
                            (set_page_table (pool_ s) (delete (page_id f) (page_table_ (pool_ s))))
                            (Pool.lru_erase idx (lru_list_ (pool_ s)))) idx f1) in
  pool_ok n pins (put_back s1 idx) /\
  (forall x, x <> page_id f -> pview s1 x = pview s x) /\
  pview s1 (page_id f) = page_at c1 (page_id f) /\
  (forall off i, page_table_ (pool_ s1) !! off = Some i -> page_table_ (pool_ s) !! off = Some i) /\
  page_table_ (pool_ s1) !! page_id f = None /\
  is_Some (frames_ (pool_ s1) !! idx).
Proof.
  intros Hok Hin Hf M5 M3 Hc1 s1.
  destruct (po_lru _ _ _ Hok idx Hin) as (f' & Hf' & Ht & Hnp).
  rewrite Hf in Hf'. injection Hf' as <-.
  set (q := page_id f) in *.
  pose proof (po_lru_nodup _ _ _ Hok) as Hnd.
  assert (Hother : forall p i, page_table_ (pool_ s) !! p = Some i -> p <> q -> i <> idx).
  { intros p i Hp Hne ->. apply Hne. eapply table_inj; eauto. }
  split; [|split; [|split; [|split; [|split]]]].
  - constructor; cbn [put_back with_pool pool_ core s1 set_frame set_frames set_lru_list
                        set_page_table set_free_list frames_ page_table_ lru_list_ free_list_].
    + rewrite length_insert. apply (po_size _ _ _ Hok).
    + pose proof (po_count _ _ _ Hok) as Hc. pose proof (length_lru_erase idx _ Hin) as Hl.
      rewrite length_app. cbn [length]. lia.
    + apply (po_pins _ _ _ Hok).
    + intros p i Hp. apply lookup_delete_Some in Hp. destruct Hp as [Hne Hp].
      destruct (po_table _ _ _ Hok p i Hp) as (g & Hg & Hid & Hpin & Hunp).
      assert (Hi : i <> idx) by (eapply Hother; eauto).
      exists g. split; [now rewrite list_lookup_insert_ne by auto|]. split; [exact Hid|].
      split; [exact Hpin|]. intros Hnp'. destruct (Hunp Hnp') as [Hz Hl]. split; [exact Hz|].
      now apply lru_erase_other.
    + intros p Hp. destruct (po_pinned _ _ _ Hok p Hp) as [i Hi]. exists i.
      apply lookup_delete_Some. split; [|exact Hi]. intros <-. contradiction.
    + intros i Hi. pose proof (lru_erase_sub _ _ _ Hi) as Hi'.
      destruct (po_lru _ _ _ Hok i Hi') as (g & Hg & Htg & Hnpg).
      assert (Hne : i <> idx) by (intros ->; revert Hi; now apply lru_erase_gone).
      exists g. split; [now rewrite list_lookup_insert_ne by auto|]. split; [|exact Hnpg].
      apply lookup_delete_Some. split; [|exact Htg]. intros E. apply Hne.
      rewrite <- E in Htg. congruence.
    + now apply lru_erase_NoDup.
    + intros i Hi. apply elem_of_app in Hi. destruct Hi as [Hi|Hi].
      * destruct (po_free _ _ _ Hok i Hi) as [Hlt Hno]. split; [exact Hlt|].
        intros p Hp. apply lookup_delete_Some in Hp. destruct Hp as [_ Hp]. now apply (Hno p).
      * apply list_elem_of_singleton in Hi. subst i. split.
        { rewrite <- (po_size _ _ _ Hok). eapply lookup_lt, Hf. }
        intros p Hp. apply lookup_delete_Some in Hp. destruct Hp as [Hne Hp].
        exact (Hother p idx Hp (not_eq_sym Hne) eq_refl).
    + apply NoDup_app. split; [apply (po_free_nodup _ _ _ Hok)|]. split; [|apply NoDup_singleton].
      intros i Hi Hi'. apply list_elem_of_singleton in Hi'. subst i.
      destruct (po_free _ _ _ Hok idx Hi) as [_ Hno]. now apply (Hno q).
    + intros p i g Hp Hg. apply lookup_delete_Some in Hp. destruct Hp as [Hne Hp].
      assert (Hi : i <> idx) by (eapply Hother; eauto).
      rewrite list_lookup_insert_ne in Hg by auto. rewrite M5.
      eapply (po_live _ _ _ Hok); eauto.
    + intros p i g Hp Hg Hd. apply lookup_delete_Some in Hp. destruct Hp as [Hne Hp].
      assert (Hi : i <> idx) by (eapply Hother; eauto).
      rewrite list_lookup_insert_ne in Hg by auto. rewrite Hc1 by auto.
      eapply (po_clean _ _ _ Hok); eauto.
    + rewrite M5, M3. apply (po_frontier _ _ _ Hok).
  - intros x Hne. unfold pview. cbn [pool_ core s1 set_frame set_frames set_lru_list set_page_table
                                       frames_ page_table_].
    rewrite lookup_delete_ne by auto.
    destruct (page_table_ (pool_ s) !! x) as [i|] eqn:Ei; [|now apply Hc1].
    assert (Hi : i <> idx) by (eapply Hother; eauto).
    rewrite list_lookup_insert_ne by auto.
    destruct (frames_ (pool_ s) !! i); [reflexivity | now apply Hc1].
  - unfold pview. cbn [pool_ core s1 set_frame set_frames set_lru_list set_page_table
                         frames_ page_table_].
    now rewrite lookup_delete_eq.
  - intros off i Hp. cbn [pool_ s1 set_frame set_frames set_lru_list set_page_table page_table_] in Hp.
    apply lookup_delete_Some in Hp. tauto.
  - cbn [pool_ s1 set_frame set_frames set_lru_list set_page_table page_table_].
    apply lookup_delete_eq.
  - cbn [pool_ s1 set_frame set_frames frames_]. apply lookup_lt_is_Some.
    rewrite length_insert. eapply lookup_lt, Hf.
Qed.

(** The eviction of the candidate [idx]: the page it held is in the file. *)
Lemma EvictFrame_put_back (n : nat) (pins : list Z) (s : BPlusTree) (idx : nat) :
  pool_ok n pins s -> idx ∈ lru_list_ (pool_ s) ->
  exists s1,
    EvictFrame idx s = (Ok tt, s1) /\
    pool_ok n pins (put_back s1 idx) /\
    (forall off, pview s1 off = pview s off) /\
    (forall off i, page_table_ (pool_ s1) !! off = Some i -> page_table_ (pool_ s) !! off = Some i) /\
    is_Some (frames_ (pool_ s1) !! idx) /\
    same_members (core s) (core s1).
Proof.
  intros Hok Hin.
  destruct (po_lru _ _ _ Hok idx Hin) as (f & Hf & Ht & Hnp).
  destruct (po_live _ _ _ Hok _ _ _ Ht Hf) as (Hb & Hbelow & Hnf).
  pose proof (page_boundary_ge _ Hb) as Hge.
  pose proof (po_frontier _ _ _ Hok) as Hfront.
  set (q := page_id f) in *.
  set (c1 := if dirty f then set_pages (core s) (<[q := data f]> (pages (core s))) else core s).
  set (d1 := if dirty f then false else dirty f).
  set (f1 := mkFrame INVALID_PAGE_ID 0 d1 (data f)).
  assert (Hc1 : forall off, off <> q -> page_at c1 off = page_at (core s) off).
  { intros off Hne. unfold c1. destruct (dirty f); [now apply page_at_set_ne | reflexivity]. }
  assert (Hc1q : page_at c1 q = data f).
  { unfold c1. destruct (dirty f) eqn:Ed; [apply page_at_set_eq|].
    symmetry. eapply (po_clean _ _ _ Hok); eauto. }
  assert (Hmem : same_members (core s) c1).
  { unfold c1, same_members. destruct (dirty f); repeat split. }
  destruct (give_up_ok n pins s idx f f1 c1 Hok Hin Hf) as (H1 & H2 & H3 & H4 & _ & H6);
    [apply Hmem | apply Hmem | exact Hc1 |].
  exists (mkPooled c1
            (set_frame (set_lru_list
                          (set_page_table (pool_ s) (delete q (page_table_ (pool_ s))))
                          (Pool.lru_erase idx (lru_list_ (pool_ s)))) idx f1)).
  split; [|split; [exact H1|split; [|split; [exact H4|split; [exact H6|exact Hmem]]]]].
  - unfold EvictFrame. rewrite (prun_bind _ _ s s f) by (unfold frame_at; now rewrite Hf).
    fold q. assert (Hq : (q =? INVALID_PAGE_ID) = false).
    { apply Z.eqb_neq. unfold INVALID_PAGE_ID, PAGE_SIZE in *. lia. }
    rewrite Hq. cbn [negb]. rewrite andb_true_r. unfold c1, d1, f1.
    destruct (dirty f) eqn:Ed.
    + unfold mbind, M_bind, bind, write_page.
      destruct (Z.ltb_spec q 0); [unfold PAGE_SIZE in *; lia|].
      destruct (Z.ltb_spec (file_size (core s)) (q + PAGE_SIZE)); [lia|].
      cbn [orb]. rewrite Hb. reflexivity.
    + unfold mbind, M_bind, bind. reflexivity.
  - intros off. destruct (Z.eq_dec off q) as [->|Hne]; [|now apply H2].
    fold q in H3. rewrite H3, Hc1q. unfold pview. now rewrite Ht, Hf.
Qed.

(** The invariant looks at the frames, the page table, the two lists and the
    file only. *)
Lemma pool_ok_same (n : nat) (pins : list Z) (s s' : BPlusTree) :
  frames_ (pool_ s') = frames_ (pool_ s) -> page_table_ (pool_ s') = page_table_ (pool_ s) ->
  lru_list_ (pool_ s') = lru_list_ (pool_ s) -> free_list_ (pool_ s') = free_list_ (pool_ s) ->
  core s' = core s ->
  pool_ok n pins s -> pool_ok n pins s'.
Proof.
  intros E1 E2 E3 E4 E5 [H1 H2 H3 H4 H5 H6 H7 H8 H9 H10 H11 H12].
  constructor; rewrite ?E1, ?E2, ?E3, ?E4, ?E5; assumption.
Qed.

Lemma pview_same (s s' : BPlusTree) (off : Z) :
  frames_ (pool_ s') = frames_ (pool_ s) -> page_table_ (pool_ s') = page_table_ (pool_ s) ->
  core s' = core s -> pview s' off = pview s off.
Proof. intros E1 E2 E3. unfold pview. now rewrite E1, E2, E3. Qed.

(** The frame for a page that is not resident. *)
Lemma obtain_frame_ok (n : nat) (pins : list Z) (s : BPlusTree) :
  pool_ok n pins s -> (length pins < n)%nat ->
  exists idx s1,
    obtain_frame s = (Ok (Some idx), s1) /\
    pool_ok n pins (put_back s1 idx) /\
    (forall off, pview s1 off = pview s off) /\
    (forall off i, page_table_ (pool_ s1) !! off = Some i -> page_table_ (pool_ s) !! off = Some i) /\
    is_Some (frames_ (pool_ s1) !! idx) /\
    same_members (core s) (core s1).
Proof.
  intros Hok Hlen. unfold obtain_frame.
  rewrite (prun_bind _ _ s s (pool_ s)) by reflexivity.
  destruct (last (free_list_ (pool_ s))) as [idx|] eqn:El.
  - (* a free frame *)
    apply last_split in El.
    set (s1 := with_pool s (set_free_list (pool_ s) (removelast (free_list_ (pool_ s))))).
    exists idx, s1. split; [reflexivity|].
    assert (Hin : idx ∈ free_list_ (pool_ s))
      by (rewrite El; apply elem_of_app; right; apply list_elem_of_here).
    split; [|split; [|split; [|split; [|unfold same_members; tauto]]]].
    + eapply pool_ok_same; [| | | | |exact Hok]; try reflexivity.
      cbn [put_back s1 with_pool pool_ set_free_list free_list_]. now rewrite <- El.
    + intros off. now apply pview_same.
    + intros off i H. exact H.
    + apply lookup_lt_is_Some. unfold s1. cbn [with_pool pool_ set_free_list frames_].
      rewrite (po_size _ _ _ Hok).
      now apply (po_free _ _ _ Hok).
  - (* a victim *)
    assert (Hfree : free_list_ (pool_ s) = []).
    { destruct (free_list_ (pool_ s)) as [|a l] eqn:E; [reflexivity|].
      exfalso. revert El. clear. revert a. induction l as [|b l IH]; intros a; [discriminate|].
      change (last (a :: b :: l)) with (last (b :: l)). apply IH. }
    unfold FindVictim. destruct (lru_list_ (pool_ s)) as [|idx rest] eqn:Elru.
    { exfalso. pose proof (po_count _ _ _ Hok) as Hc. rewrite Hfree, Elru in Hc.
      cbn [length] in Hc. lia. }
    cbn [head].
    assert (Hin : idx ∈ lru_list_ (pool_ s)) by (rewrite Elru; apply list_elem_of_here).
    destruct (EvictFrame_put_back n pins s idx Hok Hin)
      as (s1 & Hrun & Hok1 & Hpv & Hsub & Hfr & Hmem).
    exists idx, s1. split; [now rewrite (prun_bind _ _ _ _ _ Hrun)|]. tauto.
Qed.

(** The page [pid] goes into the frame that was given up. *)
Lemma install_ok (n : nat) (pins : list Z) (s1 : BPlusTree) (idx : nat) (pid : Z)
                 (d : bool) (pg : page) :
  pool_ok n pins (put_back s1 idx) -> page_table_ (pool_ s1) !! pid = None ->
  page_boundary pid = true -> pid + PAGE_SIZE <= meta_next (core s1) -> not_free pg ->
  (d = false -> pg = page_at (core s1) pid) ->
  pool_ok n (pid :: pins) (install s1 idx pid d pg) /\
  pview (install s1 idx pid d pg) pid = pg /\
  (forall off, off <> pid -> pview (install s1 idx pid d pg) off = pview s1 off).
Proof.
  intros Hok Hnone Hb Hbelow Hnf Hclean.
  assert (Hfree : idx ∈ free_list_ (pool_ (put_back s1 idx))).
  { cbn. apply elem_of_app. right. apply list_elem_of_here. }
  destruct (po_free _ _ _ Hok idx Hfree) as [Hlt Hno]. cbn in Hno.
  assert (Hnp : pid ∉ pins).
  { intros Hin. destruct (po_pinned _ _ _ Hok pid Hin) as [i Hi]. cbn in Hi. congruence. }
  assert (Hlen : (idx < length (frames_ (pool_ s1)))%nat).
  { pose proof (po_size _ _ _ Hok) as H. cbn in H. lia. }
  assert (Hold : forall p i, page_table_ (pool_ s1) !! p = Some i -> p <> pid /\ i <> idx).
  { intros p i Hp. split; [intros ->; congruence|]. intros ->. now apply (Hno p). }
  split; [|split].
  - constructor; cbn [install put_back with_pool pool_ core set_frame set_frames set_page_table
                        set_free_list frames_ page_table_ lru_list_ free_list_].
    + rewrite length_insert. pose proof (po_size _ _ _ Hok) as H. exact H.
    + pose proof (po_count _ _ _ Hok) as H. cbn in H. rewrite length_app in H. cbn [length] in *. lia.
    + constructor; [exact Hnp | apply (po_pins _ _ _ Hok)].
    + intros p i Hp. apply lookup_insert_Some in Hp. destruct Hp as [[<- <-]|[Hne Hp]].
      * exists (mkFrame pid 1 d pg). split; [now apply list_lookup_insert_eq|].
        split; [reflexivity|]. split; [reflexivity|]. intros H. exfalso. apply H, list_elem_of_here.
      * destruct (Hold p i Hp) as [_ Hi].
        destruct (po_table _ _ _ Hok p i Hp) as (g & Hg & Hid & Hpin & Hunp). cbn in Hg, Hunp.
        exists g. split; [now rewrite list_lookup_insert_ne by auto|]. split; [exact Hid|].
        split.
        { intros Hin. apply elem_of_cons in Hin. destruct Hin as [->|Hin]; [congruence | auto]. }
        intros Hnin. apply Hunp. intros Hin. apply Hnin. now apply list_elem_of_further.
    + intros p Hin. apply elem_of_cons in Hin. destruct Hin as [->|Hin].
      * rewrite lookup_insert_eq. eauto.
      * destruct (po_pinned _ _ _ Hok p Hin) as [i Hi]. cbn in Hi.
        destruct (Hold p i Hi) as [Hne _]. rewrite lookup_insert_ne by auto. eauto.
    + intros i Hi. destruct (po_lru _ _ _ Hok i Hi) as (g & Hg & Htg & Hnpg). cbn in Hg, Htg.
      destruct (Hold _ _ Htg) as [Hne Hi'].
      exists g. split; [now rewrite list_lookup_insert_ne by auto|].
      split; [now rewrite lookup_insert_ne by auto|].
      intros Hin. apply elem_of_cons in Hin. destruct Hin as [E|Hin]; [congruence | contradiction].
    + apply (po_lru_nodup _ _ _ Hok).
    + intros i Hi.
      assert (Hi' : i ∈ free_list_ (pool_ (put_back s1 idx))).
      { cbn. apply elem_of_app. now left. }
      destruct (po_free _ _ _ Hok i Hi') as [Hlt' Hno']. cbn in Hno'. split; [exact Hlt'|].
      intros p Hp. apply lookup_insert_Some in Hp. destruct Hp as [[<- <-]|[Hne Hp]].
      * pose proof (po_free_nodup _ _ _ Hok) as Hnd. cbn in Hnd.
        apply NoDup_app in Hnd. destruct Hnd as (_ & Hnd & _). apply (Hnd idx Hi), list_elem_of_here.
      * now apply (Hno' p).
    + pose proof (po_free_nodup _ _ _ Hok) as Hnd. cbn in Hnd. apply NoDup_app in Hnd. tauto.
    + intros p i g Hp Hg. apply lookup_insert_Some in Hp. destruct Hp as [[<- <-]|[Hne Hp]].
      * rewrite list_lookup_insert_eq in Hg by exact Hlen. injection Hg as <-. cbn [data]. tauto.
      * destruct (Hold p i Hp) as [_ Hi]. rewrite list_lookup_insert_ne in Hg by auto.
        apply (po_live _ _ _ Hok p i g); assumption.
    + intros p i g Hp Hg Hd. apply lookup_insert_Some in Hp. destruct Hp as [[<- <-]|[Hne Hp]].
      * rewrite list_lookup_insert_eq in Hg by exact Hlen. injection Hg as <-. cbn [data dirty] in *.
        auto.
      * destruct (Hold p i Hp) as [_ Hi]. rewrite list_lookup_insert_ne in Hg by auto.
        apply (po_clean _ _ _ Hok p i g); assumption.
    + apply (po_frontier _ _ _ Hok).
  - unfold pview. cbn [install with_pool pool_ core set_frame set_frames set_page_table frames_
                         page_table_].
    rewrite lookup_insert_eq, list_lookup_insert_eq by exact Hlen. reflexivity.
  - intros off Hne. unfold pview. cbn [install with_pool pool_ core set_frame set_frames
                                        set_page_table frames_ page_table_].
    rewrite lookup_insert_ne by auto.
    destruct (page_table_ (pool_ s1) !! off) as [i|] eqn:Ei; [|reflexivity].
    destruct (Hold off i Ei) as [_ Hi]. now rewrite list_lookup_insert_ne by auto.
Qed.


(** ** [PinPage] *)

Lemma PinPage_inv (t t' : Tree.BPlusTree) (off : Z) (pg : page) :
  Tree.PinPage off t = (Ok pg, t') ->
  t' = t /\ pg = page_at t off /\ 0 <= off /\ off + PAGE_SIZE <= file_size t /\
  page_boundary off = true.
Proof.
  unfold Tree.PinPage. destruct (Z.ltb_spec off 0); [discriminate|].
  destruct (Z.ltb_spec (file_size t) (off + PAGE_SIZE)); [discriminate|].
  destruct (page_boundary off); [|discriminate]. intros [= <- <-]. repeat split; auto.
Qed.

Lemma shows_members (n : nat) (pins : list Z) (s : BPlusTree) (t : Tree.BPlusTree) (c : Tree.BPlusTree) :
  shows n pins s t -> same_members (core s) c ->
  Tree.root_offset_ c = Tree.root_offset_ t /\ Tree.next_page_offset_ c = Tree.next_page_offset_ t /\
  file_size c = file_size t /\ meta_root c = meta_root t /\ meta_next c = meta_next t /\
  meta_free c = meta_free t.
Proof.
  intros [_ H1 H2 H3 H4 H5 H6 _ _ _] (E1 & E2 & E3 & E4 & E5 & E6).
  repeat split; congruence.
Qed.

(** A pin of a page below the frontier finds a frame as long as a frame is
    not pinned, and returns the page that the tree state holds there. *)
Lemma PinPage_shows (n : nat) (pins : list Z) (s : BPlusTree) (t t' : Tree.BPlusTree)
                    (off : Z) (pg : page) :
  shows n pins s t -> (length pins < n)%nat -> off ∉ pins ->
  Tree.PinPage off t = (Ok pg, t') -> off + PAGE_SIZE <= meta_next t -> not_free pg ->
  t' = t /\ exists s2, PinPage off s = (Ok (Some pg), s2) /\ shows n (off :: pins) s2 t.
Proof.
  intros Hsh Hlen Hnp Hpin Hbelow Hnf.
  apply PinPage_inv in Hpin. destruct Hpin as (-> & -> & H0 & Hfs & Hb).
  split; [reflexivity|].
  pose proof Hsh as [Hok R1 R2 R3 R4 R5 R6 Rp Rf Rm].
  unfold PinPage, FetchPage. destruct (Z.ltb_spec off 0); [lia|].
  rewrite (prun_bind _ _ s s (pool_ s)) by reflexivity.
  destruct (page_table_ (pool_ s) !! off) as [idx|] eqn:Et.
  - (* resident *)
    destruct (po_table _ _ _ Hok off idx Et) as (f & Hf & Hid & _ & Hunp).
    destruct (Hunp Hnp) as [Hpc Hlru].
    assert (Hdata : data f = page_at t off).
    { rewrite <- Rp. unfold pview. now rewrite Et, Hf. }
    set (f' := mkFrame (page_id f) (pin_count f + 1) (dirty f) (data f)).
    set (s2 := with_pool s
                 (set_lru_list (set_frame (set_hits (pool_ s) (hits_ (pool_ s) + 1)) idx f')
                               (Pool.lru_erase idx (lru_list_ (pool_ s))))).
    exists s2. split.
    { psimp. rewrite Hf. rewrite <- Hdata. reflexivity. }
    assert (Hother : forall p i, page_table_ (pool_ s) !! p = Some i -> p <> off -> i <> idx).
    { intros p i Hp Hne ->. apply Hne. eapply table_inj; eauto. }
    assert (Hpv : forall x, pview s2 x = pview s x).
    { intros x. unfold pview. cbn [s2 with_pool pool_ core set_lru_list set_frame set_frames
                                      set_hits frames_ page_table_].
      destruct (page_table_ (pool_ s) !! x) as [i|] eqn:Ei; [|reflexivity].
      destruct (Nat.eq_dec i idx) as [->|Hne].
      - rewrite list_lookup_insert_eq by (eapply lookup_lt, Hf). now rewrite Hf.
      - now rewrite list_lookup_insert_ne by auto. }
    constructor; try assumption; [|intros x; now rewrite Hpv].
    constructor; cbn [s2 with_pool pool_ core set_lru_list set_frame set_frames set_hits frames_
                         page_table_ lru_list_ free_list_].
    + rewrite length_insert. apply (po_size _ _ _ Hok).
    + pose proof (po_count _ _ _ Hok) as Hc. pose proof (length_lru_erase idx _ Hlru) as Hl.
      cbn [length]. lia.
    + constructor; [exact Hnp | apply (po_pins _ _ _ Hok)].
    + intros p i Hp. destruct (Z.eq_dec p off) as [->|Hne].
      * rewrite Et in Hp. injection Hp as <-. exists f'.
        split; [apply list_lookup_insert_eq; eapply lookup_lt, Hf|]. split; [exact Hid|].
        split; [intros _; cbn; lia|]. intros Hx. exfalso. apply Hx, list_elem_of_here.
      * destruct (po_table _ _ _ Hok p i Hp) as (g & Hg & Hgid & Hpin & Hunp').
        assert (Hi : i <> idx) by (eapply Hother; eauto).
        exists g. split; [now rewrite list_lookup_insert_ne by auto|]. split; [exact Hgid|]. split.
        { intros Hin. apply elem_of_cons in Hin. destruct Hin as [->|Hin]; [congruence | auto]. }
        intros Hnin. destruct Hunp' as [Hz Hl].
        { intros Hin. apply Hnin. now apply list_elem_of_further. }
        split; [exact Hz | now apply lru_erase_other].
    + intros p Hin. apply elem_of_cons in Hin. destruct Hin as [->|Hin]; [eauto|].
      apply (po_pinned _ _ _ Hok p Hin).
    + intros i Hi. pose proof (lru_erase_sub _ _ _ Hi) as Hi'.
      assert (Hne : i <> idx).
      { intros ->. revert Hi. apply lru_erase_gone, (po_lru_nodup _ _ _ Hok). }
      destruct (po_lru _ _ _ Hok i Hi') as (g & Hg & Htg & Hnpg).
      exists g. split; [now rewrite list_lookup_insert_ne by auto|]. split; [exact Htg|].
      intros Hin. apply elem_of_cons in Hin. destruct Hin as [E|Hin]; [|contradiction].
      rewrite E, Et in Htg. congruence.
    + apply lru_erase_NoDup, (po_lru_nodup _ _ _ Hok).
    + apply (po_free _ _ _ Hok).
    + apply (po_free_nodup _ _ _ Hok).
    + intros p i g Hp Hg. destruct (Nat.eq_dec i idx) as [->|Hne].
      * rewrite list_lookup_insert_eq in Hg by (eapply lookup_lt, Hf). injection Hg as <-.
        cbn [f' data]. eapply (po_live _ _ _ Hok); eauto.
      * rewrite list_lookup_insert_ne in Hg by auto. eapply (po_live _ _ _ Hok); eauto.
    + intros p i g Hp Hg Hd. destruct (Nat.eq_dec i idx) as [->|Hne].
      * rewrite list_lookup_insert_eq in Hg by (eapply lookup_lt, Hf). injection Hg as <-.
        cbn [f' data dirty] in *. eapply (po_clean _ _ _ Hok); eauto.
      * rewrite list_lookup_insert_ne in Hg by auto. eapply (po_clean _ _ _ Hok); eauto.
    + apply (po_frontier _ _ _ Hok).
  - (* not resident *)
    set (s0 := with_pool s (set_misses (pool_ s) (misses_ (pool_ s) + 1))).
    assert (Hok0 : pool_ok n pins s0) by (eapply pool_ok_same; [| | | | |exact Hok]; reflexivity).
    destruct (obtain_frame_ok n pins s0 Hok0 Hlen) as (idx & s1 & Hrun & Hok1 & Hpv & Hsub & Hfr & Hmem).
    destruct Hfr as [f0 Hf0].
    assert (Hnone : page_table_ (pool_ s1) !! off = None).
    { destruct (page_table_ (pool_ s1) !! off) as [i|] eqn:E; [|reflexivity].
      apply Hsub in E. cbn in E. congruence. }
    destruct (shows_members n pins s t (core s1) Hsh Hmem) as (M1 & M2 & M3 & M4 & M5 & M6).
    assert (Hpg : page_at (core s1) off = page_at t off).
    { rewrite <- Rp, <- (pview_same s s0 off) by reflexivity. rewrite <- Hpv.
      unfold pview. now rewrite Hnone. }
    exists (install s1 idx off false (page_at t off)). split.
    { unfold mbind, M_bind, bind, modify_pool. cbn [ret]. fold s0. rewrite Hrun.
      unfold frame_at. rewrite Hf0. unfold read_page. cbn [with_pool core pool_].
      destruct (Z.ltb_spec off 0); [lia|].
      destruct (Z.ltb_spec (file_size (core s1)) (off + PAGE_SIZE)); [lia|].
      cbn [orb]. rewrite Hb, Hpg. unfold install, with_pool, set_frame.
      cbn [core pool_ set_frames frames_ page_table_ set_page_table].
      now rewrite list_insert_insert_eq. }
    destruct (install_ok n pins s1 idx off false (page_at t off) Hok1 Hnone Hb)
      as (Hok2 & Hv2 & Hv2'); [lia | exact Hnf | now intros _ |].
    constructor; try assumption.
    intros x. destruct (Z.eq_dec x off) as [->|Hne]; [exact Hv2|].
    rewrite Hv2' by auto. rewrite Hpv. rewrite (pview_same s s0 x) by reflexivity. apply Rp.
Qed.

(** ** The order of the pinned pages does not matter *)

Lemma pool_ok_perm (n : nat) (pins pins' : list Z) (s : BPlusTree) :
  pins ≡ₚ pins' -> pool_ok n pins s -> pool_ok n pins' s.
Proof.
  intros Hp [H1 H2 H3 H4 H5 H6 H7 H8 H9 H10 H11 H12].
  assert (Hin : forall p, p ∈ pins' <-> p ∈ pins) by (intros p; now rewrite Hp).
  constructor; auto.
  - now rewrite <- Hp.
  - now rewrite <- Hp.
  - intros p idx Ht. destruct (H4 p idx Ht) as (f & Hf & Hid & Ha & Hb).
    exists f. split; [exact Hf|]. split; [exact Hid|]. split.
    + intros Hx. apply Ha. now apply Hin.
    + intros Hx. apply Hb. intros Hy. apply Hx. now apply Hin.
  - intros p Hx. apply H5. now apply Hin.
  - intros idx Hl. destruct (H6 idx Hl) as (f & Hf & Ht & Hnp).
    exists f. split; [exact Hf|]. split; [exact Ht|]. intros Hx. apply Hnp. now apply Hin.
Qed.

Lemma shows_perm (n : nat) (pins pins' : list Z) (s : BPlusTree) (t : Tree.BPlusTree) :
  pins ≡ₚ pins' -> shows n pins s t -> shows n pins' s t.
Proof.
  intros Hp [H1 H2 H3 H4 H5 H6 H7 H8 H9 H10]. constructor; auto. eapply pool_ok_perm; eauto.
Qed.

(** ** What the pool says about a page it holds *)

Lemma resident_live (n : nat) (pins : list Z) (s : BPlusTree) (t : Tree.BPlusTree) (off : Z) :
  shows n pins s t -> is_Some (page_table_ (pool_ s) !! off) ->
  page_boundary off = true /\ off + PAGE_SIZE <= meta_next t /\ not_free (page_at t off).
Proof.
  intros Hsh [idx Hidx]. pose proof (sh_pool _ _ _ _ Hsh) as Hok.
  destruct (po_table _ _ _ Hok off idx Hidx) as (f & Hf & _).
  destruct (po_live _ _ _ Hok off idx f Hidx Hf) as (Hb & Hbel & Hnf).
  rewrite <- (sh_meta_next _ _ _ _ Hsh), <- (sh_pages _ _ _ _ Hsh off).
  unfold pview. rewrite Hidx, Hf. tauto.
Qed.

Lemma pinned_live (n : nat) (pins : list Z) (s : BPlusTree) (t : Tree.BPlusTree) (off : Z) :
  shows n pins s t -> off ∈ pins ->
  page_boundary off = true /\ off + PAGE_SIZE <= meta_next t /\ not_free (page_at t off).
Proof.
  intros Hsh Hin. eapply resident_live; eauto. apply (po_pinned _ _ _ (sh_pool _ _ _ _ Hsh)), Hin.
Qed.

Lemma free_list_elem (ps : gmap Z page) (fl : list Z) (head off : Z) :
  free_list ps head fl -> off ∈ fl -> exists next, ps !! off = Some (PFree next).
Proof.
  revert head. induction fl as [|a fl IH]; intros head Hfl Hin.
  - apply elem_of_nil in Hin. contradiction.
  - destruct Hfl as (-> & next & Ha & Hrest). apply elem_of_cons in Hin.
    destruct Hin as [->|Hin]; [eauto | eapply IH; eauto].
Qed.

Lemma not_free_not_listed (t : Tree.BPlusTree) (fl : list Z) (head off : Z) :
  free_list (pages t) head fl -> not_free (page_at t off) -> off ∉ fl.
Proof.
  intros Hfl Hnf Hin. destruct (free_list_elem _ _ _ _ Hfl Hin) as [next Hn].
  unfold page_at in Hnf. now rewrite Hn in Hnf.
Qed.

Lemma free_ok_write (t : Tree.BPlusTree) (off : Z) (pg : page) :
  free_ok t -> not_free (page_at t off) -> free_ok (write t off pg).
Proof.
  intros (fl & Hfl & Hnd & Hb) Hnf. exists fl. split; [|split; [exact Hnd | exact Hb]].
  cbn [write set_pages pages meta_free].
  eapply free_list_frame; [|exact Hfl]. intros o Ho.
  apply lookup_insert_ne. intros ->. revert Ho. eapply not_free_not_listed; eauto.
Qed.

(** ** [UnpinPage] *)

Lemma UnpinPage_run (t t' : Tree.BPlusTree) (off : Z) (view : page) (d : bool) :
  Tree.UnpinPage off view d t = (Ok tt, t') -> t' = if d then write t off view else t.
Proof. destruct d; cbn; now intros [= <-]. Qed.

(** The page pinned last is unpinned: clean, nothing changes for the tree;
    dirty, the frame holds the page as it was written. *)
Lemma UnpinPage_shows (n : nat) (pins : list Z) (s : BPlusTree) (t t' : Tree.BPlusTree)
                      (off : Z) (view : page) (d : bool) :
  shows n (off :: pins) s t -> (d = true -> not_free view) ->
  Tree.UnpinPage off view d t = (Ok tt, t') ->
  exists s2, UnpinPage off view d s = (Ok tt, s2) /\ shows n pins s2 t' /\
             page_table_ (pool_ s2) = page_table_ (pool_ s).
Proof.
  intros Hsh Hview Hrun. apply UnpinPage_run in Hrun. subst t'.
  pose proof Hsh as [Hok R1 R2 R3 R4 R5 R6 Rp Rf Rm].
  assert (Hin : off ∈ off :: pins) by apply list_elem_of_here.
  destruct (pinned_frame _ _ _ _ Hok Hin) as (idx & f & Ht & Hf & Hid & Hpc & Hnl).
  destruct (pinned_live _ _ _ _ _ Hsh Hin) as (Hb & Hbel & Hnf).
  pose proof (po_pins _ _ _ Hok) as Hnd. apply NoDup_cons in Hnd. destruct Hnd as [Hnp Hnd].
  set (f' := mkFrame (page_id f) 0 (dirty f || d) (if d then view else data f)).
  set (s2 := with_pool s (set_lru_list (set_frame (pool_ s) idx f') (lru_list_ (pool_ s) ++ [idx]))).
  exists s2. split; [|split; [|reflexivity]].
  { unfold UnpinPage, PagePool.UnpinPage.
    rewrite (prun_bind _ _ s s2 true); [reflexivity|].
    rewrite (prun_bind _ _ s s (pool_ s)) by reflexivity. rewrite Ht.
    rewrite (prun_bind _ _ s s f) by (unfold frame_at; now rewrite Hf).
    rewrite Hpc. reflexivity. }
  assert (Hother : forall p i, page_table_ (pool_ s) !! p = Some i -> p <> off -> i <> idx).
  { intros p i Hp Hne ->. apply Hne. eapply table_inj; eauto. }
  assert (Hflen : (idx < length (frames_ (pool_ s)))%nat) by (eapply lookup_lt, Hf).
  assert (Hok2 : pool_ok n pins s2).
  { constructor; cbn [s2 with_pool pool_ core set_lru_list set_frame set_frames frames_
                         page_table_ lru_list_ free_list_].
    + rewrite length_insert. apply (po_size _ _ _ Hok).
    + pose proof (po_count _ _ _ Hok) as Hc. rewrite length_app. cbn [length] in *. lia.
    + exact Hnd.
    + intros p i Hp. destruct (Z.eq_dec p off) as [->|Hne].
      * rewrite Ht in Hp. injection Hp as <-. exists f'.
        split; [now apply list_lookup_insert_eq|]. split; [exact Hid|].
        split; [intros Hx; contradiction|]. intros _. split; [cbn; lia|].
        apply elem_of_app. right. apply list_elem_of_here.
      * destruct (po_table _ _ _ Hok p i Hp) as (g & Hg & Hgid & Hpin & Hunp).
        assert (Hi : i <> idx) by (eapply Hother; eauto).
        exists g. split; [now rewrite list_lookup_insert_ne by auto|]. split; [exact Hgid|]. split.
        { intros Hx. apply Hpin. now apply list_elem_of_further. }
        intros Hx. destruct Hunp as [Hz Hl].
        { intros Hy. apply elem_of_cons in Hy. destruct Hy as [->|Hy]; [congruence | contradiction]. }
        split; [exact Hz|]. apply elem_of_app. now left.
    + intros p Hx. apply (po_pinned _ _ _ Hok p). now apply list_elem_of_further.
    + intros i Hi. apply elem_of_app in Hi. destruct Hi as [Hi|Hi].
      * assert (Hne : i <> idx) by (intros ->; contradiction).
        destruct (po_lru _ _ _ Hok i Hi) as (g & Hg & Htg & Hnpg).
        exists g. split; [now rewrite list_lookup_insert_ne by auto|]. split; [exact Htg|].
        intros Hx. apply Hnpg. now apply list_elem_of_further.
      * apply list_elem_of_singleton in Hi. subst i. exists f'.
        split; [now apply list_lookup_insert_eq|]. cbn [f' page_id]. rewrite Hid. auto.
    + apply NoDup_app. split; [apply (po_lru_nodup _ _ _ Hok)|]. split; [|apply NoDup_singleton].
      intros i Hi Hi'. apply list_elem_of_singleton in Hi'. subst i. contradiction.
    + apply (po_free _ _ _ Hok).
    + apply (po_free_nodup _ _ _ Hok).
    + intros p i g Hp Hg. destruct (Nat.eq_dec i idx) as [->|Hne].
      * rewrite list_lookup_insert_eq in Hg by exact Hflen. injection Hg as <-.
        destruct (po_live _ _ _ Hok p idx f Hp Hf) as (H1 & H2 & H3).
        split; [exact H1|]. split; [exact H2|]. cbn [f' data]. destruct d; auto.
      * rewrite list_lookup_insert_ne in Hg by auto.
        apply (po_live _ _ _ Hok p i g Hp Hg).
    + intros p i g Hp Hg Hd. destruct (Nat.eq_dec i idx) as [->|Hne].
      * rewrite list_lookup_insert_eq in Hg by exact Hflen. injection Hg as <-.
        cbn [f' dirty data] in *. apply orb_false_elim in Hd. destruct Hd as [Hd ->].
        eapply (po_clean _ _ _ Hok); eauto.
      * rewrite list_lookup_insert_ne in Hg by auto.
        assert (Hpo : p <> off) by (intros ->; rewrite Ht in Hp; congruence).
        apply (po_clean _ _ _ Hok p i g Hp Hg Hd).
    + apply (po_frontier _ _ _ Hok). }
  assert (Hpv : forall x, pview s2 x = if Z.eq_dec x off then (if d then view else data f) else pview s x).
  { intros x. unfold pview. cbn [s2 with_pool pool_ core set_lru_list set_frame set_frames
                                    frames_ page_table_].
    destruct (Z.eq_dec x off) as [->|Hne].
    - rewrite Ht, list_lookup_insert_eq by exact Hflen. reflexivity.
    - destruct (page_table_ (pool_ s) !! x) as [i|] eqn:Ei; [|reflexivity].
      assert (Hi : i <> idx) by (eapply Hother; eauto).
      now rewrite list_lookup_insert_ne by auto. }
  assert (Hdata : data f = page_at t off).
  { rewrite <- Rp. unfold pview. now rewrite Ht, Hf. }
  destruct d.
  - constructor; try assumption.
    + intros x. rewrite Hpv. destruct (Z.eq_dec x off) as [->|Hne].
      * symmetry. apply page_at_set_eq.
      * rewrite Rp. symmetry. now apply page_at_set_ne.
    + now apply free_ok_write.
  - constructor; try assumption.
    intros x. rewrite Hpv. destruct (Z.eq_dec x off) as [->|Hne]; [exact Hdata | apply Rp].
Qed.

(** ** [AllocPage] *)

(** What [AllocatePage] does to the file, and that it reads the head of
    the free list only. *)
Lemma AllocatePage_inv (t t0 : Tree.BPlusTree) (off : Z) :
  AllocatePage t = (Ok off, t0) ->
  page_boundary off = true /\
  pages t0 = <[off := zero_page]> (pages t) /\
  Tree.root_offset_ t0 = Tree.root_offset_ t /\
  Tree.next_page_offset_ t0 = Tree.next_page_offset_ t /\
  meta_root t0 = meta_root t /\
  meta_next t <= meta_next t0 /\
  (meta_free t <> INVALID_PAGE_ID ->
     off = meta_free t /\ meta_next t0 = meta_next t /\ file_size t0 = file_size t /\
     pages t !! off = Some (PFree (meta_free t0))) /\
  (meta_free t = INVALID_PAGE_ID ->
     off = meta_next t /\ meta_next t0 = meta_next t + PAGE_SIZE /\ meta_free t0 = meta_free t /\
     (meta_next t <= file_size t -> meta_next t0 <= file_size t0)).
Proof.
  unfold AllocatePage. destruct (Z.eqb_spec (meta_free t) INVALID_PAGE_ID) as [E|E]; cbn [negb].
  - destruct (page_boundary (meta_next t)) eqn:Hb; [|discriminate].
    intros [= <- <-]. cbn [pages Tree.root_offset_ Tree.next_page_offset_ meta_root meta_next
                             meta_free file_size].
    repeat split; auto; try (unfold PAGE_SIZE; lia); try contradiction.
    intros Hle. destruct (Z.leb_spec (meta_next t + PAGE_SIZE) (file_size t)); [lia|].
    apply grown_size_ge.
  - destruct ((0 <=? meta_free t) && (meta_free t + PAGE_SIZE <=? file_size t)
              && page_boundary (meta_free t)) eqn:Hc; [|discriminate].
    apply andb_prop in Hc. destruct Hc as [_ Hb].
    destruct (pages t !! meta_free t) as [[| |next]|] eqn:Ep; try discriminate.
    intros [= <- <-]. cbn [pages Tree.root_offset_ Tree.next_page_offset_ meta_root meta_next
                             meta_free file_size].
    repeat split; auto; try lia; try contradiction.
Qed.

Lemma AllocatePage_agree (c t t0 : Tree.BPlusTree) (off : Z) :
  AllocatePage t = (Ok off, t0) ->
  file_size c = file_size t -> meta_next c = meta_next t -> meta_free c = meta_free t ->
  (meta_free t <> INVALID_PAGE_ID -> pages c !! meta_free t = pages t !! meta_free t) ->
  AllocatePage c =
    (Ok off, mkTree (Tree.root_offset_ c) (Tree.next_page_offset_ c) (file_size t0)
                    (meta_root c) (meta_next t0) (meta_free t0) (<[off := zero_page]> (pages c))).
Proof.
  unfold AllocatePage. intros H E1 E2 E3 E4. rewrite E1, E2, E3.
  destruct (Z.eqb_spec (meta_free t) INVALID_PAGE_ID) as [E|E]; cbn [negb] in *.
  - destruct (page_boundary (meta_next t)) eqn:Hb; [|discriminate].
    injection H as <- <-. reflexivity.
  - rewrite (E4 E).
    destruct ((0 <=? meta_free t) && (meta_free t + PAGE_SIZE <=? file_size t)
              && page_boundary (meta_free t)) eqn:Hc; [|discriminate].
    destruct (pages t !! meta_free t) as [[| |next]|] eqn:Ep; try discriminate.
    injection H as <- <-. reflexivity.
Qed.

(** The invariant when the file changes at pages that are not resident. *)
Lemma pool_ok_core (n : nat) (pins : list Z) (s : BPlusTree) (c : Tree.BPlusTree) :
  pool_ok n pins s ->
  meta_next (core s) <= meta_next c -> meta_next c <= file_size c ->
  (forall p, is_Some (page_table_ (pool_ s) !! p) -> page_at c p = page_at (core s) p) ->
  pool_ok n pins (with_core s c).
Proof.
  intros [H1 H2 H3 H4 H5 H6 H7 H8 H9 H10 H11 H12] Hn Hf Hp.
  constructor; cbn [with_core pool_ core]; auto.
  - intros p idx f Ht Hfr. destruct (H10 p idx f Ht Hfr) as (A & B & C).
    split; [exact A|]. split; [lia | exact C].
  - intros p idx f Ht Hfr Hd. rewrite Hp by eauto. eauto.
Qed.

Lemma pview_core (s : BPlusTree) (c : Tree.BPlusTree) (off : Z) :
  pview (with_core s c) off =
  match page_table_ (pool_ s) !! off with
  | Some idx => match frames_ (pool_ s) !! idx with Some f => data f | None => page_at c off end
  | None => page_at c off
  end.
Proof. reflexivity. Qed.

Lemma AllocPage_inv (t t' : Tree.BPlusTree) (off : Z) :
  Tree.AllocPage t = (Ok off, t') ->
  exists t0, AllocatePage t = (Ok off, t0) /\
    t' = mkTree (Tree.root_offset_ t0) (meta_next t0) (file_size t0)
                (meta_root t0) (meta_next t0) (meta_free t0) (pages t0).
Proof.
  unfold Tree.AllocPage. intros H. apply bind_ok_inv in H. destruct H as (o & t0 & H0 & H).
  apply bind_ok_inv in H. destruct H as ([] & t1 & H1 & H). cbn in H1, H.
  injection H1 as <-. injection H as <- <-. eauto.
Qed.

(** A new page while a frame is not pinned: the page comes pinned, zeroed
    and dirty. *)
Lemma AllocPage_shows (n : nat) (pins : list Z) (s : BPlusTree) (t t' : Tree.BPlusTree) (off : Z) :
  shows n pins s t -> (length pins < n)%nat ->
  Tree.AllocPage t = (Ok off, t') ->
  exists s2, AllocPage s = (Ok (Some zero_page, off), s2) /\ shows n (off :: pins) s2 t' /\
             meta_next t <= meta_next t' /\ off + PAGE_SIZE <= meta_next t' /\
             page_at t' off = zero_page /\ off ∉ pins /\
             (forall x, x <> off -> page_at t' x = page_at t x) /\
             Tree.root_offset_ t' = Tree.root_offset_ t.
Proof.
  intros Hsh Hlen Hrun. apply AllocPage_inv in Hrun. destruct Hrun as (t0 & Hrun & ->).
  pose proof Hsh as [Hok R1 R2 R3 R4 R5 R6 Rp Rf Rm].
  destruct (AllocatePage_inv _ _ _ Hrun) as (Hb & Hpg & A1 & A2 & A3 & Hmono & Hre & Hfr).
  (* the page is not resident *)
  assert (Hnone : page_table_ (pool_ s) !! off = None).
  { destruct (page_table_ (pool_ s) !! off) as [i|] eqn:Ei; [|reflexivity]. exfalso.
    destruct (resident_live n pins s t off Hsh) as (_ & Hbel & Hnf); [eauto|].
    destruct (Z.eq_dec (meta_free t) INVALID_PAGE_ID) as [E|E].
    - destruct (Hfr E) as (-> & _). unfold PAGE_SIZE in Hbel. lia.
    - destruct (Hre E) as (_ & _ & _ & Hp). unfold page_at in Hnf. now rewrite Hp in Hnf. }
  assert (Hbel : off + PAGE_SIZE <= meta_next t0).
  { destruct (Z.eq_dec (meta_free t) INVALID_PAGE_ID) as [E|E].
    - destruct (Hfr E) as (-> & -> & _). lia.
    - destruct (Hre E) as (-> & -> & _ & Hp). destruct Rf as (fl & Hfl & _ & Hfb).
      destruct fl as [|a fl]; [cbn in Hfl; contradiction|]. destruct Hfl as (<- & _).
      apply Hfb, list_elem_of_here. }
  assert (Hfront : meta_next t0 <= file_size t0).
  { pose proof (po_frontier _ _ _ Hok) as Hf. rewrite R5, R3 in Hf.
    destruct (Z.eq_dec (meta_free t) INVALID_PAGE_ID) as [E|E].
    - destruct (Hfr E) as (_ & _ & _ & Hx). auto.
    - destruct (Hre E) as (_ & -> & -> & _). exact Hf. }
  assert (Hread : meta_free t <> INVALID_PAGE_ID ->
                  pages (core s) !! meta_free t = pages t !! meta_free t).
  { intros E. destruct (Hre E) as (Eo & _ & _ & Hp). rewrite <- Eo, Hp.
    apply page_at_not_free.
    specialize (Rp off). unfold pview in Rp. rewrite Hnone in Rp. rewrite Rp.
    unfold page_at. now rewrite Hp. }
  pose proof (AllocatePage_agree (core s) t t0 off Hrun R3 R5 R6 Hread) as Hrun2.
  set (c0 := mkTree (Tree.root_offset_ (core s)) (Tree.next_page_offset_ (core s)) (file_size t0)
                    (meta_root (core s)) (meta_next t0) (meta_free t0)
                    (<[off := zero_page]> (pages (core s)))) in *.
  assert (Hc0 : forall x, x <> off -> page_at c0 x = page_at (core s) x).
  { intros x Hne. unfold page_at, c0. cbn [pages]. now rewrite lookup_insert_ne by auto. }
  assert (Hok0 : pool_ok n pins (with_core s c0)).
  { apply pool_ok_core; auto; cbn [c0 meta_next file_size]; [lia|].
    intros p [i Hi]. apply Hc0. intros ->. congruence. }
  destruct (obtain_frame_ok n pins _ Hok0 Hlen) as (idx & s1 & Hob & Hok1 & Hpv & Hsub & Hfs & Hmem).
  destruct Hfs as [f0 Hf0].
  assert (Hnone1 : page_table_ (pool_ s1) !! off = None).
  { destruct (page_table_ (pool_ s1) !! off) as [i|] eqn:E; [|reflexivity].
    apply Hsub in E. cbn in E. congruence. }
  destruct Hmem as (M1 & M2 & M3 & M4 & M5 & M6). cbn [with_core core c0 Tree.root_offset_
    Tree.next_page_offset_ file_size meta_root meta_next meta_free] in M1, M2, M3, M4, M5, M6.
  destruct (install_ok n pins s1 idx off true zero_page Hok1 Hnone1 Hb)
    as (Hok2 & Hv2 & Hv2'); [lia | exact I | discriminate |].
  set (s2 := install s1 idx off true zero_page) in *.
  set (c2 := mkTree (Tree.root_offset_ (core s2)) (meta_next (core s2)) (file_size (core s2))
                    (meta_root (core s2)) (meta_next (core s2)) (meta_free (core s2))
                    (pages (core s2))).
  exists (with_core s2 c2).
  assert (Hp2 : forall x, page_at c2 x = page_at (core s2) x) by reflexivity.
  split; [|split; [|split; [|split; [|split; [|split; [|split]]]]]].
  - unfold AllocPage, NewPage.
    rewrite (prun_bind _ _ s s2 (Some zero_page, off)); [reflexivity|].
    rewrite (prun_bind _ _ s (with_core s c0) off) by (unfold lift; now rewrite Hrun2).
    rewrite (prun_bind _ _ _ _ _ Hob).
    rewrite (prun_bind _ _ s1 s1 f0) by (unfold frame_at; now rewrite Hf0).
    reflexivity.
  - constructor; cbn [with_core core c2 Tree.root_offset_ Tree.next_page_offset_ file_size
                        meta_root meta_next meta_free pages s2 install with_pool];
      try congruence.
    + apply (pool_ok_core n (off :: pins) s2 c2 Hok2); cbn [c2 meta_next file_size]; try lia.
      * cbn [s2 install with_pool core]. lia.
      * intros p _. apply Hp2.
    + intros x. rewrite pview_core. change (pview s2 x = page_at
        (mkTree (Tree.root_offset_ t0) (meta_next t0) (file_size t0) (meta_root t0)
                (meta_next t0) (meta_free t0) (pages t0)) x).
      unfold page_at at 1. cbn [pages]. rewrite Hpg.
      destruct (Z.eq_dec x off) as [->|Hne].
      * rewrite lookup_insert_eq. exact Hv2.
      * rewrite lookup_insert_ne by auto. rewrite Hv2' by auto. rewrite Hpv.
        rewrite pview_core. specialize (Rp x). unfold pview in Rp.
        destruct (page_table_ (pool_ s) !! x) as [i|] eqn:Ei.
        { destruct (frames_ (pool_ s) !! i); [exact Rp|]. now rewrite Hc0. }
        now rewrite Hc0.
    + destruct Rf as (fl & Hfl & Hnd & Hfb). cbn [pages meta_free meta_next].
      destruct (Z.eq_dec (meta_free t) INVALID_PAGE_ID) as [E|E].
      * destruct (Hfr E) as (Eo & En & Ef & _). exists fl. rewrite Ef, Hpg.
        split; [|split; [exact Hnd|]].
        { eapply free_list_frame; [|exact Hfl]. intros o Ho. apply lookup_insert_ne.
          intros <-. destruct (Hfb off Ho) as [_ Hx]. unfold PAGE_SIZE in *. lia. }
        intros o Ho. cbn [meta_next]. destruct (Hfb o Ho). split; [auto | lia].
      * destruct (Hre E) as (Eo & En & Ef & Hp).
        destruct fl as [|a fl]; [cbn in Hfl; contradiction|].
        destruct Hfl as (Ea & next & Ha & Hrest). rewrite <- Ea, <- Eo, Hp in Ha.
        injection Ha as <-. apply NoDup_cons in Hnd. destruct Hnd as [Hna Hnd].
        exists fl. rewrite Hpg. split; [|split; [exact Hnd|]].
        { eapply free_list_frame; [|exact Hrest]. intros o Ho. apply lookup_insert_ne.
          intros <-. apply Hna. rewrite <- Ea, <- Eo. exact Ho. }
        intros o Ho. cbn [meta_next]. rewrite En. apply Hfb. now apply list_elem_of_further.
  - cbn [meta_next]. exact Hmono.
  - cbn [meta_next]. exact Hbel.
  - unfold page_at. cbn [pages]. now rewrite Hpg, lookup_insert_eq.
  - intros Hin. destruct (po_pinned _ _ _ Hok off Hin) as [i Hi]. congruence.
  - intros x Hne. unfold page_at. cbn [pages]. now rewrite Hpg, lookup_insert_ne by auto.
  - cbn [Tree.root_offset_]. exact A1.
Qed.

(** ** [DeallocPage] *)

(** A page that is resident and not pinned is given back: the frame is
    free again and the page is the head of the free list. *)
Lemma DeallocPage_shows (n : nat) (pins : list Z) (s : BPlusTree) (t t' : Tree.BPlusTree) (off : Z) :
  shows n pins s t -> off ∉ pins -> is_Some (page_table_ (pool_ s) !! off) ->
  Tree.DeallocPage off t = (Ok tt, t') ->
  exists s2, DeallocPage off s = (Ok tt, s2) /\ shows n pins s2 t' /\
             meta_next t' = meta_next t /\ Tree.root_offset_ t' = Tree.root_offset_ t /\
             (forall x, x <> off -> page_at t' x = page_at t x).
Proof.
  intros Hsh Hnp [idx Ht] Hrun.
  pose proof Hsh as [Hok R1 R2 R3 R4 R5 R6 Rp Rf Rm].
  destruct (resident_live n pins s t off Hsh) as (Hb & Hbel & Hnf); [eauto|].
  pose proof (page_boundary_ge _ Hb) as Hge.
  destruct (po_table _ _ _ Hok off idx Ht) as (f & Hf & Hid & _ & Hunp).
  destruct (Hunp Hnp) as [Hpc Hlru].
  assert (Ht' : t' = mkTree (Tree.root_offset_ t) (Tree.next_page_offset_ t) (file_size t)
                            (meta_root t) (meta_next t) off (<[off := PFree (meta_free t)]> (pages t))).
  { revert Hrun. unfold Tree.DeallocPage. destruct (Z.ltb_spec off PAGE_SIZE); [lia|].
    destruct ((off + PAGE_SIZE <=? file_size t) && page_boundary off); [|discriminate].
    now intros [= <-]. }
  subst t'.
  set (c2 := mkTree (Tree.root_offset_ (core s)) (Tree.next_page_offset_ (core s))
                    (file_size (core s)) (meta_root (core s)) (meta_next (core s)) off
                    (<[off := PFree (meta_free (core s))]> (pages (core s)))).
  set (f1 := mkFrame INVALID_PAGE_ID 0 false (data f)).
  assert (Hc2 : forall x, x <> off -> page_at c2 x = page_at (core s) x).
  { intros x Hne. unfold page_at, c2. cbn [pages]. now rewrite lookup_insert_ne by auto. }
  rewrite <- Hid in Hc2.
  destruct (give_up_ok n pins s idx f f1 c2 Hok Hlru Hf eq_refl eq_refl Hc2)
    as (H1 & H2 & H3 & H4 & H5 & H6).
  rewrite Hid in *.
  match type of H1 with pool_ok _ _ ?st => set (s2 := st) in * end.
  exists s2. split; [|split; [|split; [reflexivity|split; [reflexivity|]]]].
  - unfold DeallocPage, DeletePage.
    pose proof (po_frontier _ _ _ Hok) as Hfront.
    assert (Hrun1 : (p ← gets pool_;
                     match page_table_ p !! off with
                     | None => ret true
                     | Some idx =>
                         f ← frame_at idx;
                         if 0 <? pin_count f then ret false
                         else
                           modify_pool (fun p =>
                             let p := set_lru_list p (Pool.lru_erase idx (lru_list_ p)) in
                             let p := set_frame p idx (mkFrame INVALID_PAGE_ID 0 false (data f)) in
                             let p := set_page_table p (delete off (page_table_ p)) in
                             set_free_list p (free_list_ p ++ [idx]));;
                           ret true
                     end) s = (Ok true, with_core s2 (core s))).
    { rewrite (prun_bind _ _ s s (pool_ s)) by reflexivity. rewrite Ht.
      rewrite (prun_bind _ _ s s f) by (unfold frame_at; now rewrite Hf).
      rewrite Hpc. reflexivity. }
    rewrite (prun_bind _ _ _ _ _ Hrun1). unfold lift, Tree.DeallocPage.
    cbn [with_core core pool_]. destruct (Z.ltb_spec off PAGE_SIZE); [lia|].
    destruct (Z.leb_spec (off + PAGE_SIZE) (file_size (core s))); [|lia].
    rewrite Hb. reflexivity.
  - constructor; try assumption; try (cbn; congruence).
    + intros x. destruct (Z.eq_dec x off) as [->|Hne].
      * change (pview s2 off) with
          (pview (mkPooled c2 (set_frame (set_lru_list
                    (set_page_table (pool_ s) (delete off (page_table_ (pool_ s))))
                    (Pool.lru_erase idx (lru_list_ (pool_ s)))) idx f1)) off).
        rewrite H3. unfold page_at, c2. cbn [pages]. rewrite !lookup_insert_eq. cbn.
        now rewrite R6.
      * change (pview s2 x) with
          (pview (mkPooled c2 (set_frame (set_lru_list
                    (set_page_table (pool_ s) (delete off (page_table_ (pool_ s))))
                    (Pool.lru_erase idx (lru_list_ (pool_ s)))) idx f1)) x).
        rewrite H2 by auto. rewrite Rp. unfold page_at. cbn [pages].
        now rewrite lookup_insert_ne by auto.
    + destruct Rf as (fl & Hfl & Hnd & Hfb).
      assert (Hnl : off ∉ fl) by (eapply not_free_not_listed; eauto).
      exists (off :: fl). cbn [pages meta_free meta_next]. split; [|split].
      * split; [reflexivity|]. exists (meta_free t). split; [apply lookup_insert_eq|].
        eapply free_list_frame; [|exact Hfl]. intros o Ho. apply lookup_insert_ne. congruence.
      * now constructor.
      * intros o Ho. apply elem_of_cons in Ho. destruct Ho as [->|Ho]; auto.
  - intros x Hne. unfold page_at. cbn [pages]. now rewrite lookup_insert_ne by auto.
Qed.

(** ** The members *)

(** A step that touches the members and the metadata words only. *)
Lemma members_shows (n : nat) (pins : list Z) (s : BPlusTree) (t : Tree.BPlusTree)
                    (g : Tree.BPlusTree -> Tree.BPlusTree) :
  shows n pins s t ->
  (forall c, pages (g c) = pages c /\ file_size (g c) = file_size c /\ meta_free (g c) = meta_free c) ->
  (forall c c', Tree.root_offset_ c = Tree.root_offset_ c' ->
                Tree.next_page_offset_ c = Tree.next_page_offset_ c' ->
                meta_root c = meta_root c' -> meta_next c = meta_next c' ->
                Tree.root_offset_ (g c) = Tree.root_offset_ (g c') /\
                Tree.next_page_offset_ (g c) = Tree.next_page_offset_ (g c') /\
                meta_root (g c) = meta_root (g c') /\ meta_next (g c) = meta_next (g c')) ->
  meta_next (g t) = meta_next t -> Tree.next_page_offset_ (g t) = Tree.next_page_offset_ t ->
  lift (modify g) s = (Ok tt, with_core s (g (core s))) /\ shows n pins (with_core s (g (core s))) (g t).
Proof.
  intros Hsh Hg Hgg Hn Hm. split; [reflexivity|].
  pose proof Hsh as [Hok R1 R2 R3 R4 R5 R6 Rp Rf Rm].
  destruct (Hg (core s)) as (G1 & G2 & G3). destruct (Hg t) as (G4 & G5 & G6).
  destruct (Hgg (core s) t R1 R2 R4 R5) as (E1 & E2 & E3 & E4).
  constructor; cbn [with_core core]; try congruence.
  - apply pool_ok_core; auto.
    + rewrite E4, Hn, R5. lia.
    + rewrite E4, Hn, G2, <- R5. apply (po_frontier _ _ _ Hok).
    + intros p _. unfold page_at. now rewrite G1.
  - intros x. rewrite pview_core. specialize (Rp x). unfold pview in Rp.
    unfold page_at in *. rewrite G1, G4. exact Rp.
  - destruct Rf as (fl & Hfl & Hnd & Hfb). exists fl. rewrite G4, G6, Hn. auto.
Qed.

Lemma set_root_shows (n : nat) (pins : list Z) (s : BPlusTree) (t : Tree.BPlusTree) (r : Z) :
  shows n pins s t ->
  shows n pins (with_core s (set_root_offset_ (core s) r)) (set_root_offset_ t r).
Proof.
  intros Hsh.
  apply (members_shows n pins s t (fun c => set_root_offset_ c r) Hsh); try reflexivity.
  - intros c. repeat split.
  - intros c c' E1 E2 E3 E4. cbn. auto.
Qed.

Lemma WriteMetadata_shows (n : nat) (pins : list Z) (s : BPlusTree) (t t' : Tree.BPlusTree) :
  shows n pins s t -> Tree.WriteMetadata t = (Ok tt, t') ->
  exists s2, WriteMetadata s = (Ok tt, s2) /\ shows n pins s2 t'.
Proof.
  intros Hsh Hrun. unfold Tree.WriteMetadata in Hrun. cbn in Hrun. injection Hrun as <-.
  set (g := fun t : Tree.BPlusTree =>
              mkTree (Tree.root_offset_ t) (Tree.next_page_offset_ t) (file_size t)
                     (Tree.root_offset_ t) (Tree.next_page_offset_ t) (meta_free t) (pages t)).
  exists (with_core s (g (core s))).
  apply (members_shows n pins s t g Hsh).
  - intros c. repeat split.
  - intros c c' E1 E2 E3 E4. cbn. auto.
  - cbn. apply (sh_member _ _ _ _ Hsh).
  - reflexivity.
Qed.

(** ** Pins of a leaf and of an internal node *)

Lemma PinLeaf_shows (n : nat) (pins : list Z) (s : BPlusTree) (t t' : Tree.BPlusTree)
                    (off : Z) (l : LeafPage.t) :
  shows n pins s t -> (length pins < n)%nat -> off ∉ pins ->
  off + PAGE_SIZE <= meta_next t ->
  Tree.PinLeaf off t = (Ok l, t') ->
  t' = t /\ page_at t off = PLeaf l /\
  exists s2, PinLeaf off s = (Ok l, s2) /\ shows n (off :: pins) s2 t.
Proof.
  intros Hsh Hlen Hnp Hbel Hrun. unfold Tree.PinLeaf in Hrun.
  apply bind_ok_inv in Hrun. destruct Hrun as (pg & t1 & Hpin & Hrun).
  destruct pg as [l'| |]; try discriminate. cbn in Hrun. injection Hrun as <- <-.
  destruct (PinPage_shows n pins s t t1 off (PLeaf l') Hsh Hlen Hnp Hpin Hbel I) as (-> & s2 & H2 & Hsh2).
  apply PinPage_inv in Hpin. destruct Hpin as (_ & Hpg & _).
  split; [reflexivity|]. split; [now symmetry|]. exists s2. split; [|exact Hsh2].
  unfold PinLeaf. now rewrite (prun_bind _ _ _ _ _ H2).
Qed.

Lemma PinInternal_shows (n : nat) (pins : list Z) (s : BPlusTree) (t t' : Tree.BPlusTree)
                        (off : Z) (nd : InternalPage.t) :
  shows n pins s t -> (length pins < n)%nat -> off ∉ pins ->
  off + PAGE_SIZE <= meta_next t ->
  Tree.PinInternal off t = (Ok nd, t') ->
  t' = t /\ page_at t off = PInternal nd /\
  exists s2, PinInternal off s = (Ok nd, s2) /\ shows n (off :: pins) s2 t.
Proof.
  intros Hsh Hlen Hnp Hbel Hrun. unfold Tree.PinInternal in Hrun.
  apply bind_ok_inv in Hrun. destruct Hrun as (pg & t1 & Hpin & Hrun).
  destruct pg as [|nd'|]; try discriminate. cbn in Hrun. injection Hrun as <- <-.
  destruct (PinPage_shows n pins s t t1 off (PInternal nd') Hsh Hlen Hnp Hpin Hbel I)
    as (-> & s2 & H2 & Hsh2).
  apply PinPage_inv in Hpin. destruct Hpin as (_ & Hpg & _).
  split; [reflexivity|]. split; [now symmetry|]. exists s2. split; [|exact Hsh2].
  unfold PinInternal. now rewrite (prun_bind _ _ _ _ _ H2).
Qed.

Lemma AllocInit_shows (n : nat) (pins : list Z) (s : BPlusTree) (t t' : Tree.BPlusTree) (off : Z) :
  shows n pins s t -> (length pins < n)%nat ->
  Tree.AllocPage t = (Ok off, t') ->
  exists s2, AllocInit s = (Ok off, s2) /\ shows n (off :: pins) s2 t' /\
             meta_next t <= meta_next t' /\ off + PAGE_SIZE <= meta_next t' /\
             page_at t' off = zero_page /\ off ∉ pins /\
             (forall x, x <> off -> page_at t' x = page_at t x) /\
             Tree.root_offset_ t' = Tree.root_offset_ t.
Proof.
  intros Hsh Hlen Hrun.
  destruct (AllocPage_shows n pins s t t' off Hsh Hlen Hrun) as (s2 & H2 & Hrest).
  exists s2. split; [|exact Hrest]. unfold AllocInit. now rewrite (prun_bind _ _ _ _ _ H2).
Qed.

End PoolSim.


(** * The pool under the tree: search and insert *)

Module InsertSim.
Import Tree TreeSpec PagePool Pooled PooledSpec.
Import SlotsFacts LeafFacts InternalFacts OrderFacts StateFacts GhostFacts.
Import SearchFacts InsertPageFacts InsertFacts ReachFacts PoolProps PoolSim.

(** One step of the tree and the same step of the pool.  [Hrun] is the run
    of the tree, [Hsh] relates the state of the pool to that of the tree. *)
Ltac sim_start Hrun a t1 H1 :=
  apply bind_ok_inv in Hrun; destruct Hrun as (a & t1 & H1 & Hrun).

Ltac pins_side :=
  match goal with
  | |- (_ < _)%nat => cbn [length]; lia
  | |- _ ∉ [] => apply not_elem_of_nil
  | |- _ ∉ [_] => let H := fresh in intros H; apply list_elem_of_singleton in H; try congruence; try lia
  | |- _ = true -> not_free _ => intros _; exact I
  | |- not_free _ => exact I
  | _ => idtac
  end.

Ltac sim_unpin Hrun Hsh :=
  let t1 := fresh "t" in let H1 := fresh "Hu" in let s1 := fresh "s" in
  let Hs1 := fresh "Hs" in let Hsh1 := fresh "Hsh" in let Htab := fresh "Htab" in
  let u := fresh "u" in
  apply bind_ok_inv in Hrun; destruct Hrun as (u & t1 & H1 & Hrun); destruct u;
  eapply UnpinPage_shows in H1; [|exact Hsh|pins_side];
  destruct H1 as (s1 & Hs1 & Hsh1 & Htab);
  rewrite (prun_bind _ _ _ _ _ Hs1); clear Hs1.

Ltac sim_last_unpin Hrun Hsh :=
  let s1 := fresh "s" in let Hs1 := fresh "Hs" in let Hsh1 := fresh "Hsh" in
  let Htab := fresh "Htab" in
  eapply UnpinPage_shows in Hrun; [|exact Hsh|pins_side];
  destruct Hrun as (s1 & Hs1 & Hsh1 & Htab).

Lemma ret_inv {A : Type} (a b : A) (t t' : Tree.BPlusTree) :
  Tree.ret a t = (Ok b, t') -> b = a /\ t' = t.
Proof. now intros [= <- <-]. Qed.

Lemma UnpinPage_frontier (t t' : Tree.BPlusTree) (off : Z) (view : page) (d : bool) :
  Tree.UnpinPage off view d t = (Ok tt, t') ->
  meta_next t' = meta_next t /\ Tree.root_offset_ t' = Tree.root_offset_ t.
Proof. intros H. apply UnpinPage_run in H. subst t'. destruct d; split; reflexivity. Qed.

(** [InsertIntoLeaf] on a pool of two frames or more: the leaf stays
    pinned while the new leaf is allocated. *)
Lemma InsertIntoLeaf_sim (n : nat) (s : BPlusTree) (t t' : Tree.BPlusTree)
                         (off key : Z) (data : list Z) (r : option (Z * Z)) :
  shows n [] s t -> (2 <= n)%nat -> off + PAGE_SIZE <= meta_next t ->
  Tree.InsertIntoLeaf off key data t = (Ok r, t') ->
  exists s', InsertIntoLeaf off key data s = (Ok r, s') /\ shows n [] s' t' /\
             meta_next t <= meta_next t'.
Proof.
  intros Hsh Hn Hbel Hrun. unfold Tree.InsertIntoLeaf in Hrun. unfold InsertIntoLeaf.
  sim_start Hrun leaf t1 Hpin.
  destruct (PinLeaf_shows n [] s t t1 off leaf Hsh ltac:(cbn; lia) ltac:(apply not_elem_of_nil)
              Hbel Hpin) as (-> & Hpg & s1 & Hs1 & Hsh1).
  rewrite (prun_bind _ _ _ _ _ Hs1). clear Hs1.
  destruct (find_key leaf key (Z.to_nat (LeafPage.NumKeys leaf)) 0) as [i|].
  { pose proof Hrun as Hrun0. sim_start Hrun0 u t2 Hu. apply ret_inv in Hrun0.
    destruct Hrun0 as [-> ->]. destruct u.
    pose proof (UnpinPage_frontier _ _ _ _ _ Hu) as [Hf _].
    sim_last_unpin Hu Hsh1. exists s0. split; [|split; [exact Hsh0 | lia]].
    now rewrite (prun_bind _ _ _ _ _ Hs). }
  destruct (LeafPage.NumKeys leaf <? LEAF_MAX_KEYS).
  { destruct (leaf_make_room leaf key (Z.to_nat (LeafPage.NumKeys leaf))) as [pos leaf'].
    pose proof Hrun as Hrun0. sim_start Hrun0 u t2 Hu. apply ret_inv in Hrun0.
    destruct Hrun0 as [-> ->]. destruct u.
    pose proof (UnpinPage_frontier _ _ _ _ _ Hu) as [Hf _].
    sim_last_unpin Hu Hsh1. exists s0. split; [|split; [exact Hsh0 | lia]].
    now rewrite (prun_bind _ _ _ _ _ Hs). }
  (* full: the new leaf is allocated while the leaf is pinned *)
  sim_start Hrun noff t2 Hal.
  destruct (AllocInit_shows n [off] s1 t t2 noff Hsh1 ltac:(cbn; lia) Hal)
    as (s2 & Hs2 & Hsh2 & Hmono & Hnbel & Hzero & Hnin & Hsame & Hroot).
  rewrite (prun_bind _ _ _ _ _ Hs2). clear Hs2.
  assert (Hne : noff <> off) by (intros ->; apply Hnin, list_elem_of_here).
  sim_start Hrun u t3 Hu1. destruct u.
  pose proof (UnpinPage_frontier _ _ _ _ _ Hu1) as [Hf1 _].
  sim_last_unpin Hu1 Hsh2. rewrite (prun_bind _ _ _ _ _ Hs). clear Hs.
  sim_start Hrun u t4 Hu2. destruct u.
  pose proof (UnpinPage_frontier _ _ _ _ _ Hu2) as [Hf2 _].
  sim_last_unpin Hu2 Hsh0. rewrite (prun_bind _ _ _ _ _ Hs). clear Hs.
  sim_start Hrun npage t5 Hpin2.
  destruct (PinLeaf_shows n [] s3 t4 t5 noff npage Hsh3 ltac:(cbn; lia) ltac:(apply not_elem_of_nil)
              ltac:(lia) Hpin2) as (-> & Hpg2 & s4 & Hs4 & Hsh4).
  rewrite (prun_bind _ _ _ _ _ Hs4). clear Hs4.
  sim_start Hrun u t6 Hu3. destruct u. apply ret_inv in Hrun. destruct Hrun as [-> ->].
  pose proof (UnpinPage_frontier _ _ _ _ _ Hu3) as [Hf3 _].
  sim_last_unpin Hu3 Hsh4. exists s5. split; [|split; [exact Hsh5 | lia]].
  now rewrite (prun_bind _ _ _ _ _ Hs).
Qed.

(** [InsertIntoInternal]: the node is not pinned while the new node is
    allocated. *)
Lemma InsertIntoInternal_sim (n : nat) (s : BPlusTree) (t t' : Tree.BPlusTree)
                             (off key child : Z) (r : option (Z * Z)) :
  shows n [] s t -> (1 <= n)%nat -> off + PAGE_SIZE <= meta_next t ->
  Tree.InsertIntoInternal off key child t = (Ok r, t') ->
  exists s', InsertIntoInternal off key child s = (Ok r, s') /\ shows n [] s' t' /\
             meta_next t <= meta_next t'.
Proof.
  intros Hsh Hn Hbel Hrun. unfold Tree.InsertIntoInternal in Hrun. unfold InsertIntoInternal.
  sim_start Hrun node t1 Hpin.
  destruct (PinInternal_shows n [] s t t1 off node Hsh ltac:(cbn; lia) ltac:(apply not_elem_of_nil)
              Hbel Hpin) as (-> & Hpg & s1 & Hs1 & Hsh1).
  rewrite (prun_bind _ _ _ _ _ Hs1). clear Hs1.
  destruct (InternalPage.NumKeys node <? INTERNAL_MAX_KEYS).
  { destruct (internal_make_room node key (Z.to_nat (InternalPage.NumKeys node))) as [pos node'].
    pose proof Hrun as Hrun0. sim_start Hrun0 u t2 Hu. apply ret_inv in Hrun0.
    destruct Hrun0 as [-> ->]. destruct u.
    pose proof (UnpinPage_frontier _ _ _ _ _ Hu) as [Hf _].
    sim_last_unpin Hu Hsh1. exists s0. split; [|split; [exact Hsh0 | lia]].
    now rewrite (prun_bind _ _ _ _ _ Hs). }
  sim_start Hrun u t2 Hu0. destruct u.
  pose proof (UnpinPage_frontier _ _ _ _ _ Hu0) as [Hf0 _].
  sim_last_unpin Hu0 Hsh1. rewrite (prun_bind _ _ _ _ _ Hs). clear Hs.
  sim_start Hrun noff t3 Hal.
  destruct (AllocInit_shows n [] s0 t2 t3 noff Hsh0 ltac:(cbn; lia) Hal)
    as (s2 & Hs2 & Hsh2 & Hmono & Hnbel & Hzero & Hnin & Hsame & Hroot).
  rewrite (prun_bind _ _ _ _ _ Hs2). clear Hs2.
  sim_start Hrun u t4 Hu1. destruct u.
  pose proof (UnpinPage_frontier _ _ _ _ _ Hu1) as [Hf1 _].
  sim_last_unpin Hu1 Hsh2. rewrite (prun_bind _ _ _ _ _ Hs). clear Hs.
  sim_start Hrun node2 t5 Hpin2.
  destruct (PinInternal_shows n [] s3 t4 t5 off node2 Hsh3 ltac:(cbn; lia)
              ltac:(apply not_elem_of_nil) ltac:(lia) Hpin2) as (-> & Hpg2 & s4 & Hs4 & Hsh4).
  rewrite (prun_bind _ _ _ _ _ Hs4). clear Hs4.
  sim_start Hrun u t6 Hu3. destruct u. apply ret_inv in Hrun. destruct Hrun as [-> ->].
  pose proof (UnpinPage_frontier _ _ _ _ _ Hu3) as [Hf3 _].
  sim_last_unpin Hu3 Hsh4. exists s5. split; [|split; [exact Hsh5 | lia]].
  now rewrite (prun_bind _ _ _ _ _ Hs).
Qed.

(** ** [InsertRecursive] *)

Lemma InsertRecursive_mono_le (key : Z) (data : list Z) (fuel fuel' : nat) (off : Z)
                              (st st' : Tree.BPlusTree) (r : option (Z * Z)) :
  (fuel <= fuel')%nat ->
  Tree.InsertRecursive fuel off key data st = (Ok r, st') ->
  Tree.InsertRecursive fuel' off key data st = (Ok r, st').
Proof.
  intros Hle H. induction Hle as [|m Hle IH]; [exact H | now apply InsertRecursive_mono].
Qed.

(** What a run of [InsertRecursive] that returns leaves behind. *)
Lemma InsertRecursive_post (h : nat) (g : tree) (lmin imin lo hi : Z) (fr : list Z)
                           (st st' : Tree.BPlusTree) (key : Z) (data : list Z) (fuel : nat)
                           (r : option (Z * Z)) :
  rep h (pages st) g -> wf h lmin imin lo hi g -> lo <= key < hi ->
  NoDup (offsets g ++ fr) -> alloc_inv st (offsets g ++ fr) ->
  Tree.InsertRecursive fuel (root g) key data st = (Ok r, st') ->
  ins_post h g lmin imin lo hi fr st key data r st'.
Proof.
  intros Hr Hw Hk Hnd Ha Hrun.
  destruct (InsertRecursive_spec h g lmin imin lo hi fr st key data Hr Hw Hk Hnd Ha)
    as (st1 & r1 & Hrun1 & Hpost).
  pose proof (InsertRecursive_mono_le key data fuel (Nat.max fuel (S h)) _ _ _ _
                ltac:(lia) Hrun) as H1.
  rewrite (Hrun1 (Nat.max fuel (S h)) ltac:(lia)) in H1. injection H1 as <- <-. exact Hpost.
Qed.

Lemma deref_some {B : Type} (pg : page) (k : page -> M B) (s : BPlusTree) :
  (deref (Some pg) ≫= k) s = k pg s.
Proof. reflexivity. Qed.

Lemma used_below (st : Tree.BPlusTree) (used : list Z) (off : Z) :
  alloc_inv st used -> off ∈ used -> off + PAGE_SIZE <= meta_next st.
Proof. intros Ha Hin. now apply (ai_used _ _ Ha). Qed.

(** The descent of an insert on a pool of two frames or more goes as on
    the tree. *)
Lemma InsertRecursive_sim (n : nat) (h : nat) :
  (2 <= n)%nat ->
  forall (g : tree) (lmin imin lo hi : Z) (fr : list Z) (st st' : Tree.BPlusTree)
         (key : Z) (data : list Z) (s : BPlusTree) (fuel : nat) (r : option (Z * Z)),
    rep h (pages st) g -> wf h lmin imin lo hi g -> lo <= key < hi ->
    NoDup (offsets g ++ fr) -> alloc_inv st (offsets g ++ fr) ->
    shows n [] s st ->
    Tree.InsertRecursive fuel (root g) key data st = (Ok r, st') ->
    exists s', InsertRecursive fuel (root g) key data s = (Ok r, s') /\ shows n [] s' st'.
Proof.
  intros Hn. induction h as [|h IH];
    intros g lmin imin lo hi fr st st' key data s fuel r Hr Hw Hk Hnd Ha Hsh Hrun.
  - (* a leaf *)
    destruct fuel as [|fuel]; [discriminate|].
    apply rep_leaf_inv in Hr. destruct Hr as (off & recs & next & -> & Hl).
    destruct Hl as (l & Hp & Hl). cbn [root] in *.
    assert (Hbel : off + PAGE_SIZE <= meta_next st).
    { eapply used_below; [exact Ha|]. cbn. apply list_elem_of_here. }
    rewrite InsertRecursive_S in Hrun. cbn [InsertRecursive].
    sim_start Hrun pg t1 Hpin.
    assert (Hpg : pg = PLeaf l).
    { apply PinPage_inv in Hpin. destruct Hpin as (_ & -> & _). now apply page_at_Some. }
    subst pg.
    destruct (PinPage_shows n [] s st t1 off (PLeaf l) Hsh ltac:(cbn; lia)
                ltac:(apply not_elem_of_nil) Hpin Hbel I) as (-> & s1 & Hs1 & Hsh1).
    rewrite (prun_bind _ _ _ _ _ Hs1), deref_some. clear Hs1.
    sim_start Hrun u t2 Hu. destruct u.
    pose proof (UnpinPage_frontier _ _ _ _ _ Hu) as [Hf _].
    sim_last_unpin Hu Hsh1. rewrite (prun_bind _ _ _ _ _ Hs). clear Hs.
    destruct (InsertIntoLeaf_sim n s0 t2 st' off key data r Hsh0 Hn ltac:(lia) Hrun)
      as (s' & Hs' & Hsh' & _).
    eauto.
  - (* an internal node *)
    destruct fuel as [|fuel]; [discriminate|].
    apply rep_node_inv in Hr. destruct Hr as (off & keys & kids & -> & Hnode & Hkids).
    pose proof Hnode as (nd & Hp & Hnk & Hkv & Hcv).
    destruct (node_focus h _ _ _ _ _ _ _ _ key nd Hnode Hp Hw Hk)
      as (l1 & c & l2 & Hsplit & Hl1 & Hi & Hchild & Hwc & Hkc & _).
    set (i := child_index nd key (Z.to_nat (InternalPage.num_keys nd)) 0) in *.
    subst kids. cbn [root] in *.
    set (fr' := off :: offsets_of l1 ++ offsets_of l2 ++ fr).
    assert (Hperm : offsets (Node off keys (l1 ++ c :: l2)) ++ fr ≡ₚ offsets c ++ fr').
    { rewrite offsets_Node, offsets_of_app, offsets_of_cons. unfold fr'. solve_Permutation. }
    assert (Hbel : off + PAGE_SIZE <= meta_next st).
    { eapply used_below; [exact Ha|]. rewrite offsets_Node. apply list_elem_of_here. }
    rewrite Hperm in Hnd. apply (alloc_inv_perm _ _ _ Hperm) in Ha.
    apply Forall_app in Hkids. destruct Hkids as [_ Hkids].
    apply Forall_cons in Hkids. destruct Hkids as [Hc _].
    rewrite InsertRecursive_S in Hrun. cbn [InsertRecursive].
    sim_start Hrun pg t1 Hpin.
    assert (Hpg : pg = PInternal nd).
    { apply PinPage_inv in Hpin. destruct Hpin as (_ & -> & _). now apply page_at_Some. }
    subst pg.
    destruct (PinPage_shows n [] s st t1 off (PInternal nd) Hsh ltac:(cbn; lia)
                ltac:(apply not_elem_of_nil) Hpin Hbel I) as (-> & s1 & Hs1 & Hsh1).
    rewrite (prun_bind _ _ _ _ _ Hs1), deref_some. clear Hs1.
    sim_start Hrun u t2 Hu. destruct u.
    pose proof (UnpinPage_run _ _ _ _ _ Hu) as Ht2. cbn in Ht2. subst t2.
    sim_last_unpin Hu Hsh1. rewrite (prun_bind _ _ _ _ _ Hs). clear Hs.
    sim_start Hrun r0 st1 Hrec.
    unfold InternalPage.NumKeys in Hrec |- *. fold i in Hrec |- *. rewrite Hchild in Hrec |- *.
    pose proof (InsertRecursive_post h c _ _ _ _ fr' st st1 key data fuel r0 Hc Hwc Hkc Hnd Ha Hrec)
      as (_ & _ & ks & ts & _ & _ & _ & _ & Ha1 & _).
    destruct (IH c _ _ _ _ fr' st st1 key data s0 fuel r0 Hc Hwc Hkc Hnd Ha Hsh0 Hrec)
      as (s2 & Hs2 & Hsh2).
    rewrite (prun_bind _ _ _ _ _ Hs2). clear Hs2.
    destruct r0 as [[sk noff]|].
    + assert (Hbel1 : off + PAGE_SIZE <= meta_next st1).
      { eapply used_below; [exact Ha1|]. apply elem_of_app. right. apply list_elem_of_here. }
      destruct (InsertIntoInternal_sim n s2 st1 st' off sk noff r Hsh2 ltac:(lia) Hbel1 Hrun)
        as (s' & Hs' & Hsh' & _).
      eauto.
    + apply ret_inv in Hrun. destruct Hrun as [-> ->]. exists s2. split; [reflexivity | exact Hsh2].
Qed.

(** ** [Insert] *)

Lemma gets_root (s : BPlusTree) (t : Tree.BPlusTree) (n : nat) (pins : list Z) {B : Type}
                (k : Z -> M B) :
  shows n pins s t -> (gets root_offset_ ≫= k) s = k (Tree.root_offset_ t) s.
Proof. intros Hsh. unfold root_offset_. rewrite <- (sh_root _ _ _ _ Hsh). reflexivity. Qed.

Lemma set_root_run (n : nat) (pins : list Z) (s : BPlusTree) (t t' : Tree.BPlusTree) (r : Z) :
  shows n pins s t -> modify (fun t => set_root_offset_ t r) t = (Ok tt, t') ->
  exists s2, lift (modify (fun t => set_root_offset_ t r)) s = (Ok tt, s2) /\ shows n pins s2 t'.
Proof.
  intros Hsh [= <-]. eexists. split; [reflexivity|]. now apply set_root_shows.
Qed.

(** The end of [Insert] after the new root page was allocated. *)
Lemma new_root_sim (n : nat) (s : BPlusTree) (t t' : Tree.BPlusTree) (off : Z) (pg : page)
                   (r : Status) :
  shows n [off] s t -> not_free pg ->
  (Tree.UnpinPage off pg true;;
   modify (fun t => set_root_offset_ t off);;
   Tree.WriteMetadata;;
   Tree.ret OK) t = (Ok r, t') ->
  exists s',
    (UnpinPage off pg true;;
     lift (modify (fun t => set_root_offset_ t off));;
     WriteMetadata;;
     ret OK) s = (Ok r, s') /\ shows n [] s' t'.
Proof.
  intros Hsh Hnf Hrun.
  sim_start Hrun u t1 Hu. destruct u.
  eapply UnpinPage_shows in Hu; [|exact Hsh|intros _; exact Hnf].
  destruct Hu as (s1 & Hs1 & Hsh1 & _). rewrite (prun_bind _ _ _ _ _ Hs1). clear Hs1.
  sim_start Hrun u t2 Hm. destruct u.
  destruct (set_root_run n [] s1 t1 t2 off Hsh1 Hm) as (s2 & Hs2 & Hsh2).
  rewrite (prun_bind _ _ _ _ _ Hs2). clear Hs2.
  sim_start Hrun u t3 Hw. destruct u. apply ret_inv in Hrun. destruct Hrun as [-> ->].
  destruct (WriteMetadata_shows n [] s2 t2 t3 Hsh2 Hw) as (s3 & Hs3 & Hsh3).
  rewrite (prun_bind _ _ _ _ _ Hs3). exists s3. split; [reflexivity | exact Hsh3].
Qed.

(** An insert into a well-formed tree on a pool of two frames or more does
    what the insert on the tree does. *)
Lemma Insert_sim (n : nat) (s : BPlusTree) (st st' : Tree.BPlusTree) (recs : list (Z * list Z))
                 (key : Z) (data : list Z) (fuel : nat) (r : Status) :
  (2 <= n)%nat -> tree_holds st recs -> is_int key -> shows n [] s st ->
  Tree.Insert fuel key data st = (Ok r, st') ->
  exists s', Insert fuel key data s = (Ok r, s') /\ shows n [] s' st'.
Proof.
  intros Hn Hh Hk Hsh Hrun. unfold Tree.Insert in Hrun. unfold Insert.
  rewrite bind_gets in Hrun. rewrite (gets_root s st n [] _ Hsh).
  destruct Hh as [Hroot Ha | h g Hroot Hr Hnd Hw Hl Ha].
  - rewrite Hroot, Z.eqb_refl in *.
    sim_start Hrun off t1 Hal.
    destruct (AllocPage_shows n [] s st t1 off Hsh ltac:(cbn; lia) Hal)
      as (s1 & Hs1 & Hsh1 & _).
    rewrite (prun_bind _ _ _ _ _ Hs1). clear Hs1.
    refine (new_root_sim n s1 t1 st' off _ r Hsh1 _ Hrun). exact I.
  - pose proof (alloc_inv_valid _ _ _ Ha (root_in_offsets g)) as Hv.
    assert (Hne : (root g =? INVALID_PAGE_ID) = false).
    { destruct Hv as [Hb _]. apply page_boundary_ge in Hb.
      apply Z.eqb_neq. unfold PAGE_SIZE, INVALID_PAGE_ID in *. lia. }
    rewrite Hroot, Hne in *.
    rewrite <- (app_nil_r (offsets g)) in Hnd, Ha.
    sim_start Hrun r0 st1 Hrec.
    destruct (InsertRecursive_sim n h Hn g 1 1 INT_MIN (INT_MAX + 1) [] st st1 key (pad data) s
                fuel r0 Hr Hw ltac:(unfold is_int in Hk; lia) Hnd Ha Hsh Hrec) as (s1 & Hs1 & Hsh1).
    rewrite (prun_bind _ _ _ _ _ Hs1). clear Hs1.
    destruct r0 as [[sk noff]|].
    + sim_start Hrun nr t2 Hal.
      destruct (AllocPage_shows n [] s1 st1 t2 nr Hsh1 ltac:(cbn; lia) Hal)
        as (s2 & Hs2 & Hsh2 & _).
      rewrite (prun_bind _ _ _ _ _ Hs2). clear Hs2.
      rewrite bind_gets in Hrun. rewrite (gets_root s2 t2 n [nr] _ Hsh2).
      refine (new_root_sim n s2 t2 st' nr _ r Hsh2 _ Hrun). exact I.
    + apply ret_inv in Hrun. destruct Hrun as [-> ->]. exists s1. split; [reflexivity | exact Hsh1].
Qed.

(** ** [Search] *)

Lemma PinPage_page (t t' : Tree.BPlusTree) (off : Z) (pg : page) :
  Tree.PinPage off t = (Ok pg, t') -> pg = page_at t off.
Proof. intros H. apply PinPage_inv in H. tauto. Qed.

(** The descent of a search pins one page at a time. *)
Lemma SearchLeaf_loop_sim (n : nat) (h : nat) :
  (1 <= n)%nat ->
  forall (g : tree) (lmin imin lo hi : Z) (st st' : Tree.BPlusTree) (used : list Z) (key : Z)
         (fuel : nat) (s : BPlusTree) (off : Z),
    rep h (pages st) g -> wf h lmin imin lo hi g -> lo <= key < hi ->
    alloc_inv st used -> (forall o, o ∈ offsets g -> o ∈ used) ->
    shows n [root g] s st ->
    Tree.SearchLeaf_loop fuel key (root g) (page_at st (root g)) st = (Ok off, st') ->
    exists s', SearchLeaf_loop fuel key (root g) (page_at st (root g)) s = (Ok off, s') /\
               shows n [] s' st' /\ st' = st /\ off ∈ offsets g.
Proof.
  intros Hn. induction h as [|h IH];
    intros g lmin imin lo hi st st' used key fuel s off Hr Hw Hk Ha Hused Hsh Hrun.
  - apply rep_leaf_inv in Hr. destruct Hr as (o & recs & next & -> & l & Hp & Hl).
    cbn [root] in *. rewrite (page_at_Some _ _ _ Hp) in *.
    assert (Hrun' : (Tree.UnpinPage o (PLeaf l) false;; Tree.ret o) st = (Ok off, st'))
      by (destruct fuel; exact Hrun).
    assert (Hgoal : SearchLeaf_loop fuel key o (PLeaf l) = (UnpinPage o (PLeaf l) false;; ret o))
      by (destruct fuel; reflexivity).
    rewrite Hgoal. clear Hrun Hgoal.
    sim_start Hrun' u t1 Hu. destruct u. apply ret_inv in Hrun'. destruct Hrun' as [-> ->].
    pose proof (UnpinPage_run _ _ _ _ _ Hu) as Ht1. cbn in Ht1. subst t1.
    sim_last_unpin Hu Hsh. exists s0. rewrite (prun_bind _ _ _ _ _ Hs).
    split; [reflexivity|]. split; [exact Hsh0|]. split; [reflexivity|]. cbn. apply list_elem_of_here.
  - apply rep_node_inv in Hr. destruct Hr as (o & keys & kids & -> & Hnode & Hkids).
    pose proof Hnode as (nd & Hp & Hnk & Hkv & Hcv).
    destruct (node_focus h _ _ _ _ _ _ _ _ key nd Hnode Hp Hw Hk)
      as (l1 & c & l2 & Hsplit & Hl1 & Hi & Hchild & Hwc & Hkc & _).
    cbn [root] in *. rewrite (page_at_Some _ _ _ Hp) in *.
    destruct fuel as [|fuel]; [discriminate|].
    assert (Hc : rep h (pages st) c).
    { rewrite Forall_forall in Hkids. apply Hkids. rewrite Hsplit.
      apply elem_of_app. right. apply list_elem_of_here. }
    assert (Hoc : forall x, x ∈ offsets c -> x ∈ offsets (Node o keys kids)).
    { intros x Hx. rewrite offsets_Node, Hsplit, offsets_of_app, offsets_of_cons.
      apply list_elem_of_further. apply elem_of_app. right. apply elem_of_app. now left. }
    pose proof (alloc_inv_valid _ _ _ Ha (Hused _ (Hoc _ (root_in_offsets c)))) as Hv.
    pose proof (used_below _ _ _ Ha (Hused _ (Hoc _ (root_in_offsets c)))) as Hbel.
    cbn [Tree.SearchLeaf_loop] in Hrun. cbn [SearchLeaf_loop].
    unfold InternalPage.NumKeys in Hrun |- *. rewrite Hchild in Hrun |- *.
    sim_start Hrun u t1 Hu1. destruct u.
    pose proof (UnpinPage_run _ _ _ _ _ Hu1) as Ht1. cbn in Ht1. subst t1.
    sim_last_unpin Hu1 Hsh. rewrite (prun_bind _ _ _ _ _ Hs). clear Hs.
    destruct (Z.ltb_spec (root c) PAGE_SIZE) as [Hlt|_].
    { destruct Hv as [Hb _]. apply page_boundary_ge in Hb. lia. }
    sim_start Hrun pg t2 Hpin.
    pose proof (PinPage_page _ _ _ _ Hpin) as ->.
    assert (Hnf : not_free (page_at st (root c))).
    { destruct h.
      - apply rep_leaf_inv in Hc. destruct Hc as (? & ? & ? & -> & ? & Hpc & _).
        cbn [root]. now rewrite (page_at_Some _ _ _ Hpc).
      - apply rep_node_inv in Hc. destruct Hc as (? & ? & ? & -> & (? & Hpc & _) & _).
        cbn [root]. now rewrite (page_at_Some _ _ _ Hpc). }
    destruct (PinPage_shows n [] s0 st t2 (root c) _ Hsh0 ltac:(cbn; lia)
                ltac:(apply not_elem_of_nil) Hpin Hbel Hnf) as (-> & s1 & Hs1 & Hsh1).
    rewrite (prun_bind _ _ _ _ _ Hs1). clear Hs1.
    destruct (IH c _ _ _ _ st st' used key fuel s1 off Hc Hwc Hkc Ha
                ltac:(intros x Hx; apply Hused, Hoc, Hx) Hsh1 Hrun) as (s' & Hs' & Hsh' & -> & Hoff).
    exists s'. split; [exact Hs'|]. split; [exact Hsh'|]. split; [reflexivity|]. now apply Hoc.
Qed.

(** A search in a well-formed tree pins one page at a time: one frame is
    enough. *)
Lemma Search_sim (n : nat) (s : BPlusTree) (st st' : Tree.BPlusTree) (recs : list (Z * list Z))
                 (key : Z) (fuel : nat) (r : Status * option (list Z)) :
  (1 <= n)%nat -> tree_holds st recs -> is_int key -> shows n [] s st ->
  Tree.Search fuel key st = (Ok r, st') ->
  exists s', Search fuel key s = (Ok r, s') /\ shows n [] s' st'.
Proof.
  intros Hn Hh Hk Hsh Hrun. unfold Tree.Search, Tree.SearchLeaf in Hrun. unfold Search, SearchLeaf.
  destruct Hh as [Hroot Ha | h g Hroot Hr Hnd Hw Hl Ha].
  - sim_start Hrun off t1 Hsl. rewrite bind_gets, Hroot, Z.eqb_refl in Hsl.
    apply ret_inv in Hsl. destruct Hsl as [-> ->]. rewrite Z.eqb_refl in Hrun.
    apply ret_inv in Hrun. destruct Hrun as [-> ->].
    exists s. split; [|exact Hsh].
    unfold mbind, M_bind, bind, gets, root_offset_. rewrite (sh_root _ _ _ _ Hsh), Hroot.
    reflexivity.
  - pose proof (alloc_inv_valid _ _ _ Ha (root_in_offsets g)) as Hv.
    pose proof (used_below _ _ _ Ha (root_in_offsets g)) as Hbel.
    assert (Hne : (root g =? INVALID_PAGE_ID) = false).
    { destruct Hv as [Hb _]. apply page_boundary_ge in Hb.
      apply Z.eqb_neq. unfold PAGE_SIZE, INVALID_PAGE_ID in *. lia. }
    sim_start Hrun off t1 Hsl. rewrite bind_gets, Hroot, Hne in Hsl.
    sim_start Hsl pg t0 Hpin. pose proof (PinPage_page _ _ _ _ Hpin) as ->.
    assert (Hnf : not_free (page_at st (root g))).
    { destruct h.
      - apply rep_leaf_inv in Hr. destruct Hr as (? & ? & ? & -> & ? & Hpc & _).
        cbn [root]. now rewrite (page_at_Some _ _ _ Hpc).
      - apply rep_node_inv in Hr. destruct Hr as (? & ? & ? & -> & (? & Hpc & _) & _).
        cbn [root]. now rewrite (page_at_Some _ _ _ Hpc). }
    destruct (PinPage_shows n [] s st t0 (root g) _ Hsh ltac:(cbn; lia)
                ltac:(apply not_elem_of_nil) Hpin Hbel Hnf) as (-> & s1 & Hs1 & Hsh1).
    destruct (SearchLeaf_loop_sim n h Hn g _ _ _ _ st t1 (offsets g) key fuel s1 off Hr Hw
                ltac:(unfold is_int in Hk; lia) Ha ltac:(auto) Hsh1 Hsl)
      as (s2 & Hs2 & Hsh2 & -> & Hoff).
    assert (Hsl2 : (root ← gets root_offset_;
                    if root =? INVALID_PAGE_ID then ret INVALID_PAGE_ID
                    else page ← PinPage root;
                         match page with
                         | None => ret INVALID_PAGE_ID
                         | Some page => SearchLeaf_loop fuel key root page
                         end) s = (Ok off, s2)).
    { rewrite (gets_root s st n [] _ Hsh), Hroot, Hne.
      rewrite (prun_bind _ _ _ _ _ Hs1). exact Hs2. }
    rewrite (prun_bind _ _ _ _ _ Hsl2). clear Hsl2.
    pose proof (used_below _ _ _ Ha Hoff) as Hbel2.
    destruct (off =? INVALID_PAGE_ID).
    { apply ret_inv in Hrun. destruct Hrun as [-> ->]. exists s2. split; [reflexivity | exact Hsh2]. }
    sim_start Hrun leaf t3 Hpl.
    destruct (PinLeaf_shows n [] s2 st t3 off leaf Hsh2 ltac:(cbn; lia)
                ltac:(apply not_elem_of_nil) Hbel2 Hpl) as (-> & Hpg & s3 & Hs3 & Hsh3).
    unfold PinLeaf in Hs3.
    assert (Hs3' : PinPage off s2 = (Ok (Some (PLeaf leaf)), s3)).
    { revert Hs3. unfold mbind, M_bind, bind.
      destruct (PinPage off s2) as [[[[l'| |]|]| | | |] sx]; try discriminate.
      now intros [= <- <-]. }
    rewrite (prun_bind _ _ _ _ _ Hs3'). clear Hs3 Hs3'.
    destruct (find_key leaf key (Z.to_nat (LeafPage.NumKeys leaf)) 0) as [i|].
    + sim_start Hrun u t4 Hu. destruct u. apply ret_inv in Hrun. destruct Hrun as [-> ->].
      sim_last_unpin Hu Hsh3. exists s0. rewrite (prun_bind _ _ _ _ _ Hs).
      split; [reflexivity | exact Hsh0].
    + sim_start Hrun u t4 Hu. destruct u. apply ret_inv in Hrun. destruct Hrun as [-> ->].
      sim_last_unpin Hu Hsh3. exists s0. rewrite (prun_bind _ _ _ _ _ Hs).
      split; [reflexivity | exact Hsh0].
Qed.

Lemma SearchString_sim (n : nat) (s : BPlusTree) (st st' : Tree.BPlusTree)
                       (recs : list (Z * list Z)) (key : Z) (fuel : nat)
                       (r : Status * option (list Z)) :
  (1 <= n)%nat -> tree_holds st recs -> is_int key -> shows n [] s st ->
  Tree.SearchString fuel key st = (Ok r, st') ->
  exists s', SearchString fuel key s = (Ok r, s') /\ shows n [] s' st'.
Proof.
  intros Hn Hh Hk Hsh Hrun. unfold Tree.SearchString in Hrun. unfold SearchString.
  sim_start Hrun r0 t1 Hs.
  destruct (Search_sim n s st t1 recs key fuel r0 Hn Hh Hk Hsh Hs) as (s1 & Hs1 & Hsh1).
  rewrite (prun_bind _ _ _ _ _ Hs1). destruct r0 as [a buf].
  apply ret_inv in Hrun. destruct Hrun as [-> ->]. exists s1. split; [reflexivity | exact Hsh1].
Qed.

End InsertSim.


(** * The tree on its pool: what the operations leave *)

Module PooledFacts.
Import Tree TreeSpec PagePool Pooled PooledSpec.
Import SlotsFacts LeafFacts InternalFacts OrderFacts StateFacts GhostFacts.
Import SearchFacts InsertPageFacts InsertFacts RoundTripFacts ReachFacts PoolProps PoolSim InsertSim.

(** ** The tree on a brand-new file *)

Lemma NoDup_rev_seq (n : nat) : NoDup (rev (seq 0 n)).
Proof. rewrite <- Permutation_rev. apply NoDup_seq. Qed.

Lemma new_tree_shows (n : nat) : shows n [] (new_tree n) empty_tree.
Proof.
  constructor; try reflexivity.
  - constructor; cbn [new_tree create pool_ core frames_ page_table_ lru_list_ free_list_].
    + apply length_replicate.
    + rewrite length_rev, length_seq. cbn. lia.
    + constructor.
    + intros p idx H. rewrite lookup_empty in H. discriminate.
    + intros p H. apply elem_of_nil in H. contradiction.
    + intros idx H. apply elem_of_nil in H. contradiction.
    + constructor.
    + intros idx H. rewrite <- Permutation_rev in H. apply elem_of_seq in H. split; [lia|].
      intros p Hp. rewrite lookup_empty in Hp. discriminate.
    + apply NoDup_rev_seq.
    + intros p idx f H. rewrite lookup_empty in H. discriminate.
    + intros p idx f H. rewrite lookup_empty in H. discriminate.
    + cbn. unfold PAGE_SIZE. lia.
  - exists []. split; [reflexivity|]. split; [constructor|].
    intros off H. apply elem_of_nil in H. contradiction.
Qed.

Lemma empty_holds : tree_holds empty_tree [].
Proof. apply holds_empty; [reflexivity|]. apply alloc_check_sound. reflexivity. Qed.

Lemma new_tree_holds (n : nat) : holds n (new_tree n) [].
Proof. exists empty_tree. split; [apply new_tree_shows | exact empty_holds]. Qed.

(** ** From the runs of the tree to the runs on the pool *)

(** An operation of the tree that returns with every amount of fuel from
    some amount on, and that the pool follows step by step, returns on the
    pool with the same amounts of fuel. *)
Lemma runs_shows {A : Type} (f1 : nat -> Tree.M A) (f2 : nat -> M A) (n : nat) (s : BPlusTree)
                 (t t' : Tree.BPlusTree) (a : A) :
  TreeSpec.runs f1 t a t' ->
  (forall fuel r t'', f1 fuel t = (Ok r, t'') ->
                      exists s', f2 fuel s = (Ok r, s') /\ shows n [] s' t'') ->
  runs f2 s a (fun s' => shows n [] s' t').
Proof.
  intros [fuel0 Hrun] Hsim. exists fuel0. intros fuel Hf. apply (Hsim fuel a t'), Hrun, Hf.
Qed.

Lemma runs_impl {A : Type} (f : nat -> M A) (s : BPlusTree) (a : A) (Q R : BPlusTree -> Prop) :
  runs f s a Q -> (forall s', Q s' -> R s') -> runs f s a R.
Proof.
  intros [fuel0 H] HQR. exists fuel0. intros fuel Hf. destruct (H fuel Hf) as (s' & Hs & HQ).
  exists s'. auto.
Qed.

(** A run of [Insert] that returns leaves a tree. *)
Lemma Insert_run_holds (st st' : Tree.BPlusTree) (recs : list (Z * list Z)) (key : Z)
                       (data : list Z) (fuel : nat) (r : Status) :
  tree_holds st recs -> is_int key -> Tree.Insert fuel key data st = (Ok r, st') ->
  r = OK /\ exists recs', tree_holds st' recs' /\ ins_rel key (pad data) recs recs'.
Proof.
  intros Hh Hk Hrun. apply Insert_run_runs in Hrun.
  destruct (Insert_spec st recs key data Hh Hk) as (st1 & recs1 & Hrun1 & Hh1 & Hrel).
  destruct (runs_det _ _ _ _ _ _ Hrun Hrun1) as [-> ->]. eauto.
Qed.

(** [Insert] on a pool of two frames or more. *)
Lemma Insert_on_pool (n : nat) (s : BPlusTree) (recs : list (Z * list Z)) (key : Z) (data : list Z) :
  (2 <= n)%nat -> holds n s recs -> is_int key ->
  exists recs',
    runs (fun fuel => Insert fuel key data) s OK (fun s' => holds n s' recs') /\
    ins_rel key (pad data) recs recs'.
Proof.
  intros Hn (t & Hsh & Hh) Hk.
  destruct (Insert_spec t recs key data Hh Hk) as (t' & recs' & Hrun & Hh' & Hrel).
  exists recs'. split; [|exact Hrel].
  eapply runs_impl.
  - apply (runs_shows (fun fuel => Tree.Insert fuel key data) _ n s t t' OK Hrun).
    intros fuel r t'' H. exact (Insert_sim n s t t'' recs key data fuel r Hn Hh Hk Hsh H).
  - intros s' Hs'. exists t'. auto.
Qed.

(** [Search] on a pool of one frame or more. *)
Lemma Search_on_pool (n : nat) (s : BPlusTree) (recs : list (Z * list Z)) (key : Z) :
  (1 <= n)%nat -> holds n s recs -> is_int key ->
  runs (fun fuel => Search fuel key) s (search_result (assoc key recs))
       (fun s' => holds n s' recs).
Proof.
  intros Hn (t & Hsh & Hh) Hk.
  eapply runs_impl.
  - apply (runs_shows (fun fuel => Tree.Search fuel key) _ n s t t _ (Search_runs t recs key Hh Hk)).
    intros fuel r t'' H. exact (Search_sim n s t t'' recs key fuel r Hn Hh Hk Hsh H).
  - intros s' Hs'. exists t. auto.
Qed.

Lemma SearchString_on_pool (n : nat) (s : BPlusTree) (recs : list (Z * list Z)) (key : Z)
                           (d : list Z) :
  (1 <= n)%nat -> holds n s recs -> (key, d) ∈ recs ->
  runs (fun fuel => SearchString fuel key) s (OK, Some (to_string d))
       (fun s' => holds n s' recs).
Proof.
  intros Hn (t & Hsh & Hh) Hin.
  pose proof (tree_holds_is_int _ _ _ Hh Hin) as Hk.
  eapply runs_impl.
  - apply (runs_shows (fun fuel => Tree.SearchString fuel key) _ n s t t _
             (SearchString_runs t recs key d Hh Hin)).
    intros fuel r t'' H. exact (SearchString_sim n s t t'' recs key fuel r Hn Hh Hk Hsh H).
  - intros s' Hs'. exists t. auto.
Qed.

(** One insert after the other. *)
Lemma insert_all_sim (n : nat) (kvs : list (Z * list Z)) :
  (2 <= n)%nat ->
  forall (s : BPlusTree) (st st' : Tree.BPlusTree) (recs : list (Z * list Z)) (fuel : nat)
         (ss : list Status),
    tree_holds st recs -> Forall (fun kv => is_int (fst kv)) kvs -> shows n [] s st ->
    TreeSpec.insert_all fuel kvs st = (Ok ss, st') ->
    exists s', insert_all fuel kvs s = (Ok ss, s') /\ shows n [] s' st'.
Proof.
  intros Hn. induction kvs as [|[k v] kvs IH]; intros s st st' recs fuel ss Hh Hint Hsh Hrun.
  - injection Hrun as <- <-. exists s. split; [reflexivity | exact Hsh].
  - cbn [TreeSpec.insert_all] in Hrun. cbn [insert_all].
    apply Forall_cons in Hint. destruct Hint as [Hk Hint]. cbn [fst] in Hk.
    apply bind_ok_inv in Hrun. destruct Hrun as (r & st1 & H1 & Hrun).
    apply bind_ok_inv in Hrun. destruct Hrun as (rs & st2 & H2 & Hrun).
    injection Hrun as <- <-.
    destruct (Insert_sim n s st st1 recs k v fuel r Hn Hh Hk Hsh H1) as (s1 & Hs1 & Hsh1).
    destruct (Insert_run_holds st st1 recs k v fuel r Hh Hk H1) as (_ & recs1 & Hh1 & _).
    destruct (IH s1 st1 st2 recs1 fuel rs Hh1 Hint Hsh1 H2) as (s2 & Hs2 & Hsh2).
    exists s2. split; [|exact Hsh2].
    rewrite (prun_bind _ _ _ _ _ Hs1), (prun_bind _ _ _ _ _ Hs2). reflexivity.
Qed.

Lemma insert_all_on_pool (n : nat) (s : BPlusTree) (recs : list (Z * list Z))
                         (kvs : list (Z * list Z)) :
  (2 <= n)%nat -> holds n s recs -> NoDup (map fst kvs) ->
  Forall (fun kv => is_int (fst kv)) kvs ->
  exists recs',
    runs (fun fuel => insert_all fuel kvs) s (map (fun _ => OK) kvs)
         (fun s' => holds n s' recs') /\
    (forall k v, (k, v) ∈ kvs -> (k, pad v) ∈ recs') /\
    (forall x, x ∈ recs -> fst x ∉ map fst kvs -> x ∈ recs').
Proof.
  intros Hn (t & Hsh & Hh) Hnd Hint.
  destruct (insert_all_spec kvs t recs Hh Hnd Hint) as (t' & recs' & Hrun & Hh' & Hnew & Hold).
  exists recs'. split; [|split; [exact Hnew | exact Hold]].
  eapply runs_impl.
  - apply (runs_shows (fun fuel => TreeSpec.insert_all fuel kvs) _ n s t t' _ Hrun).
    intros fuel r t'' H. exact (insert_all_sim n kvs Hn s t t'' recs fuel r Hh Hint Hsh H).
  - intros s' Hs'. exists t'. auto.
Qed.

(** What the pool shows of a leaf of the tree. *)
Lemma leaf_at_shown (n : nat) (pins : list Z) (s : BPlusTree) (t : Tree.BPlusTree) (off : Z)
                    (recs : list (Z * list Z)) (next : Z) :
  shows n pins s t -> leaf_at (pages t) off recs next -> leaf_shown s off recs next.
Proof.
  intros Hsh (l & Hp & H). exists l. split; [|exact H].
  rewrite (sh_pages _ _ _ _ Hsh). now apply page_at_Some.
Qed.

End PooledFacts.


(** * The tree on its pool: round trip, leaf splits, child offsets beyond the file *)

Module PooledClaims.
Import Tree TreeSpec PagePool Pooled PooledSpec.
Import SlotsFacts LeafFacts InternalFacts OrderFacts StateFacts GhostFacts.
Import SearchFacts InsertPageFacts InsertFacts RoundTripFacts DescentFacts ReachFacts.
Import PoolProps PoolSim InsertSim PooledFacts.

(** ** The sample states *)

Lemma full_leaf_pooled_shows : shows 2 [] full_leaf_pooled full_leaf_tree.
Proof.
  assert (Hrun : TreeSpec.insert_all 1 full_leaf_kvs empty_tree
                 = (Ok (map (fun _ => OK) full_leaf_kvs), full_leaf_tree))
    by (vm_compute; reflexivity).
  assert (Hint : Forall (fun kv => is_int (fst kv)) full_leaf_kvs).
  { unfold full_leaf_kvs. apply Forall_forall. intros kv Hin.
    apply list_elem_of_fmap in Hin. destruct Hin as (i & -> & Hi). apply elem_of_seq in Hi.
    cbn [fst]. unfold is_int, INT_MIN, INT_MAX. lia. }
  destruct (insert_all_sim 2 full_leaf_kvs ltac:(lia) (new_tree 2) empty_tree full_leaf_tree []
              1%nat _ empty_holds Hint (new_tree_shows 2) Hrun) as (s' & Hs' & Hsh').
  unfold full_leaf_pooled. now rewrite Hs'.
Qed.

(** A pool of one frame: the split of a full leaf finds no frame for the
    new leaf, and the page is initialised through the null pointer. *)
Lemma full_leaf_one_frame_split :
  fst (InsertIntoLeaf 4096 36 (pad [100]) full_leaf_one_frame) = Undefined /\
  fst (Insert 1 36 [100] full_leaf_one_frame) = Undefined.
Proof. split; vm_compute; reflexivity. Qed.

(** A pool without a frame: [Insert] returns IOError. *)
Lemma no_frame_insert : forall fuel, fst (Insert fuel 7 [100] (new_tree 0)) = Ok IOError.
Proof. intros fuel. vm_compute. reflexivity. Qed.

(** ** Round trip *)

(** C1, as stated: on a pool of 1024 frames, a payload of three bytes, the
    second of which is zero, is accepted by [Insert]; the search for its key
    returns its first byte only. *)
Lemma zero_byte_cuts_payload :
  exists s,
    (forall fuel, insert_all fuel [(7, [97; 0; 98])] (new_tree 1024) = (Ok [OK], s)) /\
    (forall fuel, fst (SearchString fuel 7 s) = Ok (OK, Some [97])) /\
    Z.of_nat (length [97; 0; 98]) <= DATA_SIZE /\ [97] <> [97; 0; 98].
Proof.
  eexists. split; [|split; [|split]].
  - intros fuel. vm_compute. reflexivity.
  - intros [|fuel]; vm_compute; reflexivity.
  - vm_compute. discriminate.
  - discriminate.
Qed.

(** C1, amended.  On a buffer pool of two frames or more: for every
    sequence of inserts with pairwise-distinct keys and payloads of at most
    100 bytes none of which is zero, into any tree, every insert returns OK,
    and afterwards the search for each inserted key returns OK and that
    key's payload, trimmed back to its length; the searches leave the
    records of the tree as they are. *)
Theorem round_trip_on_pool (n : nat) (s : BPlusTree) (kvs : list (Z * list Z)) :
  (2 <= n)%nat -> tree_on_pool n s -> NoDup (map fst kvs) ->
  Forall (fun kv => is_int (fst kv) /\ payload_ok (snd kv)) kvs ->
  exists recs',
    runs (fun fuel => insert_all fuel kvs) s (map (fun _ => OK) kvs)
         (fun s' => holds n s' recs') /\
    forall s', holds n s' recs' ->
      forall k v, (k, v) ∈ kvs ->
        runs (fun fuel => SearchString fuel k) s' (OK, Some v) (fun s'' => holds n s'' recs').
Proof.
  intros Hn [recs H] Hnd Hok.
  destruct (insert_all_on_pool n s recs kvs Hn H Hnd) as (recs' & Hrun & Hnew & _).
  { eapply Forall_impl; [exact Hok|]. cbn. tauto. }
  exists recs'. split; [exact Hrun|].
  intros s' H' k v Hin. rewrite Forall_forall in Hok. destruct (Hok _ Hin) as [_ Hp]. cbn in Hp.
  rewrite <- (to_string_pad v Hp) at 1.
  apply (SearchString_on_pool n s' recs' k (pad v)); [lia | exact H' | now apply Hnew].
Qed.

Lemma round_trip_on_pool_witness :
  exists recs',
    runs (fun fuel => insert_all fuel sample_kvs) (new_tree 2) (map (fun _ => OK) sample_kvs)
         (fun s' => holds 2 s' recs') /\
    forall s', holds 2 s' recs' ->
      forall k v, (k, v) ∈ sample_kvs ->
        runs (fun fuel => SearchString fuel k) s' (OK, Some v) (fun s'' => holds 2 s'' recs').
Proof.
  apply (round_trip_on_pool 2 (new_tree 2) sample_kvs).
  - lia.
  - exists []. apply new_tree_holds.
  - apply ascending_NoDup. cbn. repeat split; lia.
  - repeat constructor; cbn; unfold INT_MIN, INT_MAX, DATA_SIZE; try lia; discriminate.
Defined.

(** ** The split of a full leaf *)

(** C6.  On a buffer pool of two frames or more: when [InsertIntoLeaf]
    meets a full leaf (35 records) with a key that is not present, the 36
    records are arranged in key order; the first 18 stay in the leaf, the
    other 18 go to a page that was not in use; the new leaf takes the next
    pointer of the old leaf, the old leaf points to the new leaf; the
    separator handed to the parent is the first key of the new leaf.  No
    page is left pinned and no other page changes. *)
Theorem full_leaf_splits_on_pool (n : nat) (s : BPlusTree) (t : Tree.BPlusTree) (off next key : Z)
                                 (recs : list (Z * list Z)) (used : list Z) (data : list Z) :
  (2 <= n)%nat -> shows n [] s t ->
  leaf_at (pages t) off recs next -> alloc_inv t used -> off ∈ used ->
  ascending (map fst recs) -> length recs = 35%nat -> key ∉ map fst recs ->
  exists s' t' noff all,
    InsertIntoLeaf off key data s
      = (Ok (Some (fst (nth 0 (drop 18 all) zero_record), noff)), s') /\
    shows n [] s' t' /\
    (noff ∉ used) /\
    length all = 36%nat /\ ascending (map fst all) /\
    (forall x, x ∈ all <-> x = (key, data) \/ x ∈ recs) /\
    leaf_shown s' off (take 18 all) noff /\ length (take 18 all) = 18%nat /\
    leaf_shown s' noff (drop 18 all) next /\ length (drop 18 all) = 18%nat /\
    (forall o, o <> off -> o <> noff -> pview s' o = pview s o).
Proof.
  intros Hn Hsh Hl Ha Hin Hasc Hlen Hnew.
  destruct (InsertIntoLeaf_spec t off next key recs used data Hl Ha Hin Hasc)
    as (t' & r & Hrun & _ & Hres).
  { rewrite Hlen. unfold LEAF_MAX_KEYS. lia. }
  pose proof (used_below _ _ _ Ha Hin) as Hbel.
  destruct (InsertIntoLeaf_sim n s t t' off key data r Hsh Hn Hbel Hrun) as (s' & Hs' & Hsh' & _).
  destruct r as [[sk noff]|].
  - destruct Hres as (all & Hfresh & Hleft & Hright & Hsame & _ & Hall & _ & _ & Hasc' & Hrel & ->).
    assert (Hlall : length all = 36%nat) by (rewrite Hall, length_vector_insert; lia).
    exists s', t', noff, all. rewrite nth_drop, Nat.add_0_r.
    split; [exact Hs'|]. split; [exact Hsh'|]. split; [exact Hfresh|]. split; [exact Hlall|].
    split; [exact Hasc'|].
    split; [|split; [|split; [|split; [|split]]]].
    + intros x. rewrite Hall, elem_of_vector_insert. tauto.
    + eapply leaf_at_shown; eauto.
    + rewrite length_take. lia.
    + eapply leaf_at_shown; eauto.
    + rewrite length_drop. lia.
    + intros o Ho1 Ho2. rewrite (sh_pages _ _ _ _ Hsh'), (sh_pages _ _ _ _ Hsh).
      unfold page_at. now rewrite Hsame.
  - destruct Hres as (recs' & _ & _ & _ & _ & _ & _ & _ & [Hk|Hk]).
    + contradiction.
    + rewrite Hlen in Hk. unfold LEAF_MAX_KEYS in Hk. lia.
Qed.

Lemma full_leaf_splits_on_pool_witness :
  exists s' t' noff all,
    InsertIntoLeaf 4096 36 (pad [100]) full_leaf_pooled
      = (Ok (Some (fst (nth 0 (drop 18 all) zero_record), noff)), s') /\
    shows 2 [] s' t' /\
    (noff ∉ [4096]) /\
    length all = 36%nat /\ ascending (map fst all) /\
    (forall x, x ∈ all <-> x = (36, pad [100]) \/ x ∈ full_leaf_recs) /\
    leaf_shown s' 4096 (take 18 all) noff /\ length (take 18 all) = 18%nat /\
    leaf_shown s' noff (drop 18 all) INVALID_PAGE_ID /\ length (drop 18 all) = 18%nat /\
    (forall o, o <> 4096 -> o <> noff -> pview s' o = pview full_leaf_pooled o).
Proof.
  apply (full_leaf_splits_on_pool 2 full_leaf_pooled full_leaf_tree 4096 INVALID_PAGE_ID 36
           full_leaf_recs [4096] (pad [100])).
  - lia.
  - exact full_leaf_pooled_shows.
  - eexists. split; [vm_compute; reflexivity|]. split; [cbn; lia|]. split; reflexivity.
  - apply alloc_check_sound. reflexivity.
  - apply list_elem_of_here.
  - cbn. repeat split; lia.
  - reflexivity.
  - intros H. apply list_elem_of_In in H. cbn in H.
    repeat (destruct H as [H|H]; [discriminate|]). exact H.
Defined.

(** ** Child offsets beyond the end of the file *)

(** C9, at the failing input: the root of [bad_pooled] sends the key 20 to
    the child offset 1048576, which is the size of the file.  [SearchLeaf]
    tests the child offset against PAGE_SIZE only; the pin of the child
    takes a frame and reads the page, and [DiskManager::PageData] throws
    [std::out_of_range].  Search and Delete raise it with any fuel, Insert
    does so on its way down; nothing catches it, and the frame stays pinned
    for a page that the page table does not know: it is neither free nor a
    candidate for eviction. *)
Theorem child_beyond_file_raises :
  descends (core bad_pooled) 20 (root_offset_ bad_pooled) 1048576 /\
  PAGE_SIZE <= 1048576 /\ file_size (core bad_pooled) < 1048576 + PAGE_SIZE /\
  (forall fuel, (0 < fuel)%nat -> fst (Search fuel 20 bad_pooled) = Throw out_of_range) /\
  (forall fuel, (1 < fuel)%nat -> fst (Insert fuel 20 [100] bad_pooled) = Throw out_of_range) /\
  (forall fuel, (0 < fuel)%nat -> fst (Delete fuel 20 bad_pooled) = Throw out_of_range) /\
  (forall fuel, (0 < fuel)%nat ->
     let s' := snd (Search fuel 20 bad_pooled) in
     free_list_ (pool_ s') = [] /\ lru_list_ (pool_ s') = [0%nat] /\
     page_table_ (pool_ s') !! 1048576 = None /\
     (fun f => (page_id f, pin_count f)) <$> frames_ (pool_ s') !! 1%nat = Some (1048576, 1)).
Proof.
  split; [|split; [|split; [|split; [|split; [|split]]]]].
  - apply (descends_here bad_tree 20 4096 (InternalPage.mk 1 [10] [8192; 1048576])).
    + split; [reflexivity | cbn; unfold PAGE_SIZE; lia].
    + reflexivity.
  - unfold PAGE_SIZE. lia.
  - cbn. unfold PAGE_SIZE. lia.
  - intros [|fuel] Hf; [lia|]. vm_compute. reflexivity.
  - intros [|[|fuel]] Hf; [lia|lia|]. vm_compute. reflexivity.
  - intros [|fuel] Hf; [lia|]. vm_compute. reflexivity.
  - intros [|fuel] Hf; [lia|]. vm_compute. repeat split; reflexivity.
Qed.

End PooledClaims.
